(* ===== verification/_CoqProject ===== *)
-Q . S2P
Prelude.v
GoStrings.v
GoFloat.v
GoTime.v
GoNet.v
GoJson.v
GoTimeParse.v
GoSha256.v
GoDuration.v
GoUtf8.v
GoValue.v
StoreData.v
Pb.v
Registry.v
Anomaly.v
TokenBucket.v
Validate.v
Codec.v
GoJsonList.v
NodeCodec.v
Badger.v
Store.v
StoreLog.v
StoreGC.v
AgentToken.v
Notify.v
Smtp.v
Alerting.v
HttpApi.v
Aggregator.v
AggregatorRun.v
Metrics.v
Receiver.v
ShippedRules.v
StreamProgress.v
Collector.v
CollectorApi.v
Mesh.v
TokenCli.v
Serve.v
