(* ===== verification/Prelude.v ===== *)
(** * SentinelMesh collector: verification library

    SentinelMesh watches hosts with eBPF agents.  This library verifies its Go
    control plane, [src/go-collector]: agents register and stream kernel
    events over gRPC; the collector authenticates, rate-limits and validates
    them, stores them in BadgerDB, evaluates alerting rules and a
    sliding-window anomaly detector, stores and sends the alerts, and serves
    everything over a REST API; in aggregate mode it polls other collectors
    instead.

    ** How the parts fit together

    [cmd/collector/main.go] builds the store, the registry with its heartbeat
    checker, the alerting engine, the detector, the notification dispatcher
    and the metrics, starts the REST server and calls [receiver.Serve].  All
    gRPC streams share that state; each handled message is a heartbeat, a save,
    an evaluation, the saves and notifications of its alerts, and one
    acknowledgement.  The token subcommands ([token.go]) work on the same
    database while the collector is stopped.

    ** The files

    The language and its standard library:
    - [Prelude]: errors ([result]), machine integers, the iteration order of
      maps ([map_order]), sorting, the hint database [go] and tactics;
    - [GoStrings], [GoNet], [GoTime], [GoTimeParse], [GoDuration], [GoFloat],
      [GoValue], [GoJson], [GoJsonList], [GoUtf8], [GoSha256]: what the collector uses of
      [strings], [strconv], [utf8], [net], [time], float64 arithmetic,
      [encoding/json], [crypto/sha256] and [encoding/hex].

    The program, one module each:
    - [StoreData], [Pb]: the records of [internal/store] and the messages of
      [internal/pb];
    - [Codec], [NodeCodec]: the stored records and the registry's entries as
      JSON, by the tags of their structs (class [Codec]);
    - [Badger]: class [Badger], what the store needs of BadgerDB, with a
      reference implementation;
    - [Store], [StoreLog], [StoreGC]: [internal/store/badger.go], its
      operations, the logs of records they implement (class [Kind]: events and
      alerts), and its collector goroutine with [Close];
    - [AgentToken]: [internal/store/agenttoken.go];
    - [Registry]: [internal/registry];
    - [Anomaly]: [internal/anomaly];
    - [TokenBucket], [Validate], [Receiver]: [internal/receiver/grpc.go];
    - [StreamProgress]: how many steps a stream takes for a message;
    - [Alerting]: [internal/alerting]; [ShippedRules]: [rules.yaml];
    - [Notify], [Smtp]: [internal/notify];
    - [Metrics]: [internal/otel/metrics.go];
    - [HttpApi]: [internal/exporter/api.go] and [internal/httpauth];
    - [Aggregator]: [internal/aggregator]; [AggregatorRun]: its goroutines,
      rounds and clients, interleaved;
    - [Collector]: all goroutines of a serving collector, interleaved;
      [CollectorApi]: the REST handlers and the metrics on the states it reaches;
    - [Mesh]: an aggregator over running collectors;
    - [TokenCli], [Serve]: [cmd/collector], [receiver.Serve] and
      [internal/otel/traces.go].

    ** How the code is modelled

    A pure function is a function; a method that changes its receiver takes
    and returns the record.  An operation that holds a mutex for its whole body
    is one step.  Clock readings, random bytes, generated identifiers, and the
    results of the operating system and of third-party packages are arguments.
    A loop over a Go map takes the order as an argument ([map_order]) and the
    theorems hold for every order.  An error is its text.  Integers are [Z] with
    the wrap-around or saturation of their width written out; a float64 is the
    rational it denotes, rounded after every operation.

    Concurrency is explicit.  A stream is a state machine ([Receiver.pc],
    [Receiver.stream_step]) whose steps are the parts of the loop between two
    accesses to shared state; the theorems about one stream hold with any
    shared state given to each step, that is, whatever the other goroutines do.
    [Collector.sys_step] is one step of any goroutine and [Collector.reaches]
    the runs; a request of the REST API reads the store in one state and the
    registry, read by read, in later ones ([CollectorApi.view]).  In the same
    way [AggregatorRun.step] is one step of a polling goroutine, of the loop
    that starts the rounds, or the reply to a client, and
    [AggregatorRun.runs] the runs with all that happened in them.  A store call that outlives its context goes on in the background
    ([Store.background]); a notification is a goroutine of the dispatcher.

    ** What the theorems show

    - The service ([Receiver]): a stream performs one complete transaction per
      message and acknowledges exactly what was saved ([stream_protocol]); an
      authenticated stream acts only as the node of its token
      ([authenticated_identity]); a stream stores at most its burst plus its
      rate times the elapsed time ([stream_rate_bound]); a message is dealt with
      in boundedly many steps ([message_terminates]); [register_effect] is the
      exact effect of Register.
    - The whole mesh ([Mesh]): what an aggregator over running collectors
      serves stems from messages these accepted from their agents, when the
      network loses but does not forge answers ([mesh_genuine]).
    - The running system ([Collector], [CollectorApi], [Serve], [TokenCli]): every listed event
      was there at the start or came from a validated message of a stream
      authenticated as its node ([listing_genuine]); a saved event or alert stays
      listed for seven days, restarts included, unless a save of the same key
      replaces it ([saved_records_listed]); in every state the REST API answers
      with events and alerts that were there at the start or stem from accepted
      messages, with exact pages and with exact counters ([api_answers]); the
      metrics count exactly the saves and their failures ([metrics_exact]); setting one environment
      variable confines REST to the token's holder and nodes and new events to
      nodes with an active token ([token_secures_collector]); issued tokens work and
      revoked ones do not, across processes ([token_lifecycle]).
    - Storage ([StoreLog], [StoreGC], [AgentToken]): the listings of events and
      alerts are those of abstract logs with expiry ([store_refines_log]),
      newest first ([events_newest_first]); [Close] returns ([close_returns]); the token operations
      implement a table by node ([tokens_refine_table]).
    - Registry: its invariant, a refinement of the life of an agent
      ([registry_refines_phases]) and exact detection of silence
      ([silent_agent]).
    - Detection ([Anomaly], [Alerting], [Validate]): the detector's counts equal
      counts over the whole history ([detector_counts_exact],
      [record_alerts_exact]); rules fire exactly when they hold
      ([evaluate_exact]); the events the shipped rules fire on, one rule never
      ([shipped_rules_exact]); validation accepts exactly the clean events
      ([validation_exact]).
    - Notifications ([Notify]): the gate is exactly severity and cooldown
      ([gate_exact]), deliveries are bounded and
      accounted for alert by alert ([dispatch_accounted]), and a mail that was
      sent is read by the server with exactly the header and body the code
      wrote, provided the rule's texts have no line break ([email_received],
      [line_break_ends_header]; [Smtp]).
    - The APIs ([HttpApi], [Aggregator]): no data without the token
      ([api_requires_token]), the exact roll-up by region ([regions_roll_up]),
      the exact outcome of a poll ([poll_exact]) and that polling a collector
      through its own router reproduces its data ([region_mirrored]);
      while it runs, the aggregator serves what the last two rounds of polls
      got ([replies_fresh]), and a round always ends ([round_completes]).
    - What the code does and its authors may not expect: events of one second
      may be listed out of order ([same_second_misordered]), a save given up on
      is stored but not counted ([late_write_uncounted]), a token of a node
      id that is not UTF-8 cannot be revoked ([invalid_utf8_not_revoked]), [eq]
      fails on large integers ([large_integer_eq_fails]), rules on absent
      fields never match ([absent_field_unmatched]), a manually deactivated agent is never
      evicted ([set_inactive_never_evicted]), mail with credentials never
      reaches a remote server ([remote_auth_fails]), and the detector's default
      threshold is one above the documented one ([default_threshold]).

    Every theorem with hypotheses is applied to concrete data by a lemma named
    after it with the suffix [_witness]; the modules [Example] hold the data.

    ** Bounds and fuel

    The JSON decoder recurses on the nesting it still allows, the smaller of
    encoding/json's own limit of 10000 and the length of the text, so running
    out is the decoder's error; the loops over members and elements, over the
    groups of an IPv6 address, over the units of a duration and over the bytes
    to trim have the length of the input as fuel, and each turn consumes at
    least one byte.  SHA-256 has the number of words of the padded
    message as fuel, and a block takes sixteen.
    A decimal integer has 20 digits of fuel, enough for 64 bits; the shortest
    digits of a float64 are searched up to 17, which always suffice.  The
    exponents of float64 values are not bounded: the collector's stay far
    inside the range.

    ** What is not modelled

    BadgerDB, gRPC, gin, cobra, OpenTelemetry, zap, the YAML decoder, [regexp],
    the HTTP client, the SMTP server and TLS are third-party or library code: they are
    arguments, or the classes that state what is used of them.  The generated
    wire code of [internal/pb] is protobuf's; only its structs and getters are
    modelled.  Left out are the log lines (other than the startup warnings
    and the end of the HTTP server), tracing spans, CORS, the serving of files, signals, and the column padding of
    [token list].  The Rust agent, the web UI and the scripts are other
    programs.

    ** Open ends

    The spans the receiver opens around the evaluation of an event are not
    modelled.  The time a poll takes, bounded in the code by the client's
    timeout, is not: a round is a number of steps.  The listings of a rule set whose
    texts are not valid UTF-8 are not covered by [api_answers]. *)

From Stdlib Require Export Ascii.
From stdpp Require Export base tactics option list gmap strings sorting relations.
From Stdlib Require Export ZArith Lia Permutation Sorted.

#[global] Set Warnings "-clear-no-such-hyp".
#[global] Open Scope Z_scope.

(** ** Notation

    [go_scope] holds the notations that mirror Go's concrete syntax. *)

Declare Scope go_scope.
Delimit Scope go_scope with go.
#[global] Open Scope go_scope.

(** Go string equality and concatenation as the code writes them. *)
Notation "s =s t" := (bool_decide (s = t)) (at level 70, no associativity) : go_scope.
Notation "s <>s t" := (negb (bool_decide (s = t))) (at level 70, no associativity) : go_scope.

(** ** Errors

    A Go function returning [(T, error)] returns [Ok v] when the error is nil
    and [Err e] otherwise.  An error is its message. *)

Abbreviation error := string (only parsing).

Inductive result (A : Type) : Type :=
| Ok (a : A)
| Err (e : error).
Arguments Ok {_} _.
Arguments Err {_} _.

#[global] Instance result_ret : MRet result := @Ok.
#[global] Instance result_bind : MBind result := λ A B f r,
  match r with Ok a => f a | Err e => Err e end.
#[global] Instance result_eq_dec `{EqDecision A} : EqDecision (result A).
Proof. solve_decision. Defined.

Definition is_Ok {A} (r : result A) : bool := match r with Ok _ => true | Err _ => false end.

(** ** Machine integers

    Go's [int] and [int64] are 64-bit two's complement; [uint64] wraps modulo
    [2^64]. *)

Definition max_int64 : Z := 2 ^ 63 - 1.
Definition min_int64 : Z := - 2 ^ 63.
Definition in_int64 (z : Z) : Prop := min_int64 <= z <= max_int64.
Definition wrap64 (z : Z) : Z := (z + 2 ^ 63) mod 2 ^ 64 - 2 ^ 63.
Definition wrapu64 (z : Z) : Z := z mod 2 ^ 64.

(** Clamping into the int64 range, as [time.Time.Sub] does. *)
Definition sat64 (z : Z) : Z := Z.max min_int64 (Z.min max_int64 z).

#[global] Instance in_int64_dec z : Decision (in_int64 z).
Proof. unfold in_int64. apply _. Defined.

(** ** Tactics *)

Create HintDb go discriminated.

(** Turn the boolean comparisons of the code into propositions. *)
Ltac zbool :=
  repeat match goal with
  | H : (_ <? _) = true |- _ => apply Z.ltb_lt in H
  | H : (_ <? _) = false |- _ => apply Z.ltb_ge in H
  | H : (_ <=? _) = true |- _ => apply Z.leb_le in H
  | H : (_ <=? _) = false |- _ => apply Z.leb_gt in H
  | H : (_ =? _) = true |- _ => apply Z.eqb_eq in H
  | H : (_ =? _) = false |- _ => apply Z.eqb_neq in H
  | H : (_ >? _) = _ |- _ => rewrite Z.gtb_ltb in H
  | H : (_ >=? _) = _ |- _ => rewrite Z.geb_leb in H
  | H : (_ && _) = true |- _ => apply andb_true_iff in H as [? ?]
  | H : (_ || _) = false |- _ => apply orb_false_iff in H as [? ?]
  | H : negb _ = true |- _ => apply negb_true_iff in H
  | H : negb _ = false |- _ => apply negb_false_iff in H
  | H : bool_decide _ = true |- _ => apply bool_decide_eq_true_1 in H
  | H : bool_decide _ = false |- _ => apply bool_decide_eq_false_1 in H
  end.

(** Case analysis on the first [if]/[match] scrutinee of the goal, with the
    tests turned into propositions. *)
Ltac go_case := case_match; zbool; simplify_eq/=.
Ltac go_cases := repeat go_case.

(** ** Integers *)

Lemma wrap64_id z : in_int64 z → wrap64 z = z.
Proof.
  unfold in_int64, min_int64, max_int64, wrap64. intros H.
  rewrite Z.mod_small; lia.
Qed.

Lemma wrap64_range z : in_int64 (wrap64 z).
Proof.
  unfold in_int64, min_int64, max_int64, wrap64.
  pose proof (Z.mod_pos_bound (z + 2 ^ 63) (2 ^ 64) ltac:(lia)). lia.
Qed.

Lemma wrap64_step a b : wrap64 (wrap64 a + b) = wrap64 (a + b).
Proof.
  unfold wrap64. f_equal.
  replace ((a + 2 ^ 63) mod 2 ^ 64 - 2 ^ 63 + b + 2 ^ 63) with ((a + 2 ^ 63) mod 2 ^ 64 + b) by lia.
  rewrite Z.add_mod_idemp_l by lia. f_equal. lia.
Qed.

Lemma sat64_id z : in_int64 z → sat64 z = z.
Proof. unfold in_int64, sat64. lia. Qed.

Lemma sat64_range z : in_int64 (sat64 z).
Proof. unfold in_int64, sat64, min_int64, max_int64. lia. Qed.

Lemma sat64_mono x y : x <= y → sat64 x <= sat64 y.
Proof. unfold sat64. lia. Qed.

(** A saturated value compares with an int64 exactly as the unsaturated one,
    except at the two ends of the range. *)
Lemma sat64_gt x d : in_int64 d → d < max_int64 → d < sat64 x ↔ d < x.
Proof. unfold in_int64, sat64, min_int64, max_int64. lia. Qed.

Lemma sat64_lt x d : in_int64 d → min_int64 < d → sat64 x < d ↔ x < d.
Proof. unfold in_int64, sat64, min_int64, max_int64. lia. Qed.

#[export] Hint Resolve wrap64_range sat64_range : go.

(** ** Lists *)

Lemma filter_none {A} (P : A → Prop) `{!∀ x, Decision (P x)} l :
  Forall (λ x, ¬ P x) l → filter P l = [].
Proof. induction 1 as [|x l Hx _ IH]; [done|]. by rewrite filter_cons_False. Qed.

Lemma filter_all {A} (P : A → Prop) `{!∀ x, Decision (P x)} l :
  Forall P l → filter P l = l.
Proof. induction 1 as [|x l Hx _ IH]; [done|]. rewrite filter_cons_True by done. by rewrite IH. Qed.

Lemma StronglySorted_filter {A} (R : relation A) (P : A → Prop) `{!∀ x, Decision (P x)} l :
  StronglySorted R l → StronglySorted R (filter P l).
Proof.
  induction 1 as [|x l Hs IH Hx]; [constructor|]. rewrite filter_cons. case_decide; [|done].
  constructor; [done|]. rewrite Forall_forall in *. intros y [_ Hy]%list_elem_of_filter. auto.
Qed.

Lemma StronglySorted_irrefl_NoDup {A} (R : relation A) l :
  (∀ x, ¬ R x x) → StronglySorted R l → NoDup l.
Proof.
  intros Hirr. induction 1 as [|x l Hs IH Hx]; constructor; [|done].
  rewrite Forall_forall in Hx. intros Hin. by apply (Hirr x), Hx.
Qed.

(** Loops that skip or keep a prefix of a list. *)
Fixpoint skip_while {A} (f : A → bool) (l : list A) : list A :=
  match l with
  | [] => []
  | x :: l' => if f x then skip_while f l' else l
  end.

Fixpoint keep_while {A} (f : A → bool) (l : list A) : list A :=
  match l with
  | [] => []
  | x :: l' => if f x then x :: keep_while f l' else []
  end.

(** Skipping elements that [f] rejects and keeping while [f] holds is the same
    as filtering, when the elements that satisfy [f] are contiguous. *)
Lemma keep_skip_filter {A} (R : relation A) (f g : A → bool) l :
  StronglySorted R l →
  (∀ x, g x = true → x ∈ l → f x = false) →
  (∀ x y, R x y → x ∈ l → y ∈ l → g x = false → f x = false → f y = false) →
  (∀ x y, R x y → x ∈ l → y ∈ l → g x = false → g y = false) →
  keep_while f (skip_while g l) = filter (λ x, f x = true) l.
Proof.
  intros Hs. induction Hs as [|x l Hs IH Hx]; intros H1 H2 H3; [done|].
  rewrite Forall_forall in Hx. cbn [skip_while].
  assert (∀ y, y ∈ l → y ∈ x :: l) as Hin by (intros; by right).
  assert (x ∈ x :: l) as Hxin by left.
  destruct (g x) eqn:Hg.
  - rewrite filter_cons_False by (by rewrite H1).
    apply IH; naive_solver.
  - clear IH. assert (∀ m, (∀ y, y ∈ m → y ∈ l) → StronglySorted R m →
      keep_while f m = filter (λ x, f x = true) m) as Hkeep.
    { intros m Hm Hsm. induction Hsm as [|y m Hsm IH Hy]; [done|]. cbn [keep_while].
      rewrite Forall_forall in Hy.
      assert (y ∈ l) as Hyl by (apply Hm; left).
      assert (g y = false) as Hgy by eauto.
      destruct (f y) eqn:Hf.
      - rewrite filter_cons_True by done. f_equal. apply IH. intros; apply Hm; by right.
      - rewrite filter_cons_False by (by rewrite Hf). rewrite filter_none; [done|].
        apply Forall_forall. intros z Hz. rewrite (H2 y z); auto. apply Hin, Hm. by right. }
    cbn [keep_while]. destruct (f x) eqn:Hf.
    + rewrite filter_cons_True by done. f_equal. by apply Hkeep.
    + rewrite filter_cons_False by (by rewrite Hf). rewrite filter_none; [done|].
      apply Forall_forall. intros z Hz. rewrite (H2 x z); auto.
Qed.

(** Sums of integers. *)
Definition zsum (l : list Z) : Z := foldr Z.add 0 l.

#[global] Instance zsum_perm : Proper ((≡ₚ) ==> (=)) zsum.
Proof. intros l1 l2. induction 1; simpl; lia. Qed.

Lemma zsum_app l1 l2 : zsum (l1 ++ l2) = zsum l1 + zsum l2.
Proof. induction l1; simpl; lia. Qed.

(** ** Ranging over a Go map

    Go iterates over a map in an unspecified order, which may change from one
    loop to the next.  Each loop takes the order it happens to see, a
    [map_order], as an argument. *)

Section RangeOrder.
Context {K : Type} `{Countable K} {V : Type}.
Implicit Types (m : gmap K V) (l : list (K * V)).

Definition range_order m l : Prop := l ≡ₚ map_to_list m.

Lemma range_order_NoDup m l : range_order m l → NoDup (l.*1).
Proof. unfold range_order. intros ->. apply NoDup_fst_map_to_list. Qed.

Lemma range_order_lookup m l k v : range_order m l → (k, v) ∈ l ↔ m !! k = Some v.
Proof. unfold range_order. intros ->. apply elem_of_map_to_list. Qed.

Lemma range_order_to_map m l : range_order m l → list_to_map l = m.
Proof.
  intros Hl. rewrite <-(list_to_map_to_list m).
  apply list_to_map_proper; [by eapply range_order_NoDup|exact Hl].
Qed.

Lemma range_order_self m : range_order m (map_to_list m).
Proof. unfold range_order. reflexivity. Qed.

Lemma range_order_length m l : range_order m l → length l = size m.
Proof. unfold range_order. intros ->. apply length_map_to_list. Qed.

(** A loop over [m] whose body for key [k] sets or deletes only the entry
    [k], from the value it had when the iteration started, computes the same
    map in every order: the pointwise image of [m]. *)
Definition update_entry (f : K → V → option V) (m : gmap K V) (kv : K * V) : gmap K V :=
  match f kv.1 kv.2 with
  | Some v' => <[kv.1 := v']> m
  | None => delete kv.1 m
  end.

Lemma update_entry_ne f m kv k : k ≠ kv.1 → update_entry f m kv !! k = m !! k.
Proof.
  intros Hne. unfold update_entry. destruct (f _ _).
  - by rewrite lookup_insert_ne.
  - by rewrite lookup_delete_ne.
Qed.

Lemma update_entry_eq f m k v : update_entry f m (k, v) !! k = f k v.
Proof.
  unfold update_entry; simpl. destruct (f k v).
  - by rewrite lookup_insert_eq.
  - by rewrite lookup_delete_eq.
Qed.

Lemma fold_update_notin f l m k :
  k ∉ l.*1 → foldl (update_entry f) m l !! k = m !! k.
Proof.
  revert m. induction l as [|kv l IH]; intros m Hk; simpl; [done|].
  rewrite fmap_cons, not_elem_of_cons in Hk. destruct Hk as [Hne Hk].
  rewrite IH by done. by apply update_entry_ne.
Qed.

Lemma fold_update_in f l m k v :
  NoDup (l.*1) → (k, v) ∈ l → foldl (update_entry f) m l !! k = f k v.
Proof.
  revert m. induction l as [|[k' v'] l IH]; intros m Hnd Hin; simpl.
  { by apply elem_of_nil in Hin. }
  rewrite fmap_cons, NoDup_cons in Hnd. destruct Hnd as [Hk' Hnd].
  apply elem_of_cons in Hin as [Heq|Hin].
  - injection Heq as -> ->. rewrite fold_update_notin by done. apply update_entry_eq.
  - by apply IH.
Qed.

Lemma range_update f m l :
  range_order m l → foldl (update_entry f) m l = map_imap f m.
Proof.
  intros Hl. apply map_eq. intros k. rewrite map_lookup_imap.
  destruct (m !! k) as [v|] eqn:Hk; simpl.
  - apply fold_update_in; [by eapply range_order_NoDup|].
    by apply (range_order_lookup m l).
  - rewrite fold_update_notin; [done|].
    intros Hin. apply list_elem_of_fmap in Hin as [[k' v'] [-> Hin]].
    apply (range_order_lookup m l) in Hin; [|done]. by simplify_eq/=.
Qed.
End RangeOrder.
#[global] Arguments range_order {_ _ _ _} _ _ : assert.

Record map_order (K : Type) `{Countable K} (V : Type) := MapOrder {
  visit : gmap K V → list (K * V);
  visit_order m : range_order m (visit m);
}.
Arguments MapOrder {_ _ _ _} _ _.
Arguments visit {_ _ _ _} _ _.
Arguments visit_order {_ _ _ _} _ _.

(** The order in which stdpp enumerates a map: one legal order, used to run
    the definitions. *)
Definition canonical_order {K} `{Countable K} {V} : map_order K V :=
  MapOrder map_to_list range_order_self.

Lemma elem_of_visit {K} `{Countable K} {V} (o : map_order K V) m k v :
  (k, v) ∈ visit o m ↔ m !! k = Some v.
Proof. apply range_order_lookup, visit_order. Qed.

Lemma visit_perm {K} `{Countable K} {V} (o : map_order K V) m : visit o m ≡ₚ map_to_list m.
Proof. apply visit_order. Qed.

Lemma visit_update {K} `{Countable K} {V} (o : map_order K V) f m :
  foldl (update_entry f) m (visit o m) = map_imap f m.
Proof. apply range_update, visit_order. Qed.

#[export] Hint Resolve range_order_self range_order_NoDup visit_order visit_perm : go.

(** ** Sorting

    [sort.Strings] orders by bytes, as [String.le] does; a sorting routine on
    distinct keys has only one possible result. *)

Definition sort_Strings (l : list string) : list string := merge_sort String.le l.

Lemma sort_Strings_Permutation l : sort_Strings l ≡ₚ l.
Proof. apply merge_sort_Permutation. Qed.

Lemma sort_Strings_Sorted l : StronglySorted String.le (sort_Strings l).
Proof. apply StronglySorted_merge_sort; apply _. Qed.

Lemma sort_Strings_perm l1 l2 : l1 ≡ₚ l2 → sort_Strings l1 = sort_Strings l2.
Proof.
  intros Hp. apply (StronglySorted_unique String.le); try apply sort_Strings_Sorted.
  by rewrite !sort_Strings_Permutation.
Qed.
