(* ===== verification/GoStrings.v ===== *)
(** * Go strings

    The parts of Go's string type and of the packages [strings], [strconv] and
    [unicode/utf8] that the collector uses.  A Go string is a sequence of
    bytes, a [string] of 8-bit characters here. *)

From S2P Require Import Prelude.

Module GoStrings.

(** ** Bytes *)

Definition byte_val (c : ascii) : Z := Z.of_N (N_of_ascii c).
Definition byte_of (z : Z) : ascii := ascii_of_N (Z.to_N z).

Fixpoint bytes (s : string) : list Z :=
  match s with
  | EmptyString => []
  | String c s => byte_val c :: bytes s
  end.

Fixpoint of_bytes (l : list Z) : string :=
  match l with
  | [] => EmptyString
  | b :: l => String (byte_of b) (of_bytes l)
  end.

(** [len(s)]. *)
Definition len (s : string) : Z := Z.of_nat (String.length s).

Lemma byte_val_range c : 0 <= byte_val c < 256.
Proof. unfold byte_val. pose proof (N_ascii_bounded c). lia. Qed.

Lemma byte_of_val c : byte_of (byte_val c) = c.
Proof. unfold byte_of, byte_val. rewrite N2Z.id. apply ascii_N_embedding. Qed.

Lemma byte_val_of z : 0 <= z < 256 → byte_val (byte_of z) = z.
Proof. intros H. unfold byte_of, byte_val. rewrite N_ascii_embedding; lia. Qed.

#[global] Instance byte_val_inj : Inj (=) (=) byte_val.
Proof. intros c1 c2 H. by rewrite <-(byte_of_val c1), H, byte_of_val. Qed.

Lemma of_bytes_bytes s : of_bytes (bytes s) = s.
Proof. induction s as [|c s IH]; simpl; [done|]. by rewrite byte_of_val, IH. Qed.

Lemma bytes_of_bytes l : Forall (λ b, 0 <= b < 256) l → bytes (of_bytes l) = l.
Proof. induction 1 as [|b l Hb _ IH]; simpl; [done|]. by rewrite byte_val_of, IH. Qed.

#[global] Instance bytes_inj : Inj (=) (=) bytes.
Proof. intros s1 s2 H. by rewrite <-(of_bytes_bytes s1), H, of_bytes_bytes. Qed.

Lemma bytes_range s : Forall (λ b, 0 <= b < 256) (bytes s).
Proof. induction s; simpl; constructor; auto using byte_val_range. Qed.

Lemma length_bytes s : length (bytes s) = String.length s.
Proof. induction s; simpl; auto. Qed.

Lemma bytes_app s1 s2 : bytes (s1 +:+ s2) = bytes s1 ++ bytes s2.
Proof. induction s1 as [|c s1 IH]; [done|]. simpl. by rewrite <-IH. Qed.

Lemma of_bytes_app l1 l2 : of_bytes (l1 ++ l2) = of_bytes l1 +:+ of_bytes l2.
Proof. induction l1 as [|c s1 IH]; [done|]. simpl. by rewrite IH. Qed.

Lemma bytes_nil s : bytes s = [] ↔ s = "".
Proof. by destruct s. Qed.

(** ** UTF-8

    [DecodeRuneInString] on the bytes of a non-empty string: the rune and its
    width; an invalid encoding is the replacement character, of width 1. *)

Definition RuneError : Z := 0xFFFD.

Definition is_cont (lo hi b : Z) : bool := (lo <=? b) && (b <=? hi).

Definition decode_rune (b0 : Z) (rest : list Z) : Z * nat :=
  if b0 <? 0x80 then (b0, 1%nat)
  else if (b0 <? 0xC2) || (0xF4 <? b0) then (RuneError, 1%nat)
  else if b0 <? 0xE0 then
    match rest with
    | b1 :: _ =>
        if is_cont 0x80 0xBF b1 then ((b0 - 0xC0) * 64 + (b1 - 0x80), 2%nat)
        else (RuneError, 1%nat)
    | _ => (RuneError, 1%nat)
    end
  else if b0 <? 0xF0 then
    match rest with
    | b1 :: b2 :: _ =>
        let lo := if b0 =? 0xE0 then 0xA0 else 0x80 in
        let hi := if b0 =? 0xED then 0x9F else 0xBF in
        if is_cont lo hi b1 && is_cont 0x80 0xBF b2
        then ((b0 - 0xE0) * 4096 + (b1 - 0x80) * 64 + (b2 - 0x80), 3%nat)
        else (RuneError, 1%nat)
    | _ => (RuneError, 1%nat)
    end
  else
    match rest with
    | b1 :: b2 :: b3 :: _ =>
        let lo := if b0 =? 0xF0 then 0x90 else 0x80 in
        let hi := if b0 =? 0xF4 then 0x8F else 0xBF in
        if is_cont lo hi b1 && is_cont 0x80 0xBF b2 && is_cont 0x80 0xBF b3
        then ((b0 - 0xF0) * 262144 + (b1 - 0x80) * 4096 + (b2 - 0x80) * 64 + (b3 - 0x80), 4%nat)
        else (RuneError, 1%nat)
    | _ => (RuneError, 1%nat)
    end.

(** The runes [for _, r := range s] visits; [skip] counts the bytes still to
    pass over of the rune decoded last. *)
Fixpoint runes_from (skip : nat) (l : list Z) : list Z :=
  match l with
  | [] => []
  | b :: l' =>
      match skip with
      | S k => runes_from k l'
      | O => let '(r, w) := decode_rune b l' in r :: runes_from (pred w) l'
      end
  end.

Definition runes (s : string) : list Z := runes_from 0 (bytes s).

(** An ASCII byte decodes to itself; any other byte starts a rune that is not
    ASCII. *)
Lemma decode_ascii b l : b < 0x80 → decode_rune b l = (b, 1%nat).
Proof. intros H. unfold decode_rune. by rewrite (proj2 (Z.ltb_lt _ _)). Qed.

Lemma decode_non_ascii b l : 0x80 <= b → 0x80 <= (decode_rune b l).1.
Proof.
  intros H. unfold decode_rune, is_cont, RuneError.
  rewrite (proj2 (Z.ltb_ge b 0x80)) by lia.
  repeat (case_match; zbool; simpl; try lia).
Qed.

(** ** Package strings *)

Fixpoint CutPrefix (s prefix : string) : option string :=
  match prefix, s with
  | EmptyString, _ => Some s
  | String p prefix, String c s => if decide (c = p) then CutPrefix s prefix else None
  | _, EmptyString => None
  end.

Definition HasPrefix (s prefix : string) : bool :=
  match CutPrefix s prefix with Some _ => true | None => false end.

Fixpoint Contains (s sub : string) : bool :=
  HasPrefix s sub || match s with EmptyString => false | String _ s => Contains s sub end.

(** [strings.Cut(s, c)] and [strings.Split(s, c)] for a one-byte separator. *)
Fixpoint Cut (s : string) (sep : ascii) : option (string * string) :=
  match s with
  | EmptyString => None
  | String c s' =>
      if decide (c = sep) then Some ("", s')
      else match Cut s' sep with
           | Some (a, b) => Some (String c a, b)
           | None => None
           end
  end.

Fixpoint Split (s : string) (sep : ascii) : list string :=
  match s with
  | EmptyString => [""]
  | String c s' =>
      if decide (c = sep) then "" :: Split s' sep
      else match Split s' sep with
           | p :: ps => String c p :: ps
           | [] => [String c ""]
           end
  end.

Fixpoint Join (l : list string) (sep : string) : string :=
  match l with
  | [] => ""
  | [s] => s
  | s :: l => s +:+ sep +:+ Join l sep
  end.

(** [strings.TrimSpace]: a string starts (ends) with a white-space rune iff it
    starts (ends) with the encoding of one. *)
Definition space_encodings : list (list Z) :=
  [[0x09]; [0x0A]; [0x0B]; [0x0C]; [0x0D]; [0x20];
   [0xC2; 0x85]; [0xC2; 0xA0]; [0xE1; 0x9A; 0x80];
   [0xE2; 0x80; 0x80]; [0xE2; 0x80; 0x81]; [0xE2; 0x80; 0x82]; [0xE2; 0x80; 0x83];
   [0xE2; 0x80; 0x84]; [0xE2; 0x80; 0x85]; [0xE2; 0x80; 0x86]; [0xE2; 0x80; 0x87];
   [0xE2; 0x80; 0x88]; [0xE2; 0x80; 0x89]; [0xE2; 0x80; 0x8A];
   [0xE2; 0x80; 0xA8]; [0xE2; 0x80; 0xA9]; [0xE2; 0x80; 0xAF]; [0xE2; 0x81; 0x9F];
   [0xE3; 0x80; 0x80]].

Fixpoint strip_list (l pre : list Z) : option (list Z) :=
  match pre, l with
  | [], _ => Some l
  | p :: pre, b :: l => if b =? p then strip_list l pre else None
  | _, [] => None
  end.

Fixpoint strip_first (encs : list (list Z)) (l : list Z) : option (list Z) :=
  match encs with
  | [] => None
  | e :: encs => match strip_list l e with Some l' => Some l' | None => strip_first encs l end
  end.

Fixpoint trim_with (encs : list (list Z)) (fuel : nat) (l : list Z) : list Z :=
  match fuel with
  | O => l
  | S fuel => match strip_first encs l with Some l' => trim_with encs fuel l' | None => l end
  end.

Definition trim_bytes (l : list Z) : list Z :=
  let l1 := trim_with space_encodings (length l) l in
  rev (trim_with (@rev Z <$> space_encodings) (length l1) (rev l1)).

Definition TrimSpace (s : string) : string := of_bytes (trim_bytes (bytes s)).

(** [strings.ToLower], as far as a comparison with an ASCII string can see it:
    of the non-ASCII runes only U+0130 and U+212A have ASCII lower case. *)
Fixpoint lower_bytes (l : list Z) : list Z :=
  match l with
  | 0xC4 :: 0xB0 :: l => 0x69 :: lower_bytes l
  | 0xE2 :: ((0x84 :: 0xAA :: l) as l') => 0x6B :: lower_bytes l
  | b :: l => (if (0x41 <=? b) && (b <=? 0x5A) then b + 32 else b) :: lower_bytes l
  | [] => []
  end.

Definition ToLower (s : string) : string := of_bytes (lower_bytes (bytes s)).

(** [strings.TrimRight(s, "c")] for one cut byte. *)
Definition TrimRight (s : string) (c : ascii) : string :=
  of_bytes (rev (skip_while (λ b, b =? byte_val c) (rev (bytes s)))).

(** ** Decimal numbers *)

Definition digit (d : Z) : ascii := byte_of (48 + d).

(** The decimal digits of [z >= 0], most significant first; [fuel] bounds the
    number of digits. *)
Fixpoint dec_digits (fuel : nat) (z : Z) (acc : string) : string :=
  match fuel with
  | O => acc
  | S fuel =>
      let acc := String (digit (z mod 10)) acc in
      if z <? 10 then acc else dec_digits fuel (z / 10) acc
  end.

(** [%d] for a 64-bit integer: at most 20 digits. *)
Definition Itoa (z : Z) : string :=
  if z <? 0 then String "-"%char (dec_digits 20 (- z) "") else dec_digits 20 z "".

(** [%0wd]. *)
Fixpoint pad_dec (w : nat) (z : Z) (acc : string) : string :=
  match w with
  | O => acc
  | S w => pad_dec w (z / 10) (String (digit (z mod 10)) acc)
  end.

(** ** Byte order *)

(** [s < t]: the order of Go's string comparison and of [bytes.Compare]. *)
Definition str_lt (s t : string) : Prop := String.compare s t = Lt.

#[global] Instance str_lt_dec s t : Decision (str_lt s t).
Proof. unfold str_lt. destruct (String.compare s t); [right|left|right]; done. Defined.

Lemma ascii_compare_val c c' : Ascii.compare c c' = Z.compare (byte_val c) (byte_val c').
Proof. unfold byte_val, Ascii.compare. symmetry. apply N2Z.inj_compare. Qed.

Lemma str_compare_cons c s c' s' :
  String.compare (String c s) (String c' s')
  = match Z.compare (byte_val c) (byte_val c') with
    | Eq => String.compare s s' | Lt => Lt | Gt => Gt end.
Proof. simpl. rewrite ascii_compare_val. by destruct (Z.compare _ _). Qed.

Lemma str_lt_cons c s s' : str_lt s s' → str_lt (String c s) (String c s').
Proof. unfold str_lt. by rewrite str_compare_cons, Z.compare_refl. Qed.

Lemma str_lt_head c s c' s' : byte_val c < byte_val c' → str_lt (String c s) (String c' s').
Proof. unfold str_lt. intros H%Z.compare_lt_iff. by rewrite str_compare_cons, H. Qed.

Lemma str_lt_app p s s' : str_lt s s' → str_lt (p +:+ s) (p +:+ s').
Proof. intros H. induction p as [|c p IH]; [done|]. by apply str_lt_cons. Qed.

Lemma str_lt_irrefl s : ¬ str_lt s s.
Proof.
  unfold str_lt. induction s as [|c s IH]; [done|]. by rewrite str_compare_cons, Z.compare_refl.
Qed.

Lemma str_lt_trans s t u : str_lt s t → str_lt t u → str_lt s u.
Proof.
  unfold str_lt. revert t u.
  induction s as [|c s IH]; intros [|c' t] [|c'' u]; try done; rewrite ?str_compare_cons.
  destruct (Z.compare_spec (byte_val c) (byte_val c')) as [E1|L1|], 
    (Z.compare_spec (byte_val c') (byte_val c'')) as [E2|L2|]; try done; intros H1 H2;
    destruct (Z.compare_spec (byte_val c) (byte_val c'')); try lia; eauto.
Qed.

Lemma str_lt_total s t : str_lt s t ∨ s = t ∨ str_lt t s.
Proof.
  unfold str_lt. revert t. induction s as [|c s IH]; intros [|c' t]; auto.
  rewrite !str_compare_cons.
  destruct (Z.compare_spec (byte_val c) (byte_val c')) as [E|L|L]; [|by auto|].
  - apply (inj byte_val) in E as ->. rewrite Z.compare_refl.
    destruct (IH t) as [?|[->|?]]; auto.
  - right; right. by apply Z.compare_lt_iff in L as ->.
Qed.

Lemma str_lt_le s t : str_lt s t → String.le s t.
Proof. unfold str_lt. intros H. unfold String.le, String.leb. by rewrite H. Qed.

Lemma pad_dec_app w z acc : pad_dec w z acc = pad_dec w z "" +:+ acc.
Proof.
  revert z acc. induction w as [|w IH]; intros z acc; simpl; [done|].
  rewrite (IH _ (String _ acc)), (IH _ (String _ "")).
  apply (inj bytes). rewrite !bytes_app. simpl. by rewrite <-app_assoc.
Qed.

(** A zero-padded number followed by anything: the numbers decide, then the
    tails. *)
Lemma pad_dec_lt w a b x y :
  0 <= a → b < 10 ^ Z.of_nat w → a < b ∨ a = b ∧ str_lt x y →
  str_lt (pad_dec w a x) (pad_dec w b y).
Proof.
  revert a b x y. induction w as [|w IH]; intros a b x y Ha Hb Hlt.
  { simpl in *. destruct Hlt as [?|[_ ?]]; [lia|done]. }
  rewrite Nat2Z.inj_succ, Z.pow_succ_r in Hb by lia.
  destruct Hlt as [Hlt|[-> Hlt]]; simpl.
  - apply IH; [apply Z.div_pos; lia|apply Z.div_lt_upper_bound; lia|].
    pose proof (Z.div_mod a 10 ltac:(lia)). pose proof (Z.div_mod b 10 ltac:(lia)).
    pose proof (Z.mod_pos_bound a 10 ltac:(lia)). pose proof (Z.mod_pos_bound b 10 ltac:(lia)).
    destruct (Z.lt_ge_cases (a / 10) (b / 10)); [by left|right; split; [lia|]].
    apply str_lt_head. unfold digit. rewrite !byte_val_of by lia. lia.
  - apply IH; [apply Z.div_pos; lia|apply Z.div_lt_upper_bound; lia|].
    right. split; [done|]. by apply str_lt_cons.
Qed.

(** ** Prefixes *)

Lemma CutPrefix_Some s p r : CutPrefix s p = Some r ↔ s = p +:+ r.
Proof.
  revert s. induction p as [|c p IH]; intros s.
  { change ("" +:+ r) with r. destruct s; simpl; naive_solver. }
  change (String c p +:+ r) with (String c (p +:+ r)). destruct s as [|c' s]; simpl; [done|].
  case_decide; [subst; rewrite IH; naive_solver|naive_solver].
Qed.

Lemma HasPrefix_true s p : HasPrefix s p = true ↔ ∃ r, s = p +:+ r.
Proof.
  unfold HasPrefix. destruct (CutPrefix s p) as [r|] eqn:Hc.
  - apply CutPrefix_Some in Hc. naive_solver.
  - split; [done|]. intros [r Hr%CutPrefix_Some]. congruence.
Qed.

Lemma HasPrefix_app p r : HasPrefix (p +:+ r) p = true.
Proof. apply HasPrefix_true. eauto. Qed.

(** A string without the prefix [p] is on the same side of [p] and of every
    string with that prefix. *)
Lemma prefix_compare p s r :
  HasPrefix s p = false → String.compare s (p +:+ r) = String.compare s p.
Proof.
  revert s. induction p as [|c p IH]; intros s Hp; [by destruct s|].
  destruct s as [|c' s]; [done|].
  change (String c p +:+ r) with (String c (p +:+ r)). rewrite !str_compare_cons.
  destruct (Z.compare_spec (byte_val c') (byte_val c)) as [E| |]; try done.
  apply (inj byte_val) in E as ->. apply IH. unfold HasPrefix in *. simpl in Hp.
  by rewrite decide_True in Hp.
Qed.

Lemma prefix_lt p s r : HasPrefix s p = false → str_lt s (p +:+ r) ↔ str_lt s p.
Proof. intros H. unfold str_lt. by rewrite prefix_compare. Qed.

Lemma prefix_le p r : ¬ str_lt (p +:+ r) p.
Proof.
  intros H. induction p as [|c p IH]; [by destruct r|].
  change (String c p +:+ r) with (String c (p +:+ r)) in H. unfold str_lt in *.
  rewrite str_compare_cons, Z.compare_refl in H. by apply IH.
Qed.

(** ** Separators *)

Fixpoint no_char (c : ascii) (s : string) : Prop :=
  match s with String c' s => c' ≠ c ∧ no_char c s | EmptyString => True end.

#[global] Instance no_char_dec c s : Decision (no_char c s).
Proof. induction s; simpl; apply _. Defined.

(** The first occurrence of a character splits a string in only one way. *)
Lemma no_char_cut c a b x y :
  no_char c a → no_char c b → a +:+ String c x = b +:+ String c y → a = b ∧ x = y.
Proof.
  revert b. induction a as [|c1 a IH]; intros [|c2 b] Ha Hb.
  - by intros [= ->].
  - intros [= <- _]. by destruct Hb.
  - intros [= -> _]. by destruct Ha.
  - destruct Ha as [_ Ha], Hb as [_ Hb]. intros [= -> Heq]. by destruct (IH b Ha Hb Heq) as [-> ->].
Qed.

Lemma Cut_first c a x : no_char c a → Cut (a +:+ String c x) c = Some (a, x).
Proof.
  induction a as [|c' a IH]; intros Ha.
  - simpl. by rewrite decide_True.
  - destruct Ha as [Hne Ha]. change (String c' a +:+ String c x) with (String c' (a +:+ String c x)).
    simpl. by rewrite decide_False, IH.
Qed.

Lemma no_char_app c a b : no_char c (a +:+ b) ↔ no_char c a ∧ no_char c b.
Proof.
  induction a as [|c' a IH]; [by change ("" +:+ b) with b; naive_solver|].
  change (String c' a +:+ b) with (String c' (a +:+ b)). simpl. rewrite IH. naive_solver.
Qed.

End GoStrings.
