(* ===== verification/GoFloat.v ===== *)
(** * Go's [float64] arithmetic

    A finite [float64] is the rational it denotes.  Each operation computes
    the exact result and rounds it to 53 significant bits, ties to even, as
    IEEE 754 requires.  The exponent is not bounded: every value the collector
    computes lies between [2^-30] and [2^50] or is 0, far from the overflow
    and subnormal ranges, so the rounding is the one of binary64. *)

From S2P Require Import Prelude.
From Stdlib Require Export QArith Qpower Qabs Qround Lqa.

#[global] Open Scope Z_scope.

Module GoFloat.

(** Nearest integer to [N / D], ties to even, for [0 < D]. *)
Definition round_half_even (N D : Z) : Z :=
  let q := N / D in
  let r := N mod D in
  if 2 * r <? D then q
  else if D <? 2 * r then q + 1
  else if Z.even q then q else q + 1.

(** The exponent [s] for which [n / (d * 2^s)] has 53 bits. *)
Definition scale_num (n s : Z) : Z := if 0 <=? s then n else n * 2 ^ (- s).
Definition scale_den (d s : Z) : Z := if 0 <=? s then d * 2 ^ s else d.

Definition ulp_exp (n d : Z) : Z :=
  let s := Z.log2 n - Z.log2 d - 52 in
  if scale_num n s <? 2 ^ 52 * scale_den d s then s - 1 else s.

(** [m * 2^s]. *)
Definition dyadic (m s : Z) : Q :=
  if 0 <=? s then inject_Z (m * 2 ^ s) else m # Z.to_pos (2 ^ (- s)).

Definition round_pos (n d : Z) : Q :=
  let s := ulp_exp n d in
  dyadic (round_half_even (scale_num n s) (scale_den d s)) s.

Definition round64 (q : Q) : Q :=
  match Qnum q with
  | Z0 => 0%Q
  | Zpos n => round_pos (Zpos n) (Zpos (Qden q))
  | Zneg n => Qopp (round_pos (Zpos n) (Zpos (Qden q)))
  end.

Definition of_int (z : Z) : Q := round64 (inject_Z z).
Definition fadd (x y : Q) : Q := round64 (x + y).
Definition fsub (x y : Q) : Q := round64 (x - y).
Definition fmul (x y : Q) : Q := round64 (x * y).
Definition fdiv (x y : Q) : Q := round64 (x / y).
Definition flt (x y : Q) : bool := negb (Qle_bool y x).

(** Conversion to an integer type truncates toward zero. *)
Definition to_int (x : Q) : Z := Z.quot (Qnum x) (Zpos (Qden x)).

(** ** Rounding to an integer *)

Lemma round_half_even_err N D :
  0 < D → 2 * Z.abs (round_half_even N D * D - N) <= D.
Proof.
  intros HD. unfold round_half_even.
  pose proof (Z.div_mod N D ltac:(lia)) as Hdm.
  pose proof (Z.mod_pos_bound N D HD) as Hr.
  repeat case_match; zbool; nia.
Qed.

Lemma round_half_even_ge N D k : 0 < D → k * D <= N → k <= round_half_even N D.
Proof.
  intros HD Hk. unfold round_half_even.
  assert (k <= N / D) by (apply Z.div_le_lower_bound; lia).
  repeat case_match; lia.
Qed.

(** ** The scaling exponent *)

Lemma scale_den_pos d s : 0 < d → 0 < scale_den d s.
Proof. intros Hd. unfold scale_den. case_match; zbool; [|done]. pose proof (Z.pow_pos_nonneg 2 s). nia. Qed.

Lemma scale_pred n d s :
  (scale_num n (s - 1) * scale_den d s = 2 * (scale_num n s * scale_den d (s - 1)))%Z.
Proof.
  unfold scale_num, scale_den. destruct (Z.leb_spec 0 s), (Z.leb_spec 0 (s - 1)); try lia.
  - replace s with (Z.succ (s - 1)) at 1 by lia. rewrite Z.pow_succ_r by lia. lia.
  - assert (s = 0) as -> by lia. simpl. lia.
  - replace (- (s - 1)) with (Z.succ (- s)) by lia. rewrite Z.pow_succ_r by lia. lia.
Qed.

Lemma log2_quot_bounds n d s :
  0 < n → 0 < d → s = Z.log2 n - Z.log2 d - 52 →
  2 ^ 51 * scale_den d s <= scale_num n s < 2 ^ 53 * scale_den d s.
Proof.
  intros Hn Hd Hs.
  destruct (Z.log2_spec n Hn) as [Hn1 Hn2]. destruct (Z.log2_spec d Hd) as [Hd1 Hd2].
  pose proof (Z.log2_nonneg n). pose proof (Z.log2_nonneg d).
  set (a := Z.log2 n) in *. set (b := Z.log2 d) in *.
  rewrite Z.pow_succ_r in Hn2, Hd2 by lia.
  unfold scale_num, scale_den. destruct (Z.leb_spec 0 s).
  - assert (2 ^ a = 2 ^ b * 2 ^ 52 * 2 ^ s) as Ha by (rewrite <-!Z.pow_add_r by lia; f_equal; lia).
    pose proof (Z.pow_pos_nonneg 2 s ltac:(lia) ltac:(lia)). nia.
  - assert (2 ^ a * 2 ^ (- s) = 2 ^ b * 2 ^ 52) as Ha
      by (rewrite <-!Z.pow_add_r by lia; f_equal; lia).
    pose proof (Z.pow_pos_nonneg 2 (- s) ltac:(lia) ltac:(lia)). nia.
Qed.

Lemma ulp_exp_bounds n d :
  0 < n → 0 < d →
  let s := ulp_exp n d in
  2 ^ 52 * scale_den d s <= scale_num n s < 2 ^ 53 * scale_den d s.
Proof.
  intros Hn Hd. cbv zeta. unfold ulp_exp.
  set (s := Z.log2 n - Z.log2 d - 52).
  pose proof (log2_quot_bounds n d s Hn Hd eq_refl) as Hb.
  destruct (Z.ltb_spec (scale_num n s) (2 ^ 52 * scale_den d s)); [|lia].
  pose proof (scale_pred n d s). pose proof (scale_den_pos d s Hd).
  pose proof (scale_den_pos d (s - 1) Hd). nia.
Qed.

(** ** Rounding error *)

Definition ulp (s : Z) : Q := dyadic 1 s.

Lemma ulp_pos s : (0 < ulp s)%Q.
Proof.
  unfold ulp, dyadic. destruct (Z.leb_spec 0 s).
  - rewrite Z.mul_1_l. pose proof (Z.pow_pos_nonneg 2 s). unfold Qlt; simpl. lia.
  - done.
Qed.

Lemma dyadic_ulp m s : (dyadic m s == inject_Z m * ulp s)%Q.
Proof.
  unfold ulp, dyadic. destruct (Z.leb_spec 0 s).
  - rewrite Z.mul_1_l, inject_Z_mult. reflexivity.
  - unfold Qeq, inject_Z; simpl. destruct (Z.to_pos _); lia.
Qed.

Lemma scaled_value n d s :
  0 < d →
  (inject_Z n / inject_Z d == inject_Z (scale_num n s) / inject_Z (scale_den d s) * ulp s)%Q.
Proof.
  intros Hd. pose proof (Z.pow_pos_nonneg 2 s ltac:(lia)) as Hp.
  pose proof (Z.pow_pos_nonneg 2 (- s) ltac:(lia)) as Hm.
  assert (¬ inject_Z d == 0)%Q by (unfold Qeq; simpl; lia).
  unfold ulp, dyadic, scale_num, scale_den. destruct (Z.leb_spec 0 s).
  - assert (¬ inject_Z (2 ^ s) == 0)%Q by (unfold Qeq; simpl; lia).
    rewrite Z.mul_1_l, inject_Z_mult. field. auto.
  - assert (1 # Z.to_pos (2 ^ (- s)) == / inject_Z (2 ^ (- s)))%Q as ->.
    { rewrite <-(Z2Pos.id (2 ^ (- s))) at 2 by lia. reflexivity. }
    assert (¬ inject_Z (2 ^ (- s)) == 0)%Q by (unfold Qeq; simpl; lia).
    rewrite inject_Z_mult. field. auto.
Qed.

Lemma inject_div_le a b k : 0 < b → k * b <= a → (inject_Z k <= inject_Z a / inject_Z b)%Q.
Proof.
  intros Hb Hk. apply Qle_shift_div_l; [unfold Qlt; simpl; lia|].
  rewrite <-inject_Z_mult, <-Zle_Qle. lia.
Qed.

Lemma inject_round_err N D m :
  0 < D → 2 * Z.abs (m * D - N) <= D →
  (- (1 # 2) <= inject_Z m - inject_Z N / inject_Z D <= 1 # 2)%Q.
Proof.
  intros HD Hm. assert (0 < inject_Z D)%Q as HDq by (unfold Qlt; simpl; lia).
  assert (inject_Z m - inject_Z N / inject_Z D == inject_Z (2 * (m * D - N)) / inject_Z (2 * D))%Q as ->.
  { rewrite !inject_Z_mult. unfold Z.sub. rewrite inject_Z_plus, inject_Z_opp, inject_Z_mult.
    field. lra. }
  assert (0 < inject_Z (2 * D))%Q by (unfold Qlt; simpl; lia).
  assert (¬ inject_Z (2 * D) == 0)%Q by lra.
  split.
  - apply Qle_shift_div_l; [done|]. unfold Qle; simpl. lia.
  - apply Qle_shift_div_r; [done|]. unfold Qle; simpl. lia.
Qed.

(** The relative error of a rounding is at most [2^-53]. *)
Definition eps : Q := 1 # 9007199254740992.

Lemma round_pos_err n d :
  0 < n → 0 < d →
  let q := (inject_Z n / inject_Z d)%Q in
  (q - q * eps <= round_pos n d <= q + q * eps)%Q.
Proof.
  intros Hn Hd q. unfold round_pos. set (s := ulp_exp n d).
  pose proof (ulp_exp_bounds n d Hn Hd) as Hb. cbv zeta in Hb. fold s in Hb.
  set (N := scale_num n s) in *. set (D := scale_den d s) in *.
  assert (0 < D) as HD by (by apply scale_den_pos).
  pose proof (inject_round_err N D _ HD (round_half_even_err N D HD)) as Herr.
  pose proof (inject_div_le N D (2 ^ 52) HD ltac:(lia)) as Ht.
  pose proof (scaled_value n d s Hd) as Hq. fold q N D in Hq.
  rewrite dyadic_ulp. pose proof (ulp_pos s) as Hu.
  set (t := (inject_Z N / inject_Z D)%Q) in *. set (m := inject_Z (round_half_even N D)) in *.
  set (u := ulp s) in *. unfold eps. change (inject_Z (2 ^ 52)) with (4503599627370496 # 1)%Q in Ht.
  rewrite Hq. assert ((4503599627370496 # 1) * u <= t * u)%Q by nra.
  assert (m * u - t * u <= (1 # 2) * u)%Q by nra.
  assert (- (1 # 2) * u <= m * u - t * u)%Q by nra.
  lra.
Qed.

Lemma round64_pos q :
  (0 < q)%Q → (q - q * eps <= round64 q <= q + q * eps)%Q.
Proof.
  destruct q as [[|n|n] d]; unfold Qlt; simpl; try lia. intros _.
  pose proof (round_pos_err (Zpos n) (Zpos d) ltac:(lia) ltac:(lia)) as H. cbv zeta in H.
  assert (inject_Z (Zpos n) / inject_Z (Zpos d) == Zpos n # d)%Q as Hq.
  { rewrite (Qmake_Qdiv (Zpos n) d). reflexivity. }
  unfold round64; simpl. rewrite Hq in H. exact H.
Qed.

Lemma round64_zero q : (q == 0)%Q → (round64 q == 0)%Q.
Proof. destruct q as [n d]. unfold Qeq; simpl. intros H. assert (n = 0) as -> by lia. done. Qed.

(** Rounding a non-negative value: the form the proofs below use. *)
Lemma round64_nonneg q :
  (0 <= q)%Q → (q - q * eps <= round64 q <= q + q * eps)%Q.
Proof.
  intros Hq. destruct (Qlt_le_dec 0 q) as [Hp|Hp]; [by apply round64_pos|].
  assert (q == 0)%Q as H0 by lra. rewrite (round64_zero q H0), H0. unfold eps. lra.
Qed.

Lemma round64_ge0 q : (0 <= q)%Q → (0 <= round64 q)%Q.
Proof. intros Hq. pose proof (round64_nonneg q Hq). unfold eps in *. nra. Qed.

(** ** Rounding and small integers

    Integers below [2^53] are [float64] values, and rounding is monotone with
    respect to them. *)

Lemma round_half_even_le N D k : 0 < D → N <= k * D → round_half_even N D <= k.
Proof.
  intros HD Hk. unfold round_half_even.
  pose proof (Z.div_mod N D ltac:(lia)). pose proof (Z.mod_pos_bound N D HD).
  assert (N / D <= k) by (apply Z.div_le_upper_bound; lia).
  destruct (Z.eq_dec (N / D) k); [|repeat case_match; lia].
  assert (N mod D = 0) by nia.
  repeat case_match; zbool; lia.
Qed.

Lemma ulp_exp_small n d k : 0 < n → 0 < d → n <= k * d → k < 2 ^ 53 → ulp_exp n d <= 0.
Proof.
  intros Hn Hd Hk Hk53. pose proof (ulp_exp_bounds n d Hn Hd) as Hb. cbv zeta in Hb.
  destruct (Z.le_gt_cases (ulp_exp n d) 0) as [|Hs]; [done|exfalso].
  unfold scale_num, scale_den in Hb. rewrite (proj2 (Z.leb_le 0 _)) in Hb by lia.
  assert (2 <= 2 ^ ulp_exp n d) by (change 2 with (2 ^ 1) at 1; apply Z.pow_le_mono_r; lia).
  nia.
Qed.

Lemma dyadic_ge m s k : s <= 0 → k * 2 ^ (- s) <= m → (inject_Z k <= dyadic m s)%Q.
Proof.
  intros Hs Hm. pose proof (Z.pow_pos_nonneg 2 (- s) ltac:(lia) ltac:(lia)).
  unfold dyadic. destruct (Z.leb_spec 0 s).
  - assert (s = 0) as -> by lia. rewrite <-Zle_Qle. simpl in *. lia.
  - unfold Qle; simpl. rewrite Z2Pos.id by lia. lia.
Qed.

Lemma dyadic_le m s k : s <= 0 → m <= k * 2 ^ (- s) → (dyadic m s <= inject_Z k)%Q.
Proof.
  intros Hs Hm. pose proof (Z.pow_pos_nonneg 2 (- s) ltac:(lia) ltac:(lia)).
  unfold dyadic. destruct (Z.leb_spec 0 s).
  - assert (s = 0) as -> by lia. rewrite <-Zle_Qle. simpl in *. lia.
  - unfold Qle; simpl. rewrite Z2Pos.id by lia. lia.
Qed.

Lemma scale_small n d s : s <= 0 → scale_num n s = n * 2 ^ (- s) ∧ scale_den d s = d.
Proof.
  intros Hs. unfold scale_num, scale_den. destruct (Z.leb_spec 0 s); [|done].
  assert (s = 0) as -> by lia. simpl. lia.
Qed.

Lemma round_pos_ge_int n d k :
  0 < n → 0 < d → 0 <= k < 2 ^ 53 → k * d <= n → (inject_Z k <= round_pos n d)%Q.
Proof.
  intros Hn Hd Hk Hkn. unfold round_pos. set (s := ulp_exp n d).
  pose proof (ulp_exp_bounds n d Hn Hd) as Hb. cbv zeta in Hb. fold s in Hb.
  pose proof (scale_den_pos d s Hd). destruct (Z.le_gt_cases s 0) as [Hs|Hs].
  - pose proof (Z.pow_pos_nonneg 2 (- s) ltac:(lia) ltac:(lia)).
    apply dyadic_ge; [done|]. apply round_half_even_ge; [done|].
    destruct (scale_small n d s Hs) as [-> ->]. nia.
  - assert (2 ^ 52 <= round_half_even (scale_num n s) (scale_den d s)) as Hm
      by (apply round_half_even_ge; [done|lia]).
    unfold dyadic. rewrite (proj2 (Z.leb_le 0 s)) by lia. rewrite <-Zle_Qle.
    assert (2 <= 2 ^ s) by (change 2 with (2 ^ 1) at 1; apply Z.pow_le_mono_r; lia). nia.
Qed.

Lemma round_pos_le_int n d k :
  0 < n → 0 < d → k < 2 ^ 53 → n <= k * d → (round_pos n d <= inject_Z k)%Q.
Proof.
  intros Hn Hd Hk Hkn. unfold round_pos. set (s := ulp_exp n d).
  pose proof (ulp_exp_small n d k Hn Hd Hkn Hk) as Hs. fold s in Hs.
  pose proof (Z.pow_pos_nonneg 2 (- s) ltac:(lia) ltac:(lia)).
  apply dyadic_le; [done|]. apply round_half_even_le; [by apply scale_den_pos|].
  destruct (scale_small n d s Hs) as [-> ->]. nia.
Qed.

Lemma round64_ge_int q k : 0 <= k < 2 ^ 53 → (inject_Z k <= q)%Q → (inject_Z k <= round64 q)%Q.
Proof.
  intros Hk. destruct q as [[|n|n] d]; unfold round64; simpl; intros Hq.
  - unfold Qle in *; simpl in *. lia.
  - apply round_pos_ge_int; try lia. unfold Qle in Hq; simpl in Hq. lia.
  - unfold Qle in Hq; simpl in Hq. exfalso. lia.
Qed.

Lemma round64_le_int q k :
  0 <= k < 2 ^ 53 → (0 <= q)%Q → (q <= inject_Z k)%Q → (round64 q <= inject_Z k)%Q.
Proof.
  intros Hk. destruct q as [[|n|n] d]; unfold round64; simpl; intros H0 Hq.
  - unfold Qle in *; simpl in *. lia.
  - apply round_pos_le_int; try lia. unfold Qle in Hq; simpl in Hq. lia.
  - unfold Qle in H0; simpl in H0. exfalso. lia.
Qed.

Lemma of_int_exact k : 0 <= k < 2 ^ 53 → (of_int k == inject_Z k)%Q.
Proof.
  intros Hk. unfold of_int. apply Qle_antisym.
  - apply round64_le_int; [done| |apply Qle_refl].
    change 0%Q with (inject_Z 0). rewrite <-Zle_Qle. lia.
  - apply round64_ge_int; [done|apply Qle_refl].
Qed.

(** The comparison [x < y] of the code. *)
Lemma flt_spec x y : flt x y = true ↔ (x < y)%Q.
Proof.
  unfold flt. rewrite negb_true_iff. split.
  - intros H. apply Qnot_le_lt. intros Hle. apply Qle_bool_iff in Hle. congruence.
  - intros H. destruct (Qle_bool y x) eqn:E; [|done]. apply Qle_bool_iff in E. lra.
Qed.

Lemma flt_false x y : flt x y = false ↔ (y <= x)%Q.
Proof.
  rewrite <-not_true_iff_false, flt_spec. split; [apply Qnot_lt_le|apply Qle_not_lt].
Qed.

End GoFloat.
