(* ===== verification/GoTime.v ===== *)
(** * Go's package time

    A [time.Time] in UTC is the number of nanoseconds since the zero time,
    January 1, year 1; a [time.Duration] is an [int64] of nanoseconds.  The
    operations are those the collector uses: comparison, addition,
    subtraction (which saturates), the conversions of a duration to a float
    number of seconds, minutes and hours, and the layouts RFC 3339 with and
    without nanoseconds. *)

From S2P Require Import Prelude GoStrings GoFloat.
Import GoStrings GoFloat.

Module GoTime.

Definition Nanosecond : Z := 1.
Definition Microsecond : Z := 1000.
Definition Millisecond : Z := 1000000.
Definition Second : Z := 1000000000.
Definition Minute : Z := 60 * Second.
Definition Hour : Z := 60 * Minute.

(** [t.Before(u)], [t.Add(d)], [t.Sub(u)], [t.IsZero()]; [- d] on an [int64]. *)
Definition Before (t u : Z) : bool := t <? u.
Definition Add (t d : Z) : Z := t + d.
Definition Sub (t u : Z) : Z := sat64 (t - u).
Definition neg (d : Z) : Z := wrap64 (- d).

(** [time.Unix(0, ns).UTC()]. *)
Definition unix_offset : Z := 62135596800 * Second.
Definition Unix0 (ns : Z) : Z := ns + unix_offset.

(** [d.Seconds()], [d.Minutes()], [d.Hours()]: the whole part plus the
    fraction, each converted to [float64]. *)
Definition in_unit (u d : Z) : Q :=
  fadd (of_int (Z.quot d u)) (fdiv (of_int (Z.rem d u)) (inject_Z u)).
Definition Seconds (d : Z) : Q := in_unit Second d.
Definition Minutes (d : Z) : Q := in_unit Minute d.
Definition Hours (d : Z) : Q := in_unit Hour d.

(** ** Printing a duration *)

(** The fraction [v / 10^prec] without trailing zeros, with its point. *)
Fixpoint frac_digits (prec : nat) (v : Z) (print : bool) (acc : string) : string :=
  match prec with
  | O => if print then String "."%char acc else acc
  | S prec =>
      let d := v mod 10 in
      let print := print || negb (d =? 0) in
      frac_digits prec (v / 10) print (if print then String (digit d) acc else acc)
  end.

Definition duration_abs_String (u : Z) : string :=
  if u =? 0 then "0s"
  else if u <? Microsecond then Itoa u +:+ "ns"
  else if u <? Millisecond then
    Itoa (u / 1000) +:+ frac_digits 3 u false (of_bytes [0xC2; 0xB5; 0x73])
  else if u <? Second then Itoa (u / 1000000) +:+ frac_digits 6 u false "ms"
  else
    let s := u / Second in
    let sec := Itoa (s mod 60) +:+ frac_digits 9 u false "s" in
    let m := s / 60 in
    if m =? 0 then sec
    else
      let min := Itoa (m mod 60) +:+ "m" +:+ sec in
      if m / 60 =? 0 then min else Itoa (m / 60) +:+ "h" +:+ min.

Definition Duration_String (d : Z) : string :=
  if d <? 0 then "-" +:+ duration_abs_String (- d) else duration_abs_String d.

(** ** Dates

    [civil days] is the proleptic Gregorian date of the day [days] days after
    January 1, year 1.  Years are counted from March 1, so that the leap day
    is the last day of its year: 400-year, 100-year, 4-year and 1-year cycles
    are taken off one after the other. *)

Record civil_date := Civil { cyear : Z; cmonth : Z; cday : Z }.

Definition march_split (days : Z) : Z * Z :=
  let z := days + 306 in
  let era := z / 146097 in
  let doe := z mod 146097 in
  let c := Z.min 3 (doe / 36524) in
  let r1 := doe - 36524 * c in
  let q := r1 / 1461 in
  let r2 := r1 mod 1461 in
  let a := Z.min 3 (r2 / 365) in
  (400 * era + 100 * c + 4 * q + a, r2 - 365 * a).

Definition civil (days : Z) : civil_date :=
  let '(y, doy) := march_split days in
  let mp := (5 * doy + 2) / 153 in
  let d := doy - (153 * mp + 2) / 5 + 1 in
  if mp <? 10 then Civil y (mp + 3) d else Civil (y + 1) (mp - 9) d.

(** ** The RFC 3339 layouts, in UTC *)

Definition format_seconds (t : Z) (tail : string) : string :=
  let secs := t / Second in
  let dt := civil (secs / 86400) in
  let sod := secs mod 86400 in
  pad_dec 4 (cyear dt) (String "-"%char
    (pad_dec 2 (cmonth dt) (String "-"%char
      (pad_dec 2 (cday dt) (String "T"%char
        (pad_dec 2 (sod / 3600) (String ":"%char
          (pad_dec 2 (sod / 60 mod 60) (String ":"%char
            (pad_dec 2 (sod mod 60) tail)))))))))).

Definition RFC3339 (t : Z) : string := format_seconds t "Z".

(** The layout ".999999999" drops trailing zeros, and the point with them. *)
Definition RFC3339Nano (t : Z) : string :=
  format_seconds t (frac_digits 9 (t mod Second) false "Z").

(** ** The order of formatted times *)

(** [lia] with division and modulo by constants. *)
#[local] Ltac div_lia := Z.div_mod_to_equations; lia.

(** Months counted from year 0, then the day: the order of dates. *)
Definition month_index (d : civil_date) : Z := 12 * cyear d + cmonth d.

Lemma div_lex k a b :
  0 < k → a < b → a / k < b / k ∨ a / k = b / k ∧ a mod k < b mod k.
Proof.
  intros Hk H. pose proof (Z.div_mod a k ltac:(lia)). pose proof (Z.div_mod b k ltac:(lia)).
  pose proof (Z.div_le_mono a b k Hk ltac:(lia)). nia.
Qed.

Lemma min3_lex k a b :
  0 < k → 0 <= a → a < b →
  Z.min 3 (a / k) < Z.min 3 (b / k) ∨
  Z.min 3 (a / k) = Z.min 3 (b / k) ∧ a - k * Z.min 3 (a / k) < b - k * Z.min 3 (b / k).
Proof.
  intros Hk Ha H. pose proof (Z.div_le_mono a b k Hk ltac:(lia)). nia.
Qed.

Lemma min3_bound k a :
  0 < k → 0 <= a <= 4 * k →
  0 <= Z.min 3 (a / k) <= 3 ∧ 0 <= a - k * Z.min 3 (a / k) <= k.
Proof.
  intros Hk Ha. pose proof (Z.div_mod a k ltac:(lia)). pose proof (Z.mod_pos_bound a k Hk).
  pose proof (Z.div_pos a k ltac:(lia) Hk). split; [lia|].
  destruct (Z.le_gt_cases (a / k) 3); [rewrite Z.min_r by lia; nia|rewrite Z.min_l by lia; nia].
Qed.

Lemma four_years r :
  0 <= r <= 36524 → 0 <= r / 1461 <= 24 ∧ 0 <= r mod 1461 <= 4 * 365.
Proof. intros H. div_lia. Qed.

Lemma march_split_lex d1 d2 :
  d1 < d2 →
  let '(y1, n1) := march_split d1 in
  let '(y2, n2) := march_split d2 in
  y1 < y2 ∨ y1 = y2 ∧ n1 < n2.
Proof.
  intros H. unfold march_split.
  assert (d1 + 306 < d2 + 306) as Hz by lia. clear H. revert Hz.
  generalize (d1 + 306) (d2 + 306). intros z1 z2 Hz.
  pose proof (div_lex 146097 z1 z2 ltac:(lia) Hz) as H1.
  pose proof (Z.mod_pos_bound z1 146097 ltac:(lia)) as B1.
  pose proof (Z.mod_pos_bound z2 146097 ltac:(lia)) as B1'.
  revert H1 B1 B1'. generalize (z1 / 146097) (z2 / 146097) (z1 mod 146097) (z2 mod 146097).
  intros e1 e2 x1 x2 H1 B1 B1'. clear Hz z1 z2.
  pose proof (min3_lex 36524 x1 x2 ltac:(lia) ltac:(lia)) as H2.
  pose proof (min3_bound 36524 x1 ltac:(lia) ltac:(lia)) as B2.
  pose proof (min3_bound 36524 x2 ltac:(lia) ltac:(lia)) as B2'.
  revert H2 B2 B2'. generalize (Z.min 3 (x1 / 36524)) (Z.min 3 (x2 / 36524)).
  intros c1 c2. generalize (x1 - 36524 * c1) (x2 - 36524 * c2). intros r1 r2 H2 B2 B2'.
  pose proof (div_lex 1461 r1 r2 ltac:(lia)) as H3.
  pose proof (four_years r1 (proj2 B2)) as B3. pose proof (four_years r2 (proj2 B2')) as B3'.
  revert H3 B3 B3'. generalize (r1 / 1461) (r2 / 1461) (r1 mod 1461) (r2 mod 1461).
  intros q1 q2 p1 p2 H3 B3 B3'.
  pose proof (min3_lex 365 p1 p2 ltac:(lia) ltac:(lia)) as H4.
  pose proof (min3_bound 365 p1 ltac:(lia) ltac:(lia)) as [B4 _].
  pose proof (min3_bound 365 p2 ltac:(lia) ltac:(lia)) as [B4' _].
  revert H4 B4 B4'. generalize (Z.min 3 (p1 / 365)) (Z.min 3 (p2 / 365)).
  intros a1 a2 H4 B4 B4'. lia.
Qed.

Lemma march_split_doy d : 0 <= (march_split d).2 <= 365.
Proof.
  unfold march_split; simpl. generalize (d + 306). intros z.
  pose proof (Z.mod_pos_bound z 146097 ltac:(lia)) as B1. revert B1.
  generalize (z mod 146097). intros x B1.
  destruct (min3_bound 36524 x ltac:(lia) ltac:(lia)) as [_ B2]. revert B2.
  generalize (x - 36524 * Z.min 3 (x / 36524)). intros r B2.
  apply (min3_bound 365 (r mod 1461)); [lia|].
  pose proof (Z.mod_pos_bound r 1461 ltac:(lia)). lia.
Qed.

Lemma civil_lex d1 d2 :
  d1 < d2 →
  month_index (civil d1) < month_index (civil d2) ∨
  month_index (civil d1) = month_index (civil d2) ∧ cday (civil d1) < cday (civil d2).
Proof.
  intros H. pose proof (march_split_lex d1 d2 H) as Hl.
  pose proof (march_split_doy d1) as H1. pose proof (march_split_doy d2) as H2.
  unfold civil, month_index. destruct (march_split d1) as [y1 n1], (march_split d2) as [y2 n2].
  simpl in *. clear H.
  destruct (Z.ltb_spec ((5 * n1 + 2) / 153) 10), (Z.ltb_spec ((5 * n2 + 2) / 153) 10); simpl; div_lia.
Qed.

Lemma civil_fields d :
  1 <= cmonth (civil d) <= 12 ∧ 1 <= cday (civil d) <= 31.
Proof.
  pose proof (march_split_doy d) as H. unfold civil. destruct (march_split d) as [y n].
  simpl in *. destruct (Z.ltb_spec ((5 * n + 2) / 153) 10); simpl; div_lia.
Qed.

(** Times of the years 0 to 9999, which the layout writes with four digits. *)
Definition year_ok (t : Z) : Prop := 0 <= cyear (civil (t / Second / 86400)) <= 9999.

(** Later seconds have later formatted times, whatever follows the seconds. *)
Lemma format_seconds_lt t1 t2 x y :
  year_ok t1 → year_ok t2 → t1 / Second < t2 / Second →
  str_lt (format_seconds t1 x) (format_seconds t2 y).
Proof.
  unfold year_ok, format_seconds. generalize (t1 / Second) (t2 / Second). intros s1 s2 Y1 Y2 Hs.
  pose proof (civil_fields (s1 / 86400)). pose proof (civil_fields (s2 / 86400)).
  assert (s1 / 86400 < s2 / 86400 ∨
          s1 / 86400 = s2 / 86400 ∧ s1 mod 86400 < s2 mod 86400) as Hd by (apply div_lex; lia).
  pose proof (Z.mod_pos_bound s1 86400 ltac:(lia)). pose proof (Z.mod_pos_bound s2 86400 ltac:(lia)).
  revert Hd. generalize dependent (s1 mod 86400). generalize dependent (s2 mod 86400).
  intros n2 Hn2 n1 Hn1 Hd.
  assert (month_index (civil (s1 / 86400)) < month_index (civil (s2 / 86400)) ∨
          month_index (civil (s1 / 86400)) = month_index (civil (s2 / 86400)) ∧
          (cday (civil (s1 / 86400)) < cday (civil (s2 / 86400)) ∨
           cday (civil (s1 / 86400)) = cday (civil (s2 / 86400)) ∧ n1 < n2)) as Hc.
  { destruct Hd as [Hd|[-> Hd]]; [|auto]. destruct (civil_lex _ _ Hd) as [|[??]]; auto. }
  clear Hd Hs. revert Hc. unfold month_index.
  destruct (civil (s1 / 86400)) as [y1 m1 d1], (civil (s2 / 86400)) as [y2 m2 d2].
  cbn [cyear cmonth cday] in *. intros Hc.
  apply pad_dec_lt; [lia|lia|].
  destruct (Z.lt_ge_cases y1 y2); [by left|right; split; [lia|]]. apply str_lt_cons.
  apply pad_dec_lt; [lia|lia|].
  destruct (Z.lt_ge_cases m1 m2); [by left|right; split; [lia|]]. apply str_lt_cons.
  apply pad_dec_lt; [lia|lia|].
  destruct (Z.lt_ge_cases d1 d2); [by left|right; split; [lia|]]. apply str_lt_cons.
  assert (n1 < n2) by lia. clear Hc.
  apply pad_dec_lt; [div_lia|div_lia|].
  destruct (Z.lt_ge_cases (n1 / 3600) (n2 / 3600)); [by left|right; split; [div_lia|]]. apply str_lt_cons.
  apply pad_dec_lt; [div_lia|div_lia|].
  destruct (Z.lt_ge_cases (n1 / 60 mod 60) (n2 / 60 mod 60)); [by left|right; split; [div_lia|]].
  apply str_lt_cons. apply pad_dec_lt; [div_lia|div_lia|]. left. div_lia.
Qed.

End GoTime.
