(* ===== verification/GoNet.v ===== *)
(** * Go's package net

    [net.ParseIP] as far as the collector uses it (is the text a valid
    address?), following [net/netip]'s parser, and [net.SplitHostPort]. *)

From S2P Require Import Prelude GoStrings.
Import GoStrings.

Module GoNet.

Definition colon : Z := 0x3A.
Definition dot : Z := 0x2E.
Definition percent : Z := 0x25.

Definition is_digit (b : Z) : bool := (0x30 <=? b) && (b <=? 0x39).

Definition hex_val (b : Z) : option Z :=
  if is_digit b then Some (b - 0x30)
  else if (0x61 <=? b) && (b <=? 0x66) then Some (b - 0x61 + 10)
  else if (0x41 <=? b) && (b <=? 0x46) then Some (b - 0x41 + 10)
  else None.

(** [parseIPv4Fields]: [prev] is the previous byte, if any. *)
Fixpoint ipv4_fields (l : list Z) (prev : option Z) (val digLen pos : Z) : bool :=
  match l with
  | [] => negb (pos <? 3)
  | b :: l' =>
      if is_digit b then
        if (digLen =? 1) && (val =? 0) then false
        else
          let val := val * 10 + b - 0x30 in
          if val >? 255 then false else ipv4_fields l' (Some b) val (digLen + 1) pos
      else if b =? dot then
        let bad :=
          match prev, l' with
          | None, _ => true
          | _, [] => true
          | Some p, _ => p =? dot
          end in
        if bad then false
        else if pos =? 3 then false
        else ipv4_fields l' (Some b) 0 0 (pos + 1)
      else false
  end.

Definition parse_ipv4 (l : list Z) : bool := ipv4_fields l None 0 0 0.

(** A group of hexadecimal digits: the number of digits and what follows
    them; [None] for a fifth digit. *)
Fixpoint hex_group (l : list Z) (off : Z) : option (Z * list Z) :=
  match l with
  | b :: l' =>
      match hex_val b with
      | Some _ => if off >? 3 then None else hex_group l' (off + 1)
      | None => Some (off, l)
      end
  | [] => Some (off, [])
  end.

(** The loop of [parseIPv6]: [i] bytes of the address are filled in.  Every
    round adds at least two, so eight rounds are enough. *)
Fixpoint ipv6_loop (fuel : nat) (s : list Z) (i : Z) (ellipsis : bool) : bool :=
  let finish (s : list Z) (i : Z) (ellipsis : bool) : bool :=
    match s with
    | _ :: _ => false
    | [] => if i <? 16 then ellipsis else negb ellipsis
    end in
  match fuel with
  | O => finish s i ellipsis
  | S fuel =>
      if negb (i <? 16) then finish s i ellipsis
      else
        match hex_group s 0 with
        | None => false
        | Some (off, rest) =>
            if off =? 0 then false
            else
              match rest with
              | [] => finish [] (i + 2) ellipsis
              | b :: rest' =>
                  if b =? dot then
                    if negb ellipsis && negb (i =? 12) then false
                    else if i + 4 >? 16 then false
                    else if parse_ipv4 s then finish [] (i + 4) ellipsis else false
                  else if negb (b =? colon) then false
                  else
                    match rest' with
                    | [] => false
                    | c :: rest'' =>
                        if c =? colon then
                          if ellipsis then false
                          else
                            match rest'' with
                            | [] => finish [] (i + 2) true
                            | _ => ipv6_loop fuel rest'' (i + 2) true
                            end
                        else ipv6_loop fuel rest' (i + 2) ellipsis
                    end
              end
        end
  end.

(** [net.ParseIP] refuses zones, so an address with a percent sign is
    invalid. *)
Definition parse_ipv6 (l : list Z) : bool :=
  if existsb (λ b, b =? percent) l then false
  else
    match l with
    | b0 :: b1 :: l' =>
        if (b0 =? colon) && (b1 =? colon) then
          match l' with [] => true | _ => ipv6_loop 8 l' 0 true end
        else ipv6_loop 8 l 0 false
    | _ => ipv6_loop 8 l 0 false
    end.

(** The first '.', ':' or '%' decides which address family is parsed. *)
Fixpoint parse_addr (whole l : list Z) : bool :=
  match l with
  | [] => false
  | b :: l' =>
      if b =? dot then parse_ipv4 whole
      else if b =? colon then parse_ipv6 whole
      else if b =? percent then false
      else parse_addr whole l'
  end.

Definition ParseIP (s : string) : bool := parse_addr (bytes s) (bytes s).

(** ** [net.SplitHostPort]: the host, or [None] for a malformed address *)

Fixpoint index_byte (c : Z) (l : list Z) : option nat :=
  match l with
  | [] => None
  | b :: l' => if b =? c then Some O else S <$> index_byte c l'
  end.

Definition last_index_byte (c : Z) (l : list Z) : option nat :=
  match index_byte c (rev l) with
  | Some n => Some (length l - 1 - n)%nat
  | None => None
  end.

Definition bracket_open : Z := 0x5B.
Definition bracket_close : Z := 0x5D.

Definition SplitHostPort (hostport : string) : option string :=
  let l := bytes hostport in
  match last_index_byte colon l with
  | None => None
  | Some i =>
      let checked (j k : nat) (host : list Z) : option string :=
        if decide (index_byte bracket_open (drop j l) = None) then
          if decide (index_byte bracket_close (drop k l) = None) then Some (of_bytes host)
          else None
        else None in
      if decide (head l = Some bracket_open) then
        match index_byte bracket_close l with
        | None => None
        | Some e =>
            if decide (S e = i) then checked 1%nat (S e) (drop 1 (take e l)) else None
        end
      else
        let host := take i l in
        if decide (index_byte colon host = None) then checked O O host else None
  end.

(** ** The alphabet of an address *)

(** Hexadecimal digits, dots and colons. *)
Definition addr_byte (b : Z) : bool :=
  match hex_val b with Some _ => true | None => (b =? dot) || (b =? colon) end.

Lemma hex_val_addr b v : hex_val b = Some v → addr_byte b = true.
Proof. unfold addr_byte. by intros ->. Qed.

Lemma is_digit_addr b : is_digit b = true → addr_byte b = true.
Proof. intros H. eapply hex_val_addr. unfold hex_val. by rewrite H. Qed.

Lemma dot_addr b : b = dot → addr_byte b = true.
Proof. by intros ->. Qed.

Lemma colon_addr b : b = colon → addr_byte b = true.
Proof. by intros ->. Qed.

Lemma ipv4_fields_alphabet l prev val digLen pos :
  ipv4_fields l prev val digLen pos = true → Forall (λ b, addr_byte b = true) l.
Proof.
  revert prev val digLen pos. induction l as [|b l IH]; intros prev val digLen pos H; [done|].
  cbn [ipv4_fields] in H. destruct (is_digit b) eqn:Hd.
  - constructor; [by apply is_digit_addr|]. repeat case_match; try done; eauto.
  - destruct (b =? dot) eqn:Hb; [|done]. zbool. constructor; [by apply dot_addr|].
    repeat case_match; try done; eauto.
Qed.

Lemma hex_group_split l off off' rest :
  hex_group l off = Some (off', rest) →
  ∃ pre, l = pre ++ rest ∧ Forall (λ b, addr_byte b = true) pre.
Proof.
  revert off. induction l as [|b l IH]; intros off H; cbn [hex_group] in H.
  { simplify_eq. by exists []. }
  destruct (hex_val b) eqn:Hb; [|simplify_eq; by exists []].
  destruct (off >? 3); [done|]. destruct (IH _ H) as (pre & -> & Hpre).
  exists (b :: pre). split; [done|]. constructor; [by eapply hex_val_addr|done].
Qed.

Lemma ipv6_loop_alphabet fuel l i ellipsis :
  ipv6_loop fuel l i ellipsis = true → Forall (λ b, addr_byte b = true) l.
Proof.
  revert l i ellipsis. induction fuel as [|fuel IH]; intros l i ellipsis H; cbn [ipv6_loop] in H.
  { by destruct l. }
  destruct (negb (i <? 16)); [by destruct l|].
  destruct (hex_group l 0) as [[off rest]|] eqn:Hg; [|done].
  destruct (off =? 0); [done|].
  destruct rest as [|b rest].
  { destruct (hex_group_split _ _ _ _ Hg) as (pre & -> & Hpre). by rewrite app_nil_r. }
  destruct (b =? dot).
  { destruct (negb ellipsis && _); [done|]. destruct (i + 4 >? 16); [done|].
    destruct (parse_ipv4 l) eqn:H4; [|done]. by eapply ipv4_fields_alphabet. }
  destruct (b =? colon) eqn:Hb; [|done]. zbool. destruct rest as [|c rest]; [done|].
  destruct (hex_group_split _ _ _ _ Hg) as (pre & -> & Hpre). apply Forall_app. split; [done|].
  constructor; [by apply colon_addr|]. cbn [negb] in H.
  destruct (c =? colon) eqn:Hc; [|by eauto]. zbool. constructor; [by apply colon_addr|].
  destruct ellipsis; [done|]. destruct rest; [done|]. eauto.
Qed.

Lemma ParseIP_alphabet s : ParseIP s = true → Forall (λ b, addr_byte b = true) (bytes s).
Proof.
  unfold ParseIP. generalize (bytes s) at 1 3. intros whole.
  induction (bytes s) as [|b l IH]; cbn [parse_addr]; [done|].
  destruct (b =? dot); [apply ipv4_fields_alphabet|].
  destruct (b =? colon).
  { unfold parse_ipv6. destruct (existsb _ whole); [done|].
    destruct whole as [|b0 [|b1 whole]]; try apply ipv6_loop_alphabet.
    destruct ((b0 =? colon) && (b1 =? colon)) eqn:Hc; [|apply ipv6_loop_alphabet].
    zbool. intros Hw. constructor; [by apply colon_addr|]. constructor; [by apply colon_addr|].
    destruct whole; [done|]. by eapply ipv6_loop_alphabet. }
  destruct (b =? percent); [done|]. exact IH.
Qed.

Lemma hex_val_range b v : hex_val b = Some v → 0x30 <= b <= 0x66.
Proof. unfold hex_val, is_digit. intros H. repeat case_match; zbool; simplify_eq; lia. Qed.

Lemma addr_byte_printable b : addr_byte b = true → 0x20 <= b <= 0x7e.
Proof.
  unfold addr_byte. destruct (hex_val b) eqn:Hv.
  - apply hex_val_range in Hv. lia.
  - intros [Hb|Hb]%orb_true_iff; zbool; subst; done.
Qed.

End GoNet.
