(* ===== verification/GoJson.v ===== *)
(** * Go's package encoding/json

    The text [json.Marshal] writes for strings, integers, raw messages and
    structs, and what [json.Unmarshal] reads back.

    A JSON text is a [string].  [Quote] is the encoder's string literal with
    its escapes, [encode_object] the text of a struct from the texts of its
    fields, [compact] the check-and-strip pass over a [json.RawMessage].
    [parse_value] is the decoder: it reads one value and returns it with the
    rest of the input; its first argument is the nesting still allowed, which
    the decoder limits to [maxNestingDepth], so running out of it is the
    decoder's own error.  [members] is the view a struct's decoder has of an
    object: its keys, each with the raw text of its value.

    The round trip the stored records rely on is [members_encode_object],
    with [Unquote_Quote] for strings. *)

From S2P Require Import Prelude GoStrings.
Import GoStrings.

Module GoJson.

(** ** String literals *)

Definition hex_digit (d : Z) : ascii := byte_of (if d <? 10 then 48 + d else 87 + d).

Definition quote : ascii := "034"%char.
Definition backslash : ascii := "\"%char.

Definition esc2 (c : ascii) : string := String backslash (String c "").
Definition u00 (b : Z) : string :=
  "\u00" +:+ String (hex_digit (b / 16)) (String (hex_digit (b mod 16)) "").

(** The characters the decoder's short escapes stand for. *)
Definition short_escapes : list (Z * ascii) :=
  [(0x22, quote); (0x5C, backslash); (0x08, "b"%char); (0x0C, "f"%char);
   (0x0A, "n"%char); (0x0D, "r"%char); (0x09, "t"%char)].

Definition html_byte (b : Z) : bool := (b =? 0x3C) || (b =? 0x3E) || (b =? 0x26).

Definition escape_ascii (b : Z) : string :=
  match list_find (λ p, p.1 = b) short_escapes with
  | Some (_, (_, c)) => esc2 c
  | None => if (b <? 0x20) || html_byte b then u00 b else String (byte_of b) ""
  end.

Definition fffd : string := of_bytes [0xEF; 0xBF; 0xBD].

(** What the encoder writes for the bytes of the rune at the head of the
    string, and how many bytes that rune has. *)
Definition escape_head (c : ascii) (s : string) : string * nat :=
  let b := byte_val c in
  if b <? 0x80 then (escape_ascii b, 1%nat)
  else
    let '(r, w) := decode_rune b (bytes s) in
    if (r =? RuneError) && Nat.eqb w 1 then ("\ufffd", 1%nat)
    else if (r =? 0x2028) || (r =? 0x2029)
    then ("\u202" +:+ String (hex_digit (r - 0x2020)) "", w)
    else (String.substring 0 w (String c s), w).

Fixpoint escape_from (skip : nat) (s : string) : string :=
  match s with
  | EmptyString => ""
  | String c s' =>
      match skip with
      | S k => escape_from k s'
      | O => let '(out, w) := escape_head c s' in out +:+ escape_from (pred w) s'
      end
  end.

Definition Quote (s : string) : string :=
  String quote (escape_from 0 s +:+ String quote "").

(** *** Decoding *)

Definition hex_val (c : ascii) : option Z :=
  let b := byte_val c in
  if (48 <=? b) && (b <=? 57) then Some (b - 48)
  else if (97 <=? b) && (b <=? 102) then Some (b - 87)
  else if (65 <=? b) && (b <=? 70) then Some (b - 55)
  else None.

(** The four hexadecimal digits after a backslash and a [u]. *)
Definition hex4 (s : string) : option Z :=
  match s with
  | String a (String b (String c (String d _))) =>
      a ← hex_val a; b ← hex_val b; c ← hex_val c; d ← hex_val d;
      Some (((a * 16 + b) * 16 + c) * 16 + d)
  | _ => None
  end.

Definition encode_rune (r : Z) : string :=
  if r <? 0x80 then of_bytes [r]
  else if r <? 0x800 then of_bytes [0xC0 + r / 64; 0x80 + r mod 64]
  else if (0xD800 <=? r) && (r <=? 0xDFFF) then fffd
  else if r <? 0x10000 then of_bytes [0xE0 + r / 4096; 0x80 + r / 64 mod 64; 0x80 + r mod 64]
  else of_bytes [0xF0 + r / 262144; 0x80 + r / 4096 mod 64; 0x80 + r / 64 mod 64; 0x80 + r mod 64].

(** A [\uXXXX] escape, whose hexadecimal digits start [s]: the text it stands
    for and its length.  A high surrogate joins with a low one that follows
    it; a surrogate alone is U+FFFD. *)
Definition unescape_u (s : string) : option (string * nat) :=
  r ← hex4 s;
  Some (if (0xD800 <=? r) && (r <? 0xDC00) then
    match s with
    | String _ (String _ (String _ (String _ (String b (String u s'))))) =>
        match (if decide (b = backslash ∧ u = "u"%char) then hex4 s' else None) with
        | Some r2 =>
            if (0xDC00 <=? r2) && (r2 <? 0xE000)
            then (encode_rune (0x10000 + (r - 0xD800) * 1024 + (r2 - 0xDC00)), 12%nat)
            else (fffd, 6%nat)
        | None => (fffd, 6%nat)
        end
    | _ => (fffd, 6%nat)
    end
  else (encode_rune r, 6%nat)).

(** The text that the head of a literal stands for, and its length; [None]
    when the literal is malformed. *)
Definition unescape_head (c : ascii) (s : string) : option (string * nat) :=
  let b := byte_val c in
  if decide (c = backslash) then
    match s with
    | EmptyString => None
    | String e s' =>
        if decide (e = "u"%char) then unescape_u s'
        else if decide (e = "/"%char) then Some ("/", 2%nat)
        else match list_find (λ p, p.2 = e) short_escapes with
             | Some (_, (b, _)) => Some (of_bytes [b], 2%nat)
             | None => None
             end
    end
  else if b <? 0x20 then None
  else if b <? 0x80 then Some (String c "", 1%nat)
  else
    let '(r, w) := decode_rune b (bytes s) in
    Some (if (r =? RuneError) && Nat.eqb w 1 then (fffd, 1%nat)
          else (String.substring 0 w (String c s), w)).

(** The rest of a literal, after its opening quote: the text and what follows
    the closing quote. *)
Fixpoint unquote_from (skip : nat) (s : string) : option (string * string) :=
  match s with
  | EmptyString => None
  | String c s' =>
      match skip with
      | S k => unquote_from k s'
      | O =>
          if decide (c = quote) then Some ("", s')
          else
            '(out, w) ← unescape_head c s';
            '(t, rest) ← unquote_from (pred w) s';
            Some (out +:+ t, rest)
      end
  end.

(** Invalid UTF-8 does not survive: each bad byte becomes U+FFFD. *)
Fixpoint valid_utf8_from (skip : nat) (s : string) : string :=
  match s with
  | EmptyString => ""
  | String c s' =>
      match skip with
      | S k => String c (valid_utf8_from k s')
      | O =>
          let '(r, w) := decode_rune (byte_val c) (bytes s') in
          if (r =? RuneError) && Nat.eqb w 1 then fffd +:+ valid_utf8_from 0 s'
          else String c (valid_utf8_from (pred w) s')
      end
  end.
Definition to_valid_utf8 (s : string) : string := valid_utf8_from 0 s.
Definition Valid_utf8 (s : string) : Prop := to_valid_utf8 s = s.

(** ** Values *)

#[warnings="-register-all"]
Inductive json :=
| JNull
| JBool (b : bool)
| JNum (literal : string)
| JStr (s : string)
| JArr (l : list json)
| JObj (l : list (string * json)).

Definition is_space (c : ascii) : bool :=
  let b := byte_val c in (b =? 0x20) || (b =? 0x09) || (b =? 0x0A) || (b =? 0x0D).

Fixpoint skip_ws (s : string) : string :=
  match s with
  | String c s' => if is_space c then skip_ws s' else s
  | EmptyString => ""
  end.

Definition is_digit (c : ascii) : bool := (48 <=? byte_val c) && (byte_val c <=? 57).

Fixpoint take_digits (s : string) : string * string :=
  match s with
  | String c s' => if is_digit c then let '(d, r) := take_digits s' in (String c d, r) else ("", s)
  | EmptyString => ("", "")
  end.

(** The parts of a number: sign, integer, fraction, exponent. *)
Definition scan_int (s : string) : option (string * string) :=
  match s with
  | String "0" s' => Some ("0", s')
  | _ => let '(d, r) := take_digits s in if d =s "" then None else Some (d, r)
  end.

Definition scan_digits1 (pre s : string) : option (string * string) :=
  let '(d, r) := take_digits s in if d =s "" then None else Some (pre +:+ d, r).

Definition scan_frac (s : string) : option (string * string) :=
  match s with String "." s' => scan_digits1 "." s' | _ => Some ("", s) end.

Definition scan_exp (s : string) : option (string * string) :=
  match s with
  | String e s' =>
      if decide (e = "e"%char ∨ e = "E"%char) then
        match s' with
        | String "+" s'' => scan_digits1 (String e "+") s''
        | String "-" s'' => scan_digits1 (String e "-") s''
        | _ => scan_digits1 (String e "") s'
        end
      else Some ("", s)
  | EmptyString => Some ("", s)
  end.

Definition scan_sign (s : string) : string * string :=
  match s with String "-" s' => ("-", s') | _ => ("", s) end.

Definition scan_number (s : string) : option (string * string) :=
  let '(sign, s) := scan_sign s in
  '(int, s) ← scan_int s;
  '(frac, s) ← scan_frac s;
  '(exp, s) ← scan_exp s;
  Some (sign +:+ int +:+ frac +:+ exp, s).

Section Containers.
Context {A : Type} (val : string → option (A * string)).

(** The members of an object and the elements of an array, after the opening
    bracket; every turn of the loop reads at least one byte, so [fuel], the
    length of the input, is enough. *)
Fixpoint members_loop (fuel : nat) (s : string) : option (list (string * A) * string) :=
  match fuel with
  | O => None
  | S fuel =>
      match skip_ws s with
      | String q s =>
          if decide (q = quote) then
            '(k, s) ← unquote_from 0 s;
            match skip_ws s with
            | String ":" s =>
                '(v, s) ← val s;
                match skip_ws s with
                | String "," s => '(l, r) ← members_loop fuel s; Some ((k, v) :: l, r)
                | String "}" r => Some ([(k, v)], r)
                | _ => None
                end
            | _ => None
            end
          else None
      | EmptyString => None
      end
  end.

Definition object_body (s : string) : option (list (string * A) * string) :=
  match skip_ws s with
  | String "}" r => Some ([], r)
  | _ => members_loop (String.length s) s
  end.

Fixpoint elements_loop (fuel : nat) (s : string) : option (list A * string) :=
  match fuel with
  | O => None
  | S fuel =>
      '(v, s) ← val s;
      match skip_ws s with
      | String "," s => '(l, r) ← elements_loop fuel s; Some (v :: l, r)
      | String "]" r => Some ([v], r)
      | _ => None
      end
  end.

Definition array_body (s : string) : option (list A * string) :=
  match skip_ws s with
  | String "]" r => Some ([], r)
  | _ => elements_loop (String.length s) s
  end.
End Containers.

Definition literal (lit : string) (v : json) (s : string) : option (json * string) :=
  r ← CutPrefix s lit; Some (v, r).

Fixpoint parse_value (depth : nat) (s : string) : option (json * string) :=
  match skip_ws s with
  | EmptyString => None
  | String c s' as s0 =>
      if decide (c = quote) then '(t, r) ← unquote_from 0 s'; Some (JStr t, r)
      else if decide (c = "{"%char) then
        match depth with
        | O => None
        | S n => '(l, r) ← object_body (parse_value n) s'; Some (JObj l, r)
        end
      else if decide (c = "["%char) then
        match depth with
        | O => None
        | S n => '(l, r) ← array_body (parse_value n) s'; Some (JArr l, r)
        end
      else if decide (c = "t"%char) then literal "true" (JBool true) s0
      else if decide (c = "f"%char) then literal "false" (JBool false) s0
      else if decide (c = "n"%char) then literal "null" JNull s0
      else '(n, r) ← scan_number s0; Some (JNum n, r)
  end.

Definition maxNestingDepth : nat := Z.to_nat 10000.

(** The nesting allowed in a text: every level opens with a byte of its own, so
    a text shorter than [maxNestingDepth] never reaches the limit. *)
Definition nesting (s : string) : nat := Nat.min maxNestingDepth (String.length s).

(** [json.Unmarshal] into an [interface{}] (before numbers are converted): one
    value, and nothing but white space after it. *)
Definition parse_document (s : string) : option json :=
  '(v, r) ← parse_value (nesting s) s;
  if skip_ws r =s "" then Some v else None.

Definition Valid (s : string) : bool := bool_decide (is_Some (parse_document s)).

(** The text of the next value, without the space around it. *)
Definition raw_value (depth : nat) (s : string) : option (string * string) :=
  '(_, r) ← parse_value depth s;
  let s := skip_ws s in
  Some (String.substring 0 (String.length s - String.length r) s, r).

(** The members a struct's decoder visits: those of an object, or none for
    [null]; any other document is an error. *)
Definition members (s : string) : option (list (string * string)) :=
  v ← parse_document s;
  match v with
  | JNull => Some []
  | JObj _ =>
      match skip_ws s with
      | String _ s' => fst <$> object_body (raw_value (pred (nesting s))) s'
      | EmptyString => None
      end
  | _ => None
  end.

(** ** Encoding *)

Fixpoint encode_members (l : list (string * string)) : string :=
  match l with
  | [] => ""
  | [(k, t)] => Quote k +:+ String ":" t
  | (k, t) :: l => Quote k +:+ String ":" t +:+ String "," (encode_members l)
  end.

(** A struct: the names of its fields with their encoded values. *)
Definition encode_object (l : list (string * string)) : string :=
  String "{" (encode_members l +:+ "}").

(** [compact] with HTML escaping, as the encoder applies it to the text of a
    [json.RawMessage]: space outside strings is dropped, and the bytes that
    matter to HTML, and U+2028 and U+2029, are escaped. *)
Fixpoint compact_from (in_string escaped : bool) (skip : nat) (s : string) : string :=
  match s with
  | EmptyString => ""
  | String c s' =>
      match skip with
      | S k => compact_from in_string escaped k s'
      | O =>
          let b := byte_val c in
          if html_byte b then u00 b +:+ compact_from in_string false 0 s'
          else if (b =? 0xE2) && (HasPrefix s' (of_bytes [0x80; 0xA8]) || HasPrefix s' (of_bytes [0x80; 0xA9]))
          then "\u202" +:+ String (if HasPrefix s' (of_bytes [0x80; 0xA8]) then "8" else "9")%char
                 (compact_from in_string false 2 s')
          else if in_string then
            String c (if escaped then compact_from true false 0 s'
                      else if decide (c = quote) then compact_from false false 0 s'
                      else compact_from true (bool_decide (c = backslash)) 0 s')
          else if is_space c then compact_from false false 0 s'
          else String c (compact_from (bool_decide (c = quote)) false 0 s')
      end
  end.

Definition compact (s : string) : result string :=
  if Valid s then Ok (compact_from false false 0 s) else Err "json: invalid RawMessage".

(** ** Round trips *)

Fixpoint sdrop (n : nat) (s : string) : string :=
  match n, s with
  | O, _ => s
  | S n, String _ s => sdrop n s
  | S _, EmptyString => ""
  end.

Lemma bytes_substring n s : bytes (String.substring 0 n s) = take n (bytes s).
Proof.
  revert s. induction n as [|n IH]; intros [|c s]; try done. simpl. by rewrite <-IH.
Qed.

Lemma bytes_sdrop n s : bytes (sdrop n s) = drop n (bytes s).
Proof. revert s. induction n as [|n IH]; intros [|c s]; simpl; auto. Qed.

Lemma substring_sdrop n s : String.substring 0 n s +:+ sdrop n s = s.
Proof. apply (inj bytes). by rewrite bytes_app, bytes_substring, bytes_sdrop, take_drop. Qed.

Lemma escape_from_skip k s : escape_from k s = escape_from 0 (sdrop k s).
Proof. revert s. induction k as [|k IH]; intros [|c s]; simpl; auto. Qed.

Lemma unquote_from_skip x t : unquote_from (String.length x) (x +:+ t) = unquote_from 0 t.
Proof. induction x as [|c x IH]; [done|]. exact IH. Qed.

Lemma valid_utf8_from_skip k s :
  valid_utf8_from k s = String.substring 0 k s +:+ to_valid_utf8 (sdrop k s).
Proof.
  revert s. induction k as [|k IH]; intros [|c s]; try done.
  change (valid_utf8_from (S k) (String c s)) with (String c (valid_utf8_from k s)). by rewrite IH.
Qed.

(** The encoding of a rune of several bytes: its length, and that nothing
    after it matters. *)
Lemma decode_multi b l r w :
  0x80 <= b → decode_rune b l = (r, w) → ¬ (r = RuneError ∧ w = 1%nat) →
  (2 <= w <= S (length l))%nat ∧
  (∀ l', decode_rune b (take (pred w) l ++ l') = (r, w)) ∧
  (r = 0x2028 ∨ r = 0x2029 → w = 3%nat ∧ b :: take 2 l = [0xE2; 0x80; r - 0x2028 + 0xA8]).
Proof.
  intros Hb Hd Hne. unfold decode_rune, is_cont in *.
  rewrite (proj2 (Z.ltb_ge b 0x80)) in * by lia.
  repeat (case_match; zbool; simplify_eq; simpl; try (destruct Hne; split; reflexivity)).
  all: try lia.
  all: (split; [lia|split; [done|]]).
  all: intros Hr; try (exfalso; lia).
  all: (split; [done|]); rewrite ?take_0; repeat f_equal; lia.
Qed.

(** What the encoder writes for the head of a string, the decoder reads back
    as the head of the valid string. *)
Definition head_decodes (c : ascii) (s out : string) (w : nat) : Prop :=
  ∃ h out' piece,
    out = String h out' ∧ h ≠ quote ∧
    (∀ tail, unescape_head h (out' +:+ tail) = Some (piece, String.length out)) ∧
    to_valid_utf8 (String c s) = piece +:+ to_valid_utf8 (sdrop (pred w) s).

Lemma head_ascii c s : byte_val c < 0x80 → head_decodes c s (escape_ascii (byte_val c)) 1.
Proof.
  intros Hc. unfold head_decodes.
  destruct c as [[] [] [] [] [] [] [] []]; try (vm_compute in Hc; done);
    (do 3 eexists; split; [reflexivity|split; [done|split; [intros tail; reflexivity|reflexivity]]]).
Qed.

Lemma ascii_ne c b : byte_val c ≠ byte_val b → c ≠ b.
Proof. by intros H ->. Qed.

Lemma valid_utf8_multi c s r w :
  0x80 <= byte_val c → decode_rune (byte_val c) (bytes s) = (r, w) → ¬ (r = RuneError ∧ w = 1%nat) →
  to_valid_utf8 (String c s) = String.substring 0 w (String c s) +:+ to_valid_utf8 (sdrop (pred w) s).
Proof.
  intros Hc Hd Hne. destruct (decode_multi _ _ _ _ Hc Hd Hne) as [Hw _].
  unfold to_valid_utf8 at 1. simpl. rewrite Hd.
  destruct (Z.eqb_spec r RuneError), (Nat.eqb_spec w 1); try (by destruct Hne); simpl;
    (destruct w as [|w]; [lia|]; simpl; by rewrite valid_utf8_from_skip).
Qed.

Lemma head_multi c s r w :
  0x80 <= byte_val c → decode_rune (byte_val c) (bytes s) = (r, w) → ¬ (r = RuneError ∧ w = 1%nat) →
  head_decodes c s (String.substring 0 w (String c s)) w.
Proof.
  intros Hc Hd Hne. destruct (decode_multi _ _ _ _ Hc Hd Hne) as (Hw & Htake & _).
  destruct w as [|w]; [lia|].
  exists c, (String.substring 0 w s), (String.substring 0 (S w) (String c s)).
  split; [done|]. split; [apply ascii_ne; change (byte_val quote) with 34; lia|].
  split; [|by eapply valid_utf8_multi].
  intros tail. unfold unescape_head.
  rewrite decide_False by (apply ascii_ne; change (byte_val backslash) with 92; lia).
  rewrite !(proj2 (Z.ltb_ge _ _)) by lia.
  rewrite bytes_app, bytes_substring, Htake.
  assert (String.length (String.substring 0 (S w) (String c s)) = S w) as Hlen.
  { rewrite <-length_bytes, bytes_substring, length_take. simpl. lia. }
  rewrite Hlen.
  assert (String.substring 0 (S w) (String c (String.substring 0 w s +:+ tail))
          = String.substring 0 (S w) (String c s)) as ->.
  { simpl. f_equal. apply (inj bytes). rewrite !bytes_substring, bytes_app, bytes_substring.
    rewrite take_app_le, take_take, Nat.min_id; [done|]. rewrite length_take. lia. }
  destruct (Z.eqb_spec r RuneError), (Nat.eqb_spec (S w) 1); try done; by destruct Hne.
Qed.

Lemma escape_head_decodes c s out w :
  escape_head c s = (out, w) → head_decodes c s out w.
Proof.
  unfold escape_head. destruct (Z.ltb_spec (byte_val c) 0x80) as [Hc|Hc].
  { intros [= <- <-]. by apply head_ascii. }
  destruct (decode_rune (byte_val c) (bytes s)) as [r w'] eqn:Hd.
  destruct ((r =? RuneError) && Nat.eqb w' 1) eqn:Hbad.
  { intros [= <- <-]. apply andb_true_iff in Hbad as [->%Z.eqb_eq ->%Nat.eqb_eq].
    exists backslash, "ufffd", fffd. split; [done|]. split; [done|]. split; [done|].
    unfold to_valid_utf8. simpl. by rewrite Hd. }
  assert (¬ (r = RuneError ∧ w' = 1%nat)) as Hne.
  { intros [-> ->]. done. }
  destruct ((r =? 0x2028) || (r =? 0x2029)) eqn:Hsep; intros [= <- <-].
  - destruct (decode_multi _ _ _ _ Hc Hd Hne) as (_ & _ & Hls).
    destruct Hls as [-> Hb].
    { apply orb_true_iff in Hsep as [->%Z.eqb_eq| ->%Z.eqb_eq]; auto. }
    assert (String.substring 0 3 (String c s) = encode_rune r) as Hp.
    { apply (inj bytes). rewrite bytes_substring. simpl in Hb |- *. rewrite Hb.
      by apply orb_true_iff in Hsep as [->%Z.eqb_eq| ->%Z.eqb_eq]. }
    exists backslash, ("u202" +:+ String (hex_digit (r - 0x2020)) ""), (encode_rune r).
    split; [done|]. split; [done|].
    split; [|rewrite <-Hp; by apply (valid_utf8_multi c s r 3)].
    intros tail. by apply orb_true_iff in Hsep as [->%Z.eqb_eq| ->%Z.eqb_eq].
  - by eapply head_multi.
Qed.

Lemma string_app_assoc (a b c : string) : (a +:+ b) +:+ c = a +:+ (b +:+ c).
Proof. apply (inj bytes). by rewrite !bytes_app, app_assoc. Qed.

Lemma unquote_escape s rest :
  unquote_from 0 (escape_from 0 s +:+ String quote rest) = Some (to_valid_utf8 s, rest).
Proof.
  remember (String.length s) as n eqn:Hn. revert s Hn.
  induction n as [n IH] using lt_wf_ind. intros [|c s] ->; [done|].
  simpl escape_from. destruct (escape_head c s) as [out w] eqn:Hh.
  destruct (escape_head_decodes _ _ _ _ Hh) as (h & out' & piece & -> & Hq & Hun & ->).
  rewrite escape_from_skip, string_app_assoc.
  change (String h out' +:+ ?t) with (String h (out' +:+ t)). simpl unquote_from.
  rewrite decide_False by done. rewrite Hun. simpl.
  rewrite unquote_from_skip, (IH (String.length (sdrop (pred w) s))); [done| |done].
  rewrite <-!length_bytes, bytes_sdrop, length_drop. simpl. lia.
Qed.

(** *** Texts

    [Text n v t]: the decoder, with nesting [n] left, reads the text [t] as
    the value [v], whatever delimiter comes next. *)

Definition delim (rest : string) : Prop :=
  match rest with
  | EmptyString => True
  | String c _ => c = ","%char ∨ c = "}"%char ∨ c = "]"%char
  end.

Definition head_ok (t : string) : Prop :=
  match t with String c _ => is_space c = false | EmptyString => False end.

Definition Text (n : nat) (v : json) (t : string) : Prop :=
  head_ok t ∧ ∀ rest, delim rest → parse_value n (t +:+ rest) = Some (v, rest).

Lemma skip_ws_head t rest : head_ok t → skip_ws (t +:+ rest) = t +:+ rest.
Proof.
  destruct t as [|c t]; [done|]. simpl. intros H.
  change (String c t +:+ rest) with (String c (t +:+ rest)). simpl. by rewrite H.
Qed.

Lemma Text_Quote n s : Text n (JStr (to_valid_utf8 s)) (Quote s).
Proof.
  split; [done|]. intros rest _. unfold Quote.
  change (String quote ?x +:+ rest) with (String quote (x +:+ rest)).
  rewrite string_app_assoc. change (String quote "" +:+ rest) with (String quote rest).
  destruct n; simpl; by rewrite unquote_escape.
Qed.

Lemma Text_null n : Text n JNull "null".
Proof. split; [done|]. intros rest _. by destruct n, rest. Qed.

Lemma Text_bool n (b : bool) : Text n (JBool b) (if b then "true" else "false").
Proof. destruct b; (split; [done|]); intros rest _; by destruct n, rest. Qed.

Lemma Quote_key k rest :
  unquote_from 0 (escape_from 0 k +:+ String quote "" +:+ rest) = Some (to_valid_utf8 k, rest).
Proof. by rewrite <-(unquote_escape k rest). Qed.

(** Reading back the members of an encoded object, whatever [val] makes of
    their texts. *)
Section MembersRoundTrip.
Context {A : Type} (val : string → option (A * string)).

Definition reads (kt : string * string) (kv : string * A) : Prop :=
  to_valid_utf8 kt.1 = kv.1 ∧
  ∀ rest, delim rest → val (kt.2 +:+ rest) = Some (kv.2, rest).

Lemma encode_members_cons k t l rest :
  encode_members ((k, t) :: l) +:+ String "}" rest =
  String quote (escape_from 0 k +:+ String quote "" +:+ String ":" (t +:+
    match l with [] => String "}" rest | _ => String "," (encode_members l +:+ String "}" rest) end)).
Proof.
  apply (inj bytes). destruct l as [|kt l].
  - simpl encode_members. unfold Quote. cbn [bytes].
    repeat (rewrite ?bytes_app, <-?app_assoc; cbn [bytes app]). done.
  - cbn [encode_members]. unfold Quote. cbn [bytes].
    repeat (rewrite ?bytes_app, <-?app_assoc; cbn [bytes app]). done.
Qed.

Lemma members_loop_encode l vs fuel rest :
  Forall2 reads l vs → l ≠ [] → (length l <= fuel)%nat →
  members_loop val fuel (encode_members l +:+ String "}" rest) = Some (vs, rest).
Proof.
  intros Hl. revert fuel. induction Hl as [|[k t] [k' v] l vs [Hk Hv] Hl IH]; intros fuel Hne Hf; [done|].
  simpl in Hk, Hv, Hf. subst k'. destruct fuel as [|fuel]; [lia|]. rewrite encode_members_cons.
  cbn [members_loop]. simpl skip_ws. cbv iota. simpl decide. cbv iota. rewrite Quote_key. simpl.
  destruct l as [|kt l].
  - rewrite Hv by (simpl; auto). apply Forall2_nil_inv_l in Hl as ->. done.
  - rewrite Hv by (simpl; auto). simpl. rewrite IH; [done|done|simpl in *; lia].
Qed.

Lemma object_body_encode l vs rest :
  Forall2 reads l vs →
  object_body val (encode_members l +:+ String "}" rest) = Some (vs, rest).
Proof.
  intros Hl. destruct l as [|[k t] l].
  { apply Forall2_nil_inv_l in Hl as ->. done. }
  unfold object_body. rewrite (members_loop_encode _ _ _ _ Hl); [by rewrite encode_members_cons|done|].
  clear Hl. rewrite <-length_bytes, bytes_app, length_app.
  assert (∀ m, (length m <= length (bytes (encode_members m)))%nat) as Hm.
  { induction m as [|[k' t'] m IH]; [done|]. destruct m as [|kt m].
    - simpl. lia.
    - change (encode_members ((k', t') :: kt :: m))
        with (Quote k' +:+ String ":" t' +:+ String "," (encode_members (kt :: m))).
      repeat (rewrite ?bytes_app, ?length_app; cbn [bytes length]).
      cbn [length] in IH. lia. }
  specialize (Hm ((k, t) :: l)). lia.
Qed.
End MembersRoundTrip.

Lemma Text_object n l vs :
  Forall2 (λ kt kv, to_valid_utf8 kt.1 = kv.1 ∧ Text n kv.2 kt.2) l vs →
  Text (S n) (JObj vs) (encode_object l).
Proof.
  intros Hl. split; [done|]. intros rest _. unfold encode_object.
  change (String "{" ?x +:+ rest) with (String "{" (x +:+ rest)). rewrite string_app_assoc.
  change ("}" +:+ rest) with (String "}" rest).
  simpl. rewrite (object_body_encode _ _ vs); [done|].
  eapply Forall2_impl; [exact Hl|]. intros kt kv [Hk [_ Ht]]. by split.
Qed.

Lemma raw_value_Text n v t rest :
  Text n v t → delim rest → raw_value n (t +:+ rest) = Some (t, rest).
Proof.
  intros [Hh Ht] Hr. unfold raw_value. rewrite Ht by done. simpl.
  rewrite skip_ws_head by done. do 2 f_equal.
  rewrite <-!length_bytes, bytes_app, length_app.
  replace (_ + _ - _)%nat with (length (bytes t)) by lia.
  apply (inj bytes). by rewrite bytes_substring, bytes_app, take_app_length.
Qed.

Lemma string_app_nil (t : string) : t +:+ "" = t.
Proof. apply (inj bytes). by rewrite bytes_app, app_nil_r. Qed.

Lemma parse_document_Text v t : Text (nesting t) v t → parse_document t = Some v.
Proof.
  intros [_ Ht]. specialize (Ht "" I). rewrite string_app_nil in Ht.
  unfold parse_document. by rewrite Ht.
Qed.

Lemma Text_fields n l :
  Forall (λ kt, Valid_utf8 kt.1 ∧ ∃ v, Text n v kt.2) l →
  ∃ vs, Forall2 (λ kt kv, to_valid_utf8 kt.1 = kv.1 ∧ Text n kv.2 kt.2) l vs.
Proof.
  induction 1 as [|[k t] l [Hk [v Hv]] Hl [vs IH]]; [by exists []|].
  exists ((k, v) :: vs). by constructor.
Qed.

Lemma nesting_object l : nesting (encode_object l) = S (pred (nesting (encode_object l))).
Proof.
  unfold nesting, maxNestingDepth. change (encode_object l) with (String "{" (encode_members l +:+ "}")).
  cbn [String.length]. lia.
Qed.

(** A struct's decoder gets back the fields the encoder wrote. *)
Lemma members_encode_object l :
  Forall (λ kt, Valid_utf8 kt.1 ∧ ∃ v, Text (pred (nesting (encode_object l))) v kt.2) l →
  members (encode_object l) = Some l.
Proof.
  intros Hl. destruct (Text_fields _ _ Hl) as [vs Hvs]. unfold members.
  rewrite (parse_document_Text (JObj vs)) by (rewrite nesting_object; by apply Text_object).
  cbn [mbind option_bind]. revert Hl. generalize (pred (nesting (encode_object l))). intros n Hl.
  unfold encode_object. simpl skip_ws. cbv iota.
  rewrite (object_body_encode _ l l); [done|]. clear Hvs vs.
  induction Hl as [|[k t] l [Hk [v Hv]] Hl IH]; constructor; [|done].
  split; [done|]. intros rest Hr. by eapply raw_value_Text.
Qed.

(** *** Integers *)

Fixpoint all_digits (s : string) : Prop :=
  match s with String c s => is_digit c = true ∧ all_digits s | EmptyString => True end.

Lemma is_digit_digit d : 0 <= d <= 9 → is_digit (digit d) = true.
Proof. intros H. unfold is_digit, digit. rewrite byte_val_of by lia. lia. Qed.

Lemma dec_digits_spec fuel z acc :
  (0 < fuel)%nat → 0 <= z < 10 ^ Z.of_nat fuel →
  ∃ c d, dec_digits fuel z acc = String c (d +:+ acc) ∧ all_digits (String c d) ∧
         (c = "0"%char → d = "" ∧ z = 0).
Proof.
  revert z acc. induction fuel as [|fuel IH]; intros z acc Hf Hz; [lia|].
  pose proof (Z.mod_pos_bound z 10 ltac:(lia)) as Hm.
  cbn [dec_digits]. destruct (Z.ltb_spec z 10) as [Hlt|Hge].
  - exists (digit (z mod 10)), "". split; [done|]. split; [split; [by apply is_digit_digit; lia|done]|].
    intros H. split; [done|]. apply (f_equal byte_val) in H. unfold digit in H.
    rewrite byte_val_of in H by lia. change (byte_val "0") with 48 in H.
    rewrite Z.mod_small in H; lia.
  - rewrite Nat2Z.inj_succ, Z.pow_succ_r in Hz by lia.
    destruct (IH (z / 10) (String (digit (z mod 10)) acc)) as (c & d & -> & Hd & H0).
    { destruct fuel; [simpl in Hz; lia|lia]. }
    { split; [apply Z.div_pos; lia|apply Z.div_lt_upper_bound; lia]. }
    exists c, (d +:+ String (digit (z mod 10)) ""). split; [by rewrite string_app_assoc|]. split.
    + destruct Hd as [Hc Hd]. split; [done|]. clear -Hd Hm.
      induction d as [|c' d IHd]; [split; [apply is_digit_digit; lia|done]|].
      destruct Hd. split; auto.
    + intros Hc. apply H0 in Hc as [_ Hc]. apply Z.div_small_iff in Hc; lia.
Qed.

Lemma take_digits_app d rest :
  all_digits d → match rest with String c _ => is_digit c = false | _ => True end →
  take_digits (d +:+ rest) = (d, rest).
Proof.
  intros Hd Hr. induction d as [|c d IH].
  - change ("" +:+ rest) with rest. destruct rest as [|c rest]; [done|]. simpl. by rewrite Hr.
  - destruct Hd as [Hc Hd]. change (String c d +:+ rest) with (String c (d +:+ rest)).
    simpl. by rewrite Hc, IH.
Qed.

Lemma delim_not_digit rest :
  delim rest → match rest with String c _ => is_digit c = false | _ => True end.
Proof. destruct rest; [done|]. by intros [->|[->| ->]]. Qed.

Lemma scan_tail rest :
  delim rest → scan_frac rest = Some ("", rest) ∧ scan_exp rest = Some ("", rest).
Proof. destruct rest as [|c rest]; [done|]. by intros [->|[->| ->]]. Qed.

Lemma scan_int_digits c d rest :
  all_digits (String c d) → (c = "0"%char → d = "") → delim rest →
  scan_int (String c (d +:+ rest)) = Some (String c d, rest).
Proof.
  intros Hd H0 Hr. pose proof (take_digits_app (String c d) rest Hd (delim_not_digit _ Hr)) as Ht.
  change (String c d +:+ rest) with (String c (d +:+ rest)) in Ht.
  destruct (decide (c = "0"%char)) as [->|Hne]; [by rewrite (H0 eq_refl)|].
  unfold scan_int. rewrite Ht.
  by destruct c as [[] [] [] [] [] [] [] []].
Qed.

Lemma scan_number_digits c d rest (sign : bool) :
  all_digits (String c d) → (c = "0"%char → d = "") → delim rest →
  let t := if sign then String "-" (String c d) else String c d in
  scan_number (t +:+ rest) = Some (t, rest).
Proof.
  intros Hd H0 Hr. pose proof (scan_int_digits c d rest Hd H0 Hr) as Hi.
  destruct (scan_tail rest Hr) as [Hf He]. destruct Hd as [Hc _].
  unfold scan_number.
  assert (∀ sg, scan_sign ((if sign then String "-" (String c d) else String c d) +:+ rest)
                = (sg, String c (d +:+ rest)) → sg = if sign then "-" else "") as Hsg.
  { destruct sign; [by intros ? [= <-]|]. clear -Hc. intros sg.
    by destruct c as [[] [] [] [] [] [] [] []]; intros [= <-]. }
  destruct (scan_sign _) as [sg s'] eqn:Hss.
  assert (s' = String c (d +:+ rest)) as ->.
  { clear -Hss Hc. destruct sign; [by injection Hss|].
    destruct c as [[] [] [] [] [] [] [] []]; try done; by injection Hss. }
  rewrite (Hsg _ eq_refl), Hi. simpl. rewrite Hf. simpl. rewrite He. simpl.
  rewrite string_app_nil. by destruct sign.
Qed.

(** The decoder takes a number where no other value can start. *)
Lemma parse_number n c s r :
  is_digit c = true ∨ c = "-"%char → scan_number (String c s) = Some r →
  parse_value n (String c s) = Some (JNum r.1, r.2).
Proof.
  intros Hc Hs. destruct r as [lit r].
  assert (is_space c = false) as Hsp.
  { clear -Hc. destruct Hc as [Hc| ->]; [|done]. by destruct c as [[] [] [] [] [] [] [] []]. }
  destruct n; simpl; rewrite Hsp; rewrite !decide_False
    by (intros ->; destruct Hc as [Hc|Hc]; vm_compute in Hc; discriminate); by rewrite Hs.
Qed.

Lemma Itoa_shape z :
  - 10 ^ 20 < z < 10 ^ 20 →
  ∃ c d, Itoa z = (if z <? 0 then String "-" (String c d) else String c d) ∧
         all_digits (String c d) ∧ (c = "0"%char → d = "").
Proof.
  intros Hz. unfold Itoa. destruct (Z.ltb_spec z 0).
  - destruct (dec_digits_spec 20 (- z) "") as (c & d & -> & Hd & H0); [lia|lia|].
    rewrite string_app_nil. exists c, d. naive_solver.
  - destruct (dec_digits_spec 20 z "") as (c & d & -> & Hd & H0); [lia|lia|].
    rewrite string_app_nil. exists c, d. naive_solver.
Qed.

Lemma Text_Itoa n z : - 10 ^ 20 < z < 10 ^ 20 → Text n (JNum (Itoa z)) (Itoa z).
Proof.
  intros Hz. destruct (Itoa_shape z Hz) as (c & d & -> & Hd & H0).
  pose proof (λ rest, scan_number_digits c d rest (z <? 0) Hd H0) as Hs. cbv zeta in Hs.
  assert (is_space c = false) as Hsp.
  { destruct Hd as [Hd _]. clear -Hd. by destruct c as [[] [] [] [] [] [] [] []]. }
  split; [by destruct (z <? 0)|]. intros rest Hr. specialize (Hs rest Hr).
  destruct (z <? 0).
  - change (String "-" (String c d) +:+ rest) with (String "-" (String c (d +:+ rest))) in *.
    by erewrite parse_number; [|by right|exact Hs].
  - change (String c d +:+ rest) with (String c (d +:+ rest)) in *.
    by erewrite parse_number; [|left; apply Hd|exact Hs].
Qed.

(** ** Compaction leaves the encoder's own texts alone *)

Definition Compact (t : string) : Prop :=
  ∀ rest, compact_from false false 0 (t +:+ rest) = t +:+ compact_from false false 0 rest.

(** Inside a string literal, likewise. *)
Definition CompactIn (t : string) : Prop :=
  ∀ rest, compact_from true false 0 (t +:+ rest) = t +:+ compact_from true false 0 rest.

Lemma Compact_app t u : Compact t → Compact u → Compact (t +:+ u).
Proof. intros Ht Hu rest. by rewrite !string_app_assoc, Ht, Hu. Qed.

Lemma CompactIn_app t u : CompactIn t → CompactIn u → CompactIn (t +:+ u).
Proof. intros Ht Hu rest. by rewrite !string_app_assoc, Ht, Hu. Qed.

Lemma CompactIn_ascii c : byte_val c < 0x80 → CompactIn (escape_ascii (byte_val c)).
Proof.
  intros Hc rest.
  destruct c as [[] [] [] [] [] [] [] []]; try (vm_compute in Hc; done); reflexivity.
Qed.

(** The bytes of an encoded rune after the first. *)
Lemma decode_cont b l r w :
  0x80 <= b → decode_rune b l = (r, w) → ¬ (r = RuneError ∧ w = 1%nat) →
  Forall (λ x, 0x80 <= x <= 0xBF) (take (pred w) l) ∧
  (b = 0xE2 → r ≠ 0x2028 → r ≠ 0x2029 →
   ∃ x y, take (pred w) l = [x; y] ∧ ¬ (x = 0x80 ∧ (y = 0xA8 ∨ y = 0xA9))).
Proof.
  intros Hb Hd Hne. unfold decode_rune, is_cont in *.
  rewrite (proj2 (Z.ltb_ge b 0x80)) in * by lia.
  repeat (case_match; zbool; simplify_eq; simpl; try (destruct Hne; split; reflexivity)).
  all: try lia.
  all: rewrite ?take_0; split; [repeat constructor; lia|].
  all: intros Hb2; try (exfalso; lia).
  all: intros; eexists _, _; split; [reflexivity|]; lia.
Qed.

Lemma CompactIn_cont x :
  Forall (λ b, 0x80 <= b <= 0xBF) (bytes x) → CompactIn x.
Proof.
  induction x as [|c x IH]; intros Hx rest; [done|]. apply Forall_cons in Hx as [Hc Hx].
  change (String c x +:+ ?r) with (String c (x +:+ r)). cbn [compact_from]. unfold html_byte.
  rewrite !(proj2 (Z.eqb_neq _ _)) by lia. simpl.
  rewrite decide_False by (apply ascii_ne; change (byte_val quote) with 34; lia).
  rewrite bool_decide_eq_false_2 by (apply ascii_ne; change (byte_val backslash) with 92; lia).
  f_equal. by apply IH.
Qed.

Lemma CompactIn_multi c s r w :
  0x80 <= byte_val c → decode_rune (byte_val c) (bytes s) = (r, w) → ¬ (r = RuneError ∧ w = 1%nat) →
  r ≠ 0x2028 → r ≠ 0x2029 → CompactIn (String.substring 0 w (String c s)).
Proof.
  intros Hc Hd Hne Hr1 Hr2. destruct (decode_multi _ _ _ _ Hc Hd Hne) as [Hw _].
  destruct (decode_cont _ _ _ _ Hc Hd Hne) as [Hcont He2]. destruct w as [|w]; [lia|].
  simpl in Hcont, He2. rewrite <-bytes_substring in Hcont, He2.
  change (String.substring 0 (S w) (String c s)) with (String c (String.substring 0 w s)).
  revert Hcont He2. generalize (String.substring 0 w s). intros x Hcont He2 rest.
  change (String c x +:+ ?r) with (String c (x +:+ r)). cbn [compact_from]. unfold html_byte.
  rewrite !(proj2 (Z.eqb_neq (byte_val c) 0x3C)), !(proj2 (Z.eqb_neq (byte_val c) 0x3E)),
    !(proj2 (Z.eqb_neq (byte_val c) 0x26)) by lia. cbn [orb].
  assert ((byte_val c =? 0xE2) && (HasPrefix (x +:+ rest) (of_bytes [0x80; 0xA8])
            || HasPrefix (x +:+ rest) (of_bytes [0x80; 0xA9])) = false) as ->.
  { destruct (Z.eqb_spec (byte_val c) 0xE2) as [E|]; [|done]. simpl andb.
    destruct (He2 E Hr1 Hr2) as (b1 & b2 & Hx & Hnot).
    destruct x as [|x1 [|x2 x]]; try done. simpl in Hx. injection Hx as E1 E2 E3.
    apply orb_false_iff. split; apply not_true_iff_false; intros [rs Hrs]%HasPrefix_true;
      injection Hrs as -> -> _; vm_compute in E1, E2; subst; apply Hnot; auto. }
  rewrite decide_False by (apply ascii_ne; change (byte_val quote) with 34; lia).
  rewrite bool_decide_eq_false_2 by (apply ascii_ne; change (byte_val backslash) with 92; lia).
  cbn [negb]. f_equal. by apply CompactIn_cont.
Qed.

Lemma CompactIn_head c s out w : escape_head c s = (out, w) → CompactIn out.
Proof.
  unfold escape_head. destruct (Z.ltb_spec (byte_val c) 0x80) as [Hc|Hc].
  { intros [= <- <-]. by apply CompactIn_ascii. }
  destruct (decode_rune (byte_val c) (bytes s)) as [r w'] eqn:Hd.
  destruct ((r =? RuneError) && Nat.eqb w' 1) eqn:Hbad; [by intros [= <- <-] rest|].
  destruct ((r =? 0x2028) || (r =? 0x2029)) eqn:Hsep; intros [= <- <-].
  - intros rest. by apply orb_true_iff in Hsep as [->%Z.eqb_eq| ->%Z.eqb_eq].
  - zbool. eapply CompactIn_multi; [done..| | |]; [|done|done]. by intros [-> ->].
Qed.

Lemma CompactIn_escape s : CompactIn (escape_from 0 s).
Proof.
  remember (String.length s) as n eqn:Hn. revert s Hn.
  induction n as [n IH] using lt_wf_ind. intros [|c s] ->; [done|].
  simpl escape_from. destruct (escape_head c s) as [out w] eqn:Hh.
  rewrite escape_from_skip. apply CompactIn_app; [by eapply CompactIn_head|].
  eapply IH; [|done]. rewrite <-!length_bytes, bytes_sdrop, length_drop. simpl. lia.
Qed.

Lemma Compact_Quote s : Compact (Quote s).
Proof.
  intros rest. unfold Quote.
  change (String quote ?x +:+ ?r) with (String quote (x +:+ r)). rewrite !string_app_assoc.
  transitivity (String quote (compact_from true false 0 (escape_from 0 s +:+ String quote rest))); [done|].
  by rewrite CompactIn_escape.
Qed.

Lemma Compact_members l :
  Forall (λ kt, Compact kt.2) l → Compact (encode_members l).
Proof.
  assert (∀ t, Compact t → Compact (String ":" t)) as Hcolon.
  { intros t Ht rest. change (String ":" t +:+ ?r) with (String ":" (t +:+ r)). simpl. by rewrite Ht. }
  assert (∀ t, Compact t → Compact (String "," t)) as Hcomma.
  { intros t Ht rest. change (String "," t +:+ ?r) with (String "," (t +:+ r)). simpl. by rewrite Ht. }
  induction 1 as [|[k t] l Ht Hl IH]; [by intros rest|]. simpl in Ht.
  destruct l as [|kt l]; cbn [encode_members].
  - apply Compact_app; [apply Compact_Quote|auto].
  - apply Compact_app; [apply Compact_Quote|]. apply Compact_app; auto.
Qed.

Lemma Compact_object l : Forall (λ kt, Compact kt.2) l → Compact (encode_object l).
Proof.
  intros Hl rest. unfold encode_object.
  change (String "{" ?x +:+ ?r) with (String "{" (x +:+ r)). rewrite !string_app_assoc.
  transitivity (String "{" (compact_from false false 0 (encode_members l +:+ String "}" rest))); [done|].
  by rewrite (Compact_members _ Hl).
Qed.

Lemma Compact_digits s : all_digits s → Compact s.
Proof.
  induction s as [|c s IH]; intros Hs rest; [done|]. destruct Hs as [Hc Hs].
  change (String c s +:+ ?r) with (String c (s +:+ r)). specialize (IH Hs rest).
  by destruct c as [[] [] [] [] [] [] [] []]; try done; simpl; rewrite IH.
Qed.

Lemma Compact_Itoa z : - 10 ^ 20 < z < 10 ^ 20 → Compact (Itoa z).
Proof.
  intros Hz. destruct (Itoa_shape z Hz) as (c & d & -> & Hd & _).
  destruct (z <? 0); [|by apply Compact_digits].
  intros rest. change (String "-" ?x +:+ ?r) with (String "-" (x +:+ r)).
  simpl. f_equal. apply (Compact_digits (String c d) Hd).
Qed.

Lemma Compact_null : Compact "null".
Proof. by intros rest. Qed.

(** The text of a [RawMessage] that the encoder wrote itself. *)
Lemma compact_Text v t : Text (nesting t) v t → Compact t → compact t = Ok t.
Proof.
  intros Ht Hc. unfold compact, Valid. rewrite (parse_document_Text v t Ht).
  rewrite bool_decide_eq_true_2 by done.
  specialize (Hc ""). rewrite string_app_nil in Hc. by rewrite Hc, string_app_nil.
Qed.

#[export] Hint Resolve Text_Quote Text_null Text_bool Text_Itoa Compact_Quote Compact_Itoa Compact_null : go.

End GoJson.
