(* ===== verification/GoTimeParse.v ===== *)
(** * Parsing RFC 3339 times

    [time.Time.UnmarshalJSON] as far as the collector relies on it: a strict
    RFC 3339 time, as [RFC3339Nano] writes it.  A time is read as an instant;
    the zone it was written in, always UTC in the records the collector
    writes, is dropped.

    [Parse_RFC3339Nano] is the round trip. *)

From S2P Require Import Prelude GoStrings GoFloat GoTime GoJson.
Import GoStrings GoTime GoJson.

Module GoTimeParse.

Definition leap (y : Z) : bool :=
  (y mod 4 =? 0) && (negb (y mod 100 =? 0) || (y mod 400 =? 0)).

Definition days_before (m : Z) : Z :=
  nth (Z.to_nat (m - 1)) [0; 31; 59; 90; 120; 151; 181; 212; 243; 273; 304; 334] 0.

Definition daysIn (m y : Z) : Z :=
  if (m =? 2) && leap y then 29
  else nth (Z.to_nat (m - 1)) [31; 28; 31; 30; 31; 30; 31; 31; 30; 31; 30; 31] 0.

(** Days from January 1, year 1. *)
Definition days_of (y m d : Z) : Z :=
  let p := y - 1 in
  365 * p + p / 4 - p / 100 + p / 400 + days_before m
  + (if leap y && (2 <? m) then 1 else 0) + (d - 1).

(** [w] decimal digits. *)
Fixpoint parse_dec (w : nat) (acc : Z) (s : string) : option (Z * string) :=
  match w with
  | O => Some (acc, s)
  | S w =>
      match s with
      | String c s => if is_digit c then parse_dec w (10 * acc + (byte_val c - 48)) s else None
      | EmptyString => None
      end
  end.

Definition parse_in (w : nat) (lo hi : Z) (s : string) : option (Z * string) :=
  '(v, s) ← parse_dec w 0 s;
  if (lo <=? v) && (v <=? hi) then Some (v, s) else None.

Definition expect (c : ascii) (s : string) : option string := CutPrefix s (String c "").

(** The fraction of a second, in nanoseconds: digits after the ninth are
    ignored. *)
Fixpoint frac_value (scale : Z) (digits : string) : Z :=
  match digits with
  | String c s => (byte_val c - 48) * scale + frac_value (scale / 10) s
  | EmptyString => 0
  end.

Definition parse_frac (s : string) : Z * string :=
  match s with
  | String "." s' =>
      let '(d, r) := take_digits s' in
      if d =s "" then (0, s) else (frac_value 100000000 d, r)
  | _ => (0, s)
  end.

(** The offset of a zone, in seconds. *)
Definition parse_zone (s : string) : option Z :=
  match s with
  | "Z" => Some 0
  | String sign s =>
      '(hh, s) ← parse_in 2 0 24 s;
      s ← expect ":" s;
      '(mm, s) ← parse_in 2 0 60 s;
      if s =s "" then
        if decide (sign = "+"%char) then Some (3600 * hh + 60 * mm)
        else if decide (sign = "-"%char) then Some (- (3600 * hh + 60 * mm))
        else None
      else None
  | EmptyString => None
  end.

Definition ParseRFC3339 (s : string) : option Z :=
  '(year, s) ← parse_in 4 0 9999 s; s ← expect "-" s;
  '(month, s) ← parse_in 2 1 12 s; s ← expect "-" s;
  '(day, s) ← parse_in 2 1 (daysIn month year) s; s ← expect "T" s;
  '(hour, s) ← parse_in 2 0 23 s; s ← expect ":" s;
  '(min, s) ← parse_in 2 0 59 s; s ← expect ":" s;
  '(sec, s) ← parse_in 2 0 59 s;
  let '(nsec, s) := parse_frac s in
  offset ← parse_zone s;
  Some ((86400 * days_of year month day + 3600 * hour + 60 * min + sec - offset) * Second + nsec).

(** ** Dates *)

#[local] Ltac div_lia := Z.div_mod_to_equations; lia.

(** Leap days before March 1 of year [y]. *)
Definition leap_days (y : Z) : Z := y / 4 - y / 100 + y / 400.

Lemma leap_days_step y : leap_days y = leap_days (y - 1) + (if leap y then 1 else 0).
Proof.
  unfold leap_days, leap.
  destruct (Z.eqb_spec (y mod 4) 0), (Z.eqb_spec (y mod 100) 0), (Z.eqb_spec (y mod 400) 0);
    simpl; div_lia.
Qed.

(** The day number of a day counted from March 1, and that only a leap year
    has the last of them. *)
Lemma march_split_days d :
  let '(y, n) := march_split d in
  365 * y + leap_days y + n - 306 = d ∧ 0 <= n ∧ (n <= 364 ∨ n = 365 ∧ leap (y + 1) = true).
Proof.
  unfold march_split. assert (d = d + 306 - 306) as Hd by lia. revert Hd.
  generalize (d + 306). intros z Hd. subst d.
  pose proof (Z.div_mod z 146097 ltac:(lia)) as Hz.
  pose proof (Z.mod_pos_bound z 146097 ltac:(lia)) as B1. revert Hz B1.
  generalize (z / 146097) (z mod 146097). intros e x -> B1.
  destruct (min3_bound 36524 x ltac:(lia) ltac:(lia)) as [B2 B2'].
  assert (Z.min 3 (x / 36524) < 3 → x - 36524 * Z.min 3 (x / 36524) < 36524) as B2'' by div_lia.
  revert B2 B2' B2''. generalize (Z.min 3 (x / 36524)). intros c.
  assert (x = 36524 * c + (x - 36524 * c)) as Hx by lia. revert Hx.
  generalize (x - 36524 * c). intros r -> B2 B2' B2''.
  pose proof (four_years r B2') as [Bq Bp]. pose proof (Z.div_mod r 1461 ltac:(lia)) as Hr.
  revert Bq Bp Hr. generalize (r / 1461) (r mod 1461). intros q p Bq Bp ->.
  destruct (min3_bound 365 p ltac:(lia) ltac:(lia)) as [B4 B4'].
  assert (Z.min 3 (p / 365) < 3 → p - 365 * Z.min 3 (p / 365) < 365) as B4'' by div_lia.
  revert B4 B4' B4''. generalize (Z.min 3 (p / 365)). intros a B4 B4' B4''.
  assert (p = 365 * a + (p - 365 * a)) as Hp by lia. revert Hp B4' B4''.
  generalize (p - 365 * a). intros n -> B4' B4''.
  split; [unfold leap_days; div_lia|]. split; [lia|].
  destruct (Z.le_gt_cases n 364); [by left|]. right. assert (a = 3) as -> by lia.
  assert (n = 365) as -> by lia. split; [done|]. unfold leap.
  replace (_ mod 4 =? 0) with true by (symmetry; apply Z.eqb_eq; div_lia). simpl.
  destruct (Z.eqb_spec ((400 * e + 100 * c + 4 * q + 3 + 1) mod 100) 0); [simpl|done].
  apply Z.eqb_eq. assert (q = 24) as -> by div_lia. assert (c = 3) as -> by lia. div_lia.
Qed.

(** The date of a day has that day number, and its month has that day. *)
Lemma civil_days d :
  days_of (cyear (civil d)) (cmonth (civil d)) (cday (civil d)) = d ∧
  cday (civil d) <= daysIn (cmonth (civil d)) (cyear (civil d)).
Proof.
  pose proof (march_split_days d) as H. unfold civil. destruct (march_split d) as [y n].
  destruct H as (<- & Hn0 & Hn). assert (n <= 365) as Hn1 by lia.
  assert (0 <= (5 * n + 2) / 153 <= 11) as Hmp by div_lia.
  assert (153 * ((5 * n + 2) / 153) <= 5 * n + 2 < 153 * ((5 * n + 2) / 153) + 153) as Hb by div_lia.
  revert Hmp Hb. generalize ((5 * n + 2) / 153). intros mp Hmp Hb.
  pose proof (leap_days_step y) as Hs. unfold leap_days in Hs.
  assert (mp ∈ [0; 1; 2; 3; 4; 5; 6; 7; 8; 9; 10; 11]) as Hin.
  { rewrite !elem_of_cons, elem_of_nil. lia. }
  clear Hmp.
  repeat (apply elem_of_cons in Hin as [->|Hin]); [..|by apply elem_of_nil in Hin];
    unfold days_of, daysIn, days_before, leap_days; simpl;
    replace (y + 1 - 1) with y by lia; rewrite ?andb_true_r, ?andb_false_r;
    repeat match goal with |- context [(153 * ?k + 2) / 5] =>
      let v := eval vm_compute in ((153 * k + 2) / 5) in change ((153 * k + 2) / 5) with v end;
    try (split; [destruct (leap y); lia|lia]).
  split; [lia|]. destruct Hn as [Hn|[-> ->]]; [destruct (leap (y + 1))|]; lia.
Qed.

(** ** The round trip *)

Lemma parse_dec_pad w z acc s :
  0 <= z < 10 ^ Z.of_nat w →
  parse_dec w acc (pad_dec w z s) = Some (acc * 10 ^ Z.of_nat w + z, s).
Proof.
  (* reading is left to right, printing right to left: generalise over a suffix *)
  assert (∀ k z acc s, 0 <= z < 10 ^ Z.of_nat w →
    parse_dec (w + k) acc (pad_dec w z s) = parse_dec k (acc * 10 ^ Z.of_nat w + z) s) as H.
  { induction w as [|w IH]; intros k z' acc' s' Hz; simpl pad_dec.
    { simpl in Hz. simpl. f_equal. lia. }
    rewrite Nat2Z.inj_succ, Z.pow_succ_r in * by lia.
    pose proof (Z.mod_pos_bound z' 10 ltac:(lia)) as Hm.
    pose proof (Z.div_mod z' 10 ltac:(lia)) as Hd.
    replace (S w + k)%nat with (w + S k)%nat by lia.
    rewrite IH by (split; [apply Z.div_pos; lia|apply Z.div_lt_upper_bound; lia]).
    cbn [parse_dec]. rewrite is_digit_digit by lia. unfold digit. rewrite byte_val_of by lia.
    f_equal. nia. }
  intros Hz. by rewrite <-(Nat.add_0_r w) at 1; rewrite H.
Qed.

Lemma parse_in_pad w lo hi z s :
  0 <= lo → lo <= z <= hi → z < 10 ^ Z.of_nat w → parse_in w lo hi (pad_dec w z s) = Some (z, s).
Proof.
  intros Hlo Hz Hw. unfold parse_in. rewrite parse_dec_pad by lia. simpl.
  by rewrite !(proj2 (Z.leb_le _ _)) by lia.
Qed.

(** A fraction is either absent or a point and the digits up to the last one
    that is not zero. *)
Lemma frac_digits_true prec v acc :
  frac_digits prec v true acc = String "." (pad_dec prec v acc).
Proof. revert v acc. induction prec as [|prec IH]; intros v acc; [done|]. simpl. apply IH. Qed.

Lemma frac_digits_false prec v acc :
  0 <= v < 10 ^ Z.of_nat prec →
  v = 0 ∧ frac_digits prec v false acc = acc ∨
  ∃ k x, (0 < k <= prec)%nat ∧ 0 <= x < 10 ^ Z.of_nat k ∧ v = x * 10 ^ Z.of_nat (prec - k) ∧
         frac_digits prec v false acc = String "." (pad_dec k x acc).
Proof.
  revert v. induction prec as [|prec IH]; intros v Hv.
  { left. simpl in Hv. split; [lia|done]. }
  rewrite Nat2Z.inj_succ, Z.pow_succ_r in Hv by lia. simpl.
  pose proof (Z.div_mod v 10 ltac:(lia)) as Hd.
  destruct (Z.eqb_spec (v mod 10) 0) as [H0|H0]; simpl.
  - destruct (IH (v / 10)) as [[Hq ->]|(k & x & Hk & Hx & Hq & ->)].
    { split; [apply Z.div_pos; lia|apply Z.div_lt_upper_bound; lia]. }
    + left. split; [lia|done].
    + right. exists k, x. split; [lia|]. split; [done|]. split; [|done].
      replace (S prec - k)%nat with (S (prec - k)) by lia.
      rewrite Nat2Z.inj_succ, Z.pow_succ_r by lia. lia.
  - right. exists (S prec), v. rewrite Nat.sub_diag. split; [lia|].
    rewrite Nat2Z.inj_succ, Z.pow_succ_r by lia. split; [lia|]. split; [lia|].
    rewrite frac_digits_true. done.
Qed.

Lemma frac_value_pad k x s m :
  (k <= m)%nat → 0 <= x < 10 ^ Z.of_nat k →
  frac_value (10 ^ Z.of_nat m / 10) (pad_dec k x s) =
  x * 10 ^ Z.of_nat (m - k) + frac_value (10 ^ Z.of_nat (m - k) / 10) s.
Proof.
  revert x s. induction k as [|k IH]; intros x s Hk Hx; simpl pad_dec.
  { simpl in Hx. rewrite Nat.sub_0_r. replace x with 0 by lia. lia. }
  rewrite Nat2Z.inj_succ, Z.pow_succ_r in Hx by lia.
  pose proof (Z.mod_pos_bound x 10 ltac:(lia)) as Hm. pose proof (Z.div_mod x 10 ltac:(lia)) as Hd.
  rewrite IH by (first [lia|split; [apply Z.div_pos; lia|apply Z.div_lt_upper_bound; lia]]).
  cbn [frac_value]. unfold digit. rewrite byte_val_of by lia.
  replace (m - k)%nat with (S (m - S k)) by lia. rewrite Nat2Z.inj_succ, Z.pow_succ_r by lia.
  rewrite (Z.mul_comm 10 (10 ^ _)), Z.div_mul by lia. nia.
Qed.

Lemma all_digits_pad k x : all_digits (pad_dec k x "").
Proof.
  assert (∀ s, all_digits s → all_digits (pad_dec k x s)) as H; [|by apply H].
  revert x. induction k as [|k IH]; intros x s Hs; [done|]. simpl. apply IH.
  split; [|done]. apply is_digit_digit. pose proof (Z.mod_pos_bound x 10 ltac:(lia)). lia.
Qed.

Lemma parse_frac_pad k x :
  (0 < k <= 9)%nat → 0 <= x < 10 ^ Z.of_nat k →
  parse_frac (String "." (pad_dec k x "Z")) = (x * 10 ^ Z.of_nat (9 - k), "Z").
Proof.
  intros Hk Hx. unfold parse_frac. rewrite pad_dec_app, take_digits_app by (done || apply all_digits_pad).
  rewrite bool_decide_eq_false_2.
  - change 100000000 with (10 ^ Z.of_nat 9 / 10). rewrite frac_value_pad by (lia || done).
    simpl frac_value. by rewrite Z.add_0_r.
  - intros H. apply (f_equal (parse_dec k 0)) in H.
    replace (pad_dec k x "") with (pad_dec k x "") in H by done.
    rewrite parse_dec_pad in H by done. by destruct k; [lia|].
Qed.

Lemma parse_frac_digits v :
  0 <= v < Second → parse_frac (frac_digits 9 v false "Z") = (v, "Z").
Proof.
  intros Hv. destruct (frac_digits_false 9 v "Z") as [[-> ->]|(k & x & Hk & Hx & -> & ->)]; [exact Hv|done|].
  rewrite parse_frac_pad by done. done.
Qed.

Lemma CutPrefix_char c s : expect c (String c s) = Some s.
Proof. unfold expect. by apply CutPrefix_Some. Qed.

Theorem Parse_RFC3339Nano t : year_ok t → ParseRFC3339 (RFC3339Nano t) = Some t.
Proof.
  unfold year_ok, RFC3339Nano, format_seconds, ParseRFC3339.
  pose proof (Z.div_mod t Second ltac:(done)) as Ht.
  pose proof (Z.mod_pos_bound t Second ltac:(done)) as Hns. revert Ht Hns.
  generalize (t / Second) (t mod Second). intros secs ns -> Hns Hy.
  pose proof (Z.div_mod secs 86400 ltac:(lia)) as Hs.
  pose proof (Z.mod_pos_bound secs 86400 ltac:(lia)) as Hsod.
  destruct (civil_days (secs / 86400)) as [Hdays Hdim].
  destruct (civil_fields (secs / 86400)) as [Hmonth Hday].
  revert Hs Hsod Hdays Hdim Hmonth Hday Hy.
  generalize (civil (secs / 86400)). intros [y m d].
  generalize (secs / 86400) (secs mod 86400). intros days sod -> Hsod. cbn [cyear cmonth cday]. intros <- Hdim Hmonth Hday Hy.
  rewrite parse_in_pad by lia. cbn [mbind option_bind]. rewrite CutPrefix_char. cbn [mbind option_bind].
  rewrite parse_in_pad by lia. cbn [mbind option_bind]. rewrite CutPrefix_char. cbn [mbind option_bind].
  rewrite parse_in_pad by lia. cbn [mbind option_bind]. rewrite CutPrefix_char. cbn [mbind option_bind].
  rewrite parse_in_pad by div_lia. cbn [mbind option_bind]. rewrite CutPrefix_char. cbn [mbind option_bind].
  rewrite parse_in_pad by div_lia. cbn [mbind option_bind]. rewrite CutPrefix_char. cbn [mbind option_bind].
  rewrite parse_in_pad by div_lia. cbn [mbind option_bind].
  rewrite parse_frac_digits by done. cbv beta iota. change (parse_zone "Z") with (Some 0). cbn [mbind option_bind]. f_equal.
  assert (sod = 3600 * (sod / 3600) + 60 * (sod / 60 mod 60) + sod mod 60) as Hsum by div_lia.
  unfold Second. lia.
Qed.

End GoTimeParse.
