(* ===== verification/GoSha256.v ===== *)
(** * Go's packages crypto/sha256 and encoding/hex

    SHA-256 on strings of bytes, with 32-bit words as integers reduced modulo
    [2^32], and the hexadecimal text of a byte string. *)

From S2P Require Import Prelude GoStrings GoJson.
Import GoStrings GoJson.

Module GoSha256.

(** ** Words *)

Definition w32 (z : Z) : Z := Z.land z 0xFFFFFFFF.
Definition add32 (a b : Z) : Z := w32 (a + b).
Definition rotr (n x : Z) : Z := Z.lor (Z.shiftr x n) (w32 (Z.shiftl x (32 - n))).

Definition Ch (x y z : Z) : Z := Z.lxor (Z.land x y) (Z.land (Z.lxor x 0xFFFFFFFF) z).
Definition Maj (x y z : Z) : Z := Z.lxor (Z.lxor (Z.land x y) (Z.land x z)) (Z.land y z).
Definition bsig0 (x : Z) : Z := Z.lxor (Z.lxor (rotr 2 x) (rotr 13 x)) (rotr 22 x).
Definition bsig1 (x : Z) : Z := Z.lxor (Z.lxor (rotr 6 x) (rotr 11 x)) (rotr 25 x).
Definition ssig0 (x : Z) : Z := Z.lxor (Z.lxor (rotr 7 x) (rotr 18 x)) (Z.shiftr x 3).
Definition ssig1 (x : Z) : Z := Z.lxor (Z.lxor (rotr 17 x) (rotr 19 x)) (Z.shiftr x 10).

(** The constants, as the standard defines them: the first 32 bits of the
    fractional parts of the cube roots of the first 64 primes, and of the
    square roots of the first eight. *)
Definition is_prime (n : nat) : bool :=
  forallb (λ d, negb (Nat.eqb (n mod d) 0)) (seq 2 (n - 2)).
Definition primes : list Z := Z.of_nat <$> filter (λ n, is_prime n = true) (seq 2 310).

(** The integer part of the cube root of [z], bit by bit from [2^k] down. *)
Fixpoint cube_root (k : nat) (r z : Z) : Z :=
  let r' := r + 2 ^ Z.of_nat k in
  let r := if r' ^ 3 <=? z then r' else r in
  match k with O => r | S k => cube_root k r z end.

Definition K : list Z :=
  Eval vm_compute in (λ p, w32 (cube_root 36 0 (p * 2 ^ 96))) <$> primes.
Definition H0 : list Z :=
  Eval vm_compute in (λ p, w32 (Z.sqrt (p * 2 ^ 64))) <$> take 8 primes.

(** ** Padding and blocks *)

Definition be32 (x : Z) : list Z :=
  [Z.shiftr x 24 mod 256; Z.shiftr x 16 mod 256; Z.shiftr x 8 mod 256; x mod 256].

Definition pad (msg : list Z) : list Z :=
  let n := Z.of_nat (length msg) in
  msg ++ [0x80] ++ repeat 0 (Z.to_nat ((55 - n) mod 64))
      ++ be32 (Z.shiftr (8 * n) 32) ++ be32 (w32 (8 * n)).

Fixpoint words (l : list Z) : list Z :=
  match l with
  | a :: b :: c :: d :: l => (((a * 256 + b) * 256 + c) * 256 + d) :: words l
  | _ => []
  end.

(** The message schedule, the latest word first. *)
Fixpoint schedule (n : nat) (w : list Z) : list Z :=
  match n with
  | O => w
  | S n =>
      let word i := nth i w 0 in
      schedule n (add32 (add32 (ssig1 (word 1%nat)) (word 6%nat)) (add32 (ssig0 (word 14%nat)) (word 15%nat)) :: w)
  end.

Definition round (st : list Z) (kw : Z * Z) : list Z :=
  match st with
  | [a; b; c; d; e; f; g; h] =>
      let t1 := add32 (add32 h (bsig1 e)) (add32 (Ch e f g) (add32 kw.1 kw.2)) in
      let t2 := add32 (bsig0 a) (Maj a b c) in
      [add32 t1 t2; a; b; c; add32 d t1; e; f; g]
  | _ => st
  end.

Definition block (st : list Z) (ws : list Z) : list Z :=
  zip_with add32 st (foldl round st (zip K (rev (schedule 48 (rev ws))))).

(** Blocks of 16 words; [fuel] bounds their number. *)
Fixpoint blocks (fuel : nat) (st : list Z) (ws : list Z) : list Z :=
  match fuel, ws with
  | S fuel, _ :: _ => blocks fuel (block st (take 16 ws)) (drop 16 ws)
  | _, _ => st
  end.

Definition Sum256 (s : string) : list Z :=
  let ws := words (pad (bytes s)) in
  concat (be32 <$> blocks (length ws) H0 ws).

(** [hex.EncodeToString]. *)
Definition EncodeToString (l : list Z) : string :=
  foldr (λ b acc, String (hex_digit (b / 16)) (String (hex_digit (b mod 16)) acc)) "" l.

Example sum_abc : EncodeToString (Sum256 "abc")
  = "ba7816bf8f01cfea414140de5dae2223b00361a396177a9cb410ff61f20015ad".
Proof. vm_compute. reflexivity. Qed.

Example sum_two_blocks : EncodeToString (Sum256 "abcdbcdecdefdefgefghfghighijhijkijkljklmklmnlmnomnopnopq")
  = "248d6a61d20638b8e5c026930c3e6039a33ce45964ff2167f6ecedd419db06c1".
Proof. vm_compute. reflexivity. Qed.

(** Hexadecimal text is ASCII. *)
Lemma EncodeToString_valid l : Forall (λ b, 0 <= b < 256) l → Valid_utf8 (EncodeToString l).
Proof.
  unfold Valid_utf8, to_valid_utf8.
  assert (∀ d s, 0 <= d < 16 → valid_utf8_from 0 (String (hex_digit d) s) = String (hex_digit d) (valid_utf8_from 0 s)) as Hd.
  { intros d s Hd. cbn [valid_utf8_from]. rewrite decode_ascii.
    - rewrite (proj2 (Z.eqb_neq _ _)); [done|]. unfold RuneError, hex_digit.
      rewrite byte_val_of; case_match; zbool; lia.
    - unfold hex_digit. rewrite byte_val_of; case_match; zbool; lia. }
  induction 1 as [|b l Hb Hl IH]; [done|]. cbn [EncodeToString foldr]. rewrite !Hd.
  - unfold EncodeToString in IH. by rewrite IH.
  - apply Z.mod_pos_bound. lia.
  - split; [apply Z.div_pos; lia|apply Z.div_lt_upper_bound; lia].
Qed.

Lemma be32_bytes x : Forall (λ b, 0 <= b < 256) (be32 x).
Proof. unfold be32. repeat constructor; apply Z.mod_pos_bound; lia. Qed.

Lemma Sum256_bytes s : Forall (λ b, 0 <= b < 256) (Sum256 s).
Proof.
  unfold Sum256. induction (blocks _ _ _) as [|x l IH]; [constructor|].
  apply Forall_app. split; [apply be32_bytes|done].
Qed.

End GoSha256.
