(* ===== verification/GoDuration.v ===== *)
(** * time.ParseDuration

    A sign, then decimal numbers, each with an optional fraction and a unit,
    added up in an unsigned 64-bit accumulator; a number too large for it is
    an error. *)

From S2P Require Import Prelude GoStrings GoFloat GoTime GoJson.
Import GoStrings GoFloat GoTime GoJson.

Module GoDuration.

Definition two63 : Z := 2 ^ 63.

(** [leadingInt]: [None] on overflow. *)
Fixpoint leadingInt (x : Z) (s : string) : option (Z * string) :=
  match s with
  | String c s' =>
      if is_digit c then
        if x >? two63 / 10 then None
        else
          let x := 10 * x + (byte_val c - 48) in
          if x >? two63 then None else leadingInt x s'
      else Some (x, s)
  | EmptyString => Some (x, "")
  end.

(** [leadingFraction]: the digits as an integer and the power of ten to divide
    it by; digits that do not fit are skipped. *)
Fixpoint leadingFraction (x scale : Z) (overflow : bool) (s : string) : Z * Z * string :=
  match s with
  | String c s' =>
      if is_digit c then
        if overflow then leadingFraction x scale true s'
        else if x >? max_int64 / 10 then leadingFraction x scale true s'
        else
          let y := 10 * x + (byte_val c - 48) in
          if y >? two63 then leadingFraction x scale true s'
          else leadingFraction y (10 * scale) false s'
      else (x, scale, s)
  | EmptyString => (x, scale, "")
  end.

Definition unitMap : gmap string Z :=
  list_to_map [("ns", Nanosecond); ("us", Microsecond);
               (of_bytes [0xC2; 0xB5; 0x73], Microsecond); (of_bytes [0xCE; 0xBC; 0x73], Microsecond);
               ("ms", Millisecond); ("s", Second); ("m", Minute); ("h", Hour)].

Fixpoint take_unit (s : string) : string * string :=
  match s with
  | String c s' =>
      if (is_digit c) || bool_decide (c = "."%char) then ("", s)
      else let '(u, r) := take_unit s' in (String c u, r)
  | EmptyString => ("", "")
  end.

(** One number with its unit. *)
Definition component (s : string) : option (Z * string) :=
  match s with
  | String c _ =>
      if (is_digit c) || bool_decide (c = "."%char) then
        '(v, s1) ← leadingInt 0 s;
        let pre := negb (String.length s1 =? String.length s)%nat in
        let '(f, scale, s2, post) :=
          match s1 with
          | String "." s1' =>
              let '(f, scale, r) := leadingFraction 0 1 false s1' in
              (f, scale, r, negb (String.length r =? String.length s1')%nat)
          | _ => (0, 1, s1, false)
          end in
        if negb pre && negb post then None
        else
          let '(u, s3) := take_unit s2 in
          if u =s "" then None
          else
            unit ← unitMap !! u;
            if v >? two63 / unit then None
            else
              let v := v * unit in
              let v := if f >? 0
                       then v + to_int (fmul (of_int f) (fdiv (of_int unit) (of_int scale)))
                       else v in
              if v >? two63 then None else Some (v, s3)
      else None
  | EmptyString => None
  end.

(** The loop reads at least one byte per turn: [fuel] is the length. *)
Fixpoint components (fuel : nat) (d : Z) (s : string) : option Z :=
  match s with
  | EmptyString => Some d
  | _ =>
      match fuel with
      | O => None
      | S fuel =>
          '(v, s) ← component s;
          let d := wrapu64 (d + v) in
          if d >? two63 then None else components fuel d s
      end
  end.

Definition ParseDuration (s : string) : option Z :=
  let '(neg, s) :=
    match s with
    | String "-" s' => (true, s')
    | String "+" s' => (false, s')
    | _ => (false, s)
    end in
  if s =s "0" then Some 0
  else if s =s "" then None
  else
    d ← components (String.length s) 0 s;
    if (neg : bool) then Some (- d)
    else if d >? max_int64 then None else Some d.

Example parse_5m : ParseDuration "5m" = Some (5 * Minute).
Proof. vm_compute. reflexivity. Qed.
Example parse_mixed : ParseDuration "-1h15m30.918273645s" = Some (-4530918273645).
Proof. vm_compute. reflexivity. Qed.
Example parse_bad : ParseDuration "5" = None ∧ ParseDuration ".s" = None ∧ ParseDuration "" = None.
Proof. vm_compute. done. Qed.

End GoDuration.
