(* ===== verification/GoUtf8.v ===== *)
(** * Texts that are valid UTF-8

    Which of the texts the collector builds survive JSON unchanged: ASCII ones,
    those of numbers and of durations, and what is put together from them. *)

From S2P Require Import Prelude GoStrings GoTime GoJson.
Import GoStrings GoTime GoJson.

Module GoUtf8.

Definition ascii_only (s : string) : Prop := Forall (λ b, b < 0x80) (bytes s).

(** Whatever valid text follows, the whole is valid. *)
Definition utf8_text (p : string) : Prop := ∀ q, Valid_utf8 q → Valid_utf8 (p +:+ q).

Lemma utf8_text_valid p : utf8_text p → Valid_utf8 p.
Proof. intros Hp. rewrite <-(string_app_nil p). by apply Hp. Qed.

Lemma utf8_text_app p p' : utf8_text p → utf8_text p' → utf8_text (p +:+ p').
Proof. intros Hp Hp' q Hq. rewrite string_app_assoc. auto. Qed.

Lemma ascii_text s : ascii_only s → utf8_text s.
Proof.
  intros Hs q Hq. induction s as [|c s IH]; [done|].
  apply Forall_cons in Hs as [Hc Hs]. unfold Valid_utf8, to_valid_utf8.
  change (String c s +:+ q) with (String c (s +:+ q)). cbn [valid_utf8_from]. rewrite decode_ascii by done.
  pose proof (byte_val_range c) as Hr. unfold RuneError.
  rewrite (proj2 (Z.eqb_neq _ _)) by lia. cbn [andb pred]. f_equal. by apply IH.
Qed.

Lemma ascii_valid s : ascii_only s → Valid_utf8 s.
Proof. intros Hs. by apply utf8_text_valid, ascii_text. Qed.

Lemma ascii_app s t : ascii_only s → ascii_only t → ascii_only (s +:+ t).
Proof. unfold ascii_only. rewrite bytes_app. apply Forall_app_2. Qed.

Lemma digit_ascii z : byte_val (digit (z mod 10)) < 0x80.
Proof. unfold digit. pose proof (Z.mod_pos_bound z 10). rewrite byte_val_of; lia. Qed.

Lemma dec_digits_ascii fuel z acc : ascii_only acc → ascii_only (dec_digits fuel z acc).
Proof.
  revert z acc. induction fuel as [|fuel IH]; intros z acc Hacc; [done|]. cbn [dec_digits].
  assert (ascii_only (String (digit (z mod 10)) acc)) by (constructor; [apply digit_ascii|done]).
  destruct (z <? 10); [done|by apply IH].
Qed.

Lemma Itoa_ascii z : ascii_only (Itoa z).
Proof.
  unfold Itoa. destruct (z <? 0); [constructor; [done|]|]; apply dec_digits_ascii; constructor.
Qed.

Create HintDb utf8.
#[export] Hint Resolve utf8_text_app ascii_text Itoa_ascii : utf8.

(** A literal is ASCII. *)
Ltac ascii_literal := by repeat (apply Forall_nil_2 || (apply Forall_cons_2; [reflexivity|])).
#[export] Hint Extern 2 (ascii_only _) => ascii_literal : utf8.

Lemma utf8_text_cons c p : byte_val c < 0x80 → utf8_text p → utf8_text (String c p).
Proof.
  intros Hc Hp. change (String c p) with (String c "" +:+ p). apply utf8_text_app; [|done].
  apply ascii_text. by constructor.
Qed.

Lemma frac_digits_text prec v print acc : utf8_text acc → utf8_text (frac_digits prec v print acc).
Proof.
  revert v print acc. induction prec as [|prec IH]; intros v print acc Hacc; cbn [frac_digits].
  - destruct print; [by apply utf8_text_cons|done].
  - apply IH. destruct (print || _); [|done]. apply utf8_text_cons, Hacc. apply digit_ascii.
Qed.

(** The micro sign is the one character of a duration that is not ASCII. *)
Lemma micro_text : utf8_text (of_bytes [0xC2; 0xB5; 0x73]).
Proof.
  intros q Hq. unfold Valid_utf8, to_valid_utf8.
  change (of_bytes [0xC2; 0xB5; 0x73] +:+ q) with
    (String (byte_of 0xC2) (String (byte_of 0xB5) (String "s" q))).
  cbn [valid_utf8_from]. change (bytes (String (byte_of 0xB5) (String "s" q))) with (0xB5 :: 0x73 :: bytes q).
  change (decode_rune (byte_val (byte_of 0xC2)) (0xB5 :: 0x73 :: bytes q)) with (0xB5, 2%nat).
  cbn [valid_utf8_from pred andb Z.eqb]. change (decode_rune (byte_val "s") (bytes q)) with (0x73, 1%nat).
  cbn. do 3 f_equal. exact Hq.
Qed.

#[export] Hint Resolve frac_digits_text micro_text : utf8.

Lemma Duration_String_text d : utf8_text (Duration_String d).
Proof.
  assert (∀ u, utf8_text (duration_abs_String u)) as Habs.
  { intros u. unfold duration_abs_String. cbv zeta.
    repeat case_match; repeat apply utf8_text_app; eauto with utf8. }
  unfold Duration_String. case_match; eauto with utf8.
Qed.

(** A JSON literal of ASCII text is ASCII. *)
Lemma Quote_ascii s : ascii_only s → ascii_only (Quote s).
Proof.
  intros Hs. unfold Quote. constructor; [done|]. apply ascii_app; [|by repeat constructor].
  induction s as [|c s IH]; [constructor|]. apply Forall_cons in Hs as [Hc Hs]. cbn [escape_from].
  unfold escape_head. rewrite (proj2 (Z.ltb_lt _ _) Hc). apply ascii_app; [|by apply IH].
  clear -Hc. revert Hc. by destruct c as [[] [] [] [] [] [] [] []]; vm_compute; intros; repeat constructor.
Qed.

End GoUtf8.
