(* ===== verification/GoValue.v ===== *)
(** * JSON documents as Go values

    What [json.Unmarshal] makes of a document when the target is a
    [map[string]interface{}]: strings, booleans, nil, slices, maps, and
    [float64] for every number; and what [fmt.Sprintf] with the verb [%v] prints
    for them.

    A [float64] is a sign and a non-negative rational, an infinity, or NaN.
    Numbers are converted to the nearest [float64], and printed with the
    shortest decimal digits that convert back to the same value, as strconv
    does. *)

From S2P Require Import Prelude GoStrings GoFloat GoJson.
From Stdlib Require Import QArith Qabs Qround.
Import GoStrings GoFloat GoJson.
#[local] Open Scope Z_scope.

Module GoValue.

(** ** float64 *)

Inductive float64 :=
| Finite (neg : bool) (abs : Q)
| Inf (neg : bool)
| NaN.

Definition pow10 (n : Z) : Q := if 0 <=? n then inject_Z (10 ^ n) else (1 # Z.to_pos (10 ^ (- n)))%Q.
Definition pow2 (n : Z) : Q := if 0 <=? n then inject_Z (2 ^ n) else (1 # Z.to_pos (2 ^ (- n)))%Q.

(** The nearest [float64] of a non-negative rational: below [2^-1022] the
    spacing is constant; [None] when it rounds beyond the largest one. *)
Definition nearest (q : Q) : option Q :=
  let r :=
    if negb (Qle_bool (pow2 (-1022)) q)
    then (inject_Z (round_half_even (Qnum (q * pow2 1074)) (Zpos (Qden (q * pow2 1074)))) * pow2 (-1074))%Q
    else round64 q in
  if Qle_bool (pow2 1024) r then None else Some (Qred r).

(** *** Reading a decimal literal

    The literal's digits as one integer, the number of them after the point,
    and its exponent; an exponent beyond 10000 is cut there. *)

Fixpoint digits_value (acc : Z) (s : string) : Z :=
  match s with
  | String c s => digits_value (10 * acc + (byte_val c - 48)) s
  | EmptyString => acc
  end.

Definition exponent_value (s : string) : Z :=
  match s with
  | EmptyString => 0
  | String _ (String "-" s) => - Z.min 10000 (digits_value 0 s)
  | String _ (String "+" s) => Z.min 10000 (digits_value 0 s)
  | String _ s => Z.min 10000 (digits_value 0 s)
  end.

(** A JSON number: its sign, and its absolute value as a rational. *)
Definition literal_parts (s : string) : option (bool * Q * string) :=
  let '(sign, s) := scan_sign s in
  '(int, s) ← scan_int s;
  '(frac, s) ← scan_frac s;
  '(exp, s) ← scan_exp s;
  let f := match frac with String _ f => f | EmptyString => "" end in
  let m := digits_value (digits_value 0 int) f in
  Some (negb (sign =s ""), (inject_Z m * pow10 (exponent_value exp - len f))%Q, s).

(** [strconv.ParseFloat] on a JSON number; [None] for a range error. *)
Definition decimal_float (s : string) : option float64 :=
  '(neg, q, rest) ← literal_parts s;
  if rest =s "" then r ← nearest q; Some (Finite neg r) else None.

(** *** Comparing *)

Definition signed (neg : bool) (q : Q) : Q := if neg then (- q)%Q else q.

Definition float_lt (a b : float64) : bool :=
  match a, b with
  | Finite n q, Finite n' q' => negb (Qle_bool (signed n' q') (signed n q))
  | Finite _ _, Inf neg => negb neg
  | Inf neg, Finite _ _ => neg
  | Inf neg, Inf neg' => neg && negb neg'
  | _, _ => false
  end.

(** *** Printing *)

(** The number of decimal digits of [z > 0]; [fuel] bounds them. *)
Fixpoint count_digits (fuel : nat) (z : Z) : Z :=
  match fuel with
  | O => 0
  | S fuel => if z <? 10 then 1 else 1 + count_digits fuel (z / 10)
  end.

(** The exponent [e] with [10^e <= q < 10^(e+1)] for [q > 0]. *)
Definition decimal_exponent (q : Q) : Z :=
  if Qle_bool 1 q then count_digits 400 (Qfloor q) - 1
  else - count_digits 400 (Qceiling (/ q) - 1) + (if Qle_bool 1 (q * pow10 (count_digits 400 (Qceiling (/ q) - 1))) then 0 else -1).

(** The candidates with [n] digits: the ones below and above, the closer one
    first; the first that converts back is taken. *)
Definition candidates (q : Q) (e n : Z) : list Z :=
  let s := (q * pow10 (n - 1 - e))%Q in
  let lo := Qfloor s in
  let near := round_half_even (Qnum s) (Zpos (Qden s)) in
  [near; if near =? lo then lo + 1 else lo].

Definition converts_back (q : Q) (e n m : Z) : bool :=
  match nearest (inject_Z m * pow10 (e - (n - 1))) with
  | Some r => Qeq_bool r q
  | None => false
  end.

Fixpoint shortest_from (fuel : nat) (n : Z) (q : Q) (e : Z) : Z * Z :=
  match fuel with
  | O => (0, n)
  | S fuel =>
      match List.find (converts_back q e n) (candidates q e n) with
      | Some m => (m, n)
      | None => shortest_from fuel (n + 1) q e
      end
  end.

(** The digits of a decimal, without trailing zeros. *)
Definition digits_of (m : Z) : string := TrimRight (dec_digits 20 m "") "0".

(** The shortest digits of [q > 0] and the exponent of the first of them;
    seventeen digits are always enough. *)
Definition shortest (q : Q) : string * Z :=
  let e := decimal_exponent q in
  let '(m, n) := shortest_from 17 1 q e in
  let e := if 10 ^ n <=? m then e + 1 else e in
  (digits_of m, e).

Definition split_at (n : nat) (s : string) : string * string :=
  (String.substring 0 n s, sdrop n s).

Definition zeros (n : Z) : string := of_bytes (repeat 48 (Z.to_nat n)).

Definition exponent_text (e : Z) : string :=
  (if e <? 0 then "e-" else "e+") +:+ (if Z.abs e <? 10 then "0" else "") +:+ Itoa (Z.abs e).

(** [%g] with the shortest precision: an exponent below -4 or from 6 on is
    written out. *)
Definition format_g (q : Q) : string :=
  if Qeq_bool q 0 then "0"
  else
    let '(ds, e) := shortest q in
    if (e <? -4) || (6 <=? e) then
      let '(a, b) := split_at 1 ds in
      a +:+ (if b =s "" then "" else "." +:+ b) +:+ exponent_text e
    else if e <? 0 then "0." +:+ zeros (- e - 1) +:+ ds
    else
      let n := Z.to_nat (e + 1) in
      let '(a, b) := split_at n ds in
      a +:+ zeros (e + 1 - len a) +:+ (if b =s "" then "" else "." +:+ b).

Definition format_float (f : float64) : string :=
  match f with
  | Finite neg q => (if neg then "-" else "") +:+ format_g q
  | Inf neg => if neg then "-Inf" else "+Inf"
  | NaN => "NaN"
  end.

(** ** Values *)

#[warnings="-register-all"]
Inductive value :=
| VNil
| VBool (b : bool)
| VNum (f : float64)
| VStr (s : string)
| VSlice (l : list value)
| VMap (l : list (string * value)).

(** Later members replace earlier ones of the same name. *)
Definition set_entry {A} (l : list (string * A)) (k : string) (v : A) : list (string * A) :=
  filter (λ p, p.1 ≠ k) l ++ [(k, v)].

Fixpoint value_of (j : json) : option value :=
  match j with
  | JNull => Some VNil
  | JBool b => Some (VBool b)
  | JNum lit => VNum <$> decimal_float lit
  | JStr s => Some (VStr s)
  | JArr l =>
      VSlice <$> (fix go (l : list json) : option (list value) :=
        match l with
        | [] => Some []
        | j :: l => v ← value_of j; vs ← go l; Some (v :: vs)
        end) l
  | JObj l =>
      VMap <$> (fix go (l : list (string * json)) (acc : list (string * value)) : option (list (string * value)) :=
        match l with
        | [] => Some acc
        | (k, j) :: l => v ← value_of j; go l (set_entry acc k v)
        end) l []
  end.

(** [m[key]] on a map. *)
Definition map_get (l : list (string * value)) (k : string) : option value :=
  snd <$> (snd <$> list_find (λ p, p.1 = k) l).

(** [json.Unmarshal(data, &m)] with [m] a nil [map[string]interface{}]: [null]
    leaves it nil. *)
Definition unmarshal_map (data : string) : option (list (string * value)) :=
  j ← parse_document data;
  match j with
  | JNull => Some []
  | JObj _ => v ← value_of j; match v with VMap l => Some l | _ => None end
  | _ => None
  end.

(** [%v]: maps are printed in the order of their keys. *)
Fixpoint format_v (v : value) : string :=
  match v with
  | VNil => "<nil>"
  | VBool b => if b then "true" else "false"
  | VNum f => format_float f
  | VStr s => s
  | VSlice l => "[" +:+ Join (format_v <$> l) " " +:+ "]"
  | VMap l =>
      let entries := (λ p, (p.1, format_v p.2)) <$> l in
      "map[" +:+ Join ((λ p, p.1 +:+ ":" +:+ p.2)
                         <$> merge_sort (λ a b : string * string, String.le a.1 b.1) entries) " " +:+ "]"
  end.

(** ** Integers *)

Lemma digits_value_dec fuel z acc a :
  (0 < fuel)%nat → 0 <= z < 10 ^ Z.of_nat fuel →
  ∃ k, 0 <= k ∧ digits_value a (dec_digits fuel z acc) = digits_value (a * 10 ^ k + z) acc.
Proof.
  revert z acc. induction fuel as [|fuel IH]; intros z acc Hf Hz; [lia|]. cbn [dec_digits].
  pose proof (Z.mod_pos_bound z 10 ltac:(lia)) as Hm.
  destruct (Z.ltb_spec z 10) as [Hlt|Hge].
  - exists 1. split; [lia|]. cbn [digits_value]. unfold digit. rewrite byte_val_of by lia.
    f_equal. rewrite Z.mod_small by lia. lia.
  - rewrite Nat2Z.inj_succ, Z.pow_succ_r in Hz by lia.
    destruct (IH (z / 10) (String (digit (z mod 10)) acc)) as (k & Hk & ->).
    { destruct fuel; [simpl in Hz; lia|lia]. }
    { split; [apply Z.div_pos; lia|apply Z.div_lt_upper_bound; lia]. }
    exists (k + 1). split; [lia|]. cbn [digits_value]. unfold digit. rewrite byte_val_of by lia.
    f_equal. rewrite Z.pow_add_r by lia. pose proof (Z.div_mod z 10 ltac:(lia)). lia.
Qed.

Lemma nearest_int n : 0 <= n < 2 ^ 53 → ∃ r, nearest (inject_Z n * pow10 0) = Some r ∧ (r == inject_Z n)%Q.
Proof.
  intros Hn. assert ((inject_Z n * pow10 0)%Q = inject_Z n) as ->.
  { unfold pow10, Qmult, inject_Z. simpl. by rewrite Z.mul_1_r. }
  unfold nearest. destruct (Z.eq_dec n 0) as [->|Hne].
  { eexists. split; [reflexivity|]. reflexivity. }
  assert (Qle_bool (pow2 (-1022)) (inject_Z n) = true) as ->.
  { apply Qle_bool_iff. apply (Qle_trans _ (inject_Z 1)); [by vm_compute|]. rewrite <-Zle_Qle. lia. }
  cbn [negb].
  pose proof (of_int_exact n Hn) as He. unfold of_int in He.
  assert (Qle_bool (pow2 1024) (round64 (inject_Z n)) = false) as ->.
  { apply not_true_iff_false. rewrite Qle_bool_iff, He. change (pow2 1024) with (inject_Z (2 ^ 1024)).
    rewrite <-Zle_Qle. assert (2 ^ 53 < 2 ^ 1024) by (apply Z.pow_lt_mono_r; lia). lia. }
  eexists. split; [reflexivity|]. by rewrite Qred_correct.
Qed.

Lemma literal_parts_Itoa z :
  - 10 ^ 20 < z < 10 ^ 20 →
  literal_parts (Itoa z) = Some (z <? 0, (inject_Z (Z.abs z) * pow10 0)%Q, "").
Proof.
  intros Hz. destruct (Itoa_shape z Hz) as (c & d & Hi & Hd & H0).
  pose proof (scan_int_digits c d "" Hd H0 I) as Hs. rewrite string_app_nil in Hs.
  assert (digits_value 0 (String c d) = Z.abs z) as Hv.
  { destruct (digits_value_dec 20 (Z.abs z) "" 0) as (k & _ & Hk); [lia|lia|].
    assert (dec_digits 20 (Z.abs z) "" = String c d) as Hdd.
    { unfold Itoa in Hi. destruct (Z.ltb_spec z 0).
      { apply (f_equal (λ s, match s with String _ t => t | EmptyString => s end)) in Hi. cbv beta iota in Hi.
        by rewrite Z.abs_neq by lia. }
      by rewrite Z.abs_eq by lia. }
    rewrite Hdd in Hk. rewrite Hk. simpl. lia. }
  unfold literal_parts.
  assert (scan_sign (Itoa z) = (if z <? 0 then "-" else "", String c d)) as ->.
  { rewrite Hi. destruct (z <? 0); [done|]. destruct Hd as [Hd _]. clear -Hd.
    by destruct c as [[] [] [] [] [] [] [] []]. }
  rewrite Hs. cbn [mbind option_bind scan_frac scan_exp]. rewrite Hv.
  by destruct (z <? 0).
Qed.

Lemma decimal_float_Itoa z :
  Z.abs z < 2 ^ 53 → ∃ r, decimal_float (Itoa z) = Some (Finite (z <? 0) r) ∧ (r == inject_Z (Z.abs z))%Q.
Proof.
  intros Hz. unfold decimal_float. rewrite literal_parts_Itoa by lia. cbn [mbind option_bind].
  destruct (nearest_int (Z.abs z)) as (r & Hr & He); [lia|]. rewrite Hr. by exists r.
Qed.

Lemma float_lt_int z z' r r' :
  (r == inject_Z (Z.abs z))%Q → (r' == inject_Z (Z.abs z'))%Q →
  float_lt (Finite (z <? 0) r) (Finite (z' <? 0) r') = (z <? z').
Proof.
  assert (∀ z r, (r == inject_Z (Z.abs z))%Q → (signed (z <? 0) r == inject_Z z)%Q) as Hs.
  { intros x q Hq. unfold signed. destruct (Z.ltb_spec x 0).
    - rewrite Hq, Z.abs_neq by lia. unfold Qeq. simpl. lia.
    - by rewrite Hq, Z.abs_eq by lia. }
  intros H1 H2. apply Hs in H1, H2. unfold float_lt.
  destruct (Z.ltb_spec z z') as [Hlt|Hge].
  - apply negb_true_iff, not_true_iff_false. rewrite Qle_bool_iff, H1, H2, <-Zle_Qle. lia.
  - apply negb_false_iff. rewrite Qle_bool_iff, H1, H2, <-Zle_Qle. lia.
Qed.

(** From a million on, an integer is printed with an exponent. *)
Lemma count_digits_ge fuel z k :
  (k <= Z.of_nat fuel) → 0 < k → 10 ^ (k - 1) <= z → k <= count_digits fuel z.
Proof.
  revert z k. induction fuel as [|fuel IH]; intros z k Hf Hk Hz; [lia|]. cbn [count_digits].
  destruct (Z.ltb_spec z 10) as [Hlt|Hge].
  - destruct (Z.eq_dec k 1); [lia|]. assert (10 ^ 1 <= 10 ^ (k - 1)) by (apply Z.pow_le_mono_r; lia). lia.
  - destruct (Z.eq_dec k 1) as [->|]; [|].
    + assert (0 <= count_digits fuel (z / 10)); [|lia].
      clear. generalize (z / 10). induction fuel as [|fuel IH]; intros z'; cbn [count_digits]; [lia|].
      specialize (IH (z' / 10)). case_match; lia.
    + assert (k - 1 <= count_digits fuel (z / 10)); [|lia]. apply IH; [lia|lia|].
      apply Z.div_le_lower_bound; [lia|]. replace (k - 1) with (Z.succ (k - 1 - 1)) in Hz by lia.
      rewrite Z.pow_succ_r in Hz by lia. lia.
Qed.

Lemma format_g_exponent q n :
  (q == inject_Z n)%Q → 10 ^ 6 <= n → ¬ no_char "e" (format_g q).
Proof.
  intros Hq Hn. unfold format_g.
  assert (Qeq_bool q 0 = false) as ->.
  { apply not_true_iff_false. rewrite Qeq_bool_iff, Hq. change 0%Q with (inject_Z 0). rewrite inject_Z_injective. lia. }
  assert (6 <= (shortest q).2) as He.
  { unfold shortest. assert (6 <= decimal_exponent q) as Hd.
    { unfold decimal_exponent. assert (Qle_bool 1 q = true) as ->.
      { rewrite Qle_bool_iff, Hq. change 1%Q with (inject_Z 1). rewrite <-Zle_Qle. lia. }
      rewrite (Qfloor_comp _ _ Hq), Qfloor_Z. pose proof (count_digits_ge 400 n 7). lia. }
    destruct (shortest_from _ _ _ _) as [m k]. simpl. case_match; lia. }
  destruct (shortest q) as [ds e]. simpl in He. rewrite (proj2 (Z.leb_le 6 e)), orb_true_r by done.
  unfold split_at. rewrite !no_char_app. intros (_ & _ & Hx). unfold exponent_text in Hx.
  rewrite no_char_app in Hx. destruct Hx as [Hx _]. by destruct (e <? 0); destruct Hx.
Qed.

Lemma no_e_Itoa z : - 10 ^ 20 < z < 10 ^ 20 → no_char "e" (Itoa z).
Proof.
  intros Hz. destruct (Itoa_shape z Hz) as (c & d & -> & Hd & _).
  assert (∀ s, all_digits s → no_char "e" s) as Hall.
  { induction s as [|c' s IH]; [done|]. intros [Hc Hs]. split; [|by apply IH]. by intros ->. }
  destruct (z <? 0); [split; [done|]|]; by apply Hall.
Qed.

End GoValue.
