(* ===== verification/StoreData.v ===== *)
(** * Records shared by the collector's components

    [store.Event] and [store.Alert] ([internal/store/badger.go]): what the
    receiver persists, the alerting engine and the anomaly detector read and
    produce, and the notifiers send. *)

From S2P Require Import Prelude.

(** A [json.RawMessage] is the text of a JSON value. *)
Record Event := MkEvent {
  ev_EventID : string;
  ev_NodeID : string;
  ev_Timestamp : Z;
  ev_Type : string;
  ev_Payload : string;
}.

Record Alert := MkAlert {
  al_AlertID : string;
  al_RuleID : string;
  al_NodeID : string;
  al_EventID : string;
  al_Timestamp : Z;
  al_Message : string;
  al_Severity : string;
}.

#[global] Instance Event_eq_dec : EqDecision Event.
Proof. solve_decision. Defined.
#[global] Instance Alert_eq_dec : EqDecision Alert.
Proof. solve_decision. Defined.

(** A reading of [time.Now()]: the monotonic clock, which comparisons and
    differences of two readings use, and the wall clock, which is what remains
    after [UTC()]. *)
Record clock := Clock { mono : Z; wall : Z }.
