(* ===== verification/Pb.v ===== *)
(** * The messages of the collector's gRPC service ([internal/pb])

    The message types generated from [proto/sentinel.proto] and the getters of
    the one-of payload.  A [string] field arrives as arbitrary bytes of valid
    UTF-8 at most; an enum field is an open [int32]. *)

From S2P Require Import Prelude.

Module Pb.

Definition EventType_EXEC : Z := 0.
Definition EventType_TCP : Z := 1.
Definition EventType_FILE : Z := 2.

Record ExecEvent := MkExec {
  ex_Pid : Z; ex_Ppid : Z; ex_Comm : string; ex_Cmdline : string; ex_Cwd : string; ex_Uid : Z;
}.

Record TcpEvent := MkTcp {
  tcp_Pid : Z; tcp_Comm : string; tcp_SrcIp : string; tcp_SrcPort : Z;
  tcp_DstIp : string; tcp_DstPort : Z; tcp_Direction : string;
}.

Record FileEvent := MkFile {
  file_Pid : Z; file_Comm : string; file_Path : string; file_Op : string; file_Ret : Z;
}.

Inductive KernelEvent_Payload :=
| KernelEvent_Exec (e : ExecEvent)
| KernelEvent_Tcp (e : TcpEvent)
| KernelEvent_File (e : FileEvent).

Record KernelEvent := MkKernelEvent {
  EventId : string;
  NodeId : string;
  Timestamp : Z;
  Type_ : Z;
  Payload : option KernelEvent_Payload;
}.

Definition GetExec (x : KernelEvent) : option ExecEvent :=
  match Payload x with Some (KernelEvent_Exec e) => Some e | _ => None end.
Definition GetTcp (x : KernelEvent) : option TcpEvent :=
  match Payload x with Some (KernelEvent_Tcp e) => Some e | _ => None end.
Definition GetFile (x : KernelEvent) : option FileEvent :=
  match Payload x with Some (KernelEvent_File e) => Some e | _ => None end.

Record RegisterRequest := MkRegisterRequest {
  rq_NodeId : string; rq_Hostname : string; rq_Ip : string; rq_Version : string; rq_Region : string;
}.

Record RegisterResponse := MkRegisterResponse { rs_Ok : bool; rs_Message : string }.

Record EventAck := MkEventAck { ack_Ok : bool }.

End Pb.
