(* ===== verification/Registry.v ===== *)
(** * The agent registry ([internal/registry/registry.go])

    The in-memory table of agents with its heartbeat checker.  Every exported
    operation takes the registry's mutex for its whole body, so an operation
    is one atomic step; a wall-clock reading is an argument [now].  The
    pointers stored in [nodes] never leave the registry ([List] and
    [ListByRegion] copy), so the map holds the records themselves. *)

From S2P Require Import Prelude.

Module Registry.

(** ** Data *)

Definition DefaultRegion : string := "default".

(** [time.Time] and [time.Duration] are nanoseconds; the zero [time.Time] is 0. *)
Record AgentNode := MkAgentNode {
  NodeID : string;
  Hostname : string;
  IP : string;
  Version : string;
  Region : string;
  Registered : Z;
  LastSeen : Z;
  Status : string;
  inactiveSince : Z;
}.

#[global] Instance AgentNode_eq_dec : EqDecision AgentNode.
Proof. solve_decision. Defined.

Record Registry := MkRegistry { nodes : gmap string AgentNode }.

Definition normalizeRegion (region : string) : string :=
  if region =s "" then DefaultRegion else region.

Definition New : Registry := MkRegistry ∅.

(** ** Operations that change the registry *)

Definition Register (now : Z) (nodeID hostname ip version region : string)
    (r : Registry) : result unit * Registry :=
  if nodeID =s "" then (Err "node_id required", r)
  else
    let region := normalizeRegion region in
    match nodes r !! nodeID with
    | Some existing =>
        let existing' :=
          MkAgentNode (NodeID existing) (Hostname existing) (IP existing) (Version existing)
            region (Registered existing) now "active" 0 in
        (Ok tt, MkRegistry (<[nodeID := existing']> (nodes r)))
    | None =>
        let n := MkAgentNode nodeID hostname ip version region now now "active" 0 in
        (Ok tt, MkRegistry (<[nodeID := n]> (nodes r)))
    end.

Definition Heartbeat (now : Z) (nodeID : string) (r : Registry) : Registry :=
  match nodes r !! nodeID with
  | Some n =>
      let n' := MkAgentNode (NodeID n) (Hostname n) (IP n) (Version n) (Region n)
                  (Registered n) now "active" 0 in
      MkRegistry (<[nodeID := n']> (nodes r))
  | None => r
  end.

Definition SetInactive (nodeID : string) (r : Registry) : Registry :=
  match nodes r !! nodeID with
  | Some n =>
      let n' := MkAgentNode (NodeID n) (Hostname n) (IP n) (Version n) (Region n)
                  (Registered n) (LastSeen n) "inactive" (inactiveSince n) in
      MkRegistry (<[nodeID := n']> (nodes r))
  | None => r
  end.

(** One iteration of the checker's loop: first the transition to "inactive",
    then the eviction test on the (possibly updated) record. *)
Definition mark_node (now timeout evictAfter : Z) (_ : string) (n : AgentNode) : option AgentNode :=
  let deadline := now + - timeout in
  let n1 :=
    if (Status n =s "active") && (LastSeen n <? deadline) then
      MkAgentNode (NodeID n) (Hostname n) (IP n) (Version n) (Region n)
        (Registered n) (LastSeen n) "inactive" now
    else n in
  if (Status n1 =s "inactive") && negb (inactiveSince n1 =? 0)
     && (sat64 (now - inactiveSince n1) >? evictAfter)
  then None else Some n1.

Definition markStaleInactive (o : map_order string AgentNode) (now timeout evictAfter : Z)
    (r : Registry) : Registry :=
  MkRegistry (foldl (update_entry (mark_node now timeout evictAfter)) (nodes r)
                (visit o (nodes r))).

(** ** The checker's parameters *)

Definition DefaultEvictAfter : Z := 24 * 3600 * 10 ^ 9.
Definition DefaultHeartbeatTimeout : Z := 60 * 10 ^ 9.
Definition DefaultHeartbeatInterval : Z := 30 * 10 ^ 9.

(** The ticker interval, the timeout and the eviction delay of the goroutine
    [StartHeartbeatChecker] starts; a tick runs [markStaleInactive]. *)
Definition StartHeartbeatChecker (timeout interval evictAfter : Z) : Z * Z * Z :=
  let timeout := if timeout <=? 0 then DefaultHeartbeatTimeout else timeout in
  let interval := if interval <=? 0 then DefaultHeartbeatInterval else interval in
  (interval, timeout, evictAfter).

(** ** Queries *)

Definition List (o : map_order string AgentNode) (r : Registry) : list AgentNode :=
  (visit o (nodes r)).*2.

Definition ListByRegion (o : map_order string AgentNode) (region : string) (r : Registry)
    : list AgentNode :=
  let region := normalizeRegion region in
  filter (λ n, Region n = region) (visit o (nodes r)).*2.

(** [o1] orders the loop over the nodes, [o2] the loop over the set [seen]. *)
Definition Regions (o1 : map_order string AgentNode) (o2 : map_order string ()) (r : Registry)
    : list string :=
  let seen := foldl (λ s n, <[Region n := ()]> s) (∅ : gmap string ()) (visit o1 (nodes r)).*2 in
  sort_Strings (visit o2 seen).*1.

(** ** Lemmas on the single-node transition *)

Lemma markStaleInactive_nodes o now timeout evictAfter r :
  nodes (markStaleInactive o now timeout evictAfter r)
  = map_imap (mark_node now timeout evictAfter) (nodes r).
Proof. apply visit_update. Qed.

Lemma markStaleInactive_lookup o now timeout evictAfter r id :
  nodes (markStaleInactive o now timeout evictAfter r) !! id
  = nodes r !! id ≫= mark_node now timeout evictAfter id.
Proof. by rewrite markStaleInactive_nodes, map_lookup_imap. Qed.

(** ** Well-formedness of the table *)

Definition node_ok (id : string) (n : AgentNode) : Prop :=
  NodeID n = id ∧ id ≠ "" ∧ Region n ≠ "" ∧
  (Status n = "active" ∧ inactiveSince n = 0 ∨ Status n = "inactive").

Definition registry_ok (r : Registry) : Prop := map_Forall node_ok (nodes r).

(** Every call that changes the registry, as the receiver and the checker
    goroutine issue them. *)
Inductive op :=
| ORegister (nodeID hostname ip version region : string)
| OHeartbeat (nodeID : string)
| OSetInactive (nodeID : string)
| OCheck (o : map_order string AgentNode).

Section Run.
Context (timeout evictAfter : Z).

Definition apply_op (now : Z) (p : op) (r : Registry) : Registry :=
  match p with
  | ORegister id host ip ver region => (Register now id host ip ver region r).2
  | OHeartbeat id => Heartbeat now id r
  | OSetInactive id => SetInactive id r
  | OCheck o => markStaleInactive o now timeout evictAfter r
  end.

(** A run: operations with the clock reading each of them takes. *)
Definition run (tr : list (Z * op)) (r : Registry) : Registry :=
  foldl (λ r '(now, p), apply_op now p r) r tr.

Lemma normalizeRegion_ne region : normalizeRegion region ≠ "".
Proof. unfold normalizeRegion. go_case; done. Qed.

Lemma Register_ok now id host ip ver region r :
  registry_ok r → registry_ok (Register now id host ip ver region r).2.
Proof.
  intros Hr. unfold Register. go_case; [done|].
  destruct (nodes r !! id) as [n|] eqn:Hn; simpl; apply map_Forall_insert_2; try done.
  - destruct (Hr id n Hn) as (? & ? & ? & ?). repeat split; simpl; auto using normalizeRegion_ne.
  - repeat split; simpl; auto using normalizeRegion_ne.
Qed.

Lemma Heartbeat_ok now id r : registry_ok r → registry_ok (Heartbeat now id r).
Proof.
  intros Hr. unfold Heartbeat. destruct (nodes r !! id) as [n|] eqn:Hn; [|done].
  apply map_Forall_insert_2; [|done].
  destruct (Hr id n Hn) as (? & ? & ? & ?). repeat split; simpl; auto.
Qed.

Lemma SetInactive_ok id r : registry_ok r → registry_ok (SetInactive id r).
Proof.
  intros Hr. unfold SetInactive. destruct (nodes r !! id) as [n|] eqn:Hn; [|done].
  apply map_Forall_insert_2; [|done].
  destruct (Hr id n Hn) as (? & ? & ? & ?). repeat split; simpl; auto.
Qed.

Lemma mark_node_ok now id n n' :
  node_ok id n → mark_node now timeout evictAfter id n = Some n' → node_ok id n'.
Proof.
  intros (? & ? & ? & ?). unfold mark_node. intros H'. go_cases; repeat split; simpl; auto.
Qed.

Lemma markStaleInactive_ok o now r :
  registry_ok r → registry_ok (markStaleInactive o now timeout evictAfter r).
Proof.
  intros Hr id n'. rewrite markStaleInactive_lookup. intros Hn'.
  apply bind_Some in Hn' as (n & Hn & Hmark). eauto using mark_node_ok.
Qed.

Lemma apply_op_ok now p r : registry_ok r → registry_ok (apply_op now p r).
Proof.
  destruct p; simpl;
    auto using Register_ok, Heartbeat_ok, SetInactive_ok, markStaleInactive_ok.
Qed.
End Run.

(** ** Abstract specification: the life of one agent

    What the registry promises about a single agent, without the table. *)

Inductive phase :=
| Unknown
| Active (last : Z)
| Silenced (last : Z)                (* set inactive by hand: no time recorded *)
| Inactive (last since : Z).

#[global] Instance phase_eq_dec : EqDecision phase.
Proof. solve_decision. Defined.

Definition phase_check (timeout evictAfter now : Z) (ph : phase) : phase :=
  match ph with
  | Active last =>
      if last <? now - timeout then
        if 0 >? evictAfter then Unknown else Inactive last now
      else ph
  | Inactive _ since => if sat64 (now - since) >? evictAfter then Unknown else ph
  | _ => ph
  end.

Definition phase_step (timeout evictAfter now : Z) (id : string) (p : op) (ph : phase) : phase :=
  match p with
  | ORegister id' _ _ _ _ => if (id =s id') && (id <>s "") then Active now else ph
  | OHeartbeat id' =>
      if id =s id' then match ph with Unknown => Unknown | _ => Active now end else ph
  | OSetInactive id' =>
      if id =s id' then match ph with Active last => Silenced last | _ => ph end else ph
  | OCheck _ => phase_check timeout evictAfter now ph
  end.

Definition node_phase (n : AgentNode) : phase :=
  if Status n =s "active" then Active (LastSeen n)
  else if inactiveSince n =? 0 then Silenced (LastSeen n)
  else Inactive (LastSeen n) (inactiveSince n).

Definition phase_of (id : string) (r : Registry) : phase :=
  match nodes r !! id with Some n => node_phase n | None => Unknown end.

Lemma mark_node_phase timeout evictAfter now id n :
  0 < now → node_ok id n →
  match mark_node now timeout evictAfter id n with Some n' => node_phase n' | None => Unknown end
  = phase_check timeout evictAfter now (node_phase n).
Proof.
  intros Hnow (_ & _ & _ & [[Hs Hi]|Hs]);
    unfold mark_node, node_phase, phase_check; rewrite Hs; simpl;
    change (now + - timeout) with (now - timeout).
  - destruct (LastSeen n <? now - timeout); simpl; [|by rewrite Hs; simpl; rewrite Hs].
    rewrite (proj2 (Z.eqb_neq now 0)) by lia. simpl.
    rewrite Z.sub_diag, (sat64_id 0) by done. destruct (0 >? evictAfter); simpl; [done|].
    by rewrite (proj2 (Z.eqb_neq now 0)) by lia.
  - rewrite Hs; simpl. destruct (inactiveSince n =? 0) eqn:Hz; simpl; [by rewrite Hs, Hz|].
    destruct (sat64 _ >? evictAfter); simpl; [done|]. by rewrite Hs, Hz.
Qed.

Lemma Register_phase now id id' host ip ver region r :
  phase_of id (Register now id' host ip ver region r).2
  = if (id =s id') && (id <>s "") then Active now else phase_of id r.
Proof.
  unfold Register, phase_of. destruct (decide (id' = "")) as [->|Hne].
  { rewrite bool_decide_eq_true_2 by done. simpl. case_bool_decide; by subst. }
  rewrite (bool_decide_eq_false_2 (id' = "")) by done.
  destruct (decide (id = id')) as [->|Hid].
  - rewrite bool_decide_eq_true_2, bool_decide_eq_false_2 by done. simpl.
    destruct (nodes r !! id'); simpl; by rewrite lookup_insert_eq.
  - rewrite bool_decide_eq_false_2 by done. simpl.
    destruct (nodes r !! id'); simpl; by rewrite lookup_insert_ne.
Qed.

Lemma Heartbeat_phase now id id' r :
  phase_of id (Heartbeat now id' r)
  = if id =s id' then match phase_of id r with Unknown => Unknown | _ => Active now end
    else phase_of id r.
Proof.
  unfold Heartbeat, phase_of, node_phase. case_bool_decide as Hid; [subst|].
  - destruct (nodes r !! id') as [n|] eqn:Hn; simpl; rewrite ?lookup_insert_eq, ?Hn; [|done].
    simpl. by go_cases.
  - destruct (nodes r !! id'); simpl; by rewrite ?lookup_insert_ne.
Qed.

Lemma SetInactive_phase id id' r :
  registry_ok r →
  phase_of id (SetInactive id' r)
  = if id =s id' then match phase_of id r with Active last => Silenced last | _ => phase_of id r end
    else phase_of id r.
Proof.
  intros Hr. unfold SetInactive, phase_of. case_bool_decide as Hid; [subst|].
  - destruct (nodes r !! id') as [n|] eqn:Hn; simpl; rewrite ?lookup_insert_eq, ?Hn; [|done].
    destruct (Hr id' n Hn) as (_ & _ & _ & [[Hs Hi]|Hs]); unfold node_phase; simpl;
      rewrite Hs, ?Hi; simpl; [done|]. by destruct (inactiveSince n =? 0).
  - destruct (nodes r !! id'); simpl; by rewrite ?lookup_insert_ne.
Qed.

Lemma markStaleInactive_phase timeout evictAfter o now id r :
  0 < now → registry_ok r →
  phase_of id (markStaleInactive o now timeout evictAfter r)
  = phase_check timeout evictAfter now (phase_of id r).
Proof.
  intros Hnow Hr. unfold phase_of. rewrite markStaleInactive_lookup.
  destruct (nodes r !! id) as [n|] eqn:Hn; simpl; [|done].
  apply mark_node_phase; [done|]. by apply Hr.
Qed.

Lemma apply_op_phase timeout evictAfter now p id r :
  0 < now → registry_ok r →
  phase_of id (apply_op timeout evictAfter now p r)
  = phase_step timeout evictAfter now id p (phase_of id r).
Proof.
  intros Hnow Hr. destruct p; simpl;
    [apply Register_phase|apply Heartbeat_phase|by apply SetInactive_phase
    |by apply markStaleInactive_phase].
Qed.

Lemma run_ok timeout evictAfter tr r :
  registry_ok r → registry_ok (run timeout evictAfter tr r).
Proof.
  revert r. induction tr as [|[now p] tr IH]; intros r Hr; simpl; [done|].
  by apply IH, apply_op_ok.
Qed.

Lemma run_phase timeout evictAfter tr id r :
  registry_ok r → Forall (λ '(now, _), 0 < now) tr →
  phase_of id (run timeout evictAfter tr r)
  = foldl (λ ph '(now, p), phase_step timeout evictAfter now id p ph) (phase_of id r) tr.
Proof.
  intros Hr Htr. revert r Hr.
  induction Htr as [|[now p] tr Hnow _ IH]; intros r Hr; simpl; [done|].
  rewrite IH by (by apply apply_op_ok). by rewrite apply_op_phase.
Qed.

(** ** A silent agent *)

(** The operations of a run that concern [id] itself. *)
Definition touches (id : string) (p : op) : bool :=
  match p with
  | ORegister id' _ _ _ _ | OHeartbeat id' | OSetInactive id' => id =s id'
  | OCheck _ => false
  end.

(** The times at which the checker ran. *)
Definition check_times (tr : list (Z * op)) : list Z :=
  omap (λ '(now, p), match p with OCheck _ => Some now | _ => None end) tr.

(** What becomes of an agent last seen at [last] when the checker runs at the
    times [cs] and the agent stays silent. *)
Fixpoint silent_phase (timeout evictAfter last : Z) (cs : list Z) : phase :=
  match cs with
  | [] => Active last
  | c :: cs =>
      if last + timeout <? c then
        if existsb (λ c', c + evictAfter <? c') cs then Unknown else Inactive last c
      else silent_phase timeout evictAfter last cs
  end.

Section Silent.
Context (timeout evictAfter : Z) (id : string).
Context (Hevict : 0 <= evictAfter < max_int64).

Abbreviation steps init tr :=
  (foldl (λ ph '(now, p), phase_step timeout evictAfter now id p ph) init tr).

Lemma untouched_step now p ph :
  touches id p = false →
  phase_step timeout evictAfter now id p ph
  = match p with OCheck _ => phase_check timeout evictAfter now ph | _ => ph end.
Proof. destruct p; simpl; intros Ht; by rewrite ?Ht. Qed.

Lemma evict_test now since :
  (sat64 (now - since) >? evictAfter) = (since + evictAfter <? now).
Proof.
  apply eq_true_iff_eq. rewrite Z.gtb_lt, Z.ltb_lt.
  rewrite sat64_gt; unfold in_int64, min_int64 in *; lia.
Qed.

Lemma unknown_stays tr :
  Forall (λ '(_, p), touches id p = false) tr → steps Unknown tr = Unknown.
Proof.
  induction 1 as [|[now p] tr Hp _ IH]; [done|]. cbn [foldl].
  rewrite untouched_step by done. by destruct p.
Qed.

Lemma silenced_stays last tr :
  Forall (λ '(_, p), touches id p = false) tr → steps (Silenced last) tr = Silenced last.
Proof.
  induction 1 as [|[now p] tr Hp _ IH]; [done|]. cbn [foldl].
  rewrite untouched_step by done. by destruct p.
Qed.

Lemma inactive_silent last since tr :
  Forall (λ '(_, p), touches id p = false) tr →
  steps (Inactive last since) tr
  = if existsb (λ c, since + evictAfter <? c) (check_times tr) then Unknown
    else Inactive last since.
Proof.
  induction 1 as [|[now p] tr Hp Htr IH]; [done|]. cbn [foldl].
  rewrite untouched_step by done. destruct p; simpl; try done.
  rewrite evict_test. destruct (since + evictAfter <? now); simpl; [|done].
  by apply unknown_stays.
Qed.

Lemma active_silent last tr :
  Forall (λ '(_, p), touches id p = false) tr →
  steps (Active last) tr = silent_phase timeout evictAfter last (check_times tr).
Proof.
  induction 1 as [|[now p] tr Hp Htr IH]; [done|]. cbn [foldl].
  rewrite untouched_step by done. destruct p; simpl; try done.
  replace (last <? now - timeout) with (last + timeout <? now) by
    (apply eq_true_iff_eq; rewrite !Z.ltb_lt; lia).
  destruct (last + timeout <? now); [|done].
  rewrite Z.gtb_ltb, (proj2 (Z.ltb_ge evictAfter 0)) by lia.
  by rewrite inactive_silent.
Qed.
End Silent.

(** ** Regions *)

Lemma foldl_insert_unit (rs : list string) (s : gmap string ()) r :
  foldl (λ s r, <[r := ()]> s) s rs !! r = if decide (r ∈ rs) then Some () else s !! r.
Proof.
  revert s. induction rs as [|r' rs IH]; intros s; cbn [foldl].
  { by rewrite decide_False by apply not_elem_of_nil. }
  rewrite IH. destruct (decide (r ∈ rs)).
  { by rewrite decide_True by (by right). }
  destruct (decide (r = r')) as [->|].
  - rewrite decide_True by left. by rewrite lookup_insert_eq.
  - rewrite decide_False by (by rewrite elem_of_cons; intros [?|?]).
    by rewrite lookup_insert_ne.
Qed.

Lemma foldl_Region (ns : list AgentNode) (s : gmap string ()) :
  foldl (λ s n, <[Region n := ()]> s) s ns = foldl (λ s r, <[r := ()]> s) s (Region <$> ns).
Proof. revert s. induction ns; intros s; simpl; auto. Qed.

Lemma elem_of_List o r n : n ∈ List o r ↔ ∃ id, nodes r !! id = Some n.
Proof.
  unfold List. rewrite list_elem_of_fmap. split.
  - intros [[id n'] [-> Hin]]. exists id. by apply elem_of_visit in Hin.
  - intros [id Hid]. exists (id, n). split; [done|]. by apply elem_of_visit.
Qed.

Lemma elem_of_Regions o1 o2 r region :
  region ∈ Regions o1 o2 r ↔ ∃ id n, nodes r !! id = Some n ∧ Region n = region.
Proof.
  unfold Regions. rewrite sort_Strings_Permutation, foldl_Region, list_elem_of_fmap.
  split.
  - intros [[region' []] [-> Hin]]. apply elem_of_visit in Hin.
    rewrite foldl_insert_unit in Hin. case_decide as Hr; [|done].
    apply list_elem_of_fmap in Hr as [n [-> Hn]].
    apply elem_of_List in Hn as [id Hid]. eauto.
  - intros (id & n & Hid & <-). exists (Region n, ()). split; [done|].
    apply elem_of_visit. rewrite foldl_insert_unit, decide_True; [done|].
    apply list_elem_of_fmap. exists n. split; [done|]. apply (elem_of_List o1 r). eauto.
Qed.

Lemma NoDup_Regions o1 o2 r : NoDup (Regions o1 o2 r).
Proof.
  unfold Regions. rewrite sort_Strings_Permutation. eapply range_order_NoDup, visit_order.
Qed.

(** Splitting a list by a key whose values are listed without repetition. *)
Lemma concat_filter_key {A} (f : A → string) (ks : list string) (l : list A) :
  NoDup ks → Forall (λ x, f x ∈ ks) l →
  concat ((λ k, filter (λ x, f x = k) l) <$> ks) ≡ₚ l.
Proof.
  intros Hnd. revert l. induction ks as [|k ks IH]; intros l Hl; simpl.
  { destruct l as [|x l]; [done|]. inversion Hl; set_solver. }
  apply NoDup_cons in Hnd as [Hk Hnd].
  rewrite <-(filter_app_complement (λ x, f x = k) l) at 2. apply Permutation_app_head.
  rewrite <-(IH Hnd (filter (λ x, f x ≠ k) l)).
  - apply reflexive_eq. f_equal. apply list_fmap_ext. intros i k' Hi.
    rewrite list_filter_filter_l; [done|]. intros x <- Hx.
    apply Hk. rewrite <-Hx. by eapply list_elem_of_lookup_2.
  - apply Forall_forall. intros x [Hx Hin]%list_elem_of_filter.
    rewrite Forall_forall in Hl. specialize (Hl x Hin). set_solver.
Qed.

(** ** Properties *)

(** C26: In every registry the collector can reach from the empty one, through
    any sequence of registrations, heartbeats, manual deactivations and
    checker runs with any clock readings and any map iteration orders, every
    entry is stored under its own non-empty node id, has a non-empty region
    and a status that is "active" (with no inactivity time recorded) or
    "inactive". *)
Theorem registry_invariant timeout evictAfter tr :
  registry_ok (run timeout evictAfter tr New).
Proof. apply run_ok. apply map_Forall_empty. Qed.

(** C12: The registry refines the abstract life of a single agent: whatever the
    other agents do and in whatever order the checker visits the table, the
    phase of [id] after a run is the one the per-agent automaton [phase_step]
    computes from the operations of the run. *)
Theorem registry_refines_phases timeout evictAfter tr id :
  Forall (λ '(now, _), 0 < now) tr →
  phase_of id (run timeout evictAfter tr New)
  = foldl (λ ph '(now, p), phase_step timeout evictAfter now id p ph) Unknown tr.
Proof. intros Htr. by rewrite run_phase by (done || apply map_Forall_empty). Qed.

Definition trace_ex : list (Z * op) :=
  [(5, ORegister "a" "h" "" "v1" ""); (9, OHeartbeat "b"); (200, OCheck canonical_order);
   (210, OHeartbeat "a"); (400, OCheck canonical_order)].

Lemma registry_refines_phases_witness :
  Forall (λ '(now, _), 0 < now) trace_ex ∧
  phase_of "a" (run 100 1000 trace_ex New)
  = foldl (λ ph '(now, p), phase_step 100 1000 now "a" p ph) Unknown trace_ex.
Proof.
  assert (Forall (λ '(now, _), 0 < now) trace_ex) as H by (repeat constructor).
  split; [exact H|]. exact (registry_refines_phases 100 1000 trace_ex "a" H).
Defined.

(** C25: Detection and eviction are exact.  An active agent that stays silent
    (no registration, heartbeat or manual deactivation of its id, while the
    other agents do anything) remains "active" as long as every checker run
    comes at most [timeout] after it was last seen; the first later run, at
    [c], makes it inactive since [c]; and it is removed exactly by a run more
    than [evictAfter] after [c]. *)
Theorem silent_agent timeout evictAfter tr id last r :
  0 <= evictAfter < max_int64 →
  registry_ok r → phase_of id r = Active last →
  Forall (λ '(now, p), 0 < now ∧ touches id p = false) tr →
  phase_of id (run timeout evictAfter tr r)
  = silent_phase timeout evictAfter last (check_times tr).
Proof.
  intros Hev Hr Hph Htr. rewrite run_phase, Hph; [|done|].
  - apply active_silent; [done|]. eapply Forall_impl; [exact Htr|]. intros [??]; naive_solver.
  - eapply Forall_impl; [exact Htr|]. intros [??]; naive_solver.
Qed.

Definition silent_trace_ex : list (Z * op) :=
  [(60, OCheck canonical_order); (105, OCheck canonical_order); (106, OCheck canonical_order);
   (120, OHeartbeat "b"); (1107, OCheck canonical_order)].
Definition silent_registry_ex : Registry :=
  (Register 5 "a" "h" "" "v1" "" New).2.

Lemma silent_agent_witness :
  phase_of "a" (run 100 1000 silent_trace_ex silent_registry_ex) = Unknown ∧
  phase_of "a" (run 100 1000 (take 3 silent_trace_ex) silent_registry_ex) = Inactive 5 106.
Proof.
  assert (registry_ok silent_registry_ex) as Hr by (apply Register_ok, map_Forall_empty).
  split.
  - apply (silent_agent 100 1000 silent_trace_ex "a" 5); try done. by repeat constructor.
  - apply (silent_agent 100 1000 (take 3 silent_trace_ex) "a" 5); try done. by repeat constructor.
Defined.

(** C35: An agent deactivated with [SetInactive] is never evicted: as long as
    nothing touches its id, it stays in the table as inactive through any
    number of checker runs, however late, because [SetInactive] records no
    inactivity time. *)
Theorem set_inactive_never_evicted timeout evictAfter tr id last r :
  registry_ok r → phase_of id r = Active last →
  Forall (λ '(now, p), 0 < now ∧ touches id p = false) tr →
  phase_of id (run timeout evictAfter tr (SetInactive id r)) = Silenced last.
Proof.
  intros Hr Hph Htr. rewrite run_phase.
  - rewrite SetInactive_phase, bool_decide_eq_true_2, Hph by done.
    apply silenced_stays. eapply Forall_impl; [exact Htr|]. intros [??]; naive_solver.
  - by apply SetInactive_ok.
  - eapply Forall_impl; [exact Htr|]. intros [??]; naive_solver.
Qed.

Lemma set_inactive_never_evicted_witness :
  phase_of "a" (run 100 1000 silent_trace_ex (SetInactive "a" silent_registry_ex)) = Silenced 5.
Proof.
  assert (registry_ok silent_registry_ex) as Hr by (apply Register_ok, map_Forall_empty).
  apply (set_inactive_never_evicted 100 1000 silent_trace_ex "a" 5); try done.
  by repeat constructor.
Defined.

(** [Regions] returns each region that has a registered agent exactly
    once, in byte order, whatever orders the two maps are ranged over in; and
    listing the agents region by region, as [/api/regions] does, neither loses
    nor repeats an agent. *)
Theorem regions_partition o1 o2 o3 o4 r :
  registry_ok r →
  StronglySorted String.le (Regions o1 o2 r) ∧
  NoDup (Regions o1 o2 r) ∧
  (∀ region, region ∈ Regions o1 o2 r ↔ ∃ id n, nodes r !! id = Some n ∧ Region n = region) ∧
  concat ((λ region, ListByRegion o3 region r) <$> Regions o1 o2 r) ≡ₚ List o4 r.
Proof.
  intros Hr. split_and!; [apply sort_Strings_Sorted|apply NoDup_Regions|apply elem_of_Regions|].
  transitivity (List o3 r); [|unfold List; by rewrite !visit_perm].
  rewrite <-(concat_filter_key Region (Regions o1 o2 r) (List o3 r)); [|apply NoDup_Regions|].
  - apply reflexive_eq. f_equal. apply list_fmap_ext. intros i region Hi.
    apply list_elem_of_lookup_2, elem_of_Regions in Hi as (id & n & Hid & <-).
    unfold ListByRegion, normalizeRegion.
    destruct (Hr id n Hid) as (_ & _ & Hne & _). by rewrite bool_decide_eq_false_2.
  - apply Forall_forall. intros n [id Hid]%elem_of_List. apply elem_of_Regions. eauto.
Qed.

Lemma regions_partition_witness :
  concat ((λ region, ListByRegion canonical_order region silent_registry_ex)
            <$> Regions canonical_order canonical_order silent_registry_ex)
  ≡ₚ List canonical_order silent_registry_ex.
Proof.
  assert (registry_ok silent_registry_ex) as Hr by (apply Register_ok, map_Forall_empty).
  exact (proj2 (proj2 (proj2 (regions_partition canonical_order canonical_order canonical_order
    canonical_order silent_registry_ex Hr)))).
Defined.

End Registry.
