(* ===== verification/Anomaly.v ===== *)
(** * The anomaly detector ([internal/anomaly/detector.go])

    A sliding-window counter per (node, event type).  [Record], [WindowStats]
    and [gc] hold the detector's mutex for their whole body, so each is one
    atomic step; clock readings and the generated alert id are arguments. *)

From S2P Require Import Prelude GoStrings GoFloat GoTime StoreData.
Import GoStrings GoFloat GoTime.

Module Anomaly.

(** ** Data *)

Record WindowConfig := Window { Duration : Z; Threshold : Z }.

Definition DefaultWindows : list WindowConfig :=
  [Window Minute 30; Window (5 * Minute) 100].

(** NodeID and EventType. *)
Definition windowKey : Type := string * string.

#[global] Typeclasses Transparent windowKey.

Record Detector := MkDetector {
  windows : list WindowConfig;
  timestamps : gmap windowKey (list Z);
}.

(** The slice stored for a key; Go reads a missing one as the empty slice. *)
Definition ts_of (key : windowKey) (d : Detector) : list Z := default [] (timestamps d !! key).

Definition New (ws : list WindowConfig) : Detector :=
  MkDetector (match ws with [] => DefaultWindows | _ => ws end) ∅.

(** ** Operations *)

Definition maxDuration (d : Detector) : Z :=
  foldl (λ m w, if Duration w >? m then Duration w else m) 0 (windows d).

Fixpoint drop_before (cutoff : Z) (ts : list Z) : list Z :=
  match ts with
  | t :: ts' => if Before t cutoff then drop_before cutoff ts' else ts
  | [] => []
  end.

Definition prune (key : windowKey) (now : Z) (d : Detector) : Detector :=
  let cutoff := Add now (neg (maxDuration d)) in
  let ts := ts_of key d in
  let ts' := drop_before cutoff ts in
  if (length ts' <? length ts)%nat
  then MkDetector (windows d) (<[key := ts']> (timestamps d))
  else d.

Definition count_since (cutoff : Z) (ts : list Z) : Z :=
  foldl (λ n t, if negb (Before t cutoff) then n + 1 else n) 0 ts.

Definition countWithin (key : windowKey) (now dur : Z) (d : Detector) : Z :=
  count_since (Add now (neg dur)) (ts_of key d).

(** [fmt.Sprintf("anomaly: %d %q events in %s exceeds threshold %d", ...)];
    [Quote] is [strconv.Quote]. *)
Definition anomaly_message (Quote : string → string) (count : Z) (type : string)
    (w : WindowConfig) : string :=
  "anomaly: " +:+ Itoa count +:+ " " +:+ Quote type +:+ " events in "
    +:+ Duration_String (Duration w) +:+ " exceeds threshold " +:+ Itoa (Threshold w).

Definition anomaly_alert (Quote : string → string) (uuid : string) (now : clock) (e : Event)
    (count : Z) (w : WindowConfig) : Alert :=
  MkAlert uuid ("anomaly_" +:+ ev_Type e) (ev_NodeID e) (ev_EventID e) (wall now)
    (anomaly_message Quote count (ev_Type e) w) "warning".

(** The loop over the windows, which stops at the first breach. *)
Fixpoint breach_loop (Quote : string → string) (uuid : string) (now : clock) (e : Event)
    (key : windowKey) (d : Detector) (ws : list WindowConfig) : list Alert :=
  match ws with
  | [] => []
  | w :: ws =>
      let count := countWithin key (mono now) (Duration w) d in
      if count >? Threshold w then [anomaly_alert Quote uuid now e count w]
      else breach_loop Quote uuid now e key d ws
  end.

Definition Record (Quote : string → string) (uuid : string) (now : clock) (e : Event)
    (d : Detector) : list Alert * Detector :=
  let key := (ev_NodeID e, ev_Type e) in
  let d1 := MkDetector (windows d) (<[key := ts_of key d ++ [mono now]]> (timestamps d)) in
  let d2 := prune key (mono now) d1 in
  (breach_loop Quote uuid now e key d2 (windows d2), d2).

Definition gc (o : map_order windowKey (list Z)) (now : Z) (d : Detector) : Detector :=
  let cutoff := Add now (neg (maxDuration d)) in
  MkDetector (windows d)
    (foldl (update_entry (λ _ ts,
       match last ts with
       | None => None
       | Some t => if Before t cutoff then None else Some ts
       end)) (timestamps d) (visit o (timestamps d))).

Definition durationLabel (d : Z) : string :=
  if d <? Minute then Itoa (to_int (Seconds d)) +:+ "s"
  else if d <? Hour then Itoa (to_int (Minutes d)) +:+ "m"
  else Itoa (to_int (Hours d)) +:+ "h".

(** [result[type][label] += count]. *)
Definition add_count (label : string) (count : Z) (m : gmap string Z) : gmap string Z :=
  <[label := default 0 (m !! label) + count]> m.

Definition stats_entry (ws : list WindowConfig) (now : Z) (ts : list Z) (m : gmap string Z)
    : gmap string Z :=
  foldl (λ m w, add_count (durationLabel (Duration w))
                  (count_since (Add now (neg (Duration w))) ts) m) m ws.

Definition WindowStats (o : map_order windowKey (list Z)) (now : Z) (d : Detector)
    : gmap string (gmap string Z) :=
  foldl (λ res '((_, type), ts),
           <[type := stats_entry (windows d) now ts (default ∅ (res !! type))]> res)
    ∅ (visit o (timestamps d)).

(** The collector runs [gc] at every tick of the goroutine [StartGC] starts. *)
Inductive op :=
| ORecord (Quote : string → string) (uuid : string) (now : clock) (e : Event)
| OGC (o : map_order windowKey (list Z)) (now : Z).

Definition apply_op (d : Detector) (p : op) : Detector :=
  match p with
  | ORecord Quote uuid now e => (Record Quote uuid now e d).2
  | OGC o now => gc o now d
  end.

Definition run (tr : list op) (d : Detector) : Detector := foldl apply_op d tr.

(** ** Specification: counting over the whole history

    The times of all events recorded so far for a key, never pruned, and the
    number of them in the last [dur]. *)

Definition op_time (p : op) : Z :=
  match p with ORecord _ _ now _ => mono now | OGC _ now => now end.

Definition hist (key : windowKey) (tr : list op) : list Z :=
  omap (λ p, match p with
             | ORecord _ _ now e =>
                 if decide ((ev_NodeID e, ev_Type e) = key) then Some (mono now) else None
             | OGC _ _ => None
             end) tr.

Definition spec_count (now dur : Z) (h : list Z) : Z :=
  Z.of_nat (length (filter (λ t, now - dur <= t) h)).

(** The readings of the monotonic clock do not decrease along a run that
    starts no earlier than [t]. *)
Fixpoint clock_chain (t : Z) (tr : list op) : Prop :=
  match tr with
  | [] => True
  | p :: tr => t <= op_time p ∧ clock_chain (op_time p) tr
  end.

Fixpoint end_time (t : Z) (tr : list op) : Z :=
  match tr with [] => t | p :: tr => end_time (op_time p) tr end.

(** Window lengths are durations of at least 0. *)
Definition windows_ok (ws : list WindowConfig) : Prop :=
  Forall (λ w, 0 <= Duration w <= max_int64) ws.

(** ** Counting *)

Lemma count_since_spec c ts :
  count_since c ts = Z.of_nat (length (filter (λ t, c <= t) ts)).
Proof.
  unfold count_since. rewrite <-(Z.add_0_r (Z.of_nat _)). generalize 0.
  induction ts as [|t ts IH]; intros n; [simpl; lia|]. cbn [foldl]. rewrite IH.
  unfold Before. rewrite filter_cons. destruct (Z.ltb_spec t c); simpl.
  - rewrite decide_False by lia. lia.
  - rewrite decide_True by lia. simpl. lia.
Qed.

Lemma drop_before_split c ts :
  ∃ pre, ts = pre ++ drop_before c ts ∧ Forall (λ t, t < c) pre.
Proof.
  induction ts as [|t ts (pre & Heq & Hpre)]; [by exists []|]. simpl. unfold Before.
  destruct (Z.ltb_spec t c).
  - exists (t :: pre). simpl. split; [by f_equal|by constructor].
  - by exists [].
Qed.

Section MaxDuration.
Context (ws : list WindowConfig) (ts : gmap windowKey (list Z)).

Lemma maxDuration_foldl m0 :
  let m := foldl (λ m w, if Duration w >? m then Duration w else m) m0 ws in
  m0 <= m ∧ Forall (λ w, Duration w <= m) ws ∧
  (m = m0 ∨ Exists (λ w, m = Duration w) ws).
Proof.
  cbv zeta. revert m0. induction ws as [|w l IH]; intros m0; simpl; [split_and!; auto; lia|].
  destruct (IH (if Duration w >? m0 then Duration w else m0)) as (H1 & H2 & H3).
  destruct (Z.gtb_spec (Duration w) m0); split_and!; try lia.
  1,3: constructor; [lia|done].
  all: destruct H3 as [->|H3]; [|right; by constructor 2]; auto.
Qed.

Lemma maxDuration_bound w : w ∈ ws → Duration w <= maxDuration (MkDetector ws ts).
Proof.
  intros Hw. destruct (maxDuration_foldl 0) as (_ & H & _). rewrite Forall_forall in H. by apply H.
Qed.

Lemma maxDuration_range :
  windows_ok ws → 0 <= maxDuration (MkDetector ws ts) <= max_int64.
Proof.
  intros Hok. destruct (maxDuration_foldl 0) as (H0 & _ & H1). split; [exact H0|].
  unfold maxDuration; simpl. destruct H1 as [->|H1]; [done|].
  apply Exists_exists in H1 as (w & Hw & ->). unfold windows_ok in Hok.
  rewrite Forall_forall in Hok. by apply Hok.
Qed.
End MaxDuration.

Lemma neg_duration d : 0 <= d <= max_int64 → neg d = - d.
Proof. intros H. apply wrap64_id. unfold in_int64, min_int64, max_int64 in *. lia. Qed.

(** ** The stored timestamps represent the history *)

(** [ts] is what is left of the history [h] at time [now] after dropping
    events older than the longest window [M]. *)
Definition represents (M now : Z) (ts h : list Z) : Prop :=
  StronglySorted Z.le h ∧ Forall (λ t, t <= now) h ∧
  ∃ dropped, h = dropped ++ ts ∧ Forall (λ t, t < now - M) dropped.

Lemma represents_later M now now' ts h :
  now <= now' → represents M now ts h → represents M now' ts h.
Proof.
  intros Hnow (Hs & Hle & pre & Heq & Hpre). split_and!; [done|..].
  - eapply Forall_impl; [exact Hle|]. simpl. lia.
  - exists pre. split; [done|]. eapply Forall_impl; [exact Hpre|]. simpl. lia.
Qed.

Lemma represents_drop M now ts h :
  represents M now ts h → represents M now (drop_before (now - M) ts) h.
Proof.
  intros (Hs & Hle & pre & Heq & Hpre). split_and!; [done..|].
  destruct (drop_before_split (now - M) ts) as (pre' & Heq' & Hpre').
  exists (pre ++ pre'). rewrite <-app_assoc, <-Heq'. split; [done|]. by apply Forall_app.
Qed.

Lemma represents_snoc M now ts h :
  represents M now ts h → represents M now (ts ++ [now]) (h ++ [now]).
Proof.
  intros (Hs & Hle & pre & -> & Hpre). split_and!.
  - apply StronglySorted_app_2; [|done|repeat constructor].
    intros x y Hx ->%list_elem_of_singleton. rewrite Forall_forall in Hle. by apply Hle.
  - apply Forall_app. split; [done|]. repeat constructor. lia.
  - exists pre. by rewrite <-app_assoc.
Qed.

(** If the newest timestamp is too old, all are. *)
Lemma sorted_last_before c ts t :
  StronglySorted Z.le ts → last ts = Some t → t < c → Forall (λ t, t < c) ts.
Proof.
  intros Hs Hlast Ht. apply last_Some in Hlast as [pre ->].
  apply Forall_app. split; [|by repeat constructor].
  apply Forall_forall. intros x Hx.
  pose proof (StronglySorted_app_1_elem_of _ pre [t] x t Hs Hx ltac:(by left)). lia.
Qed.

Lemma represents_gc M now ts h t :
  represents M now ts h → last ts = Some t → t < now - M → represents M now [] h.
Proof.
  intros (Hs & Hle & pre & -> & Hpre) Hlast Ht. split_and!; [done..|].
  exists (pre ++ ts). rewrite app_nil_r. split; [done|]. apply Forall_app. split; [done|].
  eapply sorted_last_before; [|done..]. by apply StronglySorted_app_1_r in Hs.
Qed.

Lemma represents_count M now now' dur ts h :
  represents M now ts h → now <= now' → dur <= M →
  count_since (now' - dur) ts = spec_count now' dur h.
Proof.
  intros (_ & _ & pre & -> & Hpre) Hnow Hdur. unfold spec_count.
  rewrite count_since_spec, filter_app, length_app.
  rewrite (filter_none _ pre), Nat.add_0_l; [done|].
  eapply Forall_impl; [exact Hpre|]. simpl. lia.
Qed.

Section Refinement.
Context (ws : list WindowConfig) (Hws : windows_ok ws).

Abbreviation M := (maxDuration (MkDetector ws ∅)).

(** The detector [d] represents the run [tr] at time [now]. *)
Definition detector_rep (now : Z) (tr : list op) (d : Detector) : Prop :=
  windows d = ws ∧ ∀ key, represents M now (ts_of key d) (hist key tr).

Lemma maxDuration_ws d : windows d = ws → maxDuration d = M.
Proof. unfold maxDuration. by intros ->. Qed.

Lemma cutoff_M now d : windows d = ws → Add now (neg (maxDuration d)) = now - M.
Proof.
  intros Hd. rewrite (maxDuration_ws d Hd), neg_duration by (by apply maxDuration_range).
  unfold Add. lia.
Qed.

Lemma prune_ts key now d key' :
  windows d = ws →
  windows (prune key now d) = ws ∧
  ts_of key' (prune key now d)
  = if decide (key' = key) then drop_before (now - M) (ts_of key d) else ts_of key' d.
Proof.
  intros Hd. unfold prune. rewrite cutoff_M by done.
  destruct (drop_before_split (now - M) (ts_of key d)) as (pre & Heq & _).
  destruct (Nat.ltb_spec (length (drop_before (now - M) (ts_of key d))) (length (ts_of key d))).
  - split; [done|]. unfold ts_of at 1; simpl. destruct (decide (key' = key)) as [->|].
    + by rewrite lookup_insert_eq.
    + by rewrite lookup_insert_ne.
  - split; [done|]. destruct (decide (key' = key)) as [->|]; [|done].
    rewrite Heq in H at 1. rewrite length_app in H.
    destruct pre; [by simpl in Heq; rewrite <-Heq|simpl in H; lia].
Qed.

Lemma Record_ts Quote uuid now e d key :
  windows d = ws →
  let d' := (Record Quote uuid now e d).2 in
  windows d' = ws ∧
  ts_of key d'
  = if decide ((ev_NodeID e, ev_Type e) = key)
    then drop_before (mono now - M) (ts_of key d ++ [mono now]) else ts_of key d.
Proof.
  intros Hd d'. unfold d', Record; simpl.
  destruct (prune_ts (ev_NodeID e, ev_Type e) (mono now)
    (MkDetector (windows d) (<[(ev_NodeID e, ev_Type e) := ts_of (ev_NodeID e, ev_Type e) d
        ++ [mono now]]> (timestamps d))) key Hd) as [H1 H2].
  split; [exact H1|]. rewrite H2. clear H1 H2. unfold ts_of; simpl.
  destruct (decide (key = _)) as [->|Hne].
  - rewrite decide_True by done. by rewrite lookup_insert_eq.
  - rewrite decide_False by congruence. by rewrite lookup_insert_ne by congruence.
Qed.

Lemma gc_ts o now d key :
  windows d = ws →
  windows (gc o now d) = ws ∧
  ts_of key (gc o now d)
  = match last (ts_of key d) with
    | Some t => if Before t (now - M) then [] else ts_of key d
    | None => []
    end.
Proof.
  intros Hd. split; [done|]. unfold gc, ts_of; simpl. rewrite cutoff_M by done.
  rewrite visit_update, map_lookup_imap. destruct (timestamps d !! key) as [ts|]; simpl; [|done].
  destruct (last ts); [|done]. by destruct (Before _ _).
Qed.

Lemma apply_op_rep now tr d p :
  detector_rep now tr d → now <= op_time p → detector_rep (op_time p) (tr ++ [p]) (apply_op d p).
Proof.
  intros [Hd Hrep] Hnow. split.
  { destruct p; simpl; [by apply (Record_ts Quote uuid now0 e d ("", ""))|done]. }
  intros key. specialize (Hrep key). apply (represents_later _ _ (op_time p)) in Hrep; [|done].
  unfold hist. rewrite omap_app. destruct p as [Quote uuid now' e|o now']; cbn [apply_op op_time] in *.
  - destruct (Record_ts Quote uuid now' e d key Hd) as [_ ->].
    simpl. destruct (decide _); simpl.
    + by apply represents_drop, represents_snoc.
    + by rewrite app_nil_r.
  - destruct (gc_ts o now' d key Hd) as [_ ->]. simpl. rewrite app_nil_r.
    destruct (last (ts_of key d)) as [t|] eqn:Hlast.
    + unfold Before. destruct (Z.ltb_spec t (now' - M)); [|done]. by eapply represents_gc.
    + apply last_None in Hlast. by rewrite Hlast in Hrep.
Qed.

Lemma empty_rep now : detector_rep now [] (MkDetector ws ∅).
Proof.
  split; [done|]. intros key. split_and!; [constructor|constructor|]. by exists [].
Qed.

Lemma run_rep now tr tr' d :
  detector_rep now tr d → clock_chain now tr' →
  detector_rep (end_time now tr') (tr ++ tr') (run tr' d).
Proof.
  revert now tr d. induction tr' as [|p tr' IH]; intros now tr d Hrep Hch; simpl.
  { by rewrite app_nil_r. }
  destruct Hch as [Hp Hch].
  replace (tr ++ p :: tr') with ((tr ++ [p]) ++ tr') by (by rewrite <-app_assoc).
  apply IH; [|done]. by apply (apply_op_rep now).
Qed.

Lemma rep_count now now' tr d key w :
  detector_rep now tr d → now <= now' → w ∈ ws →
  countWithin key now' (Duration w) d = spec_count now' (Duration w) (hist key tr).
Proof.
  intros [Hd Hrep] Hnow Hw. unfold countWithin.
  assert (0 <= Duration w <= max_int64) as Hdur.
  { unfold windows_ok in Hws. rewrite Forall_forall in Hws. by apply Hws. }
  rewrite neg_duration by done. apply (represents_count M now now'); [done..|].
  by apply maxDuration_bound.
Qed.

Lemma breach_loop_find Quote uuid now e key d l (f : WindowConfig → Z) :
  (∀ w, w ∈ l → countWithin key (mono now) (Duration w) d = f w) →
  breach_loop Quote uuid now e key d l
  = match list_find (λ w, Threshold w < f w) l with
    | Some (_, w) => [anomaly_alert Quote uuid now e (f w) w]
    | None => []
    end.
Proof.
  induction l as [|w l IH]; intros Hf; [done|]. simpl.
  rewrite (Hf w) by left. rewrite Z.gtb_ltb.
  destruct (Z.ltb_spec (Threshold w) (f w)).
  - by rewrite decide_True.
  - rewrite decide_False by lia. rewrite IH by (intros; apply Hf; by right).
    destruct (list_find _ l) as [[i w']|]; done.
Qed.
End Refinement.

(** ** The per-window statistics *)

(** The counts of one key's events in the windows labelled [label]. *)
Definition entry_value (ws : list WindowConfig) (now : Z) (label : string) (ts : list Z) : Z :=
  zsum ((λ w, if decide (durationLabel (Duration w) = label)
              then count_since (Add now (neg (Duration w))) ts else 0) <$> ws).

Definition stats_value (ws : list WindowConfig) (now : Z) (type label : string)
    (l : list (windowKey * list Z)) : Z :=
  zsum ((λ '((_, ty), ts), if decide (ty = type) then entry_value ws now label ts else 0) <$> l).

Definition stats_lookup (res : gmap string (gmap string Z)) (type label : string) : Z :=
  default 0 (default ∅ (res !! type) !! label).

Lemma add_count_lookup label count m label' :
  default 0 (add_count label count m !! label')
  = default 0 (m !! label') + if decide (label = label') then count else 0.
Proof.
  unfold add_count. destruct (decide (label = label')) as [->|].
  - by rewrite lookup_insert_eq.
  - rewrite lookup_insert_ne by done. lia.
Qed.

Lemma stats_entry_lookup ws now ts m label :
  default 0 (stats_entry ws now ts m !! label)
  = default 0 (m !! label) + entry_value ws now label ts.
Proof.
  unfold stats_entry, entry_value. revert m.
  induction ws as [|w ws IH]; intros m; cbn [foldl fmap list_fmap zsum foldr]; [lia|].
  rewrite IH, add_count_lookup. unfold zsum; simpl. lia.
Qed.

Lemma stats_foldl ws now type label l res :
  stats_lookup (foldl (λ res '((_, type), ts),
      <[type := stats_entry ws now ts (default ∅ (res !! type))]> res) res l) type label
  = stats_lookup res type label + stats_value ws now type label l.
Proof.
  revert res. induction l as [|[[node ty] ts] l IH]; intros res; cbn [foldl].
  { unfold stats_value, zsum; simpl. lia. }
  rewrite IH. unfold stats_value; cbn [fmap list_fmap zsum foldr]. unfold stats_lookup.
  destruct (decide (ty = type)) as [->|].
  - rewrite lookup_insert_eq. simpl. rewrite stats_entry_lookup. unfold zsum; simpl. lia.
  - rewrite lookup_insert_ne by done. unfold zsum; simpl. lia.
Qed.

(** ** Alerts *)

Lemma Record_alerts ws t0 tr Quote uuid now e :
  windows_ok (windows (New ws)) → clock_chain t0 tr → end_time t0 tr <= mono now →
  let h := hist (ev_NodeID e, ev_Type e) tr ++ [mono now] in
  let count w := spec_count (mono now) (Duration w) h in
  (Record Quote uuid now e (run tr (New ws))).1
  = match list_find (λ w, Threshold w < count w) (windows (New ws)) with
    | Some (_, w) => [anomaly_alert Quote uuid now e (count w) w]
    | None => []
    end.
Proof.
  intros Hws Hch Hnow h count.
  pose proof (run_rep _ Hws t0 [] tr (New ws) (empty_rep _ t0) Hch) as Hrep.
  pose proof (apply_op_rep _ Hws _ _ _ (ORecord Quote uuid now e) Hrep Hnow) as Hrep'.
  pose proof (proj1 Hrep') as Hw'. cbn [apply_op] in Hw'.
  unfold Record in Hw' |- *. cbn [fst snd] in Hw' |- *. rewrite Hw'.
  apply breach_loop_find. intros w Hw. eapply eq_trans.
  - apply (rep_count _ Hws _ (mono now) _ _ (ev_NodeID e, ev_Type e) w Hrep'); [simpl; lia|done].
  - unfold count, h, hist. rewrite app_nil_l, omap_app. simpl. by rewrite decide_True.
Qed.

(** ** Properties *)

(** C13: Pruning and garbage collection are invisible.  After any sequence of
    [Record] and [gc] calls with non-decreasing clock readings, the count the
    detector computes for any key over any configured window equals the number
    of events of that key in the window over the whole history, which the
    detector does not keep. *)
Theorem detector_counts_exact ws t0 tr now key w :
  windows_ok (windows (New ws)) → clock_chain t0 tr → end_time t0 tr <= now →
  w ∈ windows (New ws) →
  countWithin key now (Duration w) (run tr (New ws))
  = spec_count now (Duration w) (hist key tr).
Proof.
  intros Hws Hch Hnow Hw.
  apply (rep_count (windows (New ws)) Hws (end_time t0 tr)); [|done..].
  apply (run_rep _ Hws t0 []); [apply empty_rep|done].
Qed.

Definition event_ex (n : Z) : Event := MkEvent (Itoa n) "web-01" 0 "exec" "{}".
Definition record_ex (n : Z) (t : Z) : op :=
  ORecord (λ s, s) "id" (Clock (t * Second) 0) (event_ex n).

(** Three events, a collection, and another event four minutes later. *)
Definition trace_ex : list op :=
  [record_ex 1 10; record_ex 2 20; record_ex 3 100; OGC canonical_order (110 * Second);
   record_ex 4 350].

Lemma windows_ok_default : windows_ok (windows (New [])).
Proof. repeat constructor; done. Qed.

Lemma detector_counts_exact_witness :
  countWithin ("web-01", "exec") (350 * Second) (5 * Minute) (run trace_ex (New [])) = 2.
Proof.
  transitivity (spec_count (350 * Second) (5 * Minute) (hist ("web-01", "exec") trace_ex));
    [|vm_compute; reflexivity].
  apply (detector_counts_exact [] 0 trace_ex (350 * Second) ("web-01", "exec")
             (Window (5 * Minute) 100)).
  - apply windows_ok_default.
  - repeat split; vm_compute; discriminate.
  - vm_compute. discriminate.
  - vm_compute. right; left.
Defined.

(** C27: [Record] alerts exactly when the history says so: after any run, the
    call returns one alert, for the first configured window whose true event
    count (this event included) exceeds its threshold, and no alert when no
    window's count does. *)
Theorem record_alerts_exact ws t0 tr Quote uuid now e :
  windows_ok (windows (New ws)) → clock_chain t0 tr → end_time t0 tr <= mono now →
  let h := hist (ev_NodeID e, ev_Type e) tr ++ [mono now] in
  let count w := spec_count (mono now) (Duration w) h in
  (Record Quote uuid now e (run tr (New ws))).1
  = match list_find (λ w, Threshold w < count w) (windows (New ws)) with
    | Some (_, w) => [anomaly_alert Quote uuid now e (count w) w]
    | None => []
    end.
Proof. apply Record_alerts. Qed.

Lemma record_alerts_exact_witness :
  (Record (λ s, s) "u" (Clock (360 * Second) 0) (event_ex 5) (run trace_ex (New [Window Minute 1]))).1
  = [anomaly_alert (λ s, s) "u" (Clock (360 * Second) 0) (event_ex 5) 2 (Window Minute 1)].
Proof.
  rewrite (record_alerts_exact [Window Minute 1] 0 trace_ex).
  - vm_compute. reflexivity.
  - repeat constructor; done.
  - repeat split; vm_compute; discriminate.
  - vm_compute. discriminate.
Defined.

(** With the default windows the alert starts at the 31st event, not at the
    30th: if all earlier events of the key lie within the last minute, an event
    raises an alert iff at least 30 events preceded it. *)
Lemma default_threshold t0 tr Quote uuid now e :
  clock_chain t0 tr → end_time t0 tr <= mono now →
  let h := hist (ev_NodeID e, ev_Type e) tr in
  Forall (λ t, mono now - Minute <= t) h →
  (Record Quote uuid now e (run tr (New []))).1 ≠ [] ↔ (30 <= length h)%nat.
Proof.
  intros Hch Hnow h Hh.
  assert (∀ dur, Minute <= dur →
    spec_count (mono now) dur (h ++ [mono now]) = Z.of_nat (length h) + 1) as Hc.
  { intros dur Hdur. unfold spec_count. rewrite filter_all.
    - rewrite length_app. simpl. lia.
    - apply Forall_app. split.
      + eapply Forall_impl; [exact Hh|]. simpl. lia.
      + repeat constructor. unfold Minute, Second in *. lia. }
  rewrite (Record_alerts [] t0) by (done || apply windows_ok_default). fold h.
  simpl. rewrite !Hc by (unfold Minute, Second; lia). simpl.
  repeat case_decide; simpl; split; intros; try done; lia.
Qed.

(** Thirty events in thirty seconds. *)
Definition burst_ex : list op := (λ n, record_ex (Z.of_nat n) (Z.of_nat n)) <$> seq 1 30.

Lemma default_threshold_witness :
  (Record (λ s, s) "u" (Clock (31 * Second) 0) (event_ex 31) (run burst_ex (New []))).1 ≠ [].
Proof.
  apply (default_threshold 0 burst_ex (λ s, s) "u" (Clock (31 * Second) 0) (event_ex 31)).
  - repeat split; vm_compute; discriminate.
  - vm_compute. discriminate.
  - vm_compute. repeat (constructor; [vm_compute; discriminate|]). constructor.
  - vm_compute. lia.
Defined.

(** The statistics are order-independent sums: for every event type and
    window label, [WindowStats] holds the total, over all nodes and over all
    windows with that label, of the stored events inside the window, in
    whatever order Go ranges over the detector's map. *)
Lemma window_stats_sum o now d type label :
  stats_lookup (WindowStats o now d) type label
  = stats_value (windows d) now type label (map_to_list (timestamps d)).
Proof.
  unfold WindowStats. rewrite stats_foldl.
  unfold stats_lookup at 1. rewrite lookup_empty. simpl. rewrite lookup_empty. simpl.
  unfold stats_value. by rewrite visit_perm.
Qed.

(** Collection removes exactly the idle keys: after [gc] a key is present iff
    it was present before and its newest event lies within the longest
    configured window, and its timestamps are unchanged. *)
Lemma gc_removes_idle o now d key ts :
  windows_ok (windows d) →
  timestamps (gc o now d) !! key = Some ts ↔
  timestamps d !! key = Some ts ∧
  ∃ t, last ts = Some t ∧ now - maxDuration d <= t.
Proof.
  intros Hws. unfold gc; cbn [timestamps]. rewrite visit_update, map_lookup_imap.
  rewrite neg_duration by (destruct d; by apply maxDuration_range). unfold Add, Before.
  destruct (timestamps d !! key) as [ts'|]; simpl; [|naive_solver].
  destruct (last ts') as [t|] eqn:Hl; [|naive_solver congruence].
  destruct (Z.ltb_spec t (now + - maxDuration d)).
  - split; [done|]. intros ([= ->] & t' & Ht' & ?). simplify_eq. lia.
  - split; [intros [= ->]; split; [done|]; exists t; split; [done|lia]|naive_solver].
Qed.

Lemma gc_removes_idle_witness :
  timestamps (gc canonical_order (500 * Second) (run trace_ex (New []))) !! ("web-01", "exec")
  = Some [100 * Second; 350 * Second].
Proof.
  apply (gc_removes_idle canonical_order (500 * Second) (run trace_ex (New [])) ("web-01", "exec")).
  - apply windows_ok_default.
  - split; [vm_compute; reflexivity|]. exists (350 * Second). split; [reflexivity|].
    vm_compute. discriminate.
Defined.

End Anomaly.
