(* ===== verification/TokenBucket.v ===== *)
(** * The per-stream rate limiter ([tokenBucket] in [internal/receiver/grpc.go])

    A token bucket in [float64] arithmetic, used by one goroutine.  [now] is a
    reading of the monotonic clock.  The increment [tokens += seconds * rate]
    rounds the product and the sum separately, as on amd64. *)

From S2P Require Import Prelude GoFloat GoTime StoreData.
Import GoFloat GoTime.

Module TokenBucket.

Definition streamEventsRateLimit : Q := 2000.
Definition streamEventsRateBurst : Q := 4000.

Record tokenBucket := MkBucket {
  tokens : Q;
  max : Q;
  rate : Q;
  last : Z;
}.

Definition newTokenBucket (ratePerSec burst : Q) (now : Z) : tokenBucket :=
  MkBucket burst burst ratePerSec now.

Definition allow (now : Z) (b : tokenBucket) : bool * tokenBucket :=
  let t1 := fadd (tokens b) (fmul (Seconds (Sub now (last b))) (rate b)) in
  let t2 := if flt (max b) t1 then max b else t1 in
  if flt t2 1 then (false, MkBucket t2 (max b) (rate b) now)
  else (true, MkBucket (fsub t2 1) (max b) (rate b) now).

(** The answers to a sequence of calls. *)
Fixpoint allow_all (ts : list Z) (b : tokenBucket) : list bool * tokenBucket :=
  match ts with
  | [] => ([], b)
  | t :: ts =>
      let '(ok, b1) := allow t b in
      let '(oks, b2) := allow_all ts b1 in
      (ok :: oks, b2)
  end.

Lemma allow_all_app ts ts' b :
  allow_all (ts ++ ts') b =
  (let '(oks, b1) := allow_all ts b in let '(oks', b2) := allow_all ts' b1 in (oks ++ oks', b2)).
Proof.
  revert b. induction ts as [|t ts IH]; intros b; simpl; [by destruct (allow_all ts' b)|].
  destruct (allow t b) as [ok b1]. rewrite IH. destruct (allow_all ts b1) as [oks b2].
  by destruct (allow_all ts' b2).
Qed.

(** Clock readings that do not decrease, from [t] on. *)
Fixpoint nondecreasing (t : Z) (ts : list Z) : Prop :=
  match ts with
  | [] => True
  | t' :: ts => t <= t' ∧ nondecreasing t' ts
  end.

Definition allowed (oks : list bool) : nat := length (filter (λ b, b = true) oks).

(** ** Elapsed time in seconds *)

Lemma Second_pos : (0 < inject_Z Second)%Q.
Proof. done. Qed.

Lemma quot_rem_seconds d :
  0 <= d →
  0 <= Z.quot d Second ∧ 0 <= Z.rem d Second ∧
  (inject_Z (Z.quot d Second) + inject_Z (Z.rem d Second) / inject_Z Second
   == inject_Z d / inject_Z Second)%Q.
Proof.
  intros Hd. split; [|split].
  - by apply Z.quot_pos.
  - by apply Z.rem_nonneg.
  - rewrite (Z.quot_rem' d Second) at 3. rewrite inject_Z_plus, inject_Z_mult. field. done.
Qed.

Lemma inject_nonneg z : 0 <= z → (0 <= inject_Z z)%Q.
Proof. intros H. change 0%Q with (inject_Z 0). by rewrite <-Zle_Qle. Qed.

(** [Seconds] is the exact number of seconds up to three roundings. *)
Lemma Seconds_bounds d :
  0 <= d →
  let s := (inject_Z d / inject_Z Second)%Q in
  (0 <= Seconds d ∧ s - s * (4 * eps) <= Seconds d <= s + s * (4 * eps))%Q.
Proof.
  intros Hd s. destruct (quot_rem_seconds d Hd) as (Hq & Hr & Heq). fold s in Heq.
  unfold Seconds, in_unit, fadd, fdiv, of_int.
  apply inject_nonneg in Hq, Hr.
  set (q := inject_Z (Z.quot d Second)) in *. set (r := inject_Z (Z.rem d Second)) in *.
  pose proof (round64_nonneg q Hq) as Bq. pose proof (round64_ge0 q Hq) as Pq.
  pose proof (round64_nonneg r Hr) as Br. pose proof (round64_ge0 r Hr) as Pr.
  set (q1 := round64 q) in *. set (r1 := round64 r) in *.
  change (inject_Z Second) with (1000000000 # 1)%Q in *.
  assert (r / (1000000000 # 1) == r * (1 # 1000000000))%Q as E1 by field.
  assert (0 <= r1 / (1000000000 # 1))%Q as Hr1.
  { assert (r1 / (1000000000 # 1) == r1 * (1 # 1000000000))%Q as -> by field. lra. }
  assert (r1 / (1000000000 # 1) == r1 * (1 # 1000000000))%Q as E2 by field.
  pose proof (round64_nonneg _ Hr1) as Bd. pose proof (round64_ge0 _ Hr1) as Pd.
  set (r2 := round64 (r1 / (1000000000 # 1))) in *. rewrite E2 in Bd, Hr1. rewrite E1 in Heq.
  assert (0 <= q1 + r2)%Q as Hs by lra.
  pose proof (round64_nonneg _ Hs) as Bs. pose proof (round64_ge0 _ Hs) as Ps.
  set (res := round64 (q1 + r2)) in *. unfold eps in *.
  split; [done|]. rewrite <-Heq. lra.
Qed.

(** ** One call *)

Definition bucket_ok (b : tokenBucket) : Prop :=
  max b = streamEventsRateBurst ∧ rate b = streamEventsRateLimit ∧
  (0 <= tokens b <= 4000)%Q.

(** Seconds between two clock readings, exactly. *)
Definition elapsed (t t' : Z) : Q := inject_Z (t' - t) / inject_Z Second.

Lemma elapsed_nonneg t t' : t <= t' → (0 <= elapsed t t')%Q.
Proof. intros H. apply Qle_shift_div_l; [done|]. rewrite Qmult_0_l. apply inject_nonneg. lia. Qed.

Lemma elapsed_sub t t' : t <= t' → (inject_Z (Sub t' t) / inject_Z Second <= elapsed t t')%Q.
Proof.
  intros H. unfold elapsed. apply Qmult_le_compat_r; [|done]. rewrite <-Zle_Qle.
  unfold Sub, sat64, min_int64, max_int64. lia.
Qed.

Lemma Sub_nonneg t t' : t <= t' → 0 <= Sub t' t.
Proof. intros H. unfold Sub, sat64, min_int64, max_int64. lia. Qed.

(** What the bucket holds before the call decides: the refilled and clamped
    number of tokens. *)
Definition refilled (now : Z) (b : tokenBucket) : Q :=
  let t1 := fadd (tokens b) (fmul (Seconds (Sub now (last b))) (rate b)) in
  if flt (max b) t1 then max b else t1.

Lemma refilled_bounds now b :
  bucket_ok b → last b <= now →
  let D := (2000 * elapsed (last b) now)%Q in
  (0 <= refilled now b <= 4000 ∧
   refilled now b <= tokens b + 4000 * eps + D + D * (8 * eps))%Q.
Proof.
  intros (Hm & Hr & Ht) Hnow D. unfold refilled. rewrite Hm, Hr.
  unfold streamEventsRateBurst, streamEventsRateLimit, fadd, fmul.
  destruct (Seconds_bounds _ (Sub_nonneg _ _ Hnow)) as [Ps [_ Bs]].
  pose proof (elapsed_sub _ _ Hnow) as He. pose proof (elapsed_nonneg _ _ Hnow) as He0.
  set (S := Seconds (Sub now (last b))) in *. set (e := elapsed (last b) now) in *.
  set (e' := (inject_Z (Sub now (last b)) / inject_Z Second)%Q) in *.
  assert (0 <= S * 2000)%Q as H1 by lra.
  pose proof (round64_nonneg _ H1) as B1. pose proof (round64_ge0 _ H1) as P1.
  set (inc := round64 (S * 2000)) in *.
  assert (0 <= tokens b + inc)%Q as H2 by lra.
  pose proof (round64_nonneg _ H2) as B2. pose proof (round64_ge0 _ H2) as P2.
  set (t1 := round64 (tokens b + inc)) in *. unfold D, eps in *.
  destruct (flt 4000 t1) eqn:Hf; [apply flt_spec in Hf|apply flt_false in Hf]; split; lra.
Qed.

Lemma allow_refilled now b :
  allow now b
  = if flt (refilled now b) 1 then (false, MkBucket (refilled now b) (max b) (rate b) now)
    else (true, MkBucket (fsub (refilled now b) 1) (max b) (rate b) now).
Proof. reflexivity. Qed.

Lemma allow_step now b :
  bucket_ok b → last b <= now →
  let D := (2000 * elapsed (last b) now)%Q in
  let '(ok, b') := allow now b in
  bucket_ok b' ∧ last b' = now ∧
  (tokens b' + (if ok then 1 else 0) <= tokens b + D + D * (8 * eps) + 8000 * eps)%Q.
Proof.
  intros Hb Hnow D. destruct (refilled_bounds now b Hb Hnow) as [B0 B1]. fold D in B1.
  rewrite allow_refilled. set (x := refilled now b) in *.
  destruct Hb as (Hm & Hr & _).
  assert (0 <= D)%Q as HD by (unfold D; pose proof (elapsed_nonneg _ _ Hnow); lra).
  clearbody D. change (streamEventsRateBurst) with 4000%Q in *.
  destruct (flt x 1) eqn:Hf; [|apply flt_false in Hf].
  - split_and!; [split_and!; simpl; lra || done|done|]. simpl. unfold eps in *. lra.
  - assert (0 <= x - 1)%Q as H1 by lra. unfold fsub.
    pose proof (round64_nonneg _ H1) as B2. pose proof (round64_ge0 _ H1) as P2.
    assert (round64 (x - 1) <= inject_Z 4000)%Q as U2.
    { apply round64_le_int; [lia|done|]. change (inject_Z 4000) with 4000%Q. lra. }
    change (inject_Z 4000) with 4000%Q in U2.
    split_and!; [split_and!; simpl; lra || done|done|]. simpl. unfold eps in *. lra.
Qed.

(** A bucket that holds at least [k >= 1] tokens grants the call and still
    holds [k - 1]: counting whole tokens is exact. *)
Lemma allow_whole now b k :
  bucket_ok b → last b <= now → 1 <= k <= 4000 → (inject_Z k <= tokens b)%Q →
  (allow now b).1 = true ∧ (inject_Z (k - 1) <= tokens (allow now b).2)%Q.
Proof.
  intros (Hm & Hr & Ht) Hnow Hk Hkt.
  assert (inject_Z k <= refilled now b)%Q as Hx.
  { unfold refilled. rewrite Hm, Hr. unfold fadd, fmul.
    destruct (Seconds_bounds _ (Sub_nonneg _ _ Hnow)) as [Ps _].
    assert (0 <= Seconds (Sub now (last b)) * streamEventsRateLimit)%Q as H1
      by (unfold streamEventsRateLimit; lra).
    pose proof (round64_ge0 _ H1) as P1.
    destruct (flt _ _).
    - unfold streamEventsRateBurst. change 4000%Q with (inject_Z 4000). rewrite <-Zle_Qle. lia.
    - apply round64_ge_int; [lia|]. lra. }
  rewrite allow_refilled. assert (1 <= inject_Z k)%Q as H1.
  { change 1%Q with (inject_Z 1). rewrite <-Zle_Qle. lia. }
  destruct (flt (refilled now b) 1) eqn:Hf; [apply flt_spec in Hf; lra|].
  split; [done|]. simpl. apply round64_ge_int; [lia|].
  unfold Z.sub. rewrite inject_Z_plus, inject_Z_opp. change (inject_Z 1) with 1%Q. lra.
Qed.

(** A pause of a millisecond refills more than one token. *)
Lemma allow_after_pause now b :
  bucket_ok b → last b + Millisecond <= now → (allow now b).1 = true.
Proof.
  intros Hb Hnow. rewrite allow_refilled. destruct Hb as (Hm & Hr & Ht).
  assert (1 <= refilled now b)%Q as Hx.
  { unfold refilled. rewrite Hm, Hr. unfold fadd, fmul, streamEventsRateBurst, streamEventsRateLimit.
    assert (Millisecond <= Sub now (last b)) as Hd
      by (unfold Sub, sat64, min_int64, max_int64, Millisecond in *; lia).
    destruct (Seconds_bounds (Sub now (last b)) ltac:(unfold Millisecond in *; lia)) as [Ps [Bs _]].
    assert (1 # 1000 <= inject_Z (Sub now (last b)) / inject_Z Second)%Q as He.
    { apply Qle_shift_div_l; [done|]. 
      assert ((1 # 1000) * inject_Z Second == inject_Z Millisecond)%Q as -> by reflexivity.
      by rewrite <-Zle_Qle. }
    set (S := Seconds (Sub now (last b))) in *.
    set (e := (inject_Z (Sub now (last b)) / inject_Z Second)%Q) in *. clearbody e.
    assert (0 <= S * 2000)%Q as H1 by lra.
    pose proof (round64_nonneg _ H1) as [B1 _]. pose proof (round64_ge0 _ H1) as P1.
    set (inc := round64 (S * 2000)) in *.
    assert (0 <= tokens b + inc)%Q as H2 by lra.
    pose proof (round64_nonneg _ H2) as [B2 _].
    set (t1 := round64 (tokens b + inc)) in *. unfold eps in *.
    destruct (flt 4000 t1); lra. }
  destruct (flt (refilled now b) 1) eqn:Hf; [apply flt_spec in Hf; lra|done].
Qed.

(** ** A sequence of calls *)

Lemma allow_last now b : last (allow now b).2 = now.
Proof. rewrite allow_refilled. by destruct (flt _ _). Qed.

Lemma allow_all_last ts b oks b' :
  nondecreasing (last b) ts → allow_all ts b = (oks, b') → last b <= last b'.
Proof.
  revert b oks. induction ts as [|t ts IH]; intros b oks; cbn [allow_all nondecreasing].
  { intros _ [= <- <-]. lia. }
  intros [Ht Hts]. pose proof (allow_last t b) as Hl. destruct (allow t b) as [ok b1].
  destruct (allow_all ts b1) as [oks2 b2] eqn:E. intros [= <- <-]. simpl in Hl.
  rewrite <-Hl in Hts. specialize (IH b1 oks2 Hts E). lia.
Qed.

Lemma new_bucket_ok t : bucket_ok (newTokenBucket streamEventsRateLimit streamEventsRateBurst t).
Proof. split_and!; done. Qed.

Lemma allow_all_bound ts b :
  bucket_ok b → nondecreasing (last b) ts →
  let '(oks, b') := allow_all ts b in
  let D := (2000 * elapsed (last b) (last b'))%Q in
  bucket_ok b' ∧
  (tokens b' + inject_Z (Z.of_nat (allowed oks))
   <= tokens b + D + D * (8 * eps) + inject_Z (Z.of_nat (length ts)) * (8000 * eps))%Q.
Proof.
  revert b. induction ts as [|t ts IH]; intros b Hb Hts; cbn [allow_all].
  { split; [done|]. unfold elapsed. rewrite Z.sub_diag.
    assert (inject_Z 0 / inject_Z Second == 0)%Q as -> by done.
    change (allowed []) with 0%nat. cbn [length]. change (inject_Z (Z.of_nat 0)) with 0%Q. lra. }
  destruct Hts as [Ht Hts]. pose proof (allow_step t b Hb Ht) as Hst.
  destruct (allow t b) as [ok b1]. destruct Hst as (Hb1 & Hl1 & Hs).
  rewrite <-Hl1 in Hts. specialize (IH b1 Hb1 Hts). rewrite Hl1 in IH.
  destruct (allow_all ts b1) as [oks b2]. destruct IH as [Hb2 HIH]. split; [done|].
  assert (elapsed (last b) (last b2) == elapsed (last b) t + elapsed t (last b2))%Q as ->.
  { unfold elapsed. replace (last b2 - last b) with ((t - last b) + (last b2 - t)) by lia.
    rewrite inject_Z_plus. field. done. }
  assert (inject_Z (Z.of_nat (allowed (ok :: oks)))
          == (if ok then 1 else 0) + inject_Z (Z.of_nat (allowed oks)))%Q as ->.
  { unfold allowed. destruct ok; [|rewrite filter_cons_False by done; ring].
    rewrite filter_cons_True by done. cbn [length]. rewrite Nat2Z.inj_succ, <-Z.add_1_l, inject_Z_plus.
    reflexivity. }
  assert (inject_Z (Z.of_nat (length (t :: ts))) == 1 + inject_Z (Z.of_nat (length ts)))%Q as ->.
  { cbn [length]. rewrite Nat2Z.inj_succ, <-Z.add_1_l, inject_Z_plus. reflexivity. }
  unfold eps in *. lra.
Qed.

Lemma allow_all_whole ts b k :
  bucket_ok b → nondecreasing (last b) ts →
  Z.of_nat (length ts) <= k <= 4000 → (inject_Z k <= tokens b)%Q →
  Forall (λ ok, ok = true) (allow_all ts b).1.
Proof.
  revert b k. induction ts as [|t ts IH]; intros b k Hb Hts Hk Hkt; cbn [allow_all]; [by constructor|].
  cbn [length] in Hk. destruct Hts as [Ht Hts].
  destruct (allow_whole t b k Hb Ht ltac:(lia) Hkt) as [Hok Hk1].
  pose proof (allow_step t b Hb Ht) as Hst. destruct (allow t b) as [ok b1].
  destruct Hst as (Hb1 & Hl1 & _). simpl in *. rewrite <-Hl1 in Hts.
  specialize (IH b1 (k - 1) Hb1 Hts ltac:(lia) Hk1).
  destruct (allow_all ts b1) as [oks b2]. by constructor.
Qed.

(** ** Properties *)

Abbreviation stream_bucket t0 := (newTokenBucket streamEventsRateLimit streamEventsRateBurst t0).

(** The limiter limits: over any sequence of calls with a clock that does
    not run backwards, the number of granted events is at most the burst of
    4000 plus 2000 per elapsed second, up to the accumulated rounding of the
    [float64] arithmetic, below [10^-12] per call and below a part in [10^15]
    of the refill. *)
Lemma allow_all_rate t0 ts :
  nondecreasing t0 ts →
  let '(oks, b) := allow_all ts (stream_bucket t0) in
  let D := (2000 * elapsed t0 (last b))%Q in
  (inject_Z (Z.of_nat (allowed oks))
   <= 4000 + D + D * (1 # 10 ^ 15) + inject_Z (Z.of_nat (length ts)) * (1 # 10 ^ 12))%Q.
Proof.
  intros Hts. pose proof (allow_all_bound ts (stream_bucket t0) (new_bucket_ok t0) Hts) as H.
  destruct (allow_all ts (stream_bucket t0)) as [oks b] eqn:E. destruct H as [(_ & _ & Hb) H].
  simpl in *. assert (0 <= elapsed t0 (last b))%Q as He.
  { apply elapsed_nonneg. exact (allow_all_last ts (stream_bucket t0) oks b Hts E). }
  assert (0 <= inject_Z (Z.of_nat (length ts)))%Q as Hn by (apply inject_nonneg; lia).
  unfold streamEventsRateBurst, eps in *.
  change (10 ^ 15)%positive with 1000000000000000%positive.
  change (10 ^ 12)%positive with 1000000000000%positive. lra.
Qed.

(** The burst is guaranteed: the first 4000 calls on a new stream are all
    granted, however they are spaced. *)
Lemma burst_guaranteed t0 ts :
  nondecreasing t0 ts → (length ts <= 4000)%nat →
  Forall (λ ok, ok = true) (allow_all ts (stream_bucket t0)).1.
Proof.
  intros Hts Hlen. apply (allow_all_whole ts _ 4000); [apply new_bucket_ok|done|lia|done].
Qed.

(** The limiter recovers: whatever happened before on the stream, a call
    that comes at least one millisecond after the previous one is granted. *)
Lemma limiter_recovers t0 ts now :
  nondecreasing t0 ts →
  let b := (allow_all ts (stream_bucket t0)).2 in
  last b + Millisecond <= now →
  (allow now b).1 = true.
Proof.
  intros Hts b Hnow.
  pose proof (allow_all_bound ts (stream_bucket t0) (new_bucket_ok t0) Hts) as H.
  subst b. destruct (allow_all ts (stream_bucket t0)) as [oks b]. destruct H as [Hb _].
  simpl in Hnow |- *. by apply allow_after_pause.
Qed.

(** Ten calls, one per millisecond. *)
Definition calls_ex : list Z := (λ n, Z.of_nat n * Millisecond) <$> seq 0 10.

Lemma calls_ex_nondecreasing : nondecreasing 0 calls_ex.
Proof. repeat split; vm_compute; discriminate. Qed.

Lemma burst_guaranteed_witness :
  Forall (λ ok, ok = true) (allow_all calls_ex (stream_bucket 0)).1.
Proof. apply (burst_guaranteed 0 calls_ex calls_ex_nondecreasing). vm_compute. lia. Defined.

Lemma limiter_recovers_witness :
  (allow (10 * Millisecond) (allow_all calls_ex (stream_bucket 0)).2).1 = true.
Proof.
  apply (limiter_recovers 0 calls_ex (10 * Millisecond) calls_ex_nondecreasing).
  vm_compute. discriminate.
Defined.

End TokenBucket.
