(* ===== verification/Validate.v ===== *)
(** * Input validation of the gRPC service ([internal/receiver/grpc.go])

    The length and character-set checks [Register] and [StreamEvents] apply to
    the strings an agent sends.  A validator returns [None] for a nil error
    and the message of the first violation otherwise. *)

From S2P Require Import Prelude GoStrings GoNet Pb.
Import GoStrings GoNet Pb.

Module Validate.

Definition maxRegisterFieldLength : Z := 256.

Definition isPrintableASCII (s : string) : bool :=
  forallb (λ r, negb ((r <? 0x20) || (r >? 0x7e))) (runes s).

Record namedField := NamedField { fname : string; fvalue : string }.

Fixpoint validateFields (fields : list namedField) : option error :=
  match fields with
  | [] => None
  | f :: fields =>
      if len (fvalue f) >? maxRegisterFieldLength then
        Some (fname f +:+ " exceeds max length of " +:+ Itoa maxRegisterFieldLength +:+ " bytes")
      else if negb (isPrintableASCII (fvalue f)) then
        Some (fname f +:+ " must contain only printable ASCII characters")
      else validateFields fields
  end.

Definition validateIP (name value : string) : option error :=
  if value =s "" then None
  else if len value >? maxRegisterFieldLength then
    Some (name +:+ " exceeds max length of " +:+ Itoa maxRegisterFieldLength +:+ " bytes")
  else if negb (ParseIP value) then Some (name +:+ " is not a valid IP address")
  else None.

Definition validateRegisterRequest (req : RegisterRequest) : option error :=
  match validateFields
          [NamedField "node_id" (rq_NodeId req); NamedField "hostname" (rq_Hostname req);
           NamedField "version" (rq_Version req); NamedField "region" (rq_Region req)] with
  | Some err => Some err
  | None => validateIP "ip" (rq_Ip req)
  end.

Definition validateKernelEvent (e : KernelEvent) : option error :=
  let fields := [NamedField "node_id" (NodeId e); NamedField "event_id" (EventId e)] in
  if Type_ e =? EventType_EXEC then
    match GetExec e with
    | Some ex =>
        validateFields (fields ++
          [NamedField "comm" (ex_Comm ex); NamedField "cmdline" (ex_Cmdline ex);
           NamedField "cwd" (ex_Cwd ex)])
    | None => validateFields fields
    end
  else if Type_ e =? EventType_TCP then
    match GetTcp e with
    | Some t =>
        match validateFields (fields ++
                [NamedField "comm" (tcp_Comm t); NamedField "direction" (tcp_Direction t)]) with
        | Some err => Some err
        | None =>
            match validateIP "src_ip" (tcp_SrcIp t) with
            | Some err => Some err
            | None => validateIP "dst_ip" (tcp_DstIp t)
            end
        end
    | None => validateFields fields
    end
  else if Type_ e =? EventType_FILE then
    match GetFile e with
    | Some f =>
        validateFields (fields ++
          [NamedField "comm" (file_Comm f); NamedField "path" (file_Path f);
           NamedField "op" (file_Op f)])
    | None => validateFields fields
    end
  else validateFields fields.

(** ** What validation guarantees *)

(** At most 256 bytes, all of them printable ASCII. *)
Definition clean (s : string) : Prop :=
  (String.length s <= 256)%nat ∧ Forall (λ b, 0x20 <= b <= 0x7e) (bytes s).

Lemma printable_runes l k :
  Forall (λ b, 0 <= b < 256) l →
  k = O →
  forallb (λ r, negb ((r <? 0x20) || (r >? 0x7e))) (runes_from k l) = true ↔
  Forall (λ b, 0x20 <= b <= 0x7e) l.
Proof.
  intros Hl ->. induction Hl as [|b l Hb Hl IH]; cbn [runes_from].
  { split; [constructor|done]. }
  destruct (Z.lt_ge_cases b 0x80) as [Ha|Ha].
  - rewrite decode_ascii by done. cbn [pred forallb]. rewrite andb_true_iff, IH.
    rewrite Forall_cons, negb_true_iff, orb_false_iff, Z.ltb_ge, Z.gtb_ltb, Z.ltb_ge. tauto.
  - pose proof (decode_non_ascii b l Ha) as Hr. destruct (decode_rune b l) as [r w].
    cbn [forallb fst] in *. rewrite andb_true_iff, Forall_cons, negb_true_iff, orb_false_iff,
      Z.ltb_ge, Z.gtb_ltb, Z.ltb_ge. lia.
Qed.

Lemma isPrintableASCII_bytes s :
  isPrintableASCII s = true ↔ Forall (λ b, 0x20 <= b <= 0x7e) (bytes s).
Proof. apply printable_runes; [apply bytes_range|done]. Qed.

Lemma len_le s : (len s >? maxRegisterFieldLength) = false ↔ (String.length s <= 256)%nat.
Proof. unfold len, maxRegisterFieldLength. rewrite Z.gtb_ltb, Z.ltb_ge. lia. Qed.

Lemma validateFields_None fields :
  validateFields fields = None ↔ Forall (λ f, clean (fvalue f)) fields.
Proof.
  induction fields as [|f fields IH]; cbn [validateFields]; [by split; [constructor|]|].
  rewrite Forall_cons. unfold clean at 1. rewrite <-len_le, <-isPrintableASCII_bytes.
  destruct (len (fvalue f) >? maxRegisterFieldLength); [naive_solver|].
  destruct (isPrintableASCII (fvalue f)); simpl; naive_solver.
Qed.

Lemma validateIP_None name value :
  validateIP name value = None ↔ value = "" ∨ (String.length value <= 256)%nat ∧ ParseIP value = true.
Proof.
  unfold validateIP. case_bool_decide; [naive_solver|]. rewrite <-len_le.
  destruct (len value >? maxRegisterFieldLength); [naive_solver|].
  destruct (ParseIP value); simpl; naive_solver.
Qed.

Lemma validateIP_clean name value : validateIP name value = None → clean value.
Proof.
  intros [->|[Hlen Hp]]%validateIP_None; [split; [simpl; lia|constructor]|].
  split; [done|]. apply ParseIP_alphabet in Hp. eapply Forall_impl; [exact Hp|].
  apply addr_byte_printable.
Qed.

(** The strings of a kernel event that reach the store: the identifiers and
    the fields of the payload that its type selects. *)
Definition stored_strings (e : KernelEvent) : list string :=
  [NodeId e; EventId e] ++
  (if Type_ e =? EventType_EXEC then
     match GetExec e with Some x => [ex_Comm x; ex_Cmdline x; ex_Cwd x] | None => [] end
   else if Type_ e =? EventType_TCP then
     match GetTcp e with
     | Some t => [tcp_Comm t; tcp_Direction t; tcp_SrcIp t; tcp_DstIp t] | None => [] end
   else if Type_ e =? EventType_FILE then
     match GetFile e with Some f => [file_Comm f; file_Path f; file_Op f] | None => [] end
   else []).

Lemma fields_clean fields l :
  validateFields fields = None → l = fvalue <$> fields → Forall clean l.
Proof. intros H%validateFields_None ->. by rewrite Forall_fmap. Qed.

Lemma validateKernelEvent_clean e :
  validateKernelEvent e = None → Forall clean (stored_strings e).
Proof.
  unfold validateKernelEvent, stored_strings. intros H.
  destruct (Type_ e =? EventType_EXEC); [|destruct (Type_ e =? EventType_TCP);
    [|destruct (Type_ e =? EventType_FILE)]].
  - destruct (GetExec e); by eapply fields_clean.
  - destruct (GetTcp e) as [t|]; [|by eapply fields_clean].
    destruct (validateFields _) eqn:Hf; [done|].
    destruct (validateIP _ _) eqn:Hs; [done|]. apply validateIP_clean in Hs, H.
    change (Forall clean ([NodeId e; EventId e; tcp_Comm t; tcp_Direction t]
                          ++ [tcp_SrcIp t; tcp_DstIp t])).
    apply Forall_app. split; [by eapply fields_clean|]. by rewrite !Forall_cons.
  - destruct (GetFile e); by eapply fields_clean.
  - by eapply fields_clean.
Qed.

Lemma validateRegisterRequest_clean req :
  validateRegisterRequest req = None →
  Forall clean [rq_NodeId req; rq_Hostname req; rq_Version req; rq_Region req; rq_Ip req].
Proof.
  unfold validateRegisterRequest. destruct (validateFields _) eqn:Hf; [done|].
  intros Hip%validateIP_clean.
  change (Forall clean ([rq_NodeId req; rq_Hostname req; rq_Version req; rq_Region req]
                        ++ [rq_Ip req])).
  apply Forall_app. split; [by eapply fields_clean|]. by rewrite Forall_singleton.
Qed.

(** ** Properties *)

(** Ranging over runes decides printability by bytes: the loop over the
    decoded runes accepts a string, valid UTF-8 or not, exactly when each of
    its bytes is between 0x20 and 0x7e, so neither multi-byte characters nor
    malformed sequences slip through. *)
Lemma printable_iff_bytes s :
  isPrintableASCII s = true ↔ Forall (λ b, 0x20 <= b <= 0x7e) (bytes s).
Proof. apply isPrintableASCII_bytes. Qed.

(** Addresses are empty or those [net.ParseIP] accepts. *)
Definition addresses_ok (e : KernelEvent) : Prop :=
  ∀ t, Type_ e = EventType_TCP → GetTcp e = Some t →
    Forall (λ ip, ip = "" ∨ ParseIP ip = true) [tcp_SrcIp t; tcp_DstIp t].

Lemma validated_addresses e : validateKernelEvent e = None → addresses_ok e.
Proof.
  intros Hv t Ht Hg. unfold validateKernelEvent in Hv. rewrite Ht, Hg in Hv. cbn [Z.eqb EventType_EXEC EventType_TCP] in Hv.
  destruct (validateFields _); [done|]. destruct (validateIP "src_ip" _) eqn:Hs; [done|].
  apply validateIP_None in Hs, Hv. repeat (apply Forall_cons_2; [tauto|]). apply Forall_nil_2.
Qed.

Lemma clean_event_validated e :
  Forall clean (stored_strings e) → addresses_ok e → validateKernelEvent e = None.
Proof.
  unfold validateKernelEvent, stored_strings. intros Hc Hip. rewrite Forall_app in Hc.
  destruct Hc as [Hids Hc].
  assert (∀ fs l, Forall clean l → l = fvalue <$> fs →
    validateFields ([NamedField "node_id" (NodeId e); NamedField "event_id" (EventId e)] ++ fs)
    = None) as Hok.
  { intros fs l Hl ->. apply validateFields_None, Forall_app. split; [|by rewrite Forall_fmap in Hl].
    apply (Forall_fmap fvalue clean [NamedField "node_id" (NodeId e);
      NamedField "event_id" (EventId e)]), Hids. }
  destruct (Type_ e =? EventType_EXEC); [|destruct (Type_ e =? EventType_TCP) eqn:Ht;
    [|destruct (Type_ e =? EventType_FILE)]]; [..|by apply (Hok [] [])].
  - destruct (GetExec e); by (eapply Hok || eapply (Hok [])).
  - zbool. destruct (GetTcp e) as [t|] eqn:Hg; [|by apply (Hok [] [])].
    specialize (Hip t Ht Hg). inversion_clear Hip as [|?? I1 Hip']. inversion_clear Hip' as [|?? I2 _].
    change (Forall clean ([tcp_Comm t; tcp_Direction t] ++ [tcp_SrcIp t; tcp_DstIp t])) in Hc.
    apply Forall_app in Hc as [Hc Hc']. inversion_clear Hc' as [|?? H3 Hc'']. inversion_clear Hc'' as [|?? H4 _].
    rewrite (Hok _ [tcp_Comm t; tcp_Direction t]) by done.
    rewrite (proj2 (validateIP_None "src_ip" (tcp_SrcIp t))) by (unfold clean in H3; tauto).
    apply validateIP_None. unfold clean in H4. tauto.
  - destruct (GetFile e); by (eapply Hok || eapply (Hok [])).
Qed.

(** C23: Validation accepts exactly the events whose node id, event id and
    strings of the payload their type selects (addresses included) have at most
    256 bytes, all printable ASCII, and whose addresses are empty or valid IP
    addresses: nothing else reaches the store, and nothing else is refused. *)
Theorem validation_exact e :
  validateKernelEvent e = None ↔ Forall clean (stored_strings e) ∧ addresses_ok e.
Proof.
  split; [|intros []; by apply clean_event_validated].
  intros Hv. split; [by apply validateKernelEvent_clean|by apply validated_addresses].
Qed.

Definition tcp_ex : KernelEvent :=
  MkKernelEvent "e1" "web-01" 0 EventType_TCP
    (Some (KernelEvent_Tcp (MkTcp 1 "curl" "10.0.0.1" 3333 "2001:db8::1" 443 "outbound"))).

(** A connection that passes, and one to something that is no address. *)
Example tcp_ex_validated : validateKernelEvent tcp_ex = None.
Proof. vm_compute. reflexivity. Qed.

Example tcp_ex_refused :
  validateKernelEvent (MkKernelEvent "e1" "web-01" 0 EventType_TCP
    (Some (KernelEvent_Tcp (MkTcp 1 "curl" "10.0.0.1" 3333 "10.0.0.256" 443 "outbound")))) ≠ None.
Proof. vm_compute. discriminate. Qed.

End Validate.
