(* ===== verification/Codec.v ===== *)
(** * The records of the store as JSON

    [Codec] is what the store relies on: a record can be encoded and decoded,
    and the records in [codec_ok] survive.  The instances are [json.Marshal]
    and [json.Unmarshal] on [store.Event], [store.Alert] and
    [store.AgentToken], with the names their struct tags give the fields. *)

From S2P Require Import Prelude GoStrings GoTime GoJson GoTimeParse StoreData.
Import GoStrings GoTime GoJson GoTimeParse.

Class Codec (A : Type) := {
  marshal : A → result string;
  unmarshal : string → result A;
  codec_ok : A → Prop;
  codec_roundtrip : ∀ a, codec_ok a → ∃ t, marshal a = Ok t ∧ unmarshal t = Ok a;
}.

(** ** Fields *)

(** [time.Time.MarshalJSON] and [UnmarshalJSON]. *)
#[global] Instance year_ok_dec t : Decision (year_ok t).
Proof. unfold year_ok. apply _. Defined.

Definition marshal_time (t : Z) : result string :=
  if decide (year_ok t) then Ok (String quote (RFC3339Nano t +:+ String quote ""))
  else Err "Time.MarshalJSON: year outside of range [0,9999]".

Definition strip_quotes (s : string) : option string :=
  match s with
  | String q s' =>
      let n := pred (String.length s') in
      if decide (q = quote ∧ sdrop n s' = String quote "") then Some (String.substring 0 n s')
      else None
  | EmptyString => None
  end.

Definition decode_time (raw : string) (current : Z) : option Z :=
  if raw =s "null" then Some current else s ← strip_quotes raw; ParseRFC3339 s.

Definition decode_time_ptr (raw : string) : option (option Z) :=
  if raw =s "null" then Some None else Some <$> decode_time raw 0.

Definition decode_string (raw : string) (current : string) : option string :=
  match parse_document raw with
  | Some (JStr s) => Some s
  | Some JNull => Some current
  | _ => None
  end.

(** A raw message: nil is written as [null], anything else is compacted. *)
Definition marshal_raw (raw : string) : result string :=
  if raw =s "" then Ok "null" else compact raw.

(** ** Structs

    A struct's decoder sets, for each member, the field whose name matches the
    key up to case; other members are ignored, and an error in one of them is
    an error of the whole. *)

Fixpoint fold_key (l : list Z) : list Z :=
  match l with
  | 0xC5 :: 0xBF :: l => 0x73 :: fold_key l
  | 0xE2 :: ((0x84 :: 0xAA :: l) as l') => 0x6B :: fold_key l
  | b :: l => (if (0x41 <=? b) && (b <=? 0x5A) then b + 32 else b) :: fold_key l
  | [] => []
  end.

Definition field_setter (A : Type) : Type := string * (A → string → option A).

Definition field_index (names : list string) (key : string) : option nat :=
  fst <$> list_find (λ n, fold_key (bytes n) = fold_key (bytes key)) names.

Definition set_member {A} (fields : list (field_setter A)) (a : A) (kt : string * string) : option A :=
  match field_index (fields.*1) kt.1 ≫= λ i, fields !! i with
  | Some (_, set) => set a kt.2
  | None => Some a
  end.

Fixpoint set_members {A} (fields : list (field_setter A)) (a : A) (l : list (string * string)) : option A :=
  match l with
  | [] => Some a
  | kt :: l => a ← set_member fields a kt; set_members fields a l
  end.

Definition unmarshal_struct {A} (fields : list (field_setter A)) (zero : A) (s : string) : result A :=
  match (l ← members s; set_members fields zero l) with
  | Some a => Ok a
  | None => Err "json: cannot unmarshal"
  end.

(** ** The records *)

Definition event_fields : list (field_setter Event) :=
  [("event_id", λ e raw, s ← decode_string raw (ev_EventID e);
      Some (MkEvent s (ev_NodeID e) (ev_Timestamp e) (ev_Type e) (ev_Payload e)));
   ("node_id", λ e raw, s ← decode_string raw (ev_NodeID e);
      Some (MkEvent (ev_EventID e) s (ev_Timestamp e) (ev_Type e) (ev_Payload e)));
   ("timestamp", λ e raw, t ← decode_time raw (ev_Timestamp e);
      Some (MkEvent (ev_EventID e) (ev_NodeID e) t (ev_Type e) (ev_Payload e)));
   ("type", λ e raw, s ← decode_string raw (ev_Type e);
      Some (MkEvent (ev_EventID e) (ev_NodeID e) (ev_Timestamp e) s (ev_Payload e)));
   ("payload", λ e raw,
      Some (MkEvent (ev_EventID e) (ev_NodeID e) (ev_Timestamp e) (ev_Type e) raw))].

Definition marshal_event (e : Event) : result string :=
  ts ← marshal_time (ev_Timestamp e);
  payload ← marshal_raw (ev_Payload e);
  Ok (encode_object
    [("event_id", Quote (ev_EventID e)); ("node_id", Quote (ev_NodeID e)); ("timestamp", ts);
     ("type", Quote (ev_Type e)); ("payload", payload)]).

Definition unmarshal_event (s : string) : result Event :=
  unmarshal_struct event_fields (MkEvent "" "" 0 "" "") s.

Definition alert_fields : list (field_setter Alert) :=
  [("alert_id", λ a raw, s ← decode_string raw (al_AlertID a);
      Some (MkAlert s (al_RuleID a) (al_NodeID a) (al_EventID a) (al_Timestamp a) (al_Message a) (al_Severity a)));
   ("rule_id", λ a raw, s ← decode_string raw (al_RuleID a);
      Some (MkAlert (al_AlertID a) s (al_NodeID a) (al_EventID a) (al_Timestamp a) (al_Message a) (al_Severity a)));
   ("node_id", λ a raw, s ← decode_string raw (al_NodeID a);
      Some (MkAlert (al_AlertID a) (al_RuleID a) s (al_EventID a) (al_Timestamp a) (al_Message a) (al_Severity a)));
   ("event_id", λ a raw, s ← decode_string raw (al_EventID a);
      Some (MkAlert (al_AlertID a) (al_RuleID a) (al_NodeID a) s (al_Timestamp a) (al_Message a) (al_Severity a)));
   ("timestamp", λ a raw, t ← decode_time raw (al_Timestamp a);
      Some (MkAlert (al_AlertID a) (al_RuleID a) (al_NodeID a) (al_EventID a) t (al_Message a) (al_Severity a)));
   ("message", λ a raw, s ← decode_string raw (al_Message a);
      Some (MkAlert (al_AlertID a) (al_RuleID a) (al_NodeID a) (al_EventID a) (al_Timestamp a) s (al_Severity a)));
   ("severity", λ a raw, s ← decode_string raw (al_Severity a);
      Some (MkAlert (al_AlertID a) (al_RuleID a) (al_NodeID a) (al_EventID a) (al_Timestamp a) (al_Message a) s))].

Definition marshal_alert (a : Alert) : result string :=
  ts ← marshal_time (al_Timestamp a);
  Ok (encode_object
    [("alert_id", Quote (al_AlertID a)); ("rule_id", Quote (al_RuleID a)); ("node_id", Quote (al_NodeID a));
     ("event_id", Quote (al_EventID a)); ("timestamp", ts); ("message", Quote (al_Message a));
     ("severity", Quote (al_Severity a))]).

Definition unmarshal_alert (s : string) : result Alert :=
  unmarshal_struct alert_fields (MkAlert "" "" "" "" 0 "" "") s.

(** [store.AgentToken] ([internal/store/agenttoken.go]). *)
Record AgentToken := MkAgentToken {
  at_NodeID : string;
  at_TokenHash : string;
  at_IssuedAt : Z;
  at_RevokedAt : option Z;
}.

#[global] Instance AgentToken_eq_dec : EqDecision AgentToken.
Proof. solve_decision. Defined.

Definition token_fields : list (field_setter AgentToken) :=
  [("node_id", λ a raw, s ← decode_string raw (at_NodeID a);
      Some (MkAgentToken s (at_TokenHash a) (at_IssuedAt a) (at_RevokedAt a)));
   ("token_hash", λ a raw, s ← decode_string raw (at_TokenHash a);
      Some (MkAgentToken (at_NodeID a) s (at_IssuedAt a) (at_RevokedAt a)));
   ("issued_at", λ a raw, t ← decode_time raw (at_IssuedAt a);
      Some (MkAgentToken (at_NodeID a) (at_TokenHash a) t (at_RevokedAt a)));
   ("revoked_at", λ a raw, t ← decode_time_ptr raw;
      Some (MkAgentToken (at_NodeID a) (at_TokenHash a) (at_IssuedAt a) t))].

(** [revoked_at] has [omitempty]: a nil pointer is not written. *)
Definition marshal_token (a : AgentToken) : result string :=
  issued ← marshal_time (at_IssuedAt a);
  revoked ← match at_RevokedAt a with
            | None => Ok []
            | Some t => ts ← marshal_time t; Ok [("revoked_at", ts)]
            end;
  Ok (encode_object
    ([("node_id", Quote (at_NodeID a)); ("token_hash", Quote (at_TokenHash a)); ("issued_at", issued)]
     ++ revoked)).

Definition unmarshal_token (s : string) : result AgentToken :=
  unmarshal_struct token_fields (MkAgentToken "" "" 0 None) s.

(** ** Round trips *)

(** Characters a string literal contains as they are. *)
Definition plain_char (c : ascii) : bool :=
  (byte_val c <? 0x80) && (escape_ascii (byte_val c) =s String c "").

Fixpoint plain (s : string) : Prop :=
  match s with String c s => plain_char c = true ∧ plain s | EmptyString => True end.

Lemma escape_plain s : plain s → escape_from 0 s = s.
Proof.
  induction s as [|c s IH]; [done|]. intros [Hc Hs]. unfold plain_char in Hc. zbool.
  cbn [escape_from]. unfold escape_head. rewrite (proj2 (Z.ltb_lt _ _)) by done.
  rewrite H0. simpl. by rewrite IH.
Qed.

Lemma plain_digit d : 0 <= d <= 9 → plain_char (digit d) = true.
Proof.
  intros H. assert (d ∈ [0; 1; 2; 3; 4; 5; 6; 7; 8; 9]) as Hin.
  { rewrite !elem_of_cons, elem_of_nil. lia. }
  repeat (apply elem_of_cons in Hin as [->|Hin]; [reflexivity|]). by apply elem_of_nil in Hin.
Qed.

Lemma plain_pad w z s : plain s → plain (pad_dec w z s).
Proof.
  revert z s. induction w as [|w IH]; intros z s Hs; [done|]. simpl. apply IH. split; [|done].
  apply plain_digit. pose proof (Z.mod_pos_bound z 10 ltac:(lia)). lia.
Qed.

Lemma plain_frac prec v b s : plain s → plain (frac_digits prec v b s).
Proof.
  revert v b s. induction prec as [|prec IH]; intros v b s Hs; simpl; [by destruct b|].
  apply IH. destruct (_ || _); [|done]. split; [|done].
  apply plain_digit. pose proof (Z.mod_pos_bound v 10 ltac:(lia)). lia.
Qed.

Lemma plain_RFC3339Nano t : plain (RFC3339Nano t).
Proof.
  unfold RFC3339Nano, format_seconds.
  repeat (apply plain_pad; try (apply plain_frac; done); split; [done|]).
  apply plain_pad, plain_frac. done.
Qed.

(** A time's text is a string literal that needs no escapes. *)
Lemma time_text t : String quote (RFC3339Nano t +:+ String quote "") = Quote (RFC3339Nano t).
Proof. unfold Quote. by rewrite escape_plain by apply plain_RFC3339Nano. Qed.

Lemma strip_quotes_literal s : strip_quotes (String quote (s +:+ String quote "")) = Some s.
Proof.
  unfold strip_quotes.
  assert (pred (String.length (s +:+ String quote "")) = String.length s) as ->.
  { rewrite <-!length_bytes, bytes_app, length_app. simpl. lia. }
  rewrite decide_True.
  - f_equal. apply (inj bytes). by rewrite bytes_substring, bytes_app, <-length_bytes, take_app_length.
  - split; [done|]. apply (inj bytes). by rewrite bytes_sdrop, bytes_app, <-length_bytes, drop_app_length.
Qed.

Lemma decode_time_text t current :
  year_ok t → decode_time (String quote (RFC3339Nano t +:+ String quote "")) current = Some t.
Proof.
  intros Ht. unfold decode_time. rewrite bool_decide_eq_false_2 by done.
  rewrite strip_quotes_literal. simpl. by apply Parse_RFC3339Nano.
Qed.

Lemma marshal_time_ok t : year_ok t → marshal_time t = Ok (String quote (RFC3339Nano t +:+ String quote "")).
Proof. intros H. unfold marshal_time. by rewrite decide_True. Qed.

(** What is written for a string is read back with its invalid bytes replaced. *)
Lemma decode_string_written s current : decode_string (Quote s) current = Some (to_valid_utf8 s).
Proof. unfold decode_string. by rewrite (parse_document_Text (JStr (to_valid_utf8 s))) by apply Text_Quote. Qed.

Lemma decode_string_Quote s current : Valid_utf8 s → decode_string (Quote s) current = Some s.
Proof. intros Hs. rewrite decode_string_written. by rewrite Hs. Qed.

Lemma time_Text n t : ∃ v, Text n v (String quote (RFC3339Nano t +:+ String quote "")).
Proof. rewrite time_text. eauto using Text_Quote. Qed.

(** A payload the encoder leaves as it is: a compact text whose nesting [d]
    leaves room for the object around it. *)
Definition raw_ok (raw : string) : Prop :=
  raw ≠ "" ∧ Compact raw ∧
  ∃ d v, (d < maxNestingDepth)%nat ∧ (d <= String.length raw)%nat ∧ ∀ n, (d <= n)%nat → Text n v raw.

Lemma marshal_raw_ok raw : raw_ok raw → marshal_raw raw = Ok raw.
Proof.
  intros (Hne & Hc & d & v & Hd & Hlen & Hv). unfold marshal_raw. rewrite bool_decide_eq_false_2 by done.
  eapply compact_Text; [|done]. apply Hv. unfold nesting. lia.
Qed.

Definition event_ok (e : Event) : Prop :=
  Valid_utf8 (ev_EventID e) ∧ Valid_utf8 (ev_NodeID e) ∧ Valid_utf8 (ev_Type e) ∧
  year_ok (ev_Timestamp e) ∧ raw_ok (ev_Payload e).

Definition alert_ok (a : Alert) : Prop :=
  Forall Valid_utf8 [al_AlertID a; al_RuleID a; al_NodeID a; al_EventID a; al_Message a; al_Severity a] ∧
  year_ok (al_Timestamp a).

Definition token_ok (a : AgentToken) : Prop :=
  Valid_utf8 (at_NodeID a) ∧ Valid_utf8 (at_TokenHash a) ∧ year_ok (at_IssuedAt a) ∧
  match at_RevokedAt a with Some t => year_ok t | None => True end.

#[local] Ltac fields_ok :=
  repeat (constructor; [split; [done|first [by eauto using Text_Quote|by apply time_Text]]|]); try constructor.

Lemma set_members_cons {A} (fields : list (field_setter A)) a k t l i set name :
  field_index (fields.*1) k = Some i → fields !! i = Some (name, set) →
  set_members fields a ((k, t) :: l) = (a ← set a t; set_members fields a l).
Proof. intros Hi Hset. cbn [set_members]. unfold set_member. cbn [fst snd]. by rewrite Hi; simpl; rewrite Hset. Qed.

(** Decode the next member of an encoded struct. *)
#[local] Ltac next_member :=
  erewrite set_members_cons; [|vm_compute; reflexivity|reflexivity]; cbv beta;
  first [rewrite decode_string_Quote by done|rewrite decode_string_written|rewrite decode_time_text by done|idtac];
  cbn [mbind option_bind ev_EventID ev_NodeID ev_Timestamp ev_Type ev_Payload
       al_AlertID al_RuleID al_NodeID al_EventID al_Timestamp al_Message al_Severity
       at_NodeID at_TokenHash at_IssuedAt at_RevokedAt].

Lemma event_roundtrip e :
  event_ok e → ∃ t, marshal_event e = Ok t ∧ unmarshal_event t = Ok e.
Proof.
  destruct e as [id node ts ty raw]. unfold event_ok, marshal_event.
  cbn [ev_EventID ev_NodeID ev_Timestamp ev_Type ev_Payload].
  intros (H1 & H2 & H3 & Ht & Hraw). rewrite marshal_time_ok, marshal_raw_ok by done.
  cbn [mbind result_bind]. eexists; split; [reflexivity|]. unfold unmarshal_event, unmarshal_struct.
  destruct Hraw as (_ & _ & d & v & Hd & Hlen & Hv).
  rewrite members_encode_object; [cbn [mbind option_bind]; by repeat next_member|].
  fields_ok; [|constructor]. split; [done|]. exists v. apply Hv. unfold nesting.
  assert (String.length raw < String.length (encode_object
    [("event_id", Quote id); ("node_id", Quote node);
     ("timestamp", String quote (RFC3339Nano ts +:+ String quote "")); ("type", Quote ty); ("payload", raw)]))%nat; [|lia].
  unfold encode_object, encode_members.
  repeat (rewrite <-?length_bytes, ?bytes_app, ?length_app; cbn [bytes length]). lia.
Qed.

Lemma alert_roundtrip a :
  alert_ok a → ∃ t, marshal_alert a = Ok t ∧ unmarshal_alert t = Ok a.
Proof.
  destruct a as [id rule node ev ts msg sev]. unfold alert_ok, marshal_alert.
  cbn [al_AlertID al_RuleID al_NodeID al_EventID al_Timestamp al_Message al_Severity].
  intros [Hu Ht]. repeat (apply Forall_cons in Hu as [? Hu]).
  rewrite marshal_time_ok by done.
  cbn [mbind result_bind]. eexists; split; [reflexivity|]. unfold unmarshal_alert, unmarshal_struct.
  rewrite members_encode_object by fields_ok. cbn [mbind option_bind].
  by repeat next_member.
Qed.

(** A token record as it is read back, whatever its texts. *)
Definition token_read (a : AgentToken) : AgentToken :=
  MkAgentToken (to_valid_utf8 (at_NodeID a)) (to_valid_utf8 (at_TokenHash a)) (at_IssuedAt a) (at_RevokedAt a).

Lemma token_written a :
  year_ok (at_IssuedAt a) → match at_RevokedAt a with Some t => year_ok t | None => True end →
  ∃ t, marshal_token a = Ok t ∧ unmarshal_token t = Ok (token_read a).
Proof.
  destruct a as [node hash ts rev]. unfold token_read, marshal_token.
  cbn [at_NodeID at_TokenHash at_IssuedAt at_RevokedAt].
  intros Ht Hr. rewrite marshal_time_ok by done.
  destruct rev as [tr|]; [rewrite marshal_time_ok by done|];
    cbn [mbind result_bind app]; (eexists; split; [reflexivity|]); unfold unmarshal_token, unmarshal_struct;
    (rewrite members_encode_object by fields_ok); cbn [mbind option_bind]; repeat next_member; [|done].
  unfold decode_time_ptr. rewrite bool_decide_eq_false_2 by done.
  by rewrite decode_time_text by done.
Qed.

Lemma token_roundtrip a :
  token_ok a → ∃ t, marshal_token a = Ok t ∧ unmarshal_token t = Ok a.
Proof.
  intros (H1 & H2 & Ht & Hr). destruct (token_written a Ht Hr) as (t & Hm & Hu). exists t. split; [done|].
  rewrite Hu. unfold token_read. rewrite H1, H2. by destruct a.
Qed.

#[global] Instance Event_codec : Codec Event :=
  {| marshal := marshal_event; unmarshal := unmarshal_event; codec_ok := event_ok;
     codec_roundtrip := event_roundtrip |}.

#[global] Instance Alert_codec : Codec Alert :=
  {| marshal := marshal_alert; unmarshal := unmarshal_alert; codec_ok := alert_ok;
     codec_roundtrip := alert_roundtrip |}.

#[global] Instance AgentToken_codec : Codec AgentToken :=
  {| marshal := marshal_token; unmarshal := unmarshal_token; codec_ok := token_ok;
     codec_roundtrip := token_roundtrip |}.
