(* ===== verification/GoJsonList.v ===== *)
(** * JSON arrays of records

    How [json.Marshal] writes a slice and [json.Decoder.Decode] reads one, for
    records with a [Codec], and that the second inverts the first. *)

From S2P Require Import Prelude GoStrings GoTime GoJson StoreData Codec.
Import GoStrings GoTime GoJson.

Module GoJsonList.

Definition encode_array (ts : list string) : string := String "[" (Join ts "," +:+ "]").

(** [Decode] into a slice: the first value of the input, [null] or an array;
    what follows it is not looked at. *)
Definition elements (s : string) : option (list string) :=
  '(v, _) ← parse_value (nesting s) s;
  match v with
  | JNull => Some []
  | JArr _ =>
      match skip_ws s with
      | String _ s' => fst <$> array_body (raw_value (pred (nesting s))) s'
      | EmptyString => None
      end
  | _ => None
  end.

Fixpoint unmarshal_all {A} `{Codec A} (ts : list string) : result (list A) :=
  match ts with
  | [] => Ok []
  | t :: ts => a ← unmarshal t; l ← unmarshal_all ts; Ok (a :: l)
  end.

Definition decode_slice {A} `{Codec A} (s : string) : result (list A) :=
  match elements s with
  | Some ts => unmarshal_all ts
  | None => Err "json: cannot decode"
  end.

(** ** Reading back an array *)

Lemma Join_cons t ts rest :
  Join (t :: ts) "," +:+ String "]" rest =
  t +:+ match ts with [] => String "]" rest | _ => String "," (Join ts "," +:+ String "]" rest) end.
Proof. destruct ts as [|u ts]; [done|]. cbn [Join]. by rewrite !string_app_assoc. Qed.

Lemma elements_loop_Join {A} (val : string → option (A * string)) ts vs fuel rest :
  Forall2 (λ t v, ∀ rest, delim rest → val (t +:+ rest) = Some (v, rest)) ts vs →
  ts ≠ [] → (length ts <= fuel)%nat →
  elements_loop val fuel (Join ts "," +:+ String "]" rest) = Some (vs, rest).
Proof.
  intros Hl. revert fuel. induction Hl as [|t v ts vs Hv Hl IH]; intros fuel Hne Hf; [done|].
  destruct fuel as [|fuel]; [simpl in Hf; lia|]. rewrite Join_cons. cbn [elements_loop].
  destruct ts as [|u ts].
  - rewrite Hv by (simpl; auto). apply Forall2_nil_inv_l in Hl as ->. done.
  - rewrite Hv by (simpl; auto). simpl. rewrite IH; [done|done|simpl in *; lia].
Qed.

(** A text starts with neither space nor a closing bracket. *)
Lemma Text_head n v t rest :
  Text n v t → ∃ c r, t +:+ rest = String c r ∧ is_space c = false ∧ c ≠ "]"%char.
Proof.
  intros [Hh Ht]. destruct t as [|c t]; [done|]. exists c, (t +:+ rest). split; [done|]. split; [done|].
  intros ->. specialize (Ht "" I). rewrite string_app_nil in Ht. destruct n; vm_compute in Ht; discriminate Ht.
Qed.

Lemma array_body_Join {A} (val : string → option (A * string)) n ts vs rest :
  Forall (λ t, ∃ v, Text n v t) ts →
  Forall2 (λ t v, ∀ rest, delim rest → val (t +:+ rest) = Some (v, rest)) ts vs →
  array_body val (Join ts "," +:+ String "]" rest) = Some (vs, rest).
Proof.
  intros Ht Hl. destruct ts as [|t ts].
  { apply Forall2_nil_inv_l in Hl as ->. done. }
  apply Forall_cons in Ht as [[v Hv] _]. unfold array_body.
  rewrite (elements_loop_Join val _ vs _ rest Hl); [|done|].
  - rewrite Join_cons. destruct (Text_head n v t (match ts with [] => String "]" rest
      | _ => String "," (Join ts "," +:+ String "]" rest) end) Hv) as (c & r & -> & Hs & Hc).
    simpl. rewrite Hs. by destruct c as [[] [] [] [] [] [] [] []].
  - clear. assert (∀ us, (length us <= S (length (bytes (Join us ","))))%nat) as Hm.
    { induction us as [|u us IH]; [simpl; lia|]. destruct us as [|u' us]; [simpl; lia|].
      change (Join (u :: u' :: us) ",") with (u +:+ "," +:+ Join (u' :: us) ",").
      rewrite !bytes_app, !length_app. cbn [length bytes] in *. lia. }
    specialize (Hm (t :: ts)). rewrite <-length_bytes, bytes_app, length_app. cbn [length bytes] in *. lia.
Qed.

(** A text of nesting [d] is read with any nesting from [d] on. *)
Definition text_within (d : nat) (t : string) : Prop := ∃ v, ∀ n, (d <= n)%nat → Text n v t.

Lemma elements_array ts d :
  (S d <= maxNestingDepth)%nat → Forall (λ t, text_within d t ∧ (d <= String.length t)%nat) ts →
  elements (encode_array ts) = Some ts.
Proof.
  intros Hd Hts. set (s := encode_array ts).
  assert (∃ k, nesting s = S k ∧ (ts ≠ [] → (d <= k)%nat)) as (k & Hk & Hdk).
  { unfold nesting, s, encode_array. cbn [String.length]. exists (pred (Nat.min maxNestingDepth (S (String.length (Join ts "," +:+ "]"))))).
    split; [unfold maxNestingDepth; lia|]. intros Hne. destruct ts as [|t ts]; [done|].
    apply Forall_cons in Hts as [[_ Hlen] _]. rewrite (Join_cons t ts "").
    rewrite <-length_bytes in Hlen |- *. rewrite bytes_app, length_app. lia. }
  assert (Forall (λ t, ∃ v, Text k v t) ts) as Hk'.
  { destruct ts as [|t0 ts0]; [constructor|]. eapply Forall_impl; [exact Hts|]. intros t [[v Hv] _].
    exists v. apply Hv, Hdk. done. }
  assert (∃ vs, Forall2 (λ t v, ∀ rest, delim rest → parse_value k (t +:+ rest) = Some (v, rest)) ts vs) as [vs Hvs].
  { clear -Hk'. induction Hk' as [|t ts [v [_ Hv]] _ [vs IH]]; [by exists []|]. exists (v :: vs). by constructor. }
  unfold elements. rewrite Hk. unfold s, encode_array. cbn [pred].
  assert (∀ x, parse_value (S k) (String "[" x) = ('(l, r) ← array_body (parse_value k) x; Some (JArr l, r)))
    as -> by reflexivity.
  rewrite (array_body_Join (parse_value k) k ts vs "" Hk' Hvs). simpl.
  rewrite (array_body_Join (raw_value k) k ts ts "" Hk'); [done|].
  clear -Hk'. induction Hk' as [|t ts [v Hv] _ IH]; constructor; [|done].
  intros rest Hr. by eapply raw_value_Text.
Qed.

(** ** Slices of records *)

Fixpoint marshal_all {A} `{Codec A} (l : list A) : result (list string) :=
  match l with
  | [] => Ok []
  | a :: l => t ← marshal a; ts ← marshal_all l; Ok (t :: ts)
  end.

(** [json.Marshal] of a slice that is not nil. *)
Definition marshal_slice {A} `{Codec A} (l : list A) : result string :=
  ts ← marshal_all l; Ok (encode_array ts).

(** A record whose text, of nesting [d], decodes to it. *)
Definition listable {A} `{Codec A} (d : nat) (a : A) : Prop :=
  ∃ t, marshal a = Ok t ∧ unmarshal t = Ok a ∧ text_within d t ∧ (d <= String.length t)%nat.

Lemma slice_roundtrip {A} `{Codec A} d (l : list A) :
  (S d <= maxNestingDepth)%nat → Forall (listable d) l →
  ∃ s, marshal_slice l = Ok s ∧ decode_slice s = Ok l.
Proof.
  intros Hd Hl. unfold marshal_slice, decode_slice.
  assert (∃ ts, marshal_all l = Ok ts ∧ unmarshal_all ts = Ok l ∧
            Forall (λ t, text_within d t ∧ (d <= String.length t)%nat) ts) as (ts & Hm & Hu & Hts).
  { induction Hl as [|a l (t & Ha & Hu & Ht & Hlen) Hl (ts & IHm & IHu & IHt)]; [by exists []|].
    exists (t :: ts). cbn [marshal_all unmarshal_all]. rewrite Ha, Hu. cbn [mbind result_bind].
    rewrite IHm, IHu. split; [done|]. split; [done|]. by constructor. }
  rewrite Hm. cbn [mbind result_bind]. eexists. split; [reflexivity|]. by rewrite (elements_array ts d).
Qed.

Lemma decode_null {A} `{Codec A} : decode_slice (A := A) "null" = Ok [].
Proof. reflexivity. Qed.

(** *** Texts of structs *)

Lemma Quote_within d s : text_within d (Quote s).
Proof. eexists. intros n _. apply Text_Quote. Qed.

Lemma time_within d t : text_within d (String quote (RFC3339Nano t +:+ String quote "")).
Proof. rewrite time_text. apply Quote_within. Qed.

Lemma object_within d l :
  Forall (λ kt, Valid_utf8 kt.1 ∧ text_within d kt.2) l → text_within (S d) (encode_object l).
Proof.
  intros Hl.
  assert (∃ vs, ∀ n, (d <= n)%nat → Forall2 (λ kt kv, to_valid_utf8 kt.1 = kv.1 ∧ Text n kv.2 kt.2) l vs) as [vs Hvs].
  { induction Hl as [|[k t] l [Hk [v Hv]] Hl [vs IH]]; [by exists []|].
    exists ((k, v) :: vs). intros n Hn. constructor; [|auto]. split; [done|by apply Hv]. }
  exists (JObj vs). intros [|n] Hn; [lia|]. apply Text_object, Hvs. lia.
Qed.

Lemma encode_object_length l : (2 <= String.length (encode_object l))%nat.
Proof.
  unfold encode_object. cbn [String.length]. rewrite <-length_bytes, bytes_app, length_app. cbn [bytes length]. lia.
Qed.

#[local] Ltac members_within :=
  repeat (apply Forall_cons_2; [split; [reflexivity|first [apply Quote_within|apply time_within|done]]|]);
  apply Forall_nil_2.

Lemma event_listable e : event_ok e → text_within 1 (ev_Payload e) → listable 2 e.
Proof.
  intros He Hp. destruct (event_roundtrip e He) as (t & Hm & Hu). exists t. split; [exact Hm|]. split; [exact Hu|].
  destruct He as (_ & _ & _ & Ht & Hraw). unfold marshal_event in Hm.
  rewrite marshal_time_ok, marshal_raw_ok in Hm by done. injection Hm as <-.
  split; [|apply encode_object_length]. apply object_within. members_within.
Qed.

Lemma alert_listable a : alert_ok a → listable 1 a.
Proof.
  intros Ha. destruct (alert_roundtrip a Ha) as (t & Hm & Hu). exists t. split; [exact Hm|]. split; [exact Hu|].
  destruct Ha as [_ Ht]. unfold marshal_alert in Hm. rewrite marshal_time_ok in Hm by done. injection Hm as <-.
  split; [apply object_within; members_within|]. etrans; [|apply encode_object_length]. lia.
Qed.

End GoJsonList.
