(* ===== verification/NodeCodec.v ===== *)
(** * Registry entries as JSON

    [json.Marshal] and [json.Unmarshal] on [registry.AgentNode], whose field
    [inactiveSince] is not exported and never written. *)

From S2P Require Import Prelude GoStrings GoTime GoJson StoreData Codec GoJsonList Registry.
Import GoStrings GoTime GoJson GoJsonList Registry.

Definition zero_node : AgentNode := MkAgentNode "" "" "" "" "" 0 0 "" 0.

Definition node_fields : list (field_setter AgentNode) :=
  [("node_id", λ n raw, s ← decode_string raw (NodeID n);
      Some (MkAgentNode s (Hostname n) (IP n) (Version n) (Region n) (Registered n) (LastSeen n) (Status n) (inactiveSince n)));
   ("hostname", λ n raw, s ← decode_string raw (Hostname n);
      Some (MkAgentNode (NodeID n) s (IP n) (Version n) (Region n) (Registered n) (LastSeen n) (Status n) (inactiveSince n)));
   ("ip", λ n raw, s ← decode_string raw (IP n);
      Some (MkAgentNode (NodeID n) (Hostname n) s (Version n) (Region n) (Registered n) (LastSeen n) (Status n) (inactiveSince n)));
   ("version", λ n raw, s ← decode_string raw (Version n);
      Some (MkAgentNode (NodeID n) (Hostname n) (IP n) s (Region n) (Registered n) (LastSeen n) (Status n) (inactiveSince n)));
   ("region", λ n raw, s ← decode_string raw (Region n);
      Some (MkAgentNode (NodeID n) (Hostname n) (IP n) (Version n) s (Registered n) (LastSeen n) (Status n) (inactiveSince n)));
   ("registered", λ n raw, t ← decode_time raw (Registered n);
      Some (MkAgentNode (NodeID n) (Hostname n) (IP n) (Version n) (Region n) t (LastSeen n) (Status n) (inactiveSince n)));
   ("last_seen", λ n raw, t ← decode_time raw (LastSeen n);
      Some (MkAgentNode (NodeID n) (Hostname n) (IP n) (Version n) (Region n) (Registered n) t (Status n) (inactiveSince n)));
   ("status", λ n raw, s ← decode_string raw (Status n);
      Some (MkAgentNode (NodeID n) (Hostname n) (IP n) (Version n) (Region n) (Registered n) (LastSeen n) s (inactiveSince n)))].

Definition marshal_node (n : AgentNode) : result string :=
  registered ← marshal_time (Registered n);
  last_seen ← marshal_time (LastSeen n);
  Ok (encode_object
    [("node_id", Quote (NodeID n)); ("hostname", Quote (Hostname n)); ("ip", Quote (IP n));
     ("version", Quote (Version n)); ("region", Quote (Region n)); ("registered", registered);
     ("last_seen", last_seen); ("status", Quote (Status n))]).

Definition unmarshal_node (s : string) : result AgentNode := unmarshal_struct node_fields zero_node s.

(** An entry as others see it. *)
Definition exposed (n : AgentNode) : AgentNode :=
  MkAgentNode (NodeID n) (Hostname n) (IP n) (Version n) (Region n) (Registered n) (LastSeen n) (Status n) 0.

Definition json_node_ok (n : AgentNode) : Prop :=
  Forall Valid_utf8 [NodeID n; Hostname n; IP n; Version n; Region n; Status n] ∧
  year_ok (Registered n) ∧ year_ok (LastSeen n) ∧ inactiveSince n = 0.

#[local] Ltac next_node_member :=
  erewrite set_members_cons; [|vm_compute; reflexivity|reflexivity]; cbv beta;
  first [rewrite decode_string_Quote by done|rewrite decode_time_text by done];
  cbn [mbind option_bind NodeID Hostname IP Version Region Registered LastSeen Status inactiveSince].

Lemma node_roundtrip n :
  json_node_ok n → ∃ t, marshal_node n = Ok t ∧ unmarshal_node t = Ok n.
Proof.
  destruct n as [id host ip ver reg t1 t2 stat inact]. unfold json_node_ok, marshal_node.
  cbn [NodeID Hostname IP Version Region Registered LastSeen Status inactiveSince].
  intros (Hu & H1 & H2 & ->). repeat (apply Forall_cons in Hu as [? Hu]).
  rewrite !marshal_time_ok by done. cbn [mbind result_bind]. eexists; split; [reflexivity|].
  unfold unmarshal_node, unmarshal_struct, zero_node.
  rewrite members_encode_object; [cbn [mbind option_bind]; by repeat next_node_member|].
  repeat (constructor; [split; [done|first [by eauto using Text_Quote|by apply time_Text]]|]); try constructor.
Qed.

#[global] Instance AgentNode_codec : Codec AgentNode :=
  {| marshal := marshal_node; unmarshal := unmarshal_node; codec_ok := json_node_ok;
     codec_roundtrip := node_roundtrip |}.

Lemma node_listable n : json_node_ok n → listable 1 n.
Proof.
  intros Hn. destruct (node_roundtrip n Hn) as (t & Hm & Hu). exists t. split; [exact Hm|]. split; [exact Hu|].
  destruct Hn as (_ & H1 & H2 & _). unfold marshal_node in Hm. rewrite !marshal_time_ok in Hm by done.
  injection Hm as <-. split; [|etrans; [|apply encode_object_length]; lia].
  apply object_within.
  repeat (apply Forall_cons_2; [split; [reflexivity|first [apply Quote_within|apply time_within]]|]); apply Forall_nil_2.
Qed.

Lemma marshal_exposed n : marshal_node (exposed n) = marshal_node n.
Proof. reflexivity. Qed.

Lemma marshal_all_exposed l : marshal_all (exposed <$> l) = marshal_all l.
Proof.
  induction l as [|n l IH]; [done|]. cbn [fmap list_fmap marshal_all]. rewrite IH.
  change (marshal (exposed n)) with (marshal n). done.
Qed.

(** [Registry.MarshalJSON]. *)
Definition MarshalJSON (o : map_order string AgentNode) (r : Registry) : result string := marshal_slice (List o r).

(** It decodes to the registry's entries, less the one unexported field. *)
Lemma MarshalJSON_decodes o r :
  Forall (λ n, json_node_ok (exposed n)) (List o r) →
  ∃ s, MarshalJSON o r = Ok s ∧ decode_slice s = Ok (exposed <$> List o r).
Proof.
  intros Hok. destruct (slice_roundtrip 1 (exposed <$> List o r)) as (s & Hm & Hd).
  - unfold maxNestingDepth. lia.
  - apply Forall_fmap. eapply Forall_impl; [exact Hok|]. intros n. apply node_listable.
  - exists s. split; [|exact Hd]. revert Hm. unfold MarshalJSON, marshal_slice. by rewrite marshal_all_exposed.
Qed.

(** ** Registries whose entries can be read back *)

Definition readable (r : Registry) : Prop := map_Forall (λ _ n, json_node_ok (exposed n)) (nodes r).

(** The operations that keep them so: valid texts and times in range. *)
Definition op_readable (x : Z * op) : Prop :=
  match x with
  | (now, ORegister id host ip ver region) => year_ok now ∧ Forall Valid_utf8 [id; host; ip; ver; region]
  | (now, OHeartbeat _) => year_ok now
  | (_, OSetInactive _) | (_, OCheck _) => True
  end.

Lemma exposed_readable id host ip ver region registered seen status inactive :
  Forall Valid_utf8 [id; host; ip; ver; region; status] → year_ok registered → year_ok seen →
  json_node_ok (exposed (MkAgentNode id host ip ver region registered seen status inactive)).
Proof. done. Qed.

#[local] Ltac texts_valid := rewrite ?Forall_cons, ?Forall_nil in *; cbn [NodeID Hostname IP Version Region Status exposed] in *; tauto.

Lemma op_readable_step timeout evictAfter now p r :
  op_readable (now, p) → readable r → readable (apply_op timeout evictAfter now p r).
Proof.
  intros Hp Hr. assert (Valid_utf8 "active" ∧ Valid_utf8 "inactive") as [Ha Hi] by done.
  destruct p as [id host ip ver region|id|id|o]; cbn [apply_op op_readable] in *.
  - unfold Register. destruct Hp as [Hy Hv]. destruct (id =s ""); [done|].
    assert (Valid_utf8 (normalizeRegion region)) as Hreg by (unfold normalizeRegion; case_match; [done|texts_valid]).
    destruct (nodes r !! id) as [n|] eqn:Hn; cbn [snd]; apply map_Forall_insert_2; try done.
    + destruct (Hr id n Hn) as (Hu & H1 & H2 & _). apply exposed_readable; [texts_valid|done..].
    + apply exposed_readable; [texts_valid|done..].
  - unfold Heartbeat. destruct (nodes r !! id) as [n|] eqn:Hn; [|done]. apply map_Forall_insert_2; [|done].
    destruct (Hr id n Hn) as (Hu & H1 & H2 & _). apply exposed_readable; [texts_valid|done..].
  - unfold SetInactive. destruct (nodes r !! id) as [n|] eqn:Hn; [|done]. apply map_Forall_insert_2; [|done].
    destruct (Hr id n Hn) as (Hu & H1 & H2 & _). apply exposed_readable; [texts_valid|done..].
  - intros id n'. rewrite markStaleInactive_lookup. intros (n & Hn & Hmark)%bind_Some.
    pose proof (Hr id n Hn) as Hok. unfold mark_node in Hmark. repeat case_match; simplify_eq; try done;
      destruct Hok as (Hu & H1 & H2 & _); (apply exposed_readable; [texts_valid|done..]).
Qed.

Lemma run_readable timeout evictAfter tr r :
  Forall op_readable tr → readable r → readable (run timeout evictAfter tr r).
Proof.
  intros Htr. revert r. induction Htr as [|[now p] tr Hp _ IH]; intros r Hr; [done|]. apply IH. by apply op_readable_step.
Qed.
