(* ===== verification/Badger.v ===== *)
(** * The interface of BadgerDB

    BadgerDB is third-party code: the store is verified against this
    interface, which states the documented behaviour the store relies on.  A
    read transaction sees the live entries in byte order of their keys; a
    write transaction that commits replaces one entry and leaves the others
    alone; one that fails changes nothing the store can see (it returns no new
    database).  An entry with a time to live is visible until it expires.
    Garbage collection of the value log reclaims space and changes nothing a
    later read can see.

    [Reference] is an implementation, used to run the store on concrete data
    and to show that the interface can be met. *)

From S2P Require Import Prelude GoStrings GoTime.
Import GoStrings GoTime.

(** Badger keeps expiry times in whole seconds. *)
Definition expires_at (now ttl : Z) : Z := (now + ttl) / Second.
Definition live (expiry : option Z) (now : Z) : bool :=
  match expiry with None => true | Some x => now / Second <? x end.

(** What a read of an item's value returns: the bytes, or an I/O error. *)
Abbreviation item := (string * result string)%type.

Class Badger := {
  DB : Type;
  (** The live items at a time, as a forward iterator visits them. *)
  items : DB → Z → list item;
  (** [db.Update] of a transaction that sets one entry, with an optional TTL. *)
  set : DB → Z → string → string → option Z → result DB;
  (** [db.RunValueLogGC]: one file of the value log is rewritten, or an error
      says there is none worth it, or that the collection is rejected. *)
  collect : DB → Z → result DB;
  (** Keys are distinct and ascending. *)
  items_sorted : ∀ db now, StronglySorted (λ a b, str_lt a.1 b.1) (items db now);
  (** A committed write is visible from then on, until it expires. *)
  items_set : ∀ db now k v ttl db' now' k' r,
    set db now k v ttl = Ok db' → now <= now' →
    (k', r) ∈ items db' now' ↔
    (k' = k ∧ r = Ok v ∧ live (expires_at now <$> ttl) now' = true) ∨
    (k' ≠ k ∧ (k', r) ∈ items db now');
  items_collect : ∀ db now db' now', collect db now = Ok db' → now <= now' → items db' now' = items db now';
}.

Section Items.
Context `{Badger}.

Lemma items_functional db now k r r' :
  (k, r) ∈ items db now → (k, r') ∈ items db now → r = r'.
Proof.
  pose proof (items_sorted db now) as Hs. induction Hs as [|[k0 r0] l Hs IH Hall]; [set_solver|].
  rewrite Forall_forall in Hall. rewrite !elem_of_cons.
  intros [[= -> ->]|H1] [[= ]|H2]; subst; try done; [..|by apply IH].
  - destruct (str_lt_irrefl k0). by apply (Hall _ H2).
  - destruct (str_lt_irrefl k0). by apply (Hall _ H1).
Qed.

(** [tx.Get]: the value of a key, [None] for [ErrKeyNotFound]. *)
Definition get (db : DB) (now : Z) (k : string) : option (result string) :=
  snd <$> (snd <$> list_find (λ i, i.1 = k) (items db now)).

Lemma get_Some db now k r : get db now k = Some r ↔ (k, r) ∈ items db now.
Proof.
  unfold get. split.
  - destruct (list_find _ _) as [[i [k' r']]|] eqn:Hf; simpl; [|done]. intros [= <-].
    apply list_find_Some in Hf as (Hi & Hk & _). simpl in Hk. subst. by eapply list_elem_of_lookup_2.
  - intros Hin. destruct (list_find_elem_of (λ i, i.1 = k) _ _ Hin eq_refl) as [[i [k' r']] Hf].
    rewrite Hf. simpl. apply list_find_Some in Hf as (Hi & Hk & _). simpl in Hk. subst.
    f_equal. eapply items_functional; [by eapply list_elem_of_lookup_2|done].
Qed.

Lemma get_set db now k v ttl db' now' k' :
  set db now k v ttl = Ok db' → now <= now' →
  get db' now' k' =
  if decide (k' = k) then
    if live (expires_at now <$> ttl) now' then Some (Ok v) else None
  else get db now' k'.
Proof.
  intros Hset Hnow. apply option_eq. intros r. rewrite get_Some, items_set by done.
  destruct (decide (k' = k)) as [->|Hne].
  - destruct (live _ _); naive_solver.
  - rewrite get_Some. naive_solver.
Qed.

(** Iteration over the keys with a prefix, forward from [Seek(prefix)] and
    backward from [Seek(append(prefix, 0xFF))], while
    [ValidForPrefix(prefix)]. *)
Definition seek_prefix (prefix : string) (l : list item) : list item :=
  keep_while (λ i, HasPrefix i.1 prefix) (skip_while (λ i, bool_decide (str_lt i.1 prefix)) l).

Definition seek_prefix_rev (prefix : string) (l : list item) : list item :=
  keep_while (λ i, HasPrefix i.1 prefix)
    (skip_while (λ i, bool_decide (str_lt (prefix +:+ of_bytes [0xFF]) i.1)) (reverse l)).

Definition prefix_items (prefix : string) (db : DB) (now : Z) : list item :=
  filter (λ i, HasPrefix i.1 prefix = true) (items db now).

Lemma seek_prefix_items prefix db now :
  seek_prefix prefix (items db now) = prefix_items prefix db now.
Proof.
  apply (keep_skip_filter (λ a b, str_lt a.1 b.1)); [apply items_sorted|..].
  - intros [k r] Hlt%bool_decide_eq_true_1 _. simpl in *.
    apply not_true_iff_false. intros [rest ->]%HasPrefix_true. by apply prefix_le in Hlt.
  - intros [k r] [k' r'] Hlt _ _ Hge%bool_decide_eq_false_1 Hp. simpl in *.
    apply not_true_iff_false. intros [rest ->]%HasPrefix_true. by apply prefix_lt in Hlt.
  - intros [k r] [k' r'] Hlt _ _ Hge%bool_decide_eq_false_1. simpl in *.
    apply bool_decide_eq_false_2. intros Hlt'. by apply Hge, (str_lt_trans _ k').
Qed.

Lemma lt_ff p rest :
  HasPrefix (p +:+ rest) (p +:+ of_bytes [0xFF]) = false → str_lt rest (of_bytes [0xFF]).
Proof.
  intros Hp. destruct rest as [|c rest]; [done|].
  destruct (Z.eq_dec (byte_val c) 255) as [Hc|Hc].
  - exfalso. apply not_true_iff_false in Hp. apply Hp, HasPrefix_true. exists rest.
    apply (inj bytes). rewrite !bytes_app, <-app_assoc. f_equal. simpl. by rewrite Hc.
  - apply str_lt_head. pose proof (byte_val_range c).
    change (byte_val (byte_of 0xFF)) with 255. lia.
Qed.

Lemma StronglySorted_reverse {A} (R : relation A) l :
  StronglySorted R l → StronglySorted (flip R) (reverse l).
Proof.
  induction 1 as [|x l Hs IH Hx]; [constructor|]. rewrite reverse_cons.
  apply StronglySorted_app_2; [|done|repeat constructor].
  intros y z Hy ->%list_elem_of_singleton. rewrite Forall_forall in Hx.
  apply Hx. by rewrite <-elem_of_reverse.
Qed.

(** Both bounds delimit the prefix when no key continues it with the byte 0xFF. *)
Lemma seek_prefix_rev_items prefix db now :
  (∀ k r, (k, r) ∈ items db now → HasPrefix k (prefix +:+ of_bytes [0xFF]) = false) →
  seek_prefix_rev prefix (items db now) = reverse (prefix_items prefix db now).
Proof.
  intros Hff. unfold prefix_items. rewrite <-filter_reverse.
  assert (∀ k r rest, (k, r) ∈ reverse (items db now) → k = prefix +:+ rest →
            str_lt k (prefix +:+ of_bytes [0xFF])) as Hbelow.
  { intros k r rest Hin ->. rewrite elem_of_reverse in Hin. apply Hff in Hin.
    by apply str_lt_app, (lt_ff prefix). }
  apply (keep_skip_filter (flip (λ a b, str_lt a.1 b.1)));
    [apply StronglySorted_reverse, items_sorted|..].
  - intros [k r] Hlt%bool_decide_eq_true_1 Hin. simpl in *.
    apply not_true_iff_false. intros [rest Hk]%HasPrefix_true.
    apply (str_lt_irrefl k). eapply str_lt_trans; [by eapply Hbelow|done].
  - intros [k r] [k' r'] Hlt Hin _ Hge%bool_decide_eq_false_1 Hp. simpl in *.
    apply not_true_iff_false. intros [rest ->]%HasPrefix_true.
    destruct (str_lt_total k (prefix +:+ of_bytes [0xFF])) as [Hk|[->|?]]; [|by rewrite HasPrefix_app in Hp|done].
    apply prefix_lt in Hk; [|done]. apply (prefix_le prefix rest).
    by eapply str_lt_trans.
  - intros [k r] [k' r'] Hlt _ _ Hge%bool_decide_eq_false_1. simpl in *.
    apply bool_decide_eq_false_2. intros Hlt'. by apply Hge, (str_lt_trans _ k').
Qed.

End Items.

(** ** A reference implementation: a map from keys to values with their expiry *)

Module Reference.

Abbreviation entries := (gmap string (string * option Z)).

Definition visible (m : entries) (now : Z) (k : string) : option item :=
  match m !! k with
  | Some (v, expiry) => if live expiry now then Some (k, Ok v) else None
  | None => None
  end.

Definition ref_items (m : entries) (now : Z) : list item :=
  omap (visible m now) (sort_Strings (elements (dom m))).

Definition ref_set (m : entries) (now : Z) (k v : string) (ttl : option Z) : result entries :=
  if k =s "" then Err "Key cannot be empty" else Ok (<[k := (v, expires_at now <$> ttl)]> m).

Lemma elem_of_ref_items m now k r :
  (k, r) ∈ ref_items m now ↔
  ∃ v expiry, m !! k = Some (v, expiry) ∧ live expiry now = true ∧ r = Ok v.
Proof.
  unfold ref_items, visible. rewrite list_elem_of_omap. split.
  - intros (k' & _ & H). destruct (m !! k') as [[v e]|] eqn:Hk; [|done].
    destruct (live e now) eqn:?; simplify_eq. eauto 10.
  - intros (v & e & Hk & Hl & ->). exists k. rewrite sort_Strings_Permutation, elem_of_elements, elem_of_dom.
    split; [by eexists|]. by rewrite Hk, Hl.
Qed.

Lemma le_str_lt s t : String.le s t → s ≠ t → str_lt s t.
Proof.
  intros Hle Hne. destruct (str_lt_total s t) as [?|[?|Hgt]]; [done..|].
  exfalso. unfold str_lt in Hgt. unfold String.le in Hle. 
  unfold String.leb in Hle. rewrite String.compare_antisym, Hgt in Hle. done.
Qed.

Lemma ref_items_sorted m now : StronglySorted (λ a b, str_lt a.1 b.1) (ref_items m now).
Proof.
  unfold ref_items.
  pose proof (sort_Strings_Sorted (elements (dom m))) as Hs.
  assert (NoDup (sort_Strings (elements (dom m)))) as Hnd
    by (rewrite sort_Strings_Permutation; apply NoDup_elements).
  induction Hs as [|k l Hs IH Hk]; [constructor|]. apply NoDup_cons in Hnd as [Hnin Hnd].
  assert (∀ k x, visible m now k = Some x → x.1 = k) as Hkey.
  { intros k' x. unfold visible. destruct (m !! k') as [[v e]|]; [|done].
    by destruct (live e now); intros [= <-]. }
  simpl. destruct (visible m now k) as [x|] eqn:Hx; [|by apply IH].
  constructor; [by apply IH|]. apply Forall_forall. intros y Hy.
  apply list_elem_of_omap in Hy as (k' & Hin & Hy). rewrite (Hkey _ _ Hx), (Hkey _ _ Hy).
  rewrite Forall_forall in Hk. apply le_str_lt; [by apply Hk|]. by intros ->.
Qed.

Lemma ref_items_set m now k v ttl m' now' k' r :
  ref_set m now k v ttl = Ok m' → now <= now' →
  (k', r) ∈ ref_items m' now' ↔
  (k' = k ∧ r = Ok v ∧ live (expires_at now <$> ttl) now' = true) ∨
  (k' ≠ k ∧ (k', r) ∈ ref_items m now').
Proof.
  unfold ref_set. case_bool_decide; [done|]. intros [= <-] _. rewrite !elem_of_ref_items.
  destruct (decide (k' = k)) as [->|Hne].
  - rewrite lookup_insert_eq. naive_solver.
  - rewrite lookup_insert_ne by done. naive_solver.
Qed.

(** Collection drops the expired entries, if there are any. *)
Definition alive (now : Z) (e : string * (string * option Z)) : Prop := live e.2.2 now = true.
#[global] Instance alive_dec now e : Decision (alive now e) := decide (_ = true).

Definition ref_collect (m : entries) (now : Z) : result entries :=
  if decide (filter (alive now) m = m)
  then Err "Value log GC attempt didn't result in any cleanup" else Ok (filter (alive now) m).

Lemma ref_collect_Ok m now m' : ref_collect m now = Ok m' → m' = filter (alive now) m ∧ m' ≠ m.
Proof. unfold ref_collect. case_decide; [done|]. by intros [= <-]. Qed.

Lemma live_earlier expiry now now' : now <= now' → live expiry now' = true → live expiry now = true.
Proof.
  intros Hn. destruct expiry as [x|]; [|done]. simpl. rewrite !Z.ltb_lt.
  assert (now / Second <= now' / Second) by (by apply Z.div_le_mono). lia.
Qed.

Lemma sorted_NoDup (l : list item) : StronglySorted (λ a b, str_lt a.1 b.1) l → NoDup l.
Proof.
  intros Hs. apply (NoDup_fmap_1 fst). eapply StronglySorted_irrefl_NoDup; [apply str_lt_irrefl|].
  eapply StronglySorted_fmap, Hs. done.
Qed.

Lemma ref_items_collect m now m' now' :
  ref_collect m now = Ok m' → now <= now' → ref_items m' now' = ref_items m now'.
Proof.
  intros [-> _]%ref_collect_Ok Hn.
  apply (StronglySorted_unique_strong (λ a b, str_lt a.1 b.1)); [|apply ref_items_sorted..|].
  - intros x y _ _ Hxy Hyx. destruct (str_lt_irrefl x.1). by eapply str_lt_trans.
  - apply list.NoDup_Permutation; [by apply sorted_NoDup, ref_items_sorted..|]. intros [k r].
    rewrite !elem_of_ref_items. setoid_rewrite map_lookup_filter_Some.
    split; [naive_solver|]. intros (v & e & Hk & Hl & ->). exists v, e. split; [|done]. split; [done|].
    by eapply live_earlier.
Qed.

Definition badger : Badger :=
  {| DB := entries; items := ref_items; set := ref_set; collect := ref_collect;
     items_sorted := ref_items_sorted; items_set := ref_items_set; items_collect := ref_items_collect |}.

End Reference.
