(* ===== verification/Store.v ===== *)
(** * The event and alert store ([internal/store/badger.go])

    Over any database that meets the [Badger] interface, and the JSON codecs
    of [Codec].

    A call's [schedule] says how [runWithContext] ended: the database
    operation first, or the context, in which case the operation goes on in
    the background.  A write left behind is kept in [pending] until
    [background] runs it; a read left behind has no effect.

    [SaveEvent] reads the clock twice: [received] for the key, and, inside the
    transaction, [now], from which the entry's expiry is counted. *)

From S2P Require Import Prelude GoStrings GoTime GoJson GoTimeParse StoreData Codec Badger.
Import GoStrings GoTime GoJson GoTimeParse.

Module Store.

Section Operations.
Context `{Badger}.

Definition DefaultRetention : Z := 7 * 24 * Hour.
Definition maxNodeFilterScan : Z := 10000.

Record write := Write { w_key : string; w_val : string; w_ttl : option Z }.

Record Store := MkStore {
  db : DB;
  retention : Z;
  counters : gmap string Z;
  pending : list write;
}.

Definition with_db (s : Store) (d : DB) : Store :=
  MkStore d (retention s) (counters s) (pending s).

(** [s.counters[t]++]: a missing entry reads as 0. *)
Definition incr (m : gmap string Z) (t : string) : gmap string Z :=
  <[t := wrap64 (default 0 (m !! t) + 1)]> m.

Definition with_incr (s : Store) (t : string) : Store :=
  MkStore (db s) (retention s) (incr (counters s) t) (pending s).

(** ** Running a transaction under a context *)

Inductive schedule :=
| Completes
| Cancelled (ctxErr : error).

Definition commit (w : write) (now : Z) (s : Store) : result unit * Store :=
  match set (db s) now (w_key w) (w_val w) (w_ttl w) with
  | Ok d => (Ok tt, with_db s d)
  | Err e => (Err e, s)
  end.

(** [runWithContext] around a [db.Update] that sets one entry. *)
Definition run_write (sch : schedule) (w : write) (now : Z) (s : Store) : result unit * Store :=
  match sch with
  | Completes => commit w now s
  | Cancelled e => (Err e, MkStore (db s) (retention s) (counters s) (pending s ++ [w]))
  end.

(** [runWithContext] around a [db.View]. *)
Definition run_read {A} (sch : schedule) (r : result A) : result A :=
  match sch with Completes => r | Cancelled e => Err e end.

(** A write left behind by its caller ends; its result is discarded. *)
Definition background (i : nat) (now : Z) (s : Store) : Store :=
  match pending s !! i with
  | Some w => (commit w now (MkStore (db s) (retention s) (counters s) (delete i (pending s)))).2
  | None => s
  end.

(** One call of [db.RunValueLogGC] by the store's collector goroutine. *)
Definition RunValueLogGC (now : Z) (s : Store) : result unit * Store :=
  match collect (db s) now with
  | Ok d => (Ok tt, with_db s d)
  | Err e => (Err e, s)
  end.

(** ** Opening: the counters are seeded from the stored events *)

Fixpoint load_loop (l : list item) (m : gmap string Z) : result (gmap string Z) :=
  match l with
  | [] => Ok m
  | (_, v) :: l => v ← v; e ← unmarshal v; load_loop l (incr m (ev_Type e))
  end.

Definition loadCounters (now : Z) (s : Store) : result Store :=
  m ← load_loop (seek_prefix "event:" (items (db s) now)) (counters s);
  Ok (MkStore (db s) (retention s) m (pending s)).

Definition New (open : result DB) (now : Z) : result Store :=
  d ← open;
  loadCounters now
    (MkStore d DefaultRetention (<["exec" := 0]> (<["tcp" := 0]> (<["file" := 0]> ∅))) []).

(** ** Events and alerts *)

Definition event_key (received : Z) (id : string) : string :=
  "event:" +:+ RFC3339Nano received +:+ ":" +:+ id.

Definition SaveEvent (sch : schedule) (received now : Z) (e : Event) (s : Store) : result unit * Store :=
  match marshal e with
  | Err err => (Err err, s)
  | Ok val =>
      match run_write sch (Write (event_key received (ev_EventID e)) val (Some (retention s))) now s with
      | (Err err, s) => (Err err, s)
      | (Ok _, s) => (Ok tt, with_incr s (ev_Type e))
      end
  end.

Definition alert_key (a : Alert) : string :=
  "alert:" +:+ RFC3339Nano (al_Timestamp a) +:+ ":" +:+ al_AlertID a.

Definition SaveAlert (sch : schedule) (now : Z) (a : Alert) (s : Store) : result unit * Store :=
  match marshal a with
  | Err err => (Err err, s)
  | Ok val => run_write sch (Write (alert_key a) val (Some (retention s))) now s
  end.

(** The loop of [ListEvents] and [ListAlerts], from the newest key down. *)
Fixpoint list_loop {A} `{Codec A} (node_of : A → string) (node : string) (limit scanned : Z)
    (acc : list A) (l : list item) : result (list A) :=
  match l with
  | [] => Ok acc
  | (_, v) :: l =>
      if Z.of_nat (length acc) <? limit then
        if (node <>s "") && (maxNodeFilterScan <=? scanned) then Ok acc
        else
          v ← v; a ← unmarshal v;
          if (node <>s "") && (node_of a <>s node)
          then list_loop node_of node limit (scanned + 1) acc l
          else list_loop node_of node limit (scanned + 1) (acc ++ [a]) l
      else Ok acc
  end.

Definition ListEvents (sch : schedule) (now : Z) (node : string) (limit : Z) (s : Store) : result (list Event) :=
  run_read sch (list_loop ev_NodeID node limit 0 [] (seek_prefix_rev "event:" (items (db s) now))).

Definition ListAlerts (sch : schedule) (now : Z) (node : string) (limit : Z) (s : Store) : result (list Alert) :=
  run_read sch (list_loop al_NodeID node limit 0 [] (seek_prefix_rev "alert:" (items (db s) now))).

(** [Stats] copies the counters. *)
Definition Stats (s : Store) : gmap string Z := counters s.

(** ** The listing loop *)

(** What the item's value decodes to. *)
Definition decodes {A} `{Codec A} (i : item) (a : A) : Prop := (v ← i.2; unmarshal v) = Ok a.

Definition for_node {A} (node_of : A → string) (node : string) (a : A) : Prop :=
  node = "" ∨ node_of a = node.

#[global] Instance for_node_dec {A} (node_of : A → string) node a : Decision (for_node node_of node a).
Proof. unfold for_node. apply _. Defined.

(** The records the scan looks at: all of them, or the first
    [maxNodeFilterScan] under a node filter. *)
Definition window {A} (node : string) (scanned : Z) (l : list A) : list A :=
  if node =s "" then l else take (Z.to_nat (maxNodeFilterScan - scanned)) l.

Lemma list_loop_spec {A} `{Codec A} (node_of : A → string) node limit l vs :
  Forall2 decodes l vs →
  ∀ scanned acc,
  list_loop node_of node limit scanned acc l =
  Ok (acc ++ take (Z.to_nat (limit - Z.of_nat (length acc)))
               (filter (for_node node_of node) (window node scanned vs))).
Proof.
  assert (∀ B (x : B) n l, take (Z.to_nat n) (x :: l) =
            if 0 <? n then x :: take (Z.to_nat (n - 1)) l else []) as Htake.
  { intros B x n l'. destruct (Z.ltb_spec 0 n).
    - replace (Z.to_nat n) with (S (Z.to_nat (n - 1))) by lia. done.
    - by replace (Z.to_nat n) with 0%nat by lia. }
  induction 1 as [|[k v] a l vs Hd Hl IH]; intros scanned acc.
  { unfold window. simpl. rewrite take_nil. case_bool_decide; by rewrite filter_nil, take_nil, app_nil_r. }
  unfold decodes in Hd. simpl in Hd. cbn [list_loop].
  destruct (Z.ltb_spec (Z.of_nat (length acc)) limit) as [Hlim|Hlim]; cycle 1.
  { replace (Z.to_nat (limit - _)) with 0%nat by lia. by rewrite take_0, app_nil_r. }
  destruct v as [v|e]; [|done]. simpl in Hd |- *. rewrite Hd. simpl. rewrite !IH.
  unfold window. destruct (decide (node = "")) as [->|Hnode].
  - rewrite !bool_decide_eq_true_2 by done. simpl.
    rewrite filter_cons_True by (by left). rewrite Htake, (proj2 (Z.ltb_lt _ _)) by lia.
    rewrite length_app. simpl. rewrite <-app_assoc. do 4 f_equal. lia.
  - rewrite !bool_decide_eq_false_2 by done. simpl.
    destruct (Z.leb_spec maxNodeFilterScan scanned) as [Hcap|Hcap].
    { replace (Z.to_nat (maxNodeFilterScan - scanned)) with 0%nat by lia.
      by rewrite take_0, filter_nil, take_nil, app_nil_r. }
    rewrite Htake, (proj2 (Z.ltb_lt _ _)) by lia.
    replace (maxNodeFilterScan - scanned - 1) with (maxNodeFilterScan - (scanned + 1)) by lia.
    destruct (decide (node_of a = node)) as [Ha|Ha].
    + rewrite bool_decide_eq_true_2 by done. simpl. rewrite filter_cons_True by (by right).
      rewrite Htake, (proj2 (Z.ltb_lt _ _)) by lia.
      rewrite length_app. simpl. rewrite <-app_assoc. do 4 f_equal. lia.
    + rewrite bool_decide_eq_false_2 by done. simpl.
      by rewrite filter_cons_False by (intros [?|?]; done).
Qed.

(** ** Keys *)

Lemma pad_dec_head w z s : ∃ d t, 0 <= d <= 9 ∧ pad_dec (S w) z s = String (digit d) t.
Proof.
  revert z s. induction w as [|w IH]; intros z s.
  - pose proof (Z.mod_pos_bound z 10 ltac:(lia)). exists (z mod 10), s. split; [lia|done].
  - destruct (IH (z / 10) (String (digit (z mod 10)) s)) as (d & t & Hd & Ht). eauto.
Qed.

Lemma string_app_inj (p a b : string) : p +:+ a = p +:+ b → a = b.
Proof.
  intros H1%(f_equal bytes). apply (inj bytes). rewrite !bytes_app in H1. by apply (inj (bytes p ++.)) in H1.
Qed.

Lemma event_key_prefix t id : HasPrefix (event_key t id) "event:" = true.
Proof. apply (HasPrefix_app "event:"). Qed.

(** No key continues with the byte a listing seeks from. *)
Lemma timed_key_ff p t tail : HasPrefix (p +:+ RFC3339Nano t +:+ tail) (p +:+ of_bytes [0xFF]) = false.
Proof.
  apply not_true_iff_false. intros [r Hr]%HasPrefix_true.
  assert (∃ d u, 0 <= d <= 9 ∧ RFC3339Nano t = String (digit d) u) as (d & u & Hd & Hu)
    by (unfold RFC3339Nano, format_seconds; apply pad_dec_head).
  rewrite string_app_assoc in Hr. apply string_app_inj in Hr.
  rewrite Hu in Hr. injection Hr as Hc _. apply (f_equal byte_val) in Hc. unfold digit in Hc.
  rewrite byte_val_of in Hc by lia. vm_compute (byte_val _) in Hc. lia.
Qed.

Lemma event_key_ff t id : HasPrefix (event_key t id) ("event:" +:+ of_bytes [0xFF]) = false.
Proof. apply timed_key_ff. Qed.

(** The text of a time has a [Z] at its end and nowhere else. *)
Lemma no_Z_digit d : 0 <= d <= 9 → digit d ≠ "Z"%char.
Proof.
  intros Hd. apply ascii_ne. unfold digit. rewrite byte_val_of by lia.
  change (byte_val "Z") with 90. lia.
Qed.

(** Strings that end in [Z] followed by [tail], with no [Z] before. *)
Definition ends_Z (s tail : string) : Prop := ∃ a, no_char "Z" a ∧ s = a +:+ String "Z" tail.

Lemma ends_Z_cons c s tail : c ≠ "Z"%char → ends_Z s tail → ends_Z (String c s) tail.
Proof. intros Hc (a & Ha & ->). exists (String c a). by split. Qed.

Lemma ends_Z_pad w z s tail : ends_Z s tail → ends_Z (pad_dec w z s) tail.
Proof.
  revert z s. induction w as [|w IH]; intros z s Hs; [done|]. simpl. apply IH, ends_Z_cons; [|done].
  apply no_Z_digit. pose proof (Z.mod_pos_bound z 10 ltac:(lia)). lia.
Qed.

Lemma ends_Z_frac prec v b s tail : ends_Z s tail → ends_Z (frac_digits prec v b s) tail.
Proof.
  revert v b s. induction prec as [|prec IH]; intros v b s Hs; simpl.
  - destruct b; [|done]. by apply ends_Z_cons.
  - apply IH. destruct (_ || _); [|done]. apply ends_Z_cons; [|done].
    apply no_Z_digit. pose proof (Z.mod_pos_bound v 10 ltac:(lia)). lia.
Qed.

Lemma RFC3339Nano_ends t : ends_Z (RFC3339Nano t) "".
Proof.
  unfold RFC3339Nano, format_seconds.
  repeat (apply ends_Z_pad, ends_Z_cons; [done|]). apply ends_Z_pad, ends_Z_frac. by exists "".
Qed.

(** A key names its time's text and its identifier. *)
Lemma timed_key_cut p t t' id id' :
  p +:+ RFC3339Nano t +:+ ":" +:+ id = p +:+ RFC3339Nano t' +:+ ":" +:+ id' → RFC3339Nano t = RFC3339Nano t' ∧ id = id'.
Proof.
  intros Heq%string_app_inj.
  destruct (RFC3339Nano_ends t) as (a & Ha & Ea), (RFC3339Nano_ends t') as (b & Hb & Eb).
  assert (a +:+ String "Z" (":" +:+ id) = b +:+ String "Z" (":" +:+ id')) as Hab.
  { rewrite Ea, Eb, !string_app_assoc in Heq. exact Heq. }
  apply no_char_cut in Hab as [-> Hid]; [|done..]. split; [by rewrite Ea, Eb|]. by apply string_app_inj in Hid.
Qed.

Lemma event_key_id t t' id id' : event_key t id = event_key t' id' → id = id'.
Proof. intros Heq. by apply (timed_key_cut "event:") in Heq as [_ ?]. Qed.

Lemma alert_key_id a a' : alert_key a = alert_key a' → al_AlertID a = al_AlertID a'.
Proof. intros Heq. by apply (timed_key_cut "alert:") in Heq as [_ ?]. Qed.

Lemma event_key_inj t t' id id' :
  year_ok t → year_ok t' → event_key t id = event_key t' id' → t = t' ∧ id = id'.
Proof.
  intros Ht Ht' [Heq ->]%(timed_key_cut "event:"). split; [|done].
  apply Parse_RFC3339Nano in Ht, Ht'. congruence.
Qed.

End Operations.

(** ** A store on the reference database *)

Module Example.

#[local] Existing Instance Reference.badger.

(** 2026-01-01T00:00:00Z. *)
Definition T : Z := Unix0 (1767225600 * Second).
Definition store0 : Store := MkStore ∅ DefaultRetention (<["exec" := 0]> (<["tcp" := 0]> (<["file" := 0]> ∅))) [].
Definition event (id node ty : string) : Event := MkEvent id node T ty "null".

Lemma New_empty : New (Ok ∅) T = Ok store0.
Proof. reflexivity. Qed.

Lemma no_items p now k r : (k, r) ∈ @items Reference.badger (∅ : Reference.entries) now → HasPrefix k p = false.
Proof. intros (v & x & Hk & _)%Reference.elem_of_ref_items. by rewrite (lookup_empty (M := gmap string)) in Hk. Qed.

Lemma null_ok : raw_ok "null".
Proof.
  split; [done|]. split; [apply Compact_null|]. exists 0%nat, JNull.
  split; [unfold maxNestingDepth; lia|]. split; [lia|]. intros. apply Text_null.
Qed.

Lemma event_codec_ok id node ty :
  Valid_utf8 id → Valid_utf8 node → Valid_utf8 ty → codec_ok (event id node ty).
Proof.
  intros. split; [done|]. split; [done|]. split; [done|]. split; [by vm_compute|apply null_ok].
Qed.

End Example.

End Store.
