(* ===== verification/StoreLog.v ===== *)
(** * The store as a log of records

    What [internal/store/badger.go] promises, for each kind of record it keeps.
    A [Kind] says how the records of one type are keyed and which operations
    write one; [Log] holds the records saved, by key, with the second they
    expire, and, for the writes callers no longer wait for, the record each
    would add ([None] for a record of another kind).  [refines] relates the
    store to the log of a kind, so that events and alerts share every proof. *)

From S2P Require Import Prelude GoStrings GoTime GoJson GoTimeParse StoreData Codec Badger Store.
Import GoStrings GoTime GoJson GoTimeParse Store.

Module StoreLog.

Inductive op :=
| OpSaveEvent (sch : schedule) (received now : Z) (e : Event)
| OpSaveAlert (sch : schedule) (now : Z) (a : Alert)
| OpBackground (i : nat) (now : Z)
| OpCollect (now : Z).

Definition op_now (o : op) : Z :=
  match o with OpSaveEvent _ _ now _ | OpSaveAlert _ now _ | OpBackground _ now | OpCollect now => now end.

(** The schedule, the key and the text of the write a save makes. *)
Definition op_write (o : op) : option (schedule * string * result string) :=
  match o with
  | OpSaveEvent sch received _ e => Some (sch, event_key received (ev_EventID e), marshal e)
  | OpSaveAlert sch _ a => Some (sch, alert_key a, marshal a)
  | OpBackground _ _ | OpCollect _ => None
  end.

Lemma codec_marshals {A} `{Codec A} (a : A) : codec_ok a → is_Ok (marshal a) = true.
Proof. intros (t & -> & _)%codec_roundtrip. done. Qed.

(** ** Kinds of records *)

Class Kind (A : Type) `{Codec A} := {
  kind_prefix : string;
  kind_key : string → A → Prop;
  kind_record : op → option (string * A);
  kind_key_prefix k a : kind_key k a → HasPrefix k kind_prefix = true;
  kind_key_ff k a : kind_key k a → HasPrefix k (kind_prefix +:+ of_bytes [0xFF]) = false;
  kind_own o k a : kind_record o = Some (k, a) → kind_key k a ∧ ∃ sch, op_write o = Some (sch, k, marshal a);
  kind_other o sch k r : kind_record o = None → op_write o = Some (sch, k, r) → HasPrefix k kind_prefix = false;
}.

Definition event_record (o : op) : option (string * Event) :=
  match o with OpSaveEvent _ received _ e => Some (event_key received (ev_EventID e), e) | _ => None end.

Definition alert_record (o : op) : option (string * Alert) :=
  match o with OpSaveAlert _ _ a => Some (alert_key a, a) | _ => None end.

Definition event_key_of (k : string) (e : Event) : Prop := ∃ t, k = event_key t (ev_EventID e).
Definition alert_key_of (k : string) (a : Alert) : Prop := k = alert_key a.

Lemma event_of_prefix k e : event_key_of k e → HasPrefix k "event:" = true.
Proof. intros (t & ->). apply event_key_prefix. Qed.

Lemma event_of_ff k e : event_key_of k e → HasPrefix k ("event:" +:+ of_bytes [0xFF]) = false.
Proof. intros (t & ->). apply event_key_ff. Qed.

Lemma event_record_own o k a :
  event_record o = Some (k, a) → event_key_of k a ∧ ∃ sch, op_write o = Some (sch, k, marshal a).
Proof. destruct o; intros [= <- <-]. split; by eexists. Qed.

Lemma event_record_other o sch k r :
  event_record o = None → op_write o = Some (sch, k, r) → HasPrefix k "event:" = false.
Proof. destruct o; intros [=]; by intros [= _ <- _]. Qed.

Lemma alert_of_prefix k a : alert_key_of k a → HasPrefix k "alert:" = true.
Proof. intros ->. apply (HasPrefix_app "alert:"). Qed.

Lemma alert_of_ff k a : alert_key_of k a → HasPrefix k ("alert:" +:+ of_bytes [0xFF]) = false.
Proof. intros ->. apply timed_key_ff. Qed.

Lemma alert_record_own o k a :
  alert_record o = Some (k, a) → alert_key_of k a ∧ ∃ sch, op_write o = Some (sch, k, marshal a).
Proof. destruct o; intros [= <- <-]. split; by eexists. Qed.

Lemma alert_record_other o sch k r :
  alert_record o = None → op_write o = Some (sch, k, r) → HasPrefix k "alert:" = false.
Proof. destruct o; intros [=]; by intros [= _ <- _]. Qed.

#[global] Instance event_kind : Kind Event := {|
  kind_prefix := "event:"; kind_key := event_key_of; kind_record := event_record;
  kind_key_prefix := event_of_prefix; kind_key_ff := event_of_ff;
  kind_own := event_record_own; kind_other := event_record_other |}.

#[global] Instance alert_kind : Kind Alert := {|
  kind_prefix := "alert:"; kind_key := alert_key_of; kind_record := alert_record;
  kind_key_prefix := alert_of_prefix; kind_key_ff := alert_of_ff;
  kind_own := alert_record_own; kind_other := alert_record_other |}.

Record Log (A : Type) := MkLog {
  lg_records : gmap string (A * Z);
  lg_waiting : list (option (string * A));
}.
Arguments MkLog {_} _ _.
Arguments lg_records {_} _.
Arguments lg_waiting {_} _.

Definition empty_log {A} : Log A := MkLog ∅ [].

Section Operations.
Context `{Badger}.

(** The operation, and whether its write was committed. *)
Definition exec_op (o : op) (s : Store) : bool * Store :=
  match o with
  | OpSaveEvent sch received now e =>
      let '(r, s') := SaveEvent sch received now e s in (is_Ok r, s')
  | OpSaveAlert sch now a => let '(r, s') := SaveAlert sch now a s in (is_Ok r, s')
  | OpBackground i now =>
      (match pending s !! i with
       | Some w => is_Ok (set (db s) now (w_key w) (w_val w) (w_ttl w))
       | None => false
       end, background i now s)
  | OpCollect now => let '(r, s') := RunValueLogGC now s in (is_Ok r, s')
  end.

(** What a save of either kind does to the database and to the writes left
    behind. *)
Lemma exec_save o s sch k val ok s' :
  op_write o = Some (sch, k, Ok val) → exec_op o s = (ok, s') →
  retention s' = retention s ∧
  match sch with
  | Completes =>
      pending s' = pending s ∧
      match set (db s) (op_now o) k val (Some (retention s)) with
      | Ok d => ok = true ∧ db s' = d
      | Err _ => ok = false ∧ db s' = db s
      end
  | Cancelled _ => ok = false ∧ db s' = db s ∧ pending s' = pending s ++ [Write k val (Some (retention s))]
  end.
Proof.
  destruct o as [sch' received now e|sch' now a|i now|now]; cbn [op_write exec_op op_now]; [| |done..]; intros [= -> <- Hm].
  - change (marshal e = Ok val) in Hm. unfold SaveEvent. rewrite Hm. destruct sch; simpl; [unfold commit; simpl|by intros [= <- <-]].
    destruct (set _ _ _ _ _); by intros [= <- <-].
  - change (marshal a = Ok val) in Hm. unfold SaveAlert. rewrite Hm. destruct sch; simpl; [unfold commit; simpl|by intros [= <- <-]].
    destruct (set _ _ _ _ _); by intros [= <- <-].
Qed.

(** ** The log of one kind *)

Section Kind.
Context {A : Type} `{Kind A}.
Implicit Types (lg : Log A).

(** Texts can be written, and those of this kind read back. *)
Definition op_ok (o : op) : Prop :=
  match op_write o with Some (_, _, r) => is_Ok r = true | None => True end ∧
  match kind_record o with Some (_, a) => codec_ok a | None => True end.

Definition log_insert (committed : bool) (k : string) (now : Z) (a : A)
    (m : gmap string (A * Z)) : gmap string (A * Z) :=
  if committed then <[k := (a, expires_at now DefaultRetention)]> m else m.

Definition log_op (o : op) (committed : bool) (lg : Log A) : Log A :=
  match o with
  | OpSaveEvent sch _ now _ | OpSaveAlert sch now _ =>
      match sch, kind_record o with
      | Completes, Some (k, a) => MkLog (log_insert committed k now a (lg_records lg)) (lg_waiting lg)
      | Completes, None => lg
      | Cancelled _, r => MkLog (lg_records lg) (lg_waiting lg ++ [r])
      end
  | OpBackground i now =>
      match lg_waiting lg !! i with
      | Some (Some (k, a)) => MkLog (log_insert committed k now a (lg_records lg)) (delete i (lg_waiting lg))
      | Some None => MkLog (lg_records lg) (delete i (lg_waiting lg))
      | None => lg
      end
  | OpCollect _ => lg
  end.

(** The same, for a save, from what it writes. *)
Lemma log_op_save o sch k r committed lg :
  op_write o = Some (sch, k, r) →
  log_op o committed lg =
  match sch, kind_record o with
  | Completes, Some (k, a) => MkLog (log_insert committed k (op_now o) a (lg_records lg)) (lg_waiting lg)
  | Completes, None => lg
  | Cancelled _, r => MkLog (lg_records lg) (lg_waiting lg ++ [r])
  end.
Proof. destruct o; cbn [op_write log_op op_now]; by intros [= -> _ _]. Qed.

(** A committed save of a record is in the log. *)
Lemma committed_save o s k a lg :
  kind_record o = Some (k, a) → (exec_op o s).1 = true →
  lg_records (log_op o true lg) !! k = Some (a, expires_at (op_now o) DefaultRetention).
Proof.
  intros Hk Hok. destruct (kind_own o k a Hk) as (_ & sch & Hw). rewrite (log_op_save _ _ _ _ _ _ Hw), Hk.
  destruct sch as [|err]; [apply lookup_insert_eq|]. exfalso. revert Hok.
  destruct o as [sch received now e|sch now al|i now|now]; cbn [op_write] in Hw; [injection Hw as -> _ _..|done|done];
    cbn [exec_op]; unfold SaveEvent, SaveAlert, run_write; by destruct (marshal _).
Qed.

(** The record under a key, while it lives. *)
Definition live_record (lg : Log A) (now : Z) (k : string) : option A :=
  match lg_records lg !! k with
  | Some (a, x) => if live (Some x) now then Some a else None
  | None => None
  end.

(** The records still live, from the greatest key down. *)
Definition log_list (lg : Log A) (now : Z) : list A :=
  omap (live_record lg now) (reverse (sort_Strings (elements (dom (lg_records lg))))).

(** A write left behind, and what the log knows of it. *)
Definition waits (w : write) (o : option (string * A)) : Prop :=
  match o with
  | Some (k, a) => w_key w = k ∧ kind_key k a ∧ unmarshal (w_val w) = Ok a ∧ w_ttl w = Some DefaultRetention
  | None => HasPrefix (w_key w) kind_prefix = false
  end.

(** The store holds exactly the log, from time [t] on. *)
Record refines (s : Store) (lg : Log A) (t : Z) : Prop := {
  ref_retention : retention s = DefaultRetention;
  ref_keys : ∀ k a x, lg_records lg !! k = Some (a, x) → kind_key k a;
  ref_sound : ∀ now k r, t <= now → HasPrefix k kind_prefix = true → (k, r) ∈ items (db s) now →
    ∃ a x, lg_records lg !! k = Some (a, x) ∧ live (Some x) now = true ∧ decodes (k, r) a;
  ref_complete : ∀ now k a x, t <= now → lg_records lg !! k = Some (a, x) → live (Some x) now = true →
    ∃ r, (k, r) ∈ items (db s) now;
  ref_pending : Forall2 waits (pending s) (lg_waiting lg);
}.

Lemma refines_later s lg t t' : refines s lg t → t <= t' → refines s lg t'.
Proof.
  intros [Hret Hkeys Hs Hc Hpend] Ht. split; [exact Hret|exact Hkeys| | |exact Hpend]; intros.
  - apply Hs; [lia|done..].
  - eapply Hc; [lia|done..].
Qed.

(** Only the database, the retention and the writes left behind matter. *)
Lemma refines_ext s s' lg t :
  refines s lg t → db s' = db s → retention s' = retention s → pending s' = pending s → refines s' lg t.
Proof. intros [????] Hd Hr Hp. split; rewrite ?Hd, ?Hr, ?Hp; done. Qed.

(** A committed record of this kind, and a committed write of another kind. *)
Lemma commit_own s s' lg t k val a now d :
  refines s lg t → t <= now → kind_key k a → unmarshal val = Ok a →
  set (db s) now k val (Some DefaultRetention) = Ok d →
  db s' = d → retention s' = retention s → pending s' = pending s →
  refines s' (MkLog (log_insert true k now a (lg_records lg)) (lg_waiting lg)) now.
Proof.
  intros [Hret Hkeys Hs Hc Hpend] Ht Hk Hval Hset Hd Hr Hp.
  split; [by rewrite Hr| | | |by rewrite Hp]; rewrite ?Hd; cbn [lg_records log_insert].
  - intros k' a' x. destruct (decide (k' = k)) as [->|Hne]; [rewrite lookup_insert_eq; by intros [= <- _]|].
    rewrite lookup_insert_ne by done. apply Hkeys.
  - intros now' k' r Hnow Hpre Hin. apply (items_set _ _ _ _ _ _ _ _ _ Hset Hnow) in Hin
      as [(-> & -> & Hl)|[Hne Hin]].
    + rewrite lookup_insert_eq. by exists a, (expires_at now DefaultRetention).
    + rewrite lookup_insert_ne by done. apply Hs; [lia|done|done].
  - intros now' k' a' x Hnow. destruct (decide (k' = k)) as [->|Hne].
    + rewrite lookup_insert_eq. intros [= <- <-] Hl. exists (Ok val).
      apply (items_set _ _ _ _ _ _ _ _ _ Hset Hnow). by left.
    + rewrite lookup_insert_ne by done. intros Hl Hlive.
      destruct (Hc now' k' a' x) as [r Hin]; [lia|done..|]. exists r.
      apply (items_set _ _ _ _ _ _ _ _ _ Hset Hnow). by right.
Qed.

Lemma commit_other s s' lg t k val ttl now d :
  refines s lg t → t <= now → HasPrefix k kind_prefix = false →
  set (db s) now k val ttl = Ok d →
  db s' = d → retention s' = retention s → pending s' = pending s → refines s' lg now.
Proof.
  intros [Hret Hkeys Hs Hc Hpend] Ht Hk Hset Hd Hr Hp.
  split; [by rewrite Hr|exact Hkeys| | |by rewrite Hp]; rewrite ?Hd.
  - intros now' k' r Hnow Hpre Hin. apply (items_set _ _ _ _ _ _ _ _ _ Hset Hnow) in Hin
      as [(-> & _)|[_ Hin]]; [congruence|]. apply Hs; [lia|done..].
  - intros now' k' a' x Hnow Hl Hlive. destruct (Hc now' k' a' x) as [r Hin]; [lia|done..|]. exists r.
    apply (items_set _ _ _ _ _ _ _ _ _ Hset Hnow). right. split; [|done]. intros ->.
    apply Hkeys, kind_key_prefix in Hl. congruence.
Qed.

(** Writes left behind, one more or one less. *)
Lemma refines_pending s s' lg t w :
  refines s lg t → db s' = db s → retention s' = retention s → Forall2 waits (pending s') w →
  refines s' (MkLog (lg_records lg) w) t.
Proof. intros [????] Hd Hr Hp. split; rewrite ?Hd, ?Hr; done. Qed.

Lemma save_refines s lg t o sch k val ok s' :
  refines s lg t → op_ok o → t <= op_now o → op_write o = Some (sch, k, Ok val) → exec_op o s = (ok, s') →
  refines s' (log_op o ok lg) (op_now o).
Proof.
  intros Hr [_ Hok] Ht Hw He. rewrite (log_op_save o sch k _ ok lg Hw).
  destruct (exec_save o s sch k val ok s' Hw He) as [Hret Hx]. rewrite (ref_retention _ _ _ Hr) in Hx.
  assert (match kind_record o with
          | Some (k', a) => k' = k ∧ kind_key k a ∧ unmarshal val = Ok a
          | None => HasPrefix k kind_prefix = false end) as Hrec.
  { destruct (kind_record o) as [[k' a]|] eqn:Hk; [|by eapply kind_other].
    destruct (kind_own o k' a Hk) as (Hkey & sch' & Hw'). rewrite Hw in Hw'. injection Hw' as _ <- Hm.
    destruct (codec_roundtrip a Hok) as (val' & Hm' & Hu). rewrite <-Hm in Hm'. injection Hm' as <-. done. }
  destruct sch as [|err].
  - destruct Hx as [Hp Hx]. destruct (set _ _ _ _ _) as [d|] eqn:Hset; destruct Hx as [-> Hd].
    + destruct (kind_record o) as [[k' a]|]; [destruct Hrec as (-> & Hkey & Hu); by eapply commit_own|by eapply commit_other].
    + assert (refines s' lg (op_now o)) as Hsame by (eapply refines_later, Ht; by eapply refines_ext).
      destruct (kind_record o) as [[k' a]|]; [|done]. cbn [log_insert]. by destruct lg.
  - destruct Hx as (-> & Hd & Hp). eapply refines_later, Ht. eapply refines_pending; [exact Hr|done|done|].
    rewrite Hp. apply Forall2_app; [apply Hr|]. constructor; [|constructor].
    destruct (kind_record o) as [[k' a]|]; cbn [waits w_key w_val w_ttl]; [by destruct Hrec as (-> & ? & ?)|done].
Qed.

Lemma background_refines s lg t i now :
  refines s lg t → t <= now →
  refines (exec_op (OpBackground i now) s).2 (log_op (OpBackground i now) (exec_op (OpBackground i now) s).1 lg) now.
Proof.
  intros Hr Ht. pose proof (ref_pending _ _ _ Hr) as Hpend. cbn [exec_op log_op fst snd]. unfold background.
  destruct (pending s !! i) as [w|] eqn:Hi.
  - destruct (Forall2_lookup_l _ _ _ _ _ Hpend Hi) as (o & Ho & Hw). rewrite Ho.
    set (s1 := MkStore (db s) (retention s) (counters s) (delete i (pending s))).
    assert (refines s1 (MkLog (lg_records lg) (delete i (lg_waiting lg))) t) as Hr'.
    { eapply refines_pending; [exact Hr|done|done|]. by apply Forall2_delete. }
    unfold commit. cbn [db s1]. destruct (set _ _ _ _ _) as [d|err] eqn:Hset; cbn [is_Ok snd].
    + destruct o as [[k a]|].
      * destruct Hw as (<- & Hk & Hu & Httl). rewrite Httl in Hset.
        by apply (commit_own s1 _ _ _ _ _ _ _ _ Hr' Ht Hk Hu Hset).
      * by apply (commit_other s1 _ _ _ _ _ _ _ _ Hr' Ht Hw Hset).
    + destruct o as [[k a]|]; by eapply refines_later.
  - assert (lg_waiting lg !! i = None) as ->; [|by eapply refines_later].
    apply lookup_ge_None. rewrite <-(Forall2_length _ _ _ Hpend). by apply lookup_ge_None.
Qed.

(** Garbage collection of the database is invisible. *)
Lemma collect_refines s lg t now :
  refines s lg t → t <= now → refines (RunValueLogGC now s).2 lg now.
Proof.
  intros Hr Ht. apply (refines_later _ _ _ now) in Hr; [|done]. unfold RunValueLogGC.
  destruct (collect (db s) now) as [d|] eqn:Hc; [|done]. destruct Hr as [Hret Hkeys Hs Hcm Hpend].
  split; [done|done| | |done]; cbn [snd db with_db].
  - intros now' k r Hn. rewrite (items_collect _ _ _ _ Hc Hn). by apply Hs.
  - intros now' k a x Hn. rewrite (items_collect _ _ _ _ Hc Hn). by apply Hcm.
Qed.

(** Each operation keeps the store a refinement of its log. *)
Lemma exec_op_refines s lg t o ok s' :
  refines s lg t → op_ok o → t <= op_now o → exec_op o s = (ok, s') →
  refines s' (log_op o ok lg) (op_now o).
Proof.
  intros Hr Hok Ht He. destruct (op_write o) as [[[sch k] [val|]]|] eqn:Hw.
  - by eapply save_refines.
  - destruct Hok as [Hok _]. by rewrite Hw in Hok.
  - destruct o as [| |i now|now]; [done..| |].
    + pose proof (background_refines s lg t i now Hr Ht) as Hb. rewrite He in Hb. exact Hb.
    + pose proof (collect_refines s lg t now Hr Ht) as Hc. cbn [exec_op] in He.
      destruct (RunValueLogGC now s) as [r s1]. by injection He as _ <-.
Qed.

(** *** Listing a store that refines a log *)

Lemma live_record_Some lg now k a :
  live_record lg now k = Some a ↔ ∃ x, lg_records lg !! k = Some (a, x) ∧ live (Some x) now = true.
Proof.
  unfold live_record. split.
  - destruct (lg_records lg !! k) as [[a' x]|]; [|done].
    destruct (live (Some x) now) eqn:Hl; intros [= ->]. eauto.
  - intros (x & -> & ->). done.
Qed.

Lemma elem_of_log_list lg now a :
  a ∈ log_list lg now ↔ ∃ k x, lg_records lg !! k = Some (a, x) ∧ live (Some x) now = true.
Proof.
  unfold log_list. rewrite list_elem_of_omap. split.
  - intros (k & _ & (x & Hk & Hl)%live_record_Some). eauto.
  - intros (k & x & Hk & Hl). exists k. split; [|apply live_record_Some; eauto].
    rewrite elem_of_reverse, sort_Strings_Permutation, elem_of_elements, elem_of_dom. by eexists.
Qed.

Lemma refined_keys s lg t now :
  refines s lg t → t <= now →
  (prefix_items kind_prefix (db s) now).*1 =
  filter (λ k, is_Some (live_record lg now k)) (sort_Strings (elements (dom (lg_records lg)))).
Proof.
  intros Hr Ht.
  assert (StronglySorted str_lt (prefix_items kind_prefix (db s) now).*1) as Hsorted.
  { eapply StronglySorted_fmap, StronglySorted_filter, items_sorted. done. }
  apply (StronglySorted_unique String.le).
  - rewrite <-(list_fmap_id (_.*1)). eapply StronglySorted_fmap, Hsorted. apply str_lt_le.
  - apply StronglySorted_filter, sort_Strings_Sorted.
  - apply list.NoDup_Permutation.
    + eapply StronglySorted_irrefl_NoDup, Hsorted. apply str_lt_irrefl.
    + apply NoDup_filter. rewrite sort_Strings_Permutation. apply NoDup_elements.
    + intros k. unfold prefix_items.
      rewrite list_elem_of_filter, sort_Strings_Permutation, elem_of_elements, elem_of_dom, list_elem_of_fmap.
      split.
      * intros ([k' r] & -> & [Hp Hin]%list_elem_of_filter). simpl in *.
        destruct (ref_sound _ _ _ Hr now k' r Ht Hp Hin) as (a & x & Hk & Hl & _). split; [|by eexists].
        exists a. apply live_record_Some. eauto.
      * intros [[a (x & Hk & Hl)%live_record_Some] _].
        destruct (ref_complete _ _ _ Hr now k a x Ht Hk Hl) as [r Hin]. exists (k, r). split; [done|].
        apply list_elem_of_filter. split; [|done]. by eapply kind_key_prefix, ref_keys.
Qed.

Lemma refined_decodes s lg t now :
  refines s lg t → t <= now →
  Forall2 decodes (reverse (prefix_items kind_prefix (db s) now)) (log_list lg now).
Proof.
  intros Hr Ht. unfold log_list. set (keys := sort_Strings _).
  assert (∀ l : list string, omap (live_record lg now) l
    = omap (live_record lg now) (filter (λ k, is_Some (live_record lg now k)) l)) as Hfilter.
  { induction l as [|k l IH]; [done|]. rewrite filter_cons. simpl.
    destruct (live_record lg now k) as [a|] eqn:Ha.
    - rewrite decide_True by done. simpl. rewrite Ha. f_equal. exact IH.
    - rewrite decide_False by (by intros []). exact IH. }
  rewrite Hfilter, filter_reverse. unfold keys. rewrite <-(refined_keys s lg t) by done. clear Hfilter keys.
  rewrite <-fmap_reverse.
  assert (∀ k r, (k, r) ∈ reverse (prefix_items kind_prefix (db s) now) →
            ∃ a, live_record lg now k = Some a ∧ decodes (k, r) a) as Hin.
  { intros k r Hin. rewrite elem_of_reverse in Hin. apply list_elem_of_filter in Hin as [Hp Hin].
    destruct (ref_sound _ _ _ Hr now k r Ht Hp Hin) as (a & x & Hk & Hl & Hd).
    exists a. rewrite live_record_Some. eauto. }
  induction (reverse _) as [|[k r] l IH]; [constructor|].
  destruct (Hin k r) as (a & Ha & Hd); [left|]. simpl. rewrite Ha. constructor; [done|].
  apply IH. intros. apply Hin. by right.
Qed.

(** The loop of a listing, run on the records of the kind. *)
Lemma listing_refines node_of s lg t now node limit :
  refines s lg t → t <= now →
  list_loop node_of node limit 0 [] (seek_prefix_rev kind_prefix (items (db s) now)) =
  Ok (take (Z.to_nat limit) (filter (for_node node_of node) (window node 0 (log_list lg now)))).
Proof.
  intros Hr Ht. rewrite seek_prefix_rev_items.
  - rewrite (list_loop_spec _ _ _ _ _ (refined_decodes s lg t now Hr Ht)). simpl. by rewrite Z.sub_0_r.
  - intros k r Hin. apply not_true_iff_false. intros Hff.
    assert (HasPrefix k kind_prefix = true) as Hp.
    { apply HasPrefix_true in Hff as [rest ->]. rewrite string_app_assoc. apply HasPrefix_app. }
    destruct (ref_sound _ _ _ Hr now k r Ht Hp Hin) as (a & x & Hk & _).
    apply (ref_keys _ _ _ Hr), kind_key_ff in Hk. congruence.
Qed.

(** *** Runs *)

Fixpoint run (ops : list op) (s : Store) (lg : Log A) : Store * Log A :=
  match ops with
  | [] => (s, lg)
  | o :: ops => let '(ok, s') := exec_op o s in run ops s' (log_op o ok lg)
  end.

(** Operations in the order of their commit times, from [t] to [t']. *)
Fixpoint in_order (t : Z) (ops : list op) (t' : Z) : Prop :=
  match ops with
  | [] => t <= t'
  | o :: ops => t <= op_now o ∧ in_order (op_now o) ops t'
  end.

Lemma run_refines ops s lg t t' s' lg' :
  refines s lg t → Forall op_ok ops → in_order t ops t' → run ops s lg = (s', lg') →
  refines s' lg' t'.
Proof.
  revert s lg t. induction ops as [|o ops IH]; intros s lg t Hr Hok Hord; cbn [run].
  - intros [= <- <-]. by eapply refines_later.
  - apply Forall_cons in Hok as [Ho Hok]. destruct Hord as [Ht Hord].
    destruct (exec_op o s) as [ok s1] eqn:He. intros Hrun.
    eapply IH; [|done|exact Hord|exact Hrun]. by eapply exec_op_refines.
Qed.

(** *** Opening *)

Lemma New_fields opened now s :
  New opened now = Ok s → opened = Ok (db s) ∧ retention s = DefaultRetention ∧ pending s = [].
Proof.
  unfold New, loadCounters. destruct opened as [d|]; [|done]. cbn [mbind result_bind db].
  destruct (load_loop _ _); [|done]. by intros [= <-].
Qed.

(** A freshly opened store without records of the kind refines the empty log. *)
Lemma New_refines d t0 t s :
  (∀ now k r, t <= now → (k, r) ∈ items d now → HasPrefix k kind_prefix = false) →
  New (Ok d) t0 = Ok s → refines s empty_log t.
Proof.
  intros Hnone ([= ->] & Hret & Hp)%New_fields.
  split; cbn [empty_log lg_records lg_waiting]; [done| | | |by rewrite Hp].
  - intros k a x Hx. by rewrite lookup_empty in Hx.
  - intros now k r Ht Hpre Hin. apply Hnone in Hin; [congruence|done].
  - intros now k e x _ Hx. by rewrite lookup_empty in Hx.
Qed.

(** A store opened on the database of another that refines a log holds the
    same records; the writes the other left behind are gone. *)
Lemma reopened_refines s lg t opened s' :
  refines s lg t → t <= opened → New (Ok (db s)) opened = Ok s' → refines s' (MkLog (lg_records lg) []) opened.
Proof.
  intros Hr Ht (Hd & Hret & Hp)%New_fields. injection Hd as Hd. apply (refines_later _ _ t); [|done].
  destruct Hr as [_ Hk Hs Hc _]. split; rewrite <-?Hd, ?Hp; done.
Qed.

End Kind.
Arguments op_ok A {_ _} o.

(** The store of a run does not depend on the kind the log is of. *)
Lemma run_store {A B} `{Kind A} `{Kind B} ops s (lg : Log A) (lg' : Log B) : (run ops s lg).1 = (run ops s lg').1.
Proof.
  revert s lg lg'. induction ops as [|o ops IH]; intros s lg lg'; [done|]. cbn [run].
  destruct (exec_op o s). apply IH.
Qed.

Lemma ListEvents_refines s (lg : Log Event) t now node limit :
  refines s lg t → t <= now →
  ListEvents Completes now node limit s =
  Ok (take (Z.to_nat limit) (filter (for_node ev_NodeID node) (window node 0 (log_list lg now)))).
Proof. intros Hr Ht. exact (listing_refines ev_NodeID s lg t now node limit Hr Ht). Qed.

Lemma ListAlerts_refines s (lg : Log Alert) t now node limit :
  refines s lg t → t <= now →
  ListAlerts Completes now node limit s =
  Ok (take (Z.to_nat limit) (filter (for_node al_NodeID node) (window node 0 (log_list lg now)))).
Proof. intros Hr Ht. exact (listing_refines al_NodeID s lg t now node limit Hr Ht). Qed.

Lemma load_loop_ok l (vs : list Event) m : Forall2 decodes l vs → ∃ m', load_loop l m = Ok m'.
Proof.
  intros Hl. revert m. induction Hl as [|[k v] e l vs Hd Hl IH]; intros m; cbn [load_loop]; [by eexists|].
  unfold decodes in Hd. cbn [snd] in Hd. destruct v as [v|]; cbn [mbind result_bind] in *; [|done].
  rewrite Hd. cbn [mbind result_bind]. apply IH.
Qed.

(** The database of a store that refines a log of events can be opened at any
    later time. *)
Lemma reopens s (lg : Log Event) t opened :
  refines s lg t → t <= opened → ∃ s', New (Ok (db s)) opened = Ok s'.
Proof.
  intros Hr Ht. unfold New, loadCounters. cbn [mbind result_bind db]. rewrite seek_prefix_items.
  pose proof (refined_decodes s lg t opened Hr Ht) as Hd. apply Forall2_reverse in Hd. rewrite reverse_involutive in Hd.
  edestruct load_loop_ok as [m' Hm]; [exact Hd|]. rewrite Hm. by eexists.
Qed.

(** ** Counters *)

(** The type of the event an item holds. *)
Definition item_type (i : item) : option string :=
  match (v ← i.2; unmarshal v) with Ok e => Some (ev_Type e) | Err _ => None end.

Fixpoint stored_of (ty : string) (l : list item) : Z :=
  match l with
  | [] => 0
  | i :: l => (if item_type i =s Some ty then 1 else 0) + stored_of ty l
  end.

(** The calls of [SaveEvent] for a type that returned nil during a run. *)
Fixpoint saved_of (ty : string) (ops : list op) (s : Store) : Z :=
  match ops with
  | [] => 0
  | o :: ops =>
      let '(ok, s') := exec_op o s in
      match o with
      | OpSaveEvent _ _ _ e => if ok && (ev_Type e =s ty) then 1 else 0
      | _ => 0
      end + saved_of ty ops s'
  end.

Definition count (m : gmap string Z) (ty : string) : Z := default 0 (m !! ty).

Lemma count_incr m t ty :
  count (incr m t) ty = if t =s ty then wrap64 (count m ty + 1) else count m ty.
Proof.
  unfold count, incr. case_bool_decide as E.
  - subst. by rewrite lookup_insert_eq.
  - by rewrite lookup_insert_ne.
Qed.

Lemma load_loop_count l m m' ty :
  load_loop l m = Ok m' → wrap64 (count m' ty) = wrap64 (count m ty + stored_of ty l).
Proof.
  revert m. induction l as [|[k v] l IH]; intros m; cbn [load_loop].
  { intros [= <-]. cbn [stored_of]. by rewrite Z.add_0_r. }
  destruct v as [v|]; cbn [mbind result_bind]; [|intros [=]].
  destruct (unmarshal v) as [e|] eqn:He; cbn [mbind result_bind]; [|intros [=]].
  intros Hl. rewrite (IH _ Hl), count_incr. cbn [stored_of].
  assert (item_type (k, Ok v) = Some (ev_Type e)) as ->.
  { unfold item_type. cbn [snd mbind result_bind]. by rewrite He. }
  rewrite (bool_decide_ext (Some (ev_Type e) = Some ty) (ev_Type e = ty)) by naive_solver.
  case_bool_decide as E; rewrite ?wrap64_step; f_equal; lia.
Qed.

Lemma exec_op_count o s ok s' ty :
  exec_op o s = (ok, s') →
  wrap64 (count (counters s') ty) = wrap64 (count (counters s) ty +
    match o with OpSaveEvent _ _ _ e => if ok && (ev_Type e =s ty) then 1 else 0 | _ => 0 end).
Proof.
  destruct o as [sch received now e|sch now a|i now|now]; cbn [exec_op].
  - unfold SaveEvent. destruct (marshal e) as [val|]; [|intros [= <- <-]; by rewrite Z.add_0_r].
    unfold run_write, commit. destruct sch; cbn [w_key w_val w_ttl].
    + destruct (set _ _ _ _ _) as [d|]; intros [= <- <-]; cbn [is_Ok andb]; [|by rewrite Z.add_0_r].
      cbn [counters with_incr with_db]. rewrite count_incr.
      case_bool_decide; [|by rewrite Z.add_0_r]. apply wrap64_id, wrap64_range.
    + intros [= <- <-]. cbn [is_Ok andb counters]. by rewrite Z.add_0_r.
  - unfold SaveAlert. rewrite Z.add_0_r. destruct (marshal a) as [val|]; [|by intros [= <- <-]].
    unfold run_write, commit. destruct sch; cbn [w_key w_val w_ttl]; [|by intros [= <- <-]].
    destruct (set _ _ _ _ _) as [d|]; by intros [= <- <-].
  - rewrite Z.add_0_r. unfold background. intros [= <- <-]. destruct (pending s !! i) as [w|]; [|done].
    unfold commit. simpl. by destruct (set _ _ _ _ _).
  - rewrite Z.add_0_r. unfold RunValueLogGC. destruct (collect _ _); by intros [= <- <-].
Qed.

Lemma run_count ops s (lg : Log Event) s' lg' ty :
  run ops s lg = (s', lg') →
  wrap64 (count (counters s') ty) = wrap64 (count (counters s) ty + saved_of ty ops s).
Proof.
  revert s lg. induction ops as [|o ops IH]; intros s lg; cbn [run saved_of].
  { intros [= <- <-]. by rewrite Z.add_0_r. }
  destruct (exec_op o s) as [ok s1] eqn:He. intros Hrun. rewrite (IH _ _ Hrun).
  rewrite <-wrap64_step, (exec_op_count _ _ _ _ ty He), wrap64_step. f_equal. lia.
Qed.

(** *** A run of saves *)

Record save := Save { sv_received : Z; sv_now : Z; sv_event : Event }.

Definition save_op (x : save) : op := OpSaveEvent Completes (sv_received x) (sv_now x) (sv_event x).
Definition save_key (x : save) : string := event_key (sv_received x) (ev_EventID (sv_event x)).

(** The saves one after the other, when they all return nil. *)
Fixpoint save_all (l : list save) (s : Store) : option Store :=
  match l with
  | [] => Some s
  | x :: l =>
      match SaveEvent Completes (sv_received x) (sv_now x) (sv_event x) s with
      | (Ok _, s') => save_all l s'
      | (Err _, _) => None
      end
  end.

Definition insert_saves (m : gmap string (Event * Z)) (l : list save) : gmap string (Event * Z) :=
  foldl (λ m x, <[save_key x := (sv_event x, expires_at (sv_now x) DefaultRetention)]> m) m l.

Lemma insert_saves_cons m x l :
  insert_saves m (x :: l)
  = insert_saves (<[save_key x := (sv_event x, expires_at (sv_now x) DefaultRetention)]> m) l.
Proof. reflexivity. Qed.

Definition log_saves (l : list save) (lg : Log Event) : Log Event :=
  MkLog (insert_saves (lg_records lg) l) (lg_waiting lg).

Lemma save_all_run l s s' (lg : Log Event) :
  save_all l s = Some s' → run (save_op <$> l) s lg = (s', log_saves l lg).
Proof.
  revert s lg. induction l as [|x l IH]; intros s lg; cbn [save_all].
  { intros [= <-]. by destruct lg. }
  rewrite fmap_cons. cbn [run]. unfold save_op at 1. cbn [exec_op].
  destruct (SaveEvent _ _ _ _ _) as [[[]|] s1]; [|intros [=]]. intros Hl.
  cbn [is_Ok]. by rewrite (IH _ _ Hl).
Qed.

(** The date and time, then the fraction. *)
Lemma pad_dec_tail w z a b : pad_dec w z a +:+ b = pad_dec w z (a +:+ b).
Proof. by rewrite (pad_dec_app w z a), (pad_dec_app w z (_ +:+ _)), string_app_assoc. Qed.

Lemma format_seconds_tail t a b : format_seconds t a +:+ b = format_seconds t (a +:+ b).
Proof.
  unfold format_seconds.
  do 6 (rewrite pad_dec_tail; f_equal; try (change (String ?c ?x +:+ ?y) with (String c (x +:+ y)); f_equal)).
Qed.

Lemma format_seconds_app t a : format_seconds t a = format_seconds t "" +:+ a.
Proof. symmetry. apply format_seconds_tail. Qed.

(** Within a second, keys are ordered by the texts of the fractions. *)
Lemma same_second_keys t t' id id' :
  t / Second = t' / Second →
  str_lt (frac_digits 9 (t mod Second) false "Z" +:+ ":" +:+ id) (frac_digits 9 (t' mod Second) false "Z" +:+ ":" +:+ id') →
  str_lt (event_key t id) (event_key t' id').
Proof.
  intros Hsec Hlt. unfold event_key, RFC3339Nano. apply str_lt_app. rewrite !format_seconds_tail.
  rewrite (format_seconds_app t (_ +:+ _)), (format_seconds_app t' (_ +:+ _)).
  assert (format_seconds t "" = format_seconds t' "") as -> by (unfold format_seconds; by rewrite Hsec).
  by apply str_lt_app.
Qed.

(** Saves received in later and later seconds have ascending keys. *)
Lemma save_keys_sorted l :
  Forall (λ x, year_ok (sv_received x)) l →
  StronglySorted (λ x y, sv_received x / Second < sv_received y / Second) l →
  StronglySorted str_lt (save_key <$> l).
Proof.
  intros Hy Hs. induction Hs as [|x l Hs IH Hx]; [constructor|].
  apply Forall_cons in Hy as [Hyx Hy]. rewrite fmap_cons. constructor; [by apply IH|].
  rewrite Forall_fmap, Forall_forall. intros y Hin. rewrite Forall_forall in Hx, Hy.
  unfold compose, save_key, event_key. apply str_lt_app.
  unfold RFC3339Nano. rewrite !format_seconds_tail. apply format_seconds_lt; auto.
Qed.

Lemma log_saves_dom l :
  dom (lg_records (log_saves l empty_log)) = list_to_set (save_key <$> l).
Proof.
  unfold log_saves. cbn [lg_records].
  assert (∀ m : gmap string (Event * Z),
    dom (insert_saves m l)
    = list_to_set (save_key <$> l) ∪ dom m) as Hm.
  { induction l as [|x l IH]; intros m; [simpl; set_solver|].
    rewrite insert_saves_cons, IH, dom_insert_L, fmap_cons. set_solver. }
  rewrite Hm. cbn [empty_log lg_records]. rewrite dom_empty_L. set_solver.
Qed.

Lemma log_saves_lookup l x m :
  NoDup (save_key <$> l) → x ∈ l →
  insert_saves m l !! save_key x
  = Some (sv_event x, expires_at (sv_now x) DefaultRetention).
Proof.
  revert m. induction l as [|y l IH]; intros m Hnd Hin; [by apply elem_of_nil in Hin|].
  rewrite fmap_cons in Hnd. apply NoDup_cons in Hnd as [Hni Hnd]. rewrite insert_saves_cons.
  apply elem_of_cons in Hin as [->|Hin]; [|by apply IH].
  clear IH. revert m. induction l as [|z l IH]; intros m.
  { apply lookup_insert_eq. }
  rewrite insert_saves_cons.
  rewrite fmap_cons, not_elem_of_cons in Hni. rewrite fmap_cons in Hnd.
  apply NoDup_cons in Hnd as [_ Hnd]. rewrite insert_insert_ne by naive_solver. apply IH; naive_solver.
Qed.

Lemma log_saves_list l now :
  StronglySorted str_lt (save_key <$> l) →
  Forall (λ x, live (Some (expires_at (sv_now x) DefaultRetention)) now = true) l →
  log_list (log_saves l empty_log) now = reverse (sv_event <$> l).
Proof.
  intros Hs Hlive. unfold log_list. rewrite log_saves_dom.
  assert (NoDup (save_key <$> l)) as Hnd
    by (eapply StronglySorted_irrefl_NoDup, Hs; apply str_lt_irrefl).
  assert (sort_Strings (elements (list_to_set (C := gset string) (save_key <$> l))) = save_key <$> l) as ->.
  { apply (StronglySorted_unique String.le); [apply sort_Strings_Sorted| |].
    - rewrite <-(list_fmap_id (save_key <$> l)). eapply StronglySorted_fmap, Hs. apply str_lt_le.
    - rewrite sort_Strings_Permutation. by apply elements_list_to_set. }
  rewrite <-!fmap_reverse.
  assert (∀ x, x ∈ reverse l → x ∈ l) as Hin by (intros x; by rewrite elem_of_reverse).
  induction (reverse l) as [|x r IH]; [done|]. rewrite !fmap_cons. cbn [omap list_omap]. unfold live_record at 1. cbn [log_saves lg_records].
  rewrite log_saves_lookup by (done || (apply Hin; left)).
  rewrite Forall_forall in Hlive. rewrite (Hlive x) by (apply Hin; left).
  f_equal. apply IH. intros y Hy. apply Hin. by right.
Qed.

(** ** What the store promises *)

(** C5: The store refines a log of events and one of alerts.  Opened on a
    database without either and driven through any sequence of event and alert
    saves, of writes that end after their callers gave up and of collections of
    the value log, a listing returns exactly the live records of its log, from the greatest key down:
    the first [maxNodeFilterScan] of them under a node filter, all of them
    otherwise, then those of the node, then the first [limit]. *)
Theorem store_refines_log d t0 t t' ops now node limit s s' (elg : Log Event) (alg : Log Alert) :
  (∀ now k r, t <= now → (k, r) ∈ items d now → HasPrefix k "event:" = false ∧ HasPrefix k "alert:" = false) →
  New (Ok d) t0 = Ok s →
  Forall (op_ok Event) ops → Forall (op_ok Alert) ops → in_order t ops t' → t' <= now →
  run ops s empty_log = (s', elg) → run ops s empty_log = (s', alg) →
  ListEvents Completes now node limit s' =
    Ok (take (Z.to_nat limit) (filter (for_node ev_NodeID node) (window node 0 (log_list elg now)))) ∧
  ListAlerts Completes now node limit s' =
    Ok (take (Z.to_nat limit) (filter (for_node al_NodeID node) (window node 0 (log_list alg now)))).
Proof.
  intros Hnone HNew Hev Hal Hord Hnow Hrun Hrun'. split.
  - eapply ListEvents_refines, Hnow. eapply run_refines; [|exact Hev|exact Hord|exact Hrun].
    eapply New_refines, HNew. intros now' k r Ht Hin. by apply Hnone in Hin as [??].
  - eapply ListAlerts_refines, Hnow. eapply run_refines; [|exact Hal|exact Hord|exact Hrun'].
    eapply New_refines, HNew. intros now' k r Ht Hin. by apply Hnone in Hin as [??].
Qed.

(** A run of saves on a database without events, and an unfiltered listing. *)
Lemma saves_listed d t0 t t' l now limit s s' :
  (∀ now k r, t <= now → (k, r) ∈ items d now → HasPrefix k "event:" = false) →
  New (Ok d) t0 = Ok s → save_all l s = Some s' →
  Forall (λ x, codec_ok (sv_event x)) l → in_order t (save_op <$> l) t' → t' <= now →
  ListEvents Completes now "" limit s' = Ok (take (Z.to_nat limit) (log_list (log_saves l empty_log) now)).
Proof.
  intros Hnone HNew Hsave Hok Hord Hnow.
  assert (refines s' (log_saves l empty_log) t') as Hr.
  { eapply run_refines; [by eapply New_refines| |exact Hord|by apply save_all_run].
    rewrite Forall_fmap. eapply Forall_impl; [exact Hok|]. intros x Hx. split; [by apply codec_marshals|done]. }
  rewrite (ListEvents_refines _ _ _ _ _ _ Hr Hnow). unfold window. rewrite bool_decide_eq_true_2 by done.
  by rewrite filter_all by (apply Forall_true; by left).
Qed.

(** C28: Events are listed newest first.  Events saved one after the other,
    each received in a later second than the one before, all saves returning
    nil and none expired, are listed in the reverse of the order in which they
    were saved, up to the limit. *)
Theorem events_newest_first d t0 t t' l now limit s s' :
  (∀ now k r, t <= now → (k, r) ∈ items d now → HasPrefix k "event:" = false) →
  New (Ok d) t0 = Ok s → save_all l s = Some s' →
  Forall (λ x, codec_ok (sv_event x) ∧ year_ok (sv_received x)) l →
  StronglySorted (λ x y, sv_received x / Second < sv_received y / Second) l →
  in_order t (save_op <$> l) t' → t' <= now →
  Forall (λ x, live (Some (expires_at (sv_now x) DefaultRetention)) now = true) l →
  ListEvents Completes now "" limit s' = Ok (take (Z.to_nat limit) (reverse (sv_event <$> l))).
Proof.
  intros Hnone HNew Hsave Hok Hsorted Hord Hnow Hlive.
  assert (Forall (λ x, codec_ok (sv_event x)) l ∧ Forall (λ x, year_ok (sv_received x)) l) as [Hc Hy]
    by (by rewrite <-Forall_and).
  rewrite (saves_listed d t0 t t' l now limit s s') by done.
  rewrite log_saves_list; [done| |done]. by apply save_keys_sorted.
Qed.

(** C36: Within a second the order of keys is not the order of receipt: of two
    events received 500 and 510 milliseconds after the same second, the later
    one is listed after the earlier one, contrary to newest first, because the
    text of the time drops trailing zeros ([.5Z] sorts after [.51Z]). *)
Theorem same_second_misordered d t0 t t' sec x y now limit s s' :
  (∀ now k r, t <= now → (k, r) ∈ items d now → HasPrefix k "event:" = false) →
  New (Ok d) t0 = Ok s → save_all [x; y] s = Some s' →
  sv_received x = sec * Second + 500 * Millisecond → sv_received y = sec * Second + 510 * Millisecond →
  codec_ok (sv_event x) → codec_ok (sv_event y) → in_order t (save_op <$> [x; y]) t' → t' <= now →
  Forall (λ z, live (Some (expires_at (sv_now z) DefaultRetention)) now = true) [x; y] →
  sv_received x < sv_received y ∧
  ListEvents Completes now "" limit s' = Ok (take (Z.to_nat limit) [sv_event x; sv_event y]).
Proof.
  intros Hnone HNew Hsave Hx Hy Hcx Hcy Hord Hnow Hlive. split; [rewrite Hx, Hy; unfold Second, Millisecond; lia|].
  assert (str_lt (save_key y) (save_key x)) as Hlt.
  { assert ((sec * Second + 500 * Millisecond) mod Second = 500000000 ∧
      (sec * Second + 510 * Millisecond) mod Second = 510000000 ∧
      (sec * Second + 510 * Millisecond) / Second = (sec * Second + 500 * Millisecond) / Second) as (H1 & H2 & H3)
      by (unfold Second, Millisecond; Z.div_mod_to_equations; lia).
    unfold save_key. rewrite Hx, Hy. apply same_second_keys; [exact H3|]. rewrite H1, H2.
    change (frac_digits 9 510000000 false "Z") with ".51Z". change (frac_digits 9 500000000 false "Z") with ".5Z".
    apply (str_lt_app ".5"). by apply str_lt_head. }
  assert (Forall (λ z, codec_ok (sv_event z)) [x; y]) as Hc by (rewrite !Forall_cons; auto).
  rewrite (saves_listed d t0 t t' [x; y] now limit s s') by done.
  assert (log_saves [x; y] empty_log = log_saves [y; x] empty_log) as ->.
  { unfold log_saves, insert_saves. cbn [foldl]. f_equal. apply insert_insert_ne. intros Heq. rewrite Heq in Hlt.
    by apply str_lt_irrefl in Hlt. }
  rewrite !Forall_cons in Hlive. rewrite log_saves_list; [done| |rewrite !Forall_cons; tauto].
  constructor; [by repeat constructor|]. by apply Forall_singleton.
Qed.

Lemma log_list_length {A} (lg : Log A) now : (length (log_list lg now) <= size (lg_records lg))%nat.
Proof.
  unfold log_list. etransitivity; [|by rewrite <-size_dom].
  transitivity (length (reverse (sort_Strings (elements (dom (lg_records lg)))))).
  - induction (reverse _) as [|k l IH]; [done|]. cbn [omap list_omap length]. case_match; cbn [length]; unfold omap in *; lia.
  - by rewrite length_reverse, sort_Strings_Permutation.
Qed.

(** The abandoned write, when it ends, puts its record into the log. *)
Lemma abandoned_commits (lg : Log Event) t s err received now e late :
  refines s lg t → codec_ok e → t <= now <= late →
  let '(r, s1) := SaveEvent (Cancelled err) received now e s in
  let o := OpBackground (length (pending s)) late in
  (exec_op o s1).1 = true →
  r = Err err ∧ counters (exec_op o s1).2 = counters s ∧
  ∃ lg', refines (exec_op o s1).2 lg' late ∧
    lg_records lg' = <[event_key received (ev_EventID e) := (e, expires_at late DefaultRetention)]> (lg_records lg).
Proof.
  intros Hr Hok [Ht1 Ht2]. set (o1 := OpSaveEvent (Cancelled err) received now e).
  pose proof (exec_op_refines s lg t o1 _ _ Hr (conj (codec_marshals e Hok) Hok) Ht1 (surjective_pairing _)) as Hr1.
  unfold o1 in Hr1. cbn [exec_op log_op kind_record event_kind event_record op_now] in Hr1.
  destruct (SaveEvent (Cancelled err) received now e s) as [r s1] eqn:Hsave. cbn [snd] in Hr1.
  unfold SaveEvent in Hsave. destruct (codec_roundtrip e Hok) as (val & Hm & _). rewrite Hm in Hsave.
  cbn [run_write] in Hsave. injection Hsave as <- Hs1. intros o Hc. split; [done|]. split.
  - cbn [exec_op snd o]. unfold background. rewrite <-Hs1. cbn [pending]. rewrite list_lookup_middle by done.
    unfold commit. by destruct (set _ _ _ _ _).
  - assert (length (lg_waiting lg) = length (pending s)) as Hlen
      by (symmetry; eapply Forall2_length, (ref_pending _ _ _ Hr)).
    pose proof (exec_op_refines s1 _ now o _ _ Hr1 (conj I I) Ht2 (surjective_pairing _)) as Hr2. rewrite Hc in Hr2.
    eexists. split; [exact Hr2|]. cbn [o log_op lg_waiting lg_records]. rewrite list_lookup_middle by done. done.
Qed.

(** C37: A write that ends after its caller gave up is stored and not counted.
    On any store, a [SaveEvent] whose context ends first returns the context's
    error; when the abandoned transaction commits later, the event is listed
    until it expires, but the counters of the store do not count it: they run
    below what is stored until a restart counts the records again. *)
Theorem late_write_uncounted (lg : Log Event) t s err received now e late q limit :
  let save := SaveEvent (Cancelled err) received now e s in
  let i := length (pending s) in
  let s' := background i late save.2 in
  refines s lg t → codec_ok e → t <= now <= late → late <= q →
  (exec_op (OpBackground i late) save.2).1 = true →
  live (Some (expires_at late DefaultRetention)) q = true →
  Z.of_nat (S (size (lg_records lg))) <= limit →
  save.1 = Err err ∧ Stats s' = Stats s ∧ ∃ l, ListEvents Completes q "" limit s' = Ok l ∧ e ∈ l.
Proof.
  intros save i s' Hr Hok Ht Hq Hcommit Hlive Hlim.
  pose proof (abandoned_commits lg t s err received now e late Hr Hok Ht) as Hc. unfold s'. clear s'. revert Hcommit.
  unfold save. clear save. destruct (SaveEvent (Cancelled err) received now e s) as [r s1]. cbn [fst snd]. intros Hcommit.
  destruct (Hc Hcommit) as (-> & Hcnt & lg' & Hr' & Hlg). split; [done|]. split; [exact Hcnt|].
  eexists. split; [by apply (ListEvents_refines _ lg' late)|]. unfold window. rewrite bool_decide_eq_true_2 by done.
  rewrite filter_all by (apply Forall_true; by left). rewrite take_ge.
  - apply elem_of_log_list. eexists _, _. rewrite Hlg. split; [apply lookup_insert_eq|done].
  - pose proof (log_list_length lg' q) as Hl. rewrite Hlg, map_size_insert in Hl.
    destruct (lg_records lg !! _); cbn in Hl; lia.
Qed.

(** No event overwrites another unless both carry the same identifier and
    were received in the same nanosecond: the agent's own timestamp takes no
    part in the key. *)
Lemma event_key_unique t t' id id' :
  year_ok t → year_ok t' → event_key t id = event_key t' id' ↔ t = t' ∧ id = id'.
Proof. intros Ht Ht'. split; [by apply event_key_inj|]. by intros [-> ->]. Qed.

(** The counters are exact.  After opening and any run, the counter of a
    type is, as a 64-bit integer, the number of stored events of the type at
    opening plus the number of [SaveEvent] calls of the type that returned
    nil. *)
Theorem stats_exact d t0 s ops s' (lg lg' : Log Event) ty :
  New (Ok d) t0 = Ok s → run ops s lg = (s', lg') →
  wrap64 (count (Stats s') ty) = wrap64 (stored_of ty (prefix_items "event:" d t0) + saved_of ty ops s).
Proof.
  intros HNew Hrun. unfold Stats. rewrite (run_count _ _ _ _ _ ty Hrun).
  unfold New, loadCounters in HNew. cbn [mbind result_bind db counters] in HNew.
  rewrite seek_prefix_items in HNew.
  destruct (load_loop _ _) as [m|] eqn:Hm; cbn [mbind result_bind] in HNew; [|done]. injection HNew as <-.
  cbn [counters]. rewrite <-wrap64_step, (load_loop_count _ _ _ ty Hm), wrap64_step. f_equal.
  assert (count (<["exec" := 0]> (<["tcp" := 0]> (<["file" := 0]> ∅))) ty = 0) as ->; [|lia].
  unfold count. rewrite !lookup_insert, lookup_empty. by repeat case_decide.
Qed.

End Operations.
Arguments op_ok A {_ _} o.

(** ** Witnesses, on the reference database *)

Module Example.
#[local] Existing Instance Reference.badger.
Import Store.Example.

Definition saves : list save :=
  [Save T T (event "e1" "n1" "exec"); Save (T + 3 * Second) (T + 3 * Second) (event "e2" "n2" "tcp");
   Save (T + 4 * Second) (T + 5 * Second) (event "e3" "n1" "exec")].

(** Two events of the same second. *)
Definition misordered : list save :=
  [Save (T + 500 * Millisecond) T (event "older" "n" "exec"); Save (T + 510 * Millisecond) T (event "newer" "n" "exec")].

Definition alert_ex : Alert := MkAlert "a1" "r1" "n1" "e1" T "shell" "high".

(** A save, one given up on, another save, an alert, the late write, and
    a collection of the value log. *)
Definition ops : list op :=
  [OpSaveEvent Completes T T (event "e1" "n1" "exec");
   OpSaveEvent (Cancelled "context deadline exceeded") (T + 1) (T + 1) (event "e2" "n1" "exec");
   OpSaveEvent Completes (T + 2 * Second) (T + 2 * Second) (event "e3" "n2" "tcp");
   OpSaveAlert Completes (T + 2 * Second) alert_ex; OpBackground 0 (T + 3 * Second); OpCollect (T + 3 * Second)].

Lemma ops_ok : Forall (op_ok Event) ops.
Proof.
  unfold ops. do 3 (apply Forall_cons_2; [split; [apply codec_marshals|]; by apply event_codec_ok|]).
  do 3 (apply Forall_cons_2; [done|]). apply Forall_nil_2.
Qed.

Lemma alert_codec_ok : codec_ok alert_ex.
Proof. split; [repeat (apply Forall_cons_2; [vm_compute; reflexivity|]); apply Forall_nil_2|by vm_compute]. Qed.

Lemma ops_ok_alerts : Forall (op_ok Alert) ops.
Proof.
  unfold ops. do 3 (apply Forall_cons_2; [split; [apply codec_marshals; by apply event_codec_ok|done]|]).
  apply Forall_cons_2; [split; [done|apply alert_codec_ok]|].
  do 2 (apply Forall_cons_2; [done|]). apply Forall_nil_2.
Qed.

Lemma saves_ok : Forall (λ x, codec_ok (sv_event x) ∧ year_ok (sv_received x)) saves.
Proof. unfold saves. do 3 (apply Forall_cons_2; [split; [by apply event_codec_ok|by vm_compute]|]). apply Forall_nil_2. Qed.

Lemma saves_later : StronglySorted (λ x y, sv_received x / Second < sv_received y / Second) saves.
Proof. unfold saves. repeat constructor. Qed.

Lemma saves_order : in_order T (save_op <$> saves) (T + 6 * Second).
Proof. vm_compute. done. Qed.

Lemma misordered_order : in_order T (save_op <$> misordered) (T + Second).
Proof. vm_compute. done. Qed.

Lemma saves_live : Forall (λ x, live (Some (expires_at (sv_now x) DefaultRetention)) (T + 6 * Second) = true) saves.
Proof. unfold saves. repeat constructor. Qed.

End Example.

Import Store.Example Example.
#[local] Existing Instance Reference.badger.

Lemma store_refines_log_witness :
  ListEvents Completes (T + 5 * Second) "n1" 10 (run ops store0 (empty_log (A := Event))).1
    = Ok [event "e1" "n1" "exec"; event "e2" "n1" "exec"] ∧
  ListAlerts Completes (T + 5 * Second) "n1" 10 (run ops store0 (empty_log (A := Event))).1 = Ok [alert_ex].
Proof.
  destruct (store_refines_log ∅ T T (T + 4 * Second) ops (T + 5 * Second) "n1" 10 store0
    (run ops store0 (empty_log (A := Event))).1 (run ops store0 (empty_log (A := Event))).2
    (run ops store0 (empty_log (A := Alert))).2) as [He Ha].
  - intros now k r _ Hin. split; by eapply no_items.
  - exact New_empty.
  - exact ops_ok.
  - exact ops_ok_alerts.
  - by vm_compute.
  - by vm_compute.
  - apply surjective_pairing.
  - rewrite (surjective_pairing (run ops store0 _)) at 1. f_equal.
  - rewrite He, Ha. split; vm_compute; reflexivity.
Defined.

Lemma events_newest_first_witness :
  ListEvents Completes (T + 6 * Second) "" 2 <$> save_all saves store0
  = Some (Ok [event "e3" "n1" "exec"; event "e2" "n2" "tcp"]).
Proof.
  destruct (save_all saves store0) as [s'|] eqn:Hs'.
  - simpl. f_equal. etransitivity.
    + eapply (events_newest_first ∅ T T (T + 6 * Second) saves (T + 6 * Second) 2 store0).
      * intros. by eapply no_items.
      * exact New_empty.
      * exact Hs'.
      * exact saves_ok.
      * exact saves_later.
      * exact saves_order.
      * apply Z.le_refl.
      * exact saves_live.
    + vm_compute. reflexivity.
  - exfalso. assert (bool_decide (is_Some (save_all saves store0)) = true) as H by (vm_compute; reflexivity).
    by rewrite Hs' in H.
Defined.

Lemma event_key_unique_witness : event_key T "a" = event_key T "a" ↔ T = T ∧ "a" = "a".
Proof. apply (event_key_unique T T "a" "a"); by vm_compute. Defined.

Lemma stats_exact_witness :
  wrap64 (count (Stats (run ops store0 (empty_log (A := Event))).1) "exec") = wrap64 (0 + 1).
Proof.
  etransitivity.
  - apply (stats_exact ∅ T store0 ops _ (empty_log (A := Event)) (run ops store0 (empty_log (A := Event))).2 "exec");
      [apply New_empty|apply surjective_pairing].
  - vm_compute. reflexivity.
Defined.

Lemma same_second_misordered_witness :
  ListEvents Completes (T + Second) "" 10 <$> save_all misordered store0
  = Some (Ok [event "older" "n" "exec"; event "newer" "n" "exec"]).
Proof.
  destruct (save_all misordered store0) as [s'|] eqn:Hs'.
  - simpl. f_equal.
    refine (proj2 (same_second_misordered ∅ T T (T + Second) (T / Second) _ _ (T + Second) 10 store0 s' _ New_empty Hs' _ _ _ _ _ _ _)).
    + intros. by eapply no_items.
    + by vm_compute.
    + by vm_compute.
    + by apply event_codec_ok.
    + by apply event_codec_ok.
    + exact misordered_order.
    + by vm_compute.
    + repeat constructor.
  - exfalso. assert (bool_decide (is_Some (save_all misordered store0)) = true) as H by (vm_compute; reflexivity).
    by rewrite Hs' in H.
Defined.

Lemma late_write_uncounted_witness :
  let s' := background 0 (T + Second)
    (SaveEvent (Cancelled "context deadline exceeded") T T (event "e" "n" "exec") store0).2 in
  Stats s' = Stats store0 ∧ ∃ l, ListEvents Completes (T + 2 * Second) "" 10 s' = Ok l ∧ event "e" "n" "exec" ∈ l.
Proof.
  assert (refines store0 (empty_log (A := Event)) T) as Hr.
  { apply (New_refines ∅ T); [|apply New_empty]. intros. by eapply no_items. }
  refine (proj2 (late_write_uncounted empty_log T store0 "context deadline exceeded" T T (event "e" "n" "exec") (T + Second)
    (T + 2 * Second) 10 Hr _ _ _ _ _ _)).
  - by apply event_codec_ok.
  - by vm_compute.
  - by vm_compute.
  - vm_compute. reflexivity.
  - by vm_compute.
  - by vm_compute.
Defined.

End StoreLog.
