(* ===== verification/StoreGC.v ===== *)
(** * The store's collector goroutine and [Close] ([internal/store/badger.go])

    [runValueLogGC] waits for its ticker or for [gcStop]; at a tick it calls
    [db.RunValueLogGC] until that returns an error.  [gc_step] is one step of
    the goroutine.  [Close] closes [gcStop] ([Close_stop]), waits until the
    goroutine has closed [gcDone] and closes the database ([Close_wait]).
    What a call of [db.RunValueLogGC] does to the stored records is part of
    the store's refinement ([StoreLog.OpCollect]) and of the running system
    ([Collector.LCollect]). *)

From S2P Require Import Prelude GoStrings GoFloat GoTime StoreData Codec Badger Store.
Import GoTime Store.

Module StoreGC.

Definition vlogGCInterval : Z := 5 * Minute.
Definition vlogGCDiscardRatio : Q := Qmake 1 2.

(** Where the goroutine stands: at the [select], in the inner loop, or
    returned, with [gcDone] closed. *)
Inductive gc_pc := Selecting | Collecting | Ended.

(** [gc_stop] is whether [gcStop] is closed. *)
Record gc := MkGC { gc_stop : bool; gc_at : gc_pc }.

(** [New] starts the goroutine. *)
Definition started : gc := MkGC false Selecting.

Inductive gc_input :=
| StopSeen               (* [<-s.gcStop] *)
| Tick                   (* [<-ticker.C] *)
| Call (now : Z).        (* [db.RunValueLogGC] returns *)

Section Goroutine.
Context `{Badger}.

Definition gc_step (i : gc_input) (g : gc) (s : Store) : option (gc * Store) :=
  match gc_at g, i with
  | Selecting, StopSeen => if gc_stop g then Some (MkGC true Ended, s) else None
  | Selecting, Tick => Some (MkGC (gc_stop g) Collecting, s)
  | Collecting, Call now =>
      match RunValueLogGC now s with
      | (Ok _, s') => Some (g, s')
      | (Err _, s') => Some (MkGC (gc_stop g) Selecting, s')
      end
  | _, _ => None
  end.

(** [close(s.gcStop)]: closing a closed channel panics. *)
Definition Close_stop (g : gc) : option gc :=
  if gc_stop g then None else Some (MkGC true (gc_at g)).

(** The rest of [Close]: [None] while it blocks, then the result of closing
    the database. *)
Definition Close_wait (close : DB → option error) (g : gc) (s : Store) : option (option error) :=
  match gc_at g with Ended => Some (close (db s)) | _ => None end.

Fixpoint run_gc (ins : list gc_input) (g : gc) (s : Store) : option (gc * Store) :=
  match ins with
  | [] => Some (g, s)
  | i :: ins => match gc_step i g s with Some (g', s') => run_gc ins g' s' | None => None end
  end.

(** ** Closing ends *)

(** At most [n] collections in a row succeed, from time [t] on. *)
Fixpoint spent (n : nat) (t : Z) (d : DB) : Prop :=
  ∀ now d', t <= now → collect d now = Ok d' → match n with O => False | S n => spent n now d' end.

(** Inputs without a tick, at times from [t] on. *)
Fixpoint quiet (t : Z) (ins : list gc_input) : Prop :=
  match ins with
  | [] => True
  | StopSeen :: ins => quiet t ins
  | Call now :: ins => t <= now ∧ quiet now ins
  | Tick :: _ => False
  end.

(** The time of the last collection. *)
Fixpoint last_time (t : Z) (ins : list gc_input) : Z :=
  match ins with
  | [] => t
  | Call now :: ins => last_time now ins
  | _ :: ins => last_time t ins
  end.

(** The steps left without a tick. *)
Definition steps_left (n : nat) (p : gc_pc) : nat :=
  match p with Ended => 0 | Selecting => 1 | Collecting => n + 2 end.

Lemma quiet_run ins n t g s g' s' :
  gc_stop g = true → (gc_at g = Collecting → spent n t (db s)) → quiet t ins → run_gc ins g s = Some (g', s') →
  (length ins <= steps_left n (gc_at g))%nat ∧ gc_stop g' = true ∧
  ∀ now, last_time t ins <= now → items (db s') now = items (db s) now.
Proof.
  revert n t g s. induction ins as [|i ins IH]; intros n t g s Hstop Hsp Hq; cbn [run_gc].
  { intros [= <- <-]. simpl. split; [lia|done]. }
  unfold gc_step. destruct (gc_at g) eqn:Hat; destruct i as [| |now]; try done; cbn [quiet last_time] in *.
  - rewrite Hstop. destruct ins as [|i ins]; [intros [= <- <-]; split; [simpl; lia|done]|]. by destruct i.
  - destruct Hq as [Ht Hq]. unfold RunValueLogGC. destruct (collect (db s) now) as [d|] eqn:Hc.
    + destruct n as [|n]; [by destruct (Hsp eq_refl _ _ Ht Hc)|]. intros Hrun.
      destruct (IH n now g (with_db s d) Hstop) as (Hlen & Hs' & Hit); [intros _; by apply (Hsp eq_refl)|done|done|].
      rewrite Hat in Hlen. cbn [length steps_left] in *. split; [lia|]. split; [done|].
      intros now' Hn. rewrite (Hit now' Hn). cbn [db with_db]. apply (items_collect _ _ _ _ Hc).
      clear -Hq Hn. revert now Hq Hn. induction ins as [|[| |x] ins IH]; cbn [quiet last_time]; intros now; [done|eauto|done|].
      intros [Hx Hq] Hn. etrans; [exact Hx|]. by apply IH.
    + intros Hrun. destruct (IH n now (MkGC (gc_stop g) Selecting) s) as (Hlen & Hs' & Hit); [done|done|done|done|].
      cbn [length steps_left gc_at] in *. split; [lia|]. done.
Qed.

(** Until it has ended, a stopped goroutine can move without a tick. *)
Lemma stopped_moves g s :
  gc_stop g = true → gc_at g = Ended ∨ is_Some (gc_step StopSeen g s) ∨ ∀ now, is_Some (gc_step (Call now) g s).
Proof.
  intros Hs. unfold gc_step. destruct (gc_at g); rewrite ?Hs; [right; left; by eexists|right; right|by left].
  intros now. destruct (RunValueLogGC now s) as [[]]; by eexists.
Qed.

(** The goroutine ends only after [Close] was called. *)
Lemma ended_stopped ins s g' s' : run_gc ins started s = Some (g', s') → gc_stop g' = false ∧ gc_at g' ≠ Ended.
Proof.
  assert (gc_stop started = false ∧ gc_at started ≠ Ended) as H0 by done. revert H0.
  generalize started. intros g. revert g s. induction ins as [|i ins IH]; intros g s Hg; cbn [run_gc].
  { by intros [= <- <-]. }
  destruct Hg as [Hs Ha]. unfold gc_step. destruct (gc_at g) eqn:Hat; destruct i; try done; rewrite ?Hs; try done.
  - intros Hr. by apply IH in Hr.
  - destruct (RunValueLogGC now s) as [[]]; intros Hr; apply IH in Hr; try done. by rewrite Hat.
Qed.

(** C24: Closing the store returns.  From the moment [Close] closes [gcStop] on a
    store whose value log holds at most [n] files worth collecting, the
    collector goroutine takes at most [n + 2] more steps unless its ticker
    fires, can always take the next one until it has ended, and [Close] then
    returns what closing the database returns; the records a reader sees are
    unchanged.  A second [Close] panics. *)
Theorem close_returns n t ins0 s0 g s g1 ins g2 s2 close :
  run_gc ins0 started s0 = Some (g, s) → Close_stop g = Some g1 → spent n t (db s) → quiet t ins →
  run_gc ins g1 s = Some (g2, s2) →
  (length ins <= n + 2)%nat ∧
  (Close_wait close g2 s2 = Some (close (db s2)) ∨
   is_Some (gc_step StopSeen g2 s2) ∨ ∀ now, is_Some (gc_step (Call now) g2 s2)) ∧
  (∀ now, last_time t ins <= now → items (db s2) now = items (db s) now) ∧
  Close_stop g2 = None.
Proof.
  intros [Hg _]%ended_stopped Hstop Hsp Hq Hrun. unfold Close_stop in Hstop. rewrite Hg in Hstop. injection Hstop as <-.
  destruct (quiet_run ins n t (MkGC true (gc_at g)) s g2 s2 eq_refl (λ _, Hsp) Hq Hrun) as (Hlen & Hs2 & Hit).
  split; [|split; [|split; [done|]]].
  - etrans; [exact Hlen|]. cbn [gc_at]. destruct (gc_at g); simpl; lia.
  - destruct (stopped_moves g2 s2 Hs2) as [He|Hm]; [left|by right]. unfold Close_wait. by rewrite He.
  - unfold Close_stop. by rewrite Hs2.
Qed.

End Goroutine.

(** ** Witness *)

Module Example.
#[local] Existing Instance Reference.badger.
Import Store.Example.

(** A store with one expired record, closed in the middle of a collection. *)
Definition stale_entries : Reference.entries := {["event:x" := ("v", Some 1)]}.
Definition stale : Store := with_db store0 stale_entries.

Lemma stale_dead now : T <= now → filter (Reference.alive now) stale_entries = ∅.
Proof.
  intros Ht. apply map_empty. intros k. apply map_lookup_filter_None. right.
  unfold stale_entries. intros x [<- <-]%lookup_singleton_Some. unfold Reference.alive. cbn [snd live]. rewrite Z.ltb_lt. apply Z.le_ngt.
  transitivity (T / Second); [by vm_compute|]. by apply Z.div_le_mono.
Qed.

Lemma stale_spent : spent 1 T (db stale).
Proof.
  intros now d' Ht [Hd' _]%Reference.ref_collect_Ok now' d'' _ [Hd'' Hne]%Reference.ref_collect_Ok.
  apply Hne. change (db stale) with stale_entries in Hd'. rewrite (stale_dead now Ht) in Hd'. subst d' d''. apply map_filter_empty.
Qed.

End Example.
Import Store.Example Example.
#[local] Existing Instance Reference.badger.

Lemma close_returns_witness :
  ∃ g2 s2, run_gc [Call T; Call T; StopSeen] (MkGC true Collecting) stale = Some (g2, s2) ∧
    Close_wait (λ _, None) g2 s2 = Some None ∧ Close_stop g2 = None.
Proof.
  assert (match run_gc [Call T; Call T; StopSeen] (MkGC true Collecting) stale with
          | Some (g2, _) => match gc_at g2 with Ended => true | _ => false end | None => false end = true) as Hx
    by (vm_compute; reflexivity).
  destruct (run_gc [Call T; Call T; StopSeen] (MkGC true Collecting) stale) as [[g2 s2]|] eqn:Hrun; [|discriminate Hx].
  destruct (close_returns 1 T [Tick] stale (MkGC false Collecting) stale (MkGC true Collecting)
    [Call T; Call T; StopSeen] g2 s2 (λ _, None) eq_refl eq_refl stale_spent) as (_ & _ & _ & Hc).
  - repeat split; apply Z.le_refl.
  - exact Hrun.
  - exists g2, s2. split; [reflexivity|]. split; [|exact Hc]. unfold Close_wait. by destruct (gc_at g2).
Defined.

End StoreGC.
