(* ===== verification/AgentToken.v ===== *)
(** * Per-agent tokens ([internal/store/agenttoken.go])

    The token records share the database of [Store] under the prefix
    [agenttoken:], without a time to live.  Each operation takes the schedules
    of its transactions and the clock readings it makes; [rnd] is what
    [rand.Read] delivers. *)

From S2P Require Import Prelude GoStrings GoTime GoJson GoTimeParse GoSha256 StoreData Codec Badger Store.
Import GoStrings GoTime GoJson GoTimeParse GoSha256 Store.

Module AgentTokens.

Section Operations.
Context `{Badger}.

Definition ErrTokenExists : error := "store: node_id already has an active token".

Definition agentTokenKey (nodeID : string) : string := "agenttoken:" +:+ nodeID.

Definition hashToken (token : string) : string := EncodeToString (Sum256 token).

Definition generateToken (rnd : result (list Z)) : result string :=
  buf ← rnd; Ok (EncodeToString buf).

Definition getAgentToken (sch : schedule) (now : Z) (nodeID : string) (s : Store) : result (option AgentToken) :=
  run_read sch
    match get (db s) now (agentTokenKey nodeID) with
    | None => Ok None
    | Some v => v ← v; r ← unmarshal v; Ok (Some r)
    end.

Definition putAgentToken (sch : schedule) (now : Z) (rec : AgentToken) (s : Store) : result unit * Store :=
  match marshal rec with
  | Err e => (Err e, s)
  | Ok val => run_write sch (Write (agentTokenKey (at_NodeID rec)) val None) now s
  end.

Definition active (rec : AgentToken) : bool :=
  match at_RevokedAt rec with None => true | Some _ => false end.

Definition IssueToken (sch1 sch2 : schedule) (now1 : Z) (rnd : result (list Z)) (issued now2 : Z)
    (nodeID : string) (s : Store) : result string * Store :=
  match getAgentToken sch1 now1 nodeID s with
  | Err e => (Err e, s)
  | Ok existing =>
      if match existing with Some rec => active rec | None => false end then (Err ErrTokenExists, s)
      else
        match generateToken rnd with
        | Err e => (Err e, s)
        | Ok token =>
            match putAgentToken sch2 now2 (MkAgentToken nodeID (hashToken token) issued None) s with
            | (Err e, s) => (Err e, s)
            | (Ok _, s) => (Ok token, s)
            end
        end
  end.

Definition RevokeToken (sch1 sch2 : schedule) (now1 revoked now2 : Z) (nodeID : string) (s : Store)
    : result unit * Store :=
  match getAgentToken sch1 now1 nodeID s with
  | Err e => (Err e, s)
  | Ok None => (Ok tt, s)
  | Ok (Some rec) =>
      if active rec then
        putAgentToken sch2 now2
          (MkAgentToken (at_NodeID rec) (at_TokenHash rec) (at_IssuedAt rec) (Some revoked)) s
      else (Ok tt, s)
  end.

Fixpoint tokens_loop (l : list item) (acc : list AgentToken) : result (list AgentToken) :=
  match l with
  | [] => Ok acc
  | (_, v) :: l => v ← v; rec ← unmarshal v; tokens_loop l (acc ++ [rec])
  end.

Definition ListTokens (sch : schedule) (now : Z) (s : Store) : result (list AgentToken) :=
  run_read sch (tokens_loop (seek_prefix "agenttoken:" (items (db s) now)) []).

(** The scan over all records; a later match replaces an earlier one.
    [subtle.ConstantTimeCompare] returns 1 exactly on equal contents. *)
Definition lookup_step (want : string) (acc : string * bool) (rec : AgentToken) : string * bool :=
  if negb (active rec) then acc
  else if at_TokenHash rec =s want then (at_NodeID rec, true)
  else acc.

Definition LookupNodeID (sch : schedule) (now : Z) (token : string) (s : Store) : result (string * bool) :=
  let want := hashToken token in
  tokens ← ListTokens sch now s;
  Ok (foldl (lookup_step want) ("", false) tokens).

(** ** The token table

    The records by node, as the operations promise them. *)

Abbreviation table := (gmap string AgentToken).

Record holds (s : Store) (m : table) (t : Z) : Prop := {
  holds_node : ∀ node rec, m !! node = Some rec → at_NodeID rec = node ∧ codec_ok rec;
  holds_sound : ∀ now k r, t <= now → HasPrefix k "agenttoken:" = true → (k, r) ∈ items (db s) now →
    ∃ node rec, k = agentTokenKey node ∧ m !! node = Some rec ∧ decodes (k, r) rec;
  holds_complete : ∀ now node rec, t <= now → m !! node = Some rec →
    ∃ r, (agentTokenKey node, r) ∈ items (db s) now;
}.

(** The same without the first condition: what is stored under each node's key,
    as it is read back. *)
Record stored (s : Store) (m : table) (t : Z) : Prop := {
  stored_sound : ∀ now k r, t <= now → HasPrefix k "agenttoken:" = true → (k, r) ∈ items (db s) now →
    ∃ node rec, k = agentTokenKey node ∧ m !! node = Some rec ∧ decodes (k, r) rec;
  stored_complete : ∀ now node rec, t <= now → m !! node = Some rec →
    ∃ r, (agentTokenKey node, r) ∈ items (db s) now;
}.

Lemma holds_stored s m t : holds s m t → stored s m t.
Proof. by intros [_ Hs Hc]. Qed.

(** The records in the order of their nodes. *)
Definition table_list (m : table) : list AgentToken :=
  omap (λ node, m !! node) (sort_Strings (elements (dom m))).

Definition table_lookup (m : table) (token : string) : string * bool :=
  foldl (lookup_step (hashToken token)) ("", false) (table_list m).

Lemma agentTokenKey_inj a b : agentTokenKey a = agentTokenKey b → a = b.
Proof. apply string_app_inj. Qed.

Lemma agentTokenKey_prefix a : HasPrefix (agentTokenKey a) "agenttoken:" = true.
Proof. apply (HasPrefix_app "agenttoken:"). Qed.

Lemma stored_get s m t now node :
  stored s m t → t <= now → getAgentToken Completes now node s = Ok (m !! node).
Proof.
  intros [Hs Hc] Ht. unfold getAgentToken, run_read.
  destruct (get (db s) now (agentTokenKey node)) as [r|] eqn:Hg.
  - apply get_Some in Hg. destruct (Hs now _ r Ht (agentTokenKey_prefix node) Hg) as (node' & rec & Hk & Hm & Hd).
    apply agentTokenKey_inj in Hk as ->. unfold decodes in Hd. cbn [snd] in Hd.
    destruct r as [v|]; cbn [mbind result_bind] in *; [|done]. by rewrite Hd, Hm.
  - destruct (m !! node) as [rec|] eqn:Hm; [|done].
    destruct (Hc now node rec Ht Hm) as [r Hr]. apply get_Some in Hr. congruence.
Qed.

Lemma holds_get s m t now node :
  holds s m t → t <= now → getAgentToken Completes now node s = Ok (m !! node).
Proof. intros Hh%holds_stored. by apply stored_get. Qed.

(** A record put is stored under its node's key as it is read back. *)
Lemma stored_put s m t now rec val rec' s' :
  stored s m t → t <= now → marshal rec = Ok val → unmarshal val = Ok rec' →
  putAgentToken Completes now rec s = (Ok tt, s') → stored s' (<[at_NodeID rec := rec']> m) now.
Proof.
  intros [Hs Hc] Ht Hm Hu. unfold putAgentToken. rewrite Hm. unfold run_write, commit. cbn [w_key w_val w_ttl].
  destruct (set _ _ _ _ _) as [d|] eqn:Hset; [|done]. intros [= <-]. split; cbn [db with_db].
  - intros now' k r Hnow Hp Hin. apply (items_set _ _ _ _ _ _ _ _ _ Hset Hnow) in Hin
      as [(-> & -> & _)|[Hne Hin]].
    + exists (at_NodeID rec), rec'. rewrite lookup_insert_eq. split; [done|]. split; [done|]. exact Hu.
    + destruct (Hs now' k r) as (node & rec2 & -> & Hl & Hd); [lia|done..|].
      exists node, rec2. rewrite lookup_insert_ne by (intros Heq; by rewrite Heq in Hne). done.
  - intros now' node rec2 Hnow. destruct (decide (node = at_NodeID rec)) as [->|Hne].
    + intros _. exists (Ok val). apply (items_set _ _ _ _ _ _ _ _ _ Hset Hnow). by left.
    + rewrite lookup_insert_ne by done. intros Hl. destruct (Hc now' node rec2) as [r Hr]; [lia|done|].
      exists r. apply (items_set _ _ _ _ _ _ _ _ _ Hset Hnow). right.
      split; [by intros ?%agentTokenKey_inj|done].
Qed.

Lemma holds_put s m t now rec s' :
  holds s m t → t <= now → codec_ok rec →
  putAgentToken Completes now rec s = (Ok tt, s') → holds s' (<[at_NodeID rec := rec]> m) now.
Proof.
  intros Hh Ht Hok Hput. destruct (codec_roundtrip rec Hok) as (val & Hm & Hu).
  destruct (stored_put _ _ _ _ _ _ _ _ (holds_stored _ _ _ Hh) Ht Hm Hu Hput) as [Hs Hc]. split; [|done..].
  intros node r'. destruct (decide (node = at_NodeID rec)) as [->|Hne]; [rewrite lookup_insert_eq; by intros [= <-]|].
  rewrite lookup_insert_ne by done. apply (holds_node _ _ _ Hh).
Qed.

Lemma le_key a b : String.le a b → String.le (agentTokenKey a) (agentTokenKey b).
Proof.
  intros Hle. destruct (decide (a = b)) as [->|Hne]; [reflexivity|].
  by apply str_lt_le, str_lt_app, Reference.le_str_lt.
Qed.

Lemma stored_keys s m t now :
  stored s m t → t <= now →
  (prefix_items "agenttoken:" (db s) now).*1 = agentTokenKey <$> sort_Strings (elements (dom m)).
Proof.
  intros [Hs Hc] Ht.
  assert (StronglySorted str_lt (prefix_items "agenttoken:" (db s) now).*1) as Hsorted.
  { eapply StronglySorted_fmap, StronglySorted_filter, items_sorted. done. }
  apply (StronglySorted_unique String.le).
  - rewrite <-(list_fmap_id (_.*1)). eapply StronglySorted_fmap, Hsorted. apply str_lt_le.
  - eapply StronglySorted_fmap, sort_Strings_Sorted. apply le_key.
  - apply list.NoDup_Permutation.
    + eapply StronglySorted_irrefl_NoDup, Hsorted. apply str_lt_irrefl.
    + apply NoDup_fmap_2; [exact agentTokenKey_inj|]. rewrite sort_Strings_Permutation. apply NoDup_elements.
    + intros k. rewrite !list_elem_of_fmap. unfold prefix_items. split.
      * intros ([k' r] & -> & [Hp Hin]%list_elem_of_filter).
        destruct (Hs now k' r Ht Hp Hin) as (node & rec & Hk & Hl & _). exists node. split; [done|].
        rewrite sort_Strings_Permutation, elem_of_elements, elem_of_dom. by eexists.
      * intros (node & -> & Hin). rewrite sort_Strings_Permutation, elem_of_elements, elem_of_dom in Hin.
        destruct Hin as [rec Hl]. destruct (Hc now node rec Ht Hl) as [r Hr]. exists (agentTokenKey node, r).
        split; [done|]. apply list_elem_of_filter. split; [apply agentTokenKey_prefix|done].
Qed.

Lemma tokens_loop_spec l vs acc :
  Forall2 decodes l vs → tokens_loop l acc = Ok (acc ++ vs).
Proof.
  intros Hl. revert acc. induction Hl as [|[k v] rec l vs Hd Hl IH]; intros acc; cbn [tokens_loop].
  { by rewrite app_nil_r. }
  unfold decodes in Hd. cbn [snd] in Hd. destruct v as [v|]; cbn [mbind result_bind] in *; [|done].
  rewrite Hd. cbn [mbind result_bind]. by rewrite IH, <-app_assoc.
Qed.

(** Listing returns the records by node, ascending. *)
Lemma stored_list s m t now :
  stored s m t → t <= now → ListTokens Completes now s = Ok (table_list m).
Proof.
  intros Hh Ht. unfold ListTokens, run_read. rewrite seek_prefix_items.
  rewrite (tokens_loop_spec _ (table_list m)); [done|].
  pose proof (stored_keys s m t now Hh Ht) as Hk. destruct Hh as [Hs Hc].
  assert (∀ k r, (k, r) ∈ prefix_items "agenttoken:" (db s) now →
     ∃ node rec, k = agentTokenKey node ∧ m !! node = Some rec ∧ decodes (k, r) rec) as Hin.
  { intros k r [Hp Hin]%list_elem_of_filter. by apply (Hs now). }
  unfold table_list. revert Hk Hin. generalize (prefix_items "agenttoken:" (db s) now).
  intros l. generalize (sort_Strings (elements (dom m))). revert l.
  induction l as [|[k r] l IH]; intros nodes Hk Hin; destruct nodes as [|node nodes]; try done.
  rewrite !fmap_cons in Hk. injection Hk as -> Hk.
  destruct (Hin (agentTokenKey node) r) as (node' & rec & ->%agentTokenKey_inj & Hm & Hd); [left|].
  simpl omap. rewrite Hm. constructor; [done|]. apply IH; [done|]. intros. apply Hin. by right.
Qed.

Lemma holds_list s m t now :
  holds s m t → t <= now → ListTokens Completes now s = Ok (table_list m).
Proof. intros Hh%holds_stored. by apply stored_list. Qed.

(** *** Looking up *)

Definition matches (want : string) (rec : AgentToken) : Prop := active rec = true ∧ at_TokenHash rec = want.

#[global] Instance matches_dec want rec : Decision (matches want rec).
Proof. unfold matches. apply _. Defined.

Lemma lookup_fold want l acc :
  foldl (lookup_step want) acc l =
  match last (filter (matches want) l) with Some rec => (at_NodeID rec, true) | None => acc end.
Proof.
  revert acc. induction l as [|rec l IH]; intros acc; [done|]. cbn [foldl]. rewrite IH, filter_cons.
  unfold lookup_step. case_decide as Hm.
  - destruct Hm as [-> He]. cbn [negb]. rewrite bool_decide_eq_true_2 by done. rewrite last_cons.
    by destruct (last _).
  - destruct (active rec) eqn:Ha; [|done]. cbn [negb].
    rewrite bool_decide_eq_false_2; [done|]. intros He. by apply Hm.
Qed.

Lemma elem_of_table_list m rec :
  (∀ node rec, m !! node = Some rec → at_NodeID rec = node) →
  rec ∈ table_list m ↔ m !! at_NodeID rec = Some rec.
Proof.
  intros Hn. unfold table_list. rewrite list_elem_of_omap. split.
  - intros (node & _ & Hl). by rewrite (Hn _ _ Hl).
  - intros Hl. exists (at_NodeID rec). split; [|done].
    rewrite sort_Strings_Permutation, elem_of_elements, elem_of_dom. by eexists.
Qed.

Lemma last_filter_elem {A} (P : A → Prop) `{!∀ x, Decision (P x)} l x :
  last (filter P l) = Some x → P x ∧ x ∈ l.
Proof.
  intros Hl. apply (list_elem_of_filter P). rewrite last_lookup in Hl. by eapply list_elem_of_lookup_2.
Qed.

(** A lookup succeeds only with the node of an active record for the hash; it
    succeeds when there is one, and then with that record if it is the only
    one. *)
Lemma table_lookup_true m token node :
  (∀ node rec, m !! node = Some rec → at_NodeID rec = node) →
  table_lookup m token = (node, true) → ∃ rec, m !! node = Some rec ∧ matches (hashToken token) rec.
Proof.
  intros Hn. unfold table_lookup. rewrite lookup_fold. destruct (last _) as [rec|] eqn:Hl; [|done].
  intros [= <-]. apply last_filter_elem in Hl as [Hm Hin]. exists rec. split; [|done].
  by apply elem_of_table_list in Hin.
Qed.

Lemma table_lookup_unique m token node rec :
  (∀ node rec, m !! node = Some rec → at_NodeID rec = node) →
  m !! node = Some rec → matches (hashToken token) rec →
  (∀ node' rec', m !! node' = Some rec' → matches (hashToken token) rec' → node' = node) →
  table_lookup m token = (node, true).
Proof.
  intros Hn Hl Hm Huniq. unfold table_lookup. rewrite lookup_fold.
  destruct (last _) as [rec'|] eqn:Hlast.
  - apply last_filter_elem in Hlast as [Hm' Hin]. apply elem_of_table_list in Hin; [|done].
    by rewrite (Huniq _ _ Hin Hm').
  - exfalso. apply last_None in Hlast.
    assert (rec ∈ filter (matches (hashToken token)) (table_list m)) as Hin.
    { apply list_elem_of_filter. split; [done|]. apply elem_of_table_list; [done|]. by rewrite (Hn _ _ Hl). }
    rewrite Hlast in Hin. by apply elem_of_nil in Hin.
Qed.

Lemma holds_lookup s m t now token :
  holds s m t → t <= now → LookupNodeID Completes now token s = Ok (table_lookup m token).
Proof. intros Hh Ht. unfold LookupNodeID. by rewrite (holds_list _ _ _ _ Hh Ht). Qed.

Lemma stored_lookup s m t now token :
  stored s m t → t <= now → LookupNodeID Completes now token s = Ok (table_lookup m token).
Proof. intros Hh Ht. unfold LookupNodeID. by rewrite (stored_list _ _ _ _ Hh Ht). Qed.

(** Any table: the only active record for the hash is the one found. *)
Lemma table_lookup_only m token node rec :
  m !! node = Some rec → matches (hashToken token) rec →
  (∀ node' rec', m !! node' = Some rec' → matches (hashToken token) rec' → rec' = rec) →
  table_lookup m token = (at_NodeID rec, true).
Proof.
  intros Hl Hm Honly. unfold table_lookup. rewrite lookup_fold. destruct (last _) as [rec'|] eqn:Hlast.
  - apply last_filter_elem in Hlast as [Hm' (node' & _ & Hl')%list_elem_of_omap]. by rewrite (Honly _ _ Hl' Hm').
  - exfalso. apply last_None in Hlast.
    assert (rec ∈ filter (matches (hashToken token)) (table_list m)) as Hin.
    { apply list_elem_of_filter. split; [done|]. apply list_elem_of_omap. exists node. split; [|done].
      rewrite sort_Strings_Permutation, elem_of_elements, elem_of_dom. by eexists. }
    rewrite Hlast in Hin. by apply elem_of_nil in Hin.
Qed.

(** ** What the tokens promise *)

Definition issued_record (node token : string) (issued : Z) : AgentToken :=
  MkAgentToken node (hashToken token) issued None.

(** [IssueToken] on a store that holds a table, when it succeeds. *)
Lemma IssueToken_ok s m t now1 rnd issued now2 node token s' :
  holds s m t → t <= now1 <= now2 → Valid_utf8 node → year_ok issued →
  IssueToken Completes Completes now1 rnd issued now2 node s = (Ok token, s') →
  (∀ rec, m !! node = Some rec → active rec = false) ∧
  holds s' (<[node := issued_record node token issued]> m) now2.
Proof.
  intros Hh Ht Hu Hy. unfold IssueToken. rewrite (holds_get s m t now1) by (done || lia).
  assert (codec_ok (issued_record node token issued)) as Hok.
  { split; [done|]. split; [apply EncodeToString_valid, Sum256_bytes|]. done. }
  destruct (m !! node) as [rec|] eqn:Hm.
  - destruct (active rec) eqn:Ha; [done|]. destruct (generateToken rnd) as [token'|] eqn:Hg; [|done].
    destruct (putAgentToken _ _ _ _) as [[[]|] s1] eqn:Hp; [|done]. intros [= <- <-].
    split; [by intros ? [= <-]|]. eapply holds_put in Hp; [|done|lia|done]. done.
  - destruct (generateToken rnd) as [token'|] eqn:Hg; [|done].
    destruct (putAgentToken _ _ _ _) as [[[]|] s1] eqn:Hp; [|done]. intros [= <- <-].
    split; [done|]. eapply holds_put in Hp; [|done|lia|done]. done.
Qed.

Lemma RevokeToken_ok s m t now1 revoked now2 node s' :
  holds s m t → t <= now1 <= now2 → year_ok revoked →
  RevokeToken Completes Completes now1 revoked now2 node s = (Ok tt, s') →
  ∃ m', holds s' m' now2 ∧ (∀ rec, m' !! node = Some rec → active rec = false) ∧
        ∀ node', node' ≠ node → m' !! node' = m !! node'.
Proof.
  intros Hh Ht Hy. unfold RevokeToken. rewrite (holds_get s m t now1) by (done || lia).
  assert (holds s m now2) as Hlater.
  { destruct Hh as [Hn Hs Hc]. split; [done| |]; intros; [apply (Hs now)|eapply Hc]; done || lia. }
  destruct (m !! node) as [rec|] eqn:Hm.
  - destruct (active rec) eqn:Ha.
    + intros Hp. destruct (holds_node _ _ _ Hh _ _ Hm) as [Hnode (H1 & H2 & H3 & _)].
      eapply holds_put in Hp; [|exact Hh|lia|exact (conj H1 (conj H2 (conj H3 Hy)))]. cbn [at_NodeID] in Hp. rewrite Hnode in Hp.
      eexists. split; [exact Hp|]. rewrite lookup_insert_eq. split; [by intros ? [= <-]|].
      intros. by rewrite lookup_insert_ne.
    + intros [= <-]. exists m. split; [done|]. split; [|done]. intros rec'. by rewrite Hm; intros [= <-].
  - intros [= <-]. exists m. split; [done|]. split; [|done]. by rewrite Hm.
Qed.

(** C22: Tokens follow a table of records by node.  On a store that holds such a
    table, listing returns its records in the order of their nodes, and
    looking a token up returns the node of an active record with the token's
    hash whenever there is one, and no node otherwise. *)
Theorem tokens_refine_table s m t now token :
  holds s m t → t <= now →
  ListTokens Completes now s = Ok (table_list m) ∧
  match LookupNodeID Completes now token s with
  | Ok (node, true) => ∃ rec, m !! node = Some rec ∧ matches (hashToken token) rec
  | Ok (_, false) => ∀ node rec, m !! node = Some rec → ¬ matches (hashToken token) rec
  | Err _ => False
  end.
Proof.
  intros Hh Ht. split; [by eapply holds_list|]. rewrite (holds_lookup _ _ _ _ _ Hh Ht).
  assert (∀ node rec, m !! node = Some rec → at_NodeID rec = node) as Hn.
  { intros node rec Hl. by apply (holds_node _ _ _ Hh). }
  destruct (table_lookup m token) as [node [|]] eqn:Hl; [by apply table_lookup_true|].
  intros node' rec Hm Hmatch. unfold table_lookup in Hl. rewrite lookup_fold in Hl.
  destruct (last _) eqn:Hlast; [done|]. apply last_None in Hlast.
  assert (rec ∈ filter (matches (hashToken token)) (table_list m)) as Hin.
  { apply list_elem_of_filter. split; [done|]. apply elem_of_table_list; [done|]. by rewrite (Hn _ _ Hm). }
  rewrite Hlast in Hin. by apply elem_of_nil in Hin.
Qed.

(** An issued token authenticates its node, and keeps doing so at every
    later time: token records do not expire.  The token's hash must not
    already belong to another node's active record. *)
Lemma issued_token_resolves s m t now1 rnd issued now2 node token s' now :
  holds s m t → t <= now1 <= now2 → Valid_utf8 node → year_ok issued →
  IssueToken Completes Completes now1 rnd issued now2 node s = (Ok token, s') →
  (∀ node' rec, m !! node' = Some rec → matches (hashToken token) rec → node' = node) →
  now2 <= now →
  LookupNodeID Completes now token s' = Ok (node, true).
Proof.
  intros Hh Ht Hu Hy Hissue Hfresh Hnow.
  destruct (IssueToken_ok _ _ _ _ _ _ _ _ _ _ Hh Ht Hu Hy Hissue) as [_ Hh'].
  rewrite (holds_lookup _ _ _ _ _ Hh' Hnow). f_equal.
  eapply (table_lookup_unique _ token node (issued_record node token issued)).
  - intros node' rec Hl. by apply (holds_node _ _ _ Hh').
  - apply lookup_insert_eq.
  - done.
  - intros node' rec. destruct (decide (node' = node)) as [->|Hne]; [done|].
    rewrite lookup_insert_ne by done. apply Hfresh.
Qed.

(** A revoked node is locked out: once [RevokeToken] returns nil, no token
    resolves to the node, at any later time, and the other nodes' records are
    as before. *)
Lemma revoked_node_locked_out s m t now1 revoked now2 node s' now token :
  holds s m t → t <= now1 <= now2 → year_ok revoked →
  RevokeToken Completes Completes now1 revoked now2 node s = (Ok tt, s') →
  now2 <= now →
  LookupNodeID Completes now token s' ≠ Ok (node, true) ∧
  ∀ node', node' ≠ node →
    getAgentToken Completes now node' s' = getAgentToken Completes now node' s.
Proof.
  intros Hh Ht Hy Hrev Hnow.
  destruct (RevokeToken_ok _ _ _ _ _ _ _ _ Hh Ht Hy Hrev) as (m' & Hh' & Hlock & Hother). split.
  - rewrite (holds_lookup _ _ _ _ _ Hh' Hnow). intros [= Hl].
    apply table_lookup_true in Hl as (rec & Hm & Hact & _); [by rewrite (Hlock _ Hm) in Hact|].
    intros node' rec Hl'. by apply (holds_node _ _ _ Hh').
  - intros node' Hne. rewrite (holds_get _ _ _ _ _ Hh' Hnow), (holds_get s m t) by (done || lia).
    by rewrite Hother.
Qed.

(** A token issued for any node id, valid UTF-8 or not. *)
Lemma IssueToken_stored s m t now1 rnd issued now2 node token s' :
  stored s m t → t <= now1 <= now2 → year_ok issued → m !! node = None →
  IssueToken Completes Completes now1 rnd issued now2 node s = (Ok token, s') →
  stored s' (<[node := issued_record (to_valid_utf8 node) token issued]> m) now2.
Proof.
  intros Hh Ht Hy Hm. unfold IssueToken. rewrite (stored_get s m t now1), Hm by (done || lia).
  destruct (generateToken rnd) as [token'|]; [|done].
  destruct (putAgentToken _ _ _ _) as [[[]|] s1] eqn:Hp; [|done]. intros [= -> ->].
  destruct (token_written (issued_record node token issued) Hy I) as (val & Hw & Hr).
  eapply stored_put in Hp; [|done|lia|exact Hw|exact Hr]. revert Hp. unfold token_read, issued_record.
  cbn [at_NodeID at_TokenHash at_IssuedAt at_RevokedAt].
  assert (to_valid_utf8 (hashToken token) = hashToken token) as -> by apply EncodeToString_valid, Sum256_bytes. done.
Qed.

(** C38: A node id that is not valid UTF-8 cannot be revoked.  On any store with
    a table of tokens, after [IssueToken] and then [RevokeToken] for such an id
    both succeeded, the token still authenticates, at any later time: the
    record decodes to a different id, and the revocation is stored under that
    id's key. *)
Theorem invalid_utf8_not_revoked s m t now1 rnd issued now2 now3 revoked now4 now node token s1 s2 :
  holds s m t → t <= now1 <= now2 → now2 <= now3 <= now4 → now4 <= now → year_ok issued → year_ok revoked →
  to_valid_utf8 node ≠ node →
  (∀ node' rec, m !! node' = Some rec → ¬ matches (hashToken token) rec) →
  IssueToken Completes Completes now1 rnd issued now2 node s = (Ok token, s1) →
  RevokeToken Completes Completes now3 revoked now4 node s1 = (Ok tt, s2) →
  LookupNodeID Completes now token s2 = Ok (to_valid_utf8 node, true).
Proof.
  intros Hh Ht1 Ht2 Ht3 Hyi Hyr Hbad Hfresh Hissue Hrevoke.
  assert (m !! node = None) as Hm.
  { destruct (m !! node) as [rec|] eqn:Hm; [|done]. destruct (holds_node _ _ _ Hh _ _ Hm) as [<- [Hv _]]. done. }
  pose proof (IssueToken_stored _ _ _ _ _ _ _ _ _ _ (holds_stored _ _ _ Hh) Ht1 Hyi Hm Hissue) as Hs1.
  set (rec := issued_record (to_valid_utf8 node) token issued) in *.
  unfold RevokeToken in Hrevoke. rewrite (stored_get _ _ _ _ _ Hs1), lookup_insert_eq in Hrevoke by lia.
  cbn [active at_RevokedAt rec issued_record] in Hrevoke.
  destruct (token_written (MkAgentToken (to_valid_utf8 node) (hashToken token) issued (Some revoked)) Hyi Hyr)
    as (val & Hw & Hr).
  eapply stored_put in Hrevoke; [|exact Hs1|lia|exact Hw|exact Hr]. rewrite (stored_lookup _ _ _ _ _ Hrevoke Ht3). f_equal.
  apply (table_lookup_only _ token node rec); [|done|].
  - cbn [at_NodeID]. rewrite lookup_insert_ne by done. apply lookup_insert_eq.
  - intros node' rec'. cbn [at_NodeID]. destruct (decide (node' = to_valid_utf8 node)) as [->|Hne].
    + rewrite lookup_insert_eq. intros [= <-] [Hact _]. done.
    + rewrite lookup_insert_ne by done. destruct (decide (node' = node)) as [->|Hne']; [rewrite lookup_insert_eq; by intros [= <-]|].
      rewrite lookup_insert_ne by done. intros Hl Hmatch. by apply Hfresh in Hl.
Qed.

(** No token is replaced silently: while a node has an active record,
    [IssueToken] fails with [ErrTokenExists] and changes nothing, whatever
    happens to its own transactions. *)
Lemma active_token_kept s m t sch2 now1 rnd issued now2 node rec :
  holds s m t → t <= now1 → m !! node = Some rec → active rec = true →
  IssueToken Completes sch2 now1 rnd issued now2 node s = (Err ErrTokenExists, s).
Proof.
  intros Hh Ht Hm Ha. unfold IssueToken. rewrite (holds_get s m t now1) by done. by rewrite Hm, Ha.
Qed.

End Operations.

(** ** Witnesses *)

Module Example.

#[local] Existing Instance Reference.badger.

Definition T : Z := Store.Example.T.
Definition rnd : result (list Z) := Ok (repeat 0xA5 32).
Definition token : string := EncodeToString (repeat 0xA5 32).

Definition issue (node : string) (s : Store) : result string * Store :=
  IssueToken Completes Completes T rnd T T node s.
Definition revoke (node : string) (s : Store) : result unit * Store :=
  RevokeToken Completes Completes T T T node s.

(** Not valid UTF-8. *)
Definition bad_node : string := of_bytes [0xFF].

Definition s1 : Store := (issue "web-01" Store.Example.store0).2.
Definition m1 : gmap string AgentToken := <["web-01" := issued_record "web-01" token T]> ∅.

Lemma issue_ex : issue "web-01" Store.Example.store0 = (Ok token, s1).
Proof. rewrite (surjective_pairing (issue _ _)). apply (f_equal (., s1)). vm_compute. reflexivity. Qed.

Lemma revoke_ex : revoke "web-01" s1 = (Ok tt, (revoke "web-01" s1).2).
Proof.
  rewrite (surjective_pairing (revoke _ _)) at 1. apply (f_equal (., (revoke "web-01" s1).2)).
  vm_compute. reflexivity.
Qed.

Lemma T_ok : year_ok T.
Proof. by vm_compute. Qed.

Lemma holds_empty : holds Store.Example.store0 ∅ T.
Proof.
  split.
  - intros node rec Hl. by rewrite lookup_empty in Hl.
  - intros now k r _ _ Hin.
    apply (proj1 (Reference.elem_of_ref_items (∅ : Reference.entries) now k r)) in Hin as (v & x & Hk & _).
    discriminate Hk.
  - intros now node rec _ Hl. by rewrite lookup_empty in Hl.
Qed.

Lemma holds_s1 : holds s1 m1 T.
Proof.
  apply (IssueToken_ok _ _ _ T rnd T T "web-01" token s1 holds_empty); [lia|done|apply T_ok|apply issue_ex].
Qed.

Lemma matches_ex : matches (hashToken token) (issued_record "web-01" token T).
Proof. done. Qed.

End Example.

Import Example.
#[local] Existing Instance Reference.badger.

Lemma tokens_refine_table_witness :
  ListTokens Completes (T + Hour) s1 = Ok (table_list m1) ∧
  match LookupNodeID Completes (T + Hour) "guess" s1 with
  | Ok (node, true) => ∃ rec, m1 !! node = Some rec ∧ matches (hashToken "guess") rec
  | Ok (_, false) => ∀ node rec, m1 !! node = Some rec → ¬ matches (hashToken "guess") rec
  | Err _ => False
  end.
Proof. apply (tokens_refine_table s1 m1 T (T + Hour) "guess" holds_s1). by vm_compute. Defined.

Lemma issued_token_resolves_witness : LookupNodeID Completes (T + 1000 * Hour) token s1 = Ok ("web-01", true).
Proof.
  apply (issued_token_resolves _ ∅ T T rnd T T "web-01" token s1 (T + 1000 * Hour) holds_empty);
    [lia|done|apply T_ok|apply issue_ex| |by vm_compute].
  intros node' rec Hl. by rewrite lookup_empty in Hl.
Defined.

Lemma revoked_node_locked_out_witness :
  LookupNodeID Completes (T + Hour) token (revoke "web-01" s1).2 ≠ Ok ("web-01", true) ∧
  ∀ node', node' ≠ "web-01" →
    getAgentToken Completes (T + Hour) node' (revoke "web-01" s1).2 = getAgentToken Completes (T + Hour) node' s1.
Proof.
  apply (revoked_node_locked_out s1 m1 T T T T "web-01" _ (T + Hour) token holds_s1);
    [lia|apply T_ok|apply revoke_ex|by vm_compute].
Defined.

Lemma active_token_kept_witness :
  IssueToken Completes Completes (T + Hour) rnd T (T + Hour) "web-01" s1 = (Err ErrTokenExists, s1).
Proof.
  apply (active_token_kept s1 m1 T Completes (T + Hour) rnd T (T + Hour) "web-01"
           (issued_record "web-01" token T) holds_s1); [by vm_compute|apply lookup_insert_eq|done].
Defined.

Lemma invalid_utf8_not_revoked_witness :
  LookupNodeID Completes (T + Hour) token (revoke bad_node (issue bad_node Store.Example.store0).2).2 = Ok (fffd, true).
Proof.
  assert (issue bad_node Store.Example.store0 = (Ok token, (issue bad_node Store.Example.store0).2)) as Hi.
  { rewrite (surjective_pairing (issue _ _)) at 1. apply (f_equal (., _)). vm_compute. reflexivity. }
  assert (revoke bad_node (issue bad_node Store.Example.store0).2
    = (Ok tt, (revoke bad_node (issue bad_node Store.Example.store0).2).2)) as Hr.
  { rewrite (surjective_pairing (revoke _ _)) at 1. apply (f_equal (., _)). vm_compute. reflexivity. }
  assert (T <= T <= T) as Ht by lia. assert (T <= T + Hour) as Hl by (by vm_compute).
  refine (invalid_utf8_not_revoked _ ∅ T T rnd T T T T T (T + Hour) bad_node token _ _ holds_empty Ht Ht Hl T_ok T_ok _ _ Hi Hr);
    [discriminate|].
  intros node' rec Hk. by rewrite lookup_empty in Hk.
Defined.

End AgentTokens.
