(* ===== verification/Notify.v ===== *)
(** * Alert notifications ([internal/notify])

    The dispatcher's gates, its bounded asynchronous delivery, the two
    channels' messages, and the configuration from the environment.

    Goroutines are explicit.  [DispatchAsync] takes a slot of the semaphore
    and starts a goroutine, an entry of [inflight]; the goroutine passes or
    fails the gate in one step, under the mutex, with the clock reading it
    made before taking it, so the readings of two goroutines may reach the
    gate in any order; a delivery that passed the gate ends in a later step,
    which frees the slot. *)

From S2P Require Import Prelude GoStrings GoFloat GoTime GoJson GoDuration StoreData.
Import GoStrings GoFloat GoTime GoJson GoDuration.

Module Notify.

(** ** Severities *)

Definition severityRank : gmap string Z :=
  list_to_map [("info", 0); ("low", 0); ("warning", 1); ("warn", 1); ("medium", 1);
               ("high", 2); ("critical", 2); ("error", 2)].

Definition rankOf (severity : string) : Z :=
  default 0 (severityRank !! ToLower (TrimSpace severity)).

(** ** Channels *)

Definition crlf : string := of_bytes [13; 10].

Definition formatSlackText (a : Alert) : string :=
  ":rotating_light: *[" +:+ al_Severity a +:+ "]* " +:+ al_Message a +:+ of_bytes [10] +:+
  "> node: `" +:+ al_NodeID a +:+ "`  rule: `" +:+ al_RuleID a +:+ "`  event: `" +:+ al_EventID a +:+
  "`  at " +:+ RFC3339 (al_Timestamp a).

Record EmailConfig := MkEmailConfig {
  ec_Addr : string; ec_Username : string; ec_Password : string; ec_From : string; ec_To : list string;
}.

(** The credentials of [smtp.PlainAuth]. *)
Record PlainAuth := MkPlainAuth { pa_username : string; pa_password : string; pa_host : string }.

Record EmailNotifier := MkEmailNotifier {
  en_addr : string; en_auth : option PlainAuth; en_from : string; en_to : list string;
}.

(** [host[:i]] for the last colon at [i], or all of [host]. *)
Fixpoint before_last_colon (s : string) : option string :=
  match s with
  | EmptyString => None
  | String c s' =>
      match before_last_colon s' with
      | Some h => Some (String c h)
      | None => if decide (c = ":"%char) then Some "" else None
      end
  end.

Definition NewEmailNotifier (cfg : EmailConfig) : EmailNotifier :=
  let auth :=
    if ec_Username cfg <>s "" then
      Some (MkPlainAuth (ec_Username cfg) (ec_Password cfg)
              (default (ec_Addr cfg) (before_last_colon (ec_Addr cfg))))
    else None in
  MkEmailNotifier (ec_Addr cfg) auth (ec_From cfg) (ec_To cfg).

Definition email_subject (a : Alert) : string :=
  "[SentinelMesh][" +:+ al_Severity a +:+ "] " +:+ al_Message a.

Definition email_body (a : Alert) : string :=
  "A SentinelMesh alert was triggered." +:+ crlf +:+ crlf +:+
  "Severity: " +:+ al_Severity a +:+ crlf +:+
  "Message:  " +:+ al_Message a +:+ crlf +:+
  "Node:     " +:+ al_NodeID a +:+ crlf +:+
  "Rule:     " +:+ al_RuleID a +:+ crlf +:+
  "Event:    " +:+ al_EventID a +:+ crlf +:+
  "Time:     " +:+ RFC3339 (al_Timestamp a) +:+ crlf.

Definition buildMessage (e : EmailNotifier) (a : Alert) : string :=
  "From: " +:+ en_from e +:+ crlf +:+
  "To: " +:+ Join (en_to e) ", " +:+ crlf +:+
  "Subject: " +:+ email_subject a +:+ crlf +:+
  "MIME-Version: 1.0" +:+ crlf +:+
  "Content-Type: text/plain; charset=" +:+ String quote ("utf-8" +:+ String quote "") +:+ crlf +:+
  crlf +:+
  email_body a.

(** A Slack notifier; its HTTP client is given by the client's timeout. *)
Record SlackNotifier := MkSlackNotifier { webhookURL : string; client_timeout : Z }.

Definition NewSlackNotifier (url : string) (client : option Z) : SlackNotifier :=
  MkSlackNotifier url (match client with None => 10 * Second | Some timeout => timeout end).

Inductive Notifier :=
| Slack (s : SlackNotifier)
| Email (e : EmailNotifier).

Definition Name (n : Notifier) : string :=
  match n with Slack _ => "slack" | Email _ => "email" end.

(** [Send], with the HTTP client and the SMTP transport as arguments: [post]
    returns the status code of a POST, under a timeout, of a body to a URL, [newRequest] the
    error of [http.NewRequestWithContext] on a URL, [mail] delivers a message
    with an address, credentials, a sender and recipients. *)
Section Send.
Context (newRequest : string → option error).
Context (post : Z → string → string → result Z).
Context (mail : string → option PlainAuth → string → list string → string → option error).

Definition slack_body (a : Alert) : string := encode_object [("text", Quote (formatSlackText a))].

Definition slack_Send (s : SlackNotifier) (a : Alert) : option error :=
  match newRequest (webhookURL s) with
  | Some e => Some ("build slack request: " +:+ e)
  | None =>
      match post (client_timeout s) (webhookURL s) (slack_body a) with
      | Err e => Some ("post to slack: " +:+ e)
      | Ok code =>
          if (code <? 200) || (code >=? 300)
          then Some ("slack webhook returned status " +:+ Itoa code)
          else None
      end
  end.

Definition email_Send (e : EmailNotifier) (a : Alert) : option error :=
  match en_to e with
  | [] => Some "no recipients configured"
  | _ =>
      match mail (en_addr e) (en_auth e) (en_from e) (en_to e) (buildMessage e a) with
      | Some err => Some ("send email: " +:+ err)
      | None => None
      end
  end.

Definition Send (n : Notifier) (a : Alert) : option error :=
  match n with
  | Slack s => slack_Send s a
  | Email e => email_Send e a
  end.
End Send.

(** ** The dispatcher *)

Definition maxConcurrentDispatch : Z := 32.

(** A goroutine started by [DispatchAsync]: before the gate, or delivering. *)
Inductive goroutine :=
| Started (a : Alert)
| Sending (a : Alert).

Record Dispatcher := MkDispatcher {
  notifiers : list Notifier;
  cooldown : Z;
  minRank : Z;
  timeout : Z;
  lastSent : gmap string Z;
  dropped : Z;
  inflight : list goroutine;
}.

Record Options := MkOptions {
  o_Notifiers : list Notifier; o_Cooldown : Z; o_MinSeverity : string; o_SendTimeout : Z;
}.

Definition NewDispatcher (opts : Options) : Dispatcher :=
  let minSev := if o_MinSeverity opts =s "" then "warning" else o_MinSeverity opts in
  let timeout := if o_SendTimeout opts <=? 0 then 10 * Second else o_SendTimeout opts in
  MkDispatcher (o_Notifiers opts) (o_Cooldown opts) (rankOf minSev) timeout ∅ 0 [].

Definition Enabled (d : Dispatcher) : bool := (0 <? length (notifiers d))%nat.

Definition cooldown_key (a : Alert) : string := al_RuleID a +:+ of_bytes [0] +:+ al_NodeID a.

Definition with_sent (d : Dispatcher) (m : gmap string Z) : Dispatcher :=
  MkDispatcher (notifiers d) (cooldown d) (minRank d) (timeout d) m (dropped d) (inflight d).

Definition with_inflight (d : Dispatcher) (l : list goroutine) : Dispatcher :=
  MkDispatcher (notifiers d) (cooldown d) (minRank d) (timeout d) (lastSent d) (dropped d) l.

Definition shouldSend (now : Z) (a : Alert) (d : Dispatcher) : bool * Dispatcher :=
  if rankOf (al_Severity a) <? minRank d then (false, d)
  else if cooldown d <=? 0 then (true, d)
  else
    let key := cooldown_key a in
    if match lastSent d !! key with Some last => Sub now last <? cooldown d | None => false end
    then (false, d)
    else (true, with_sent d (<[key := now]> (lastSent d))).

Definition DispatchAsync (a : Alert) (d : Dispatcher) : Dispatcher :=
  if negb (Enabled d) then d
  else if Z.of_nat (length (inflight d)) <? maxConcurrentDispatch
  then with_inflight d (inflight d ++ [Started a])
  else MkDispatcher (notifiers d) (cooldown d) (minRank d) (timeout d) (lastSent d)
         (wrapu64 (dropped d + 1)) (inflight d).

(** The loop of [Dispatch] over the channels: every one is tried, whatever the
    others return; the result is what was tried and how it ended. *)
Definition attempts (send : Notifier → Alert → option error) (a : Alert) (l : list Notifier)
    : list (string * option error) :=
  (λ n, (Name n, send n a)) <$> l.

Definition Dispatch (send : Notifier → Alert → option error) (now : Z) (a : Alert) (d : Dispatcher)
    : list (string * option error) * Dispatcher :=
  if negb (Enabled d) then ([], d)
  else
    let '(ok, d) := shouldSend now a d in
    if ok then (attempts send a (notifiers d), d) else ([], d).

(** The steps of the goroutines. *)
Definition gate (i : nat) (now : Z) (d : Dispatcher) : bool * Dispatcher :=
  match inflight d !! i with
  | Some (Started a) =>
      let '(ok, d) := shouldSend now a d in
      if ok then (true, with_inflight d (<[i := Sending a]> (inflight d)))
      else (false, with_inflight d (delete i (inflight d)))
  | _ => (false, d)
  end.

Definition finish (i : nat) (d : Dispatcher) : Dispatcher :=
  match inflight d !! i with
  | Some (Sending a) => with_inflight d (delete i (inflight d))
  | _ => d
  end.

(** ** Configuration from the environment *)

Definition envSlackWebhook : string := "SENTINEL_SLACK_WEBHOOK_URL".
Definition envSMTPAddr : string := "SENTINEL_SMTP_ADDR".
Definition envSMTPUser : string := "SENTINEL_SMTP_USER".
Definition envSMTPPassword : string := "SENTINEL_SMTP_PASSWORD".
Definition envSMTPFrom : string := "SENTINEL_SMTP_FROM".
Definition envSMTPTo : string := "SENTINEL_SMTP_TO".
Definition envCooldown : string := "SENTINEL_NOTIFY_COOLDOWN".
Definition envMinSeverity : string := "SENTINEL_NOTIFY_MIN_SEVERITY".
Definition defaultCooldown : Z := 5 * Minute.

Definition splitAndTrim (csv : string) : list string :=
  filter (λ p, p ≠ "") (TrimSpace <$> Split csv ",").

(** [Getenv] is the process environment; an unset variable reads as empty. *)
Definition env_notifiers (Getenv : string → string) : list Notifier :=
  let url := TrimSpace (Getenv envSlackWebhook) in
  let slack := if url <>s "" then [Slack (NewSlackNotifier url None)] else [] in
  let addr := TrimSpace (Getenv envSMTPAddr) in
  let email :=
    if addr <>s "" then
      let to := splitAndTrim (Getenv envSMTPTo) in
      let from := TrimSpace (Getenv envSMTPFrom) in
      if (from <>s "") && (0 <? length to)%nat then
        [Email (NewEmailNotifier
           (MkEmailConfig addr (TrimSpace (Getenv envSMTPUser)) (Getenv envSMTPPassword) from to))]
      else []
    else [] in
  slack ++ email.

Definition env_cooldown (Getenv : string → string) : Z :=
  let v := TrimSpace (Getenv envCooldown) in
  if v <>s "" then default defaultCooldown (ParseDuration v) else defaultCooldown.

Definition DispatcherFromEnv (Getenv : string → string) : Dispatcher :=
  NewDispatcher (MkOptions (env_notifiers Getenv) (env_cooldown Getenv) (TrimSpace (Getenv envMinSeverity)) 0).

(** ** Runs *)

Inductive step :=
| Async (a : Alert)
| Gate (i : nat) (now : Z)
| Finish (i : nat).

(** The alert a gate step lets through, with the time it was let through. *)
Definition passed (st : step) (d : Dispatcher) : option (Alert * Z) :=
  match st with
  | Gate i now =>
      match inflight d !! i with
      | Some (Started a) => if (shouldSend now a d).1 then Some (a, now) else None
      | _ => None
      end
  | _ => None
  end.

Definition exec (st : step) (d : Dispatcher) : Dispatcher :=
  match st with
  | Async a => DispatchAsync a d
  | Gate i now => (gate i now d).2
  | Finish i => finish i d
  end.

(** The alerts let through, in order, and the final state. *)
Fixpoint run (steps : list step) (d : Dispatcher) : list (Alert * Z) * Dispatcher :=
  match steps with
  | [] => ([], d)
  | st :: steps =>
      let '(out, d') := run steps (exec st d) in
      (match passed st d with Some p => p :: out | None => out end, d')
  end.

(** ** The gate over the whole history *)

(** The times at which alerts of a key were let through. *)
Definition sent_times (key : string) (out : list (Alert * Z)) : list Z :=
  snd <$> filter (λ p, cooldown_key p.1 = key) out.

(** [gap c l]: the times [l] are at least [c] apart. *)
Definition gap (c : Z) (l : list Z) : Prop := StronglySorted (λ t t', c <= t' - t) l.

Record gate_inv (d : Dispatcher) (out : list (Alert * Z)) : Prop := {
  inv_last : ∀ key, lastSent d !! key = last (sent_times key out);
  inv_gap : ∀ key, gap (cooldown d) (sent_times key out);
}.

Lemma gap_last c l t t' : 0 < c → gap c l → last l = Some t → c <= t' - t → gap c (l ++ [t']).
Proof.
  intros Hc Hg Hl Ht. apply StronglySorted_app_2; [|done|repeat constructor].
  intros x y Hx ->%list_elem_of_singleton.
  destruct l as [|a l _] using rev_ind; [done|]. rewrite last_snoc in Hl. injection Hl as ->.
  apply elem_of_app in Hx as [Hx| ->%list_elem_of_singleton]; [|done].
  apply StronglySorted_app in Hg as (Hg & _). specialize (Hg x t Hx (list_elem_of_here _ _)). lia.
Qed.

Lemma sent_times_snoc key out a now :
  sent_times key (out ++ [(a, now)]) =
  if decide (cooldown_key a = key) then sent_times key out ++ [now] else sent_times key out.
Proof.
  unfold sent_times. rewrite filter_app, fmap_app, filter_cons, filter_nil. simpl.
  case_decide; [done|]. by rewrite app_nil_r.
Qed.

Definition passes_gate (d : Dispatcher) (now : Z) (a : Alert) (out : list (Alert * Z)) : Prop :=
  minRank d <= rankOf (al_Severity a) ∧
  ∀ t, t ∈ sent_times (cooldown_key a) out → cooldown d <= now - t.

Lemma shouldSend_spec d out now a :
  gate_inv d out → 0 < cooldown d → in_int64 (cooldown d) →
  (shouldSend now a d).1 = true ↔ passes_gate d now a out.
Proof.
  intros [Hlast Hgap] Hc Hin. unfold shouldSend, passes_gate.
  destruct (Z.ltb_spec (rankOf (al_Severity a)) (minRank d)) as [Hr|Hr]; [simpl; split; [done|lia]|].
  rewrite (proj2 (Z.leb_gt (cooldown d) 0)) by done. rewrite Hlast.
  specialize (Hgap (cooldown_key a)). revert Hgap. generalize (sent_times (cooldown_key a) out). intros l Hgap.
  destruct (last l) as [t|] eqn:Hl; cycle 1.
  { apply last_None in Hl as ->. simpl. split; [|done]. intros _. split; [done|]. intros t Ht. by apply elem_of_nil in Ht. }
  assert (t ∈ l) as Htin by (rewrite last_lookup in Hl; by eapply list_elem_of_lookup_2).
  assert (∀ x, x ∈ l → x <= t) as Hmax.
  { intros x Hx. destruct l as [|y l _] using rev_ind; [done|]. rewrite last_snoc in Hl. injection Hl as ->.
    apply elem_of_app in Hx as [Hx| ->%list_elem_of_singleton]; [|done].
    apply StronglySorted_app in Hgap as (Hg & _). specialize (Hg x t Hx (list_elem_of_here _ _)). lia. }
  assert (Sub now t < cooldown d ↔ now - t < cooldown d) as Hsub.
  { unfold Sub. apply sat64_lt; [done|]. unfold min_int64. lia. }
  destruct (Z.ltb_spec (Sub now t) (cooldown d)) as [Hlt|Hge]; simpl.
  - split; [done|]. intros [_ Hall]. specialize (Hall t Htin). lia.
  - split; [|done]. intros _. split; [done|]. intros x Hx. specialize (Hmax x Hx). lia.
Qed.

Lemma shouldSend_inv d out now a :
  gate_inv d out → 0 < cooldown d → in_int64 (cooldown d) →
  gate_inv (shouldSend now a d).2 (if (shouldSend now a d).1 then out ++ [(a, now)] else out).
Proof.
  intros Hinv Hc Hin. pose proof (shouldSend_spec d out now a Hinv Hc Hin) as Hspec.
  destruct ((shouldSend now a d).1) eqn:Hs; [|destruct Hinv; by revert Hs; unfold shouldSend; repeat case_match].
  apply proj1 in Hspec. specialize (Hspec eq_refl) as [_ Hall]. destruct Hinv as [Hlast Hgap].
  assert ((shouldSend now a d).2 = with_sent d (<[cooldown_key a := now]> (lastSent d))) as ->.
  { revert Hs. unfold shouldSend. rewrite (proj2 (Z.leb_gt (cooldown d) 0)) by done. by repeat case_match. }
  split; intros key; rewrite sent_times_snoc; cbn [lastSent cooldown with_sent].
  - destruct (decide (cooldown_key a = key)) as [<-|Hne].
    + by rewrite lookup_insert_eq, last_snoc.
    + by rewrite lookup_insert_ne.
  - destruct (decide (cooldown_key a = key)) as [<-|Hne]; [|done].
    destruct (last (sent_times (cooldown_key a) out)) as [t|] eqn:Hl.
    + eapply gap_last; [done..|]. apply Hall. rewrite last_lookup in Hl. by eapply list_elem_of_lookup_2.
    + apply last_None in Hl. rewrite Hl. repeat constructor.
Qed.

Lemma shouldSend_config now a d :
  let d' := (shouldSend now a d).2 in
  cooldown d' = cooldown d ∧ minRank d' = minRank d ∧ notifiers d' = notifiers d ∧
  inflight d' = inflight d ∧ dropped d' = dropped d.
Proof. unfold shouldSend. by repeat case_match. Qed.

Lemma exec_config st d :
  cooldown (exec st d) = cooldown d ∧ minRank (exec st d) = minRank d ∧ notifiers (exec st d) = notifiers d.
Proof.
  destruct st as [a|i now|i]; simpl.
  - unfold DispatchAsync. by repeat case_match.
  - unfold gate. destruct (inflight d !! i) as [[a|a]|]; [|done..].
    pose proof (shouldSend_config now a d) as (?&?&?&_). destruct (shouldSend now a d) as [ok d'].
    by destruct ok.
  - unfold finish. by repeat case_match.
Qed.

Lemma exec_inv st d out :
  gate_inv d out → 0 < cooldown d → in_int64 (cooldown d) →
  gate_inv (exec st d) (out ++ match passed st d with Some p => [p] | None => [] end).
Proof.
  intros Hinv Hc Hin. destruct st as [a|i now|i]; cbn [exec passed].
  - rewrite app_nil_r. unfold DispatchAsync. destruct Hinv. repeat case_match; by split.
  - unfold gate. destruct (inflight d !! i) as [[a|a]|]; [|by rewrite app_nil_r..].
    pose proof (shouldSend_inv d out now a Hinv Hc Hin) as Hinv'.
    destruct (shouldSend now a d) as [[] d']; cbn [fst snd] in *; rewrite ?app_nil_r; destruct Hinv'; by split.
  - rewrite app_nil_r. unfold finish. destruct Hinv. repeat case_match; by split.
Qed.

Lemma run_inv steps d out0 out d' :
  gate_inv d out0 → 0 < cooldown d → in_int64 (cooldown d) → run steps d = (out, d') →
  gate_inv d' (out0 ++ out) ∧ cooldown d' = cooldown d ∧ minRank d' = minRank d ∧ notifiers d' = notifiers d.
Proof.
  revert d out0 out. induction steps as [|st steps IH]; intros d out0 out Hinv Hc Hin; cbn [run].
  { intros [= <- <-]. by rewrite app_nil_r. }
  destruct (run steps (exec st d)) as [out1 d1] eqn:Hrun. intros [= <- <-].
  destruct (exec_config st d) as (Ec & Em & En).
  destruct (IH (exec st d) (out0 ++ match passed st d with Some p => [p] | None => [] end) out1)
    as (Hinv' & Hc' & Hm' & Hn'); [by apply exec_inv|by rewrite Ec|by rewrite Ec|done|].
  split; [rewrite <-app_assoc in Hinv'; by destruct (passed st d)|]. repeat split; congruence.
Qed.

Lemma cooldown_key_inj a b :
  no_char (byte_of 0) (al_RuleID a) → no_char (byte_of 0) (al_RuleID b) →
  cooldown_key a = cooldown_key b ↔ al_RuleID a = al_RuleID b ∧ al_NodeID a = al_NodeID b.
Proof.
  intros Ha Hb. unfold cooldown_key. split; [|by intros [-> ->]].
  by apply (no_char_cut (byte_of 0)).
Qed.

(** ** What the dispatcher promises *)

(** C16: The cooldown over the whole history.  In any interleaving of alerts and
    deliveries of a fresh dispatcher with a positive cooldown, an alert about
    to be gated is let through exactly when its severity reaches the floor and
    every alert of the same rule and node let through before is at least the
    cooldown older; alerts of other rules and nodes have no influence.  Rule
    ids must not contain a NUL byte. *)
Theorem gate_exact opts steps out d i a now :
  0 < o_Cooldown opts → in_int64 (o_Cooldown opts) →
  run steps (NewDispatcher opts) = (out, d) →
  inflight d !! i = Some (Started a) →
  no_char (byte_of 0) (al_RuleID a) → Forall (λ p, no_char (byte_of 0) (al_RuleID p.1)) out →
  (gate i now d).1 = true ↔
  minRank (NewDispatcher opts) <= rankOf (al_Severity a) ∧
  Forall (λ p, al_RuleID p.1 = al_RuleID a → al_NodeID p.1 = al_NodeID a → o_Cooldown opts <= now - p.2) out.
Proof.
  intros Hc Hin Hrun Hi Ha Hout.
  assert (gate_inv (NewDispatcher opts) []) as H0 by (split; intros; [done|constructor]).
  destruct (run_inv _ _ _ _ _ H0 Hc Hin Hrun) as (Hinv & Ec & Em & _). cbn [app] in Hinv.
  unfold gate. rewrite Hi. pose proof (shouldSend_spec d out now a Hinv) as Hspec.
  rewrite Ec in Hspec. specialize (Hspec Hc Hin). destruct (shouldSend now a d) as [ok d1]. cbn [fst] in Hspec.
  transitivity (ok = true); [by destruct ok|]. rewrite Hspec. unfold passes_gate. rewrite Em, Ec.
  apply and_iff_compat_l. unfold sent_times. rewrite !Forall_forall in *. split.
  - intros Hall [a' t] Hp HR HN. apply Hall, list_elem_of_fmap. exists (a', t). split; [done|].
    apply list_elem_of_filter. split; [|done]. apply cooldown_key_inj; [apply (Hout _ Hp)|done|done].
  - intros Hall t ([a' t'] & -> & [Hk Hp]%list_elem_of_filter)%list_elem_of_fmap.
    apply cooldown_key_inj in Hk as [HR HN]; [|apply (Hout _ Hp)|done]. by apply (Hall (a', t')).
Qed.

(** Notifications of one rule and node are spaced: whatever the
    interleaving, and even when clock readings reach the gate out of order,
    two alerts with the same rule and node that are let through are at least
    the cooldown apart, the later one in the run being the later in time. *)
Theorem cooldown_respected opts steps out d :
  0 < o_Cooldown opts → in_int64 (o_Cooldown opts) →
  run steps (NewDispatcher opts) = (out, d) →
  ∀ key, StronglySorted (λ t t', o_Cooldown opts <= t' - t) (sent_times key out).
Proof.
  intros Hc Hin Hrun.
  assert (gate_inv (NewDispatcher opts) []) as H0 by (split; intros; [done|constructor]).
  destruct (run_inv _ _ _ _ _ H0 Hc Hin Hrun) as (Hinv & Ec & _). cbn [app] in Hinv.
  intros key. pose proof (inv_gap _ _ Hinv key) as Hg. unfold gap in Hg. by rewrite Ec in Hg.
Qed.

(** *** Accounting *)

Definition alert_of (g : goroutine) : Alert := match g with Started a => a | Sending a => a end.
Definition sending_of (g : goroutine) : option Alert := match g with Started _ => None | Sending a => Some a end.

(** What becomes of alerts in a step: an asynchronous call asks for one to be
    notified; a call at the limit is turned away; a goroutine that fails the
    gate suppresses its alert; one that returns from its channels is done. *)
Definition asked (st : step) (d : Dispatcher) : list Alert :=
  match st with Async a => [a] | _ => [] end.

Definition turned_away (st : step) (d : Dispatcher) : list Alert :=
  match st with
  | Async a => if Z.of_nat (length (inflight d)) <? maxConcurrentDispatch then [] else [a]
  | _ => []
  end.

Definition suppressed (st : step) (d : Dispatcher) : list Alert :=
  match st with
  | Gate i now =>
      match inflight d !! i with
      | Some (Started a) => if (shouldSend now a d).1 then [] else [a]
      | _ => []
      end
  | _ => []
  end.

Definition returned (st : step) (d : Dispatcher) : list Alert :=
  match st with Finish i => match inflight d !! i with Some (Sending a) => [a] | _ => [] end | _ => [] end.

Fixpoint over (f : step → Dispatcher → list Alert) (steps : list step) (d : Dispatcher) : list Alert :=
  match steps with [] => [] | st :: steps => f st d ++ over f steps (exec st d) end.

Definition in_flight (d : Dispatcher) : list Alert := alert_of <$> inflight d.
Definition in_delivery (d : Dispatcher) : list Alert := omap sending_of (inflight d).
Definition let_through (st : step) (d : Dispatcher) : list Alert := from_option (λ p, [p.1]) [] (passed st d).

Lemma shouldSend_inflight now a d :
  inflight (shouldSend now a d).2 = inflight d ∧ dropped (shouldSend now a d).2 = dropped d ∧
  notifiers (shouldSend now a d).2 = notifiers d.
Proof. pose proof (shouldSend_config now a d) as (_&_&?&?&?). done. Qed.

(** No alert is lost or made up in a step. *)
Lemma exec_alerts st d :
  Enabled d = true →
  asked st d ++ in_flight d ≡ₚ turned_away st d ++ suppressed st d ++ returned st d ++ in_flight (exec st d).
Proof.
  intros He. unfold in_flight. destruct st as [a|i now|i]; cbn [asked turned_away suppressed returned app exec].
  - unfold DispatchAsync. rewrite He. cbn [negb]. case_match; cbn [app inflight with_inflight]; [|done].
    rewrite fmap_app. apply (Permutation_app_comm [a]).
  - unfold gate. destruct (inflight d !! i) as [[a|a]|] eqn:Hi; [|done..].
    destruct (shouldSend_inflight now a d) as (Ei & _). destruct (shouldSend now a d) as [[] d']; cbn [fst snd] in *;
      cbn [inflight with_inflight app]; rewrite Ei.
    + rewrite list_fmap_insert. cbn [alert_of]. rewrite list_insert_id; [done|]. by rewrite list_lookup_fmap, Hi.
    + by rewrite (delete_Permutation _ _ _ Hi) at 1.
  - unfold finish. destruct (inflight d !! i) as [[a|a]|] eqn:Hi; [done| |done].
    cbn [inflight with_inflight app]. by rewrite (delete_Permutation _ _ _ Hi) at 1.
Qed.

Lemma delete_insert_same {A} (l : list A) i x : delete i (<[i:=x]> l) = delete i l.
Proof. revert i. induction l as [|y l IH]; intros [|i]; cbn; by rewrite ?IH. Qed.

Lemma sending_delete (l : list goroutine) i g :
  l !! i = Some g → omap sending_of l ≡ₚ option_list (sending_of g) ++ omap sending_of (delete i l).
Proof. intros Hi. rewrite (delete_Permutation _ _ _ Hi) at 1. by destruct g. Qed.

(** A delivery starts at the gate and lasts until the goroutine returns. *)
Lemma exec_deliveries st d : let_through st d ++ in_delivery d ≡ₚ returned st d ++ in_delivery (exec st d).
Proof.
  unfold in_delivery, let_through. destruct st as [a|i now|i]; cbn [passed from_option returned app exec].
  - unfold DispatchAsync. repeat case_match; cbn [inflight with_inflight]; rewrite ?omap_app; cbn; by rewrite ?app_nil_r.
  - unfold gate. destruct (inflight d !! i) as [[a|a]|] eqn:Hi; [|done..].
    destruct (shouldSend_inflight now a d) as (Ei & _). destruct (shouldSend now a d) as [[] d']; cbn [fst snd] in *;
      cbn [from_option fst app inflight with_inflight]; rewrite Ei, (sending_delete _ _ _ Hi); [|done].
    rewrite (sending_delete (<[i:=Sending a]> (inflight d)) i (Sending a))
      by (apply list_lookup_insert_eq; by eapply lookup_lt_Some).
    cbn. by rewrite delete_insert_same.
  - unfold finish. destruct (inflight d !! i) as [[a|a]|] eqn:Hi; [done| |done].
    cbn [inflight with_inflight app]. by rewrite (sending_delete _ _ _ Hi).
Qed.

(** The semaphore's bound and the counter of alerts turned away. *)
Lemma exec_bounded st d :
  Enabled d = true → Z.of_nat (length (inflight d)) <= maxConcurrentDispatch →
  Z.of_nat (length (inflight (exec st d))) <= maxConcurrentDispatch ∧ Enabled (exec st d) = true ∧
  ∀ x, dropped d = wrapu64 x → dropped (exec st d) = wrapu64 (x + Z.of_nat (length (turned_away st d))).
Proof.
  intros He Hb. pose proof (Permutation_length (exec_alerts st d He)) as Hlen.
  unfold in_flight in Hlen. rewrite !length_app, !length_fmap in Hlen.
  destruct st as [a|i now|i]; cbn [asked turned_away suppressed returned length] in *.
  - split; [|split]; [..|intros x Hx]; revert Hlen; cbn [exec]; unfold DispatchAsync; rewrite He; cbn [negb];
      destruct (Z.ltb_spec (Z.of_nat (length (inflight d))) maxConcurrentDispatch); cbn [with_inflight inflight length dropped];
      try done; try lia; intros _; rewrite ?Z.add_0_r, ?Hx; try done.
    unfold wrapu64. by rewrite Z.add_mod_idemp_l.
  - split; [lia|]. cbn [exec]. unfold gate, Enabled in *.
    destruct (inflight d !! i) as [[a|a]|]; [|split; [done|]; intros x Hx; by rewrite Z.add_0_r..].
    destruct (shouldSend_inflight now a d) as (_ & Ed & En). split; [|intros x Hx; rewrite Z.add_0_r, <-Hx];
      destruct (shouldSend now a d) as [[] d']; cbn [snd with_inflight notifiers dropped] in *; by rewrite ?En, ?Ed.
  - split; [lia|]. cbn [exec]. unfold finish, Enabled in *.
    split; [by repeat case_match|]. intros x Hx. rewrite Z.add_0_r, <-Hx. by repeat case_match.
Qed.

Lemma run_accounted steps d0 x out d :
  Enabled d0 = true → Z.of_nat (length (inflight d0)) <= maxConcurrentDispatch → dropped d0 = wrapu64 x →
  run steps d0 = (out, d) →
  Z.of_nat (length (inflight d)) <= maxConcurrentDispatch ∧
  over asked steps d0 ++ in_flight d0 ≡ₚ
    over turned_away steps d0 ++ over suppressed steps d0 ++ over returned steps d0 ++ in_flight d ∧
  out.*1 ++ in_delivery d0 ≡ₚ over returned steps d0 ++ in_delivery d ∧
  dropped d = wrapu64 (x + Z.of_nat (length (over turned_away steps d0))).
Proof.
  revert d0 x out. induction steps as [|st steps IH]; intros d0 x out He Hb Hx; cbn [run over].
  { intros [= <- <-]. cbn. by rewrite Z.add_0_r. }
  destruct (run steps (exec st d0)) as [out1 d1] eqn:Hrun. intros [= <- <-].
  destruct (exec_bounded st d0 He Hb) as (Hb' & He' & Hd').
  destruct (IH _ _ _ He' Hb' (Hd' x Hx) Hrun) as (H1 & H2 & H3 & H4). split; [done|]. split_and!.
  - rewrite <-(assoc_L (++)), (Permutation_app_comm (over asked _ _)), (assoc_L (++)), (exec_alerts st d0 He).
    rewrite <-!(assoc_L (++)), (Permutation_app_comm (in_flight _)), H2. solve_Permutation.
  - transitivity (let_through st d0 ++ out1.*1 ++ in_delivery d0).
    { unfold let_through. by destruct (passed st d0). }
    rewrite (Permutation_app_comm (out1.*1)), (assoc_L (++)), (exec_deliveries st d0), <-!(assoc_L (++)).
    by rewrite (Permutation_app_comm (in_delivery _)), H3.
  - rewrite H4, length_app. f_equal. lia.
Qed.

(** C29: Asynchronous delivery is bounded and loses no alert.  In every
    interleaving of calls and goroutines of a dispatcher with a channel, at
    most [maxConcurrentDispatch] deliveries are in flight; the alerts it was
    asked to notify are, one for one, those turned away while the limit was
    reached, those the gate suppressed, those whose delivery has returned and
    those in flight; the alerts the gate let through are those whose delivery
    has returned and those being delivered; and the dropped counter is the
    number of alerts turned away, modulo [2^64]. *)
Theorem dispatch_accounted opts steps out d :
  o_Notifiers opts ≠ [] →
  run steps (NewDispatcher opts) = (out, d) →
  Z.of_nat (length (inflight d)) <= maxConcurrentDispatch ∧
  over asked steps (NewDispatcher opts) ≡ₚ
    over turned_away steps (NewDispatcher opts) ++ over suppressed steps (NewDispatcher opts) ++
    over returned steps (NewDispatcher opts) ++ (alert_of <$> inflight d) ∧
  out.*1 ≡ₚ over returned steps (NewDispatcher opts) ++ omap sending_of (inflight d) ∧
  dropped d = wrapu64 (Z.of_nat (length (over turned_away steps (NewDispatcher opts)))).
Proof.
  intros Hn Hrun.
  assert (Enabled (NewDispatcher opts) = true) as He by (unfold Enabled; cbn; by destruct (o_Notifiers opts)).
  destruct (run_accounted steps (NewDispatcher opts) 0 out d He ltac:(done) eq_refl Hrun) as (H1 & H2 & H3 & H4).
  unfold in_flight, in_delivery in *. cbn [NewDispatcher inflight fmap list_fmap omap list_omap] in H2, H3.
  by rewrite app_nil_r in H2, H3.
Qed.

(** ** Witnesses *)

Module Example.

Definition alert (rule node sev msg : string) : Alert := MkAlert "id" rule node "e" 0 msg sev.
Definition opts : Options := MkOptions [Slack (NewSlackNotifier "https://hooks.slack.com/x" None)] (5 * Minute) "" 0.
Definition steps : list step :=
  [Async (alert "r1" "n1" "critical" "m"); Async (alert "r1" "n1" "critical" "m");
   Gate 0 (10 * Minute); Async (alert "r1" "n2" "info" "m"); Finish 0; Gate 0 (11 * Minute);
   Async (alert "r1" "n1" "high" "m")].
Definition final : list (Alert * Z) * Dispatcher := run steps (NewDispatcher opts).

End Example.
Import Example.

Lemma gate_exact_witness :
  (gate 1 (15 * Minute) final.2).1 = true ↔
  minRank (NewDispatcher opts) <= rankOf "high" ∧
  Forall (λ p, al_RuleID p.1 = "r1" → al_NodeID p.1 = "n1" → 5 * Minute <= 15 * Minute - p.2) final.1.
Proof.
  apply (gate_exact opts steps final.1 final.2 1 (alert "r1" "n1" "high" "m") (15 * Minute));
    [done|by vm_compute|apply surjective_pairing|vm_compute; reflexivity|by vm_compute|].
  vm_compute. repeat constructor; done.
Defined.

Lemma cooldown_respected_witness :
  StronglySorted (λ t t', 5 * Minute <= t' - t)
    (sent_times (cooldown_key (alert "r1" "n1" "critical" "m")) final.1).
Proof.
  apply (cooldown_respected opts steps final.1 final.2); [done|by vm_compute|apply surjective_pairing].
Defined.

Lemma dispatch_accounted_witness :
  Z.of_nat (length (inflight final.2)) <= maxConcurrentDispatch ∧
  over asked steps (NewDispatcher opts) ≡ₚ
    over turned_away steps (NewDispatcher opts) ++ over suppressed steps (NewDispatcher opts) ++
    over returned steps (NewDispatcher opts) ++ (alert_of <$> inflight final.2) ∧
  final.1.*1 ≡ₚ over returned steps (NewDispatcher opts) ++ omap sending_of (inflight final.2) ∧
  dropped final.2 = wrapu64 (Z.of_nat (length (over turned_away steps (NewDispatcher opts)))).
Proof. apply (dispatch_accounted opts steps final.1 final.2); [done|apply surjective_pairing]. Defined.

End Notify.
