(* ===== verification/Smtp.v ===== *)
(** * Sending a mail ([sendMailContext] in [internal/notify/email.go])

    The conversation with an SMTP server.  A [step] is a call that can fail;
    [net] answers it, given the calls made before, so that a server may behave
    in any way; [offers] says whether the server advertises AUTH.

    [plain_start] is what [smtp.PlainAuth] checks before it sends credentials:
    the connection must be encrypted, or the server local, and the host must be
    the one the credentials are for.  The connection here is the plain TCP one
    that was dialled.  [validateLine] is what [Mail] and [Rcpt] of the client
    check, and the message goes through the writer [Data] returns, the dot
    encoder of [net/textproto]: what [SWrite] and [SClose] carry is what goes
    over the wire, which [receive] reads as a mail server does. *)

From S2P Require Import Prelude GoStrings GoTime GoNet GoJson StoreData Codec Notify.
Import GoStrings GoTime GoNet GoJson Codec Notify.

Module Smtp.

Inductive step :=
| SDial (timeout : option Z) (addr : string)
| SSetDeadline (deadline : Z)
| SNewClient (host : string)
| SAuth (a : PlainAuth) (host : string)
| SMail (from : string)
| SRcpt (addr : string)
| SData
| SWrite (wire : string)
| SClose (wire : string)
| SQuit.

(** ** The client's line checks and its dot encoder *)

Definition CR : ascii := byte_of 13.
Definition LF : ascii := byte_of 10.
Definition one_line (s : string) : Prop := no_char CR s ∧ no_char LF s.

#[global] Instance one_line_dec s : Decision (one_line s).
Proof. unfold one_line. apply _. Defined.

Definition validateLine (line : string) : option error :=
  if bool_decide (one_line line) then None else Some "smtp: A line must not contain CR or LF".

Inductive wstate := wstateBegin | wstateBeginLine | wstateCR | wstateData.

(** One byte through the encoder: the next state and what is written. *)
Definition dot_byte (st : wstate) (c : ascii) : wstate * string :=
  match st with
  | wstateCR => (if decide (c = LF) then wstateBeginLine else wstateData, String c "")
  | _ =>
      let dot := match st with wstateData => "" | _ => if decide (c = "."%char) then "." else "" end in
      if decide (c = LF) then (wstateBeginLine, dot +:+ String CR (String LF ""))
      else (if decide (c = CR) then wstateCR else wstateData, dot +:+ String c "")
  end.

Fixpoint dot_Write (st : wstate) (msg : string) : wstate * string :=
  match msg with
  | EmptyString => (st, "")
  | String c msg =>
      let '(st, out) := dot_byte st c in
      let '(st, rest) := dot_Write st msg in (st, out +:+ rest)
  end.

(** The end of the message, from the state the encoder is left in. *)
Definition dot_Close (st : wstate) : string :=
  match st with
  | wstateBeginLine => "." +:+ crlf
  | wstateCR => String LF ("." +:+ crlf)
  | _ => crlf +:+ "." +:+ crlf
  end.

Definition isLocalhost (name : string) : bool :=
  (name =s "localhost") || (name =s "127.0.0.1") || (name =s "::1").

(** The host of the server, as the client knows it. *)
Definition smtp_host (addr : string) : string := default addr (SplitHostPort addr).

Section Send.
Context (net : list step → step → option error) (offers : list step → bool).

Definition plain_start (a : PlainAuth) (host : string) : option error :=
  if negb (isLocalhost host) then Some "unencrypted connection"
  else if host <>s pa_host a then Some "wrong host name"
  else None.

Definition answer (made : list step) (s : step) : option error :=
  match s with
  | SAuth a host => match plain_start a host with Some err => Some err | None => net made s end
  | SMail line | SRcpt line => match validateLine line with Some err => Some err | None => net made s end
  | _ => net made s
  end.

(** The steps in order, up to the first that fails. *)
Fixpoint attempt (made todo : list step) : list step * option error :=
  match todo with
  | [] => (made, None)
  | s :: todo =>
      match answer made s with
      | Some err => (made ++ [s], Some err)
      | None => attempt (made ++ [s]) todo
      end
  end.

(** [deadline] is the context's, [now] the reading of [time.Until]. *)
Definition sendMailContext (deadline : option Z) (now : Z) (addr : string) (a : option PlainAuth)
    (from : string) (to : list string) (msg : string) : list step * option error :=
  let host := smtp_host addr in
  match attempt [] ([SDial ((λ d, Sub d now) <$> deadline) addr] ++
                    match deadline with Some d => [SSetDeadline d] | None => [] end ++ [SNewClient host]) with
  | (made, Some err) => (made, Some err)
  | (made, None) =>
      attempt made
        (match a with Some p => if offers made then [SAuth p host] else [] | None => [] end ++
         [SMail from] ++ (SRcpt <$> to) ++
         let '(st, wire) := dot_Write wstateBegin msg in [SData; SWrite wire; SClose (dot_Close st); SQuit])
  end.

(** ** What was done and what is reported *)

Lemma attempt_app made l1 l2 :
  attempt made (l1 ++ l2) =
  match attempt made l1 with (d, None) => attempt d l2 | (d, Some err) => (d, Some err) end.
Proof.
  revert made. induction l1 as [|s l1 IH]; intros made; [done|]. cbn [app attempt].
  destruct (answer made s); [done|]. apply IH.
Qed.

(** The steps made are the plan up to the first failure, and all of it when
    there is none. *)
Lemma attempt_spec made todo :
  match attempt made todo with
  | (d, None) => d = made ++ todo
  | (d, Some err) => ∃ l s rest, todo = l ++ s :: rest ∧ d = made ++ l ++ [s] ∧ answer (made ++ l) s = Some err
  end.
Proof.
  revert made. induction todo as [|s todo IH]; intros made; cbn [attempt]; [by rewrite app_nil_r|].
  destruct (answer made s) as [err|] eqn:Ha.
  - exists [], s, todo. by rewrite app_nil_r.
  - specialize (IH (made ++ [s])). destruct (attempt (made ++ [s]) todo) as [d [err|]].
    + destruct IH as (l & s' & rest & -> & -> & Hs). exists (s :: l), s', rest. rewrite <-!app_assoc in *. done.
    + by rewrite IH, <-app_assoc.
Qed.

Definition opening (deadline : option Z) (now : Z) (addr : string) : list step :=
  [SDial ((λ d, Sub d now) <$> deadline) addr] ++
  match deadline with Some d => [SSetDeadline d] | None => [] end ++ [SNewClient (smtp_host addr)].

Definition credentials (a : option PlainAuth) (addr : string) (made : list step) : list step :=
  match a with Some p => if offers made then [SAuth p (smtp_host addr)] else [] | None => [] end.

Definition delivery (from : string) (to : list string) (msg : string) : list step :=
  [SMail from] ++ (SRcpt <$> to) ++
  let '(st, wire) := dot_Write wstateBegin msg in [SData; SWrite wire; SClose (dot_Close st); SQuit].

(** Nil is returned only after the whole conversation: every recipient
    accepted, the message written and its end acknowledged. *)
Lemma sent_complete deadline now addr a from to msg made :
  sendMailContext deadline now addr a from to msg = (made, None) →
  made = opening deadline now addr ++ credentials a addr (opening deadline now addr) ++ delivery from to msg.
Proof.
  unfold sendMailContext. fold (opening deadline now addr).
  pose proof (attempt_spec [] (opening deadline now addr)) as Ho.
  destruct (attempt [] (opening deadline now addr)) as [d [err|]]; [done|]. cbn [app] in Ho. subst d.
  fold (credentials a addr (opening deadline now addr)). fold (delivery from to msg). intros Hr.
  pose proof (attempt_spec (opening deadline now addr) (credentials a addr (opening deadline now addr) ++ delivery from to msg)) as Hd.
  by rewrite Hr in Hd.
Qed.

(** Steps that name the sender, a recipient or the message. *)
Definition discloses (s : step) : Prop :=
  match s with SMail _ | SRcpt _ | SData | SWrite _ | SClose _ => True | _ => False end.

Lemma opening_discloses deadline now addr : Forall (λ s, ¬ discloses s) (opening deadline now addr).
Proof. unfold opening. destruct deadline; repeat constructor; by intros []. Qed.

End Send.

(** ** Authenticated mail to a remote server *)

Section Remote.
Context (net : list step → step → option error) (offers : list step → bool).

(** C34: Mail with a user name never leaves for a remote server that
    advertises AUTH.  The connection is never encrypted (there is no STARTTLS
    step), and the credentials are not sent over a plain connection, so the
    conversation ends before the first word of the mail, whatever the server
    answers, and every delivery of the notifier reports an error. *)
Theorem remote_auth_fails cfg a deadline now :
  ec_Username cfg ≠ "" → isLocalhost (smtp_host (ec_Addr cfg)) = false →
  (∀ made, offers made = true) →
  let e := NewEmailNotifier cfg in
  let sent := sendMailContext net offers deadline now (en_addr e) (en_auth e) (en_from e) (en_to e) (buildMessage e a) in
  is_Some sent.2 ∧ Forall (λ s, ¬ discloses s) sent.1 ∧
  is_Some (email_Send (λ addr auth from to msg, (sendMailContext net offers deadline now addr auth from to msg).2) e a).
Proof.
  intros Huser Hhost Hoffers e sent.
  assert (∃ p, en_auth e = Some p) as [p Hp]
    by (unfold e, NewEmailNotifier; rewrite bool_decide_eq_false_2 by done; by eexists).
  assert (is_Some sent.2 ∧ Forall (λ s, ¬ discloses s) sent.1) as [Hsome Hquiet].
  { unfold sent, sendMailContext. fold (opening deadline now (en_addr e)). rewrite Hp.
    pose proof (attempt_spec net [] (opening deadline now (en_addr e))) as Ho.
    pose proof (opening_discloses deadline now (en_addr e)) as Hq.
    destruct (attempt net [] (opening deadline now (en_addr e))) as [d [err|]]; cbn [app] in Ho.
    - destruct Ho as (l & s & rest & Heq & -> & _). split; [by eexists|]. rewrite Heq in Hq. cbn [fst].
      rewrite Forall_app, Forall_cons in Hq. apply Forall_app. rewrite Forall_singleton. tauto.
    - subst d. rewrite Hoffers. cbn [app attempt answer]. unfold plain_start.
      change (en_addr e) with (ec_Addr cfg) in *. rewrite Hhost. cbn [negb]. split; [by eexists|].
      apply Forall_app. split; [done|]. apply Forall_singleton. by intros []. }
  split; [done|]. split; [done|]. unfold email_Send. destruct (en_to e) as [|x l] eqn:Hto; [by eexists|].
  unfold sent in Hsome. destruct Hsome as [err ->]. by eexists.
Qed.

End Remote.

(** ** The mail a server receives *)

(** A server reads lines that end in CR LF up to the one that is a single dot,
    and takes the first dot off every other line that starts with one (RFC
    5321, 4.5.2): the lines, and what follows the message.  [cur] is the line
    read so far. *)
Definition unstuff (l : string) : string :=
  match l with String c l' => if decide (c = "."%char) then l' else l | EmptyString => l end.

Fixpoint receive (cur s : string) : option (list string * string) :=
  match s with
  | String c s' =>
      match s' with
      | String c' rest =>
          if decide (c = CR ∧ c' = LF) then
            if cur =s "." then Some ([], rest)
            else '(ls, r) ← receive "" rest; Some (unstuff cur :: ls, r)
          else receive (cur +:+ String c "") s'
      | EmptyString => None
      end
  | EmptyString => None
  end.

(** What the client writes for a message, from a state of the encoder. *)
Definition wire (st : wstate) (msg : string) : string :=
  let '(st, out) := dot_Write st msg in out +:+ dot_Close st.

(** The end of a line: the line kept, and the rest read. *)
Definition line_then (cur rest : string) : option (list string * string) :=
  '(ls, r) ← receive "" rest; Some (unstuff cur :: ls, r).

Lemma str_cons_app c (s t : string) : String c s +:+ t = String c (s +:+ t).
Proof. done. Qed.

Lemma str_nil_app (t : string) : "" +:+ t = t.
Proof. done. Qed.

Ltac str_norm := repeat first [rewrite str_cons_app | rewrite str_nil_app].

Lemma str_app_nil_r (s : string) : s +:+ "" = s.
Proof. induction s as [|c s IH]; [done|]. by rewrite str_cons_app, IH. Qed.

Lemma receive_end cur rest : cur ≠ "." → receive cur (String CR (String LF rest)) = line_then cur rest.
Proof. intros Hc. cbn [receive]. rewrite decide_True by done. by rewrite bool_decide_eq_false_2. Qed.

Lemma receive_dot rest : receive "" ("." +:+ crlf +:+ rest) = Some ([], rest).
Proof. done. Qed.

(** [w] does not begin with a line feed. *)
Definition not_LF (w : string) : Prop := match w with String c _ => c ≠ LF | EmptyString => True end.

Lemma receive_byte cur c w : c ≠ CR ∨ not_LF w → receive cur (String c w) = receive (cur +:+ String c "") w.
Proof. intros H. destruct w as [|c' w]; [done|]. cbn [receive]. rewrite decide_False; [done|]. unfold not_LF in H. naive_solver. Qed.

Lemma wire_cons st c msg : wire st (String c msg) = (dot_byte st c).2 +:+ wire (dot_byte st c).1 msg.
Proof.
  unfold wire. cbn [dot_Write]. destruct (dot_byte st c) as [st1 o]. cbn [fst snd].
  destruct (dot_Write st1 msg). by rewrite string_app_assoc.
Qed.

Lemma wire_data_not_LF msg : not_LF (wire wstateData msg).
Proof. destruct msg as [|c msg]; [done|]. rewrite wire_cons. unfold dot_byte. case_decide; [done|]. by case_decide. Qed.

(** The rest of a line whose end is written with or without its CR. *)
Lemma receive_rest cur l msg :
  one_line l → cur ≠ "" → cur ≠ "." →
  receive cur (wire wstateData (l +:+ crlf +:+ msg)) = line_then (cur +:+ l) (wire wstateBeginLine msg) ∧
  receive cur (wire wstateData (l +:+ String LF msg)) = line_then (cur +:+ l) (wire wstateBeginLine msg).
Proof.
  intros [Hcr Hlf] Hne Hdot. revert cur Hne Hdot. induction l as [|c l IH]; intros cur Hne Hdot.
  - str_norm. rewrite str_app_nil_r. split.
    + change (crlf +:+ msg) with (String CR (String LF msg)). rewrite !wire_cons. by apply receive_end.
    + rewrite wire_cons. by apply receive_end.
  - destruct Hcr as [Hc Hcr], Hlf as [Hl Hlf]. rewrite !str_cons_app, !wire_cons. cbn [dot_byte].
    rewrite !decide_False by done. cbn [fst snd]. str_norm. rewrite !receive_byte by auto.
    replace (cur +:+ String c l) with ((cur +:+ String c "") +:+ l) by (by rewrite string_app_assoc).
    apply IH; try done; destruct cur as [|c1 [|c2 cur]]; done.
Qed.

Definition keep (l : string) (r : option (list string * string)) : option (list string * string) :=
  '(ls, rest) ← r; Some (l :: ls, rest).

(** A line is received as it was written, whatever it starts with. *)
Lemma receive_line l msg :
  one_line l →
  receive "" (wire wstateBeginLine (l +:+ crlf +:+ msg)) = keep l (receive "" (wire wstateBeginLine msg)) ∧
  receive "" (wire wstateBeginLine (l +:+ String LF msg)) = keep l (receive "" (wire wstateBeginLine msg)).
Proof.
  destruct l as [|c l]; intros [Hcr Hlf].
  { str_norm. change (crlf +:+ msg) with (String CR (String LF msg)). rewrite !wire_cons.
    split; by apply receive_end. }
  destruct Hcr as [Hc Hcr], Hlf as [Hl Hlf]. rewrite !str_cons_app, !wire_cons. cbn [dot_byte].
  rewrite !(decide_False (P := c = LF)), !(decide_False (P := c = CR)) by done. cbn [fst snd].
  destruct (decide (c = "."%char)) as [->|Hd]; str_norm; rewrite !receive_byte by auto; str_norm.
  - destruct (receive_rest ".." l msg) as [H1 H2]; [done..|]. split; [exact H1|exact H2].
  - destruct (receive_rest (String c "") l msg) as [H1 H2]; [done..|naive_solver|].
    unfold line_then, unstuff in H1, H2. rewrite str_cons_app in H1, H2. rewrite decide_False in H1, H2 by done.
    split; [exact H1|exact H2].
Qed.

Lemma wire_begin c msg : wire wstateBegin (String c msg) = wire wstateBeginLine (String c msg).
Proof. by rewrite !wire_cons. Qed.

Definition text (ls : list string) (rest : string) : string := foldr (λ l acc, l +:+ crlf +:+ acc) rest ls.

Lemma receive_text ls rest :
  Forall one_line ls → receive "" (wire wstateBeginLine (text ls rest)) = foldr keep (receive "" (wire wstateBeginLine rest)) ls.
Proof. induction 1 as [|l ls Hl _ IH]; [done|]. cbn [text foldr]. rewrite (proj1 (receive_line _ _ Hl)). by rewrite <-IH. Qed.

Lemma keep_all ls ls' rest : foldr keep (Some (ls', rest)) ls = Some (ls ++ ls', rest).
Proof. induction ls as [|l ls IH]; [done|]. cbn [foldr]. by rewrite IH. Qed.

(** Whatever the rest of the message is, the server reads to its end and no
    further: no text is taken for the end of the message, so none for a
    command. *)
Definition ends (r : option (list string * string)) : Prop := ∃ ls, r = Some (ls, "").

Lemma ends_line cur w : ends (receive "" w) → ends (line_then cur w).
Proof. intros [ls Hls]. unfold line_then. rewrite Hls. by eexists. Qed.

Lemma wire_ends msg :
  ends (receive "" (wire wstateBeginLine msg)) ∧
  (∀ cur, cur ≠ "" → cur ≠ "." → ends (receive cur (wire wstateData msg))) ∧
  (∀ cur, cur ≠ "." → ends (receive cur (String CR (wire wstateCR msg)))).
Proof.
  assert (∀ cur c, cur ≠ "" → cur +:+ String c "" ≠ "" ∧ cur +:+ String c "" ≠ ".") as Happ
    by (intros [|c1 [|c2 cur]] c ?; done).
  induction msg as [|c msg (IHl & IHd & IHc)].
  { split; [by eexists|]. split; intros cur; intros; unfold wire; cbn [dot_Write dot_Close]; str_norm;
      change (crlf +:+ ?x) with (String CR (String LF x));
      rewrite receive_end by done; apply ends_line; by eexists. }
  split_and!.
  - rewrite wire_cons. unfold dot_byte. destruct (decide (c = LF)) as [->|Hl].
    { rewrite decide_False by done. cbn [fst snd]. str_norm. rewrite receive_end by done. by apply ends_line. }
    destruct (decide (c = CR)) as [->|Hc]; [rewrite decide_False by done; by apply IHc|].
    cbn [fst snd]. destruct (decide (c = "."%char)) as [->|Hd]; str_norm;
      rewrite !receive_byte by auto; str_norm; apply IHd; try done; naive_solver.
  - intros cur Hne Hdot. rewrite wire_cons. unfold dot_byte. destruct (decide (c = LF)) as [->|Hl].
    { cbn [fst snd]. str_norm. rewrite receive_end by done. by apply ends_line. }
    cbn [fst snd]. str_norm.
    destruct (decide (c = CR)) as [->|Hc]; [by apply IHc|]. rewrite receive_byte by auto. apply IHd; by apply Happ.
  - intros cur Hdot. rewrite wire_cons. unfold dot_byte. cbn [fst snd]. str_norm.
    destruct (decide (c = LF)) as [->|Hl]; [rewrite receive_end by done; by apply ends_line|].
    rewrite receive_byte by (by right). rewrite receive_byte by (right; apply wire_data_not_LF).
    apply IHd; apply Happ; by destruct cur.
Qed.

(** ** A delivered mail *)

Lemma one_line_app a b : one_line (a +:+ b) ↔ one_line a ∧ one_line b.
Proof. unfold one_line. rewrite !no_char_app. naive_solver. Qed.

Ltac one_lines :=
  rewrite ?one_line_app; repeat match goal with |- _ ∧ _ => split end; first [assumption | by repeat split].

Lemma one_line_Join l : Forall one_line l → one_line (Join l ", ").
Proof.
  induction 1 as [|s l Hs Hl IH]; [done|]. destruct l as [|s' l]; [done|].
  change (Join (s :: s' :: l) ", ") with (s +:+ ", " +:+ Join (s' :: l) ", ").
  one_lines.
Qed.

Lemma plain_one_line s : plain s → one_line s.
Proof.
  induction s as [|c s IH]; [done|]. intros [Hc Hs]. destruct (IH Hs). split; (split; [|done]); by intros ->.
Qed.

Lemma one_line_RFC3339 t : one_line (RFC3339 t).
Proof. apply plain_one_line. unfold RFC3339, format_seconds. by repeat (apply plain_pad; split; [done|]). Qed.

(** What the conversation carries of the message, and whom it is for. *)
Definition data_of (s : step) : string := match s with SWrite w | SClose w => w | _ => "" end.
Definition recipient (s : step) : option string := match s with SRcpt to => Some to | _ => None end.
Definition data (made : list step) : string := foldr (λ s acc, data_of s +:+ acc) "" made.

Lemma data_app l1 l2 : data (l1 ++ l2) = data l1 +:+ data l2.
Proof. induction l1 as [|s l1 IH]; [done|]. cbn [data foldr app]. fold (data l1) (data (l1 ++ l2)). by rewrite IH, string_app_assoc. Qed.

Lemma data_rcpt (to : list string) : data (SRcpt <$> to) = "".
Proof. induction to as [|x to IH]; [done|]. exact IH. Qed.

Lemma recipient_rcpt (to : list string) : omap recipient (SRcpt <$> to) = to.
Proof. induction to as [|x to IH]; [done|]. cbn. by f_equal. Qed.

(** The message as lines. *)
Definition header (e : EmailNotifier) (a : Alert) : list string :=
  ["From: " +:+ en_from e; "To: " +:+ Join (en_to e) ", ";
   "Subject: [SentinelMesh][" +:+ al_Severity a +:+ "] " +:+ al_Message a;
   "MIME-Version: 1.0"; "Content-Type: text/plain; charset=" +:+ String quote ("utf-8" +:+ String quote ""); ""].

Definition body_lines (a : Alert) : list string :=
  ["A SentinelMesh alert was triggered."; "";
   "Severity: " +:+ al_Severity a; "Message:  " +:+ al_Message a; "Node:     " +:+ al_NodeID a;
   "Rule:     " +:+ al_RuleID a; "Event:    " +:+ al_EventID a; "Time:     " +:+ RFC3339 (al_Timestamp a)].

Lemma buildMessage_text e a : buildMessage e a = text (header e a) (email_body a).
Proof. unfold buildMessage, email_subject, header. cbn [text foldr]. by rewrite !string_app_assoc. Qed.

Lemma email_body_text a : email_body a = text (body_lines a) "".
Proof. unfold email_body, body_lines. cbn [text foldr]. by rewrite !string_app_assoc, str_app_nil_r. Qed.

Lemma header_one_line e a :
  one_line (en_from e) → Forall one_line (en_to e) → one_line (al_Severity a) → one_line (al_Message a) →
  Forall one_line (header e a).
Proof.
  intros Hf Ht%one_line_Join Hs Hm. unfold header.
  repeat (apply Forall_cons_2; [one_lines|]). constructor.
Qed.

Lemma body_one_line a :
  one_line (al_Severity a) → one_line (al_Message a) → one_line (al_NodeID a) → one_line (al_RuleID a) →
  one_line (al_EventID a) → Forall one_line (body_lines a).
Proof.
  intros. pose proof (one_line_RFC3339 (al_Timestamp a)). unfold body_lines.
  repeat (apply Forall_cons_2; [one_lines|]). constructor.
Qed.

(** A line break at the end of the message of a rule, which a YAML block gives
    it, ends the header after the subject: the last two header lines become
    text of the mail. *)
Lemma line_break_ends_header e a m :
  one_line (en_from e) → Forall one_line (en_to e) → one_line (al_Severity a) → one_line m →
  al_Message a = m +:+ String LF "" →
  ∃ body, receive "" (wire wstateBegin (buildMessage e a)) =
    Some (["From: " +:+ en_from e; "To: " +:+ Join (en_to e) ", ";
           "Subject: [SentinelMesh][" +:+ al_Severity a +:+ "] " +:+ m; ""; "MIME-Version: 1.0"] ++ body, "").
Proof.
  intros Hf Ht%one_line_Join Hs Hm Ha.
  set (rest := text ["Content-Type: text/plain; charset=" +:+ String quote ("utf-8" +:+ String quote ""); ""] (email_body a)).
  assert (buildMessage e a =
    text ["From: " +:+ en_from e; "To: " +:+ Join (en_to e) ", "]
      (("Subject: [SentinelMesh][" +:+ al_Severity a +:+ "] " +:+ m) +:+ String LF (text [""; "MIME-Version: 1.0"] rest))) as ->.
  { unfold buildMessage, email_subject, rest. rewrite Ha. cbn [text foldr]. by rewrite !string_app_assoc. }
  destruct (wire_ends rest) as [[body Hbody] _]. exists body.
  change (wire wstateBegin (text (?x :: ?l) ?r)) with (wire wstateBeginLine (text (x :: l) r)).
  rewrite receive_text by (repeat (apply Forall_cons_2; [one_lines|]); constructor).
  rewrite (proj2 (receive_line ("Subject: [SentinelMesh][" +:+ al_Severity a +:+ "] " +:+ m) _ ltac:(one_lines))).
  rewrite receive_text by (repeat (apply Forall_cons_2; [one_lines|]); constructor). by rewrite Hbody.
Qed.

Section Delivered.
Context (net : list step → step → option error) (offers : list step → bool).

Lemma attempt_answers made todo d :
  attempt net made todo = (d, None) → Forall (λ s, ∃ m, answer net m s = None) todo.
Proof.
  revert made. induction todo as [|s todo IH]; intros made; cbn [attempt]; [constructor|].
  destruct (answer net made s) eqn:Ha; [done|]. intros Hd. constructor; [by eexists|by eapply IH].
Qed.

(** A mail that was sent named a sender and recipients on one line each. *)
Lemma sent_lines deadline now addr a from to msg made :
  sendMailContext net offers deadline now addr a from to msg = (made, None) → one_line from ∧ Forall one_line to.
Proof.
  assert (∀ m line s, s = SMail line ∨ s = SRcpt line → answer net m s = None → one_line line) as Hline.
  { intros m line s Hs. destruct Hs as [-> | ->]; cbn [answer]; unfold validateLine; by case_bool_decide. }
  unfold sendMailContext. destruct (attempt _ _ _) as [d [err|]]; [by intros [=]|]. intros Hr%attempt_answers.
  rewrite !Forall_app, Forall_fmap, Forall_singleton in Hr. destruct Hr as (_ & [m Hm] & Hto & _). split; [by eauto|].
  eapply Forall_impl; [exact Hto|]. intros x [m' Hm']. cbn in Hm'. eauto.
Qed.

(** What a successful conversation carried. *)
Lemma sent_data deadline now addr a from to msg made :
  sendMailContext net offers deadline now addr a from to msg = (made, None) →
  data made = wire wstateBegin msg ∧ omap recipient made = to.
Proof.
  intros ->%sent_complete.
  assert (∀ l, Forall (λ s, ¬ discloses s) l → data l = "" ∧ omap recipient l = []) as Hq.
  { induction 1 as [|s l Hs _ [IH1 IH2]]; [done|]. cbn [data foldr omap list_omap]. fold (data l). rewrite IH1.
    by destruct s; try (by destruct Hs). }
  destruct (Hq _ (opening_discloses deadline now addr)) as [Ho1 Ho2].
  destruct (Hq (credentials offers a addr (opening deadline now addr))) as [Hc1 Hc2].
  { unfold credentials. destruct a; [|constructor]. destruct (offers _); repeat constructor; by intros []. }
  rewrite !data_app, !omap_app, Ho1, Ho2, Hc1, Hc2. unfold delivery, wire.
  destruct (dot_Write wstateBegin msg) as [st w]. rewrite !data_app, !omap_app, data_rcpt, recipient_rcpt.
  cbn. by rewrite !str_app_nil_r, app_nil_r.
Qed.

(** C30: A mail arrives as it was written.  When [Send] of the mail channel
    succeeds on an alert whose severity and message have no line break, the
    server was given exactly the configured recipients, there is at least
    one, and reading the bytes sent as a mail server does gives one message
    and nothing after it: its header is exactly the five lines From, To,
    Subject, MIME-Version and Content-Type, whatever the other texts of the
    alert are, and when these have no line break either, its body is the
    alert's eight lines. *)
Theorem email_received e a deadline now :
  one_line (al_Severity a) → one_line (al_Message a) →
  email_Send (λ addr auth from to msg, (sendMailContext net offers deadline now addr auth from to msg).2) e a = None →
  let made := (sendMailContext net offers deadline now (en_addr e) (en_auth e) (en_from e) (en_to e) (buildMessage e a)).1 in
  omap recipient made = en_to e ∧ en_to e ≠ [] ∧
  ∃ body,
    receive "" (data made) =
      Some (["From: " +:+ en_from e; "To: " +:+ Join (en_to e) ", ";
             "Subject: [SentinelMesh][" +:+ al_Severity a +:+ "] " +:+ al_Message a;
             "MIME-Version: 1.0"; "Content-Type: text/plain; charset=" +:+ String quote ("utf-8" +:+ String quote ""); ""]
            ++ body, "") ∧
    (one_line (al_NodeID a) → one_line (al_RuleID a) → one_line (al_EventID a) →
     body = ["A SentinelMesh alert was triggered."; "";
             "Severity: " +:+ al_Severity a; "Message:  " +:+ al_Message a; "Node:     " +:+ al_NodeID a;
             "Rule:     " +:+ al_RuleID a; "Event:    " +:+ al_EventID a; "Time:     " +:+ RFC3339 (al_Timestamp a)]).
Proof.
  intros Hsev Hmsg Hsend made.
  assert (en_to e ≠ [] ∧ sendMailContext net offers deadline now (en_addr e) (en_auth e) (en_from e) (en_to e)
            (buildMessage e a) = (made, None)) as [Hto Hmade].
  { unfold email_Send in Hsend. destruct (en_to e) as [|x l] eqn:Hto; [done|]. split; [done|].
    unfold made. destruct (sendMailContext _ _ _ _ _ _ _ _ _) as [? [err|]]; done. }
  destruct (sent_lines _ _ _ _ _ _ _ _ Hmade) as [Hfrom Hall].
  destruct (sent_data _ _ _ _ _ _ _ _ Hmade) as [-> ->]. split; [done|]. split; [done|].
  rewrite buildMessage_text.
  pose proof (receive_text (header e a) (email_body a) (header_one_line e a Hfrom Hall Hsev Hmsg)) as Hhead.
  destruct (wire_ends (email_body a)) as [[body Hbody] _]. rewrite Hbody, keep_all in Hhead. exists body.
  split; [exact Hhead|]. intros Hn Hr He.
  pose proof (receive_text (body_lines a) "" (body_one_line a Hsev Hmsg Hn Hr He)) as Hlines.
  rewrite <-email_body_text, Hbody in Hlines. change (receive _ (wire _ "")) with (Some ([] : list string, "")) in Hlines.
  rewrite keep_all, app_nil_r in Hlines. by injection Hlines.
Qed.

End Delivered.

(** ** Witness *)

Definition cfg_ex : EmailConfig := MkEmailConfig "smtp.example.com:587" "alerts" "pw" "a@example.com" ["b@example.com"].
Definition alert_ex : Alert := MkAlert "al1" "r1" "n1" "e1" 0 "curl" "high".

Definition cfg_local : EmailConfig := MkEmailConfig "localhost:25" "alerts" "pw" "a@example.com" ["b@example.com"; "c@example.com"].

Lemma email_received_witness :
  ∃ body,
    receive "" (data (sendMailContext (λ _ _, None) (λ _, true) (Some (10 * Second)) 0 "localhost:25"
      (en_auth (NewEmailNotifier cfg_local)) "a@example.com" ["b@example.com"; "c@example.com"]
      (buildMessage (NewEmailNotifier cfg_local) alert_ex)).1) =
    Some (["From: a@example.com"; "To: b@example.com, c@example.com"; "Subject: [SentinelMesh][high] curl"; "MIME-Version: 1.0";
           "Content-Type: text/plain; charset=" +:+ String quote ("utf-8" +:+ String quote ""); ""] ++ body, "").
Proof.
  destruct (email_received (λ _ _, None) (λ _, true) (NewEmailNotifier cfg_local) alert_ex (Some (10 * Second)) 0)
    as (_ & _ & body & Hbody & _); [by repeat split|by repeat split|vm_compute; reflexivity|].
  exists body. exact Hbody.
Defined.

Lemma remote_auth_fails_witness :
  is_Some (email_Send (λ addr auth from to msg,
     (sendMailContext (λ _ _, None) (λ _, true) (Some (10 * Second)) 0 addr auth from to msg).2)
     (NewEmailNotifier cfg_ex) alert_ex) ∧
  sendMailContext (λ _ _, None) (λ _, true) (Some (10 * Second)) 0 "smtp.example.com:587"
    (en_auth (NewEmailNotifier cfg_ex)) "a@example.com" ["b@example.com"] (buildMessage (NewEmailNotifier cfg_ex) alert_ex)
  = ([SDial (Some (10 * Second)) "smtp.example.com:587"; SSetDeadline (10 * Second); SNewClient "smtp.example.com";
      SAuth (MkPlainAuth "alerts" "pw" "smtp.example.com") "smtp.example.com"], Some "unencrypted connection").
Proof.
  split; [|vm_compute; reflexivity].
  apply (remote_auth_fails (λ _ _, None) (λ _, true) cfg_ex alert_ex (Some (10 * Second)) 0); [done|by vm_compute|done].
Defined.

End Smtp.
