(* ===== verification/Alerting.v ===== *)
(** * The alerting engine ([internal/alerting])

    Rules, their validation, and the evaluation of an event against them.

    Three library functions are arguments: [regexp] is [regexp.Compile] with
    the resulting matcher, [other_float] is what [strconv.ParseFloat] returns
    on texts that are not plain decimal numbers (infinities, hexadecimal
    numbers and the like), and [Quote] is [strconv.Quote], used in error
    messages only. *)

From S2P Require Import Prelude GoStrings GoFloat GoTime GoJson GoValue StoreData.
Import GoStrings GoFloat GoJson GoValue.

Module Alerting.

(** ** Rules ([alert.go]) *)

Record Condition := MkCondition { cd_Field : string; cd_Operator : string; cd_Value : string }.

Record Rule := MkRule {
  ru_ID : string;
  ru_Description : string;
  ru_EventType : string;
  ru_Conditions : list Condition;
  ru_Severity : string;
  ru_Message : string;
}.

Record RuleSet := MkRuleSet { rs_Rules : list Rule }.

Section Engine.
Context (regexp : string → result (string → bool)).
Context (other_float : string → option float64).
Context (Quote : string → string).

(** ** Loading and validation ([rules.go]) *)

Definition validEventTypes : gset string := {["exec"; "tcp"; "file"; "*"]}.
Definition validOperators : gset string := {["eq"; "contains"; "regex"; "gt"; "lt"]}.

(** [stat], [read] and [yaml] are the operating system's [Stat] and [ReadFile]
    and the YAML decoder. *)
Definition LoadRules (stat : string → option error) (read : string → result string)
    (yaml : string → result RuleSet) (path : string) : result RuleSet :=
  if path =s "" then Ok (MkRuleSet [])
  else
    match stat path with
    | Some err => Err ("rules file " +:+ Quote path +:+ ": " +:+ err)
    | None => data ← read path; yaml data
    end.

Definition rule_at (i : nat) (id : string) : string :=
  "rule[" +:+ Itoa (Z.of_nat i) +:+ "] (id=" +:+ Quote id +:+ "): ".

Definition cond_at (i : nat) (id : string) (j : nat) : string :=
  rule_at i id +:+ "condition[" +:+ Itoa (Z.of_nat j) +:+ "]: ".

Fixpoint validate_conditions (i : nat) (id : string) (j : nat) (l : list Condition) : option error :=
  match l with
  | [] => None
  | cond :: l =>
      if negb (bool_decide (cd_Operator cond ∈ validOperators))
      then Some (cond_at i id j +:+ "unknown operator " +:+ Quote (cd_Operator cond))
      else if cd_Operator cond =s "regex" then
        match regexp (cd_Value cond) with
        | Err err => Some (cond_at i id j +:+ "invalid regex " +:+ Quote (cd_Value cond) +:+ ": " +:+ err)
        | Ok _ => validate_conditions i id (S j) l
        end
      else validate_conditions i id (S j) l
  end.

Fixpoint validate_rules (i : nat) (seenIDs : gset string) (l : list Rule) : option error :=
  match l with
  | [] => None
  | rule :: l =>
      if ru_ID rule =s "" then Some ("rule[" +:+ Itoa (Z.of_nat i) +:+ "]: id must not be empty")
      else if bool_decide (ru_ID rule ∈ seenIDs) then Some (rule_at i (ru_ID rule) +:+ "duplicate id")
      else if negb (bool_decide (ru_EventType rule ∈ validEventTypes))
      then Some (rule_at i (ru_ID rule) +:+ "unknown event_type " +:+ Quote (ru_EventType rule))
      else match ru_Conditions rule with
           | [] => Some (rule_at i (ru_ID rule) +:+ "conditions must not be empty")
           | conds =>
               match validate_conditions i (ru_ID rule) 0 conds with
               | Some err => Some err
               | None => validate_rules (S i) ({[ru_ID rule]} ∪ seenIDs) l
               end
           end
  end.

Definition Validate (rs : RuleSet) : option error := validate_rules 0 ∅ (rs_Rules rs).

(** ** Evaluation ([engine.go]) *)

Definition ParseFloat (s : string) : option float64 :=
  match literal_parts s with
  | Some (neg, q, "") => r ← nearest q; Some (Finite neg r)
  | _ => other_float s
  end.

Definition toFloat64 (v : value) : option float64 :=
  match v with
  | VNum f => Some f
  | VStr s => ParseFloat s
  | _ => None
  end.

Definition compareNumeric (v : value) (target : string) (cmp : float64 → float64 → bool) : bool :=
  match toFloat64 v with
  | Some a => match ParseFloat target with Some b => cmp a b | None => false end
  | None => false
  end.

Fixpoint get_path (current : value) (parts : list string) : option value :=
  match parts with
  | [] => Some current
  | part :: parts =>
      match current with
      | VMap m => v ← map_get m part; get_path v parts
      | _ => None
      end
  end.

Definition getFieldValue (payload : list (string * value)) (fieldPath : string) : option value :=
  get_path (VMap payload) (Split fieldPath ".").

Definition matchCondition (payload : list (string * value)) (cond : Condition) : bool :=
  match getFieldValue payload (cd_Field cond) with
  | None => false
  | Some v =>
      if cd_Operator cond =s "eq" then format_v v =s cd_Value cond
      else if cd_Operator cond =s "contains" then Contains (format_v v) (cd_Value cond)
      else if cd_Operator cond =s "regex" then
        match regexp (cd_Value cond) with Ok re => re (format_v v) | Err _ => false end
      else if cd_Operator cond =s "gt" then compareNumeric v (cd_Value cond) (λ a b, float_lt b a)
      else if cd_Operator cond =s "lt" then compareNumeric v (cd_Value cond) (λ a b, float_lt a b)
      else false
  end.

Definition matchConditions (event : Event) (conditions : list Condition) : bool :=
  match conditions with
  | [] => false
  | _ =>
      match unmarshal_map (ev_Payload event) with
      | None => false
      | Some payload => forallb (matchCondition payload) conditions
      end
  end.

Record Engine := MkEngine { en_rules : RuleSet }.

(** [New] with a nil rule set makes an empty one. *)
Definition New (rules : option RuleSet) : Engine := MkEngine (default (MkRuleSet []) rules).

Definition rule_matches (event : Event) (rule : Rule) : bool :=
  if (ru_EventType rule <>s "*") && (ru_EventType rule <>s ev_Type event) then false
  else matchConditions event (ru_Conditions rule).

Definition rule_alert (uuid : string) (now : Z) (event : Event) (rule : Rule) : Alert :=
  MkAlert uuid (ru_ID rule) (ev_NodeID event) (ev_EventID event) now (ru_Message rule) (ru_Severity rule).

(** The loop over the rules; each alert takes the next identifier and clock
    reading of [fresh]. *)
Fixpoint evaluate_loop (event : Event) (fresh : nat → string * Z) (k : nat) (l : list Rule) : list Alert :=
  match l with
  | [] => []
  | rule :: l =>
      if rule_matches event rule
      then rule_alert (fresh k).1 (fresh k).2 event rule :: evaluate_loop event fresh (S k) l
      else evaluate_loop event fresh k l
  end.

Definition Evaluate (fresh : nat → string * Z) (event : Event) (e : Engine) : list Alert :=
  evaluate_loop event fresh 0 (rs_Rules (en_rules e)).

(** ** Validation *)

Definition condition_ok (c : Condition) : Prop :=
  cd_Operator c ∈ validOperators ∧ (cd_Operator c = "regex" → is_Ok (regexp (cd_Value c)) = true).

Definition rule_ok (r : Rule) : Prop :=
  ru_ID r ≠ "" ∧ ru_EventType r ∈ validEventTypes ∧ ru_Conditions r ≠ [] ∧ Forall condition_ok (ru_Conditions r).

Lemma validate_conditions_None i id j l : validate_conditions i id j l = None ↔ Forall condition_ok l.
Proof.
  revert j. induction l as [|c l IH]; intros j; cbn [validate_conditions]; [by split|].
  rewrite Forall_cons. unfold condition_ok at 1. rewrite <-(IH (S j)). case_bool_decide as Hop; cbn [negb].
  - case_bool_decide as Hre; [|naive_solver]. destruct (regexp (cd_Value c)) eqn:Hr; simpl; naive_solver.
  - split; [done|]. by intros [[? _] _].
Qed.

Lemma validate_rules_None i seen l :
  validate_rules i seen l = None ↔
  Forall rule_ok l ∧ NoDup (ru_ID <$> l) ∧ Forall (λ r, ru_ID r ∉ seen) l.
Proof.
  revert i seen. induction l as [|r l IH]; intros i seen; cbn [validate_rules].
  { split; [|done]. intros _. split; [constructor|]. split; [constructor|constructor]. }
  rewrite !Forall_cons, fmap_cons, NoDup_cons. unfold rule_ok at 1.
  case_bool_decide as Hid; [split; [done|]; by intros [[[? _] _] _]|].
  case_bool_decide as Hseen; [split; [done|]; by intros (_ & _ & [? _])|].
  case_bool_decide as Hty; cbn [negb]; [|split; [done|]; by intros [[(_ & ? & _) _] _]].
  destruct (ru_Conditions r) as [|c cs] eqn:Hc; [split; [done|]; by intros [[(_ & _ & ? & _) _] _]|].
  rewrite <-Hc in *.
  destruct (validate_conditions i (ru_ID r) 0 (ru_Conditions r)) eqn:Hv.
  - split; [done|]. intros [[(_ & _ & _ & Hok) _] _]. apply (validate_conditions_None i (ru_ID r) 0) in Hok. congruence.
  - apply validate_conditions_None in Hv. rewrite IH, list_elem_of_fmap. split.
    + intros (Hok & Hnd & Hns). rewrite Forall_forall in Hns. split_and!; try done; [by rewrite Hc| |].
      * intros (r' & Heq & Hin). apply (Hns _ Hin). rewrite Heq. set_solver.
      * apply Forall_forall. intros r' Hin. specialize (Hns _ Hin). set_solver.
    + intros ([_ Hok] & [Hni Hnd] & _ & Hns). split; [done|]. split; [done|].
      rewrite Forall_forall in Hns |- *.
      intros r' Hin. rewrite elem_of_union, elem_of_singleton. intros [Heq|Hs]; [|by apply (Hns _ Hin)].
      apply Hni. by exists r'.
Qed.

(** Validation accepts exactly the well-formed rule sets: every rule has a
    non-empty id no other rule has, a known event type and at least one
    condition, and every condition a known operator, with a pattern that
    compiles when it is a regular expression. *)
Theorem validate_iff rs :
  Validate rs = None ↔ Forall rule_ok (rs_Rules rs) ∧ NoDup (ru_ID <$> rs_Rules rs).
Proof.
  unfold Validate. rewrite validate_rules_None. split; [naive_solver|]. intros [H1 H2].
  split; [done|]. split; [done|]. apply Forall_true. set_solver.
Qed.

(** ** Evaluation *)

Lemma evaluate_loop_spec event fresh k l :
  evaluate_loop event fresh k l =
  imap (λ i r, rule_alert (fresh (k + i)%nat).1 (fresh (k + i)%nat).2 event r)
    (filter (λ r, rule_matches event r = true) l).
Proof.
  revert k. induction l as [|r l IH]; intros k; cbn [evaluate_loop]; [done|]. rewrite filter_cons, !IH.
  destruct (rule_matches event r); cbn [negb]; [|done].
  rewrite decide_True by done. rewrite imap_cons. rewrite Nat.add_0_r. f_equal.
  apply imap_ext. intros i r' _. simpl. by rewrite Nat.add_succ_r.
Qed.

(** What makes a rule match an event. *)
Definition rule_holds (event : Event) (r : Rule) : Prop :=
  (ru_EventType r = "*" ∨ ru_EventType r = ev_Type event) ∧ ru_Conditions r ≠ [] ∧
  ∃ payload, unmarshal_map (ev_Payload event) = Some payload ∧
             Forall (λ c, matchCondition payload c = true) (ru_Conditions r).

Lemma rule_matches_spec event r : rule_matches event r = true ↔ rule_holds event r.
Proof.
  unfold rule_matches, matchConditions, rule_holds.
  assert ((ru_EventType r = "*" ∨ ru_EventType r = ev_Type event) ↔
          (ru_EventType r <>s "*") && (ru_EventType r <>s ev_Type event) = false) as Hty.
  { repeat case_bool_decide; simpl; naive_solver. }
  rewrite Hty. destruct (_ && _); [naive_solver|]. clear Hty.
  destruct (ru_Conditions r) as [|c cs]; [naive_solver|]. assert (c :: cs ≠ []) as Hne by done. revert Hne. generalize (c :: cs). intros l Hne.
  destruct (unmarshal_map _) as [payload|]; [|naive_solver].
  rewrite forallb_forall. assert (Forall (λ c, matchCondition payload c = true) l ↔
    ∀ c, In c l → matchCondition payload c = true) as Hl.
  { rewrite Forall_forall. by setoid_rewrite list_elem_of_In. }
  naive_solver.
Qed.

#[global] Instance rule_holds_dec event r : Decision (rule_holds event r).
Proof. refine (cast_if (decide (rule_matches event r = true))); by rewrite <-rule_matches_spec. Defined.

(** C14: Evaluation raises exactly one alert per matching rule, in the order of
    the rules, each naming its rule, node and event and carrying the rule's
    message and severity.  A rule matches when its event type is the event's
    or the wildcard, it has conditions, the payload is a JSON object or null,
    and all conditions hold. *)
Theorem evaluate_exact rules event fresh :
  Evaluate fresh event (New (Some rules)) =
  imap (λ i r, MkAlert (fresh i).1 (ru_ID r) (ev_NodeID event) (ev_EventID event) (fresh i).2
                 (ru_Message r) (ru_Severity r))
    (filter (rule_holds event) (rs_Rules rules)).
Proof.
  unfold Evaluate. rewrite evaluate_loop_spec. cbn [New en_rules default from_option].
  rewrite (list_filter_iff (λ r, rule_matches event r = true) (rule_holds event)); [done|].
  apply rule_matches_spec.
Qed.

(** *** Numbers *)

Lemma ParseFloat_Itoa z :
  Z.abs z < 2 ^ 53 → ∃ r, ParseFloat (Itoa z) = Some (Finite (z <? 0) r) ∧ (r == inject_Z (Z.abs z))%Q.
Proof.
  intros Hz. unfold ParseFloat. rewrite literal_parts_Itoa by lia.
  destruct (nearest_int (Z.abs z)) as (r & Hr & He); [lia|]. rewrite Hr. by exists r.
Qed.

(** Comparisons of integer fields are exact.  For a field whose JSON text
    is the integer [n] and a rule value that is the integer [t], both below
    [2^53] in size, [gt] holds exactly when [n > t] and [lt] exactly when
    [n < t]. *)
Lemma integer_comparison payload field n t f :
  getFieldValue payload field = Some (VNum f) → decimal_float (Itoa n) = Some f →
  Z.abs n < 2 ^ 53 → Z.abs t < 2 ^ 53 →
  matchCondition payload (MkCondition field "gt" (Itoa t)) = (t <? n) ∧
  matchCondition payload (MkCondition field "lt" (Itoa t)) = (n <? t).
Proof.
  intros Hf Hn Hn53 Ht53. unfold matchCondition, compareNumeric. cbn [cd_Field cd_Operator cd_Value].
  rewrite Hf. cbn [toFloat64].
  destruct (decimal_float_Itoa n Hn53) as (r & Hr & He). rewrite Hr in Hn. injection Hn as <-.
  destruct (ParseFloat_Itoa t Ht53) as (r' & -> & He').
  split; by apply float_lt_int.
Qed.

(** C39: An [eq] condition with the decimal value of an integer field never
    matches once the integer has seven digits: the field is printed with an
    exponent. *)
Theorem large_integer_eq_fails payload field n f :
  getFieldValue payload field = Some (VNum f) → decimal_float (Itoa n) = Some f →
  10 ^ 6 <= n < 2 ^ 53 →
  matchCondition payload (MkCondition field "eq" (Itoa n)) = false.
Proof.
  intros Hf Hn Hrange. unfold matchCondition. cbn [cd_Field cd_Operator cd_Value]. rewrite Hf.
  destruct (decimal_float_Itoa n) as (r & Hr & He); [lia|]. rewrite Hr in Hn. injection Hn as <-.
  rewrite Z.abs_eq in He by lia. rewrite (proj2 (Z.ltb_ge n 0)) by lia.
  apply bool_decide_eq_false_2. cbn [format_v format_float].
  change ("" +:+ format_g r) with (format_g r). intros Heq.
  apply (format_g_exponent r n He); [lia|]. rewrite Heq. apply no_e_Itoa. lia.
Qed.

End Engine.

(** ** Witnesses *)

Module Example.

(** A pattern matcher for the examples: only literal patterns compile. *)
Definition literal_regexp (p : string) : result (string → bool) :=
  if p =s "(" then Err "missing closing )" else Ok (λ s, Contains s p).
Definition no_float (s : string) : option float64 := None.
Definition quote_plain (s : string) : string := "'" +:+ s +:+ "'".

Definition payload : list (string * value) :=
  default [] (unmarshal_map (encode_object [("pid", Itoa 1234567); ("comm", Quote "bash")])).

End Example.
Import Example.

Lemma integer_comparison_witness :
  matchCondition literal_regexp no_float payload (MkCondition "pid" "gt" (Itoa 5000)) = true ∧
  matchCondition literal_regexp no_float payload (MkCondition "pid" "lt" (Itoa 5000)) = false.
Proof.
  apply (integer_comparison literal_regexp no_float payload "pid" 1234567 5000 (Finite false (inject_Z 1234567)));
    [vm_compute; reflexivity|vm_compute; reflexivity|lia|lia].
Defined.

Lemma large_integer_eq_fails_witness :
  matchCondition literal_regexp no_float payload (MkCondition "pid" "eq" (Itoa 1234567)) = false.
Proof.
  apply (large_integer_eq_fails literal_regexp no_float payload "pid" 1234567 (Finite false (inject_Z 1234567)));
    [vm_compute; reflexivity|vm_compute; reflexivity|lia].
Defined.

End Alerting.
