(* ===== verification/HttpApi.v ===== *)
(** * The collector's REST API ([internal/exporter/api.go], [internal/httpauth/auth.go])

    The routes of [Router] as a function from a GET request to a response.  A
    request is its path, its query parameters and its Authorization header; a
    response is a status and what its body carries.  The router itself, CORS,
    panics and the file server are the gin framework's; a file served is named
    by its path. *)

From S2P Require Import Prelude GoStrings GoTime GoJson GoValue StoreData Codec Badger Store StoreLog Registry Anomaly.
Import GoStrings GoTime GoJson GoValue Store StoreLog.

Module HttpApi.

(** ** Requests and responses *)

Record request := Request {
  rq_path : string;
  rq_query : list (string * string);
  rq_authorization : string;
}.

(** [c.Query(key)]: the first value, or empty. *)
Definition Query (c : request) (key : string) : string :=
  default "" (snd <$> (snd <$> list_find (λ p, p.1 = key) (rq_query c))).

Record regionSummary := MkRegionSummary { rgs_Region : string; rgs_NodeCount : Z; rgs_ActiveCount : Z }.

Inductive body :=
| BError (msg : string)
| BStatus (fields : list (string * string))
| BFile (path : string)
| BMetrics
| BEvents (l : list Event)
| BAlerts (l : list Alert)
| BNodes (l : list Registry.AgentNode)
| BRegions (l : list regionSummary)
| BCounts (m : gmap string Z)
| BWindows (m : gmap string (gmap string Z)).

Record response := Response { rsp_status : Z; rsp_body : body }.

(** ** Authentication ([httpauth]) *)

Definition EnvAPIToken : string := "SENTINEL_API_TOKEN".
Definition TokenFromEnv (Getenv : string → string) : string := TrimSpace (Getenv EnvAPIToken).

(** [abort] answers with a status and an error message. *)
Definition BearerAuth {R} (abort : Z → string → R) (token : string) (next : request → R) (c : request) : R :=
  if token =s "" then next c
  else
    match CutPrefix (rq_authorization c) "Bearer " with
    | Some got => if got =s token then next c else abort 401 "unauthorized"
    | None => abort 401 "unauthorized"
    end.

Lemma BearerAuth_exact {R} (abort : Z → string → R) token next c :
  token ≠ "" →
  BearerAuth abort token next c =
  if decide (rq_authorization c = "Bearer " +:+ token) then next c else abort 401 "unauthorized".
Proof.
  intros Htok. unfold BearerAuth. rewrite bool_decide_eq_false_2 by done.
  destruct (CutPrefix (rq_authorization c) "Bearer ") as [got|] eqn:Hc.
  - apply CutPrefix_Some in Hc. rewrite Hc. case_bool_decide as Hg.
    + subst. by rewrite decide_True.
    + rewrite decide_False; [done|]. by intros ?%string_app_inj.
  - rewrite decide_False; [done|]. intros Hh. apply CutPrefix_Some in Hh. congruence.
Qed.

Definition abort (status : Z) (msg : string) : response := Response status (BError msg).

(** ** Parameters *)

(** [strconv.Atoi]. *)
Fixpoint is_digits (s : string) : bool :=
  match s with String c s => is_digit c && is_digits s | EmptyString => true end.

Definition Atoi (s : string) : option Z :=
  let '(neg, d) :=
    match s with
    | String "-" d => (true, d)
    | String "+" d => (false, d)
    | _ => (false, s)
    end in
  if (d =s "") || negb (is_digits d) then None
  else
    let v := if neg : bool then - digits_value 0 d else digits_value 0 d in
    if bool_decide (in_int64 v) then Some v else None.

Definition maxLimit : Z := 1000.

Definition parseLimit (c : request) (key : string) (def : Z) : result Z :=
  let v := Query c key in
  if v =s "" then Ok def
  else
    let err := Err ("invalid " +:+ key +:+ ": must be a positive integer") in
    match Atoi v with
    | None => err
    | Some n => if n <=? 0 then err else Ok (if n >? maxLimit then maxLimit else n)
    end.

Section Router.
Context `{Badger}.
Context (staticDir apiToken : string) (detector : option Anomaly.Detector).

(** A request's view of the collector: the store, the registry as it is at
    each of the request's reads of it (other goroutines run in between), the
    clocks, the schedule of the database transaction and the map orders it sees. *)
Record env := Env {
  e_store : Store;
  e_registry : nat → Registry.Registry;
  e_now : clock;
  e_sched : schedule;
  e_order : nat → map_order string Registry.AgentNode;
  e_seen : map_order string ();
  e_windows : map_order Anomaly.windowKey (list Z);
}.

(** [reg.ListByRegion] at the [i]-th read. *)
Definition list_region (e : env) (i : nat) (region : string) : list Registry.AgentNode :=
  Registry.ListByRegion (e_order e i) region (e_registry e i).

Definition regionNodeSet (e : env) (region : string) : gset string :=
  list_to_set (Registry.NodeID <$> list_region e 0 region).

(** The region filter of the list endpoints. *)
Definition in_region {A} (e : env) (node_of : A → string) (region : string) (l : list A) : list A :=
  if region =s "" then l else filter (λ a, node_of a ∈ regionNodeSet e region) l.

Definition get_events (e : env) (c : request) : response :=
  match parseLimit c "limit" 100 with
  | Err msg => Response 400 (BError msg)
  | Ok limit =>
      match ListEvents (e_sched e) (wall (e_now e)) (Query c "node") limit (e_store e) with
      | Err msg => Response 500 (BError msg)
      | Ok events => Response 200 (BEvents (in_region e ev_NodeID (Query c "region") events))
      end
  end.

Definition get_alerts (e : env) (c : request) : response :=
  match parseLimit c "limit" 100 with
  | Err msg => Response 400 (BError msg)
  | Ok limit =>
      match ListAlerts (e_sched e) (wall (e_now e)) (Query c "node") limit (e_store e) with
      | Err msg => Response 500 (BError msg)
      | Ok alerts => Response 200 (BAlerts (in_region e al_NodeID (Query c "region") alerts))
      end
  end.

Definition get_nodes (e : env) (c : request) : response :=
  let region := Query c "region" in
  Response 200 (BNodes (if region <>s "" then list_region e 0 region
                        else Registry.List (e_order e 0) (e_registry e 0))).

(** The roll-up of the [i]-th region, read after the list of regions and the
    regions before it. *)
Definition summary (e : env) (i : nat) (region : string) : regionSummary :=
  let nodes := list_region e (S i) region in
  MkRegionSummary region (Z.of_nat (length nodes))
    (foldl (λ active n, if Registry.Status n =s "active" then active + 1 else active) 0 nodes).

Definition get_regions (e : env) (c : request) : response :=
  Response 200 (BRegions (imap (summary e) (Registry.Regions (e_order e 0) (e_seen e) (e_registry e 0)))).

Definition get_stats (e : env) (c : request) : response := Response 200 (BCounts (Stats (e_store e))).

Definition get_windows (e : env) (c : request) : response :=
  Response 200 (BWindows (match detector with
                          | None => ∅
                          | Some d => Anomaly.WindowStats (e_windows e) (mono (e_now e)) d
                          end)).

(** The registered routes behind the bearer token, and [NoRoute]. *)
Definition gated (path : string) : option (env → request → response) :=
  if path =s "/metrics" then Some (λ _ _, Response 200 BMetrics)
  else if path =s "/api/events" then Some get_events
  else if path =s "/api/nodes" then Some get_nodes
  else if path =s "/api/regions" then Some get_regions
  else if path =s "/api/stats" then Some get_stats
  else if path =s "/api/alerts" then Some get_alerts
  else if path =s "/api/stats/windows" then Some get_windows
  else None.

Definition Router (e : env) (c : request) : response :=
  match gated (rq_path c) with
  | Some h => BearerAuth abort apiToken (h e) c
  | None =>
      if rq_path c =s "/healthz" then Response 200 (BStatus [("status", "ok")])
      else if HasPrefix (rq_path c) "/assets/" then Response 200 (BFile (staticDir +:+ rq_path c))
      else if rq_path c =s "/favicon.svg" then Response 200 (BFile (staticDir +:+ "/favicon.svg"))
      else if HasPrefix (rq_path c) "/api/" then Response 404 (BError "not found")
      else Response 200 (BFile (staticDir +:+ "/index.html"))
  end.

(** ** What the API promises *)

(** C21: With a token configured, no data leaves the API without it: a request
    to a gated route is answered 401 unless its Authorization header is
    exactly the bearer token, and then as if no token were configured; every
    other route only serves static files, the health check or an error. *)
Theorem api_requires_token e c :
  apiToken ≠ "" →
  match gated (rq_path c) with
  | Some h => Router e c = if decide (rq_authorization c = "Bearer " +:+ apiToken) then h e c
                           else Response 401 (BError "unauthorized")
  | None => match rsp_body (Router e c) with BError _ | BStatus _ | BFile _ => True | _ => False end
  end.
Proof.
  intros Htok. unfold Router. destruct (gated (rq_path c)) as [h|].
  - by apply BearerAuth_exact.
  - by repeat case_match.
Qed.

Lemma parseLimit_bounds c def limit :
  1 <= def <= maxLimit → parseLimit c "limit" def = Ok limit → 1 <= limit <= maxLimit.
Proof.
  intros Hdef. unfold parseLimit. case_match; [congruence|]. destruct (Atoi _) as [n|]; [|done].
  destruct (Z.leb_spec n 0); [done|]. destruct (Z.gtb_spec n maxLimit); intros [= <-]; unfold maxLimit in *; lia.
Qed.

(** What a list endpoint is to answer, from the records of its log. *)
Definition page {A} (node_of : A → string) (e : env) (c : request) (limit : Z) (l : list A) : list A :=
  in_region e node_of (Query c "region")
    (take (Z.to_nat limit) (filter (for_node node_of (Query c "node")) (window (Query c "node") 0 l))).

(** What [GET /api/events] and [GET /api/alerts] return, on a store that
    refines a log of events and one of alerts. *)
Lemma endpoints_answer (elg : Log Event) (alg : Log Alert) t e c :
  refines (e_store e) elg t → refines (e_store e) alg t → t <= wall (e_now e) → e_sched e = Completes →
  match parseLimit c "limit" 100 with
  | Err msg => get_events e c = Response 400 (BError msg) ∧ get_alerts e c = Response 400 (BError msg)
  | Ok limit =>
      1 <= limit <= 1000 ∧
      get_events e c = Response 200 (BEvents (page ev_NodeID e c limit (log_list elg (wall (e_now e))))) ∧
      get_alerts e c = Response 200 (BAlerts (page al_NodeID e c limit (log_list alg (wall (e_now e)))))
  end.
Proof.
  intros Hev Hal Ht Hs. unfold get_events, get_alerts.
  destruct (parseLimit c "limit" 100) as [limit|] eqn:Hl; [|done].
  split; [by apply parseLimit_bounds in Hl|].
  rewrite Hs, (ListEvents_refines _ _ _ _ _ _ Hev Ht), (ListAlerts_refines _ _ _ _ _ _ Hal Ht). done.
Qed.

(** ** The roll-up by region *)

(** The registered agents that satisfy [P]. *)
Definition count_agents (P : Registry.AgentNode → Prop) `{!∀ n, Decision (P n)} (r : Registry.Registry) : Z :=
  Z.of_nat (length (filter P (map_to_list (Registry.nodes r)).*2)).

Lemma count_active ns k :
  foldl (λ active n, if Registry.Status n =s "active" then active + 1 else active) k ns
  = k + Z.of_nat (length (filter (λ n, Registry.Status n = "active") ns)).
Proof.
  revert k. induction ns as [|n ns IH]; intros k; cbn [foldl]; [simpl; lia|].
  rewrite IH, filter_cons. case_bool_decide; [rewrite decide_True by done; simpl; lia|by rewrite decide_False].
Qed.

Lemma list_region_perm e i region :
  region ≠ "" →
  list_region e i region ≡ₚ filter (λ n, Registry.Region n = region) (map_to_list (Registry.nodes (e_registry e i))).*2.
Proof.
  intros Hne. unfold list_region, Registry.ListByRegion, Registry.normalizeRegion. rewrite bool_decide_eq_false_2 by done.
  unfold Registry.List. by rewrite visit_perm.
Qed.

Lemma summary_counts e i region :
  region ≠ "" →
  summary e i region =
  MkRegionSummary region (count_agents (λ n, Registry.Region n = region) (e_registry e (S i)))
    (count_agents (λ n, Registry.Status n = "active" ∧ Registry.Region n = region) (e_registry e (S i))).
Proof.
  intros Hne. unfold summary, count_agents. rewrite count_active, !(list_region_perm e (S i) region) by done.
  f_equal. rewrite list_filter_filter. done.
Qed.

Lemma zsum_lengths {A} (ls : list (list A)) :
  zsum ((λ l, Z.of_nat (length l)) <$> ls) = Z.of_nat (length (concat ls)).
Proof. induction ls as [|l ls IH]; [done|]. cbn [concat]. rewrite fmap_cons, length_app, Nat2Z.inj_add, <-IH. done. Qed.

(** The agents of a registry, counted region by region. *)
Lemma count_by_region (P : Registry.AgentNode → Prop) `{!∀ n, Decision (P n)} o1 o2 r :
  zsum ((λ region, count_agents (λ n, P n ∧ Registry.Region n = region) r) <$> Registry.Regions o1 o2 r) = count_agents P r.
Proof.
  unfold count_agents. set (l := (map_to_list (Registry.nodes r)).*2).
  transitivity (zsum ((λ l, Z.of_nat (length l)) <$>
    ((λ region, filter (λ n, Registry.Region n = region) (filter P l)) <$> Registry.Regions o1 o2 r))).
  - rewrite <-list_fmap_compose. f_equal. apply list_fmap_ext. intros i region _. cbn. rewrite list_filter_filter.
    do 2 f_equal. apply list_filter_iff. tauto.
  - rewrite zsum_lengths, Registry.concat_filter_key; [done|apply Registry.NoDup_Regions|].
    apply Forall_forall. intros n [_ Hn]%list_elem_of_filter. apply Registry.elem_of_Regions.
    apply list_elem_of_fmap in Hn as ([id n'] & -> & Hn%elem_of_map_to_list). eauto.
Qed.

Lemma count_agents_pos (P : Registry.AgentNode → Prop) `{!∀ n, Decision (P n)} r id n :
  Registry.nodes r !! id = Some n → P n → 0 < count_agents P r.
Proof.
  intros Hn HP. unfold count_agents. assert (n ∈ filter P (map_to_list (Registry.nodes r)).*2) as Hin.
  { apply list_elem_of_filter. split; [done|]. apply list_elem_of_fmap. exists (id, n). by rewrite elem_of_map_to_list. }
  destruct (filter P _); [by apply elem_of_nil in Hin|]. cbn. lia.
Qed.

(** When nothing happens between the reads. *)
Lemma summaries_quiet e names :
  (∀ region, region ∈ names → region ≠ "") → (∀ i, e_registry e i = e_registry e 0%nat) →
  imap (summary e) names =
  (λ region, MkRegionSummary region (count_agents (λ n, Registry.Region n = region) (e_registry e 0))
     (count_agents (λ n, Registry.Status n = "active" ∧ Registry.Region n = region) (e_registry e 0))) <$> names.
Proof.
  intros Hne Hq. rewrite <-imap_const. apply imap_ext. intros i region Hi.
  rewrite summary_counts by (by eapply Hne, list_elem_of_lookup_2). by rewrite Hq.
Qed.

(** C33: [GET /api/regions] rolls up the registry.  Whatever happens to the
    registry between the reads of the request, the answer lists each region
    that had a registered agent at the first read exactly once, in byte order,
    with the number of its agents and of its active ones at the read made for
    it; when the registry does not change meanwhile, the counts add up to
    all registered agents and all active ones, and no region is empty. *)
Theorem regions_roll_up e c :
  Registry.registry_ok (e_registry e 0) →
  ∃ l, get_regions e c = Response 200 (BRegions l) ∧
    StronglySorted String.le (rgs_Region <$> l) ∧ NoDup (rgs_Region <$> l) ∧
    (∀ region, region ∈ rgs_Region <$> l ↔ ∃ id n, Registry.nodes (e_registry e 0) !! id = Some n ∧ Registry.Region n = region) ∧
    (∀ i s, l !! i = Some s →
       rgs_NodeCount s = count_agents (λ n, Registry.Region n = rgs_Region s) (e_registry e (S i)) ∧
       rgs_ActiveCount s =
         count_agents (λ n, Registry.Status n = "active" ∧ Registry.Region n = rgs_Region s) (e_registry e (S i))) ∧
    ((∀ i, e_registry e i = e_registry e 0%nat) →
       zsum (rgs_NodeCount <$> l) = count_agents (λ _, True) (e_registry e 0) ∧
       zsum (rgs_ActiveCount <$> l) = count_agents (λ n, Registry.Status n = "active") (e_registry e 0) ∧
       Forall (λ s, 0 < rgs_NodeCount s) l).
Proof.
  intros Hok. unfold get_regions. set (names := Registry.Regions _ _ _). eexists. split; [done|].
  assert (rgs_Region <$> imap (summary e) names = names) as Hnames.
  { rewrite fmap_imap. etrans; [|apply list_fmap_id]. by rewrite <-imap_const. }
  rewrite Hnames. destruct (Registry.regions_partition (e_order e 0) (e_seen e) canonical_order canonical_order _ Hok)
    as (Hs & Hnd & Hel & _). do 3 (split; [done|]).
  assert (∀ region, region ∈ names → region ≠ "") as Hne.
  { intros region (id & n & Hn & <-)%Hel. by apply (Hok id n). }
  split.
  - intros i s. rewrite list_lookup_imap. intros (region & Hr & ->)%fmap_Some.
    rewrite summary_counts by (by eapply Hne, list_elem_of_lookup_2). done.
  - intros Hq. rewrite (summaries_quiet e names) by done. rewrite <-!list_fmap_compose. split; [|split].
    + rewrite <-(count_by_region (λ _, True) (e_order e 0) (e_seen e)). fold names. f_equal. apply list_fmap_ext.
      intros i region _. cbn. unfold count_agents. do 2 f_equal. apply list_filter_iff. tauto.
    + apply count_by_region.
    + apply Forall_fmap, Forall_forall. intros region (id & n & Hn & Hr)%Hel. cbn. by eapply count_agents_pos.
Qed.

End Router.

(** ** Witnesses *)

Module Example.
#[local] Existing Instance Reference.badger.

Definition env0 : env :=
  Env (run StoreLog.Example.ops Store.Example.store0 (empty_log (A := Event))).1 (λ _, Registry.New)
    (Clock 0 (Store.Example.T + 5 * Second)) Completes (λ _, canonical_order) canonical_order canonical_order.
Definition env_quiet : env :=
  Env (e_store env0) (λ _, Registry.silent_registry_ex) (e_now env0) Completes (λ _, canonical_order)
    canonical_order canonical_order.
Definition lg0 : Log Event := (run StoreLog.Example.ops Store.Example.store0 (empty_log (A := Event))).2.
Definition req (path auth : string) : request := Request path [("limit", "2")] auth.

Definition alg0 : Log Alert := (run StoreLog.Example.ops Store.Example.store0 (empty_log (A := Alert))).2.

Lemma env0_refines : refines (e_store env0) lg0 (Store.Example.T + 4 * Second).
Proof.
  apply (run_refines StoreLog.Example.ops Store.Example.store0 (empty_log (A := Event)) Store.Example.T).
  - apply (New_refines ∅ Store.Example.T); [|apply Store.Example.New_empty].
    intros. by eapply Store.Example.no_items.
  - apply StoreLog.Example.ops_ok.
  - by vm_compute.
  - apply surjective_pairing.
Qed.

Lemma env0_refines_alerts : refines (e_store env0) alg0 (Store.Example.T + 4 * Second).
Proof.
  apply (run_refines StoreLog.Example.ops Store.Example.store0 (empty_log (A := Alert)) Store.Example.T).
  - apply (New_refines ∅ Store.Example.T); [|apply Store.Example.New_empty].
    intros. by eapply Store.Example.no_items.
  - apply StoreLog.Example.ops_ok_alerts.
  - by vm_compute.
  - unfold alg0, env0. cbn [e_store]. rewrite (run_store _ _ (empty_log (A := Event)) (empty_log (A := Alert))).
    apply surjective_pairing.
Qed.

End Example.
Import Example.
#[local] Existing Instance Reference.badger.

Lemma api_requires_token_witness :
  Router "web" "s3cret" None env0 (req "/metrics" "Bearer guess") = Response 401 (BError "unauthorized").
Proof. apply (api_requires_token "web" "s3cret" None env0 (req "/metrics" "Bearer guess")). done. Defined.

Lemma regions_roll_up_witness :
  ∃ l, get_regions env_quiet (req "/api/regions" "") = Response 200 (BRegions l) ∧
    zsum (rgs_NodeCount <$> l) = 1 ∧ NoDup (rgs_Region <$> l).
Proof.
  assert (Registry.registry_ok (e_registry env_quiet 0)) as Hok by (apply Registry.Register_ok, map_Forall_empty).
  destruct (regions_roll_up env_quiet (req "/api/regions" "") Hok) as (l & Hl & _ & Hnd & _ & _ & Hq).
  exists l. split; [done|]. split; [|done]. destruct (Hq (λ _, eq_refl)) as (-> & _). vm_compute. reflexivity.
Defined.

End HttpApi.
