(* ===== verification/Aggregator.v ===== *)
(** * The cross-region aggregator ([internal/aggregator])

    Parsing of upstream specifications, polling, the merged views and the
    routes that serve them.

    [url_parse] is [url.Parse] (scheme and host); [new_request] the error of
    building a GET request; [get] the HTTP client, which, given a URL and the
    value of the Authorization header, fails or returns a status and a body.
    The client does not follow redirects, so the status of a redirect is what
    it returns.

    [PollOnce] runs one goroutine per upstream; each ends with one write to
    the cache under the mutex.  [order] is the order of these writes. *)

From S2P Require Import Prelude GoStrings GoTime GoJson StoreData Codec GoJsonList NodeCodec Registry.
From S2P Require Import Anomaly Badger Store StoreLog HttpApi.
Import GoStrings GoTime GoJson GoJsonList.

Module Aggregator.

Definition maxResponseBytes : Z := 10 * 1024 * 1024.

Record Upstream := MkUpstream { up_Region : string; up_URL : string }.

#[global] Instance Upstream_eq_dec : EqDecision Upstream.
Proof. solve_decision. Defined.

(** ** Parsing ([ParseUpstreams]) *)

Section Parse.
Context (url_parse : string → result (string * string)) (quote_go : string → string).

Definition invalid (spec why : string) : error := "invalid upstream " +:+ quote_go spec +:+ ": " +:+ why.

Definition ParseUpstream (spec : string) : result Upstream :=
  let '(region, rawURL, ok) :=
    match Cut spec "=" with Some (a, b) => (a, b, true) | None => (spec, "", false) end in
  let region := TrimSpace region in
  let rawURL := TrimSpace rawURL in
  if negb ok || (region =s "") || (rawURL =s "") then Err (invalid spec "expected region=url")
  else
    let rawURL := TrimRight rawURL "/" in
    match url_parse rawURL with
    | Err err => Err (invalid spec err)
    | Ok (scheme, host) =>
        if (scheme <>s "http") && (scheme <>s "https")
        then Err (invalid spec "scheme must be http or https")
        else if host =s "" then Err (invalid spec "missing host")
        else Ok (MkUpstream region rawURL)
    end.

Fixpoint parse_loop (out : list Upstream) (specs : list string) : result (list Upstream) :=
  match specs with
  | [] => Ok out
  | spec :: specs => u ← ParseUpstream spec; parse_loop (out ++ [u]) specs
  end.

Definition ParseUpstreams (specs : list string) : result (list Upstream) := parse_loop [] specs.
End Parse.

(** ** State *)

Record RegionStatus := MkRegionStatus {
  rg_Region : string; rg_NodeCount : Z; rg_ActiveCount : Z; rg_Reachable : bool; rg_Error : string;
}.

Record regionState := MkRegionState {
  reachable : bool;
  lastErr : string;
  rs_nodes : list Registry.AgentNode;
  rs_events : list Event;
  rs_alerts : list Alert;
}.

Record Aggregator := MkAggregator {
  upstreams : list Upstream;
  interval : Z;
  eventLimit : Z;
  apiToken : string;
  state : gmap string regionState;
}.

Definition New (upstreams : list Upstream) (interval : Z) (apiToken : string) : Aggregator :=
  MkAggregator upstreams (if interval <=? 0 then 10 * Second else interval) 100 apiToken
    (foldl (λ m u, <[up_Region u := MkRegionState false "" [] [] []]> m) ∅ upstreams).

(** ** Polling *)

Section Poll.
Context (new_request : string → option error).
Context (get : string → option string → result (Z * string)).

Definition fetchJSON {A} `{Codec A} (apiToken url : string) : result (list A) :=
  match new_request url with
  | Some err => Err err
  | None =>
      '(status, body) ← get url (if apiToken <>s "" then Some ("Bearer " +:+ apiToken) else None);
      if negb (status =? 200) then Err ("GET " +:+ url +:+ ": status " +:+ Itoa status)
      else decode_slice (String.substring 0 (Z.to_nat maxResponseBytes) body)
  end.

(** The state a poll of one upstream ends with; an error anywhere makes the
    region unreachable, without data. *)
Definition poll_result (a : Aggregator) (u : Upstream) : regionState :=
  let fetched :=
    nodes ← fetchJSON (apiToken a) (up_URL u +:+ "/api/nodes");
    events ← fetchJSON (apiToken a) (up_URL u +:+ "/api/events?limit=" +:+ Itoa (eventLimit a));
    alerts ← fetchJSON (apiToken a) (up_URL u +:+ "/api/alerts?limit=" +:+ Itoa (eventLimit a));
    Ok (MkRegionState true "" nodes events alerts) in
  match fetched with
  | Ok st => st
  | Err err => MkRegionState false err [] [] []
  end.

Definition pollUpstream (u : Upstream) (a : Aggregator) : Aggregator :=
  MkAggregator (upstreams a) (interval a) (eventLimit a) (apiToken a)
    (<[up_Region u := poll_result a u]> (state a)).

Definition PollOnce (order : list Upstream) (a : Aggregator) : Aggregator :=
  foldl (λ a u, pollUpstream u a) a order.
End Poll.

(** [Start]: a poll at once, then one per tick until the context ends.  A
    round is the answers of the network at that time and the order in which
    the goroutines finish. *)
Record round := Round {
  rd_request : string → option error;
  rd_get : string → option string → result (Z * string);
  rd_order : list Upstream;
}.

Definition Start (first : round) (ticks : list round) (a : Aggregator) : Aggregator :=
  foldl (λ a r, PollOnce (rd_request r) (rd_get r) (rd_order r) a) a (first :: ticks).

(** ** The merged views *)

Definition merged {A} (field : regionState → list A) (o : map_order string regionState) (a : Aggregator) : list A :=
  concat ((λ s, if reachable s then field s else []) <$> (visit o (state a)).*2).

Definition Nodes := merged rs_nodes.
Definition Events := merged rs_events.
Definition Alerts := merged rs_alerts.

Definition region_status (region : string) (s : regionState) : RegionStatus :=
  MkRegionStatus region (Z.of_nat (length (rs_nodes s)))
    (foldl (λ active n, if Registry.Status n =s "active" then active + 1 else active) 0 (rs_nodes s))
    (reachable s) (lastErr s).

Definition status_le (x y : RegionStatus) : Prop := String.le (rg_Region x) (rg_Region y).

#[global] Instance status_le_dec x y : Decision (status_le x y).
Proof. unfold status_le. apply _. Defined.

Definition Regions (o : map_order string regionState) (a : Aggregator) : list RegionStatus :=
  merge_sort status_le ((λ '(region, s), region_status region s) <$> visit o (state a)).

(** ** Routes ([router.go]) *)

Inductive reply :=
| RNodes (l : list Registry.AgentNode)
| REvents (l : list Event)
| RAlerts (l : list Alert)
| RRegions (l : list RegionStatus)
| ROther (r : HttpApi.response).

Definition get_nodes (o : map_order string regionState) (a : Aggregator) (c : HttpApi.request) : reply :=
  let nodes := Nodes o a in
  let region := HttpApi.Query c "region" in
  RNodes (if region <>s "" then filter (λ n, Registry.Region n = region) nodes else nodes).

Definition gated (path : string) (o : map_order string regionState) (a : Aggregator)
    : option (HttpApi.request → reply) :=
  if path =s "/api/nodes" then Some (get_nodes o a)
  else if path =s "/api/events" then Some (λ _, REvents (Events o a))
  else if path =s "/api/alerts" then Some (λ _, RAlerts (Alerts o a))
  else if path =s "/api/regions" then Some (λ _, RRegions (Regions o a))
  else None.

Definition Router (o : map_order string regionState) (a : Aggregator) (staticDir apiToken : string)
    (c : HttpApi.request) : reply :=
  match gated (HttpApi.rq_path c) o a with
  | Some h => HttpApi.BearerAuth (λ status msg, ROther (HttpApi.abort status msg)) apiToken h c
  | None =>
      ROther
        (if HttpApi.rq_path c =s "/healthz"
         then HttpApi.Response 200 (HttpApi.BStatus [("status", "ok"); ("mode", "aggregator")])
         else if HasPrefix (HttpApi.rq_path c) "/assets/"
         then HttpApi.Response 200 (HttpApi.BFile (staticDir +:+ HttpApi.rq_path c))
         else if HttpApi.rq_path c =s "/favicon.svg"
         then HttpApi.Response 200 (HttpApi.BFile (staticDir +:+ "/favicon.svg"))
         else if HasPrefix (HttpApi.rq_path c) "/api/"
         then HttpApi.Response 404 (HttpApi.BError "not found")
         else HttpApi.Response 200 (HttpApi.BFile (staticDir +:+ "/index.html")))
  end.

(** ** Polling is exact *)

(** The cache has an entry for every upstream's region and no other. *)
Definition keyed (a : Aggregator) : Prop := dom (state a) = list_to_set (up_Region <$> upstreams a).

Lemma fold_insert_lookup (f : Upstream → regionState) order (m : gmap string regionState) u :
  NoDup (up_Region <$> order) → u ∈ order →
  foldl (λ m u, <[up_Region u := f u]> m) m order !! up_Region u = Some (f u).
Proof.
  revert m. induction order as [|v order IH]; intros m Hnd Hin; [by apply elem_of_nil in Hin|].
  rewrite fmap_cons, NoDup_cons in Hnd. destruct Hnd as [Hni Hnd]. cbn [foldl].
  apply elem_of_cons in Hin as [->|Hin]; [|by apply IH]. clear IH Hnd.
  assert (∀ m : gmap string regionState, m !! up_Region v = Some (f v) →
    foldl (λ m u, <[up_Region u := f u]> m) m order !! up_Region v = Some (f v)) as Hk; [|apply Hk, lookup_insert_eq].
  clear m. induction order as [|w order IH]; intros m Hm; [done|]. cbn [foldl].
  rewrite fmap_cons, not_elem_of_cons in Hni. apply IH; [tauto|]. rewrite lookup_insert_ne by naive_solver. done.
Qed.

Lemma fold_insert_dom (f : Upstream → regionState) order (m : gmap string regionState) :
  dom (foldl (λ m u, <[up_Region u := f u]> m) m order) = list_to_set (up_Region <$> order) ∪ dom m.
Proof.
  revert m. induction order as [|u order IH]; intros m; [simpl; set_solver|].
  cbn [foldl]. rewrite IH, dom_insert_L, fmap_cons. set_solver.
Qed.

Lemma New_keyed ups int token : keyed (New ups int token).
Proof. unfold keyed, New. cbn [state upstreams]. rewrite (fold_insert_dom (λ _, _)), dom_empty_L. set_solver. Qed.

Section PollExact.
Context (new_request : string → option error).
Context (get : string → option string → result (Z * string)).

Abbreviation result_of := (poll_result new_request get).

Definition polled (a : Aggregator) : gmap string regionState :=
  list_to_map ((λ u, (up_Region u, result_of a u)) <$> upstreams a).

Lemma PollOnce_config order a :
  let a' := PollOnce new_request get order a in
  upstreams a' = upstreams a ∧ apiToken a' = apiToken a ∧ eventLimit a' = eventLimit a.
Proof. revert a. induction order as [|u order IH]; intros a; [done|]. apply (IH (pollUpstream _ _ u a)). Qed.

(** What is written does not depend on what was written before. *)
Lemma PollOnce_state order a :
  state (PollOnce new_request get order a) =
  foldl (λ m u, <[up_Region u := result_of a u]> m) (state a) order.
Proof.
  assert (∀ a0 : Aggregator, apiToken a0 = apiToken a → eventLimit a0 = eventLimit a →
    state (PollOnce new_request get order a0) =
    foldl (λ m u, <[up_Region u := result_of a u]> m) (state a0) order) as Hgen; [|by apply Hgen].
  induction order as [|u order IH]; intros a0 Ht Hl; [done|]. cbn [PollOnce foldl].
  change (foldl _ ?x order) with (PollOnce new_request get order x) at 1. rewrite IH by done.
  cbn [state pollUpstream]. f_equal. f_equal. unfold poll_result. by rewrite Ht, Hl.
Qed.

Lemma polled_lookup a k :
  NoDup (up_Region <$> upstreams a) →
  ∀ s, polled a !! k = Some s ↔ ∃ u, u ∈ upstreams a ∧ up_Region u = k ∧ s = result_of a u.
Proof.
  intros Hnd s. unfold polled. rewrite <-elem_of_list_to_map.
  - rewrite list_elem_of_fmap. naive_solver.
  - rewrite <-list_fmap_compose. done.
Qed.

Lemma PollOnce_polled order a :
  NoDup (up_Region <$> upstreams a) → order ≡ₚ upstreams a → keyed a →
  state (PollOnce new_request get order a) = polled a.
Proof.
  intros Hnd Hperm Hk. rewrite PollOnce_state.
  assert (NoDup (up_Region <$> order)) as Hnd' by (by rewrite Hperm).
  apply map_eq. intros k. destruct (polled a !! k) as [s|] eqn:Hp.
  - apply polled_lookup in Hp as (u & Hu & <- & ->); [|done]. apply fold_insert_lookup; [done|by rewrite Hperm].
  - apply not_elem_of_dom. rewrite fold_insert_dom. unfold keyed in Hk. rewrite Hk, Hperm. intros Hin.
    assert (k ∈ up_Region <$> upstreams a) as (u & -> & Hu)%list_elem_of_fmap by set_solver.
    assert (polled a !! up_Region u = Some (result_of a u)) as Hs by (apply polled_lookup; eauto). congruence.
Qed.

(** What a region contributes to a merged view. *)
Definition contribution {A} (field : regionState → list A) (s : regionState) : list A :=
  if reachable s then field s else [].

Lemma polled_views {A} (field : regionState → list A) o a a' :
  NoDup (up_Region <$> upstreams a) → state a' = polled a →
  merged field o a' ≡ₚ concat ((λ u, contribution field (result_of a u)) <$> upstreams a).
Proof.
  intros Hnd Hs. unfold merged. rewrite Hs, visit_perm. unfold polled.
  rewrite map_to_list_to_map by (by rewrite <-list_fmap_compose). by rewrite <-!list_fmap_compose.
Qed.

#[global] Instance status_le_trans : Transitive status_le.
Proof. intros x y z. unfold status_le. apply (transitivity (R := String.le)). Qed.

#[global] Instance status_le_total : Total status_le.
Proof. intros x y. unfold status_le. apply (total String.le). Qed.

Lemma polled_regions o a a' :
  NoDup (up_Region <$> upstreams a) → state a' = polled a →
  Regions o a' ≡ₚ (λ u, region_status (up_Region u) (result_of a u)) <$> upstreams a.
Proof.
  intros Hnd Hs. unfold Regions. rewrite merge_sort_Permutation, Hs, visit_perm. unfold polled.
  rewrite map_to_list_to_map by (by rewrite <-list_fmap_compose). by rewrite <-list_fmap_compose.
Qed.

Lemma Regions_sorted o a : Sorted status_le (Regions o a).
Proof. apply Sorted_merge_sort. exact _. Qed.

(** A region is reachable exactly when its three requests are answered with
    lists; otherwise it has no data and the first error. *)
Lemma reachable_iff a u :
  reachable (result_of a u) = true ↔
  ∃ nodes events alerts,
    fetchJSON new_request get (apiToken a) (up_URL u +:+ "/api/nodes") = Ok nodes ∧
    fetchJSON new_request get (apiToken a) (up_URL u +:+ "/api/events?limit=" +:+ Itoa (eventLimit a)) = Ok events ∧
    fetchJSON new_request get (apiToken a) (up_URL u +:+ "/api/alerts?limit=" +:+ Itoa (eventLimit a)) = Ok alerts ∧
    result_of a u = MkRegionState true "" nodes events alerts.
Proof.
  unfold poll_result.
  destruct (fetchJSON (A := Registry.AgentNode) _ _ _ _) as [nodes|e]; [|naive_solver].
  destruct (fetchJSON (A := Event) _ _ _ _) as [events|e]; [|naive_solver].
  destruct (fetchJSON (A := Alert) _ _ _ _) as [alerts|e]; [|naive_solver].
  split; [|done]. intros _. exists nodes, events, alerts. repeat (split; [done|]). done.
Qed.

(** C17: A poll of upstreams with distinct regions leaves, whatever the order
    in which their goroutines finish and whatever the cache held, exactly one
    fresh entry per upstream: the answer of that upstream alone.  The merged
    nodes, events and alerts are then those of the regions whose three
    requests all succeeded, and nothing of a region that failed; the roll-up
    lists every upstream once, ordered by region. *)
Theorem poll_exact order o a :
  NoDup (up_Region <$> upstreams a) → order ≡ₚ upstreams a → keyed a →
  let a' := PollOnce new_request get order a in
  keyed a' ∧ state a' = polled a ∧
  (Nodes o a' ≡ₚ concat ((λ u, contribution rs_nodes (result_of a u)) <$> upstreams a)) ∧
  (Events o a' ≡ₚ concat ((λ u, contribution rs_events (result_of a u)) <$> upstreams a)) ∧
  (Alerts o a' ≡ₚ concat ((λ u, contribution rs_alerts (result_of a u)) <$> upstreams a)) ∧
  (Regions o a' ≡ₚ (λ u, region_status (up_Region u) (result_of a u)) <$> upstreams a) ∧
  Sorted status_le (Regions o a').
Proof.
  intros Hnd Hperm Hk a'. assert (state a' = polled a) as Hs by (by apply PollOnce_polled).
  split; [|eauto 10 using polled_views, polled_regions, Regions_sorted].
  unfold keyed, a'. destruct (PollOnce_config order a) as (-> & _ & _).
  rewrite PollOnce_state, fold_insert_dom, Hk.
  assert (list_to_set (up_Region <$> order) = list_to_set (C := gset string) (up_Region <$> upstreams a)) as ->;
    [|set_solver]. apply leibniz_equiv. by rewrite Hperm.
Qed.
End PollExact.

Lemma Start_snoc first ticks last a :
  Start first (ticks ++ [last]) a =
  PollOnce (rd_request last) (rd_get last) (rd_order last) (Start first ticks a).
Proof. unfold Start. cbn [foldl]. by rewrite foldl_app. Qed.

Lemma Start_keyed first ticks a :
  Forall (λ r, rd_order r ≡ₚ upstreams a) (first :: ticks) → keyed a →
  keyed (Start first ticks a) ∧ upstreams (Start first ticks a) = upstreams a.
Proof.
  unfold Start. generalize (first :: ticks). intros rounds. revert a.
  induction rounds as [|r rounds IH]; intros a Hr Hk; [done|]. apply Forall_cons in Hr as [Hr Hrs]. cbn [foldl].
  destruct (PollOnce_config (rd_request r) (rd_get r) (rd_order r) a) as (Hu & _).
  rewrite <-Hu. apply IH; [by rewrite Hu|]. unfold keyed. rewrite Hu, PollOnce_state, fold_insert_dom, Hk.
  apply leibniz_equiv. rewrite Hr. set_solver.
Qed.

(** After any number of rounds the cache is that of the last one alone: what
    an earlier round fetched from a region that no longer answers is gone. *)
Lemma last_round_only first ticks last a :
  NoDup (up_Region <$> upstreams a) → keyed a →
  Forall (λ r, rd_order r ≡ₚ upstreams a) (first :: ticks ++ [last]) →
  state (Start first (ticks ++ [last]) a) = polled (rd_request last) (rd_get last) (Start first ticks a).
Proof.
  intros Hnd Hk Hr. rewrite Start_snoc.
  rewrite app_comm_cons, Forall_app, Forall_singleton in Hr. destruct Hr as [Hr Hl].
  destruct (Start_keyed first ticks a Hr Hk) as [Hk' Hu].
  apply PollOnce_polled; [by rewrite Hu|by rewrite Hu|done].
Qed.

(** Two upstreams of one region: only the answer of the one whose poll ends
    last is kept. *)
Lemma same_region_overwrites new_request get u v a :
  up_Region u = up_Region v →
  state (PollOnce new_request get [u; v] a) = <[up_Region v := poll_result new_request get a v]> (state a).
Proof.
  intros Hr. rewrite PollOnce_state. cbn [foldl]. by rewrite Hr, insert_insert_eq.
Qed.

(** ** Accepted upstreams *)

Section ParseFacts.
Context (url_parse : string → result (string * string)) (quote_go : string → string).

Definition upstream_ok (u : Upstream) : Prop :=
  up_Region u ≠ "" ∧ ∃ scheme host,
    url_parse (up_URL u) = Ok (scheme, host) ∧ (scheme = "http" ∨ scheme = "https") ∧ host ≠ "".

Lemma ParseUpstream_ok spec u : ParseUpstream url_parse quote_go spec = Ok u → upstream_ok u.
Proof.
  unfold ParseUpstream. destruct (match Cut spec "=" with Some (a, b) => (a, b, true) | None => (spec, "", false) end)
    as [[region rawURL] ok].
  destruct (negb ok || _ || _) eqn:Hbad; [done|].
  destruct (url_parse _) as [[scheme host]|] eqn:Hp; [|done].
  destruct (_ && _) eqn:Hs; [done|]. destruct (host =s "") eqn:Hh; [done|]. intros [= <-].
  apply orb_false_iff in Hbad as [[_ Hreg]%orb_false_iff _].
  apply bool_decide_eq_false in Hreg, Hh. split; [done|]. exists scheme, host. split; [done|]. split; [|done].
  apply andb_false_iff in Hs as [Hs|Hs]; apply negb_false_iff, bool_decide_eq_true in Hs; auto.
Qed.

(** All or nothing, one upstream per specification, in order. *)
Lemma ParseUpstreams_ok specs us :
  ParseUpstreams url_parse quote_go specs = Ok us →
  Forall2 (λ spec u, ParseUpstream url_parse quote_go spec = Ok u ∧ upstream_ok u) specs us.
Proof.
  unfold ParseUpstreams.
  assert (∀ out, parse_loop url_parse quote_go out specs = Ok us → ∃ us', us = out ++ us' ∧
    Forall2 (λ spec u, ParseUpstream url_parse quote_go spec = Ok u ∧ upstream_ok u) specs us') as Hgen.
  { induction specs as [|spec specs IH]; intros out; cbn [parse_loop].
    - intros [= <-]. exists []. by rewrite app_nil_r.
    - destruct (ParseUpstream url_parse quote_go spec) as [u|] eqn:Hu; [|done]. cbn [mbind result_bind].
      intros (us' & -> & Hus)%IH. exists (u :: us'). rewrite <-app_assoc. split; [done|].
      constructor; [split; [done|by eapply ParseUpstream_ok]|done]. }
  intros (us' & -> & Hus)%Hgen. done.
Qed.

End ParseFacts.

(** ** Against a region's collector *)

Section Mirror.
Context `{Badger}.
Context (new_request : string → option error).
Context (get : string → option string → result (Z * string)).

(** How [c.JSON] writes a list: a slice that is nil as [null]. *)
Definition renders {A} `{Codec A} (l : list A) (s : string) : Prop :=
  marshal_slice l = Ok s ∨ l = [] ∧ s = "null".

Definition body_renders (b : HttpApi.body) (s : string) : Prop :=
  match b with
  | HttpApi.BNodes l => renders l s
  | HttpApi.BEvents l => renders l s
  | HttpApi.BAlerts l => renders l s
  | _ => True
  end.

(** The client's answer is the router's, its body no longer than what the
    aggregator reads. *)
Definition answers (url : string) (auth : option string) (r : HttpApi.response) : Prop :=
  ∃ s, get url auth = Ok (HttpApi.rsp_status r, s) ∧ body_renders (HttpApi.rsp_body r) s ∧
       Z.of_nat (String.length s) <= maxResponseBytes.

(** A collector with token [token] behind an upstream, its state at each of
    the three requests. *)
Context (staticDir token : string) (detector : option Anomaly.Detector).
Context (e1 e2 e3 : HttpApi.env).

Definition serves (u : Upstream) (auth : option string) : Prop :=
  let route e path query := HttpApi.Router staticDir token detector e (HttpApi.Request path query (default "" auth)) in
  answers (up_URL u +:+ "/api/nodes") auth (route e1 "/api/nodes" []) ∧
  answers (up_URL u +:+ "/api/events?limit=100") auth (route e2 "/api/events" [("limit", "100")]) ∧
  answers (up_URL u +:+ "/api/alerts?limit=100") auth (route e3 "/api/alerts" [("limit", "100")]).

(** The header the aggregator sends. *)
Definition header (a : Aggregator) : option string :=
  if apiToken a <>s "" then Some ("Bearer " +:+ apiToken a) else None.

Lemma route_open e a path query h :
  HttpApi.gated detector path = Some h → token = "" ∨ token = apiToken a →
  HttpApi.Router staticDir token detector e (HttpApi.Request path query (default "" (header a)))
  = h e (HttpApi.Request path query (default "" (header a))).
Proof.
  intros Hg Htok. unfold HttpApi.Router. cbn [HttpApi.rq_path]. rewrite Hg.
  destruct (decide (token = "")) as [->|Hne]; [done|].
  destruct Htok as [-> | Htok]; [done|]. rewrite HttpApi.BearerAuth_exact by done.
  unfold header. rewrite <-Htok, bool_decide_eq_false_2 by done. cbn. by rewrite decide_True.
Qed.

Lemma substring_all n s : (String.length s <= n)%nat → String.substring 0 n s = s.
Proof.
  intros Hn. apply (inj bytes). rewrite bytes_substring. apply take_ge. by rewrite length_bytes.
Qed.

(** A list served with status 200 is read back, whatever the codec. *)
Lemma fetch_list {A} `{Codec A} d a url (l : list A) s :
  new_request url = None → get url (header a) = Ok (200, s) → renders l s →
  Z.of_nat (String.length s) <= maxResponseBytes →
  (S d <= maxNestingDepth)%nat → Forall (listable d) l →
  fetchJSON new_request get (apiToken a) url = Ok l.
Proof.
  intros Hreq Hget Hr Hlen Hd Hl. unfold fetchJSON. rewrite Hreq. unfold header in Hget. rewrite Hget.
  cbn [mbind result_bind]. rewrite Z.eqb_refl. cbn [negb].
  rewrite substring_all by lia. destruct Hr as [Hm|[-> ->]]; [|apply decode_null].
  destruct (slice_roundtrip d l Hd Hl) as (s' & Hs' & Hdec). congruence.
Qed.

Lemma route_closed e a path query h :
  HttpApi.gated detector path = Some h → token ≠ "" → token ≠ apiToken a →
  HttpApi.Router staticDir token detector e (HttpApi.Request path query (default "" (header a)))
  = HttpApi.Response 401 (HttpApi.BError "unauthorized").
Proof.
  intros Hg Hne Htok. unfold HttpApi.Router. cbn [HttpApi.rq_path]. rewrite Hg.
  rewrite HttpApi.BearerAuth_exact, decide_False; [done| |done]. cbn [HttpApi.rq_authorization].
  unfold header. case_bool_decide; [done|]. cbn. by intros [= ?].
Qed.

(** What each route answers, as the aggregator's client sees it. *)
Lemma nodes_answer e a url :
  answers url (header a) (HttpApi.get_nodes e (HttpApi.Request "/api/nodes" [] (default "" (header a)))) →
  ∃ s, get url (header a) = Ok (200, s) ∧
       renders (exposed <$> Registry.List (HttpApi.e_order e 0) (HttpApi.e_registry e 0)) s ∧
       Z.of_nat (String.length s) <= maxResponseBytes.
Proof.
  intros (s & Hg & Hr & Hl). exists s. split; [exact Hg|]. split; [|done].
  destruct Hr as [Hm|[Hnil ->]]; [left|right].
  - rewrite <-Hm. unfold marshal_slice. by rewrite marshal_all_exposed.
  - split; [|done]. change (Registry.List (HttpApi.e_order e 0) (HttpApi.e_registry e 0) = []) in Hnil. by rewrite Hnil.
Qed.

Lemma events_answer (lg : StoreLog.Log Event) t e a url :
  StoreLog.refines (HttpApi.e_store e) lg t → t <= wall (HttpApi.e_now e) → HttpApi.e_sched e = Store.Completes →
  answers url (header a) (HttpApi.get_events e (HttpApi.Request "/api/events" [("limit", "100")] (default "" (header a)))) →
  ∃ s, get url (header a) = Ok (200, s) ∧ renders (take 100 (StoreLog.log_list lg (wall (HttpApi.e_now e)))) s ∧
       Z.of_nat (String.length s) <= maxResponseBytes.
Proof.
  intros Hr Ht Hs (s & Hg & Hb & Hl). exists s. unfold HttpApi.get_events in Hg, Hb.
  change (HttpApi.parseLimit _ _ _) with (Ok 100) in Hg, Hb. cbv iota in Hg, Hb.
  rewrite Hs, (StoreLog.ListEvents_refines _ _ _ _ _ _ Hr Ht) in Hg, Hb. split; [exact Hg|]. split; [|done].
  unfold HttpApi.in_region in Hb. cbn in Hb. rewrite filter_all in Hb by (apply Forall_true; by left). exact Hb.
Qed.

Lemma alerts_answer (lg : StoreLog.Log Alert) t e a url :
  StoreLog.refines (HttpApi.e_store e) lg t → t <= wall (HttpApi.e_now e) → HttpApi.e_sched e = Store.Completes →
  answers url (header a) (HttpApi.get_alerts e (HttpApi.Request "/api/alerts" [("limit", "100")] (default "" (header a)))) →
  ∃ s, get url (header a) = Ok (200, s) ∧ renders (take 100 (StoreLog.log_list lg (wall (HttpApi.e_now e)))) s ∧
       Z.of_nat (String.length s) <= maxResponseBytes.
Proof.
  intros Hr Ht Hs (s & Hg & Hb & Hl). exists s. unfold HttpApi.get_alerts in Hg, Hb.
  change (HttpApi.parseLimit _ _ _) with (Ok 100) in Hg, Hb. cbv iota in Hg, Hb.
  rewrite Hs, (StoreLog.ListAlerts_refines _ _ _ _ _ _ Hr Ht) in Hg, Hb. split; [exact Hg|]. split; [|done].
  unfold HttpApi.in_region in Hb. cbn in Hb. rewrite filter_all in Hb by (apply Forall_true; by left). exact Hb.
Qed.

(** The records of a collector that the aggregator can read back. *)
Definition readable_event (e : Event) : Prop := event_ok e ∧ text_within 1 (ev_Payload e).

(** C18: The aggregator mirrors a region's collector.  When the HTTP client
    returns what the collector's router answers, and the collector's records
    are valid UTF-8 with years in range, a poll with the same token (or a
    collector without one) leaves the region reachable with exactly the
    collector's registered agents, their unexported field aside, and the hundred
    first live events and alerts of its logs; a collector with another token
    leaves the region unreachable with its 401 reported. *)
Theorem region_mirrored (lg : StoreLog.Log Event) t (alg : StoreLog.Log Alert) t' a u :
  eventLimit a = 100 →
  Forall (λ path, new_request (up_URL u +:+ path) = None)
    ["/api/nodes"; "/api/events?limit=100"; "/api/alerts?limit=100"] →
  serves u (header a) →
  StoreLog.refines (HttpApi.e_store e2) lg t → t <= wall (HttpApi.e_now e2) → HttpApi.e_sched e2 = Store.Completes →
  StoreLog.refines (HttpApi.e_store e3) alg t' → t' <= wall (HttpApi.e_now e3) → HttpApi.e_sched e3 = Store.Completes →
  let nodes := exposed <$> Registry.List (HttpApi.e_order e1 0) (HttpApi.e_registry e1 0) in
  let events := take 100 (StoreLog.log_list lg (wall (HttpApi.e_now e2))) in
  let alerts := take 100 (StoreLog.log_list alg (wall (HttpApi.e_now e3))) in
  Forall json_node_ok nodes → Forall readable_event events → Forall alert_ok alerts →
  (token = "" ∨ token = apiToken a → poll_result new_request get a u = MkRegionState true "" nodes events alerts) ∧
  (token ≠ "" → token ≠ apiToken a →
   poll_result new_request get a u =
   MkRegionState false ("GET " +:+ (up_URL u +:+ "/api/nodes") +:+ ": status 401") [] [] []).
Proof.
  intros Hlim Hreq (Hn & He & Ha) Hr Ht Hs Hra Hta Hsa nodes events alerts Hnok Heok Haok.
  apply Forall_cons in Hreq as [Hq1 Hreq]. repeat (apply Forall_cons in Hreq as [? Hreq]). split; intros Htok.
  - rewrite (route_open e1 a "/api/nodes" [] HttpApi.get_nodes) in Hn by done.
    rewrite (route_open e2 a "/api/events" _ HttpApi.get_events) in He by done.
    rewrite (route_open e3 a "/api/alerts" _ HttpApi.get_alerts) in Ha by done.
    apply nodes_answer in Hn as (s1 & Hg1 & Hr1 & Hl1). apply (events_answer lg t) in He as (s2 & Hg2 & Hr2 & Hl2); [|done..].
    apply (alerts_answer alg t') in Ha as (s3 & Hg3 & Hr3 & Hl3); [|done..].
    unfold poll_result. rewrite Hlim. change (Itoa 100) with "100".
    rewrite (fetch_list 1 a _ nodes s1) by (done || (unfold maxNestingDepth; lia) || eauto using Forall_impl, node_listable).
    rewrite (fetch_list 2 a _ events s2)
      by (done || (unfold maxNestingDepth; lia) || (eapply Forall_impl; [exact Heok|]; intros ? []; by apply event_listable)).
    by rewrite (fetch_list 1 a _ alerts s3) by (done || (unfold maxNestingDepth; lia) || eauto using Forall_impl, alert_listable).
  - intros Hne. destruct Hn as (s & Hg & _). rewrite (route_closed e1 a "/api/nodes" [] HttpApi.get_nodes) in Hg by done.
    unfold poll_result, fetchJSON. rewrite Hq1. unfold header in Hg. rewrite Hg. reflexivity.
Qed.

End Mirror.

(** ** Witnesses *)

Module Example.
#[local] Existing Instance Reference.badger.

Definition r1 : Upstream := MkUpstream "r1" "http://192.0.2.10:8081".
Definition r2 : Upstream := MkUpstream "r2" "http://192.0.2.11:8081".

(** The collector of region [r1]: a registered agent and the events of
    [Store.Example]. *)
Definition env1 : HttpApi.env :=
  HttpApi.Env (HttpApi.e_store HttpApi.Example.env0)
    (λ _, (Registry.Register Store.Example.T "n1" "h" "192.0.2.1" "v1" "r1" Registry.New).2)
    (HttpApi.e_now HttpApi.Example.env0) Store.Completes (λ _, canonical_order) canonical_order canonical_order.

Definition text_of (b : HttpApi.body) : string :=
  match (match b with
         | HttpApi.BNodes l => marshal_slice l
         | HttpApi.BEvents l => marshal_slice l
         | HttpApi.BAlerts l => marshal_slice l
         | _ => Ok ""
         end) with
  | Ok s => s
  | Err _ => ""
  end.

(** The network: [r1]'s collector answers, nothing else does. *)
Definition get0 (token url : string) (auth : option string) : result (Z * string) :=
  let ask path query :=
    let r := HttpApi.Router "web" token None env1 (HttpApi.Request path query (default "" auth)) in
    Ok (HttpApi.rsp_status r, text_of (HttpApi.rsp_body r)) in
  if url =s up_URL r1 +:+ "/api/nodes" then ask "/api/nodes" []
  else if url =s up_URL r1 +:+ "/api/events?limit=100" then ask "/api/events" [("limit", "100")]
  else if url =s up_URL r1 +:+ "/api/alerts?limit=100" then ask "/api/alerts" [("limit", "100")]
  else Err "connect: connection refused".

Definition no_error (url : string) : option error := None.
Definition agg0 : Aggregator := New [r1; r2] 0 "s3cret".

Lemma answers_text get url auth r :
  get url auth = Ok (HttpApi.rsp_status r, text_of (HttpApi.rsp_body r)) →
  match HttpApi.rsp_body r with
  | HttpApi.BNodes l => is_Ok (marshal_slice l)
  | HttpApi.BEvents l => is_Ok (marshal_slice l)
  | HttpApi.BAlerts l => is_Ok (marshal_slice l)
  | _ => true
  end = true →
  (Z.of_nat (String.length (text_of (HttpApi.rsp_body r))) <=? maxResponseBytes) = true →
  answers get url auth r.
Proof.
  intros Hg Hok Hl%Z.leb_le. eexists. split; [exact Hg|]. split; [|exact Hl]. clear Hg Hl.
  unfold text_of. destruct (HttpApi.rsp_body r); try done; left; by destruct (marshal_slice _).
Qed.

Lemma serves0 token : token = "s3cret" ∨ token = "other" →
  serves (get0 token) "web" token None env1 env1 env1 r1 (header agg0).
Proof.
  intros [-> | ->]; (split; [|split]); (apply answers_text; vm_compute; reflexivity).
Qed.

Lemma events0_readable :
  Forall readable_event (take 100 (StoreLog.log_list HttpApi.Example.lg0 (wall (HttpApi.e_now env1)))).
Proof.
  assert (∀ id node ty, Valid_utf8 id → Valid_utf8 node → Valid_utf8 ty →
    readable_event (Store.Example.event id node ty)) as Hev.
  { intros. split; [by apply Store.Example.event_codec_ok|]. exists JNull. intros. apply Text_null. }
  assert (take 100 (StoreLog.log_list HttpApi.Example.lg0 (wall (HttpApi.e_now env1)))
    = [Store.Example.event "e3" "n2" "tcp"; Store.Example.event "e1" "n1" "exec";
       Store.Example.event "e2" "n1" "exec"]) as -> by (vm_compute; reflexivity).
  repeat (apply Forall_cons_2; [by apply Hev|]). apply Forall_nil_2.
Qed.

Lemma alerts0_ok : Forall alert_ok (take 100 (StoreLog.log_list HttpApi.Example.alg0 (wall (HttpApi.e_now env1)))).
Proof.
  assert (take 100 (StoreLog.log_list HttpApi.Example.alg0 (wall (HttpApi.e_now env1))) = [StoreLog.Example.alert_ex])
    as -> by (vm_compute; reflexivity).
  apply Forall_singleton, StoreLog.Example.alert_codec_ok.
Qed.

Lemma nodes0_ok :
  Forall json_node_ok (exposed <$> Registry.List (HttpApi.e_order env1 0) (HttpApi.e_registry env1 0)).
Proof.
  assert (Registry.List (HttpApi.e_order env1 0) (HttpApi.e_registry env1 0)
    = [Registry.MkAgentNode "n1" "h" "192.0.2.1" "v1" "r1" Store.Example.T Store.Example.T "active" 0]) as ->
    by (vm_compute; reflexivity).
  apply Forall_singleton. split; [|split; [by vm_compute|split; [by vm_compute|done]]].
  repeat (apply Forall_cons_2; [vm_compute; reflexivity|]). apply Forall_nil_2.
Qed.

End Example.
Import Example.

Lemma poll_exact_witness :
  Regions canonical_order (PollOnce no_error (get0 "s3cret") [r2; r1] agg0)
  ≡ₚ [MkRegionStatus "r1" 1 1 true ""; MkRegionStatus "r2" 0 0 false "connect: connection refused"].
Proof.
  assert (NoDup (up_Region <$> upstreams agg0)) as Hnd by (apply (bool_decide_unpack _); vm_compute; done).
  assert ([r2; r1] ≡ₚ upstreams agg0) as Hp by apply Permutation_swap.
  destruct (poll_exact no_error (get0 "s3cret") [r2; r1] canonical_order agg0 Hnd Hp (New_keyed _ _ _))
    as (_ & _ & _ & _ & _ & Hr & _).
  rewrite Hr. vm_compute. reflexivity.
Defined.

Lemma region_mirrored_witness :
  (rs_events (poll_result no_error (get0 "s3cret") agg0 r1)
   = take 100 (StoreLog.log_list HttpApi.Example.lg0 (wall (HttpApi.e_now env1))) ∧
   rs_alerts (poll_result no_error (get0 "s3cret") agg0 r1) = [StoreLog.Example.alert_ex]) ∧
  poll_result no_error (get0 "other") agg0 r1
  = MkRegionState false "GET http://192.0.2.10:8081/api/nodes: status 401" [] [] [].
Proof.
  assert (Forall (λ path, no_error (up_URL r1 +:+ path) = None)
    ["/api/nodes"; "/api/events?limit=100"; "/api/alerts?limit=100"]) as Hreq by (repeat constructor).
  assert (Store.Example.T + 4 * Second <= wall (HttpApi.e_now env1)) as Ht by (by vm_compute).
  split.
  - rewrite (proj1 (region_mirrored no_error (get0 "s3cret") "web" "s3cret" None env1 env1 env1 HttpApi.Example.lg0 _
      HttpApi.Example.alg0 _ agg0 r1 eq_refl Hreq (serves0 _ (or_introl eq_refl)) HttpApi.Example.env0_refines Ht eq_refl
      HttpApi.Example.env0_refines_alerts Ht eq_refl nodes0_ok events0_readable alerts0_ok) (or_intror eq_refl)).
    split; [reflexivity|]. cbn [rs_alerts]. vm_compute. reflexivity.
  - apply (region_mirrored no_error (get0 "other") "web" "other" None env1 env1 env1 HttpApi.Example.lg0 _
      HttpApi.Example.alg0 _ agg0 r1 eq_refl Hreq (serves0 _ (or_intror eq_refl)) HttpApi.Example.env0_refines Ht eq_refl
      HttpApi.Example.env0_refines_alerts Ht eq_refl nodes0_ok events0_readable alerts0_ok); discriminate.
Defined.

End Aggregator.
