(* ===== verification/AggregatorRun.v ===== *)
(** * The running aggregator ([aggregator.Start], [runAggregate])

    [Aggregator.PollOnce] is a round of polls seen from its end: the writes it
    makes, with one set of answers for the whole round.  Here a round is what
    the code runs: [PollOnce] starts one goroutine per upstream and waits for
    all of them; each goroutine makes its three requests one after the other,
    each answered by the network as it is at that moment, and ends with one
    write to the cache under the mutex.  The requests of REST clients come in
    between, each reading the cache once under the read lock.

    [runAggregate] calls [Start], which makes the first round itself, before it
    serves: no request is answered before every upstream was polled once.  The
    later rounds belong to a background goroutine that waits for a tick, or
    for the end of the context, between two rounds. *)

From S2P Require Import Prelude GoStrings GoTime GoJson StoreData Codec GoJsonList NodeCodec Registry.
From S2P Require Import Anomaly Badger Store StoreLog HttpApi Aggregator.
Import GoStrings Aggregator.

Module AggregatorRun.

(** ** One goroutine of a round ([pollUpstream]) *)

(** The network at one moment: how a request is built and answered. *)
Record moment := Moment {
  mo_request : string → option error;
  mo_get : string → option string → result (Z * string);
}.

(** What a goroutine does next: one of its requests, with the lists it already
    has, or its write of the region's state. *)
Inductive pc :=
| FetchNodes
| FetchEvents (nodes : list Registry.AgentNode)
| FetchAlerts (nodes : list Registry.AgentNode) (events : list Event)
| Write (st : regionState).

(** [markUnreachable] is a write as well. *)
Definition markUnreachable (err : error) : pc := Write (MkRegionState false err [] [] []).

Definition url_of (a : Aggregator) (u : Upstream) (p : pc) : string :=
  match p with
  | FetchNodes => up_URL u +:+ "/api/nodes"
  | FetchEvents _ => up_URL u +:+ "/api/events?limit=" +:+ Itoa (eventLimit a)
  | FetchAlerts _ _ => up_URL u +:+ "/api/alerts?limit=" +:+ Itoa (eventLimit a)
  | Write _ => ""
  end.

Definition fetch {A} `{Codec A} (a : Aggregator) (n : moment) (url : string) : result (list A) :=
  fetchJSON (mo_request n) (mo_get n) (apiToken a) url.

(** The next request, answered at moment [n]. *)
Definition pollUpstream (a : Aggregator) (u : Upstream) (n : moment) (p : pc) : option pc :=
  match p with
  | FetchNodes =>
      Some (match fetch a n (url_of a u p) with Err err => markUnreachable err | Ok nodes => FetchEvents nodes end)
  | FetchEvents nodes =>
      Some (match fetch a n (url_of a u p) with Err err => markUnreachable err | Ok events => FetchAlerts nodes events end)
  | FetchAlerts nodes events =>
      Some (match fetch a n (url_of a u p) with
            | Err err => markUnreachable err
            | Ok alerts => Write (MkRegionState true "" nodes events alerts)
            end)
  | Write _ => None
  end.

(** The write, the critical section of the goroutine. *)
Definition set_region (u : Upstream) (st : regionState) (a : Aggregator) : Aggregator :=
  MkAggregator (upstreams a) (interval a) (eventLimit a) (apiToken a) (<[up_Region u := st]> (state a)).

(** ** The process *)

Record goroutine := Go { g_up : Upstream; g_pc : pc }.

(** [Polling first rest running]: inside [PollOnce], with the upstreams not yet
    reached by its loop and the goroutines [wg.Wait] waits for; [first] tells
    the round of [Start] itself from those of the background goroutine.
    [Ticking]: at the select.  [Ended]: the background goroutine returned. *)
Inductive phase :=
| Polling (first : bool) (rest : list Upstream) (running : list goroutine)
| Ticking
| Ended.

Record process := Process { agg : Aggregator; ph : phase }.

Inductive label :=
| LBegin
| LSpawn (u : Upstream)
| LFetch (u : Upstream) (url : string) (n : moment)
| LWrite (u : Upstream) (st : regionState)
| LEnd
| LDone
| LReply (c : HttpApi.request) (r : reply).

(** The process after [New], entering [Start]. *)
Definition Start (a : Aggregator) : process := Process a (Polling true (upstreams a) []).

(** The server is started once [Start] has returned. *)
Definition serving (p : phase) : bool := match p with Polling true _ _ => false | _ => true end.

Section Run.
Context (staticDir token : string).

Inductive step : process → label → process → Prop :=
| Step_spawn a first u rest running :
    step (Process a (Polling first (u :: rest) running)) (LSpawn u)
         (Process a (Polling first rest (running ++ [Go u FetchNodes])))
| Step_fetch a first rest before u p n p' after :
    pollUpstream a u n p = Some p' →
    step (Process a (Polling first rest (before ++ Go u p :: after))) (LFetch u (url_of a u p) n)
         (Process a (Polling first rest (before ++ Go u p' :: after)))
| Step_write a first rest before u st after :
    step (Process a (Polling first rest (before ++ Go u (Write st) :: after))) (LWrite u st)
         (Process (set_region u st a) (Polling first rest (before ++ after)))
| Step_end a first :
    step (Process a (Polling first [] [])) LEnd (Process a Ticking)
| Step_tick a :
    step (Process a Ticking) LBegin (Process a (Polling false (upstreams a) []))
| Step_done a :
    step (Process a Ticking) LDone (Process a Ended)
| Step_reply a p o c :
    serving p = true →
    step (Process a p) (LReply c (Router o a staticDir token c)) (Process a p).

(** The runs, with everything that happened, oldest first. *)
Inductive runs (a : Aggregator) : list label → process → Prop :=
| Runs_start : runs a [LBegin] (Start a)
| Runs_step tr p l p' : runs a tr p → step p l p' → runs a (tr ++ [l]) p'.

(** ** What a finished poll wrote *)

(** The result of a poll whose three requests are answered at three moments. *)
Definition outcome (a : Aggregator) (u : Upstream) (n1 n2 n3 : moment) : regionState :=
  match (nodes ← fetch a n1 (up_URL u +:+ "/api/nodes");
         events ← fetch a n2 (up_URL u +:+ "/api/events?limit=" +:+ Itoa (eventLimit a));
         alerts ← fetch a n3 (up_URL u +:+ "/api/alerts?limit=" +:+ Itoa (eventLimit a));
         Ok (MkRegionState true "" nodes events alerts)) with
  | Ok st => st
  | Err err => MkRegionState false err [] [] []
  end.

(** The requests such a poll makes: none after the first that fails. *)
Definition requests (a : Aggregator) (u : Upstream) (n1 n2 n3 : moment) : list label :=
  let l1 := LFetch u (up_URL u +:+ "/api/nodes") n1 in
  let l2 := LFetch u (up_URL u +:+ "/api/events?limit=" +:+ Itoa (eventLimit a)) n2 in
  let l3 := LFetch u (up_URL u +:+ "/api/alerts?limit=" +:+ Itoa (eventLimit a)) n3 in
  match fetch (A := Registry.AgentNode) a n1 (up_URL u +:+ "/api/nodes"),
        fetch (A := Event) a n2 (up_URL u +:+ "/api/events?limit=" +:+ Itoa (eventLimit a)) with
  | Err _, _ => [l1]
  | Ok _, Err _ => [l1; l2]
  | Ok _, Ok _ => [l1; l2; l3]
  end.

(** With one moment for the three requests this is [Aggregator.poll_result]. *)
Lemma outcome_poll_result a u n : outcome a u n n n = poll_result (mo_request n) (mo_get n) a u.
Proof. reflexivity. Qed.

(** The requests a goroutine has made when it is at [p]. *)
Inductive progress (a : Aggregator) (u : Upstream) : list label → pc → Prop :=
| Progress_start : progress a u [] FetchNodes
| Progress_fetch l p n p' :
    progress a u l p → pollUpstream a u n p = Some p' → progress a u (l ++ [LFetch u (url_of a u p) n]) p'.
#[local] Hint Constructors progress : core.

(** The last request a goroutine made, from the point it is at. *)
Ltac last_request :=
  let H := fresh in let Hs := fresh in
  intros H; inversion H as [|? p n ? Hp Hs]; subst; try done; clear H;
  destruct p; cbn in Hs; unfold markUnreachable in Hs; repeat case_match; simplify_eq/=.

Lemma progress_nodes a u l : progress a u l FetchNodes → l = [].
Proof. last_request. Qed.

Lemma progress_events a u l nodes :
  progress a u l (FetchEvents nodes) →
  ∃ n1, l = [LFetch u (up_URL u +:+ "/api/nodes") n1] ∧ fetch a n1 (up_URL u +:+ "/api/nodes") = Ok nodes.
Proof.
  last_request.   apply progress_nodes in Hp as ->. eauto.
Qed.

Lemma progress_alerts a u l nodes events :
  progress a u l (FetchAlerts nodes events) →
  ∃ n1 n2, l = [LFetch u (up_URL u +:+ "/api/nodes") n1;
                LFetch u (up_URL u +:+ "/api/events?limit=" +:+ Itoa (eventLimit a)) n2] ∧
    fetch a n1 (up_URL u +:+ "/api/nodes") = Ok nodes ∧
    fetch a n2 (up_URL u +:+ "/api/events?limit=" +:+ Itoa (eventLimit a)) = Ok events.
Proof.
  last_request.   apply progress_events in Hp as (n1 & -> & Hn). exists n1, n. done.
Qed.

(** A goroutine about to write has made the requests of a poll, and writes its
    outcome. *)
Lemma progress_write a u l st :
  progress a u l (Write st) → ∃ n1 n2 n3, l = requests a u n1 n2 n3 ∧ st = outcome a u n1 n2 n3.
Proof.
  last_request; unfold requests, outcome; rename select (fetch _ _ _ = _) into Hf.
  - apply progress_nodes in Hp as ->. exists n, n, n. by rewrite Hf.
  - apply progress_events in Hp as (n1 & -> & Hn). exists n1, n, n. rewrite Hn. cbn. by rewrite Hf.
  - apply progress_alerts in Hp as (n1 & n2 & -> & Hn & He). exists n1, n2, n. rewrite Hn. cbn. rewrite He. cbn. by rewrite Hf.
  - apply progress_alerts in Hp as (n1 & n2 & -> & Hn & He). exists n1, n2, n. rewrite Hn. cbn. rewrite He. cbn. by rewrite Hf.
Qed.
(** ** Where the cached data comes from *)

Definition is_begin (l : label) : bool := match l with LBegin => true | _ => false end.

(** The rounds begun in a part of a run. *)
Definition rounds (tr : list label) : nat := length (filter (λ l, is_begin l = true) tr).

(** A part of a run from the beginning of a round on, with no other round. *)
Definition one_round (tr : list label) : Prop := ∃ tr', tr = LBegin :: tr' ∧ rounds tr' = 0%nat.

Lemma rounds_app tr1 tr2 : rounds (tr1 ++ tr2) = (rounds tr1 + rounds tr2)%nat.
Proof. unfold rounds. by rewrite filter_app, length_app. Qed.

Definition same_config (a b : Aggregator) : Prop :=
  upstreams a = upstreams b ∧ apiToken a = apiToken b ∧ eventLimit a = eventLimit b.

Section Fresh.
Context (a0 : Aggregator).

(** The state cached for a region was written by a poll of one of its upstreams
    whose requests, in order, are among [tr]. *)
Definition polled_in (tr : list label) (m : gmap string regionState) (region : string) : Prop :=
  ∃ st u l, m !! region = Some st ∧ u ∈ upstreams a0 ∧ up_Region u = region ∧
    l `sublist_of` tr ∧ progress a0 u l (Write st).

Definition all_polled (tr : list label) (m : gmap string regionState) : Prop :=
  ∀ u, u ∈ upstreams a0 → polled_in tr m (up_Region u).

Lemma polled_in_mono tr tr' m region : tr `sublist_of` tr' → polled_in tr m region → polled_in tr' m region.
Proof. intros Hs (st & u & l & ? & ? & ? & Hl & ?). exists st, u, l. repeat split; try done. by trans tr. Qed.

Lemma all_polled_mono tr tr' m : tr `sublist_of` tr' → all_polled tr m → all_polled tr' m.
Proof. intros Hs Hall u Hu. eapply polled_in_mono; eauto. Qed.

Lemma polled_in_write tr m region u l st :
  u ∈ upstreams a0 → l `sublist_of` tr → progress a0 u l (Write st) →
  (up_Region u = region ∨ polled_in tr m region) → polled_in tr (<[up_Region u := st]> m) region.
Proof.
  intros Hu Hl Hp Hor. destruct (decide (up_Region u = region)) as [<-|Hne].
  - exists st, u, l. by rewrite lookup_insert_eq.
  - destruct Hor as [|(st' & v & l' & Hm & ?)]; [done|]. exists st', v, l'. by rewrite lookup_insert_ne.
Qed.

(** A round in progress, [cur] being its part of the run: every upstream is
    still to be polled, being polled, or was polled in [cur]. *)
Definition round_ok (cur : list label) (m : gmap string regionState) (rest : list Upstream)
    (running : list goroutine) : Prop :=
  rest ⊆ upstreams a0 ∧
  Forall (λ g, g_up g ∈ upstreams a0 ∧ ∃ l, l `sublist_of` cur ∧ progress a0 (g_up g) l (g_pc g)) running ∧
  (∀ u, u ∈ upstreams a0 → u ∈ rest ∨ u ∈ g_up <$> running ∨ polled_in cur m (up_Region u)).

(** The invariant; [mid] holds the round before the current one, if any. *)
Definition phase_ok (tr : list label) (m : gmap string regionState) (p : phase) : Prop :=
  match p with
  | Polling first rest running =>
      ∃ old mid cur, tr = old ++ mid ++ LBegin :: cur ∧ rounds cur = 0%nat ∧ round_ok cur m rest running ∧
        (first = false → one_round mid ∧ all_polled (mid ++ LBegin :: cur) m)
  | _ => ∃ old cur, tr = old ++ cur ∧ one_round cur ∧ all_polled cur m
  end.

Definition proc_ok (tr : list label) (p : process) : Prop :=
  same_config (agg p) a0 ∧ keyed (agg p) ∧ phase_ok tr (state (agg p)) (ph p).

Lemma pollUpstream_config a u n p : same_config a a0 → pollUpstream a u n p = pollUpstream a0 u n p.
Proof. intros (_ & Ht & Hl). destruct p; cbn; unfold fetch; by rewrite ?Ht, ?Hl. Qed.

Lemma url_config a u p : same_config a a0 → url_of a u p = url_of a0 u p.
Proof. intros (_ & _ & Hl). destruct p; cbn; by rewrite ?Hl. Qed.

Lemma rounds_snoc tr l : is_begin l = false → rounds (tr ++ [l]) = rounds tr.
Proof. intros Hl. rewrite rounds_app. unfold rounds at 2. rewrite filter_cons_False by (by rewrite Hl). cbn. lia. Qed.

Lemma one_round_snoc tr l : is_begin l = false → one_round tr → one_round (tr ++ [l]).
Proof. intros Hl (tr' & -> & Hn). exists (tr' ++ [l]). by rewrite rounds_snoc. Qed.

Lemma sublist_snoc (tr : list label) l : tr `sublist_of` tr ++ [l].
Proof. apply sublist_inserts_r. done. Qed.

(** A step inside a round: it suffices to look at the round's own part. *)
Lemma round_step tr l m m' first rest running rest' running' :
  is_begin l = false →
  (∀ cur, round_ok cur m rest running →
     round_ok (cur ++ [l]) m' rest' running' ∧ (∀ tr, cur `sublist_of` tr → all_polled tr m → all_polled tr m')) →
  phase_ok tr m (Polling first rest running) → phase_ok (tr ++ [l]) m' (Polling first rest' running').
Proof.
  intros Hb Hcase (old & mid & cur & -> & Hcur & Hround & Hpast).
  apply Hcase in Hround as [Hround Hm]. exists old, mid, (cur ++ [l]). rewrite rounds_snoc by done.
  split; [by rewrite <-!(assoc_L (++))|]. do 2 (split; [done|]). intros Hf. split; [by apply Hpast|]. apply Hm.
  - apply sublist_inserts_l, sublist_cons, sublist_snoc.
  - eapply all_polled_mono; [|by apply Hpast]. rewrite app_comm_cons, (assoc_L (++)). apply sublist_snoc.
Qed.

Lemma running_mono cur cur' running :
  cur `sublist_of` cur' →
  Forall (λ g, g_up g ∈ upstreams a0 ∧ ∃ l, l `sublist_of` cur ∧ progress a0 (g_up g) l (g_pc g)) running →
  Forall (λ g, g_up g ∈ upstreams a0 ∧ ∃ l, l `sublist_of` cur' ∧ progress a0 (g_up g) l (g_pc g)) running.
Proof.
  intros Hs Hrun. eapply Forall_impl; [exact Hrun|]. intros g (? & l & Hl & ?). split; [done|].
  exists l. split; [by trans cur|done].
Qed.

Lemma round_ok_mono cur cur' m rest running :
  cur `sublist_of` cur' → round_ok cur m rest running → round_ok cur' m rest running.
Proof.
  intros Hs (Hrest & Hrun & Hall). split; [done|]. split; [by eapply running_mono|].
  intros u Hu. destruct (Hall u Hu) as [|[|]]; [tauto..|]. right. right. by eapply polled_in_mono.
Qed.

Lemma spawn_ok cur m u rest running :
  round_ok cur m (u :: rest) running → round_ok cur m rest (running ++ [Go u FetchNodes]).
Proof.
  intros (Hrest & Hrun & Hall). split; [set_solver|]. split.
  - apply Forall_app. split; [done|]. apply Forall_singleton. split; [set_solver|].
    exists []. split; [apply sublist_nil_l|]. constructor.
  - intros v Hv. rewrite fmap_app. specialize (Hall v Hv). set_solver.
Qed.

Lemma fetch_ok cur m rest before u p n p' after :
  pollUpstream a0 u n p = Some p' → round_ok cur m rest (before ++ Go u p :: after) →
  round_ok (cur ++ [LFetch u (url_of a0 u p) n]) m rest (before ++ Go u p' :: after).
Proof.
  intros Hs Hok. pose proof Hok as (_ & Hrun0 & _).
  apply (round_ok_mono _ (cur ++ [LFetch u (url_of a0 u p) n])) in Hok; [|apply sublist_snoc].
  destruct Hok as (Hrest & Hrun & Hall). split; [done|]. split.
  - apply Forall_app in Hrun as [Hb [_ Ha]%Forall_cons], Hrun0 as [_ [(Hu & l & Hl & Hp) _]%Forall_cons].
    apply Forall_app. split; [done|]. apply Forall_cons. split; [|done]. split; [done|].
    exists (l ++ [LFetch u (url_of a0 u p) n]). split; [by apply sublist_app|]. by eapply Progress_fetch.
  - intros v Hv. specialize (Hall v Hv). by rewrite fmap_app in *.
Qed.

Lemma write_ok cur m rest before u st after :
  round_ok cur m rest (before ++ Go u (Write st) :: after) →
  round_ok cur (<[up_Region u := st]> m) rest (before ++ after) ∧
  (∀ tr, cur `sublist_of` tr → all_polled tr m → all_polled tr (<[up_Region u := st]> m)).
Proof.
  intros (Hrest & Hrun & Hall).
  apply Forall_app in Hrun as [Hb [(Hu & l & Hl & Hp) Ha]%Forall_cons]. cbn in Hu, Hp. split; [split; [done|]; split|].
  - by apply Forall_app.
  - intros v Hv. destruct (Hall v Hv) as [|[Hin|Hin]]; [tauto| |].
    + rewrite fmap_app in *. cbn in Hin. apply elem_of_app in Hin as [Hin|Hin]; [set_solver|].
      apply elem_of_cons in Hin as [->|Hin]; [|set_solver]. right. right. eapply polled_in_write; eauto.
    + right. right. eapply polled_in_write; eauto.
  - intros tr Hs Hpast v Hv. eapply polled_in_write; [done|by trans cur|done|]. right. by apply Hpast.
Qed.

Lemma phase_ok_snoc tr m p l : is_begin l = false → phase_ok tr m p → phase_ok (tr ++ [l]) m p.
Proof.
  intros Hb. destruct p as [first rest running| |].
  - apply round_step; [done|]. intros cur Hok. split; [|done]. eapply round_ok_mono; [apply sublist_snoc|done].
  - intros (old & cur & -> & Hc & Hp). exists old, (cur ++ [l]). rewrite (assoc_L (++)).
    split; [done|]. split; [by apply one_round_snoc|]. eapply all_polled_mono; [apply sublist_snoc|done].
  - intros (old & cur & -> & Hc & Hp). exists old, (cur ++ [l]). rewrite (assoc_L (++)).
    split; [done|]. split; [by apply one_round_snoc|]. eapply all_polled_mono; [apply sublist_snoc|done].
Qed.

(** A round ends with every upstream polled in it. *)
Lemma end_ok tr m first : phase_ok tr m (Polling first [] []) → phase_ok tr m Ticking.
Proof.
  intros (old & mid & cur & -> & Hcur & (_ & _ & Hall) & _). exists (old ++ mid), (LBegin :: cur).
  split; [by rewrite (assoc_L (++))|]. split; [by exists cur|].
  intros u Hu. eapply polled_in_mono; [apply sublist_cons; reflexivity|].
  destruct (Hall u Hu) as [Hin|[Hin|Hin]]; [by apply elem_of_nil in Hin..|done].
Qed.

Lemma tick_ok tr m : phase_ok tr m Ticking → phase_ok (tr ++ [LBegin]) m (Polling false (upstreams a0) []).
Proof.
  intros (old & cur & -> & Hc & Hp). exists old, cur, []. split; [by rewrite <-(assoc_L (++))|].
  split; [done|]. split; [split; [done|]; split; [done|tauto]|].
  intros _. split; [done|]. eapply all_polled_mono; [apply sublist_snoc|done].
Qed.

Lemma step_ok tr p l p' : proc_ok tr p → step p l p' → proc_ok (tr ++ [l]) p'.
Proof.
  intros (Hconf & Hk & Hph) Hstep. destruct Hstep as [a first u rest running|a first rest before u p n p' after Hp
    |a first rest before u st after|a first|a|a|a p o c Hs]; cbn [agg ph] in *; split; try done; (split; [try done|]).
  - revert Hph. apply round_step; [done|]. intros cur Hok. split; [|done].
    eapply round_ok_mono; [apply sublist_snoc|by apply spawn_ok].
  - rewrite url_config by done. rewrite pollUpstream_config in Hp by done. revert Hph. apply round_step; [done|].
    intros cur Hok. split; [|done]. by apply fetch_ok.
  - destruct Hph as (_ & _ & cur & _ & _ & (_ & Hrun & _) & _).
    apply Forall_app in Hrun as [_ [(Hu & _) _]%Forall_cons]. unfold keyed in *. cbn [agg state set_region upstreams].
    rewrite dom_insert_L, Hk. destruct Hconf as (-> & _). cbn in Hu. apply (list_elem_of_fmap_2 up_Region) in Hu. set_solver.
  - revert Hph. apply round_step; [done|]. intros cur Hok. apply write_ok in Hok as [Hok Hm]. split; [|done].
    eapply round_ok_mono; [apply sublist_snoc|done].
  - apply phase_ok_snoc; [done|]. by eapply end_ok.
  - destruct Hconf as (-> & _). by apply tick_ok.
  - by apply (phase_ok_snoc _ _ Ticking).
  - by apply phase_ok_snoc.
Qed.

Lemma runs_ok tr p : keyed a0 → runs a0 tr p → proc_ok tr p.
Proof.
  intros Hk. induction 1 as [|tr p l p' _ IH Hs]; [|by eapply step_ok].
  split; [done|]. split; [done|]. exists [], [], []. do 2 (split; [done|]). split; [|done].
  split; [done|]. split; [constructor|tauto].
Qed.

(** The part of a run that holds the requests behind the cached states. *)
Lemma serving_fresh tr m p :
  serving p = true → phase_ok tr m p → ∃ old recent, tr = old ++ LBegin :: recent ∧ (rounds recent <= 1)%nat ∧ all_polled (LBegin :: recent) m.
Proof.
  intros Hs. destruct p as [[] rest running| |]; [done| | |].
  - intros (old & mid & cur & -> & Hcur & _ & Hpast). destruct (Hpast eq_refl) as [(mid' & -> & Hmid) Hall].
    exists old, (mid' ++ LBegin :: cur). split; [done|]. split; [|done].
    rewrite rounds_app. unfold rounds in *. rewrite filter_cons_True by done. cbn. lia.
  - intros (old & cur & -> & (cur' & -> & Hc) & Hp). exists old, cur'. split; [done|]. split; [lia|done].
  - intros (old & cur & -> & (cur' & -> & Hc) & Hp). exists old, cur'. split; [done|]. split; [lia|done].
Qed.

(** A record some upstream listed in its answer to [path]. *)
Definition answered {A} `{Codec A} (tr : list label) (path : string) (x : A) : Prop :=
  ∃ u n l, u ∈ upstreams a0 ∧ LFetch u (up_URL u +:+ path) n ∈ tr ∧ fetch a0 n (up_URL u +:+ path) = Ok l ∧ x ∈ l.

Definition explained (tr : list label) (region : string) (st : regionState) : Prop :=
  ∃ u n1 n2 n3, u ∈ upstreams a0 ∧ up_Region u = region ∧
    requests a0 u n1 n2 n3 `sublist_of` tr ∧ st = outcome a0 u n1 n2 n3.

Lemma merged_elem {A} (field : regionState → list A) o a x :
  x ∈ merged field o a → ∃ region st, state a !! region = Some st ∧ reachable st = true ∧ x ∈ field st.
Proof.
  unfold merged. rewrite list_elem_of_In, in_concat. intros (l & Hl & Hx). apply list_elem_of_In in Hl, Hx.
  apply list_elem_of_fmap in Hl as (st & -> & Hst). apply list_elem_of_fmap in Hst as ([region st'] & -> & Hst).
  apply elem_of_visit in Hst. cbn in Hx. exists region, st'. destruct (reachable st') eqn:Hr; [done|]. by apply elem_of_nil in Hx.
Qed.

(** A reachable region's lists are the answers to the three requests. *)
Lemma outcome_reachable u n1 n2 n3 :
  reachable (outcome a0 u n1 n2 n3) = true →
  ∃ nodes events alerts,
    fetch a0 n1 (up_URL u +:+ "/api/nodes") = Ok nodes ∧
    fetch a0 n2 (up_URL u +:+ "/api/events?limit=" +:+ Itoa (eventLimit a0)) = Ok events ∧
    fetch a0 n3 (up_URL u +:+ "/api/alerts?limit=" +:+ Itoa (eventLimit a0)) = Ok alerts ∧
    outcome a0 u n1 n2 n3 = MkRegionState true "" nodes events alerts ∧
    requests a0 u n1 n2 n3 =
      [LFetch u (up_URL u +:+ "/api/nodes") n1;
       LFetch u (up_URL u +:+ "/api/events?limit=" +:+ Itoa (eventLimit a0)) n2;
       LFetch u (up_URL u +:+ "/api/alerts?limit=" +:+ Itoa (eventLimit a0)) n3].
Proof.
  unfold outcome, requests.
  destruct (fetch (A := Registry.AgentNode) _ _ _) as [nodes|e]; [|done]. cbn.
  destruct (fetch (A := Event) _ _ _) as [events|e]; [|done]. cbn.
  destruct (fetch (A := Alert) _ _ _) as [alerts|e]; [|done]. naive_solver.
Qed.

Lemma merged_answered o a tr :
  (∀ region st, state a !! region = Some st → explained tr region st) →
  Forall (answered tr "/api/nodes") (Nodes o a) ∧
  Forall (answered tr ("/api/events?limit=" +:+ Itoa (eventLimit a0))) (Events o a) ∧
  Forall (answered tr ("/api/alerts?limit=" +:+ Itoa (eventLimit a0))) (Alerts o a).
Proof.
  intros Hex. rewrite !Forall_forall. split; [|split]; intros x (region & st & Hst & Hr & Hx)%merged_elem;
    apply Hex in Hst as (u & n1 & n2 & n3 & Hu & _ & Hsub & ->);
    apply outcome_reachable in Hr as (nodes & events & alerts & H1 & H2 & H3 & Ho & Hreq);
    rewrite Ho in Hx; rewrite Hreq in Hsub; [exists u, n1, nodes|exists u, n2, events|exists u, n3, alerts];
    (split; [done|]); (split; [|done]); eapply sublist_subseteq; [exact Hsub|set_solver|exact Hsub|set_solver|exact Hsub|set_solver].
Qed.

Lemma all_polled_explained tr a :
  keyed a → upstreams a = upstreams a0 → all_polled tr (state a) →
  ∀ region st, state a !! region = Some st → explained tr region st.
Proof.
  intros Hk Hup Hall region st Hst. assert (region ∈ dom (state a)) as Hin by (by eapply elem_of_dom_2).
  unfold keyed in Hk. rewrite Hk, Hup, elem_of_list_to_set in Hin. apply list_elem_of_fmap in Hin as (v & -> & Hv).
  destruct (Hall v Hv) as (st' & u & l & Hst' & Hu & Hr & Hl & Hp). simplify_eq.
  apply progress_write in Hp as (n1 & n2 & n3 & -> & ->). exists u, n1, n2, n3. done.
Qed.

End Fresh.

(** Requests are served only after a round has ended. *)
Lemma served_after_end a tr p : runs a tr p → serving (ph p) = true → LEnd ∈ tr.
Proof.
  induction 1 as [|tr p l p' Hr IH Hs]; [done|]. intros Hserv. apply elem_of_app.
  inversion Hs; subst; cbn in *; try (left; by apply IH). right. by left.
Qed.

(** What a reply holds, in terms of the upstreams' answers. *)
Definition reply_genuine (a : Aggregator) (tr : list label) (r : reply) : Prop :=
  match r with
  | RNodes l => Forall (answered a tr "/api/nodes") l
  | REvents l => Forall (answered a tr ("/api/events?limit=" +:+ Itoa (eventLimit a))) l
  | RAlerts l => Forall (answered a tr ("/api/alerts?limit=" +:+ Itoa (eventLimit a))) l
  | RRegions l => Sorted status_le l ∧ rg_Region <$> l ≡ₚ elements (list_to_set (C := gset string) (up_Region <$> upstreams a)) ∧
      Forall (λ s, ∃ st, explained a tr (rg_Region s) st ∧ s = region_status (rg_Region s) st) l
  | ROther _ => True
  end.

Lemma Regions_genuine a0 o a tr :
  keyed a → upstreams a = upstreams a0 →
  (∀ region st, state a !! region = Some st → explained a0 tr region st) →
  reply_genuine a0 tr (RRegions (Regions o a)).
Proof.
  intros Hk Hup Hex. cbn. split; [apply Regions_sorted|]. unfold Regions. rewrite merge_sort_Permutation.
  assert (rg_Region <$> ((λ '(region, s), region_status region s) <$> visit o (state a)) = (visit o (state a)).*1) as ->.
  { rewrite <-list_fmap_compose. apply list_fmap_ext. by intros i [region s]. }
  split.
  - rewrite visit_perm. unfold keyed in Hk. rewrite <-Hup, <-Hk. apply list.NoDup_Permutation.
    + apply NoDup_fst_map_to_list.
    + apply NoDup_elements.
    + intros region. rewrite elem_of_elements, elem_of_dom, list_elem_of_fmap. split.
      * intros ([? st] & -> & Hin%elem_of_map_to_list). by exists st.
      * intros [st Hst]. exists (region, st). by rewrite elem_of_map_to_list.
  - apply Forall_forall. intros s ([region st] & -> & Hin%elem_of_visit)%list_elem_of_fmap. exists st. split; [by apply Hex|done].
Qed.

Lemma BearerAuth_case {R} (P : R → Prop) ab tok (next : HttpApi.request → R) c :
  P (next c) → (∀ msg, P (ab 401 msg)) → P (HttpApi.BearerAuth ab tok next c).
Proof. intros Hn Ha. unfold HttpApi.BearerAuth. by repeat case_match. Qed.

Lemma Router_genuine a0 o a tr c :
  keyed a → upstreams a = upstreams a0 →
  (∀ region st, state a !! region = Some st → explained a0 tr region st) →
  reply_genuine a0 tr (Router o a staticDir token c).
Proof.
  intros Hk Hup Hex. destruct (merged_answered a0 o a tr Hex) as (Hn & He & Ha).
  unfold Router. destruct (gated _ o a) as [h|] eqn:Hg; [|done]. apply BearerAuth_case; [|done].
  unfold gated in Hg. repeat case_bool_decide; simplify_eq; [|done..|by apply Regions_genuine].
  cbn. case_match; [|done]. apply Forall_forall; intros n [_ Hin]%list_elem_of_filter; by eapply Forall_forall in Hn.
Qed.

Lemma reply_source ups interval apiTok tr p c r p' :
  let a0 := New ups interval apiTok in
  runs a0 tr p → step p (LReply c r) p' →
  ∃ o old recent, tr = old ++ LBegin :: recent ∧ (rounds recent <= 1)%nat ∧
    r = Router o (agg p) staticDir token c ∧
    dom (state (agg p)) = list_to_set (up_Region <$> ups) ∧
    (∀ region st, state (agg p) !! region = Some st → explained a0 (LBegin :: recent) region st) ∧
    reply_genuine a0 (LBegin :: recent) r.
Proof.
  intros a0 Hr Hs. destruct (runs_ok a0 tr p (New_keyed _ _ _) Hr) as (Hconf & Hk & Hph).
  inversion Hs as [| | | | | |a ph0 o c' Hserv]; subst. cbn [agg ph] in *.
  destruct (serving_fresh _ _ _ _ Hserv Hph) as (old & recent & -> & Hn & Hall).
  destruct Hconf as (Hup & _). pose proof (all_polled_explained a0 _ a Hk Hup Hall) as Hex.
  exists o, old, recent. repeat (split; [done|]). split; [unfold keyed in Hk; by rewrite Hk, Hup|].
  split; [done|]. by apply Router_genuine.
Qed.

(** C19: What the aggregator serves is genuine and at most two rounds old.
    However the goroutines of a round, the rounds, the requests of clients and
    the answers of the network interleave, a reply given in any state is the
    router's on a cache that has an entry for each configured region and for no other;
    each entry was written by a poll of an upstream of that region whose
    requests, in order, are among those of the current and the last finished round: reachable
    with exactly the three lists answered, or unreachable without data and with
    the first error.  In particular each agent, event and alert served was in
    an upstream's answer of these rounds, and the regions are listed once each,
    sorted; nothing is served before the first round is complete. *)
Theorem replies_fresh ups interval apiTok tr p c r p' :
  let a0 := New ups interval apiTok in
  runs a0 tr p → step p (LReply c r) p' →
  LEnd ∈ tr ∧ p' = p ∧
  ∃ o old recent, tr = old ++ LBegin :: recent ∧ (rounds recent <= 1)%nat ∧
    r = Router o (agg p) staticDir token c ∧
    dom (state (agg p)) = list_to_set (up_Region <$> ups) ∧
    (∀ region st, state (agg p) !! region = Some st → explained a0 (LBegin :: recent) region st) ∧
    reply_genuine a0 (LBegin :: recent) r.
Proof.
  intros a0 Hr Hs. split; [|split; [by inversion Hs|by eapply reply_source]].
  eapply served_after_end; [done|]. by inversion Hs.
Qed.

(** ** A round ends, with the result of [PollOnce] *)

Inductive steps : process → list label → process → Prop :=
| Steps_nil p : steps p [] p
| Steps_snoc p ls q l r : steps p ls q → step q l r → steps p (ls ++ [l]) r.

(** The requests of clients are no part of a round. *)
Definition own (l : label) : bool := match l with LReply _ _ => false | _ => true end.

Definition own_steps (ls : list label) : nat := length (filter (λ l, own l = true) ls).

(** The steps a goroutine, and a round, have still to take. *)
Definition pc_work (p : pc) : nat :=
  match p with FetchNodes => 4 | FetchEvents _ => 3 | FetchAlerts _ _ => 2 | Write _ => 1 end.

Definition round_work (rest : list Upstream) (running : list goroutine) : nat :=
  (5 * length rest + sum_list_with (pc_work ∘ g_pc) running)%nat.

Lemma own_steps_snoc ls l : own_steps (ls ++ [l]) = (own_steps ls + if own l then 1 else 0)%nat.
Proof. unfold own_steps. rewrite filter_app, length_app. f_equal. by destruct (own l) eqn:Hl; cbn; rewrite ?Hl. Qed.

Lemma pollUpstream_work a u n p p' : pollUpstream a u n p = Some p' → (pc_work p' < pc_work p)%nat.
Proof. destruct p; cbn; intros [= <-]; case_match; cbn; lia. Qed.

Lemma sum_split before (g : goroutine) after :
  sum_list_with (pc_work ∘ g_pc) (before ++ g :: after) =
  (pc_work (g_pc g) + sum_list_with (pc_work ∘ g_pc) (before ++ after))%nat.
Proof. rewrite !sum_list_with_app. cbn. lia. Qed.

(** Until it ends, a round is at some distance from its end, and its own steps
    bring it closer. *)
Lemma round_work_steps first rest running a ls q :
  steps (Process a (Polling first rest running)) ls q → LEnd ∉ ls →
  ∃ rest' running', ph q = Polling first rest' running' ∧
    (own_steps ls + round_work rest' running' <= round_work rest running)%nat.
Proof.
  intros Hs. remember (Process a (Polling first rest running)) as p0 eqn:Hp0.
  induction Hs as [p|p ls q l r Hs IH Hstep]; intros Hend; subst.
  - exists rest, running. done.
  - destruct IH as (rest' & running' & Hph & Hw); [done|set_solver|]. rewrite own_steps_snoc.
    unfold round_work in *. inversion Hstep; subst; cbn [ph] in *; simplify_eq; cbn [own].
    + eexists _, _. split; [done|]. rewrite sum_list_with_app. cbn in *. lia.
    + eexists _, _. split; [done|]. rewrite sum_split in *. cbn [g_pc] in *.
      rename select (pollUpstream _ _ _ _ = _) into Hp. apply pollUpstream_work in Hp. lia.
    + eexists _, _. split; [done|]. rewrite sum_split in Hw. cbn [g_pc pc_work] in *. lia.
    + set_solver.
    + eexists _, _. split; [done|]. lia.
Qed.

(** A round is never stuck, whatever the network answers. *)
Lemma round_progress a first rest running n :
  ∃ l p', step (Process a (Polling first rest running)) l p' ∧ own l = true ∧ ∀ u url m, l = LFetch u url m → m = n.
Proof.
  destruct rest as [|u rest]; [destruct running as [|[u p] running]|].
  - eexists _, _. split; [apply Step_end|]. split; [done|]. done.
  - destruct (pollUpstream a u n p) as [p'|] eqn:Hp.
    + eexists _, _. split; [apply (Step_fetch a first [] [] u p n p' running Hp)|]. split; [done|]. by intros ??? [=].
    + destruct p as [| | |st]; [done..|]. eexists _, _. split; [apply (Step_write a first [] [] u st running)|]. done.
  - eexists _, _. split; [apply Step_spawn|]. done.
Qed.

Section Steady.
Context (a : Aggregator) (n : moment).

(** What a goroutine will write when the network stays as it is at [n]. *)
Definition finish (u : Upstream) (p : pc) : regionState :=
  let alerts_url := up_URL u +:+ "/api/alerts?limit=" +:+ Itoa (eventLimit a) in
  match (match p with
         | FetchNodes => Ok (outcome a u n n n)
         | FetchEvents nodes =>
             events ← fetch a n (url_of a u p); alerts ← fetch a n alerts_url; Ok (MkRegionState true "" nodes events alerts)
         | FetchAlerts nodes events => alerts ← fetch a n alerts_url; Ok (MkRegionState true "" nodes events alerts)
         | Write st => Ok st
         end) with
  | Ok st => st
  | Err err => MkRegionState false err [] [] []
  end.

Lemma finish_step u p p' : pollUpstream a u n p = Some p' → finish u p' = finish u p.
Proof.
  destruct p; cbn; intros [= <-]; unfold finish, outcome; cbn.
  - by destruct (fetch (A := Registry.AgentNode) _ _ _).
  - by destruct (fetch (A := Event) _ _ _).
  - by destruct (fetch (A := Alert) _ _ _).
Qed.

Abbreviation poll_once := (PollOnce (mo_request n) (mo_get n)).

Lemma poll_once_config written : same_config (poll_once written a) a.
Proof. apply PollOnce_config. Qed.

(** The write of a goroutine is the next write of the round. *)
Lemma poll_once_write written u :
  set_region u (poll_result (mo_request n) (mo_get n) a u) (poll_once written a) = poll_once (written ++ [u]) a.
Proof.
  unfold PollOnce. rewrite foldl_app. cbn. fold (poll_once written a). unfold set_region, Aggregator.pollUpstream.
  destruct (poll_once_config written) as (_ & Ht & Hl). do 2 f_equal. unfold poll_result. by rewrite Ht, Hl.
Qed.

Definition round_at (written rest : list Upstream) (running : list goroutine) : Prop :=
  written ++ rest ++ (g_up <$> running) ≡ₚ upstreams a ∧
  Forall (λ g, finish (g_up g) (g_pc g) = poll_result (mo_request n) (mo_get n) a (g_up g)) running.

Lemma steady_round first ls q :
  steps (Process a (Polling first (upstreams a) [])) ls q → LEnd ∉ ls → (∀ u url m, LFetch u url m ∈ ls → m = n) →
  ∃ written rest running, q = Process (poll_once written a) (Polling first rest running) ∧ round_at written rest running.
Proof.
  intros Hs. remember (Process a _) as p0 eqn:Hp0. induction Hs as [p|p ls q l r Hs IH Hstep]; intros Hend Hn; subst.
  - exists [], (upstreams a), []. split; [done|]. split; [by rewrite app_nil_r|constructor].
  - destruct IH as (written & rest & running & -> & Hperm & Hrun); [done|set_solver|set_solver|].
    inversion Hstep; subst.
    + eexists written, _, _. split; [done|]. split.
      * rewrite <-Hperm, fmap_app. cbn. by rewrite <-(Permutation_cons_append (g_up <$> running)), Permutation_middle.
      * apply Forall_app. split; [done|]. by apply Forall_singleton.
    + rename select (pollUpstream _ _ _ _ = _) into Hp. rewrite (pollUpstream_config a) in Hp by apply poll_once_config.
      rewrite (Hn u (url_of (poll_once written a) u p) n0) in Hp by set_solver. eexists written, _, _. split; [done|]. split.
      * by rewrite fmap_app in *.
      * apply Forall_app in Hrun as [Hb [Hg Ha]%Forall_cons]. apply Forall_app. split; [done|]. apply Forall_cons.
        split; [|done]. cbn in *. by rewrite (finish_step _ _ _ Hp).
    + apply Forall_app in Hrun as [Hb [Hg Ha]%Forall_cons]. cbn in Hg. subst st. exists (written ++ [u]).
      rewrite poll_once_write. eexists _, _. split; [done|]. split; [|by apply Forall_app].
      rewrite <-Hperm, !fmap_app. cbn. rewrite <-(assoc_L (++)). apply Permutation_app_head. cbn.
      by rewrite <-!Permutation_middle.
    + set_solver.
    + eexists written, _, _. split; [done|]. done.
Qed.
End Steady.

(** C20: A round ends, and computes [PollOnce].  From the beginning of a round,
    whatever the goroutines, the clients and the network do, at most five
    steps per upstream happen before the end of the round, and one of them is
    always possible, for every answer of the network; when the network answers
    all its requests as at one moment, the round ends with the cache
    [PollOnce] computes for some order of the upstreams, so [poll_exact]
    describes it. *)
Theorem round_completes a first n :
  let p0 := Process a (Polling first (upstreams a) []) in
  (∀ ls p, steps p0 ls p → LEnd ∉ ls →
     (own_steps ls <= 5 * length (upstreams a))%nat ∧
     ∃ l p', step p l p' ∧ own l = true ∧ ∀ u url m, l = LFetch u url m → m = n) ∧
  (∀ ls p, steps p0 (ls ++ [LEnd]) p → LEnd ∉ ls → (∀ u url m, LFetch u url m ∈ ls → m = n) →
     ∃ order, order ≡ₚ upstreams a ∧ p = Process (PollOnce (mo_request n) (mo_get n) order a) Ticking).
Proof.
  intros p0. split.
  - intros ls p Hs Hend. destruct (round_work_steps _ _ _ _ _ _ Hs Hend) as (rest & running & Hph & Hw). split.
    + unfold round_work in Hw. cbn in Hw. lia.
    + destruct p as [a' ph']. cbn in Hph. subst ph'. apply round_progress.
  - intros ls p Hs Hend Hn. inversion Hs as [|? ls' q l' r Hs' Hstep Hp Hl]; [by destruct ls|].
    apply app_inj_tail in Hl as [-> ->]. subst. destruct (steady_round a n first ls q Hs' Hend Hn)
      as (written & rest & running & -> & Hperm & _). inversion Hstep; subst. exists written.
    split; [|done]. by rewrite <-Hperm, app_nil_r.
Qed.

(** ** Running it *)

Inductive choice :=
| CSpawn
| CFetch (i : nat) (n : moment)
| CWrite (i : nat)
| CEnd
| CTick
| CDone
| CReply (o : map_order string regionState) (c : HttpApi.request).

(** One scheduled step. *)
Definition exec_step (p : process) (c : choice) : option (label * process) :=
  let a := agg p in
  match c, ph p with
  | CSpawn, Polling first (u :: rest) running =>
      Some (LSpawn u, Process a (Polling first rest (running ++ [Go u FetchNodes])))
  | CFetch i n, Polling first rest running =>
      match drop i running with
      | Go u p :: after =>
          match pollUpstream a u n p with
          | Some p' => Some (LFetch u (url_of a u p) n, Process a (Polling first rest (take i running ++ Go u p' :: after)))
          | None => None
          end
      | [] => None
      end
  | CWrite i, Polling first rest running =>
      match drop i running with
      | Go u (Write st) :: after =>
          Some (LWrite u st, Process (set_region u st a) (Polling first rest (take i running ++ after)))
      | _ => None
      end
  | CEnd, Polling first [] [] => Some (LEnd, Process a Ticking)
  | CTick, Ticking => Some (LBegin, Process a (Polling false (upstreams a) []))
  | CDone, Ticking => Some (LDone, Process a Ended)
  | CReply o c, phase =>
      if serving phase then Some (LReply c (Router o a staticDir token c), Process a phase) else None
  | _, _ => None
  end.

Fixpoint exec (p : process) (cs : list choice) : option (list label * process) :=
  match cs with
  | [] => Some ([], p)
  | c :: cs =>
      match exec_step p c with
      | Some (l, p') => match exec p' cs with Some (ls, q) => Some (l :: ls, q) | None => None end
      | None => None
      end
  end.

Lemma exec_step_sound p c l p' : exec_step p c = Some (l, p') → step p l p'.
Proof.
  destruct p as [a ph']. unfold exec_step. cbn [agg ph]. intros He.
  repeat case_match; simplify_eq; try (by constructor).
  - rewrite <-(take_drop i running) at 1. rename select (drop _ _ = _) into Hd. rewrite Hd. by constructor.
  - rewrite <-(take_drop i running) at 1. rename select (drop _ _ = _) into Hd. rewrite Hd. by constructor.
Qed.

Lemma exec_steps p0 tr p cs ls q : steps p0 tr p → exec p cs = Some (ls, q) → steps p0 (tr ++ ls) q.
Proof.
  revert tr p ls. induction cs as [|c cs IH]; intros tr p ls Hr He; cbn in He; [simplify_eq; by rewrite app_nil_r|].
  destruct (exec_step p c) as [[l p']|] eqn:Hs; [|done]. destruct (exec p' cs) as [[ls' q']|] eqn:Hc; [|done]. simplify_eq.
  apply exec_step_sound in Hs. rewrite (cons_middle l tr ls'), (assoc_L (++)). eapply IH; [|done]. by eapply Steps_snoc.
Qed.

Lemma runs_steps a tr p ls q : runs a tr p → steps p ls q → runs a (tr ++ ls) q.
Proof.
  intros Hr. induction 1 as [p|p ls q l r _ IH Hs]; [by rewrite app_nil_r|]. rewrite (assoc_L (++)).
  eapply Runs_step; eauto.
Qed.

(** The moments of a scheduled run are those of its schedule. *)
Lemma exec_moments (P : moment → Prop) p cs ls q :
  Forall (λ c, match c with CFetch _ n => P n | _ => True end) cs → exec p cs = Some (ls, q) →
  ∀ u url n, LFetch u url n ∈ ls → P n.
Proof.
  intros Hcs. revert p ls. induction Hcs as [|c cs Hc _ IH]; intros p ls He u url n; cbn in He.
  { simplify_eq. by intros Hin%elem_of_nil. }
  destruct (exec_step p c) as [[l p']|] eqn:Hs; [|done]. destruct (exec p' cs) as [[ls' q']|] eqn:Hx; [|done]. simplify_eq.
  intros [<-|Hin]%elem_of_cons; [|by eapply IH]. unfold exec_step in Hs. repeat case_match; by simplify_eq.
Qed.

(** A test of a scheduled run, for evaluation. *)
Definition passes (p : process) (cs : list choice) (f : list label → process → bool) : bool :=
  match exec p cs with Some (ls, q) => f ls q | None => false end.

Lemma passes_runs a cs f :
  passes (Start a) cs f = true → ∃ ls q, exec (Start a) cs = Some (ls, q) ∧ runs a (LBegin :: ls) q ∧ f ls q = true.
Proof.
  unfold passes. destruct (exec (Start a) cs) as [[ls q]|] eqn:He; [|done]. intros Hf. exists ls, q.
  split; [done|]. split; [|done].
  eapply (runs_steps a [LBegin]); [constructor|]. by eapply (exec_steps _ []); [constructor|].
Qed.

End Run.

(** ** Witnesses *)

Module Example.
Import Aggregator.Example.

Definition up : moment := Moment no_error (get0 "s3cret").
Definition down : moment := Moment no_error (λ _ _, Err "connect: connection refused").

(** A round of the two upstreams, [r2] failing first; then a second round in
    which [r1] is lost between its second and its third request. *)
Definition round1 : list choice :=
  [CSpawn; CSpawn; CFetch 1 up; CFetch 0 up; CWrite 1; CFetch 0 up; CFetch 0 up; CWrite 0; CEnd].

Definition round2 : list choice :=
  [CTick; CSpawn; CFetch 0 up; CFetch 0 up; CSpawn; CFetch 0 down; CFetch 1 down].

Definition events_request : HttpApi.request := HttpApi.Request "/api/events" [] "Bearer s3cret".

End Example.
Import Example.

(** In the middle of the second round the aggregator still serves the three
    events of the first. *)
Lemma replies_fresh_witness :
  ∃ ls p l, runs "web" "s3cret" Aggregator.Example.agg0 (LBegin :: ls) p ∧ rounds (LBegin :: ls) = 2%nat ∧
    step "web" "s3cret" p (LReply events_request (REvents l)) p ∧ length l = 3%nat ∧
    ∃ tr, Forall (answered Aggregator.Example.agg0 tr "/api/events?limit=100") l.
Proof.
  set (f ls q := (rounds ls =? 1)%nat && serving (ph q) && (length (Events canonical_order (agg q)) =? 3)%nat).
  destruct (passes_runs "web" "s3cret" Aggregator.Example.agg0 (round1 ++ round2) f) as (ls & p & _ & Hr & Hf);
    [vm_compute; reflexivity|]. apply andb_true_iff in Hf as [[Hn Hs]%andb_true_iff Hl]. apply Nat.eqb_eq in Hn, Hl.
  destruct p as [a phase]. cbn [agg ph] in *.
  assert (step "web" "s3cret" (Process a phase) (LReply events_request (REvents (Events canonical_order a))) (Process a phase))
    as Hstep by exact (Step_reply "web" "s3cret" a phase canonical_order events_request Hs).
  exists ls, (Process a phase), (Events canonical_order a). split; [done|].
  split; [unfold rounds in *; rewrite filter_cons_True by done; cbn; lia|]. split; [done|]. split; [done|].
  destruct (replies_fresh "web" "s3cret" [Aggregator.Example.r1; Aggregator.Example.r2] 0 "s3cret" _ _ _ _ _ Hr Hstep)
    as (_ & _ & o & old & recent & _ & _ & _ & _ & _ & Hg).
  by exists (LBegin :: recent).
Defined.

End AggregatorRun.
