(* ===== verification/Metrics.v ===== *)
(** * The collector's metrics ([internal/otel/metrics.go])

    The three counters of [MetricsProvider].  A counter is OpenTelemetry's; it
    is represented by the attribute lists of the [Add] calls made on it, each
    of which adds 1. *)

From S2P Require Import Prelude.

Module Metrics.

Abbreviation attributes := (list (string * string)).

Record MetricsProvider := MkMetrics {
  eventCounter : list attributes;
  alertCounter : list attributes;
  storeWriteFailureCounter : list attributes;
}.

(** Counters on which nothing was recorded yet. *)
Definition no_metrics : MetricsProvider := MkMetrics [] [] [].

(** The arguments are the errors of the exporter's constructor and of the
    creation of the three counters, in this order. *)
Definition NewMetricsProvider (exporter events alerts failures : option error) : result MetricsProvider :=
  match exporter with
  | Some err => Err err
  | None =>
      match events with
      | Some err => Err err
      | None =>
          match alerts with
          | Some err => Err err
          | None => match failures with Some err => Err err | None => Ok no_metrics end
          end
      end
  end.

Definition RecordEvent (eventType nodeID : string) (mp : MetricsProvider) : MetricsProvider :=
  MkMetrics (eventCounter mp ++ [[("type", eventType); ("node", nodeID)]])
    (alertCounter mp) (storeWriteFailureCounter mp).

Definition RecordAlert (ruleID severity nodeID : string) (mp : MetricsProvider) : MetricsProvider :=
  MkMetrics (eventCounter mp)
    (alertCounter mp ++ [[("rule", ruleID); ("severity", severity); ("node", nodeID)]])
    (storeWriteFailureCounter mp).

Definition RecordStoreWriteFailure (kind : string) (mp : MetricsProvider) : MetricsProvider :=
  MkMetrics (eventCounter mp) (alertCounter mp) (storeWriteFailureCounter mp ++ [[("kind", kind)]]).

End Metrics.
