(* ===== verification/Receiver.v ===== *)
(** * The gRPC service ([internal/receiver/grpc.go])

    Authentication, [Register] and [StreamEvents].

    [StreamEvents] is a goroutine that shares the store, the registry, the
    detector, the dispatcher and the metrics with other goroutines.  It is a
    state machine: [pc] is where the loop stands between two calls that touch
    shared state, [input] what the outside gives the next part of the loop
    (messages, clock readings, schedules of the store, results of [Send]), and
    [stream_step] runs that part.  [action] records what the part did, for
    the theorems.  Logging and tracing spans are left out. *)

From S2P Require Import Prelude GoStrings GoFloat GoNet GoTime GoJson GoUtf8 GoValue StoreData Pb Codec.
From S2P Require Import Badger Store AgentToken Registry Anomaly TokenBucket Validate Notify Alerting Metrics.
Import GoStrings GoNet GoTime GoJson GoUtf8 GoValue Pb Store AgentTokens.

Module Receiver.

(** ** Events as they are stored *)

Definition eventTypeName (e : KernelEvent) : string :=
  if Type_ e =? EventType_EXEC then "exec"
  else if Type_ e =? EventType_TCP then "tcp"
  else if Type_ e =? EventType_FILE then "file"
  else "unknown(" +:+ Itoa (Type_ e) +:+ ")".

(** The members [json.Marshal] writes for a generated message: every field is
    tagged [omitempty]. *)
Definition str_member (name s : string) : list (string * string) :=
  if s =s "" then [] else [(name, Quote s)].
Definition int_member (name : string) (z : Z) : list (string * string) :=
  if z =? 0 then [] else [(name, Itoa z)].

Definition exec_members (x : ExecEvent) : list (string * string) :=
  int_member "pid" (ex_Pid x) ++ int_member "ppid" (ex_Ppid x) ++ str_member "comm" (ex_Comm x) ++
  str_member "cmdline" (ex_Cmdline x) ++ str_member "cwd" (ex_Cwd x) ++ int_member "uid" (ex_Uid x).

Definition tcp_members (x : TcpEvent) : list (string * string) :=
  int_member "pid" (tcp_Pid x) ++ str_member "comm" (tcp_Comm x) ++ str_member "src_ip" (tcp_SrcIp x) ++
  int_member "src_port" (tcp_SrcPort x) ++ str_member "dst_ip" (tcp_DstIp x) ++
  int_member "dst_port" (tcp_DstPort x) ++ str_member "direction" (tcp_Direction x).

Definition file_members (x : FileEvent) : list (string * string) :=
  int_member "pid" (file_Pid x) ++ str_member "comm" (file_Comm x) ++ str_member "path" (file_Path x) ++
  str_member "op" (file_Op x) ++ int_member "ret" (file_Ret x).

(** The members of the payload that the type selects; [None] for a nil one. *)
Definition payload_members (e : KernelEvent) : option (list (string * string)) :=
  if Type_ e =? EventType_EXEC then exec_members <$> GetExec e
  else if Type_ e =? EventType_TCP then tcp_members <$> GetTcp e
  else if Type_ e =? EventType_FILE then file_members <$> GetFile e
  else None.

Definition eventPayload (e : KernelEvent) : string :=
  match payload_members e with Some l => encode_object l | None => "null" end.

(** The record that [StreamEvents] persists. *)
Definition storedEvent (e : KernelEvent) : Event :=
  MkEvent (EventId e) (NodeId e) (Unix0 (Timestamp e)) (eventTypeName e) (eventPayload e).

(** *** What validation and the wire format guarantee of a stored event *)

Definition in_uint32 (z : Z) : Prop := 0 <= z < 2 ^ 32.
Definition in_int32 (z : Z) : Prop := - 2 ^ 31 <= z < 2 ^ 31.

(** The widths of the integer fields, as the protobuf decoder delivers them. *)
Definition wire_ok (e : KernelEvent) : Prop :=
  in_int64 (Timestamp e) ∧ in_int32 (Type_ e) ∧
  match Payload e with
  | Some (KernelEvent_Exec x) => in_uint32 (ex_Pid x) ∧ in_uint32 (ex_Ppid x) ∧ in_uint32 (ex_Uid x)
  | Some (KernelEvent_Tcp x) => in_uint32 (tcp_Pid x) ∧ in_uint32 (tcp_SrcPort x) ∧ in_uint32 (tcp_DstPort x)
  | Some (KernelEvent_File x) => in_uint32 (file_Pid x) ∧ in_int32 (file_Ret x)
  | None => True
  end.

Lemma clean_valid s : Validate.clean s → Valid_utf8 s.
Proof. intros [_ Hs]. apply ascii_valid. eapply Forall_impl; [exact Hs|]. simpl. lia. Qed.

(** Every instant an [int64] of nanoseconds can name is in the years 1677 to
    2262. *)
Lemma int64_year t : in_int64 t → year_ok (Unix0 t).
Proof.
  unfold in_int64, min_int64, max_int64, year_ok. intros Ht.
  assert (612400 < Unix0 t / Second / 86400 < 826000) as Hd.
  { unfold Unix0, unix_offset, Second. Z.div_mod_to_equations. lia. }
  generalize dependent (Unix0 t / Second / 86400). intros d [H1 H2].
  pose proof (civil_lex _ _ H1) as L1. pose proof (civil_lex _ _ H2) as L2.
  pose proof (civil_fields d) as [Hm _]. unfold month_index in *.
  vm_compute (civil 612400) in L1. vm_compute (civil 826000) in L2. cbn [cyear cmonth cday] in *. lia.
Qed.

Lemma eventTypeName_ascii e : ascii_only (eventTypeName e).
Proof.
  unfold eventTypeName. repeat case_match; try ascii_literal.
  repeat apply ascii_app; first [apply Itoa_ascii|ascii_literal].
Qed.

(** A member of a payload: an ASCII name and the text of a string or number. *)
Definition flat_member (kt : string * string) : Prop :=
  Valid_utf8 kt.1 ∧ Compact kt.2 ∧ ∃ v, ∀ n, Text n v kt.2.

Lemma flat_str name s : Valid_utf8 name → Forall flat_member (str_member name s).
Proof.
  intros Hn. unfold str_member. case_bool_decide; [constructor|]. constructor; [|constructor].
  split; [done|]. split; [apply Compact_Quote|]. eexists. intros n. apply Text_Quote.
Qed.

Lemma flat_int name z : Valid_utf8 name → - 10 ^ 20 < z < 10 ^ 20 → Forall flat_member (int_member name z).
Proof.
  intros Hn Hz. unfold int_member. destruct (z =? 0); [constructor|]. constructor; [|constructor].
  split; [done|]. split; [by apply Compact_Itoa|]. eexists. intros n. by apply Text_Itoa.
Qed.

Lemma payload_flat e l : wire_ok e → payload_members e = Some l → Forall flat_member l.
Proof.
  unfold wire_ok, payload_members, in_uint32, in_int32. intros (_ & _ & Hp) Hl.
  assert (∃ x, Payload e = Some x ∧
    l = match x with KernelEvent_Exec x => exec_members x | KernelEvent_Tcp x => tcp_members x
                   | KernelEvent_File x => file_members x end) as (x & Hx & ->).
  { unfold GetExec, GetTcp, GetFile in Hl.
    destruct (Payload e) as [x|]; [exists x; split; [done|]; destruct x|];
      destruct (Type_ e =? EventType_EXEC); try done;
      destruct (Type_ e =? EventType_TCP); try done;
      destruct (Type_ e =? EventType_FILE); try done; simpl in Hl; congruence. }
  rewrite Hx in Hp. clear Hl Hx. destruct x;
    unfold exec_members, tcp_members, file_members; rewrite !Forall_app;
    repeat split; first [by apply flat_str | apply flat_int; [done|lia]].
Qed.

Lemma flat_object l : Forall flat_member l → raw_ok (encode_object l).
Proof.
  intros Hl. split; [done|]. split.
  { apply Compact_object. eapply Forall_impl; [exact Hl|]. by intros kt (_ & ? & _). }
  destruct (Text_fields 0 l) as [vs Hvs].
  { eapply Forall_impl; [exact Hl|]. intros kt (? & _ & v & Hv). eauto. }
  assert (∃ vs, ∀ n, Forall2 (λ kt kv, to_valid_utf8 kt.1 = kv.1 ∧ Text n kv.2 kt.2) l vs) as [vs' Hvs'].
  { clear Hvs. induction Hl as [|[k t] l (Hk & _ & v & Hv) Hl [vs' IH]]; [by exists []|].
    exists ((k, v) :: vs'). intros n. constructor; [|done]. by split. }
  exists 1%nat, (JObj vs'). split; [unfold maxNestingDepth; lia|]. split.
  - unfold encode_object. simpl. lia.
  - intros [|n] Hn; [lia|]. by apply Text_object.
Qed.

Lemma null_raw_ok : raw_ok "null".
Proof.
  split; [done|]. split; [apply Compact_null|]. exists 0%nat, JNull. split; [unfold maxNestingDepth; lia|].
  split; [simpl; lia|]. intros n _. apply Text_null.
Qed.

Lemma eventPayload_ok e : wire_ok e → raw_ok (eventPayload e).
Proof.
  intros Hw. unfold eventPayload. destruct (payload_members e) as [l|] eqn:Hl; [|apply null_raw_ok].
  by apply flat_object, (payload_flat e).
Qed.

Lemma storedEvent_ok e :
  wire_ok e → Validate.validateKernelEvent e = None → event_ok (storedEvent e).
Proof.
  intros Hw Hv%Validate.validateKernelEvent_clean.
  apply Forall_app in Hv as [Hids _]. apply Forall_cons in Hids as [Hn Hids]. apply Forall_cons in Hids as [Hi _].
  pose proof Hw as (Ht & Hty & _).
  split; [by apply clean_valid|]. split; [by apply clean_valid|]. split; [apply ascii_valid, eventTypeName_ascii|].
  split; [by apply int64_year|by apply eventPayload_ok].
Qed.

(** *** The fields a rule can see *)

Lemma set_entry_keys {A} (l : list (string * A)) k v : (set_entry l k v).*1 ⊆ k :: l.*1.
Proof.
  unfold set_entry. rewrite fmap_app. intros x [Hx|Hx]%elem_of_app.
  - right. apply list_elem_of_fmap in Hx as (p & -> & [_ Hp]%list_elem_of_filter). by apply list_elem_of_fmap_2.
  - apply list_elem_of_singleton in Hx as ->. left.
Qed.

(** The loop of [value_of] over an object's members. *)
Fixpoint object_entries (l : list (string * json)) (acc : list (string * value)) : option (list (string * value)) :=
  match l with
  | [] => Some acc
  | (k, j) :: l => v ← value_of j; object_entries l (set_entry acc k v)
  end.

Lemma value_of_object vs : value_of (JObj vs) = VMap <$> object_entries vs [].
Proof. reflexivity. Qed.

Lemma object_entries_keys vs acc m : object_entries vs acc = Some m → m.*1 ⊆ acc.*1 ++ vs.*1.
Proof.
  revert acc. induction vs as [|[k j] vs IH]; intros acc; cbn [object_entries].
  - intros [= ->]. by rewrite app_nil_r.
  - destruct (value_of j) as [v|]; cbn [mbind option_bind]; [|by intros [=]]. intros Hm%IH.
    etrans; [exact Hm|]. pose proof (set_entry_keys acc k v) as Hs. rewrite fmap_cons.
    intros x [Hx|Hx]%elem_of_app; [|apply elem_of_app; right; by right].
    apply Hs, elem_of_cons in Hx as [->|Hx]; apply elem_of_app; [right; left|by left].
Qed.

Lemma payload_map_keys l m :
  Forall flat_member l → unmarshal_map (encode_object l) = Some m → m.*1 ⊆ l.*1.
Proof.
  intros Hl. unfold unmarshal_map.
  destruct (Text_fields (pred (nesting (encode_object l))) l) as [vs Hvs].
  { eapply Forall_impl; [exact Hl|]. intros kt (? & _ & v & Hv). eauto. }
  rewrite (parse_document_Text (JObj vs)) by (rewrite nesting_object; by apply Text_object).
  cbn [mbind option_bind]. rewrite value_of_object.
  destruct (object_entries vs []) as [m'|] eqn:Hv; cbn; [|by intros [=]]. intros [= <-].
  apply object_entries_keys in Hv. cbn [app fmap list_fmap] in Hv.
  replace (l.*1) with (vs.*1); [exact Hv|]. clear Hv.
  revert Hvs. generalize (pred (nesting (encode_object l))). intros n Hvs.
  induction Hvs as [|[k t] [k' v] l vs [Hk _] Hvs IH]; [done|]. apply Forall_cons in Hl as [[Hk' _] Hl].
  rewrite !fmap_cons, IH by done. f_equal. by rewrite <-Hk.
Qed.

Lemma map_get_None {A} (m : list (string * A)) k : k ∉ m.*1 → list_find (λ p : string * A, p.1 = k) m = None.
Proof.
  intros Hk. apply list_find_None. apply Forall_forall. intros p Hp <-. apply Hk. by apply list_elem_of_fmap_2.
Qed.

(** ** Authentication *)

Inductive code := Unauthenticated | Internal.

(** An error an RPC ends with: a status of the service, or another error. *)
Inductive rpc_error :=
| Status (c : code) (msg : string)
| Other (err : error).

(** What the handlers read from a context: the peer's address, the values of
    the [authorization] metadata ([None] without any metadata), and the value
    the interceptors store. *)
Record context := Ctx {
  cx_peer : option string;
  cx_authorization : option (list string);
  cx_authedNodeID : option string;
}.

Definition with_authed (ctx : context) (nodeID : string) : context :=
  Ctx (cx_peer ctx) (cx_authorization ctx) (Some nodeID).

Definition authedNodeIDFromContext (ctx : context) : string := default "" (cx_authedNodeID ctx).

Definition peerIP (ctx : context) : string :=
  match cx_peer ctx with
  | None => ""
  | Some addr => default addr (SplitHostPort addr)
  end.

Section Service.
Context `{Badger}.
Context (regexp : string → result (string → bool)).
Context (other_float : string → option GoValue.float64).
Context (quote_go : string → string).

(** *** Rules on fields that are not there *)

Lemma getFieldValue_key m path v :
  Alerting.getFieldValue m path = Some v → hd "" (Split path ".") ∈ m.*1.
Proof.
  unfold Alerting.getFieldValue. destruct (Split path ".") as [|k ks] eqn:Hs.
  { exfalso. destruct path as [|c path]; simpl in Hs; repeat case_match; done. }
  cbn [Alerting.get_path hd]. unfold map_get. intros Hv.
  destruct (list_find (λ p, p.1 = k) m) as [[i p]|] eqn:Hf; [|done].
  apply list_find_Some in Hf as (Hi & <- & _). by eapply list_elem_of_fmap_2, list_elem_of_lookup_2.
Qed.

Lemma absent_field_match e rule c :
  wire_ok e → c ∈ Alerting.ru_Conditions rule →
  (∀ l, payload_members e = Some l → hd "" (Split (Alerting.cd_Field c) ".") ∉ l.*1) →
  Alerting.rule_matches regexp other_float (storedEvent e) rule = false.
Proof.
  intros Hw Hc Habs. unfold Alerting.rule_matches. destruct (_ && _); [done|].
  unfold Alerting.matchConditions. destruct (Alerting.ru_Conditions rule) as [|c0 cs] eqn:Hcs; [done|].
  destruct (unmarshal_map (ev_Payload (storedEvent e))) as [m|] eqn:Hm; [|done].
  apply not_true_iff_false. intros Hall. rewrite forallb_forall in Hall.
  specialize (Hall c). rewrite <-list_elem_of_In in Hall. specialize (Hall Hc).
  unfold Alerting.matchCondition in Hall.
  destruct (Alerting.getFieldValue m (Alerting.cd_Field c)) as [v|] eqn:Hv; [|done].
  apply getFieldValue_key in Hv. change (ev_Payload (storedEvent e)) with (eventPayload e) in Hm.
  unfold eventPayload in Hm.
  destruct (payload_members e) as [l|] eqn:Hl.
  - apply (Habs l eq_refl). eapply payload_map_keys, Hv; [by eapply payload_flat|exact Hm].
  - vm_compute in Hm. injection Hm as <-. by apply elem_of_nil in Hv.
Qed.

(** The fields of a message by the names of their [json] tags, those with a
    zero value included. *)
Inductive field := FInt (z : Z) | FStr (s : string).

Definition is_zero (f : field) : Prop := match f with FInt z => z = 0 | FStr s => s = "" end.

Definition message_fields (e : KernelEvent) : list (string * field) :=
  match Payload e with
  | Some (KernelEvent_Exec x) =>
      [("pid", FInt (ex_Pid x)); ("ppid", FInt (ex_Ppid x)); ("comm", FStr (ex_Comm x));
       ("cmdline", FStr (ex_Cmdline x)); ("cwd", FStr (ex_Cwd x)); ("uid", FInt (ex_Uid x))]
  | Some (KernelEvent_Tcp x) =>
      [("pid", FInt (tcp_Pid x)); ("comm", FStr (tcp_Comm x)); ("src_ip", FStr (tcp_SrcIp x));
       ("src_port", FInt (tcp_SrcPort x)); ("dst_ip", FStr (tcp_DstIp x)); ("dst_port", FInt (tcp_DstPort x));
       ("direction", FStr (tcp_Direction x))]
  | Some (KernelEvent_File x) =>
      [("pid", FInt (file_Pid x)); ("comm", FStr (file_Comm x)); ("path", FStr (file_Path x));
       ("op", FStr (file_Op x)); ("ret", FInt (file_Ret x))]
  | None => []
  end.

Lemma int_member_key k name z : k ∈ (int_member name z).*1 → k = name ∧ ¬ is_zero (FInt z).
Proof. unfold int_member. destruct (Z.eqb_spec z 0); [by intros ?%elem_of_nil|]. by intros ->%list_elem_of_singleton. Qed.

Lemma str_member_key k name x : k ∈ (str_member name x).*1 → k = name ∧ ¬ is_zero (FStr x).
Proof. unfold str_member. case_bool_decide; [by intros ?%elem_of_nil|]. by intros ->%list_elem_of_singleton. Qed.

(** The payload has only fields of the message that are not zero. *)
Lemma payload_nonzero e l k :
  payload_members e = Some l → k ∈ l.*1 → ∃ v, (k, v) ∈ message_fields e ∧ ¬ is_zero v.
Proof.
  unfold payload_members, GetExec, GetTcp, GetFile, message_fields. intros Hl Hk.
  destruct (Payload e) as [[x|x|x]|]; repeat case_match; try discriminate Hl; injection Hl as <-;
    unfold exec_members, tcp_members, file_members in Hk; rewrite !fmap_app, !elem_of_app in Hk;
    destruct_or?; first [apply int_member_key in Hk as [-> Hz]|apply str_member_key in Hk as [-> Hz]];
    (eexists; split; [|exact Hz]; repeat (left || right)).
Qed.

(** ** The interceptors *)

Definition checkAuth (sch : schedule) (now : Z) (ctx : context) (st : Store) (authEnabled : bool)
    : rpc_error + string :=
  if negb authEnabled then inr ""
  else
    match cx_authorization ctx with
    | None => inl (Status Unauthenticated "missing metadata")
    | Some [] => inl (Status Unauthenticated "missing authorization metadata")
    | Some (value :: _) =>
        match CutPrefix value "Bearer " with
        | None => inl (Status Unauthenticated "invalid token")
        | Some got =>
            match LookupNodeID sch now got st with
            | Err _ => inl (Status Internal "auth lookup failed")
            | Ok (_, false) => inl (Status Unauthenticated "invalid token")
            | Ok (nodeID, true) => inr nodeID
            end
        end
    end.

Definition unaryAuthInterceptor {R} (sch : schedule) (now : Z) (st : Store) (authEnabled : bool)
    (ctx : context) (handler : context → R) : rpc_error + R :=
  match checkAuth sch now ctx st authEnabled with
  | inl err => inl err
  | inr nodeID => inr (handler (with_authed ctx nodeID))
  end.

(** The stream handler runs on: the interceptor only replaces its context. *)
Definition streamAuthInterceptor (sch : schedule) (now : Z) (st : Store) (authEnabled : bool)
    (ctx : context) : rpc_error + context :=
  match checkAuth sch now ctx st authEnabled with
  | inl err => inl err
  | inr nodeID => inr (with_authed ctx nodeID)
  end.

(** ** The server *)

(** The state the handlers share; [engine] and [defaultRegion] never change. *)
Record server := MkServer {
  st : Store;
  reg : Registry.Registry;
  detector : option Anomaly.Detector;
  notifier : option Notify.Dispatcher;
  metrics : option Metrics.MetricsProvider;
}.

Context (engine : option Alerting.Engine) (defaultRegion : string).

Definition with_st (s : server) (x : Store) : server :=
  MkServer x (reg s) (detector s) (notifier s) (metrics s).
Definition with_reg (s : server) (x : Registry.Registry) : server :=
  MkServer (st s) x (detector s) (notifier s) (metrics s).
Definition with_detector (s : server) (x : option Anomaly.Detector) : server :=
  MkServer (st s) (reg s) x (notifier s) (metrics s).
Definition with_notifier (s : server) (x : option Notify.Dispatcher) : server :=
  MkServer (st s) (reg s) (detector s) x (metrics s).
Definition on_metrics (f : Metrics.MetricsProvider → Metrics.MetricsProvider) (s : server) : server :=
  MkServer (st s) (reg s) (detector s) (notifier s) (f <$> metrics s).

Definition Register (now : Z) (ctx : context) (req : RegisterRequest) (s : server)
    : RegisterResponse * server :=
  match Validate.validateRegisterRequest req with
  | Some err => (MkRegisterResponse false err, s)
  | None =>
      let authedNodeID := authedNodeIDFromContext ctx in
      if (authedNodeID <>s "") && (rq_NodeId req <>s authedNodeID)
      then (MkRegisterResponse false "node_id does not match authenticated identity", s)
      else
        let region := if rq_Region req =s "" then defaultRegion else rq_Region req in
        match Registry.Register now (rq_NodeId req) (rq_Hostname req) (peerIP ctx) (rq_Version req)
                region (reg s) with
        | (Err err, r) => (MkRegisterResponse false err, with_reg s r)
        | (Ok _, r) => (MkRegisterResponse true "registered", with_reg s r)
        end
  end.

(** ** [StreamEvents] *)

Inductive pc :=
| Waiting                                        (* the top of the loop *)
| Accepted (e : KernelEvent)                     (* before [Heartbeat] *)
| Saving (e : KernelEvent)                       (* before [SaveEvent] *)
| Evaluating (e : Event) (saveOk : bool)         (* before the evaluation *)
| Alerts (saveOk : bool) (allAlerts : list Alert) (* the loop over the alerts *)
| Notifying (a : Alert) (saveOk : bool) (rest : list Alert)
| Returned (err : option rpc_error).

Record stream := MkStream {
  limiter : TokenBucket.tokenBucket;
  throttled : Z;
  authedNodeID : string;
  at_pc : pc;
}.

Definition goto (s : stream) (p : pc) : stream :=
  MkStream (limiter s) (throttled s) (authedNodeID s) p.

Definition new_stream (now : Z) (ctx : context) : stream :=
  MkStream
    (TokenBucket.newTokenBucket TokenBucket.streamEventsRateLimit TokenBucket.streamEventsRateBurst now)
    0 (authedNodeIDFromContext ctx) Waiting.

Inductive received :=
| EOF
| RecvError (err : error)
| Message (e : KernelEvent).

Inductive input :=
| IRecv (done : option error) (msg : received) (now : Z) (sent : option error)
| IHeartbeat (now : Z)
| ISaveEvent (sch : schedule) (received now : Z)
| IEvaluate (fresh : nat → string * Z) (uuid : string) (now : clock)
| ISaveAlert (sch : schedule) (now : Z)
| INotify
| ISend (sent : option error).

Inductive action :=
| ARecv (e : KernelEvent) (now : Z) (allowed : bool)
| AHeartbeat (node : string)
| ASaveEvent (e : Event) (received now : Z) (ok : bool)
| ASaveAlert (a : Alert) (now : Z) (ok : bool)
| ANotify (a : Alert)
| AAck (ok : bool).

(** [stream.Send] of an acknowledgement, then the next iteration or the end. *)
Definition send (ok : bool) (sent : option error) (s : stream) : list action * stream :=
  ([AAck ok],
   goto s (match sent with Some err => Returned (Some (Other err)) | None => Waiting end)).

(** The part of the loop from its top to the first call on shared state:
    nothing but this stream's own state changes. *)
Definition recv_step (done : option error) (msg : received) (now : Z) (sent : option error) (s : stream)
    : list action * stream :=
  match done with
  | Some err => ([], goto s (Returned (Some (Other err))))
  | None =>
      match msg with
      | EOF => ([], goto s (Returned None))
      | RecvError err => ([], goto s (Returned (Some (Other err))))
      | Message event =>
          let '(ok, b) := TokenBucket.allow now (limiter s) in
          let nack (s : stream) := let '(acts, s) := send false sent s in (ARecv event now ok :: acts, s) in
          let s := MkStream b (throttled s) (authedNodeID s) (at_pc s) in
          if negb ok then nack (MkStream b (wrapu64 (throttled s + 1)) (authedNodeID s) (at_pc s))
          else
            match Validate.validateKernelEvent event with
            | Some _ => nack s
            | None =>
                if (authedNodeID s <>s "") && (NodeId event <>s authedNodeID s) then nack s
                else ([ARecv event now ok], goto s (Accepted event))
            end
      end
  end.

(** The alerts of an event: the engine's, then the detector's. *)
Definition evaluate (fresh : nat → string * Z) (uuid : string) (now : clock) (e : Event) (w : server)
    : list Alert * server :=
  let a1 := match engine with
            | Some en => Alerting.Evaluate regexp other_float fresh e en
            | None => []
            end in
  match detector w with
  | Some d =>
      let '(a2, d) := Anomaly.Record quote_go uuid now e d in
      (a1 ++ a2, with_detector w (Some d))
  | None => (a1, w)
  end.

(** How long a save may take before its context ends ([Cancelled]). *)
Definition storeOpTimeout : Z := 5 * Second.

(** The calls that save the event and one alert, and the hand-over of an alert
    to the dispatcher (a nil one does nothing).  The increments of the metrics
    that follow a save are taken together with it: they commute with
    everything other goroutines do. *)
Definition save_event (sch : schedule) (received now : Z) (ev : Event) (w : server) : bool * server :=
  let '(r, x) := SaveEvent sch received now ev (st w) in
  let w := with_st w x in
  let w := if is_Ok r then w else on_metrics (Metrics.RecordStoreWriteFailure "event") w in
  (is_Ok r, on_metrics (Metrics.RecordEvent (ev_Type ev) (ev_NodeID ev)) w).

Definition save_alert (sch : schedule) (now : Z) (alert : Alert) (w : server) : bool * server :=
  let '(r, x) := SaveAlert sch now alert (st w) in
  let w := with_st w x in
  let w := if is_Ok r then w else on_metrics (Metrics.RecordStoreWriteFailure "alert") w in
  (is_Ok r, on_metrics (Metrics.RecordAlert (al_RuleID alert) (al_Severity alert) (al_NodeID alert)) w).

Definition notify (alert : Alert) (w : server) : server :=
  with_notifier w (Notify.DispatchAsync alert <$> notifier w).

Lemma save_event_effect sch received now ev w :
  let '(ok, w') := save_event sch received now ev w in
  ok = is_Ok (SaveEvent sch received now ev (st w)).1 ∧
  st w' = (SaveEvent sch received now ev (st w)).2 ∧ reg w' = reg w.
Proof. unfold save_event. by destruct (SaveEvent _ _ _ _ _) as [[] x]. Qed.

Lemma save_alert_effect sch now al w :
  let '(ok, w') := save_alert sch now al w in
  ok = is_Ok (SaveAlert sch now al (st w)).1 ∧ st w' = (SaveAlert sch now al (st w)).2 ∧ reg w' = reg w.
Proof. unfold save_alert. by destruct (SaveAlert _ _ _ _) as [[] x]. Qed.

Definition stream_step (i : input) (s : stream) (w : server) : option (list action * stream * server) :=
  match at_pc s, i with
  | Waiting, IRecv done msg now sent =>
      let '(acts, s) := recv_step done msg now sent s in Some (acts, s, w)
  | Accepted e, IHeartbeat now =>
      Some ([AHeartbeat (NodeId e)], goto s (Saving e), with_reg w (Registry.Heartbeat now (NodeId e) (reg w)))
  | Saving e, ISaveEvent sch received now =>
      let ev := storedEvent e in
      let '(ok, w) := save_event sch received now ev w in
      Some ([ASaveEvent ev received now ok], goto s (Evaluating ev ok), w)
  | Evaluating ev saveOk, IEvaluate fresh uuid now =>
      let '(alerts, w) := evaluate fresh uuid now ev w in
      Some ([], goto s (Alerts saveOk alerts), w)
  | Alerts saveOk (alert :: rest), ISaveAlert sch now =>
      let '(ok, w) := save_alert sch now alert w in
      Some ([ASaveAlert alert now ok], goto s (Notifying alert (saveOk && ok) rest), w)
  | Notifying alert saveOk rest, INotify =>
      Some ([ANotify alert], goto s (Alerts saveOk rest), notify alert w)
  | Alerts saveOk [], ISend sent => let '(acts, s) := send saveOk sent s in Some (acts, s, w)
  | _, _ => None
  end.

(** ** The protocol of a stream

    [acts] are the actions of a stream that started as [s0], with the shared
    state changed arbitrarily by other goroutines between any two parts. *)

Inductive stream_run (s0 : stream) : list action → stream → Prop :=
| run_start : stream_run s0 [] s0
| run_step acts s i w acts' s' w' :
    stream_run s0 acts s → stream_step i s w = Some (acts', s', w') → stream_run s0 (acts ++ acts') s'.

(** A message the stream of node [a] processes ([a] is empty when
    authentication is off). *)
Definition acceptable (a : string) (e : KernelEvent) : Prop :=
  Validate.validateKernelEvent e = None ∧ (a = "" ∨ NodeId e = a).

(** The alerts of a message, each with the time and the result of its save. *)
Definition alert_actions (als : list (Alert * (Z * bool))) : list action :=
  als ≫= λ '(al, (now, ok)), [ASaveAlert al now ok; ANotify al].

Definition all_saved (als : list (Alert * (Z * bool))) : bool := forallb (λ x, x.2.2) als.

Definition opening (e : KernelEvent) (now : Z * (Z * Z)) (r : bool) : list action :=
  [ARecv e now.1 true; AHeartbeat (NodeId e); ASaveEvent (storedEvent e) now.2.1 now.2.2 r].

Definition about (e : KernelEvent) (al : Alert) : Prop :=
  al_NodeID al = NodeId e ∧ al_EventID al = EventId e.

(** What the stream does for one message. *)
Inductive transaction (a : string) : list action → Prop :=
| t_reject e now ok :
    ok = false ∨ ¬ acceptable a e → transaction a [ARecv e now ok; AAck false]
| t_accept e now r als :
    acceptable a e → Forall (about e) als.*1 →
    transaction a (opening e now r ++ alert_actions als ++ [AAck (r && all_saved als)]).

(** The actions of the message in progress. *)
Definition in_progress (a : string) (p : pc) (acts : list action) : Prop :=
  match p with
  | Waiting | Returned _ => acts = []
  | Accepted e => acceptable a e ∧ ∃ now, acts = [ARecv e now true]
  | Saving e => acceptable a e ∧ ∃ now, acts = [ARecv e now true; AHeartbeat (NodeId e)]
  | Evaluating ev r => ∃ e now, acceptable a e ∧ ev = storedEvent e ∧ acts = opening e now r
  | Alerts ok rest =>
      ∃ e now r als, acceptable a e ∧ Forall (about e) (als.*1 ++ rest) ∧
        ok = r && all_saved als ∧ acts = opening e now r ++ alert_actions als
  | Notifying al ok rest =>
      ∃ e now r als now' r', acceptable a e ∧ Forall (about e) (als.*1 ++ al :: rest) ∧
        ok = r && all_saved als && r' ∧ acts = opening e now r ++ alert_actions als ++ [ASaveAlert al now' r']
  end.

Definition protocol (a : string) (p : pc) (acts : list action) : Prop :=
  ∃ txs part, acts = concat txs ++ part ∧ Forall (transaction a) txs ∧ in_progress a p part.

(** Where an alert comes from: a rule that holds for the event, or a window of
    the detector whose threshold the count passed. *)
Definition evaluated (fresh : nat → string * Z) (uuid : string) (now : clock) (ev : Event) (al : Alert) : Prop :=
  (∃ en r k, engine = Some en ∧ r ∈ Alerting.rs_Rules (Alerting.en_rules en) ∧
     Alerting.rule_holds regexp other_float ev r ∧ al = Alerting.rule_alert (fresh k).1 (fresh k).2 ev r) ∨
  (∃ count w, Anomaly.Threshold w < count ∧ al = Anomaly.anomaly_alert quote_go uuid now ev count w).

Lemma breach_loop_evaluated fresh uuid now ev key d l :
  Forall (evaluated fresh uuid now ev) (Anomaly.breach_loop quote_go uuid now ev key d l).
Proof.
  induction l as [|w l IH]; cbn [Anomaly.breach_loop]; [constructor|].
  destruct (Z.gtb_spec (Anomaly.countWithin key (mono now) (Anomaly.Duration w) d) (Anomaly.Threshold w)); [|exact IH].
  apply Forall_singleton. right. eauto.
Qed.

Lemma Evaluate_evaluated fresh uuid now ev en :
  engine = Some en → Forall (evaluated fresh uuid now ev) (Alerting.Evaluate regexp other_float fresh ev en).
Proof.
  intros He. unfold Alerting.Evaluate. rewrite Alerting.evaluate_loop_spec. apply Forall_forall.
  intros al (k & r & -> & Hr)%elem_of_lookup_imap_1. apply list_elem_of_lookup_2, list_elem_of_filter in Hr as [Hm Hin].
  left. exists en, r, (0 + k)%nat. split; [done|]. split; [done|]. split; [by apply Alerting.rule_matches_spec|done].
Qed.

Lemma evaluate_evaluated fresh uuid now ev w alerts w' :
  evaluate fresh uuid now ev w = (alerts, w') → Forall (evaluated fresh uuid now ev) alerts.
Proof.
  assert (Forall (evaluated fresh uuid now ev)
            match engine with Some en => Alerting.Evaluate regexp other_float fresh ev en | None => [] end) as H1.
  { destruct engine as [en|] eqn:He; [by apply Evaluate_evaluated|constructor]. }
  unfold evaluate. destruct (detector w) as [d|]; [|by intros [= <- <-]].
  unfold Anomaly.Record. intros [= <- <-]. apply Forall_app. split; [exact H1|]. apply breach_loop_evaluated.
Qed.

Lemma evaluated_about fresh uuid now e al : evaluated fresh uuid now (storedEvent e) al → about e al.
Proof. by intros [(en & r & k & _ & _ & _ & ->)|(count & w & _ & ->)]. Qed.

(** What raised an alert, from what it says. *)
Definition raised (e : KernelEvent) (al : Alert) : Prop :=
  (∃ en r, engine = Some en ∧ r ∈ Alerting.rs_Rules (Alerting.en_rules en) ∧
     Alerting.rule_holds regexp other_float (storedEvent e) r ∧
     al_RuleID al = Alerting.ru_ID r ∧ al_Message al = Alerting.ru_Message r ∧ al_Severity al = Alerting.ru_Severity r) ∨
  (∃ count w, Anomaly.Threshold w < count ∧ al_RuleID al = "anomaly_" +:+ eventTypeName e ∧
     al_Message al = Anomaly.anomaly_message quote_go count (eventTypeName e) w ∧ al_Severity al = "warning").

Lemma evaluated_raised fresh uuid now e al : evaluated fresh uuid now (storedEvent e) al → raised e al.
Proof. intros [(en & r & k & He & Hr & Hh & ->)|(count & w & Hc & ->)]; [left|right]; naive_solver. Qed.

(** The texts of the rules are valid UTF-8, as the YAML decoder delivers them. *)
Definition engine_ok : Prop :=
  ∀ en r, engine = Some en → r ∈ Alerting.rs_Rules (Alerting.en_rules en) →
    Forall Valid_utf8 [Alerting.ru_ID r; Alerting.ru_Message r; Alerting.ru_Severity r].

Lemma anomaly_message_valid count type w :
  (∀ s, ascii_only s → ascii_only (quote_go s)) → ascii_only type →
  Valid_utf8 (Anomaly.anomaly_message quote_go count type w).
Proof.
  intros Hq Ht. apply utf8_text_valid. unfold Anomaly.anomaly_message.
  repeat apply utf8_text_app; first [apply Duration_String_text|apply ascii_text];
    first [apply Itoa_ascii|by apply Hq|ascii_literal].
Qed.

(** Every alert of a stored event can be stored and read back. *)
Lemma evaluated_ok fresh uuid now e al :
  engine_ok → (∀ s, ascii_only s → ascii_only (quote_go s)) →
  (∀ k, Valid_utf8 (fresh k).1 ∧ year_ok (fresh k).2) → Valid_utf8 uuid → year_ok (wall now) →
  codec_ok (storedEvent e) → evaluated fresh uuid now (storedEvent e) al → codec_ok al.
Proof.
  intros Hen Hq Hf Hu Hy (He & Hn & _) [(en & r & k & Heq & Hr & _ & ->)|(count & w & _ & ->)].
  - specialize (Hen en r Heq Hr). rewrite !Forall_cons in Hen. destruct Hen as (Hid & Hm & Hs & _).
    destruct (Hf k) as [Hk Ht]. split; [|exact Ht]. by repeat (apply Forall_cons_2; [done|]).
  - split; [|exact Hy]. repeat (apply Forall_cons_2; [try done|]); [| |apply Forall_nil_2].
    + apply ascii_valid, ascii_app; [ascii_literal|apply eventTypeName_ascii].
    + by apply anomaly_message_valid, eventTypeName_ascii.
Qed.

Lemma recv_step_progress done msg now sent s acts s' a :
  at_pc s = Waiting → authedNodeID s = a → recv_step done msg now sent s = (acts, s') →
  authedNodeID s' = a ∧ protocol a (at_pc s') acts.
Proof.
  intros Hpc Ha. unfold recv_step.
  assert (∀ p, at_pc (goto s p) = p) as Hgoto by done.
  assert (∀ e s1 ok acts s', ok = false ∨ ¬ acceptable a e → authedNodeID s1 = a →
    (let '(acts, s) := send false sent s1 in (ARecv e now ok :: acts, s)) = (acts, s') →
    authedNodeID s' = a ∧ protocol a (at_pc s') acts) as Hnack.
  { intros e s1 ok acts1 s1' Hno Ha1. unfold send. intros [= <- <-]. split; [exact Ha1|].
    exists [[ARecv e now ok; AAck false]], []. split; [done|].
    split; [constructor; [by apply t_reject|constructor]|]. by destruct sent. }
  destruct done as [err|]; [intros [= <- <-]; split; [done|]; by exists [], []|].
  destruct msg as [|err|e]; [intros [= <- <-]; split; [done|]; by exists [], []..|].
  destruct (TokenBucket.allow now (limiter s)) as [ok b]. cbn [authedNodeID throttled at_pc].
  destruct ok; cbn [negb]; [|by apply Hnack; [left|]].
  destruct (Validate.validateKernelEvent e) eqn:Hv; [apply Hnack; [right; by intros [? _]; congruence|done]|].
  assert (Decision (acceptable a e)) as Hdec by (unfold acceptable; apply _).
  destruct Hdec as [Hacc|Hacc].
  - destruct Hacc as [Hv' Hn]. rewrite Ha.
    assert ((a <>s "") && (NodeId e <>s a) = false) as ->.
    { destruct Hn as [-> | ->]; [done|]. rewrite andb_comm. by rewrite bool_decide_eq_true_2. }
    intros [= <- <-]. split; [done|]. exists [], [ARecv e now true]. split; [done|]. split; [constructor|].
    split; [done|]. by exists now.
  - assert ((authedNodeID s <>s "") && (NodeId e <>s authedNodeID s) = true) as ->.
    { rewrite Ha. destruct (decide (a = "")) as [->|?]; [destruct Hacc; split; auto|].
      destruct (decide (NodeId e = a)); [destruct Hacc; split; auto|].
      by rewrite !bool_decide_eq_false_2. }
    apply Hnack; [by right|done].
Qed.

(** One part of the loop extends the message in progress, or ends it. *)
Lemma stream_step_progress i s w acts s' w' part :
  at_pc s ≠ Waiting → stream_step i s w = Some (acts, s', w') →
  in_progress (authedNodeID s) (at_pc s) part →
  authedNodeID s' = authedNodeID s ∧
  (in_progress (authedNodeID s) (at_pc s') (part ++ acts) ∨
   transaction (authedNodeID s) (part ++ acts) ∧ in_progress (authedNodeID s) (at_pc s') []).
Proof.
  intros Hpc. unfold stream_step.
  destruct (at_pc s) as [|e|e|ev r|ok [|al rest]|al ok rest|err] eqn:Hp; [done|..];
    destruct i as [| |sch received now|fresh uuid now|sch now| |sent]; try (by intros [=]); cbn [in_progress].
  - intros [= <- <- <-] (Hacc & now' & ->). split; [done|]. left. split; [done|]. by exists now'.
  - destruct (save_event _ _ _ _ _) as [r x]. intros [= <- <- <-] (Hacc & now' & ->). split; [done|]. left.
    by exists e, (now', (received, now)).
  - destruct (evaluate _ _ _ _ _) as [alerts w1] eqn:He.
    intros [= <- <- <-] (e & now' & Hacc & -> & ->). split; [done|]. left.
    apply evaluate_evaluated in He. exists e, now', r, []. simpl. rewrite andb_true_r.
    split; [done|]. split; [|done]. eapply Forall_impl, evaluated_about. exact He.
  - intros [= <- <- <-] (e & now' & r & als & Hacc & Hab & -> & ->). split; [done|]. right.
    rewrite app_nil_r in Hab. split; [rewrite <-app_assoc; by apply t_accept|]. by destruct sent.
  - destruct (save_alert _ _ _ _) as [r x].
    intros [= <- <- <-] (e & now' & r0 & als & Hacc & Hab & -> & ->). split; [done|]. left.
    exists e, now', r0, als, now, r. by rewrite <-app_assoc.
  - intros [= <- <- <-] (e & now' & r & als & n' & r' & Hacc & Hab & -> & ->). split; [done|]. left.
    exists e, now', r, (als ++ [(al, (n', r'))]). split; [done|].
    split; [by rewrite fmap_app, <-app_assoc|]. unfold all_saved. rewrite forallb_app. simpl. rewrite andb_true_r, andb_assoc.
    split; [done|]. unfold alert_actions. rewrite bind_app, <-!app_assoc. done.
Qed.

Lemma stream_step_protocol i s w acts s' w' acts0 :
  stream_step i s w = Some (acts, s', w') → protocol (authedNodeID s) (at_pc s) acts0 →
  authedNodeID s' = authedNodeID s ∧ protocol (authedNodeID s) (at_pc s') (acts0 ++ acts).
Proof.
  intros Hstep (txs & part & -> & Htxs & Hpart).
  assert (at_pc s = Waiting ∨ at_pc s ≠ Waiting) as [Hpc|Hpc] by (destruct (at_pc s); auto).
  - unfold stream_step in Hstep. rewrite Hpc in Hstep, Hpart. simpl in Hpart. subst part.
    destruct i as [done msg now sent| | | | | |]; [|discriminate Hstep..].
    destruct (recv_step done msg now sent s) as [acts1 s1] eqn:Hr. injection Hstep as <- <- <-.
    destruct (recv_step_progress _ _ _ _ _ _ _ _ Hpc eq_refl Hr) as [Ha (txs' & part & -> & Htxs' & Hp)].
    split; [done|]. exists (txs ++ txs'), part. rewrite app_nil_r, concat_app, <-app_assoc.
    split; [done|]. split; [by apply Forall_app|done].
  - destruct (stream_step_progress _ _ _ _ _ _ _ Hpc Hstep Hpart) as [Ha [Hp|[Htx Hp]]]; (split; [done|]).
    + exists txs, (part ++ acts). by rewrite <-app_assoc.
    + exists (txs ++ [part ++ acts]), []. rewrite concat_app, <-!app_assoc. simpl. rewrite !app_nil_r.
      split; [done|]. split; [|done]. apply Forall_app. split; [done|by constructor].
Qed.

Lemma stream_run_protocol s0 acts s :
  stream_run s0 acts s → at_pc s0 = Waiting →
  authedNodeID s = authedNodeID s0 ∧ protocol (authedNodeID s0) (at_pc s) acts.
Proof.
  intros Hrun H0. induction Hrun as [|acts s i w acts' s' w' _ [Ha IH] Hstep].
  - split; [done|]. exists [], []. by rewrite H0.
  - rewrite <-Ha in IH |- *. by eapply stream_step_protocol.
Qed.

(** *** The limiter along a stream *)

Definition recv_times (acts : list action) : list Z :=
  omap (λ x, match x with ARecv _ now _ => Some now | _ => None end) acts.
Definition recv_oks (acts : list action) : list bool :=
  omap (λ x, match x with ARecv _ _ ok => Some ok | _ => None end) acts.
Definition saves (acts : list action) : nat :=
  length (omap (λ x, match x with ASaveEvent e _ _ _ => Some e | _ => None end) acts).

Lemma recv_step_authed done msg now sent s acts s' :
  recv_step done msg now sent s = (acts, s') → authedNodeID s' = authedNodeID s.
Proof.
  unfold recv_step, send. destruct done; [by intros [= <- <-]|].
  destruct msg as [|err|e]; [by intros [= <- <-]..|].
  destruct (TokenBucket.allow now (limiter s)) as [[] b]; simpl; [|by intros [= <- <-]].
  destruct (Validate.validateKernelEvent e); [by intros [= <- <-]|]. by destruct (_ && _); intros [= <- <-].
Qed.

Lemma stream_step_authed i s w acts s' w' :
  stream_step i s w = Some (acts, s', w') → authedNodeID s' = authedNodeID s.
Proof.
  unfold stream_step. intros Hstep.
  destruct (at_pc s) as [|e|e|ev r|ok [|al rest]|al ok rest|err];
    destruct i as [done msg now sent| |sch received now|fresh uuid now|sch now| |sent]; try discriminate Hstep.
  - destruct (recv_step done msg now sent s) as [acts1 s1] eqn:Hr. injection Hstep as <- <- <-.
    by eapply recv_step_authed.
  - by injection Hstep as <- <- <-.
  - destruct (save_event _ _ _ _ _) as [r x]. by injection Hstep as <- <- <-.
  - destruct (evaluate _ _ _ _ _) as [alerts w1]. by injection Hstep as <- <- <-.
  - by injection Hstep as <- <- <-.
  - destruct (save_alert _ _ _ _) as [r x]. by injection Hstep as <- <- <-.
  - by injection Hstep as <- <- <-.
Qed.

Lemma stream_step_limiter i s w acts s' w' :
  stream_step i s w = Some (acts, s', w') →
  TokenBucket.allow_all (recv_times acts) (limiter s) = (recv_oks acts, limiter s').
Proof.
  unfold stream_step. intros Hstep.
  destruct (at_pc s) as [|e|e|ev r|ok [|al rest]|al ok rest|err];
    destruct i as [done msg now sent| |sch received now|fresh uuid now|sch now| |sent]; try discriminate Hstep.
  - destruct (recv_step done msg now sent s) as [acts1 s1] eqn:Hr. injection Hstep as <- <- <-.
    revert Hr. unfold recv_step, send. destruct done; [by intros [= <- <-]|].
    destruct msg as [|err|e]; [by intros [= <- <-]..|].
    destruct (TokenBucket.allow now (limiter s)) as [ok b] eqn:Hb.
    destruct ok; simpl; [|intros [= <- <-]; simpl; by rewrite Hb].
    destruct (Validate.validateKernelEvent e); [intros [= <- <-]; simpl; by rewrite Hb|].
    destruct (_ && _); intros [= <- <-]; simpl; by rewrite Hb.
  - by injection Hstep as <- <- <-.
  - destruct (save_event _ _ _ _ _) as [r x]. by injection Hstep as <- <- <-.
  - destruct (evaluate _ _ _ _ _) as [alerts w1]. by injection Hstep as <- <- <-.
  - by injection Hstep as <- <- <-.
  - destruct (save_alert _ _ _ _) as [r x]. by injection Hstep as <- <- <-.
  - by injection Hstep as <- <- <-.
Qed.

Lemma stream_run_limiter s0 acts s :
  stream_run s0 acts s →
  TokenBucket.allow_all (recv_times acts) (limiter s0) = (recv_oks acts, limiter s).
Proof.
  induction 1 as [|acts s i w acts' s' w' _ IH Hstep]; [done|].
  unfold recv_times, recv_oks. rewrite !omap_app. fold (recv_times acts) (recv_times acts') (recv_oks acts) (recv_oks acts').
  rewrite TokenBucket.allow_all_app, IH. by rewrite (stream_step_limiter _ _ _ _ _ _ Hstep).
Qed.

Lemma saves_app a b : saves (a ++ b) = (saves a + saves b)%nat.
Proof. unfold saves. by rewrite omap_app, length_app. Qed.

Definition granted (acts : list action) : nat := TokenBucket.allowed (recv_oks acts).

Lemma granted_app a b : granted (a ++ b) = (granted a + granted b)%nat.
Proof. unfold granted, recv_oks, TokenBucket.allowed. by rewrite omap_app, filter_app, length_app. Qed.

Lemma saves_alerts als : saves (alert_actions als) = 0%nat.
Proof. induction als as [|[al [now ok]] als IH]; [done|]. exact IH. Qed.

Lemma opening_saves e now r l :
  saves l = 0%nat → (saves (opening e now r ++ l) <= granted (opening e now r ++ l))%nat.
Proof.
  intros Hl. rewrite saves_app, granted_app, Hl.
  change (saves (opening e now r)) with 1%nat. change (granted (opening e now r)) with 1%nat. lia.
Qed.

Lemma transaction_saves a acts : transaction a acts → (saves acts <= granted acts)%nat.
Proof.
  destruct 1 as [e now ok Hno|e now r als Hacc Hab]; [unfold saves; simpl; lia|].
  apply opening_saves. by rewrite saves_app, saves_alerts.
Qed.

Lemma in_progress_saves a p acts : in_progress a p acts → (saves acts <= granted acts)%nat.
Proof.
  destruct p as [|e|e|ev r|ok rest|al ok rest|err]; cbn [in_progress].
  - intros ->. unfold saves. simpl. lia.
  - intros (_ & now & ->). unfold saves. simpl. lia.
  - intros (_ & now & ->). unfold saves. simpl. lia.
  - intros (e & now & _ & _ & ->). rewrite <-(app_nil_r (opening e now r)). by apply opening_saves.
  - intros (e & now & r & als & _ & _ & _ & ->). apply opening_saves, saves_alerts.
  - intros (e & now & r & als & n' & r' & _ & _ & _ & ->). apply opening_saves. by rewrite saves_app, saves_alerts.
  - intros ->. unfold saves. simpl. lia.
Qed.

Lemma protocol_saves a p acts : protocol a p acts → (saves acts <= granted acts)%nat.
Proof.
  intros (txs & part & -> & Htxs & Hp). rewrite saves_app, granted_app. apply in_progress_saves in Hp.
  enough (saves (concat txs) <= granted (concat txs))%nat by lia.
  induction Htxs as [|tx txs Htx Htxs IH]; [done|]. simpl. rewrite saves_app, granted_app.
  apply transaction_saves in Htx. lia.
Qed.

(** *** Who the actions are about *)

Definition action_node (x : action) : option string :=
  match x with
  | AHeartbeat node => Some node
  | ASaveEvent e _ _ _ => Some (ev_NodeID e)
  | ASaveAlert al _ _ | ANotify al => Some (al_NodeID al)
  | ARecv _ _ _ | AAck _ => None
  end.

Definition only_as (a : string) (x : action) : Prop := ∀ node, action_node x = Some node → node = a.

Lemma opening_only_as a e now r : a ≠ "" → acceptable a e → Forall (only_as a) (opening e now r).
Proof.
  intros Ha [_ [?|He]]; [done|]. repeat constructor; unfold only_as; simpl; intros ? [=]; congruence.
Qed.

Lemma alerts_only_as a e als :
  a ≠ "" → acceptable a e → Forall (about e) als.*1 → Forall (only_as a) (alert_actions als).
Proof.
  intros Ha [_ [?|He]]; [done|]. induction als as [|[al [now ok]] als IH]; [constructor|].
  rewrite fmap_cons. intros [[Hn _] Hab]%Forall_cons. simpl in Hn.
  repeat constructor; [intros ? [=]; congruence..|by apply IH].
Qed.

Lemma ack_only_as a ok : Forall (only_as a) [AAck ok].
Proof. by repeat constructor. Qed.

Lemma transaction_only_as a acts : a ≠ "" → transaction a acts → Forall (only_as a) acts.
Proof.
  intros Ha. destruct 1 as [e now ok Hno|e now r als Hacc Hab]; [by repeat constructor|].
  rewrite !Forall_app. eauto using opening_only_as, alerts_only_as, ack_only_as.
Qed.

Lemma in_progress_only_as a p acts : a ≠ "" → in_progress a p acts → Forall (only_as a) acts.
Proof.
  intros Ha. destruct p as [|e|e|ev r|ok rest|al ok rest|err]; cbn [in_progress].
  - by intros ->.
  - intros (_ & now & ->). by repeat constructor.
  - intros (Hacc & now & ->). pose proof (opening_only_as a e (now, (now, now)) true Ha Hacc) as Hx.
    by apply (Forall_app _ [_; _] [_]) in Hx as [? _].
  - intros (e & now & Hacc & _ & ->). by apply opening_only_as.
  - intros (e & now & r & als & Hacc & [Hab _]%Forall_app & _ & ->). rewrite Forall_app.
    eauto using opening_only_as, alerts_only_as.
  - intros (e & now & r & als & n' & r' & Hacc & [Hab [Hal _]%Forall_cons]%Forall_app & _ & ->).
    rewrite !Forall_app. split_and!; eauto using opening_only_as, alerts_only_as.
    assert (Forall (only_as a) (alert_actions [(al, (n', r'))])) as Hx
      by (apply (alerts_only_as a e); [done..|by apply Forall_singleton]).
    by apply (Forall_app _ [_] [_]) in Hx as [? _].
  - by intros ->.
Qed.

Lemma protocol_only_as a p acts : a ≠ "" → protocol a p acts → Forall (only_as a) acts.
Proof.
  intros Ha (txs & part & -> & Htxs & Hp). apply Forall_app. split; [|by eapply in_progress_only_as].
  apply Forall_concat. eapply Forall_impl; [exact Htxs|]. intros tx. by apply transaction_only_as.
Qed.

(** The interceptor lets a stream through under the node its token names. *)
Lemma streamAuthInterceptor_node now ctx ctx' s m t :
  holds s m t → t <= now → streamAuthInterceptor Completes now s true ctx = inr ctx' →
  ∃ token vs rec, cx_authorization ctx = Some (("Bearer " +:+ token) :: vs) ∧
    m !! authedNodeIDFromContext ctx' = Some rec ∧ matches (hashToken token) rec.
Proof.
  intros Hh Ht. unfold streamAuthInterceptor, checkAuth. cbn [negb].
  destruct (cx_authorization ctx) as [[|v vs]|]; [done| |done].
  destruct (CutPrefix v "Bearer ") as [token|] eqn:Hc; [|done]. apply CutPrefix_Some in Hc as ->.
  rewrite (holds_lookup _ _ _ _ _ Hh Ht). destruct (table_lookup m token) as [node []] eqn:Hl; [|done].
  intros [= <-]. apply table_lookup_true in Hl as (rec & Hm & Hr); [|intros; by eapply holds_node].
  exists token, vs, rec. done.
Qed.

(** ** What the service promises *)

(** C1: The protocol of a stream.  Whatever other goroutines do to the shared
    state meanwhile, the actions of a stream are those of one message after
    the other.  A message that is throttled, invalid or of another node than
    the authenticated one is answered by one negative acknowledgement and
    nothing else; any other message gives a heartbeat, one save of the event,
    then for each alert about it a save and a notification, then one
    acknowledgement, positive exactly when every save succeeded; only the last
    message may still be in progress. *)
Theorem stream_protocol t0 ctx acts s :
  stream_run (new_stream t0 ctx) acts s → protocol (authedNodeIDFromContext ctx) (at_pc s) acts.
Proof. intros Hrun. by apply (stream_run_protocol (new_stream t0 ctx)). Qed.

(** C10: An authenticated agent acts only as itself.  When authentication is on
    and no token was issued for the empty node id, a stream that passes the
    interceptor presented the bearer token of an active record, and every
    heartbeat, stored event, stored alert and notification of the stream, for
    any messages it sends, is about the node of that record. *)
Theorem authenticated_identity m t now ctx ctx' x t0 acts s :
  holds x m t → t <= now → m !! "" = None →
  streamAuthInterceptor Completes now x true ctx = inr ctx' →
  stream_run (new_stream t0 ctx') acts s →
  ∃ node token vs rec,
    cx_authorization ctx = Some (("Bearer " +:+ token) :: vs) ∧
    m !! node = Some rec ∧ matches (hashToken token) rec ∧
    Forall (only_as node) acts.
Proof.
  intros Hh Ht Hempty Hauth Hrun.
  destruct (streamAuthInterceptor_node _ _ _ _ _ _ Hh Ht Hauth) as (token & vs & rec & Hv & Hm & Hr).
  exists (authedNodeIDFromContext ctx'), token, vs, rec. split; [done|]. split; [done|]. split; [done|].
  apply (stream_run_protocol (new_stream t0 ctx')) in Hrun as [_ Hp]; [|done].
  eapply protocol_only_as, Hp. cbn [new_stream authedNodeID]. congruence.
Qed.

(** C11: A flooding agent is bounded: on a clock that does not run backwards,
    the events a stream stores are at most the burst of 4000 plus 2000 per
    second since the stream opened, up to the accumulated rounding of the
    [float64] arithmetic, below [10^-12] per message and below a part in
    [10^15] of the refill; throttled and invalid messages store nothing. *)
Theorem stream_rate_bound t0 ctx acts s :
  stream_run (new_stream t0 ctx) acts s →
  TokenBucket.nondecreasing t0 (recv_times acts) →
  let D := (2000 * TokenBucket.elapsed t0 (TokenBucket.last (limiter s)))%Q in
  (inject_Z (Z.of_nat (saves acts))
   <= 4000 + D + D * (1 # 10 ^ 15) + inject_Z (Z.of_nat (length (recv_times acts))) * (1 # 10 ^ 12))%Q.
Proof.
  intros Hrun Hts D. pose proof (TokenBucket.allow_all_rate t0 (recv_times acts) Hts) as Hrate.
  pose proof (stream_run_limiter _ _ _ Hrun) as Hl. cbn [new_stream limiter] in Hl. rewrite Hl in Hrate.
  eapply Qle_trans; [|exact Hrate]. rewrite <-Zle_Qle.
  apply stream_run_protocol in Hrun as [_ Hp%protocol_saves]; [|done]. unfold granted in Hp. lia.
Qed.

(** C31: Registration on every branch.  A request that is valid and, with
    authentication on, names the authenticated node is accepted unless its
    node id is empty; then that node is active and seen now, in the
    requested region or else the collector's default one.  A node that was not
    registered gets the address of the connection, not the one the request
    claims, and the host name and version of the request; a node that was
    keeps its address, host name, version and time of registration, whatever
    the request says and wherever it comes from.  Every other request is
    refused and changes nothing, and no request changes another node. *)
Theorem register_effect now ctx req w :
  let a := authedNodeIDFromContext ctx in
  let id := rq_NodeId req in
  let '(resp, w') := Register now ctx req w in
  (rs_Ok resp = true ↔
     Validate.validateRegisterRequest req = None ∧ (a = "" ∨ id = a) ∧ id ≠ "") ∧
  (rs_Ok resp = false → w' = w) ∧
  (rs_Ok resp = true →
     w' = with_reg w (reg w') ∧
     (∀ other, other ≠ id → Registry.nodes (reg w') !! other = Registry.nodes (reg w) !! other) ∧
     ∃ n, Registry.nodes (reg w') !! id = Some n ∧ Registry.Status n = "active" ∧ Registry.LastSeen n = now ∧
       Registry.Region n = Registry.normalizeRegion (if rq_Region req =s "" then defaultRegion else rq_Region req) ∧
       match Registry.nodes (reg w) !! id with
       | None =>
           Registry.IP n = peerIP ctx ∧ Registry.Hostname n = rq_Hostname req ∧
           Registry.Version n = rq_Version req ∧ Registry.Registered n = now
       | Some old =>
           Registry.IP n = Registry.IP old ∧ Registry.Hostname n = Registry.Hostname old ∧
           Registry.Version n = Registry.Version old ∧ Registry.Registered n = Registry.Registered old
       end).
Proof.
  cbv zeta. unfold Register. destruct (Validate.validateRegisterRequest req) as [err|] eqn:Hv.
  { split; [split; [done|by intros [? _]]|]. by split. }
  destruct (decide (authedNodeIDFromContext ctx = "" ∨ rq_NodeId req = authedNodeIDFromContext ctx)) as [Ha|Ha].
  - assert ((authedNodeIDFromContext ctx <>s "") && (rq_NodeId req <>s authedNodeIDFromContext ctx) = false) as ->.
    { destruct Ha as [-> | ->]; [done|]. rewrite andb_comm. by rewrite bool_decide_eq_true_2. }
    unfold Registry.Register. destruct (decide (rq_NodeId req = "")) as [He|He].
    { rewrite bool_decide_eq_true_2 by done. split; [split; [done|by intros (_ & _ & ?)]|]. split; [|done].
      intros _. by destruct w. }
    rewrite bool_decide_eq_false_2 by done.
    destruct (Registry.nodes (reg w) !! rq_NodeId req) as [n|] eqn:Hn;
      (split; [done|]; split; [done|]); intros _; (split; [done|]); cbn [reg with_reg Registry.nodes];
      (split; [intros other Hne; by apply lookup_insert_ne|]); rewrite lookup_insert_eq; eexists; by repeat split.
  - assert ((authedNodeIDFromContext ctx <>s "") && (rq_NodeId req <>s authedNodeIDFromContext ctx) = true) as ->.
    { rewrite !bool_decide_eq_false_2; naive_solver. }
    split; [split; [done|by intros (_ & ? & _)]|]. by split.
Qed.

(** C40: Rules cannot see zero values.  A rule with a condition on a field that
    the message does not have, or has with the value zero or the empty string,
    never matches the event, whatever the operator, because such a field is
    left out of the payload: [uid eq 0] and [uid lt 1000] do not match a
    process of root. *)
Theorem absent_field_unmatched e rule c :
  wire_ok e → c ∈ Alerting.ru_Conditions rule →
  (∀ v, (hd "" (Split (Alerting.cd_Field c) "."), v) ∈ message_fields e → is_zero v) →
  Alerting.rule_matches regexp other_float (storedEvent e) rule = false.
Proof.
  intros Hw Hc Hzero. apply (absent_field_match e rule c Hw Hc). intros l Hl Hk.
  destruct (payload_nonzero _ _ _ Hl Hk) as (v & Hv & Hnz). exact (Hnz (Hzero v Hv)).
Qed.

(** A run without other goroutines. *)
Fixpoint exec_inputs (ins : list input) (s : stream) (w : server) : option (list action * stream * server) :=
  match ins with
  | [] => Some ([], s, w)
  | i :: ins =>
      '(acts, s, w) ← stream_step i s w;
      '(acts', s, w) ← exec_inputs ins s w;
      Some (acts ++ acts', s, w)
  end.

Lemma exec_inputs_run ins s w acts s' w' s0 acts0 :
  stream_run s0 acts0 s → exec_inputs ins s w = Some (acts, s', w') → stream_run s0 (acts0 ++ acts) s'.
Proof.
  revert s w acts acts0. induction ins as [|i ins IH]; intros s w acts acts0 Hrun; cbn [exec_inputs].
  - intros [= <- <- <-]. by rewrite app_nil_r.
  - destruct (stream_step i s w) as [[[a1 s1] w1]|] eqn:Hs; [|by intros [=]]. cbn [mbind option_bind].
    destruct (exec_inputs ins s1 w1) as [[[a2 s2] w2]|] eqn:He; [|by intros [=]]. cbn [mbind option_bind].
    intros [= <- <- <-]. rewrite app_assoc. eapply IH; [|exact He]. by eapply run_step.
Qed.

End Service.

(** ** Witnesses *)

Module Example.
#[local] Existing Instance Reference.badger.

Definition T : Z := Store.Example.T.
Definition no_regexp (_ : string) : result (string → bool) := Err "no regexp".
Definition no_float (_ : string) : option float64 := None.

Definition bash : Alerting.Rule :=
  Alerting.MkRule "bash_execution" "" "exec" [Alerting.MkCondition "comm" "eq" "bash"] "warning" "Bash".
Definition engine : option Alerting.Engine := Some (Alerting.New (Some (Alerting.MkRuleSet [bash]))).

(** A collector with a token for web-01. *)
Definition server0 : server :=
  MkServer AgentTokens.Example.s1 (Registry.Register T "web-01" "h" "10.0.0.7" "1" "" Registry.New).2
    (Some (Anomaly.New [])) None (Some Metrics.no_metrics).

Definition ctx_of (auth : string) : context := Ctx (Some "10.0.0.7:41000") (Some [auth]) None.
Definition authed : context := with_authed (ctx_of ("Bearer " +:+ AgentTokens.Example.token)) "web-01".

(** A process of root. *)
Definition exec_msg (id node : string) : KernelEvent :=
  MkKernelEvent id node 1767225600000000000 EventType_EXEC
    (Some (KernelEvent_Exec (MkExec 4242 1 "bash" "bash -i" "/" 0))).

(** A message of its own, with one alert, and one in another node's name. *)
Definition inputs0 : list input :=
  [IRecv None (Message (exec_msg "e1" "web-01")) 1 None; IHeartbeat T; ISaveEvent Completes T T;
   IEvaluate (λ _, ("a1", T)) "a2" (Clock 1 T); ISaveAlert Completes T; INotify; ISend None;
   IRecv None (Message (exec_msg "e2" "db-01")) 2 None].

Definition run0 : option (list action * stream * server) :=
  exec_inputs no_regexp no_float Quote engine inputs0 (new_stream 0 authed) server0.
Definition acts0 : list action := from_option (λ x, x.1.1) [] run0.
Definition stream0 : stream := from_option (λ x, x.1.2) (new_stream 0 authed) run0.

Definition alert0 : Alert := MkAlert "a1" "bash_execution" "web-01" "e1" T "Bash" "warning".

Lemma acts0_eq :
  acts0 =
  [ARecv (exec_msg "e1" "web-01") 1 true; AHeartbeat "web-01"; ASaveEvent (storedEvent (exec_msg "e1" "web-01")) T T true;
   ASaveAlert alert0 T true; ANotify alert0; AAck true; ARecv (exec_msg "e2" "db-01") 2 true; AAck false].
Proof. vm_compute. reflexivity. Qed.

Lemma run0_Some : is_Some run0.
Proof.
  assert (match run0 with Some _ => true | None => false end = true) as Hx by (vm_compute; reflexivity).
  by destruct run0.
Qed.

Lemma stream_run0 : stream_run no_regexp no_float Quote engine (new_stream 0 authed) acts0 stream0.
Proof.
  destruct run0_Some as [[[a s] w] Hr]. unfold acts0, stream0. rewrite Hr. cbn [from_option].
  eapply (exec_inputs_run _ _ _ _ _ _ _ _ _ _ _ []); [constructor|exact Hr].
Qed.

Lemma exec_wire_ok id node : wire_ok (exec_msg id node).
Proof. by vm_compute. Qed.

Definition tcp_msg : KernelEvent :=
  MkKernelEvent "e3" "web-01" 1767225600000000000 EventType_TCP
    (Some (KernelEvent_Tcp (MkTcp 4242 "nc" "10.0.0.7" 40000 "203.0.113.9" 31337 "connect"))).

Lemma tcp_wire_ok : wire_ok tcp_msg.
Proof. by vm_compute. Qed.

Definition root_rule : Alerting.Rule :=
  Alerting.MkRule "root_exec" "" "exec" [Alerting.MkCondition "uid" "lt" "1000"] "warning" "Root".

End Example.
Import Example.
#[local] Existing Instance Reference.badger.

Lemma stream_protocol_witness : protocol "web-01" (at_pc stream0) acts0.
Proof. apply (stream_protocol _ _ _ _ 0 authed acts0 stream0 stream_run0). Defined.

Lemma authenticated_identity_witness :
  ∃ node token vs rec,
    cx_authorization (ctx_of ("Bearer " +:+ AgentTokens.Example.token)) = Some (("Bearer " +:+ token) :: vs) ∧
    AgentTokens.Example.m1 !! node = Some rec ∧ matches (hashToken token) rec ∧
    Forall (only_as node) acts0.
Proof.
  apply (authenticated_identity no_regexp no_float Quote engine AgentTokens.Example.m1 T (T + Hour)
           (ctx_of ("Bearer " +:+ AgentTokens.Example.token)) authed AgentTokens.Example.s1 0 acts0 stream0
           AgentTokens.Example.holds_s1);
    [by vm_compute|done|vm_compute; reflexivity|apply stream_run0].
Defined.

Lemma stream_rate_bound_witness :
  (inject_Z (Z.of_nat (saves acts0))
   <= 4000 + 2000 * TokenBucket.elapsed 0 2 + 2000 * TokenBucket.elapsed 0 2 * (1 # 10 ^ 15)
      + inject_Z 2 * (1 # 10 ^ 12))%Q.
Proof.
  assert (TokenBucket.last (limiter stream0) = 2) as Hl by (vm_compute; reflexivity).
  rewrite <-Hl. apply (stream_rate_bound _ _ _ _ 0 authed acts0 stream0 stream_run0).
  rewrite acts0_eq. simpl. lia.
Defined.

Lemma absent_field_unmatched_witness :
  Alerting.rule_matches no_regexp no_float (storedEvent (exec_msg "e1" "web-01")) root_rule = false.
Proof.
  apply (absent_field_unmatched no_regexp no_float (exec_msg "e1" "web-01") root_rule
           (Alerting.MkCondition "uid" "lt" "1000")); [apply exec_wire_ok|left|].
  intros v. change (hd "" _) with "uid". cbn. rewrite !elem_of_cons, elem_of_nil. naive_solver.
Defined.

End Receiver.
