(* ===== verification/ShippedRules.v ===== *)
(** * The shipped alerting rules ([rules.yaml])

    The four rules of the repository's rules file, and exactly which events
    they fire on: through the JSON the payload is stored as ([Receiver]), its
    decoding into a map and the evaluation of the conditions ([Alerting]). *)

From S2P Require Import Prelude GoStrings GoFloat GoTime GoJson GoUtf8 GoValue StoreData Pb Codec Badger Store AgentToken.
From S2P Require Import Registry Anomaly TokenBucket Validate Notify Alerting Metrics Receiver.
Import GoStrings GoTime GoJson GoUtf8 GoValue Pb Store Receiver.

Module ShippedRules.

Definition mock_proc_detection : Alerting.Rule :=
  Alerting.MkRule "mock_proc_detection" "Detect mock process (for testing)" "exec"
    [Alerting.MkCondition "comm" "eq" "mock-proc"] "info" "Mock process execution detected".

Definition high_uid_exec : Alerting.Rule :=
  Alerting.MkRule "high_uid_exec" "Detect execution by high UID (suspicious)" "exec"
    [Alerting.MkCondition "uid" "gt" "500"] "warning" "Process execution by high UID detected".

Definition bash_execution : Alerting.Rule :=
  Alerting.MkRule "bash_execution" "Detect execution of bash shell" "exec"
    [Alerting.MkCondition "comm" "eq" "bash"] "warning" "Bash shell execution detected".

Definition tcp_to_suspicious_port : Alerting.Rule :=
  Alerting.MkRule "tcp_to_suspicious_port" "Alert on connections to high ports" "tcp"
    [Alerting.MkCondition "dport" "gt" "10000"] "warning" "TCP connection to non-standard port detected".

Definition shipped : Alerting.RuleSet :=
  Alerting.MkRuleSet [mock_proc_detection; high_uid_exec; bash_execution; tcp_to_suspicious_port].

(** ** The payload as a map *)

Inductive field := FStr (s : string) | FInt (z : Z).

Definition member (p : string * field) : list (string * string) :=
  match p.2 with FStr s => str_member p.1 s | FInt z => int_member p.1 z end.

(** The value of a field in the decoded map: zero and empty are left out. *)
Definition field_value (f : field) : option value :=
  match f with
  | FStr s => if s =s "" then None else Some (VStr s)
  | FInt z => if z =? 0 then None else VNum <$> decimal_float (Itoa z)
  end.

Definition field_json (f : field) : option json :=
  match f with
  | FStr s => if s =s "" then None else Some (JStr s)
  | FInt z => if z =? 0 then None else Some (JNum (Itoa z))
  end.

Definition field_ok (p : string * field) : Prop :=
  Valid_utf8 p.1 ∧ match p.2 with FStr s => Valid_utf8 s | FInt z => Z.abs z < 2 ^ 53 end.

Definition entries (fs : list (string * field)) : list (string * value) :=
  omap (λ p, (p.1,.) <$> field_value p.2) fs.
Definition parsed (fs : list (string * field)) : list (string * json) :=
  omap (λ p, (p.1,.) <$> field_json p.2) fs.

Lemma fields_text n fs :
  Forall field_ok fs → Forall2 (λ kt kv, to_valid_utf8 kt.1 = kv.1 ∧ Text n kv.2 kt.2) (fs ≫= member) (parsed fs).
Proof.
  induction 1 as [|[k f] fs [Hk Hf] Hfs IH]; [constructor|]. cbn [fst snd] in *. rewrite bind_cons.
  unfold parsed, member. cbn [omap list_omap fst snd]. destruct f as [s|z]; cbn [field_json].
  - unfold str_member. case_bool_decide; [exact IH|]. constructor; [|exact IH]. split; [exact Hk|].
    pose proof (Text_Quote n s) as Hq. rewrite (Hf : to_valid_utf8 s = s) in Hq. exact Hq.
  - unfold int_member. destruct (z =? 0); [exact IH|]. constructor; [|exact IH]. split; [exact Hk|].
    apply Text_Itoa. lia.
Qed.

Lemma set_entry_new {A} (l : list (string * A)) k v : k ∉ l.*1 → set_entry l k v = l ++ [(k, v)].
Proof.
  intros Hk. unfold set_entry. f_equal. apply filter_all. apply Forall_forall. intros p Hp <-.
  apply Hk. by apply list_elem_of_fmap_2.
Qed.

Lemma parsed_entries fs acc :
  Forall field_ok fs → NoDup fs.*1 → (∀ k, k ∈ fs.*1 → k ∉ acc.*1) →
  object_entries (parsed fs) acc = Some (acc ++ entries fs).
Proof.
  intros Hfs. revert acc. induction Hfs as [|[k f] fs [_ Hf] Hfs IH]; intros acc Hnd Hdis.
  { simpl. by rewrite app_nil_r. }
  rewrite fmap_cons in Hnd, Hdis. apply NoDup_cons in Hnd as [Hni Hnd]. cbn [fst snd] in *.
  assert (∀ j v, field_json f = Some j → field_value f = Some v → value_of j = Some v →
    object_entries (parsed ((k, f) :: fs)) acc = Some (acc ++ entries ((k, f) :: fs))) as Hone.
  { intros j v Hj Hv Hjv. unfold parsed, entries. cbn [omap list_omap fst snd]. rewrite Hj, Hv.
    cbn [fmap option_fmap option_map object_entries]. rewrite Hjv. cbn [mbind option_bind].
    rewrite set_entry_new by (apply Hdis; left). fold (parsed fs) (entries fs). rewrite IH, <-app_assoc; [done|done|].
    intros k' Hk'. rewrite fmap_app, elem_of_app. intros [Ha|Ha%list_elem_of_singleton].
    - apply (Hdis k'); [by right|done].
    - by subst. }
  assert (field_json f = None → field_value f = None →
    object_entries (parsed ((k, f) :: fs)) acc = Some (acc ++ entries ((k, f) :: fs))) as Hnone.
  { intros Hj Hv. unfold parsed, entries. cbn [omap list_omap fst snd]. rewrite Hj, Hv.
    apply IH; [done|]. intros k' Hk'. apply Hdis. by right. }
  destruct f as [s|z]; cbn [field_json field_value] in *.
  - case_bool_decide; [by apply Hnone|by eapply Hone].
  - destruct (z =? 0); [by apply Hnone|]. destruct (decimal_float_Itoa z Hf) as (r & Hr & _).
    eapply Hone; [done|by rewrite Hr|]. simpl. by rewrite Hr.
Qed.

Lemma unmarshal_fields fs :
  Forall field_ok fs → NoDup fs.*1 → unmarshal_map (encode_object (fs ≫= member)) = Some (entries fs).
Proof.
  intros Hfs Hnd. unfold unmarshal_map.
  rewrite (parse_document_Text (JObj (parsed fs)))
    by (rewrite nesting_object; apply Text_object; by apply fields_text).
  cbn [mbind option_bind]. rewrite value_of_object, parsed_entries by (done || set_solver). done.
Qed.

Lemma entries_keys fs : (entries fs).*1 ⊆ fs.*1.
Proof.
  intros k (p & -> & Hp)%list_elem_of_fmap. apply list_elem_of_omap in Hp as (q & Hq & Hv).
  destruct (field_value q.2); [|done]. injection Hv as <-. exact (list_elem_of_fmap_2 fst fs q Hq).
Qed.

Lemma map_get_cons k v (m : list (string * value)) f : map_get ((k, v) :: m) f = if decide (k = f) then Some v else map_get m f.
Proof. unfold map_get. simpl. repeat case_decide; try done. by destruct (list_find _ m) as [[]|]. Qed.

Lemma map_get_entries fs k f :
  NoDup fs.*1 → (k, f) ∈ fs → map_get (entries fs) k = field_value f.
Proof.
  induction fs as [|[k' f'] fs IH]; intros Hnd Hin; [by apply elem_of_nil in Hin|].
  rewrite fmap_cons in Hnd. apply NoDup_cons in Hnd as [Hni Hnd]. unfold entries. cbn [omap list_omap fst snd].
  fold (entries fs). apply elem_of_cons in Hin as [[= -> ->]|Hin].
  - destruct (field_value f') as [v|]; cbn [fmap option_fmap option_map].
    + rewrite map_get_cons. by rewrite decide_True.
    + unfold map_get. rewrite map_get_None; [done|]. intros Hk. by apply Hni, entries_keys.
  - assert (k' ≠ k) as Hne by (intros ->; apply Hni; exact (list_elem_of_fmap_2 fst fs (k, f) Hin)).
    destruct (field_value f') as [v|]; cbn [fmap option_fmap option_map]; [|by apply IH].
    rewrite map_get_cons, decide_False by done. by apply IH.
Qed.

(** *** Executions *)

Definition exec_fields (x : ExecEvent) : list (string * field) :=
  [("pid", FInt (ex_Pid x)); ("ppid", FInt (ex_Ppid x)); ("comm", FStr (ex_Comm x));
   ("cmdline", FStr (ex_Cmdline x)); ("cwd", FStr (ex_Cwd x)); ("uid", FInt (ex_Uid x))].

Lemma exec_fields_members x : exec_members x = exec_fields x ≫= member.
Proof. unfold exec_members, exec_fields. rewrite !bind_cons. cbn [member fst snd mbind list_bind]. by rewrite app_nil_r. Qed.

Lemma exec_fields_NoDup x : NoDup (exec_fields x).*1.
Proof. apply (bool_decide_unpack _). reflexivity. Qed.
Lemma member_names e l : payload_members e = Some l → "dport" ∉ l.*1.
Proof.
  assert (∀ name s, "dport" ≠ name → "dport" ∉ (str_member name s).*1) as Hs.
  { intros name s Hn. unfold str_member. case_bool_decide; simpl; set_solver. }
  assert (∀ name z, "dport" ≠ name → "dport" ∉ (int_member name z).*1) as Hi.
  { intros name z Hn. unfold int_member. destruct (z =? 0); simpl; set_solver. }
  unfold payload_members.
  assert (∀ x, "dport" ∉ (exec_members x).*1) as H1.
  { intros x. unfold exec_members. rewrite !fmap_app, !not_elem_of_app. repeat split; auto. }
  assert (∀ x, "dport" ∉ (tcp_members x).*1) as H2.
  { intros x. unfold tcp_members. rewrite !fmap_app, !not_elem_of_app. repeat split; auto. }
  assert (∀ x, "dport" ∉ (file_members x).*1) as H3.
  { intros x. unfold file_members. rewrite !fmap_app, !not_elem_of_app. repeat split; auto. }
  repeat case_match; intros (x & _ & ->)%fmap_Some || done; auto.
Qed.

Section Rules.
Context (regexp : string → result (string → bool)).
Context (other_float : string → option GoValue.float64).
Context (quote_go : string → string).

Abbreviation matches := (Alerting.rule_matches regexp other_float).

(** A rule with one condition, on an event whose payload decodes. *)
Lemma one_condition e c ty m id d sev msg :
  unmarshal_map (eventPayload e) = Some m →
  matches (storedEvent e) (Alerting.MkRule id d ty [c] sev msg)
  = (bool_decide (ty = "*") || (ty =s eventTypeName e)) && Alerting.matchCondition regexp other_float m c.
Proof.
  intros Hm. unfold Alerting.rule_matches, Alerting.matchConditions. cbn [Alerting.ru_EventType Alerting.ru_Conditions].
  change (ev_Type (storedEvent e)) with (eventTypeName e). change (ev_Payload (storedEvent e)) with (eventPayload e).
  rewrite Hm. cbn [forallb]. rewrite andb_true_r. by destruct (bool_decide (ty = "*")), (ty =s eventTypeName e).
Qed.

Lemma comm_condition x s :
  s ≠ "" → Alerting.matchCondition regexp other_float (entries (exec_fields x)) (Alerting.MkCondition "comm" "eq" s)
  = (ex_Comm x =s s).
Proof.
  intros Hs. unfold Alerting.matchCondition. cbn [Alerting.cd_Field Alerting.cd_Operator Alerting.cd_Value].
  change (Alerting.getFieldValue (entries (exec_fields x)) "comm") with
    (v ← map_get (entries (exec_fields x)) "comm"; Some v).
  rewrite (map_get_entries _ _ (FStr (ex_Comm x))) by (apply exec_fields_NoDup || (unfold exec_fields; set_solver)).
  cbn [field_value]. case_bool_decide as He; cbn [mbind option_bind]; [|done].
  rewrite He. symmetry. by apply bool_decide_eq_false_2.
Qed.

Lemma uid_condition x :
  0 <= ex_Uid x < 2 ^ 32 →
  Alerting.matchCondition regexp other_float (entries (exec_fields x)) (Alerting.MkCondition "uid" "gt" "500")
  = (500 <? ex_Uid x).
Proof.
  intros Hu. assert (Alerting.getFieldValue (entries (exec_fields x)) "uid" = field_value (FInt (ex_Uid x))) as Hg.
  { change (Alerting.getFieldValue (entries (exec_fields x)) "uid") with
      (v ← map_get (entries (exec_fields x)) "uid"; Some v).
    rewrite (map_get_entries _ _ (FInt (ex_Uid x))) by (apply exec_fields_NoDup || (unfold exec_fields; set_solver)).
    by destruct (field_value _). }
  cbn [field_value] in Hg. destruct (Z.eqb_spec (ex_Uid x) 0) as [E|E].
  - unfold Alerting.matchCondition. cbn [Alerting.cd_Field]. rewrite Hg, E. done.
  - destruct (decimal_float_Itoa (ex_Uid x)) as (r & Hr & _); [lia|]. rewrite Hr in Hg.
    change "500" with (Itoa 500). eapply (Alerting.integer_comparison regexp other_float); [exact Hg|exact Hr|lia|done].
Qed.

Lemma exec_type e : (eventTypeName e =s "exec") = (Type_ e =? EventType_EXEC).
Proof.
  unfold eventTypeName. destruct (Type_ e =? EventType_EXEC); [done|].
  repeat case_match; try done.
Qed.

(** Rules on executions never fire on anything else. *)
Lemma other_type e id d c sev msg :
  (Type_ e =? EventType_EXEC) = false → matches (storedEvent e) (Alerting.MkRule id d "exec" c sev msg) = false.
Proof.
  intros Ht. unfold Alerting.rule_matches. cbn [Alerting.ru_EventType].
  change (ev_Type (storedEvent e)) with (eventTypeName e).
  assert (("exec" <>s eventTypeName e) = true) as ->; [|done].
  rewrite <-exec_type in Ht. apply bool_decide_eq_false_1 in Ht.
  apply negb_true_iff, bool_decide_eq_false_2. congruence.
Qed.

Lemma port_rule_dead e : wire_ok e → matches (storedEvent e) tcp_to_suspicious_port = false.
Proof. intros Hw. eapply absent_field_match; [done|left|]. intros l Hl. by apply member_names in Hl. Qed.

Lemma Evaluate_ids fresh ev rules :
  al_RuleID <$> Alerting.Evaluate regexp other_float fresh ev (Alerting.New (Some rules))
  = Alerting.ru_ID <$> filter (λ r, matches ev r = true) (Alerting.rs_Rules rules).
Proof.
  unfold Alerting.Evaluate. rewrite Alerting.evaluate_loop_spec. cbn [Alerting.New Alerting.en_rules default from_option].
  rewrite fmap_imap. apply (imap_const (Alerting.ru_ID)).
Qed.

Lemma exec_payload e x :
  wire_ok e → Validate.validateKernelEvent e = None → Type_ e = EventType_EXEC → GetExec e = Some x →
  unmarshal_map (eventPayload e) = Some (entries (exec_fields x)) ∧ 0 <= ex_Uid x < 2 ^ 32.
Proof.
  intros (_ & _ & Hw) Hv Ht Hx. assert (Payload e = Some (KernelEvent_Exec x)) as Hp.
  { unfold GetExec in Hx. destruct (Payload e) as [[]|]; congruence. }
  rewrite Hp in Hw. destruct Hw as (Hpid & Hppid & Huid). unfold in_uint32 in *. split; [|done].
  apply Validate.validateKernelEvent_clean in Hv. unfold Validate.stored_strings in Hv.
  rewrite Ht, Hx in Hv. cbn in Hv. rewrite !Forall_cons in Hv. destruct Hv as (_ & _ & Hcomm & Hcmd & Hcwd & _).
  unfold eventPayload, payload_members. rewrite Ht, Hx. cbn [Z.eqb EventType_EXEC fmap option_fmap option_map].
  rewrite exec_fields_members. apply unmarshal_fields; [|apply exec_fields_NoDup].
  unfold exec_fields. repeat (apply Forall_cons_2; [split; [reflexivity|cbn [snd]; first [by apply clean_valid|lia]]|]).
  apply Forall_nil_2.
Qed.

(** The identifiers of the rules that are to fire on an event. *)
Definition fires (e : KernelEvent) : list string :=
  if Type_ e =? EventType_EXEC then
    match GetExec e with
    | Some x =>
        (if ex_Comm x =s "mock-proc" then ["mock_proc_detection"] else []) ++
        (if 500 <? ex_Uid x then ["high_uid_exec"] else []) ++
        (if ex_Comm x =s "bash" then ["bash_execution"] else [])
    | None => []
    end
  else [].

(** C15: What the shipped rules do.  The rule set passes validation, and on an
    accepted event its alerts are, in this order: [mock_proc_detection] for an
    execution whose command is mock-proc, [high_uid_exec] for one with a user
    id above 500 and [bash_execution] for one whose command is bash; nothing
    else fires.  So [tcp_to_suspicious_port] never does: its field is named
    [dport], which no payload has. *)
Theorem shipped_rules_exact fresh e :
  wire_ok e → Validate.validateKernelEvent e = None →
  Alerting.Validate regexp quote_go shipped = None ∧
  al_RuleID <$> Alerting.Evaluate regexp other_float fresh (storedEvent e) (Alerting.New (Some shipped)) = fires e.
Proof.
  intros Hw Hv. split; [reflexivity|]. rewrite Evaluate_ids. cbn [Alerting.rs_Rules shipped].
  rewrite !filter_cons, filter_nil, (port_rule_dead e Hw). unfold fires.
  destruct (Type_ e =? EventType_EXEC) eqn:Ht.
  - pose proof Ht as Hexec. rewrite <-exec_type in Hexec. apply Z.eqb_eq in Ht.
    assert (bool_decide ("exec" = "*") || ("exec" =s eventTypeName e) = true) as Hty.
    { apply bool_decide_eq_true_1 in Hexec. by rewrite Hexec. }
    destruct (GetExec e) as [x|] eqn:Hx.
    + destruct (exec_payload e x Hw Hv Ht Hx) as [Hm Hu].
      unfold mock_proc_detection, high_uid_exec, bash_execution. rewrite !(one_condition e _ _ _ _ _ _ _ Hm), Hty.
      rewrite !comm_condition, uid_condition by done. cbn [andb].
      destruct (500 <? ex_Uid x); repeat case_bool_decide; simpl; done.
    + assert (unmarshal_map (eventPayload e) = Some []) as Hm.
      { unfold eventPayload, payload_members. rewrite Ht, Hx. reflexivity. }
      unfold mock_proc_detection, high_uid_exec, bash_execution. rewrite !(one_condition e _ _ _ _ _ _ _ Hm), Hty. done.
  - unfold mock_proc_detection, high_uid_exec, bash_execution. rewrite !other_type by done. done.
Qed.

End Rules.

(** ** Witness *)

(** A bash started by user 1000. *)
Definition bash_msg : KernelEvent :=
  MkKernelEvent "e1" "web-01" 1767225600000000000 EventType_EXEC
    (Some (KernelEvent_Exec (MkExec 4242 1 "bash" "bash -i" "/" 1000))).

Lemma shipped_rules_exact_witness :
  Alerting.Validate Receiver.Example.no_regexp Quote shipped = None ∧
  al_RuleID <$> Alerting.Evaluate Receiver.Example.no_regexp Receiver.Example.no_float (λ _, ("a", 0))
    (storedEvent bash_msg) (Alerting.New (Some shipped)) = ["high_uid_exec"; "bash_execution"].
Proof.
  apply (shipped_rules_exact Receiver.Example.no_regexp Receiver.Example.no_float Quote (λ _, ("a", 0)) bash_msg).
  - by vm_compute.
  - vm_compute. reflexivity.
Defined.

End ShippedRules.
