(* ===== verification/StreamProgress.v ===== *)
(** * A message is dealt with in boundedly many steps

    Between two receives a stream ([Receiver.stream_step]) runs through the
    parts of its loop body, the other goroutines changing the shared state in
    between at will.  [rank] bounds the parts still to run; the only loop
    inside is over the alerts of the event, at most one per rule and one of the
    detector. *)

From S2P Require Import Prelude GoStrings GoTime GoJson GoValue StoreData Pb Codec Badger Store AgentToken.
From S2P Require Import Registry Anomaly TokenBucket Validate Notify Alerting Metrics Receiver.
Import GoStrings GoTime GoJson Pb Store Receiver.

Module StreamProgress.

Section Progress.
Context `{Badger}.
Context (regexp : string → result (string → bool)).
Context (other_float : string → option GoValue.float64).
Context (quote_go : string → string).
Context (engine : option Alerting.Engine).

Abbreviation step := (stream_step regexp other_float quote_go engine).

Definition rule_count : nat :=
  match engine with Some en => length (Alerting.rs_Rules (Alerting.en_rules en)) | None => 0%nat end.

Definition rank (p : pc) : nat :=
  match p with
  | Waiting | Returned _ => 0
  | Alerts _ l => 1 + 2 * length l
  | Notifying _ _ l => 2 + 2 * length l
  | Evaluating _ _ => 4 + 2 * rule_count
  | Saving _ => 5 + 2 * rule_count
  | Accepted _ => 6 + 2 * rule_count
  end.

Lemma breach_loop_length uuid now e key d l :
  (length (Anomaly.breach_loop quote_go uuid now e key d l) <= 1)%nat.
Proof. induction l as [|w l IH]; cbn [Anomaly.breach_loop]; [simpl; lia|]. by destruct (_ >? _). Qed.

Lemma evaluate_length fresh uuid now e w alerts w' :
  evaluate regexp other_float quote_go engine fresh uuid now e w = (alerts, w') →
  (length alerts <= rule_count + 1)%nat.
Proof.
  assert (length match engine with Some en => Alerting.Evaluate regexp other_float fresh e en | None => [] end
          <= rule_count)%nat as Hrules.
  { unfold rule_count. destruct engine as [en|]; [|done]. unfold Alerting.Evaluate.
    rewrite Alerting.evaluate_loop_spec, length_imap. apply length_filter. }
  unfold evaluate. destruct (detector w) as [d|]; [|intros [= <- <-]; lia].
  unfold Anomaly.Record. intros [= <- <-]. rewrite length_app.
  match goal with |- context [Anomaly.breach_loop ?q ?u ?n ?e ?k ?d ?l] =>
    pose proof (breach_loop_length u n e k d l) end. lia.
Qed.

(** Every part but the receive brings the message nearer to its end. *)
Lemma step_rank i s w acts s' w' :
  at_pc s ≠ Waiting → step i s w = Some (acts, s', w') → (rank (at_pc s') < rank (at_pc s))%nat.
Proof.
  intros Hpc. unfold stream_step.
  destruct (at_pc s) as [|e|e|ev r|ok [|al rest]|al ok rest|err]; [done|..];
    destruct i as [| |sch received now|fresh uuid now|sch now| |sent]; try (by intros [=]).
  - intros [= <- <- <-]. simpl. lia.
  - destruct (save_event _ _ _ _ _) as [r x]. intros [= <- <- <-]. simpl. lia.
  - destruct (evaluate _ _ _ _ _ _ _ _ _) as [alerts w1] eqn:He. intros [= <- <- <-].
    apply evaluate_length in He. simpl. lia.
  - intros [= <- <- <-]. destruct sent; simpl; lia.
  - destruct (save_alert _ _ _ _) as [r x]. intros [= <- <- <-]. simpl. lia.
  - intros [= <- <- <-]. simpl. lia.
Qed.

Lemma recv_rank i s w acts s' w' :
  at_pc s = Waiting → step i s w = Some (acts, s', w') → (rank (at_pc s') <= 6 + 2 * rule_count)%nat.
Proof.
  unfold stream_step. intros ->. destruct i as [done msg now sent| | | | | |]; try (by intros [=]).
  destruct (recv_step done msg now sent s) as [acts1 s1] eqn:Hr. intros [= <- <- <-]. revert Hr.
  unfold recv_step, send. destruct done; [intros [= _ <-]; simpl; lia|].
  destruct msg as [|err|e]; [intros [= _ <-]; simpl; lia..|].
  destruct (TokenBucket.allow now (limiter s)) as [[] b]; simpl; [|destruct sent; intros [= _ <-]; simpl; lia].
  destruct (Validate.validateKernelEvent e); [destruct sent; intros [= _ <-]; simpl; lia|].
  destruct (_ && _); [destruct sent; intros [= _ <-]; simpl; lia|]. intros [= _ <-]. simpl. lia.
Qed.

(** The input a stream waits for: its next message, or whatever the clock, the
    store and the connection give the part at hand. *)
Definition awaits (p : pc) (i : input) : Prop :=
  match p, i with
  | Waiting, IRecv _ _ _ _ | Accepted _, IHeartbeat _ | Saving _, ISaveEvent _ _ _
  | Evaluating _ _, IEvaluate _ _ _ | Alerts _ (_ :: _), ISaveAlert _ _
  | Alerts _ [], ISend _ | Notifying _ _ _, INotify => True
  | _, _ => False
  end.

(** No part of the loop can be stuck, whatever it is given. *)
Lemma step_enabled i s w : awaits (at_pc s) i ↔ is_Some (step i s w).
Proof.
  unfold stream_step, awaits.
  destruct (at_pc s) as [|e|e|ev r|ok [|al rest]|al ok rest|err];
    destruct i as [stop msg now sent| |sch received now|fresh uuid now|sch now| |sent];
    try (split; [done|by intros []]); (split; [intros _|done]);
    repeat case_match; by eexists.
Qed.

Lemma some_input p : (∃ err, p = Returned err) ∨ ∃ i, awaits p i.
Proof.
  destruct p as [|e|e|ev r|ok [|al rest]|al ok rest|err]; [right..|left; eauto].
  - by exists (IRecv None EOF 0 None).
  - by exists (IHeartbeat 0).
  - by exists (ISaveEvent Completes 0 0).
  - by exists (IEvaluate (λ _, ("", 0)) "" (Clock 0 0)).
  - by exists (ISend None).
  - by exists (ISaveAlert Completes 0).
  - by exists INotify.
Qed.

(** [n] parts of the loop body after a receive, each on a shared state of its
    own. *)
Inductive part_run (s : stream) : nat → stream → Prop :=
| part_start : part_run s 0 s
| part_step n s1 i w acts s2 w' :
    part_run s n s1 → at_pc s1 ≠ Waiting → step i s1 w = Some (acts, s2, w') → part_run s (S n) s2.

Lemma part_run_rank s n s' : part_run s n s' → (n + rank (at_pc s') <= rank (at_pc s))%nat.
Proof.
  induction 1 as [|n s1 i w acts s2 w' _ IH Hpc Hstep]; [done|]. apply step_rank in Hstep; [lia|done].
Qed.

(** C9: Every message is dealt with in boundedly many steps.  From a receive on,
    whatever the other goroutines do to the shared state in between, the
    stream runs at most six parts and two for each rule before it waits for
    the next message or returns; and until it returns it is never stuck:
    some input moves it on, whatever the shared state is. *)
Theorem message_terminates i s w acts s1 w1 n s2 :
  at_pc s = Waiting → step i s w = Some (acts, s1, w1) → part_run s1 n s2 →
  (n <= 6 + 2 * rule_count)%nat ∧
  ((∃ err, at_pc s2 = Returned err) ∨ ∃ i2, ∀ w2, is_Some (step i2 s2 w2)).
Proof.
  intros Hpc Hstep Hrun. apply recv_rank in Hstep; [|done]. apply part_run_rank in Hrun. split; [lia|].
  destruct (some_input (at_pc s2)) as [?|[i2 Hi]]; [by left|right]. exists i2. intros w2. by apply step_enabled.
Qed.

(** As a function: the parts for the given inputs, all but the first after a
    receive. *)
Fixpoint run_parts (ins : list input) (s : stream) (w : server) : option stream :=
  match ins with
  | [] => Some s
  | i :: ins =>
      match at_pc s with
      | Waiting => None
      | _ => match step i s w with Some (_, s', w') => run_parts ins s' w' | None => None end
      end
  end.

Lemma run_parts_run ins s w s' s0 n :
  part_run s0 n s → run_parts ins s w = Some s' → part_run s0 (n + length ins) s'.
Proof.
  revert s w n. induction ins as [|i ins IH]; intros s w n Hrun; cbn [run_parts].
  { intros [= <-]. by rewrite Nat.add_0_r. }
  assert (at_pc s ≠ Waiting → match step i s w with Some (_, s', w') => run_parts ins s' w' | None => None end = Some s' →
    part_run s0 (n + S (length ins)) s') as Hgo.
  { intros Hpc. destruct (step i s w) as [[[acts s1] w1]|] eqn:Hs; [|done]. intros Hr.
    rewrite Nat.add_succ_r, <-Nat.add_succ_l. eapply IH, Hr. by eapply part_step. }
  destruct (at_pc s); try (by intros); by apply Hgo.
Qed.

End Progress.

(** ** Witness *)

Module Example.
#[local] Existing Instance Reference.badger.
Import Receiver.Example.

Definition step0 := stream_step no_regexp no_float Quote engine.
Definition first : option (list action * stream * server) :=
  match inputs0 with i :: _ => step0 i (new_stream 0 authed) server0 | [] => None end.
Definition s1 : stream := from_option (λ x, x.1.2) (new_stream 0 authed) first.
Definition s2 : stream :=
  default s1 (run_parts no_regexp no_float Quote engine (take 6 (drop 1 inputs0)) s1 server0).

End Example.
Import Example.
#[local] Existing Instance Reference.badger.

Lemma message_terminates_witness :
  (6 <= 6 + 2 * rule_count Receiver.Example.engine)%nat ∧
  ((∃ err, at_pc s2 = Returned err) ∨
   ∃ i2, ∀ w2, is_Some (stream_step Receiver.Example.no_regexp Receiver.Example.no_float Quote Receiver.Example.engine i2 s2 w2)).
Proof.
  destruct first as [[[acts s] w]|] eqn:Hf; [|exfalso].
  - eapply (message_terminates Receiver.Example.no_regexp Receiver.Example.no_float Quote Receiver.Example.engine
      (IRecv None (Message (Receiver.Example.exec_msg "e1" "web-01")) 1 None)
      (new_stream 0 Receiver.Example.authed) Receiver.Example.server0 acts s w 6 s2); [reflexivity|exact Hf|].
    assert (s1 = s) as <- by (unfold s1; by rewrite Hf).
    apply (run_parts_run _ _ _ _ (take 6 (drop 1 Receiver.Example.inputs0)) s1 Receiver.Example.server0 s2 s1 0); [constructor|].
    assert (match run_parts Receiver.Example.no_regexp Receiver.Example.no_float Quote Receiver.Example.engine
      (take 6 (drop 1 Receiver.Example.inputs0)) s1 Receiver.Example.server0 with Some _ => true | None => false end = true)
      as Hx by (vm_compute; reflexivity).
    unfold s2. by destruct (run_parts _ _ _ _ _ s1 _).
  - assert (match first with Some _ => true | None => false end = true) as Hx by (vm_compute; reflexivity).
    rewrite Hf in Hx. discriminate Hx.
Defined.

End StreamProgress.
