(* ===== verification/Collector.v ===== *)
(** * The running collector

    The gRPC service ([internal/receiver]) with the goroutines that share its
    state: the streams, the registrations, the heartbeat checker, the
    detector's garbage collector, the store's writes left behind and the
    deliveries of notifications, in any interleaving.

    [sys_step] is one step of one goroutine; [reaches] are the runs, with the
    log of a kind of records the store keeps ([StoreLog.Log]) and the actions of
    the streams as ghost state; a run starts on a database that holds the
    records of a log, such as the one an earlier run left.  The clock readings
    of the steps that read or write the database do not decrease along a run.
    [covers] is what a kind of records owes the invariant: every save of the
    streams is of a record that can be read back and stems from a message. *)

From S2P Require Import Prelude GoStrings GoTime GoJson GoUtf8 GoValue StoreData Pb Codec Badger.
From S2P Require Import Store StoreLog AgentToken Registry NodeCodec Anomaly TokenBucket Validate Notify Alerting Metrics Receiver.
Import GoStrings GoTime GoJson GoUtf8 Pb Store StoreLog AgentTokens Receiver.

Module Collector.

Section System.
Context `{Badger}.
Context (regexp : string → result (string → bool)).
Context (other_float : string → option GoValue.float64).
Context (quote_go : string → string).
Context (engine : option Alerting.Engine) (defaultRegion : string).
Context (authEnabled : bool) (timeout evictAfter : Z).

Record system := MkSystem { sy_server : server; sy_streams : gmap nat stream }.

Inductive label :=
| LOpen (id : nat) (ctx : context) (sch : schedule) (now start : Z)
| LStream (id : nat) (i : input)
| LRegister (ctx : context) (sch : schedule) (now seen : Z) (req : RegisterRequest)
| LCheck (o : map_order string Registry.AgentNode) (now : Z)
| LGC (o : map_order Anomaly.windowKey (list Z)) (now : Z)
| LBackground (i : nat) (now : Z)
| LCollect (now : Z)
| LGate (i : nat) (now : Z)
| LFinish (i : nat).

Abbreviation step_stream := (stream_step regexp other_float quote_go engine).

Definition on_server (σ : system) (w : server) : system := MkSystem w (sy_streams σ).

Definition sys_step (l : label) (σ : system) : option (list (nat * action) * system) :=
  let w := sy_server σ in
  match l with
  | LOpen id ctx sch now start =>
      match sy_streams σ !! id with
      | Some _ => None
      | None =>
          match streamAuthInterceptor sch now (st w) authEnabled ctx with
          | inl _ => Some ([], σ)
          | inr ctx => Some ([], MkSystem w (<[id := new_stream start ctx]> (sy_streams σ)))
          end
      end
  | LStream id i =>
      match sy_streams σ !! id with
      | None => None
      | Some s =>
          match step_stream i s w with
          | None => None
          | Some (acts, s, w) => Some ((id,.) <$> acts, MkSystem w (<[id := s]> (sy_streams σ)))
          end
      end
  | LRegister ctx sch now seen req =>
      match unaryAuthInterceptor sch now (st w) authEnabled ctx
              (λ ctx, (Register defaultRegion seen ctx req w).2) with
      | inl _ => Some ([], σ)
      | inr w => Some ([], on_server σ w)
      end
  | LCheck o now =>
      Some ([], on_server σ (with_reg w (Registry.markStaleInactive o now timeout evictAfter (reg w))))
  | LGC o now => Some ([], on_server σ (with_detector w (Anomaly.gc o now <$> detector w)))
  | LBackground i now => Some ([], on_server σ (with_st w (background i now (st w))))
  | LCollect now => Some ([], on_server σ (with_st w (RunValueLogGC now (st w)).2))
  | LGate i now => Some ([], on_server σ (with_notifier w ((λ d, (Notify.gate i now d).2) <$> notifier w)))
  | LFinish i => Some ([], on_server σ (with_notifier w (Notify.finish i <$> notifier w)))
  end.

(** ** Ghost state *)

(** The operation of the store a step performs. *)
Definition store_op (l : label) (σ : system) : option op :=
  match l with
  | LStream id (ISaveEvent sch received now) =>
      match at_pc <$> sy_streams σ !! id with
      | Some (Saving e) => Some (OpSaveEvent sch received now (storedEvent e))
      | _ => None
      end
  | LStream id (ISaveAlert sch now) =>
      match at_pc <$> sy_streams σ !! id with
      | Some (Alerts _ (al :: _)) => Some (OpSaveAlert sch now al)
      | _ => None
      end
  | LBackground i now => Some (OpBackground i now)
  | LCollect now => Some (OpCollect now)
  | _ => None
  end.

Definition log_step {A} `{Kind A} (l : label) (σ : system) (lg : Log A) : Log A :=
  match store_op l σ with
  | Some o => log_op o (exec_op o (st (sy_server σ))).1 lg
  | None => lg
  end.

(** The clock reading of a step on the database. *)
Definition db_time (l : label) (t : Z) : Z :=
  match l with
  | LOpen _ _ _ now _ | LRegister _ _ now _ _ | LBackground _ now | LCollect now
  | LStream _ (ISaveEvent _ _ now) | LStream _ (ISaveAlert _ now) => now
  | _ => t
  end.

(** What arrives is what the wire format and the clock can deliver. *)
Definition label_ok (l : label) : Prop :=
  match l with
  | LStream _ (IRecv _ (Message e) _ _) => wire_ok e
  | LStream _ (IHeartbeat now) => year_ok now
  | LRegister ctx _ _ seen _ => Valid_utf8 (peerIP ctx) ∧ year_ok seen
  | LStream _ (IEvaluate fresh uuid now) =>
      (∀ k, Valid_utf8 (fresh k).1 ∧ year_ok (fresh k).2) ∧ Valid_utf8 uuid ∧ year_ok (wall now)
  | _ => True
  end.

Inductive reaches {A} `{Kind A} (lg0 : Log A) (σ0 : system) (t0 : Z) : Log A → Z → list (nat * action) → system → Prop :=
| reach_start : reaches lg0 σ0 t0 lg0 t0 [] σ0
| reach_step lg t acts σ l acts' σ' :
    reaches lg0 σ0 t0 lg t acts σ → label_ok l → t <= db_time l t →
    sys_step l σ = Some (acts', σ') →
    reaches lg0 σ0 t0 (log_step l σ lg) (db_time l t) (acts ++ acts') σ'.

(** ** The store *)

Lemma on_metrics_st f w : st (on_metrics f w) = st w.
Proof. done. Qed.

(** A step changes the store by its operation and nothing else. *)
Lemma sys_step_store l σ acts σ' :
  sys_step l σ = Some (acts, σ') →
  st (sy_server σ') = match store_op l σ with
                      | Some o => (exec_op o (st (sy_server σ))).2
                      | None => st (sy_server σ)
                      end.
Proof.
  destruct l as [id ctx sch now start|id i|ctx sch now seen req|o now|o now|i now|now|i now|i]; cbn [sys_step store_op].
  - destruct (sy_streams σ !! id); [by intros [=]|].
    destruct (streamAuthInterceptor _ _ _ _ _); by intros [= <- <-].
  - destruct (sy_streams σ !! id) as [s|]; [|by intros [=]].
    cbn [fmap option_fmap option_map]. unfold stream_step.
    destruct (at_pc s) as [|e|e|ev r|ok [|al rest]|al ok rest|err];
      destruct i as [done msg now sent| |sch received now|fresh uuid now|sch now| |sent];
      try (by intros [=]).
    + destruct (recv_step done msg now sent s) as [acts1 s1].  by intros [= <- <-].
    + by intros [= <- <-].
    + pose proof (save_event_effect sch received now (storedEvent e) (sy_server σ)) as Hs.
      destruct (save_event _ _ _ _ _) as [ok w]. intros [= <- <-]. destruct Hs as (_ & Hs & _).
      cbn [exec_op sy_server]. rewrite Hs. by destruct (SaveEvent _ _ _ _ _).
    + destruct (evaluate _ _ _ _ _ _ _ _ _) as [alerts w1] eqn:He.  intros [= <- <-].
      revert He. unfold evaluate. destruct (detector _) as [d|]; [|by intros [= <- <-]].
      destruct (Anomaly.Record _ _ _ _ _) as [a2 d']. by intros [= <- <-].
    + by intros [= <- <-].
    + pose proof (save_alert_effect sch now al (sy_server σ)) as Hs.
      destruct (save_alert _ _ _ _) as [r w]. intros [= <- <-]. destruct Hs as (_ & Hs & _).
      cbn [exec_op sy_server]. rewrite Hs. by destruct (SaveAlert _ _ _ _).
    + by intros [= <- <-].
  - unfold unaryAuthInterceptor. destruct (checkAuth _ _ _ _ _) as [|nodeID]; intros [= <- <-]; [done|].
    cbn [sy_server on_server]. unfold Register. destruct (Validate.validateRegisterRequest _); [done|].
    destruct (_ && _); [done|]. by destruct (Registry.Register _ _ _ _ _ _ _) as [[] ?].
  - by intros [= <- <-].
  - by intros [= <- <-].
  - by intros [= <- <-].
  - intros [= <- <-]. cbn [sy_server on_server exec_op]. by destruct (RunValueLogGC _ _).
  - by intros [= <- <-].
  - by intros [= <- <-].
Qed.

(** The log is a ghost: a run at one kind of records is one at every other. *)
Lemma reaches_kind {A B} `{Kind A} `{Kind B} (lg0 lg : Log A) (lg0' : Log B) σ0 t0 t acts σ :
  reaches lg0 σ0 t0 lg t acts σ → ∃ lg', reaches lg0' σ0 t0 lg' t acts σ.
Proof. induction 1 as [|? ? ? ? ? ? ? _ [lg' IH]]; eexists; [apply reach_start|by eapply reach_step]. Qed.

(** ** The log along a run *)

Section Kind.
Context {A : Type} `{Kind A}.
Implicit Types (lg : Log A).

Definition log_all (P : A → Prop) lg : Prop :=
  (∀ k a x, lg_records lg !! k = Some (a, x) → P a) ∧ (∀ k a, Some (k, a) ∈ lg_waiting lg → P a).

Lemma log_all_impl (P Q : A → Prop) lg : (∀ a, P a → Q a) → log_all P lg → log_all Q lg.
Proof. intros HPQ [Hr Hw]. split; eauto. Qed.

Lemma log_insert_all (P : A → Prop) ok k now a m :
  (∀ k a x, m !! k = Some (a, x) → P a) → P a →
  ∀ k' a' x, log_insert ok k now a m !! k' = Some (a', x) → P a'.
Proof.
  intros Hm Hk k' a' x. unfold log_insert. destruct ok; [|apply Hm].
  destruct (decide (k' = k)) as [->|Hne].
  - rewrite lookup_insert_eq. by intros [= <- _].
  - rewrite lookup_insert_ne by done. apply Hm.
Qed.

Lemma elem_of_delete {B} i (l : list B) x : x ∈ delete i l → x ∈ l.
Proof.
  revert i. induction l as [|y l IH]; intros [|i]; simpl; [done..|by right|].
  intros [->|Hx]%elem_of_cons; [left|right; eauto].
Qed.

Lemma log_op_all P o ok lg :
  log_all P lg → match kind_record o with Some (_, a) => P a | None => True end → log_all P (log_op o ok lg).
Proof.
  intros [Hrec Hwait] Ho. destruct (op_write o) as [[[[|err] k] r]|] eqn:Hw.
  - rewrite (log_op_save _ _ _ _ _ _ Hw). destruct (kind_record o) as [[k' a]|]; [|done].
    split; [by apply log_insert_all|done].
  - rewrite (log_op_save _ _ _ _ _ _ Hw). split; [done|]. cbn [lg_waiting].
    intros k' a [Hin|Hin%list_elem_of_singleton]%elem_of_app; [eauto|]. by rewrite <-Hin in Ho.
  - destruct o as [| |i now|now]; [done..| |done]. cbn [log_op].
    assert (∀ k a, Some (k, a) ∈ delete i (lg_waiting lg) → P a) as Hdel by eauto using elem_of_delete.
    destruct (lg_waiting lg !! i) as [[[k a]|]|] eqn:Hi; [|by split..].
    split; [|done]. apply log_insert_all; [done|]. by eapply Hwait, list_elem_of_lookup_2.
Qed.

Lemma log_insert_keeps ok k0 now a0 (m : gmap string (A * Z)) k n a x :
  m !! k = Some (a, x) → expires_at n DefaultRetention <= x → n <= now →
  ∃ a' x', log_insert ok k0 now a0 m !! k = Some (a', x') ∧ expires_at n DefaultRetention <= x' ∧
    (a' = a ∨ k = k0 ∧ a' = a0).
Proof.
  intros Hm Hx Hn. unfold log_insert. destruct ok; [|eauto 10].
  destruct (decide (k = k0)) as [->|Hne]; [rewrite lookup_insert_eq|rewrite lookup_insert_ne by done; eauto 10].
  eexists _, _. split; [done|]. split; [|auto]. unfold expires_at. apply Z.div_le_mono; [done|lia].
Qed.

(** An entry of the log stays, or a later one takes its place: the one the
    operation saves, or one that was waiting. *)
Lemma log_op_keeps o ok lg k n a x :
  lg_records lg !! k = Some (a, x) → expires_at n DefaultRetention <= x → n <= op_now o →
  ∃ a' x', lg_records (log_op o ok lg) !! k = Some (a', x') ∧ expires_at n DefaultRetention <= x' ∧
    (a' = a ∨ kind_record o = Some (k, a') ∨ Some (k, a') ∈ lg_waiting lg).
Proof.
  intros Hm Hx Hn. destruct (op_write o) as [[[[|err] k1] r]|] eqn:Hw.
  - rewrite (log_op_save _ _ _ _ _ _ Hw). destruct (kind_record o) as [[k0 a0]|]; [|eauto 10]. cbn [lg_records].
    edestruct (log_insert_keeps ok k0 (op_now o) a0) as (a' & x' & Hl' & Hx' & Hor); [done..|].
    exists a', x'. naive_solver.
  - rewrite (log_op_save _ _ _ _ _ _ Hw). cbn [lg_records]. eauto 10.
  - destruct o as [| |i now|now]; [done..| |eauto 10]. cbn [log_op op_now] in *.
    destruct (lg_waiting lg !! i) as [[[k0 a0]|]|] eqn:Hi; [|cbn [lg_records]; eauto 10..]. cbn [lg_records].
    edestruct (log_insert_keeps ok k0 now a0) as (a' & x' & Hl' & Hx' & Hor); [done..|].
    exists a', x'. split; [done|]. split; [done|]. destruct Hor as [->|[-> ->]]; [by left|].
    right; right. by eapply list_elem_of_lookup_2.
Qed.

(** A write waits because it waited before or because the operation left it. *)
Lemma log_op_waiting o ok lg k a :
  Some (k, a) ∈ lg_waiting (log_op o ok lg) →
  Some (k, a) ∈ lg_waiting lg ∨ kind_record o = Some (k, a) ∧ ∃ err k' r, op_write o = Some (Cancelled err, k', r).
Proof.
  destruct (op_write o) as [[[[|err] k1] r]|] eqn:Hw.
  - rewrite (log_op_save _ _ _ _ _ _ Hw). destruct (kind_record o) as [[k0 a0]|]; cbn [lg_waiting]; auto.
  - rewrite (log_op_save _ _ _ _ _ _ Hw). cbn [lg_waiting].
    intros [Hin|Hin%list_elem_of_singleton]%elem_of_app; [auto|right]. split; [done|eauto].
  - destruct o as [| |i now|now]; [done..| |by left]. cbn [log_op].
    destruct (lg_waiting lg !! i) as [[[k0 a0]|]|]; cbn [lg_waiting]; eauto using elem_of_delete.
Qed.

(** A record the log started with. *)
Definition kept lg a : Prop := ∃ k x, lg_records lg !! k = Some (a, x).

End Kind.

(** ** The invariant *)

(** The texts of rules and messages the detector quotes are valid UTF-8. *)
Definition texts_ok : Prop := engine_ok engine ∧ ∀ s, ascii_only s → ascii_only (quote_go s).

Abbreviation raised := (raised regexp other_float quote_go engine).

(** An alert of a message, with a time that can be written, and texts that can
    be read back where the rules' can. *)
Definition alert_of (m : KernelEvent) (al : Alert) : Prop :=
  about m al ∧ raised m al ∧ year_ok (al_Timestamp al) ∧ (texts_ok → codec_ok al).

(** Some message with the property arrived on the stream and was accepted. *)
Definition from_message (id : nat) (s : stream) (acts : list (nat * action)) (P : KernelEvent → Prop) : Prop :=
  ∃ m now, (id, ARecv m now true) ∈ acts ∧ wire_ok m ∧ acceptable (authedNodeID s) m ∧ P m.

(** What a stream works on came from its agent. *)
Definition pc_ok (id : nat) (s : stream) (acts : list (nat * action)) : Prop :=
  match at_pc s with
  | Accepted e | Saving e => from_message id s acts (λ m, m = e)
  | Evaluating ev _ => from_message id s acts (λ m, ev = storedEvent m)
  | Alerts _ l | Notifying _ _ l => from_message id s acts (λ m, Forall (alert_of m) l)
  | _ => True
  end.

(** A record with its source: a message that arrived on some stream, passed
    validation and named the node the stream is authenticated as. *)
Definition sourced (acts : list (nat * action)) (streams : gmap nat stream) (P : KernelEvent → Prop) : Prop :=
  ∃ id s, streams !! id = Some s ∧ from_message id s acts P.

(** An event is the record of its message; an alert is about its message and
    was raised by a rule that holds for it or by the detector, with texts that
    can be read back. *)
Definition genuine acts streams (e : Event) : Prop := sourced acts streams (λ m, e = storedEvent m).
Definition genuine_alert acts streams (al : Alert) : Prop :=
  sourced acts streams (λ m, about m al ∧ raised m al ∧ codec_ok al).

Definition streams_ok (acts : list (nat * action)) (σ : system) : Prop :=
  ∀ id s, sy_streams σ !! id = Some s → pc_ok id s acts.

(** The saves of a step are of records of the kind that can be read back, each
    with its source. *)
Definition covers (A : Type) `{Kind A} (src : KernelEvent → A → Prop) : Prop :=
  ∀ l σ acts o, streams_ok acts σ → store_op l σ = Some o →
    op_ok A o ∧ match kind_record o with
                | Some (_, a) => sourced acts (sy_streams σ) (λ m, src m a)
                | None => True
                end.

Record invariant {A} `{Kind A} (src : KernelEvent → A → Prop) (lg0 lg : Log A) (t : Z)
    (acts : list (nat * action)) (σ : system) : Prop := {
  inv_refines : refines (st (sy_server σ)) lg t;
  inv_log : log_all (λ a, kept lg0 a ∨ sourced acts (sy_streams σ) (λ m, src m a)) lg;
}.

Lemma from_message_more id s acts acts' P : from_message id s acts P → from_message id s (acts ++ acts') P.
Proof. intros (m & now & Hin & Hm). exists m, now. rewrite elem_of_app. auto. Qed.

Lemma from_message_impl id s s' acts (P Q : KernelEvent → Prop) :
  authedNodeID s' = authedNodeID s → (∀ m, wire_ok m → acceptable (authedNodeID s) m → P m → Q m) →
  from_message id s acts P → from_message id s' acts Q.
Proof. intros Ha HPQ (m & now & Hin & Hw & Hacc & HP). exists m, now. rewrite Ha. auto. Qed.

Lemma pc_ok_more id s acts acts' : pc_ok id s acts → pc_ok id s (acts ++ acts').
Proof. unfold pc_ok. destruct (at_pc s); try done; apply from_message_more. Qed.

Lemma sourced_more acts acts' streams streams' P :
  (∀ id s, streams !! id = Some s → ∃ s', streams' !! id = Some s' ∧ authedNodeID s' = authedNodeID s) →
  sourced acts streams P → sourced (acts ++ acts') streams' P.
Proof.
  intros Hs (id & s & (s' & Hs' & Ha)%Hs & Hm). exists id, s'. split; [done|].
  apply from_message_more. by eapply from_message_impl.
Qed.

(** Streams stay, with the identity they were opened with. *)
Lemma sys_step_streams l σ acts σ' id s :
  sys_step l σ = Some (acts, σ') → sy_streams σ !! id = Some s →
  ∃ s', sy_streams σ' !! id = Some s' ∧ authedNodeID s' = authedNodeID s.
Proof.
  intros Hstep Hs.
  destruct l as [id' ctx sch now start|id' i|ctx sch now seen req|o now|o now|i now|now|i now|i]; cbn [sys_step] in Hstep;
    try (injection Hstep as <- <-; by exists s).
  - destruct (sy_streams σ !! id') eqn:Hid; [done|].
    destruct (streamAuthInterceptor _ _ _ _ _); injection Hstep as <- <-; [by exists s|].
    exists s. cbn [sy_streams]. rewrite lookup_insert_ne by congruence. done.
  - destruct (sy_streams σ !! id') as [s0|] eqn:Hid; [|done].
    destruct (step_stream i s0 (sy_server σ)) as [[[acts1 s1] w1]|] eqn:Hst; [|done].
    injection Hstep as <- <-. cbn [sy_streams]. destruct (decide (id = id')) as [->|Hne].
    + exists s1. rewrite lookup_insert_eq. split; [done|]. replace s with s0 by congruence.
      by eapply stream_step_authed.
    + exists s. by rewrite lookup_insert_ne.
  - destruct (unaryAuthInterceptor _ _ _ _ _ _); injection Hstep as <- <-; by exists s.
Qed.

Lemma evaluated_alert fresh uuid now m al :
  (∀ k, Valid_utf8 (fresh k).1 ∧ year_ok (fresh k).2) ∧ Valid_utf8 uuid ∧ year_ok (wall now) →
  codec_ok (storedEvent m) →
  evaluated regexp other_float quote_go engine fresh uuid now (storedEvent m) al → alert_of m al.
Proof.
  intros (Hf & Hu & Hy) Hm He. split; [by eapply evaluated_about|]. split; [by eapply evaluated_raised|]. split.
  - destruct He as [(en & r & k & _ & _ & _ & ->)|(count & w & _ & ->)]; [apply Hf|done].
  - intros [Hen Hq]. by eapply evaluated_ok.
Qed.

Lemma recv_step_pc id done msg now sent s acts0 acts s' :
  match msg with Message e => wire_ok e | _ => True end →
  at_pc s = Waiting → recv_step done msg now sent s = (acts, s') →
  pc_ok id s' (acts0 ++ ((id,.) <$> acts)).
Proof.
  intros Hw Hpc. unfold recv_step, send, pc_ok.
  destruct done; [by intros [= _ <-]|]. destruct msg as [|err|e]; [by intros [= _ <-]..|].
  destruct (TokenBucket.allow now (limiter s)) as [[] b]; simpl; [|by destruct sent; intros [= _ <-]].
  destruct (Validate.validateKernelEvent e) eqn:Hv; [by destruct sent; intros [= _ <-]|].
  destruct (_ && _) eqn:Hn; [by destruct sent; intros [= _ <-]|].
  intros [= <- <-]. exists e, now. split; [apply elem_of_app; right; by left|]. split; [done|]. split; [|done].
  split; [done|]. apply andb_false_iff in Hn as [Hn|Hn]; apply negb_false_iff, bool_decide_eq_true in Hn; auto.
Qed.

(** A stream's step keeps its program counter justified. *)
Lemma stream_step_pc id i s w acts0 acts s' w' :
  label_ok (LStream id i) → pc_ok id s acts0 → step_stream i s w = Some (acts, s', w') →
  pc_ok id s' (acts0 ++ ((id,.) <$> acts)).
Proof.
  intros Hl Hpc Hstep. unfold stream_step in Hstep. unfold pc_ok in Hpc.
  destruct (at_pc s) as [|e|e|ev r|ok [|al rest]|al ok rest|err] eqn:Hp;
    destruct i as [done msg now sent| |sch received now|fresh uuid now|sch now| |sent]; try discriminate Hstep.
  - destruct (recv_step done msg now sent s) as [acts1 s1] eqn:Hr. injection Hstep as <- <- <-.
    eapply recv_step_pc; [|exact Hp|exact Hr]. by destruct msg.
  - injection Hstep as <- <- <-. by apply from_message_more.
  - destruct (save_event _ _ _ _ _) as [r x]. injection Hstep as <- <- <-.
    apply from_message_more. eapply from_message_impl, Hpc; [done|]. by intros m _ _ ->.
  - destruct (evaluate _ _ _ _ _ _ _ _ _) as [alerts w1] eqn:He. injection Hstep as <- <- <-.
    apply evaluate_evaluated in He. apply from_message_more. eapply from_message_impl, Hpc; [done|].
    intros m Hw [Hv _] ->. eapply Forall_impl; [exact He|]. intros al. apply evaluated_alert; [exact Hl|].
    by apply storedEvent_ok.
  - injection Hstep as <- <- <-. by destruct sent.
  - destruct (save_alert _ _ _ _) as [r x]. injection Hstep as <- <- <-.
    apply from_message_more. eapply from_message_impl, Hpc; [done|]. by intros m _ _ [_ Hm]%Forall_cons.
  - injection Hstep as <- <- <-. by apply from_message_more.
Qed.

Lemma sys_step_pc l σ acts σ' acts0 :
  label_ok l → sys_step l σ = Some (acts, σ') →
  (∀ id s, sy_streams σ !! id = Some s → pc_ok id s acts0) →
  ∀ id s, sy_streams σ' !! id = Some s → pc_ok id s (acts0 ++ acts).
Proof.
  intros Hl Hstep Hall id s Hs. specialize (Hall id) as Hid.
  destruct l as [id' ctx sch now start|id' i|ctx sch now seen req|o now|o now|i now|now|i now|i]; cbn [sys_step] in Hstep;
    try (injection Hstep as <- <-; by apply pc_ok_more, Hid).
  - destruct (sy_streams σ !! id'); [done|].
    destruct (streamAuthInterceptor _ _ _ _ _); injection Hstep as <- <-; [by apply pc_ok_more, Hid|].
    cbn [sy_streams] in Hs. destruct (decide (id = id')) as [->|Hne].
    + rewrite lookup_insert_eq in Hs. by injection Hs as <-.
    + rewrite lookup_insert_ne in Hs by done. by apply pc_ok_more, Hid.
  - destruct (sy_streams σ !! id') as [s0|] eqn:Hs0; [|done].
    destruct (step_stream i s0 (sy_server σ)) as [[[acts1 s1] w1]|] eqn:Hst; [|done].
    injection Hstep as <- <-. cbn [sy_streams] in Hs. destruct (decide (id = id')) as [->|Hne].
    + rewrite lookup_insert_eq in Hs. injection Hs as <-. eapply stream_step_pc; [exact Hl| |exact Hst]. by apply Hid.
    + rewrite lookup_insert_ne in Hs by done. by apply pc_ok_more, Hid.
  - destruct (unaryAuthInterceptor _ _ _ _ _ _); injection Hstep as <- <-; by apply pc_ok_more, Hid.
Qed.

(** A step's operation is timed by the step. *)
Lemma store_op_now l σ o t : store_op l σ = Some o → op_now o = db_time l t.
Proof.
  destruct l as [|id i| | | |i now|now| |]; cbn [store_op]; try by intros [=].
  - destruct i; try by intros [=].
    + destruct (sy_streams σ !! id) as [s|]; [|by intros [=]]. simpl. destruct (at_pc s); by intros [= <-].
    + destruct (sy_streams σ !! id) as [s|]; [|by intros [=]]. simpl.
      destruct (at_pc s) as [| | | |ok [|al rest]| |]; by intros [= <-].
  - by intros [= <-].
  - by intros [= <-].
Qed.

(** What a step saves. *)
Lemma store_op_cases l σ acts o :
  streams_ok acts σ → store_op l σ = Some o →
  match o with
  | OpSaveEvent _ _ _ e => sourced acts (sy_streams σ) (λ m, codec_ok e ∧ e = storedEvent m)
  | OpSaveAlert _ _ al => sourced acts (sy_streams σ) (λ m, alert_of m al)
  | OpBackground _ _ | OpCollect _ => True
  end.
Proof.
  intros Hall. destruct l as [|id i| | | |i now|now| |]; cbn [store_op]; try by intros [=].
  - destruct i as [| |sch received now| |sch now| |]; try by intros [=].
    + destruct (sy_streams σ !! id) as [s|] eqn:Hs; [|by intros [=]]. cbn [fmap option_fmap option_map].
      specialize (Hall id s Hs). unfold pc_ok in Hall. destruct (at_pc s); try by intros [=].
      intros [= <-]. exists id, s. split; [done|]. eapply from_message_impl, Hall; [done|].
      intros m Hw [Hv _] ->. split; [by apply storedEvent_ok|done].
    + destruct (sy_streams σ !! id) as [s|] eqn:Hs; [|by intros [=]]. cbn [fmap option_fmap option_map].
      specialize (Hall id s Hs). unfold pc_ok in Hall. destruct (at_pc s) as [| | | |ok [|al rest]| |]; try by intros [=].
      intros [= <-]. exists id, s. split; [done|]. eapply from_message_impl, Hall; [done|].
      by intros m _ _ [Hm _]%Forall_cons.
  - by intros [= <-].
  - by intros [= <-].
Qed.

Lemma sourced_impl acts streams (P Q : KernelEvent → Prop) :
  (∀ m, P m → Q m) → sourced acts streams P → sourced acts streams Q.
Proof. intros HPQ (id & s & Hs & Hm). exists id, s. split; [done|]. eapply from_message_impl, Hm; auto. Qed.

Lemma sourced_any acts streams (P : KernelEvent → Prop) (Q : Prop) :
  (∀ m, P m → Q) → sourced acts streams P → Q.
Proof. intros HPQ (id & s & _ & m & now & _ & _ & _ & HP). eauto. Qed.

Lemma alert_marshals al : year_ok (al_Timestamp al) → is_Ok (marshal al) = true.
Proof. intros Hy. unfold marshal, Alert_codec, marshal_alert. by rewrite marshal_time_ok. Qed.

Lemma covers_event : covers Event (λ m e, e = storedEvent m).
Proof.
  intros l σ acts o Hall Ho. pose proof (store_op_cases l σ acts o Hall Ho) as Hc. destruct o as [sch received now e|sch now al|i now|now].
  - assert (codec_ok e) as Hok by (revert Hc; by apply sourced_any; intros m []).
    split; [split; [by apply codec_marshals|done]|]. revert Hc. apply sourced_impl. by intros m [_ ->].
  - split; [split; [|done]|done]. revert Hc. apply sourced_any. intros m (_ & _ & Hy & _). by apply alert_marshals.
  - done.
  - done.
Qed.

Lemma covers_alert : texts_ok → covers Alert (λ m al, about m al ∧ raised m al ∧ codec_ok al).
Proof.
  intros Hok l σ acts o Hall Ho. pose proof (store_op_cases l σ acts o Hall Ho) as Hc. destruct o as [sch received now e|sch now al|i now|now].
  - split; [split; [|done]|done]. revert Hc. apply sourced_any. intros m [He _]. by apply codec_marshals.
  - assert (codec_ok al) as Hcodec by (revert Hc; apply sourced_any; intros m (_ & _ & _ & Hm); auto).
    split; [split; [by apply codec_marshals|done]|]. revert Hc. apply sourced_impl. by intros m (? & ? & _ & _).
  - done.
  - done.
Qed.

(** The saves among actions, with their times and results. *)
Definition record_saves (acts : list (nat * action)) : list ((Event + Alert) * Z * bool) :=
  omap (λ x : nat * action, match x.2 with
                            | ASaveEvent e _ n ok => Some (inl e, n, ok)
                            | ASaveAlert al n ok => Some (inr al, n, ok)
                            | _ => None
                            end) acts.

Lemma record_saves_app a b : record_saves (a ++ b) = record_saves a ++ record_saves b.
Proof. apply omap_app. Qed.

(** The same, with the keys they are saved under. *)
Definition keyed_saves (acts : list (nat * action)) : list (string * (Event + Alert) * Z * bool) :=
  omap (λ x : nat * action, match x.2 with
                            | ASaveEvent e r n ok => Some (event_key r (ev_EventID e), inl e, n, ok)
                            | ASaveAlert al n ok => Some (alert_key al, inr al, n, ok)
                            | _ => None
                            end) acts.

Lemma record_saves_keyed acts : record_saves acts = (λ x : string * (Event + Alert) * Z * bool, (x.1.1.2, x.1.2, x.2)) <$> keyed_saves acts.
Proof.
  unfold record_saves, keyed_saves. induction acts as [|[id x] acts IH]; [done|].
  destruct x; cbn [omap list_omap fmap list_fmap snd]; by rewrite IH.
Qed.

Lemma keyed_saves_app a b : keyed_saves (a ++ b) = keyed_saves a ++ keyed_saves b.
Proof. apply omap_app. Qed.

Lemma keyed_event k e n ok acts :
  (k, inl e, n, ok) ∈ keyed_saves acts → ∃ id r, (id, ASaveEvent e r n ok) ∈ acts ∧ k = event_key r (ev_EventID e).
Proof. intros ([id []] & Hin & Heq)%list_elem_of_omap; try done. injection Heq as <- -> -> ->. eauto. Qed.

Lemma keyed_alert k al n ok acts :
  (k, inr al, n, ok) ∈ keyed_saves acts → ∃ id, (id, ASaveAlert al n ok) ∈ acts ∧ k = alert_key al.
Proof. intros ([id []] & Hin & Heq)%list_elem_of_omap; try done. injection Heq as <- -> -> ->. eauto. Qed.

(** What an operation of the store saves. *)
Definition op_saved (o : op) : option (Event + Alert) :=
  match o with
  | OpSaveEvent _ _ _ e => Some (inl e)
  | OpSaveAlert _ _ al => Some (inr al)
  | OpBackground _ _ | OpCollect _ => None
  end.

(** The same, with its key. *)
Definition op_keyed (o : op) : option (string * (Event + Alert)) :=
  match o with
  | OpSaveEvent _ r _ e => Some (event_key r (ev_EventID e), inl e)
  | OpSaveAlert _ _ al => Some (alert_key al, inr al)
  | OpBackground _ _ | OpCollect _ => None
  end.

Lemma recv_step_saves id done msg now sent s acts s' :
  recv_step done msg now sent s = (acts, s') → keyed_saves ((id,.) <$> acts) = [].
Proof.
  unfold recv_step, send. destruct done; [by intros [= <- _]|]. destruct msg as [|err|m]; [by intros [= <- _]..|].
  destruct (TokenBucket.allow now (limiter s)) as [[] b]; simpl; [|by intros [= <- _]].
  destruct (Validate.validateKernelEvent m); [by intros [= <- _]|]. by destruct (_ && _); intros [= <- _].
Qed.

(** A step's saves are those of its operation. *)
Lemma sys_step_keyed l σ acts σ' :
  sys_step l σ = Some (acts, σ') →
  keyed_saves acts =
  match store_op l σ with
  | Some o => match op_keyed o with Some (k, r) => [(k, r, op_now o, (exec_op o (st (sy_server σ))).1)] | None => [] end
  | None => []
  end.
Proof.
  destruct l as [id' ctx sch now start|id' i|ctx sch now seen req|o now|o now|i now|now|i now|i]; cbn [sys_step store_op].
  2: {
    destruct (sy_streams σ !! id') as [s|]; [|by intros [=]]. cbn [fmap option_fmap option_map]. unfold stream_step.
    destruct (at_pc s) as [|m|m|ev r|ok [|al rest]|al ok rest|err] eqn:Hp;
      destruct i as [done msg now sent| |sch received now|fresh uuid now|sch now| |sent]; try by intros [=].
    - destruct (recv_step done msg now sent s) as [acts1 s1] eqn:Hr. intros [= <- <-]. by eapply recv_step_saves.
    - by intros [= <- <-].
    - pose proof (save_event_effect sch received now (storedEvent m) (sy_server σ)) as Hs.
      destruct (save_event _ _ _ _ _) as [ok w]. intros [= <- <-]. destruct Hs as (-> & _).
      cbn [exec_op op_keyed op_now]. by destruct (SaveEvent _ _ _ _ _).
    - destruct (evaluate _ _ _ _ _ _ _ _ _) as [alerts w1]. by intros [= <- <-].
    - by intros [= <- <-].
    - pose proof (save_alert_effect sch now al (sy_server σ)) as Hs.
      destruct (save_alert _ _ _ _) as [r x]. intros [= <- <-]. destruct Hs as (-> & _).
      cbn [exec_op op_keyed op_now]. by destruct (SaveAlert _ _ _ _).
    - by intros [= <- <-]. }
  1: destruct (sy_streams σ !! id'); [by intros [=]|]; destruct (streamAuthInterceptor _ _ _ _ _).
  3: destruct (unaryAuthInterceptor _ _ _ _ _ _).
  all: by intros [= <- <-].
Qed.

Lemma sys_step_saves l σ acts σ' :
  sys_step l σ = Some (acts, σ') →
  record_saves acts =
  match store_op l σ with
  | Some o => match op_saved o with Some r => [(r, op_now o, (exec_op o (st (sy_server σ))).1)] | None => [] end
  | None => []
  end.
Proof.
  intros Hstep. rewrite record_saves_keyed, (sys_step_keyed _ _ _ _ Hstep).
  destruct (store_op l σ) as [o|]; [|done]. by destruct o.
Qed.

Lemma reaches_streams {A} `{Kind A} (lg0 lg : Log A) σ0 t0 t acts σ :
  sy_streams σ0 = ∅ → reaches lg0 σ0 t0 lg t acts σ → streams_ok acts σ.
Proof.
  intros Hσ0. induction 1 as [|lg t acts σ l acts' σ' _ IH Hl Ht Hstep].
  - intros id s Hs. by rewrite Hσ0, lookup_empty in Hs.
  - intros id s. by eapply sys_step_pc.
Qed.

Lemma invariant_step {A} `{Kind A} (src : KernelEvent → A → Prop) lg0 lg t acts σ l acts' σ' :
  covers A src → streams_ok acts σ → invariant src lg0 lg t acts σ → t <= db_time l t → sys_step l σ = Some (acts', σ') →
  invariant src lg0 (log_step l σ lg) (db_time l t) (acts ++ acts') σ'.
Proof.
  intros Hcov Hs [Hr Hlog] Ht Hstep.
  assert (∀ P, sourced acts (sy_streams σ) P → sourced (acts ++ acts') (sy_streams σ') P) as Hmore.
  { intros P. apply sourced_more. intros id s. by eapply sys_step_streams. }
  assert (log_all (λ a, kept lg0 a ∨ sourced (acts ++ acts') (sy_streams σ') (λ m, src m a)) lg) as Hlog'.
  { eapply log_all_impl, Hlog. intros a [Ha|Ha]; eauto. }
  split; rewrite ?(sys_step_store _ _ _ _ Hstep); unfold log_step; destruct (store_op l σ) as [o|] eqn:Ho;
    [|by eapply refines_later| |done]; destruct (Hcov l σ acts o Hs Ho) as [Hok Hsrc].
  - rewrite <-(store_op_now l σ o t Ho) in Ht |- *.
    eapply exec_op_refines; [exact Hr|exact Hok|exact Ht|apply surjective_pairing].
  - apply log_op_all; [done|]. destruct (kind_record o) as [[k a]|]; eauto.
Qed.

Lemma reaches_invariant {A} `{Kind A} (src : KernelEvent → A → Prop) lg0 σ0 t0 lg t acts σ :
  covers A src → refines (st (sy_server σ0)) lg0 t0 → lg_waiting lg0 = [] → sy_streams σ0 = ∅ →
  reaches lg0 σ0 t0 lg t acts σ → invariant src lg0 lg t acts σ.
Proof.
  intros Hcov Hr Hw Hσ0. induction 1 as [|lg t acts σ l acts' σ' Hrun IH Hl Ht Hstep].
  - split; [done|]. split.
    + intros k a x Hx. left. by exists k, x.
    + intros k a Hin. rewrite Hw in Hin. by apply elem_of_nil in Hin.
  - eapply invariant_step; [done|by eapply reaches_streams|done..].
Qed.

(** A save that waits for its write has failed. *)
Lemma cancelled_fails o s err k r : op_write o = Some (Cancelled err, k, r) → (exec_op o s).1 = false.
Proof.
  destruct o as [sch rec now e|sch now al|i now|now]; cbn [op_write]; [intros [= -> _ _]..|done|done];
    cbn [exec_op]; unfold SaveEvent, SaveAlert, run_write; by destruct (marshal _).
Qed.

(** Every successful save of a kind of records is in its log, under its key,
    until another save of that key takes its place, a later one or one that
    failed before because its context ended; [emb] says which saves are of
    the kind. *)
Section Saved.
Context {A} `{Kind A} (emb : A → Event + Alert).
Context (Hemb : ∀ o k a, op_keyed o = Some (k, emb a) ↔ kind_record o = Some (k, a)).

Lemma reaches_waiting (lg0 lg : Log A) σ0 t0 t acts σ k a :
  lg_waiting lg0 = [] → reaches lg0 σ0 t0 lg t acts σ → Some (k, a) ∈ lg_waiting lg →
  ∃ n, (k, emb a, n, false) ∈ keyed_saves acts.
Proof.
  intros Hw. induction 1 as [|lg t acts σ l acts' σ' _ IH Hl Ht Hstep]; [rewrite Hw; by intros ?%elem_of_nil|].
  rewrite keyed_saves_app. setoid_rewrite elem_of_app. unfold log_step.
  rewrite (sys_step_keyed _ _ _ _ Hstep). destruct (store_op l σ) as [o|] eqn:Ho; [|naive_solver].
  intros [Hin|[Hk (err & k' & r & Hc)]]%log_op_waiting; [naive_solver|].
  rewrite (proj2 (Hemb o k a) Hk), (cancelled_fails _ _ _ _ _ Hc). exists (op_now o). right. by left.
Qed.

Definition replaces (k : string) (a : A) (before after : list (string * (Event + Alert) * Z * bool)) : Prop :=
  ∃ n, (∃ ok, (k, emb a, n, ok) ∈ after) ∨ (k, emb a, n, false) ∈ before.

Lemma replaces_more k a before after more : replaces k a before after → replaces k a before (after ++ more).
Proof. intros (n & [[ok Hin]|Hin]); exists n; [left; exists ok; apply elem_of_app; auto|auto]. Qed.

Lemma reaches_saved (lg0 lg : Log A) σ0 t0 t acts σ before k a n after :
  lg_waiting lg0 = [] → reaches lg0 σ0 t0 lg t acts σ →
  keyed_saves acts = before ++ (k, emb a, n, true) :: after →
  n <= t ∧ ∃ a' x, lg_records lg !! k = Some (a', x) ∧ expires_at n DefaultRetention <= x ∧
    (a' = a ∨ replaces k a' before after).
Proof.
  intros Hw Hr. revert after. induction Hr as [|lg t acts σ l acts' σ' Hr IH Hl Ht Hstep]; intros after.
  { intros Heq. by destruct before. }
  rewrite keyed_saves_app, (sys_step_keyed _ _ _ _ Hstep). unfold log_step.
  destruct (store_op l σ) as [o|] eqn:Ho.
  2: { rewrite app_nil_r. intros (Hn & Hrec)%IH. split; [lia|done]. }
  pose proof (store_op_now l σ o t Ho) as Hnow. set (ok := (exec_op o _).1).
  assert (∀ after' more, keyed_saves acts = before ++ (k, emb a, n, true) :: after' →
    (∀ a', kind_record o = Some (k, a') → ∃ ok n, (k, emb a', n, ok) ∈ more) →
    n <= db_time l t ∧ ∃ a' x, lg_records (log_op o ok lg) !! k = Some (a', x) ∧
      expires_at n DefaultRetention <= x ∧ (a' = a ∨ replaces k a' before (after' ++ more))) as Hkeep.
  { intros after' more Heq Hmore. destruct (IH _ Heq) as (Hn & a1 & x1 & Hlk & Hx & Ha1). split; [lia|].
    destruct (log_op_keeps o ok lg k n a1 x1 Hlk Hx ltac:(lia)) as (a' & x' & Hlk' & Hx' & Ha').
    exists a', x'. split; [done|]. split; [done|]. destruct Ha' as [->|[Hk|Hin]].
    - destruct Ha1 as [->|Ha1]; [by left|right; by apply replaces_more].
    - right. destruct (Hmore a' Hk) as (ok' & n' & Hin). exists n'. left. exists ok'. apply elem_of_app. auto.
    - right. destruct (reaches_waiting _ _ _ _ _ _ _ _ _ Hw Hr Hin) as [n' Hin']. exists n'.
      rewrite Heq in Hin'. apply elem_of_app in Hin' as [?|[?|?]%elem_of_cons]; [auto|done|].
      left. exists false. apply elem_of_app. auto. }
  destruct (op_keyed o) as [[k1 r1]|] eqn:Hk1; cycle 1.
  { rewrite app_nil_r. intros Heq. specialize (Hkeep after [] Heq). rewrite app_nil_r in Hkeep. apply Hkeep.
    intros a' Hk%Hemb. by rewrite Hk in Hk1. }
  destruct after as [|y after _] using rev_ind.
  - intros [Heq Hs]%(app_inj_2 _ _ [_] [_]); [|done]. injection Hs as -> -> <- Hok.
    split; [lia|]. exists a, (expires_at (op_now o) DefaultRetention). split; [|auto with lia].
    rewrite Hok. eapply committed_save; [by apply Hemb|exact Hok].
  - rewrite app_comm_cons, (assoc_L (++)). intros [Heq Hs]%app_inj_2; [|done]. injection Hs as <-.
    apply Hkeep; [done|]. intros a' Hk%Hemb. rewrite Hk1 in Hk. injection Hk as -> ->. eexists _, _. by left.
Qed.
End Saved.

Lemma event_keyed o k e : op_keyed o = Some (k, inl e) ↔ kind_record o = Some (k, e).
Proof. split; destruct o; try done; by intros [= <- ->]. Qed.

Lemma alert_keyed o k al : op_keyed o = Some (k, inr al) ↔ kind_record o = Some (k, al).
Proof. split; destruct o; try done; by intros [= <- ->]. Qed.

(** ** The token table *)

Definition no_token_key (k : string) : Prop := HasPrefix k "agenttoken:" = false.

Lemma event_key_no_token r id : no_token_key (event_key r id).
Proof. reflexivity. Qed.

Lemma alert_key_no_token al : no_token_key (alert_key al).
Proof. reflexivity. Qed.

Lemma holds_other s m t k v ttl now d :
  holds s m t → t <= now → no_token_key k → set (db s) now k v ttl = Ok d → holds (with_db s d) m now.
Proof.
  intros [Hn Hs Hc] Ht Hk Hset. split; cbn [db with_db].
  - exact Hn.
  - intros now' k' r Hnow Hp Hin. apply (items_set _ _ _ _ _ _ _ _ _ Hset Hnow) in Hin as [(-> & _)|[_ Hin]].
    + unfold no_token_key in Hk. congruence.
    + apply (Hs now'); [lia|done..].
  - intros now' node rec Hnow Hl. destruct (Hc now' node rec) as [r Hr]; [lia|done|]. exists r.
    apply (items_set _ _ _ _ _ _ _ _ _ Hset Hnow). right. split; [|done]. intros <-.
    unfold no_token_key in Hk. by rewrite agentTokenKey_prefix in Hk.
Qed.

Lemma holds_collect s m t d : holds s m t → collect (db s) t = Ok d → holds (with_db s d) m t.
Proof.
  intros [Hn Hs Hc] Hd. split; cbn [db with_db]; [done|..].
  - intros now k r Hnow. rewrite (items_collect _ _ _ _ Hd Hnow). by apply Hs.
  - intros now node rec Hnow. rewrite (items_collect _ _ _ _ Hd Hnow). by apply Hc.
Qed.

Lemma holds_later s m t t' : holds s m t → t <= t' → holds s m t'.
Proof.
  intros [Hn Hs Hc] Ht. split; [done|..].
  - intros now k r Hnow. apply Hs. lia.
  - intros now node rec Hnow. apply Hc. lia.
Qed.

Lemma holds_db s s' m t : holds s m t → db s' = db s → holds s' m t.
Proof. intros [Hn Hs Hc] Hdb. split; rewrite ?Hdb; done. Qed.

(** The writes left behind are none of tokens. *)
Definition tokens_inv (m : gmap string AgentToken) (t : Z) (s : Store) : Prop :=
  holds s m t ∧ Forall (λ w, no_token_key (w_key w)) (pending s).

Lemma run_write_tokens m t sch w now s :
  tokens_inv m t s → t <= now → no_token_key (w_key w) → tokens_inv m now (run_write sch w now s).2.
Proof.
  intros [Hh Hp] Ht Hk. destruct sch as [|err]; cbn [run_write].
  - unfold commit. destruct (set _ _ _ _ _) as [d|] eqn:Hset; cbn [snd].
    + split; [by eapply holds_other|done].
    + split; [by eapply holds_later|done].
  - split; [eapply holds_later, Ht; by eapply holds_db|]. cbn [pending snd].
    apply Forall_app. split; [done|by apply Forall_singleton].
Qed.

Lemma exec_op_tokens m t o s :
  tokens_inv m t s → t <= op_now o → tokens_inv m (op_now o) (exec_op o s).2.
Proof.
  intros Hi Ht. assert (tokens_inv m (op_now o) s) as Hi'.
  { destruct Hi. split; [by eapply holds_later|done]. }
  destruct o as [sch received now e|sch now a|i now|now]; cbn [exec_op op_now] in *.
  - unfold SaveEvent. destruct (marshal e) as [val|]; [|done].
    pose proof (run_write_tokens m t sch (Write (event_key received (ev_EventID e)) val (Some (retention s))) now s
      Hi Ht (event_key_no_token _ _)) as Hw.
    destruct (run_write _ _ _ _) as [[] x]; [|exact Hw]. destruct Hw as [Hw Hp].
    split; [by eapply holds_db|done].
  - unfold SaveAlert. destruct (marshal a) as [val|]; [|done].
    pose proof (run_write_tokens m t sch (Write (alert_key a) val (Some (retention s))) now s
      Hi Ht (alert_key_no_token _)) as Hw.
    by destruct (run_write _ _ _ _) as [r x].
  - unfold background. destruct (pending s !! i) as [w|] eqn:Hw; [|done]. destruct Hi' as [Hh Hp].
    assert (tokens_inv m now (MkStore (db s) (retention s) (counters s) (delete i (pending s)))) as Hd.
    { split; [by eapply holds_db|]. cbn [pending]. apply Forall_forall. intros w' Hin%elem_of_delete.
      rewrite Forall_forall in Hp. by apply Hp. }
    assert (no_token_key (w_key w)) as Hk by (exact (Forall_lookup_1 _ _ _ _ Hp Hw)).
    exact (run_write_tokens m now Completes w now _ Hd (Z.le_refl _) Hk).
  - unfold RunValueLogGC. destruct (collect (db s) now) as [d|] eqn:Hc; [|done]. destruct Hi' as [Hh Hp].
    split; [by eapply holds_collect|done].
Qed.

(** *** Who is known to the collector *)

(** Every stream and every registered node has an active token. *)
Record auth_inv (m : gmap string AgentToken) (t : Z) (σ : system) : Prop := {
  auth_tokens : tokens_inv m t (st (sy_server σ));
  auth_streams : ∀ id s, sy_streams σ !! id = Some s →
    ∃ rec, m !! authedNodeID s = Some rec ∧ active rec = true;
  auth_nodes : ∀ node n, Registry.nodes (reg (sy_server σ)) !! node = Some n →
    ∃ rec, m !! node = Some rec ∧ active rec = true;
}.

Lemma checkAuth_node sch now ctx s m t nodeID :
  holds s m t → t <= now → checkAuth sch now ctx s true = inr nodeID →
  ∃ rec, m !! nodeID = Some rec ∧ active rec = true.
Proof.
  intros Hh Ht. unfold checkAuth. cbn [negb].
  destruct (cx_authorization ctx) as [[|v vs]|]; [done| |done]. destruct (CutPrefix v "Bearer ") as [token|]; [|done].
  destruct sch as [|err]; [|done]. rewrite (holds_lookup _ _ _ _ _ Hh Ht).
  destruct (table_lookup m token) as [node []] eqn:Hl; [|done]. intros [= <-].
  apply table_lookup_true in Hl as (rec & Hm & [Ha _]); [eauto|]. intros. by eapply holds_node.
Qed.

(** The nodes a registration leaves are the old ones and its own. *)
Lemma Register_nodes now ctx req w node n :
  authedNodeIDFromContext ctx ≠ "" →
  Registry.nodes (reg (Register defaultRegion now ctx req w).2) !! node = Some n →
  node = authedNodeIDFromContext ctx ∨ is_Some (Registry.nodes (reg w) !! node).
Proof.
  intros Ha. unfold Register. destruct (Validate.validateRegisterRequest req); [by right; eexists|].
  destruct (_ && _) eqn:Hn; [by right; eexists|].
  assert (rq_NodeId req = authedNodeIDFromContext ctx) as <-.
  { apply andb_false_iff in Hn as [Hn|Hn]; apply negb_false_iff, bool_decide_eq_true in Hn; done. }
  unfold Registry.Register. destruct (rq_NodeId req =s ""); [by right; eexists|].
  destruct (Registry.nodes (reg w) !! rq_NodeId req); simpl;
    (destruct (decide (node = rq_NodeId req)) as [->|Hne]; [by left|]); rewrite lookup_insert_ne by done;
    intros Hl; right; by eexists.
Qed.

(** A stream touches the registry with heartbeats only. *)
Lemma stream_step_reg i s w acts s' w' :
  step_stream i s w = Some (acts, s', w') →
  reg w' = reg w ∨ ∃ now id, i = IHeartbeat now ∧ reg w' = Registry.Heartbeat now id (reg w).
Proof.
  unfold stream_step. intros Hstep.
  destruct (at_pc s) as [|e|e|ev r|ok [|al rest]|al ok rest|err];
    destruct i as [done msg now sent|now|sch received now|fresh uuid now|sch now| |sent]; try discriminate Hstep.
  - destruct (recv_step done msg now sent s) as [acts1 s1]. injection Hstep as <- <- <-. by left.
  - injection Hstep as <- <- <-. right. by eexists _, _.
  - pose proof (save_event_effect sch received now (storedEvent e) w) as Hs.
    destruct (save_event _ _ _ _ _) as [r x]. injection Hstep as <- <- <-. destruct Hs as (_ & _ & ->). by left.
  - destruct (evaluate _ _ _ _ _ _ _ _ _) as [alerts w1] eqn:He. injection Hstep as <- <- <-. left.
    revert He. unfold evaluate. destruct (detector w) as [d|]; [|by intros [= _ <-]].
    destruct (Anomaly.Record _ _ _ _ _) as [a2 d']. by intros [= _ <-].
  - injection Hstep as <- <- <-. by left.
  - pose proof (save_alert_effect sch now al w) as Hs.
    destruct (save_alert _ _ _ _) as [r x]. injection Hstep as <- <- <-. destruct Hs as (_ & _ & ->). by left.
  - injection Hstep as <- <- <-. by left.
Qed.

(** Heartbeats add no node. *)
Lemma stream_step_nodes i s w acts s' w' node n :
  step_stream i s w = Some (acts, s', w') → Registry.nodes (reg w') !! node = Some n →
  is_Some (Registry.nodes (reg w) !! node).
Proof.
  intros [->|(now & id & _ & ->)]%stream_step_reg; [by eexists|]. unfold Registry.Heartbeat.
  destruct (Registry.nodes (reg w) !! id) as [n0|] eqn:Hn; [|by eexists]. cbn [Registry.nodes].
  destruct (decide (node = id)) as [->|Hne]; [by eexists|]. rewrite lookup_insert_ne by done. by eexists.
Qed.

(** Whatever the collector does, its registry goes through registrations,
    heartbeats and runs of the checker, whose texts and times can be written as JSON. *)
Lemma sys_step_registry l σ acts σ' :
  sys_step l σ = Some (acts, σ') →
  ∃ tr, reg (sy_server σ') = Registry.run timeout evictAfter tr (reg (sy_server σ)) ∧
    (label_ok l → Valid_utf8 defaultRegion → Forall op_readable tr).
Proof.
  intros Hstep. assert (reg (sy_server σ') = reg (sy_server σ) → ∃ tr,
    reg (sy_server σ') = Registry.run timeout evictAfter tr (reg (sy_server σ)) ∧
    (label_ok l → Valid_utf8 defaultRegion → Forall op_readable tr)) as Hsame by (intros ->; by exists []).
  destruct l as [id' ctx sch now start|id' i|ctx sch now seen req|o now|o now|i now|now|i now|i]; cbn [sys_step] in Hstep;
    try (injection Hstep as <- <-; by apply Hsame).
  - destruct (sy_streams σ !! id'); [done|]. destruct (streamAuthInterceptor _ _ _ _ _); simplify_eq; by apply Hsame.
  - destruct (sy_streams σ !! id') as [s0|]; [|done].
    destruct (step_stream i s0 (sy_server σ)) as [[[acts1 s1] w1]|] eqn:Hst; [|done]. injection Hstep as <- <-.
    apply stream_step_reg in Hst as [Hst|(now & id & -> & Hst)]; [by apply Hsame|].
    exists [(now, Registry.OHeartbeat id)]. split; [done|]. intros Hy _. by apply Forall_singleton.
  - unfold unaryAuthInterceptor in Hstep. destruct (checkAuth _ _ _ _ _) as [|nodeID]; simplify_eq; [by apply Hsame|].
    cbn [sy_server on_server] in *. unfold Register in *.
    destruct (Validate.validateRegisterRequest req) as [|] eqn:Hv; [auto|]. destruct (_ && _); [auto|]. clear Hsame.
    set (region := if _ : bool then _ else _).
    exists [(seen, Registry.ORegister (rq_NodeId req) (rq_Hostname req) (peerIP (with_authed ctx nodeID)) (rq_Version req) region)].
    split; [cbn; by destruct (Registry.Register _ _ _ _ _ _ _) as [[] r]|]. intros [Hip Hy] Hreg. apply Forall_singleton.
    apply Validate.validateRegisterRequest_clean in Hv. rewrite !Forall_cons in Hv. destruct Hv as (H1 & H2 & H3 & H4 & _).
    split; [done|]. rewrite !Forall_cons, Forall_nil. unfold region. repeat split; auto using clean_valid.
    destruct (rq_Region req =s ""); auto using clean_valid.
  - injection Hstep as <- <-. exists [(now, Registry.OCheck o)]. split; [done|]. intros _ _. by apply Forall_singleton.
Qed.

Lemma auth_step_nodes m t l σ acts σ' :
  auth_inv m t σ → m !! "" = None → authEnabled = true → t <= db_time l t → sys_step l σ = Some (acts, σ') →
  (∀ id s, sy_streams σ' !! id = Some s → ∃ rec, m !! authedNodeID s = Some rec ∧ active rec = true) ∧
  (∀ node n, Registry.nodes (reg (sy_server σ')) !! node = Some n → ∃ rec, m !! node = Some rec ∧ active rec = true).
Proof.
  intros [[Hh _] Hstr Hnd] Hempty Hon Ht Hstep.
  destruct l as [id' ctx sch now start|id' i|ctx sch now seen req|o now|o now|i now|now|i now|i]; cbn [sys_step db_time] in *;
    try (injection Hstep as <- <-; done).
  - destruct (sy_streams σ !! id'); [done|]. unfold streamAuthInterceptor in Hstep. rewrite Hon in Hstep.
    destruct (checkAuth sch now ctx _ true) as [|nodeID] eqn:Hc; injection Hstep as <- <-; [done|].
    apply (checkAuth_node _ _ _ _ _ _ _ Hh Ht) in Hc. split; [|done]. cbn [sy_streams]. intros id s.
    destruct (decide (id = id')) as [->|Hne]; [rewrite lookup_insert_eq; by intros [= <-]|].
    rewrite lookup_insert_ne by done. apply Hstr.
  - destruct (sy_streams σ !! id') as [s0|] eqn:Hs0; [|done].
    destruct (step_stream i s0 (sy_server σ)) as [[[acts1 s1] w1]|] eqn:Hst; [|done].
    injection Hstep as <- <-. split; cbn [sy_streams sy_server].
    + intros id s. destruct (decide (id = id')) as [->|Hne]; [rewrite lookup_insert_eq|rewrite lookup_insert_ne by done; apply Hstr].
      intros [= <-]. rewrite (stream_step_authed _ _ _ _ _ _ _ _ _ _ Hst). by eapply Hstr.
    + intros node n Hn. destruct (stream_step_nodes _ _ _ _ _ _ _ _ Hst Hn) as [n' Hn']. by eapply Hnd.
  - unfold unaryAuthInterceptor in Hstep. rewrite Hon in Hstep.
    destruct (checkAuth sch now ctx _ true) as [|nodeID] eqn:Hc; injection Hstep as <- <-; [done|].
    apply (checkAuth_node _ _ _ _ _ _ _ Hh Ht) in Hc. split; [done|]. cbn [sy_server on_server]. intros node n Hn.
    apply Register_nodes in Hn as [->|[n' Hn']]; [done|by eapply Hnd|].
    cbn. intros ->. destruct Hc as (? & ? & _). congruence.
  - injection Hstep as <- <-. split; [done|]. intros node n. cbn [sy_server on_server reg with_reg].
    rewrite Registry.markStaleInactive_lookup. destruct (Registry.nodes _ !! node) eqn:Hn; [|done]. intros _. by eapply Hnd.
Qed.

Lemma auth_step m t l σ acts σ' :
  auth_inv m t σ → m !! "" = None → authEnabled = true →
  t <= db_time l t → sys_step l σ = Some (acts, σ') →
  auth_inv m (db_time l t) σ'.
Proof.
  intros Hi Hempty Hon Ht Hstep.
  destruct (auth_step_nodes _ _ _ _ _ _ Hi Hempty Hon Ht Hstep) as [H1 H2]. split; [|done..].
  rewrite (sys_step_store _ _ _ _ Hstep). destruct Hi as [Htok _ _].
  destruct (store_op l σ) as [o|] eqn:Ho.
  - rewrite <-(store_op_now l σ o t Ho) in Ht |- *. by eapply exec_op_tokens.
  - destruct Htok. split; [by eapply holds_later|done].
Qed.

(** ** What the collector promises *)

Lemma listed_in_log {A} `{Kind A} (node_of : A → string) (lg : Log A) now node limit a :
  a ∈ take (Z.to_nat limit) (filter (for_node node_of node) (window node 0 (log_list lg now))) →
  for_node node_of node a ∧ kept lg a.
Proof.
  intros Ha. eapply subseteq_take, list_elem_of_filter in Ha as [Hn Ha]. split; [done|].
  assert (a ∈ log_list lg now) as (k & x & Hk & _)%elem_of_log_list; [|by exists k, x].
  unfold window in Ha. destruct (node =s ""); [done|by eapply subseteq_take].
Qed.

(** A collector that starts, on a database whose records of a kind are those
    of [lg0]. *)
Record starts {A} `{Kind A} (lg0 : Log A) (t0 : Z) (σ0 : system) : Prop := {
  start_refines : refines (st (sy_server σ0)) lg0 t0;
  start_waiting : lg_waiting lg0 = [];
  start_streams : sy_streams σ0 = ∅;
  start_nodes : Registry.nodes (reg (sy_server σ0)) = ∅;
}.

(** The state [Serve] starts with, on an opened store. *)
Definition started_on (s : Store) (det : option Anomaly.Detector) (disp : option Notify.Dispatcher)
    (met : option Metrics.MetricsProvider) : system :=
  MkSystem (MkServer s Registry.New det disp met) ∅.

Lemma fresh_starts {A} `{Kind A} d opened t0 s det disp met :
  (∀ now k r, t0 <= now → (k, r) ∈ items d now → HasPrefix k kind_prefix = false) →
  New (Ok d) opened = Ok s → starts (A := A) empty_log t0 (started_on s det disp met).
Proof. intros Hno Hnew. split; [by eapply New_refines|done..]. Qed.

Lemma starts_invariant {A} `{Kind A} src (lg0 lg : Log A) t0 σ0 t acts σ :
  covers A src → starts lg0 t0 σ0 → reaches lg0 σ0 t0 lg t acts σ → invariant src lg0 lg t acts σ.
Proof. intros Hcov [Hr Hw Hstr _]. by apply reaches_invariant. Qed.

(** A record of the log was there at the start or has its source. *)
Lemma kept_sourced {A} `{Kind A} src (lg0 lg : Log A) t acts σ a :
  invariant src lg0 lg t acts σ → kept lg a → kept lg0 a ∨ sourced acts (sy_streams σ) (λ m, src m a).
Proof. intros [_ [Hlog _]] (k & x & Hk). by eapply Hlog. Qed.

(** A collector can always be restarted on the database of another that
    stopped, and starts with the records of the other's log. *)
Lemma restart_opens (lg0 lg : Log Event) t0 σ0 t acts σ opened :
  starts lg0 t0 σ0 → reaches lg0 σ0 t0 lg t acts σ → t <= opened →
  ∃ s, New (Ok (db (st (sy_server σ)))) opened = Ok s.
Proof.
  intros Hs Hr Ht. destruct (starts_invariant _ _ _ _ _ _ _ _ covers_event Hs Hr) as [Href _]. by eapply reopens.
Qed.

Lemma restart_starts {A} `{Kind A} src (lg0 lg : Log A) t0 σ0 t acts σ opened s det disp met :
  covers A src → starts lg0 t0 σ0 → reaches lg0 σ0 t0 lg t acts σ → t <= opened →
  New (Ok (db (st (sy_server σ)))) opened = Ok s →
  starts (MkLog (lg_records lg) []) opened (started_on s det disp met).
Proof.
  intros Hcov Hs Hr Ht Hnew. destruct (starts_invariant _ _ _ _ _ _ _ _ Hcov Hs Hr) as [Href _].
  split; [|done..]. by eapply reopened_refines.
Qed.

(** C4: What the API lists came from agents.  In every state the collector can
    reach, through any interleaving of streams, registrations and background
    work, a listing succeeds, so no event an agent can send makes the stored
    events unreadable, and every listed event was there at the start or is,
    unchanged, the record of a message that arrived on some stream, passed
    validation and named the node that stream is authenticated as. *)
Theorem listing_genuine (lg0 : Log Event) t0 σ0 lg t acts σ now node limit :
  starts lg0 t0 σ0 → reaches lg0 σ0 t0 lg t acts σ → t <= now →
  ∃ evs, ListEvents Completes now node limit (st (sy_server σ)) = Ok evs ∧
    Forall (λ e, (kept lg0 e ∨ genuine acts (sy_streams σ) e) ∧ for_node ev_NodeID node e) evs.
Proof.
  intros Hs Hr Ht. pose proof (starts_invariant _ _ _ _ _ _ _ _ covers_event Hs Hr) as Hinv.
  eexists. split; [apply (ListEvents_refines _ lg t), Ht; by apply Hinv|]. apply Forall_forall.
  intros e [Hn Hk]%listed_in_log. split; [|done]. exact (kept_sourced _ _ _ _ _ _ _ Hinv Hk).
Qed.

(** A live record of the log is in a listing without a filter that has room. *)
Lemma saved_listed {A} `{Kind A} (node_of : A → string) (lg : Log A) now n k a x limit :
  lg_records lg !! k = Some (a, x) → expires_at n DefaultRetention <= x →
  now / Second < (n + 7 * 24 * Hour) / Second → Z.of_nat (length (log_list lg now)) <= limit →
  a ∈ take (Z.to_nat limit) (filter (for_node node_of "") (window "" 0 (log_list lg now))).
Proof.
  intros Hk Hx Hlive Hlim. rewrite take_ge.
  - apply list_elem_of_filter. split; [by left|]. apply elem_of_log_list. exists k, x.
    split; [done|]. unfold live, expires_at, DefaultRetention in *. apply Z.ltb_lt. lia.
  - etrans; [apply length_filter|]. unfold window. rewrite bool_decide_eq_true_2 by done. lia.
Qed.

(** C8: What is stored stays listed, restarts included.  Once a stream's save of
    an event or of an alert succeeds, an unfiltered listing with room for every
    live record contains that very record, until it expires seven days later,
    whatever the other streams do, unless another save of the same key took
    its place; for events that is one with the same identifier received at the
    same time, for alerts one with the same identifier and time, and it came
    later or had failed before because its context ended.  Then the record of
    that save is listed.  A collector restarted on the same database opens it
    and lists the same. *)
Theorem saved_records_listed (lg0 : Log Event) (alg0 : Log Alert) t0 σ0 lg alg t acts σ now limit :
  texts_ok → starts lg0 t0 σ0 → starts alg0 t0 σ0 →
  reaches lg0 σ0 t0 lg t acts σ → reaches alg0 σ0 t0 alg t acts σ → t <= now →
  Z.of_nat (length (log_list lg now)) <= limit → Z.of_nat (length (log_list alg now)) <= limit →
  ∃ evs als,
    ListEvents Completes now "" limit (st (sy_server σ)) = Ok evs ∧
    ListAlerts Completes now "" limit (st (sy_server σ)) = Ok als ∧
    (∀ before after id e r n, acts = before ++ (id, ASaveEvent e r n true) :: after →
       now / Second < (n + 7 * 24 * Hour) / Second →
       e ∈ evs ∨ ∃ id' e' r' n',
         e' ∈ evs ∧ event_key r' (ev_EventID e') = event_key r (ev_EventID e) ∧
         ((∃ ok, (id', ASaveEvent e' r' n' ok) ∈ after) ∨ (id', ASaveEvent e' r' n' false) ∈ before)) ∧
    (∀ before after id al n, acts = before ++ (id, ASaveAlert al n true) :: after →
       now / Second < (n + 7 * 24 * Hour) / Second →
       al ∈ als ∨ ∃ id' al' n',
         al' ∈ als ∧ alert_key al' = alert_key al ∧
         ((∃ ok, (id', ASaveAlert al' n' ok) ∈ after) ∨ (id', ASaveAlert al' n' false) ∈ before)) ∧
    ∀ opened, t <= opened <= now →
      ∃ s, New (Ok (db (st (sy_server σ)))) opened = Ok s ∧
        ListEvents Completes now "" limit s = Ok evs ∧ ListAlerts Completes now "" limit s = Ok als.
Proof.
  intros Htx Hse Hsa Hre Hra Ht Hle Hla.
  destruct (starts_invariant _ _ _ _ _ _ _ _ covers_event Hse Hre) as [Href _].
  destruct (starts_invariant _ _ _ _ _ _ _ _ (covers_alert Htx) Hsa Hra) as [Haref _].
  eexists _, _. split; [by apply (ListEvents_refines _ lg t)|]. split; [by apply (ListAlerts_refines _ alg t)|]. split_and!.
  - intros before after id e r n -> Hlive.
    destruct (reaches_saved inl event_keyed _ _ _ _ _ _ _ (keyed_saves before) _ e n (keyed_saves after)
      (start_waiting _ _ _ Hse) Hre (keyed_saves_app _ _)) as (_ & e' & x & Hk & Hx & He).
    pose proof (saved_listed ev_NodeID lg now n _ e' x limit Hk Hx Hlive Hle) as Hin.
    destruct He as [->|(n' & [(ok & (id' & r' & Hs & Hkey)%keyed_event)|(id' & r' & Hs & Hkey)%keyed_event])]; [by left|..];
      right; exists id', e', r', n'; eauto 10.
  - intros before after id al n -> Hlive.
    destruct (reaches_saved inr alert_keyed _ _ _ _ _ _ _ (keyed_saves before) _ al n (keyed_saves after)
      (start_waiting _ _ _ Hsa) Hra (keyed_saves_app _ _)) as (_ & al' & x & Hk & Hx & He).
    pose proof (saved_listed al_NodeID alg now n _ al' x limit Hk Hx Hlive Hla) as Hin.
    destruct He as [->|(n' & [(ok & (id' & Hs & Hkey)%keyed_alert)|(id' & Hs & Hkey)%keyed_alert])]; [by left|..];
      right; exists id', al', n'; eauto 10.
  - intros opened [Ho1 Ho2]. destruct (restart_opens _ _ _ _ _ _ _ opened Hse Hre Ho1) as [s Hnew].
    exists s. split; [done|].
    pose proof (reopened_refines _ _ _ _ _ Href Ho1 Hnew) as He. pose proof (reopened_refines _ _ _ _ _ Haref Ho1 Hnew) as Ha.
    by rewrite (ListEvents_refines _ _ _ _ _ _ He Ho2), (ListAlerts_refines _ _ _ _ _ _ Ha Ho2).
Qed.

Lemma starts_auth {A} `{Kind A} (lg0 : Log A) t0 σ0 m :
  starts lg0 t0 σ0 → holds (st (sy_server σ0)) m t0 → auth_inv m t0 σ0.
Proof.
  intros [Href Hw Hstr Hnd] Hh. split.
  - split; [done|]. pose proof (ref_pending _ _ _ Href) as Hp. rewrite Hw in Hp. apply Forall2_nil_inv_r in Hp as ->. constructor.
  - intros id s Hid. rewrite Hstr in Hid. by rewrite lookup_empty in Hid.
  - intros id n Hid. rewrite Hnd in Hid. by rewrite lookup_empty in Hid.
Qed.

(** What authentication keeps, in every reachable state. *)
Lemma confined (lg0 : Log Event) t0 σ0 m lg t acts σ now node limit :
  starts lg0 t0 σ0 → reaches lg0 σ0 t0 lg t acts σ → t <= now →
  authEnabled = true → holds (st (sy_server σ0)) m t0 → m !! "" = None →
  ListTokens Completes now (st (sy_server σ)) = Ok (table_list m) ∧
  (∀ id n, Registry.nodes (reg (sy_server σ)) !! id = Some n → ∃ rec, m !! id = Some rec ∧ active rec = true) ∧
  ∃ evs, ListEvents Completes now node limit (st (sy_server σ)) = Ok evs ∧
    Forall (λ e, kept lg0 e ∨ ∃ rec, m !! ev_NodeID e = Some rec ∧ active rec = true) evs.
Proof.
  intros Hs Hr Ht Hon Hh Hempty.
  assert (auth_inv m t σ) as [[Hh' _] Hstr Hnd].
  { clear Ht. induction Hr as [|lg t acts σ l acts' σ' Hr IH Hl Ht Hstep]; [exact (starts_auth lg0 _ _ _ Hs Hh)|].
    eapply auth_step; [exact IH|exact Hempty|exact Hon|exact Ht|exact Hstep]. }
  split; [by apply (holds_list _ _ t)|]. split; [done|].
  pose proof (starts_invariant _ _ _ _ _ _ _ _ covers_event Hs Hr) as Hinv.
  eexists. split; [apply (ListEvents_refines _ lg t), Ht; by apply Hinv|]. apply Forall_forall.
  intros e [_ Hk]%listed_in_log.
  destruct (kept_sourced _ _ _ _ _ _ _ Hinv Hk) as [Hold|(id & s & Hid & msg & now' & _ & _ & [_ Hn'] & ->)]; [by left|right].
  destruct (Hstr id s Hid) as (rec & Hrec & Ha). cbn [ev_NodeID storedEvent].
  destruct Hn' as [He'| ->]; [rewrite He' in Hrec; congruence|eauto].
Qed.

(** A run as a function. *)
Fixpoint run_labels {A} `{Kind A} (ls : list label) (lg : Log A) (t : Z) (acts : list (nat * action)) (σ : system)
    : option (Log A * Z * list (nat * action) * system) :=
  match ls with
  | [] => Some (lg, t, acts, σ)
  | l :: ls =>
      if t <=? db_time l t then
        match sys_step l σ with
        | Some (acts', σ') => run_labels ls (log_step l σ lg) (db_time l t) (acts ++ acts') σ'
        | None => None
        end
      else None
  end.

Lemma run_labels_reaches {A} `{Kind A} (lg0 : Log A) σ0 t0 ls lg t acts σ lg' t' acts' σ' :
  Forall label_ok ls → reaches lg0 σ0 t0 lg t acts σ →
  run_labels ls lg t acts σ = Some (lg', t', acts', σ') → reaches lg0 σ0 t0 lg' t' acts' σ'.
Proof.
  intros Hok. revert lg t acts σ. induction Hok as [|l ls Hl Hok IH]; intros lg t acts σ Hr; cbn [run_labels].
  - by intros [= <- <- <- <-].
  - destruct (Z.leb_spec t (db_time l t)) as [Ht|]; [|by intros [=]].
    destruct (sys_step l σ) as [[a σ1]|] eqn:Hs; [|by intros [=]]. apply IH. by eapply reach_step.
Qed.

(** The log takes no part in the run. *)
Lemma run_labels_kind {A B} `{Kind A} `{Kind B} ls (lg lg1 : Log A) (lg' : Log B) t acts σ t1 acts1 σ1 :
  run_labels ls lg t acts σ = Some (lg1, t1, acts1, σ1) →
  ∃ lg1', run_labels ls lg' t acts σ = Some (lg1', t1, acts1, σ1).
Proof.
  revert lg lg' t acts σ. induction ls as [|l ls IH]; intros lg lg' t acts σ; cbn [run_labels].
  - intros [= _ <- <- <-]. by eexists.
  - destruct (t <=? db_time l t); [|by intros [=]]. destruct (sys_step l σ) as [[a σ2]|]; [|by intros [=]]. apply IH.
Qed.

End System.

(** ** Witnesses *)

Module Example.
#[local] Existing Instance Reference.badger.

Definition T : Z := Store.Example.T.
Definition s1 : Store := AgentTokens.Example.s1.
Definition m1 : gmap string AgentToken := AgentTokens.Example.m1.

Definition store1 : Store := match New (Ok (db s1)) T with Ok s => s | Err _ => s1 end.

(** A collector that restarts after a token was issued to web-01. *)
Definition system0 : system :=
  started_on store1 (Some (Anomaly.New [])) None (Some Metrics.no_metrics).

Definition ctx0 : context := Receiver.Example.ctx_of ("Bearer " +:+ AgentTokens.Example.token).

(** The agent registers, opens a stream and sends an event; a stranger is
    refused meanwhile. *)
Definition labels0 : list label :=
  [LRegister ctx0 Completes T T (MkRegisterRequest "web-01" "h" "" "1" "");
   LOpen 0 ctx0 Completes T 0; LOpen 1 (Receiver.Example.ctx_of "Bearer guess") Completes T 0;
   LStream 0 (IRecv None (Message (Receiver.Example.exec_msg "e1" "web-01")) 1 None); LStream 0 (IHeartbeat T);
   LStream 0 (ISaveEvent Completes T T); LStream 0 (IEvaluate (λ _, ("a1", T)) "a2" (Clock 1 T));
   LCheck canonical_order T; LCollect T; LStream 0 (ISaveAlert Completes T); LStream 0 INotify; LStream 0 (ISend None)].

Definition result0 : option (Log Event * Z * list (nat * action) * system) :=
  run_labels Receiver.Example.no_regexp Receiver.Example.no_float Quote Receiver.Example.engine "eu" true (60 * Second) Hour labels0 empty_log T [] system0.
Definition lg1 : Log Event := from_option (λ x, x.1.1.1) empty_log result0.
Definition t1 : Z := from_option (λ x, x.1.1.2) 0 result0.
Definition acts1 : list (nat * action) := from_option (λ x, x.1.2) [] result0.
Definition system1 : system := from_option (λ x, x.2) system0 result0.

Lemma result0_Some : is_Some result0.
Proof.
  assert (match result0 with Some _ => true | None => false end = true) as Hx by (vm_compute; reflexivity).
  by destruct result0.
Qed.

Abbreviation reaches0 :=
  (reaches Receiver.Example.no_regexp Receiver.Example.no_float Quote Receiver.Example.engine "eu" true (60 * Second) Hour).

Lemma labels0_ok : Forall label_ok labels0.
Proof.
  unfold labels0. repeat (apply Forall_cons_2; [first [exact I|apply Receiver.Example.exec_wire_ok|split; [intros _|]; by vm_compute|by vm_compute]|]).
  apply Forall_nil_2.
Qed.

Lemma reaches_system1 : reaches0 empty_log system0 T lg1 t1 acts1 system1.
Proof.
  destruct result0_Some as [[[[lg t] acts] σ] Hr]. unfold lg1, t1, acts1, system1. rewrite Hr. cbn [from_option].
  eapply run_labels_reaches; [apply labels0_ok|apply reach_start|exact Hr].
Qed.

(** The log of alerts of the same run. *)
Definition result0_alerts : option (Log Alert * Z * list (nat * action) * system) :=
  run_labels Receiver.Example.no_regexp Receiver.Example.no_float Quote Receiver.Example.engine "eu" true (60 * Second) Hour labels0 empty_log T [] system0.
Definition alg1 : Log Alert := from_option (λ x, x.1.1.1) empty_log result0_alerts.

Lemma reaches_system1_alerts : reaches0 empty_log system0 T alg1 t1 acts1 system1.
Proof.
  destruct result0_Some as [[[[lg t] acts] σ] Hr].
  destruct (run_labels_kind _ _ _ _ _ _ _ _ _ _ _ (empty_log (A := Alert)) _ _ _ _ _ _ Hr) as [alg Ha].
  unfold alg1, t1, acts1, system1, result0_alerts. rewrite Ha, Hr. cbn [from_option fst snd].
  eapply run_labels_reaches; [apply labels0_ok|apply reach_start|exact Ha].
Qed.

Lemma texts_ok0 : texts_ok Quote Receiver.Example.engine.
Proof.
  split; [|exact Quote_ascii]. intros en r [= <-] Hr. apply list_elem_of_singleton in Hr as ->.
  repeat (apply Forall_cons_2; [reflexivity|]). apply Forall_nil_2.
Qed.

Lemma t1_eq : t1 = T.
Proof. vm_compute. reflexivity. Qed.

Lemma db_s1 : ∃ v, db s1 = <[agentTokenKey "web-01" := v]> (∅ : Reference.entries).
Proof. eexists. reflexivity. Qed.

(** The database holds a token and nothing else. *)
Lemma no_records p : HasPrefix (agentTokenKey "web-01") p = false →
  ∀ now k r, T <= now → (k, r) ∈ items (db s1) now → HasPrefix k p = false.
Proof.
  intros Hp now k r _ Hin. destruct db_s1 as [v Hv]. rewrite Hv in Hin.
  apply Reference.elem_of_ref_items in Hin as (v' & x & Hk & _).
  destruct (decide (k = agentTokenKey "web-01")) as [->|Hne]; [exact Hp|].
  rewrite (lookup_insert_ne (M := gmap string)) in Hk by (intros E; exact (Hne (eq_sym E))).
  rewrite (lookup_empty (M := gmap string)) in Hk. discriminate Hk.
Qed.

Lemma store1_opened : New (Ok (db s1)) T = Ok store1.
Proof.
  assert (is_Ok (New (Ok (db s1)) T) = true) as Hok by (vm_compute; reflexivity).
  unfold store1. by destruct (New (Ok (db s1)) T).
Qed.

Lemma starts0 : starts (A := Event) empty_log T system0.
Proof. exact (fresh_starts (A := Event) _ _ _ _ _ _ _ (no_records "event:" eq_refl) store1_opened). Qed.

Lemma starts0_alerts : starts (A := Alert) empty_log T system0.
Proof. exact (fresh_starts (A := Alert) _ _ _ _ _ _ _ (no_records "alert:" eq_refl) store1_opened). Qed.

Lemma holds_store1 : holds store1 m1 T.
Proof. eapply holds_db; [apply AgentTokens.Example.holds_s1|]. reflexivity. Qed.

End Example.
Import Example.
#[local] Existing Instance Reference.badger.

Lemma listing_genuine_witness :
  ∃ evs, ListEvents Completes (T + Hour) "web-01" 10 (st (sy_server system1)) = Ok evs ∧
    Forall (λ e, (kept empty_log e ∨ genuine acts1 (sy_streams system1) e) ∧ for_node ev_NodeID "web-01" e) evs.
Proof.
  apply (listing_genuine Receiver.Example.no_regexp Receiver.Example.no_float Quote Receiver.Example.engine "eu" true (60 * Second) Hour
           empty_log T system0 lg1 t1 acts1 system1 (T + Hour) "web-01" 10 starts0 reaches_system1).
  rewrite t1_eq. by vm_compute.
Defined.

(** No other save of the run is of the same kind. *)
Definition saves_event (x : nat * action) : bool := match x.2 with ASaveEvent _ _ _ _ => true | _ => false end.
Definition saves_alert (x : nat * action) : bool := match x.2 with ASaveAlert _ _ _ => true | _ => false end.

Lemma none_of (f : nat * action → bool) l x : forallb (λ y, negb (f y)) l = true → f x = true → x ∉ l.
Proof. rewrite forallb_forall. intros Hall Hx Hin%list_elem_of_In. specialize (Hall x Hin). by rewrite Hx in Hall. Qed.

Lemma saved_records_listed_witness :
  ∃ evs als,
    ListEvents Completes (T + Hour) "" 10 (st (sy_server system1)) = Ok evs ∧
    ListAlerts Completes (T + Hour) "" 10 (st (sy_server system1)) = Ok als ∧
    storedEvent (Receiver.Example.exec_msg "e1" "web-01") ∈ evs ∧ Receiver.Example.alert0 ∈ als ∧
    ∃ s, New (Ok (db (st (sy_server system1)))) (T + 1) = Ok s ∧ ListEvents Completes (T + Hour) "" 10 s = Ok evs.
Proof.
  destruct (saved_records_listed Receiver.Example.no_regexp Receiver.Example.no_float Quote Receiver.Example.engine "eu" true (60 * Second) Hour
    empty_log empty_log T system0 lg1 alg1 t1 acts1 system1 (T + Hour) 10 texts_ok0 starts0 starts0_alerts reaches_system1
    reaches_system1_alerts) as (evs & als & He & Ha & Hev & Hal & Hre).
  - rewrite t1_eq. by vm_compute.
  - by vm_compute.
  - by vm_compute.
  - assert (acts1 !! 2%nat = Some (0%nat, ASaveEvent (storedEvent (Receiver.Example.exec_msg "e1" "web-01")) T T true)) as Hs2
      by (vm_compute; reflexivity).
    assert (acts1 !! 3%nat = Some (0%nat, ASaveAlert Receiver.Example.alert0 T true)) as Hs3 by (vm_compute; reflexivity).
    assert ((T + Hour) / Second < (T + 7 * 24 * Hour) / Second) as Hlive by (by vm_compute).
    assert (forallb (λ y, negb (saves_event y)) (take 2 acts1 ++ drop 3 acts1) = true) as Hne by (vm_compute; reflexivity).
    assert (forallb (λ y, negb (saves_alert y)) (take 3 acts1 ++ drop 4 acts1) = true) as Hna by (vm_compute; reflexivity).
    destruct (Hre (T + 1)) as (s & Hnew & Hs & _); [rewrite t1_eq; unfold Hour, Minute, Second; lia|].
    exists evs, als. split; [exact He|]. split; [exact Ha|]. split; [|split; [|exists s; split; [exact Hnew|exact Hs]]].
    + destruct (Hev _ _ _ _ _ _ (eq_sym (take_drop_middle _ _ _ Hs2)) Hlive)
        as [Hin|(id' & e' & r' & n' & _ & _ & [[ok Hin]|Hin])]; [exact Hin|exfalso|exfalso].
      * exact (none_of saves_event _ (id', ASaveEvent e' r' n' ok) Hne eq_refl (proj2 (elem_of_app _ _ _) (or_intror Hin))).
      * exact (none_of saves_event _ (id', ASaveEvent e' r' n' false) Hne eq_refl (proj2 (elem_of_app _ _ _) (or_introl Hin))).
    + destruct (Hal _ _ _ _ _ (eq_sym (take_drop_middle _ _ _ Hs3)) Hlive)
        as [Hin|(id' & al' & n' & _ & _ & [[ok Hin]|Hin])]; [exact Hin|exfalso|exfalso].
      * exact (none_of saves_alert _ (id', ASaveAlert al' n' ok) Hna eq_refl (proj2 (elem_of_app _ _ _) (or_intror Hin))).
      * exact (none_of saves_alert _ (id', ASaveAlert al' n' false) Hna eq_refl (proj2 (elem_of_app _ _ _) (or_introl Hin))).
Defined.

End Collector.
