(* ===== verification/CollectorApi.v ===== *)
(** * What a running collector answers

    The REST handlers ([internal/exporter/api.go]) on the states the collector
    reaches ([Collector]): the events and alerts they list and the counters
    they report, traced back to the messages of the agents. *)

From S2P Require Import Prelude GoStrings GoTime GoJson GoUtf8 GoValue StoreData Pb Codec Badger.
From S2P Require Import Store StoreLog AgentToken Registry NodeCodec Anomaly Validate Alerting HttpApi Metrics Receiver Collector.
Import GoStrings GoTime GoJson GoUtf8 Pb Store StoreLog Receiver Collector.

Module CollectorApi.

Section Answers.
Context `{Badger}.
Context (regexp : string → result (string → bool)).
Context (other_float : string → option GoValue.float64).
Context (quote_go : string → string).
Context (engine : option Alerting.Engine) (defaultRegion : string).
Context (authEnabled : bool) (timeout evictAfter : Z).

Abbreviation step := (sys_step regexp other_float quote_go engine defaultRegion authEnabled timeout evictAfter).
Abbreviation reach := (reaches regexp other_float quote_go engine defaultRegion authEnabled timeout evictAfter).

(** A request's view of the collector: the store in the state [σ] in which its
    transaction runs, and the registry in the state [σs i] of its [i]-th read;
    the transaction completes. *)
Definition view (σ : system) (σs : nat → system) (now : clock) (o : nat → map_order string Registry.AgentNode)
    (seen : map_order string ()) (ws : map_order Anomaly.windowKey (list Z)) : HttpApi.env :=
  HttpApi.Env (st (sy_server σ)) (λ i, reg (sy_server (σs i))) now Completes o seen ws.

(** [σ'] is reached from [σ] while the collector goes on. *)
Definition later (lg : Log Event) (t : Z) (σ σ' : system) : Prop := ∃ lg' t' acts, reach lg σ t lg' t' acts σ'.

(** ** Counters *)

(** The saves of events among actions. *)
Definition event_saves (acts : list (nat * action)) : list (Event * bool) :=
  omap (λ x, match x with (inl e, _, ok) => Some (e, ok) | _ => None end) (record_saves acts).

(** The successful saves of events of a type. *)
Definition saves_of (ty : string) (acts : list (nat * action)) : Z :=
  Z.of_nat (length (filter (λ x, x.2 = true ∧ ev_Type x.1 = ty) (event_saves acts))).

Lemma saves_of_app ty a b : saves_of ty (a ++ b) = saves_of ty a + saves_of ty b.
Proof. unfold saves_of. unfold event_saves. rewrite record_saves_app, omap_app, filter_app, length_app. lia. Qed.

Lemma step_counts l σ acts σ' ty :
  step l σ = Some (acts, σ') →
  wrap64 (count (Stats (st (sy_server σ'))) ty) = wrap64 (count (Stats (st (sy_server σ))) ty + saves_of ty acts).
Proof.
  intros Hstep. unfold Stats, saves_of, event_saves. rewrite (sys_step_store _ _ _ _ _ _ _ _ _ _ _ _ Hstep), (sys_step_saves _ _ _ _ _ _ _ _ _ _ _ _ Hstep).
  destruct (store_op l σ) as [o|]; [|by rewrite Z.add_0_r].
  rewrite (exec_op_count o _ _ _ ty (surjective_pairing _)). f_equal. f_equal.
  destruct o as [sch received n e| | |]; [|done..]. cbn [op_saved omap list_omap]. rewrite filter_cons. cbn [fst snd].
  generalize (exec_op (OpSaveEvent sch received n e) (st (sy_server σ))).1. intros ok.
  case_decide as Hd.
  - destruct Hd as [-> Hty]. by rewrite bool_decide_eq_true_2.
  - destruct ok; [|done]. rewrite bool_decide_eq_false_2; [done|]. naive_solver.
Qed.

Lemma reach_counts (lg0 lg : Log Event) σ0 t0 t acts σ ty :
  reach lg0 σ0 t0 lg t acts σ →
  wrap64 (count (Stats (st (sy_server σ))) ty) = wrap64 (count (Stats (st (sy_server σ0))) ty + saves_of ty acts).
Proof.
  induction 1 as [|lg t acts σ l acts' σ' _ IH _ _ Hstep]; [by rewrite Z.add_0_r|].
  rewrite (step_counts _ _ _ _ ty Hstep), saves_of_app, <-wrap64_step, IH, wrap64_step. f_equal. lia.
Qed.

(** ** Lists *)

Lemma in_region_subset {A} e (node_of : A → string) region l : HttpApi.in_region e node_of region l ⊆ l.
Proof. unfold HttpApi.in_region. case_match; [done|]. intros a. by intros [_ ?]%list_elem_of_filter. Qed.

(** A page is short, and every record on it was in the log at the start or has
    its source. *)
Lemma page_sourced {A} `{Kind A} src (node_of : A → string) (lg0 lg : Log A) t acts σ e c limit now :
  invariant src lg0 lg t acts σ → 1 <= limit <= 1000 →
  (length (HttpApi.page node_of e c limit (log_list lg now)) <= 1000)%nat ∧
  Forall (λ a, kept lg0 a ∨ sourced acts (sy_streams σ) (λ m, src m a)) (HttpApi.page node_of e c limit (log_list lg now)).
Proof.
  intros Hinv Hl. split.
  - unfold HttpApi.page, HttpApi.in_region. case_match; [|etrans; [apply length_filter|]];
      rewrite length_take; lia.
  - apply Forall_forall. intros a Ha%in_region_subset. apply listed_in_log in Ha as [_ Hk]. by eapply kept_sourced.
Qed.

(** ** The registry *)

Lemma reach_registry (lg0 lg : Log Event) σ0 t0 t acts σ :
  reach lg0 σ0 t0 lg t acts σ → Registry.registry_ok (reg (sy_server σ0)) → Registry.registry_ok (reg (sy_server σ)).
Proof.
  intros Hr Hok. induction Hr as [|lg t acts σ l acts' σ' _ IH _ _ Hstep]; [done|].
  destruct (sys_step_registry _ _ _ _ _ _ _ _ _ _ _ _ Hstep) as (tr & -> & _). by apply Registry.run_ok.
Qed.

(** The registry's entries can always be written and read back as JSON. *)
Lemma reach_readable (lg0 lg : Log Event) σ0 t0 t acts σ :
  reach lg0 σ0 t0 lg t acts σ → Valid_utf8 defaultRegion → readable (reg (sy_server σ0)) → readable (reg (sy_server σ)).
Proof.
  intros Hr Hd Hok. induction Hr as [|lg t acts σ l acts' σ' _ IH Hl _ Hstep]; [done|].
  destruct (sys_step_registry _ _ _ _ _ _ _ _ _ _ _ _ Hstep) as (tr & -> & Htr). apply run_readable; auto.
Qed.

(** A run goes on. *)
Lemma reach_trans (lg0 lg lg' : Log Event) σ0 t0 t acts σ t' acts' σ' :
  reach lg0 σ0 t0 lg t acts σ → reach lg σ t lg' t' acts' σ' → reach lg0 σ0 t0 lg' t' (acts ++ acts') σ'.
Proof.
  intros Hr. induction 1 as [|lg' t' acts' σ' l acts2 σ2 _ IH Hl Ht Hstep]; [by rewrite app_nil_r|].
  rewrite (assoc_L (++)). by eapply reach_step.
Qed.

(** The region filter keeps the records of the agents registered in the region
    at the moment it reads the registry. *)
Lemma in_region_nodes {A} (node_of : A → string) e region l a :
  Registry.registry_ok (HttpApi.e_registry e 0) → a ∈ HttpApi.in_region e node_of region l → region ≠ "" →
  ∃ n, Registry.nodes (HttpApi.e_registry e 0) !! node_of a = Some n ∧ Registry.Region n = region.
Proof.
  intros Hok Ha Hne. unfold HttpApi.in_region in Ha. rewrite bool_decide_eq_false_2 in Ha by done.
  apply list_elem_of_filter in Ha as [Ha _]. unfold HttpApi.regionNodeSet in Ha.
  apply elem_of_list_to_set, list_elem_of_fmap in Ha as (n & -> & Hn).
  rewrite HttpApi.list_region_perm in Hn by done. apply list_elem_of_filter in Hn as [Hr Hn].
  apply list_elem_of_fmap in Hn as ([id n'] & -> & Hn%elem_of_map_to_list). exists n'. split; [|done].
  destruct (Hok id n' Hn) as (Hid & _). cbn in *. by rewrite Hid.
Qed.

Definition in_asked_region (c : HttpApi.request) (r : Registry.Registry) (node : string) : Prop :=
  HttpApi.Query c "region" = "" ∨
  ∃ n, Registry.nodes r !! node = Some n ∧ Registry.Region n = HttpApi.Query c "region".

Lemma page_in_region {A} (node_of : A → string) e c limit l :
  Registry.registry_ok (HttpApi.e_registry e 0) →
  Forall (λ a, in_asked_region c (HttpApi.e_registry e 0) (node_of a)) (HttpApi.page node_of e c limit l).
Proof.
  intros Hok. apply Forall_forall. intros a Ha. destruct (decide (HttpApi.Query c "region" = "")) as [|Hne]; [by left|].
  right. by eapply in_region_nodes.
Qed.

Lemma agents_answer e c :
  Registry.registry_ok (HttpApi.e_registry e 0) →
  ∃ ns, HttpApi.get_nodes e c = HttpApi.Response 200 (HttpApi.BNodes ns) ∧
    ∀ n, n ∈ ns ↔ Registry.nodes (HttpApi.e_registry e 0) !! Registry.NodeID n = Some n ∧
                  in_asked_region c (HttpApi.e_registry e 0) (Registry.NodeID n).
Proof.
  intros Hok. eexists. split; [done|]. intros n. set (r := HttpApi.e_registry e 0) in *.
  assert (n ∈ (map_to_list (Registry.nodes r)).*2 ↔ Registry.nodes r !! Registry.NodeID n = Some n) as Hall.
  { rewrite list_elem_of_fmap. split.
    - intros ([id n'] & -> & Hn%elem_of_map_to_list). destruct (Hok id n' Hn) as (Hid & _). cbn in *. by rewrite Hid.
    - intros Hn. exists (Registry.NodeID n, n). by rewrite elem_of_map_to_list. }
  unfold in_asked_region. case_bool_decide as Hq; cbn [negb].
  - unfold Registry.List. rewrite visit_perm, Hall. tauto.
  - rewrite HttpApi.list_region_perm, list_elem_of_filter by done. fold r. rewrite Hall. naive_solver.
Qed.

Lemma later_registry (lg0 : Log Event) t0 σ0 lg t acts σ σ' :
  starts lg0 t0 σ0 → reach lg0 σ0 t0 lg t acts σ → later lg t σ σ' → Registry.registry_ok (reg (sy_server σ')).
Proof.
  intros Hs Hr (lg' & t' & acts' & Hr'). eapply reach_registry, reach_registry; [done..|].
  unfold Registry.registry_ok. rewrite (start_nodes _ _ _ Hs). apply map_Forall_empty.
Qed.

(** The part on the list endpoints. *)
Lemma lists_answer (lg0 : Log Event) (alg0 : Log Alert) t0 σ0 lg t acts σ σs now o seen ws c :
  texts_ok quote_go engine → starts lg0 t0 σ0 → starts alg0 t0 σ0 →
  reach lg0 σ0 t0 lg t acts σ → (∀ i, later lg t σ (σs i)) → t <= wall now →
  let r := reg (sy_server (σs 0%nat)) in
  match HttpApi.parseLimit c "limit" 100 with
  | Err msg =>
      HttpApi.get_events (view σ σs now o seen ws) c = HttpApi.Response 400 (HttpApi.BError msg) ∧
      HttpApi.get_alerts (view σ σs now o seen ws) c = HttpApi.Response 400 (HttpApi.BError msg)
  | Ok limit =>
      ∃ evs als alg,
        HttpApi.get_events (view σ σs now o seen ws) c = HttpApi.Response 200 (HttpApi.BEvents evs) ∧
        HttpApi.get_alerts (view σ σs now o seen ws) c = HttpApi.Response 200 (HttpApi.BAlerts als) ∧
        refines (st (sy_server σ)) lg t ∧ evs = HttpApi.page ev_NodeID (view σ σs now o seen ws) c limit (log_list lg (wall now)) ∧
        refines (st (sy_server σ)) alg t ∧ als = HttpApi.page al_NodeID (view σ σs now o seen ws) c limit (log_list alg (wall now)) ∧
        (length evs <= 1000)%nat ∧ (length als <= 1000)%nat ∧
        Forall (λ e, kept lg0 e ∨ genuine acts (sy_streams σ) e) evs ∧
        Forall (λ al, kept alg0 al ∨ genuine_alert regexp other_float quote_go engine acts (sy_streams σ) al) als ∧
        Forall (λ e, in_asked_region c r (ev_NodeID e)) evs ∧ Forall (λ al, in_asked_region c r (al_NodeID al)) als
  end.
Proof.
  intros Htexts Hev Hal Hr Hlater Ht r. pose proof (later_registry _ _ _ _ _ _ _ _ Hev Hr (Hlater 0%nat)) as Hok.
  destruct (reaches_kind _ _ _ _ _ _ _ _ _ _ alg0 _ _ _ _ _ Hr) as [alg Hra].
  pose proof (starts_invariant _ _ _ _ _ _ _ _ _ _ _ _ _ _ _ _ (covers_event _ _ _ _) Hev Hr) as Hie.
  pose proof (starts_invariant _ _ _ _ _ _ _ _ _ _ _ _ _ _ _ _ (covers_alert _ _ _ _ Htexts) Hal Hra) as Hia.
  pose proof (HttpApi.endpoints_answer lg alg t (view σ σs now o seen ws) c
    (inv_refines _ _ _ _ _ _ Hie) (inv_refines _ _ _ _ _ _ Hia) Ht eq_refl) as Hans.
  destruct (HttpApi.parseLimit c "limit" 100) as [limit|msg]; [|exact Hans].
  destruct Hans as (Hl & -> & ->). eexists _, _, alg. do 2 (split; [done|]).
  split; [apply (inv_refines _ _ _ _ _ _ Hie)|]. split; [done|]. split; [apply (inv_refines _ _ _ _ _ _ Hia)|]. split; [done|].
  destruct (page_sourced _ ev_NodeID _ _ _ _ _ (view σ σs now o seen ws) c limit (wall now) Hie Hl) as [He1 He2].
  destruct (page_sourced _ al_NodeID _ _ _ _ _ (view σ σs now o seen ws) c limit (wall now) Hia Hl) as [Ha1 Ha2].
  pose proof (page_in_region ev_NodeID (view σ σs now o seen ws) c limit (log_list lg (wall now)) Hok) as Hre.
  pose proof (page_in_region al_NodeID (view σ σs now o seen ws) c limit (log_list alg (wall now)) Hok) as Hra'.
  eauto 10.
Qed.

(** C6: What the REST API answers while the collector runs.  In every state the
    collector can reach, with rules whose texts are valid UTF-8, the list
    endpoints answer 400 exactly when the limit is bad and otherwise 200, never
    an error of the store, with the live records of the log of events or of
    alerts by descending key, those of the node asked for under its scan cap,
    the first [limit] of them, at most 1000; every event is, unless
    it was there at the start, the record of an accepted message; every
    alert, unless it was there at the start, is about an accepted message and
    was raised by a rule that holds for it or by the detector; the counter
    of a type is the one at the start plus the successful saves of that type,
    as a 64-bit integer.  The collector goes on between the reads of one
    request: with a region asked for, the records are those of agents
    registered in it in the state the registry is read in, and the list of
    agents is exactly that of this state. *)
Theorem api_answers (lg0 : Log Event) (alg0 : Log Alert) t0 σ0 lg t acts σ σs now o seen ws c :
  texts_ok quote_go engine → starts lg0 t0 σ0 → starts alg0 t0 σ0 →
  reach lg0 σ0 t0 lg t acts σ → (∀ i, later lg t σ (σs i)) → t <= wall now →
  let r := reg (sy_server (σs 0%nat)) in
  match HttpApi.parseLimit c "limit" 100 with
  | Err msg =>
      HttpApi.get_events (view σ σs now o seen ws) c = HttpApi.Response 400 (HttpApi.BError msg) ∧
      HttpApi.get_alerts (view σ σs now o seen ws) c = HttpApi.Response 400 (HttpApi.BError msg)
  | Ok limit =>
      ∃ evs als alg,
        HttpApi.get_events (view σ σs now o seen ws) c = HttpApi.Response 200 (HttpApi.BEvents evs) ∧
        HttpApi.get_alerts (view σ σs now o seen ws) c = HttpApi.Response 200 (HttpApi.BAlerts als) ∧
        refines (st (sy_server σ)) lg t ∧ evs = HttpApi.page ev_NodeID (view σ σs now o seen ws) c limit (log_list lg (wall now)) ∧
        refines (st (sy_server σ)) alg t ∧ als = HttpApi.page al_NodeID (view σ σs now o seen ws) c limit (log_list alg (wall now)) ∧
        (length evs <= 1000)%nat ∧ (length als <= 1000)%nat ∧
        Forall (λ e, kept lg0 e ∨ genuine acts (sy_streams σ) e) evs ∧
        Forall (λ al, kept alg0 al ∨ genuine_alert regexp other_float quote_go engine acts (sy_streams σ) al) als ∧
        Forall (λ e, in_asked_region c r (ev_NodeID e)) evs ∧ Forall (λ al, in_asked_region c r (al_NodeID al)) als
  end ∧
  (∃ ns, HttpApi.get_nodes (view σ σs now o seen ws) c = HttpApi.Response 200 (HttpApi.BNodes ns) ∧
     ∀ n, n ∈ ns ↔ Registry.nodes r !! Registry.NodeID n = Some n ∧ in_asked_region c r (Registry.NodeID n)) ∧
  ∃ m, HttpApi.get_stats (view σ σs now o seen ws) c = HttpApi.Response 200 (HttpApi.BCounts m) ∧
    ∀ ty, wrap64 (count m ty) = wrap64 (count (Stats (st (sy_server σ0))) ty + saves_of ty acts).
Proof.
  intros Htexts Hev Hal Hr Hlater Ht r. split; [by eapply lists_answer|].
  split; [apply agents_answer; by eapply later_registry|]. eexists. split; [done|]. intros ty. by eapply reach_counts.
Qed.

(** ** Metrics *)

(** What a save, successful or not, adds to the three counters. *)
Definition event_labels (x : (Event + Alert) * Z * bool) : option Metrics.attributes :=
  match x with (inl e, _, _) => Some [("type", ev_Type e); ("node", ev_NodeID e)] | _ => None end.

Definition alert_labels (x : (Event + Alert) * Z * bool) : option Metrics.attributes :=
  match x with
  | (inr al, _, _) => Some [("rule", al_RuleID al); ("severity", al_Severity al); ("node", al_NodeID al)]
  | _ => None
  end.

Definition failure_labels (x : (Event + Alert) * Z * bool) : option Metrics.attributes :=
  match x with
  | (_, _, true) => None
  | (inl _, _, false) => Some [("kind", "event")]
  | (inr _, _, false) => Some [("kind", "alert")]
  end.

Definition counted (saves : list ((Event + Alert) * Z * bool)) (mp : Metrics.MetricsProvider) : Metrics.MetricsProvider :=
  Metrics.MkMetrics (Metrics.eventCounter mp ++ omap event_labels saves)
    (Metrics.alertCounter mp ++ omap alert_labels saves)
    (Metrics.storeWriteFailureCounter mp ++ omap failure_labels saves).

Lemma counted_nil mp : counted [] mp = mp.
Proof. destruct mp. unfold counted. cbn. by rewrite !app_nil_r. Qed.

Lemma counted_app a b mp : counted (a ++ b) mp = counted b (counted a mp).
Proof. unfold counted. cbn. by rewrite !omap_app, !(assoc_L (++)). Qed.

Lemma save_event_metrics sch received now e w :
  let '(ok, w') := save_event sch received now e w in metrics w' = counted [(inl e, now, ok)] <$> metrics w.
Proof.
  unfold save_event. destruct (SaveEvent _ _ _ _ _) as [[] x]; destruct w as [? ? ? ? [mp|]]; try done; cbn;
    unfold counted; cbn; by rewrite ?app_nil_r.
Qed.

Lemma save_alert_metrics sch now al w :
  let '(ok, w') := save_alert sch now al w in metrics w' = counted [(inr al, now, ok)] <$> metrics w.
Proof.
  unfold save_alert. destruct (SaveAlert _ _ _ _) as [[] x]; destruct w as [? ? ? ? [mp|]]; try done; cbn;
    unfold counted; cbn; by rewrite ?app_nil_r.
Qed.

Lemma counted_none (m : option Metrics.MetricsProvider) : m = counted [] <$> m.
Proof. destruct m; cbn; by rewrite ?counted_nil. Qed.

Lemma step_metrics l σ acts σ' :
  step l σ = Some (acts, σ') → metrics (sy_server σ') = counted (record_saves acts) <$> metrics (sy_server σ).
Proof.
  destruct l as [id' ctx sch now start|id' i|ctx sch now seen req|o now|o now|i now|now|i now|i]; cbn [sys_step];
    try (intros [= <- <-]; apply counted_none).
  - destruct (sy_streams σ !! id'); [done|]. destruct (streamAuthInterceptor _ _ _ _ _); intros [= <- <-]; apply counted_none.
  - destruct (sy_streams σ !! id') as [s|]; [|by intros [=]]. unfold stream_step.
    destruct (at_pc s) as [|m|m|ev r|ok [|al rest]|al ok rest|err];
      destruct i as [done msg now sent| |sch received now|fresh uuid now|sch now| |sent]; try by intros [=].
    + destruct (recv_step done msg now sent s) as [acts1 s1] eqn:Hr. intros [= <- <-].
      rewrite record_saves_keyed, (recv_step_saves _ _ _ _ _ _ _ _ Hr). apply counted_none.
    + intros [= <- <-]. apply counted_none.
    + pose proof (save_event_metrics sch received now (storedEvent m) (sy_server σ)) as Hm.
      destruct (save_event _ _ _ _ _) as [ok w]. by intros [= <- <-].
    + destruct (evaluate _ _ _ _ _ _ _ _ _) as [alerts w1] eqn:He. intros [= <- <-]. cbn.
      assert (metrics w1 = metrics (sy_server σ)) as ->; [|apply counted_none]. revert He. unfold evaluate.
      destruct (detector _); [|by intros [= _ <-]]. destruct (Anomaly.Record _ _ _ _ _). by intros [= _ <-].
    + intros [= <- <-]. apply counted_none.
    + pose proof (save_alert_metrics sch now al (sy_server σ)) as Hm.
      destruct (save_alert _ _ _ _) as [ok' w]. by intros [= <- <-].
    + intros [= <- <-]. apply counted_none.
  - destruct (unaryAuthInterceptor _ _ _ _ _ _) as [|w] eqn:Hu; intros [= <- <-]; [apply counted_none|].
    unfold unaryAuthInterceptor in Hu. destruct (checkAuth _ _ _ _ _); [done|]. injection Hu as <-. cbn.
    unfold Register. destruct (Validate.validateRegisterRequest req); [apply counted_none|].
    destruct (_ && _); [apply counted_none|]. destruct (Registry.Register _ _ _ _ _ _ _) as [[] r]; apply counted_none.
Qed.

(** C32: The metrics are exact.  In every state the collector can reach, the
    counter of events has been incremented once per attempt to save an event,
    under its type and node, the counter of alerts once per attempt to save an
    alert, under its rule, severity and node, and the counter of failed
    writes once per attempt that failed, under its kind, and nothing else was
    counted; without a provider nothing is. *)
Theorem metrics_exact (lg0 lg : Log Event) σ0 t0 t acts σ :
  reach lg0 σ0 t0 lg t acts σ →
  metrics (sy_server σ) =
  match metrics (sy_server σ0) with
  | None => None
  | Some mp =>
      Some (Metrics.MkMetrics (Metrics.eventCounter mp ++ omap event_labels (record_saves acts))
              (Metrics.alertCounter mp ++ omap alert_labels (record_saves acts))
              (Metrics.storeWriteFailureCounter mp ++ omap failure_labels (record_saves acts)))
  end.
Proof.
  intros Hr. transitivity (counted (record_saves acts) <$> metrics (sy_server σ0)); [|by destruct (metrics (sy_server σ0))].
  induction Hr as [|lg t acts σ l acts' σ' _ IH _ _ Hstep]; [apply counted_none|].
  rewrite (step_metrics _ _ _ _ Hstep), IH, record_saves_app. destruct (metrics (sy_server σ0)); [|done]. cbn. by rewrite counted_app.
Qed.

End Answers.

(** ** Witness *)

Module Example.
#[local] Existing Instance Reference.badger.
Import Collector.Example.

Definition query0 : HttpApi.request := HttpApi.Request "/api/alerts" [("node", "web-01"); ("limit", "5")] "".
Definition now0 : clock := Clock 1 (T + Hour).

(** The checker runs between the two reads of a request. *)
Definition checked : system :=
  on_server system1 (with_reg (sy_server system1)
    (Registry.markStaleInactive canonical_order (T + Hour) (60 * Second) Hour (reg (sy_server system1)))).

Definition view0 : HttpApi.env :=
  view system1 (λ _, checked) now0 (λ _, canonical_order) canonical_order canonical_order.

Lemma later_checked :
  later Receiver.Example.no_regexp Receiver.Example.no_float Quote Receiver.Example.engine "eu" true (60 * Second) Hour
    lg1 t1 system1 checked.
Proof.
  eexists _, _, _. eapply (reach_step _ _ _ _ _ _ _ _ _ _ _ _ _ _ _ (LCheck canonical_order (T + Hour)));
    [apply reach_start|done|cbn; lia|reflexivity].
Qed.

End Example.
Import Example Collector.Example.
#[local] Existing Instance Reference.badger.

Lemma api_answers_witness :
  (∃ evs als,
     HttpApi.get_events view0 query0 = HttpApi.Response 200 (HttpApi.BEvents evs) ∧
     HttpApi.get_alerts view0 query0 = HttpApi.Response 200 (HttpApi.BAlerts als) ∧
     Forall (λ e, kept empty_log e ∨ genuine acts1 (sy_streams system1) e) evs ∧
     Forall (λ al, kept empty_log al ∨ genuine_alert Receiver.Example.no_regexp Receiver.Example.no_float Quote
                     Receiver.Example.engine acts1 (sy_streams system1) al) als) ∧
  ∃ m, HttpApi.get_stats view0 query0 = HttpApi.Response 200 (HttpApi.BCounts m) ∧
    ∀ ty, wrap64 (count m ty) = wrap64 (count (Stats (st (sy_server system0))) ty + saves_of ty acts1).
Proof.
  assert (t1 <= wall now0) as Ht by (rewrite t1_eq; by vm_compute).
  destruct (api_answers Receiver.Example.no_regexp Receiver.Example.no_float Quote Receiver.Example.engine "eu" true
    (60 * Second) Hour empty_log empty_log T system0 lg1 t1 acts1 system1 (λ _, checked) now0 (λ _, canonical_order)
    canonical_order canonical_order query0 texts_ok0 starts0 starts0_alerts reaches_system1 (λ _, later_checked) Ht)
    as ((evs & als & alg & He & Ha & _ & _ & _ & _ & _ & _ & Hge & Hga & _) & _ & Hm).
  split; [|exact Hm]. exists evs, als. exact (conj He (conj Ha (conj Hge Hga))).
Defined.

Lemma metrics_exact_witness :
  metrics (sy_server system1) =
  Some (Metrics.MkMetrics [[("type", "exec"); ("node", "web-01")]]
    [[("rule", al_RuleID Receiver.Example.alert0); ("severity", al_Severity Receiver.Example.alert0); ("node", "web-01")]] []).
Proof.
  rewrite (metrics_exact Receiver.Example.no_regexp Receiver.Example.no_float Quote Receiver.Example.engine "eu" true
    (60 * Second) Hour empty_log lg1 system0 T t1 acts1 system1 reaches_system1). vm_compute. reflexivity.
Defined.

(** The run of the example stores the event and the alert of its rule. *)
Example api_answers_run :
  HttpApi.get_alerts view0 query0
    = HttpApi.Response 200 (HttpApi.BAlerts [Receiver.Example.alert0]) ∧
  saves_of "exec" acts1 = 1.
Proof. split; vm_compute; reflexivity. Qed.

End CollectorApi.
