(* ===== verification/Mesh.v ===== *)
(** * The mesh: an aggregator over running collectors

    The aggregator ([AggregatorRun]) polls the REST APIs of other collectors.
    Here these are collectors of [Collector], one behind each upstream, running
    on their own and reached over a network that may lose or delay any request:
    what the aggregator serves is traced back to the messages the regions'
    collectors accepted from their agents. *)

From S2P Require Import Prelude GoStrings GoTime GoJson GoUtf8 GoValue GoJsonList StoreData Pb Codec NodeCodec Badger.
From S2P Require Import Store StoreLog Registry Anomaly Validate Alerting HttpApi Aggregator AggregatorRun.
From S2P Require Import Metrics Receiver Collector CollectorApi.
Import GoStrings GoTime GoJson GoJsonList StoreLog Receiver Collector CollectorApi Aggregator AggregatorRun.

Module Mesh.

Section Mesh.
Context `{Badger}.

(** A region's collector: its configuration, the records and the state it
    starts with, and what its REST router is built with. *)
Record site := Site {
  si_regexp : string → result (string → bool);
  si_float : string → option GoValue.float64;
  si_quote : string → string;
  si_engine : option Alerting.Engine;
  si_region : string;
  si_auth : bool;
  si_timeout : Z;
  si_evictAfter : Z;
  si_events : Log Event;
  si_alerts : Log Alert;
  si_t0 : Z;
  si_start : system;
  si_staticDir : string;
  si_token : string;
}.

Definition site_reaches (s : site) : Log Event → Z → list (nat * action) → system → Prop :=
  reaches (si_regexp s) (si_float s) (si_quote s) (si_engine s) (si_region s) (si_auth s) (si_timeout s) (si_evictAfter s)
    (si_events s) (si_start s) (si_t0 s).

Definition site_later (s : site) : Log Event → Z → system → system → Prop :=
  later (si_regexp s) (si_float s) (si_quote s) (si_engine s) (si_region s) (si_auth s) (si_timeout s) (si_evictAfter s).

(** The collector starts on a database whose records can be read back, with
    rules and a default region whose texts are valid UTF-8. *)
Record site_ok (s : site) : Prop := {
  ok_texts : texts_ok (si_quote s) (si_engine s);
  ok_region : Valid_utf8 (si_region s);
  ok_events : starts (si_events s) (si_t0 s) (si_start s);
  ok_alerts : starts (si_alerts s) (si_t0 s) (si_start s);
  ok_events_read : ∀ e, kept (si_events s) e → readable_event e;
  ok_alerts_read : ∀ al, kept (si_alerts s) al → alert_ok al;
}.

(** At moment [n] the request for [url] is answered by the router of the
    collector, in a state it reaches, its later reads in later states. *)
Definition answered_by (s : site) (a : Aggregator) (n : moment) (url path : string) (query : list (string * string)) : Prop :=
  ∃ lg t acts σ σs now o seen ws det,
    site_reaches s lg t acts σ ∧ (∀ i, site_later s lg t σ (σs i)) ∧ t <= wall now ∧
    answers (mo_get n) url (header a)
      (HttpApi.Router (si_staticDir s) (si_token s) det (view σ σs now o seen ws)
         (HttpApi.Request path query (default "" (header a)))).

(** A request gets no usable answer. *)
Definition lost (a : Aggregator) (n : moment) (url : string) : Prop :=
  (∃ err, mo_request n url = Some err) ∨ (∃ err, mo_get n url (header a) = Err err) ∨
  (∃ status body, mo_get n url (header a) = Ok (status, body) ∧ status ≠ 200).

(** The network may lose the aggregator's request, but does not forge the
    answer. *)
Definition truthful (s : site) (a : Aggregator) (u : Upstream) (url : string) (n : moment) : Prop :=
  lost a n url ∨
  (url = up_URL u +:+ "/api/nodes" → answered_by s a n url "/api/nodes" []) ∧
  (url = up_URL u +:+ "/api/events?limit=100" → answered_by s a n url "/api/events" [("limit", "100")]) ∧
  (url = up_URL u +:+ "/api/alerts?limit=100" → answered_by s a n url "/api/alerts" [("limit", "100")]).

(** An agent of a region: its collector had it registered at some moment; its
    unexported field is not shown. *)
Definition region_agent (s : site) (n : Registry.AgentNode) : Prop :=
  ∃ lg t acts σ n', site_reaches s lg t acts σ ∧
    Registry.nodes (reg (sy_server σ)) !! Registry.NodeID n' = Some n' ∧ n = exposed n'.

(** An event, or an alert, of a region: its collector started with it, or it
    stems from a message the collector accepted. *)
Definition region_event (s : site) (e : Event) : Prop :=
  kept (si_events s) e ∨ ∃ lg t acts σ, site_reaches s lg t acts σ ∧ genuine acts (sy_streams σ) e.

Definition region_alert (s : site) (al : Alert) : Prop :=
  kept (si_alerts s) al ∨
  ∃ lg t acts σ, site_reaches s lg t acts σ ∧
    genuine_alert (si_regexp s) (si_float s) (si_quote s) (si_engine s) acts (sy_streams σ) al.

(** ** What a collector lists can be read back *)

Lemma eventPayload_within e : wire_ok e → text_within 1 (eventPayload e).
Proof.
  intros Hw. unfold eventPayload. destruct (payload_members e) as [l|] eqn:Hl.
  - apply object_within. eapply Forall_impl; [by eapply payload_flat|]. intros kt (? & _ & v & Hv). split; [done|].
    exists v. auto.
  - exists JNull. intros. apply Text_null.
Qed.

Lemma genuine_readable acts streams e : genuine acts streams e → readable_event e.
Proof.
  intros (id & s & _ & m & now & _ & Hw & [Hv _] & ->). split; [by apply storedEvent_ok|]. by apply eventPayload_within.
Qed.

Lemma genuine_alert_ok regexp fl quote engine acts streams al :
  genuine_alert regexp fl quote engine acts streams al → alert_ok al.
Proof. intros (id & s & _ & m & now & _ & _ & _ & _ & _ & Hok). exact Hok. Qed.

(** ** What the aggregator reads *)

Lemma fetch_status {A} `{Codec A} a n url (l : list A) :
  fetch a n url = Ok l → mo_request n url = None ∧ ∃ body, mo_get n url (header a) = Ok (200, body).
Proof.
  unfold fetch, fetchJSON, header. destruct (mo_request n url); [done|].
  destruct (mo_get n url _) as [[status body]|]; [|done]. cbn [mbind result_bind].
  destruct (Z.eqb_spec status 200) as [->|]; [|done]. eauto.
Qed.

Lemma lost_fetch {A} `{Codec A} a n url (l : list A) : lost a n url → fetch a n url ≠ Ok l.
Proof.
  intros Hl [Hreq [body Hget]]%fetch_status. destruct Hl as [[err He]|[[err He]|(status & body' & He & Hne)]]; congruence.
Qed.

(** A gated route that answered 200 answered with its handler. *)
Lemma router_200 dir tok det e path query auth h n url au :
  HttpApi.gated det path = Some h →
  answers (mo_get n) url au (HttpApi.Router dir tok det e (HttpApi.Request path query auth)) →
  (∃ body, mo_get n url au = Ok (200, body)) →
  answers (mo_get n) url au (h e (HttpApi.Request path query auth)).
Proof.
  intros Hg Hans [body Hget]. unfold HttpApi.Router in Hans. cbn [HttpApi.rq_path] in Hans. rewrite Hg in Hans.
  revert Hans. apply (BearerAuth_case (λ r, answers (mo_get n) url au r → _)); [done|].
  intros msg (s & Hs & _). rewrite Hget in Hs. done.
Qed.

(** The agents registered in a state the collector reaches. *)
Lemma site_agents s lg t acts σ σ' o :
  site_ok s → site_reaches s lg t acts σ → site_later s lg t σ σ' →
  let l := exposed <$> Registry.List o (reg (sy_server σ')) in Forall (listable 1) l ∧ Forall (region_agent s) l.
Proof.
  intros [_ Hreg Hse _ _ _] Hr Hl l. destruct Hl as (lg' & t' & acts' & Hr').
  pose proof (reach_trans _ _ _ _ _ _ _ _ _ _ _ _ _ _ _ _ _ _ _ Hr Hr') as Hall.
  assert (Registry.nodes (reg (sy_server (si_start s))) = ∅) as Hempty by apply (start_nodes _ _ _ Hse).
  assert (Registry.registry_ok (reg (sy_server σ'))) as Hok.
  { eapply reach_registry; [exact Hall|]. unfold Registry.registry_ok. rewrite Hempty. apply map_Forall_empty. }
  assert (readable (reg (sy_server σ'))) as Hread.
  { eapply reach_readable; [exact Hall|done|]. unfold readable. rewrite Hempty. apply map_Forall_empty. }
  unfold l. rewrite !Forall_fmap, !Forall_forall. split; intros n [id Hn]%Registry.elem_of_List.
  - apply node_listable, (Hread id n Hn).
  - exists lg', t', (acts ++ acts'), σ', n. split; [exact Hall|]. split; [|done]. by destruct (Hok id n Hn) as (-> & _).
Qed.

(** The list endpoints for a hundred records, in terms of the region. *)
Lemma site_lists s lg t acts σ σs now o seen ws path auth :
  site_ok s → site_reaches s lg t acts σ → (∀ i, site_later s lg t σ (σs i)) → t <= wall now →
  let c := HttpApi.Request path [("limit", "100")] auth in
  ∃ evs als,
    HttpApi.get_events (view σ σs now o seen ws) c = HttpApi.Response 200 (HttpApi.BEvents evs) ∧
    HttpApi.get_alerts (view σ σs now o seen ws) c = HttpApi.Response 200 (HttpApi.BAlerts als) ∧
    Forall (λ e, region_event s e ∧ listable 2 e) evs ∧ Forall (λ al, region_alert s al ∧ listable 1 al) als.
Proof.
  intros [Htx _ Hse Hsa Hre Hra] Hr Hlater Ht c.
  pose proof (lists_answer _ _ _ _ _ _ _ _ _ _ _ _ _ _ _ _ _ now o seen ws c Htx Hse Hsa Hr Hlater Ht) as Hl.
  change (HttpApi.parseLimit c "limit" 100) with (Ok 100) in Hl. cbv iota beta zeta in Hl.
  destruct Hl as (evs & als & alg & He & Ha & _ & _ & _ & _ & _ & _ & Hge & Hga & _).
  exists evs, als. do 2 (split; [done|]). split.
  - eapply Forall_impl; [exact Hge|]. intros e He'. split.
    + destruct He' as [|Hg]; [by left|right]. by exists lg, t, acts, σ.
    + assert (readable_event e) as []; [|by apply event_listable].
      destruct He' as [Hk|Hg]; [by apply Hre|by eapply genuine_readable].
  - eapply Forall_impl; [exact Hga|]. intros al Ha'. split.
    + destruct Ha' as [|Hg]; [by left|right]. by exists lg, t, acts, σ.
    + apply alert_listable. destruct Ha' as [Hk|Hg]; [by apply Hra|by eapply genuine_alert_ok].
Qed.

Lemma fetched_agents s a u n l :
  let url := up_URL u +:+ "/api/nodes" in
  site_ok s → truthful s a u url n → fetch a n url = Ok l → Forall (region_agent s) l.
Proof.
  intros url Hok [Hlost|[Hans _]] Hf; [by apply lost_fetch in Hf|].
  destruct (Hans eq_refl) as (lg & t & acts & σ & σs & now & o & seen & ws & det & Hr & Hlater & Ht & Ha).
  pose proof (fetch_status _ _ _ _ Hf) as [Hreq Hget]. apply (router_200 _ _ _ _ _ _ _ HttpApi.get_nodes) in Ha; [|done..].
  apply nodes_answer in Ha as (body & Hg & Hbody & Hlen). cbn [HttpApi.e_order HttpApi.e_registry view] in Hbody.
  destruct (site_agents s lg t acts σ (σs 0%nat) (o 0%nat) Hok Hr (Hlater 0%nat)) as [Hread Hagents].
  set (agents := exposed <$> _) in *.
  unfold fetch in Hf. rewrite (fetch_list _ _ 1 a url agents body) in Hf; [|done..|unfold maxNestingDepth; lia|done].
  by injection Hf as <-.
Qed.

Lemma fetched_events s a u n l :
  let url := up_URL u +:+ "/api/events?limit=100" in
  site_ok s → truthful s a u url n → fetch a n url = Ok l → Forall (region_event s) l.
Proof.
  intros url Hok [Hlost|(_ & Hans & _)] Hf; [by apply lost_fetch in Hf|].
  destruct (Hans eq_refl) as (lg & t & acts & σ & σs & now & o & seen & ws & det & Hr & Hlater & Ht & Ha).
  pose proof (fetch_status _ _ _ _ Hf) as [Hreq Hget].
  apply (router_200 _ _ _ _ _ _ _ HttpApi.get_events) in Ha; [|done..].
  destruct (site_lists s lg t acts σ σs now o seen ws "/api/events" (default "" (header a)) Hok Hr Hlater Ht)
    as (evs & als & He & _ & Hevs & _). rewrite He in Ha. destruct Ha as (body & Hg & Hbody & Hlen).
  unfold fetch in Hf. rewrite (fetch_list _ _ 2 a url evs body) in Hf; [|done..|unfold maxNestingDepth; lia|].
  - injection Hf as <-. eapply Forall_impl; [exact Hevs|]. by intros ? [].
  - eapply Forall_impl; [exact Hevs|]. by intros ? [].
Qed.

Lemma fetched_alerts s a u n l :
  let url := up_URL u +:+ "/api/alerts?limit=100" in
  site_ok s → truthful s a u url n → fetch a n url = Ok l → Forall (region_alert s) l.
Proof.
  intros url Hok [Hlost|(_ & _ & Hans)] Hf; [by apply lost_fetch in Hf|].
  destruct (Hans eq_refl) as (lg & t & acts & σ & σs & now & o & seen & ws & det & Hr & Hlater & Ht & Ha).
  pose proof (fetch_status _ _ _ _ Hf) as [Hreq Hget].
  apply (router_200 _ _ _ _ _ _ _ HttpApi.get_alerts) in Ha; [|done..].
  destruct (site_lists s lg t acts σ σs now o seen ws "/api/alerts" (default "" (header a)) Hok Hr Hlater Ht)
    as (evs & als & _ & He & _ & Hals). rewrite He in Ha. destruct Ha as (body & Hg & Hbody & Hlen).
  unfold fetch in Hf. rewrite (fetch_list _ _ 1 a url als body) in Hf; [|done..|unfold maxNestingDepth; lia|].
  - injection Hf as <-. eapply Forall_impl; [exact Hals|]. by intros ? [].
  - eapply Forall_impl; [exact Hals|]. by intros ? [].
Qed.

(** C2: The mesh shows nothing but what agents sent.  An aggregator polls the
    collectors of its regions, each running on its own, over a network that
    may lose requests but does not forge answers.  Whatever the interleaving of
    agents, collectors, polls and clients, every event the aggregator serves is
    an event a region's collector started with or the record of a message that
    collector accepted: well-formed, arrived on a stream, of the node the stream is
    authenticated as; and every alert it serves is one a region's collector
    started with or one raised about such a message by a rule that holds for it
    or by the detector; and every agent it lists was registered with a region's
    collector. *)
Theorem mesh_genuine (sites : Upstream → site) staticDir token ups interval apiTok tr p c r p' :
  let a := New ups interval apiTok in
  (∀ u, u ∈ ups → site_ok (sites u)) →
  (∀ u url n, LFetch u url n ∈ tr → truthful (sites u) a u url n) →
  runs staticDir token a tr p → step staticDir token p (LReply c r) p' →
  match r with
  | RNodes l => Forall (λ n, ∃ u, u ∈ ups ∧ region_agent (sites u) n) l
  | REvents l => Forall (λ e, ∃ u, u ∈ ups ∧ region_event (sites u) e) l
  | RAlerts l => Forall (λ al, ∃ u, u ∈ ups ∧ region_alert (sites u) al) l
  | _ => True
  end.
Proof.
  intros a Hok Htrue Hr Hs.
  destruct (reply_source _ _ _ _ _ _ _ _ _ _ Hr Hs) as (o & old & recent & Htr & _ & _ & _ & _ & Hg).
  assert (∀ u url n, LFetch u url n ∈ LBegin :: recent → truthful (sites u) a u url n) as Hrec.
  { intros u url n Hin. apply Htrue. rewrite Htr. apply elem_of_app. by right. }
  destruct r as [l|l|l| |]; try done; (eapply Forall_impl; [exact Hg|]).
  - intros e (u & n & l' & Hu & Hin & Hf & Hx). exists u. split; [done|].
    assert (Forall (region_agent (sites u)) l') as Hall by (eapply fetched_agents; eauto).
    rewrite Forall_forall in Hall. auto.
  - intros e (u & n & l' & Hu & Hin & Hf & Hx). exists u. split; [done|].
    assert (Forall (region_event (sites u)) l') as Hall by (eapply fetched_events; eauto).
    rewrite Forall_forall in Hall. auto.
  - intros al (u & n & l' & Hu & Hin & Hf & Hx). exists u. split; [done|].
    assert (Forall (region_alert (sites u)) l') as Hall by (eapply fetched_alerts; eauto).
    rewrite Forall_forall in Hall. auto.
Qed.

End Mesh.

(** ** Witness *)

Module Example.
#[local] Existing Instance Reference.badger.
Import Collector.Example CollectorApi.Example.

Definition u1 : Upstream := Aggregator.Example.r1.
Definition agg1 : Aggregator := New [u1] 0 "s3cret".

(** The collector of [Collector.Example], behind the only upstream. *)
Definition site1 : site :=
  Site Receiver.Example.no_regexp Receiver.Example.no_float Quote Receiver.Example.engine "eu" true (60 * Second) Hour
    empty_log empty_log T system0 "web" "s3cret".

Definition ask (path : string) (query : list (string * string)) : HttpApi.response :=
  HttpApi.Router "web" "s3cret" None view0 (HttpApi.Request path query (default "" (header agg1))).

Definition net_get (url : string) (auth : option string) : result (Z * string) :=
  let reply r := Ok (HttpApi.rsp_status r, Aggregator.Example.text_of (HttpApi.rsp_body r)) in
  if url =s up_URL u1 +:+ "/api/nodes" then reply (ask "/api/nodes" [])
  else if url =s up_URL u1 +:+ "/api/events?limit=100" then reply (ask "/api/events" [("limit", "100")])
  else if url =s up_URL u1 +:+ "/api/alerts?limit=100" then reply (ask "/api/alerts" [("limit", "100")])
  else Err "connect: connection refused".

Definition net : moment := Moment Aggregator.Example.no_error net_get.

Lemma site1_ok : site_ok site1.
Proof.
  split; [apply texts_ok0|by vm_compute|apply starts0|apply starts0_alerts| |]; intros x (k & d & Hk); cbn in Hk; by rewrite lookup_empty in Hk.
Qed.

Lemma net_answers path query url :
  (path, query, url) ∈ [("/api/nodes", [], up_URL u1 +:+ "/api/nodes");
    ("/api/events", [("limit", "100")], up_URL u1 +:+ "/api/events?limit=100");
    ("/api/alerts", [("limit", "100")], up_URL u1 +:+ "/api/alerts?limit=100")] →
  answered_by site1 agg1 net url path query.
Proof.
  intros Hin. exists lg1, t1, acts1, system1, (λ _, checked), now0, (λ _, canonical_order), canonical_order, canonical_order, None.
  split; [apply reaches_system1|]. split; [intros _; apply later_checked|]. split; [rewrite t1_eq; by vm_compute|].
  repeat (apply elem_of_cons in Hin as [[= -> -> ->]|Hin]; [apply Aggregator.Example.answers_text; vm_compute; reflexivity|]).
  by apply elem_of_nil in Hin.
Qed.

Lemma net_truthful url : truthful site1 agg1 u1 url net.
Proof. right. split_and!; intros ->; apply net_answers; set_solver. Qed.

(** One round, then a client asks for the events. *)
Definition schedule1 : list choice := [CSpawn; CFetch 0 net; CFetch 0 net; CFetch 0 net; CWrite 0; CEnd].

Definition test1 (ls : list label) (q : process) : bool :=
  serving (ph q) && (length (Events canonical_order (agg q)) =? 1)%nat &&
  forallb (λ l, match l with LFetch u _ _ => bool_decide (u = u1) | _ => true end) ls.

End Example.
Import Example.
#[local] Existing Instance Reference.badger.

(** The event the example's agent sent is served by the aggregator. *)
Lemma mesh_genuine_witness :
  ∃ ls p l, runs "web" "s3cret" agg1 (LBegin :: ls) p ∧
    step "web" "s3cret" p (LReply AggregatorRun.Example.events_request (REvents l)) p ∧ length l = 1%nat ∧
    Forall (λ e, ∃ u, u ∈ [u1] ∧ region_event site1 e) l.
Proof.
  destruct (passes_runs "web" "s3cret" agg1 schedule1 test1) as (ls & p & He & Hr & Hf); [vm_compute; reflexivity|].
  apply andb_true_iff in Hf as [[Hs Hl%Nat.eqb_eq]%andb_true_iff Hu]. destruct p as [a phase]. cbn [agg ph] in *.
  assert (step "web" "s3cret" (Process a phase) (LReply AggregatorRun.Example.events_request (REvents (Events canonical_order a)))
    (Process a phase)) as Hstep by exact (Step_reply "web" "s3cret" a phase canonical_order _ Hs).
  exists ls, (Process a phase), (Events canonical_order a). do 3 (split; [done|]).
  refine (mesh_genuine (λ _, site1) "web" "s3cret" [u1] 0 "s3cret" _ _ _ _ _ (λ _ _, site1_ok) _ Hr Hstep).
  intros u url n [Heq|Hin]%elem_of_cons; [discriminate Heq|].
  assert (n = net) as -> by (eapply (exec_moments _ _ (λ n, n = net)); [|exact He|exact Hin]; repeat constructor).
  rewrite forallb_forall in Hu. apply list_elem_of_In, Hu, bool_decide_eq_true in Hin. subst u. apply net_truthful.
Defined.

End Mesh.
