(* ===== verification/TokenCli.v ===== *)
(** * The token subcommands ([cmd/collector/token.go])

    [token issue], [token revoke] and [token list].  A command opens the
    database of its data directory, runs one operation of [AgentTokens] and
    closes it; it returns what it printed, its error, and, when it opened the
    database, the contents it leaves there.  Its context is cobra's background
    context, which never ends, so that every transaction completes.

    [open] is the opening of a directory by badger (which fails while another
    process has it open), [quote_go] is the verb [%q].  The rows of [list] are
    given as handed to the tabwriter, which only pads their columns. *)

From S2P Require Import Prelude GoStrings GoTime GoJson StoreData Codec Badger Store AgentToken.
From S2P Require Import Receiver Collector.
Import GoStrings GoTime GoJson Store AgentTokens Receiver.

Module TokenCli.

Section Commands.
Context `{Badger}.
Context (open : string → result DB) (quote_go : string → string).

Record outcome := Outcome { stdout : string; failure : option error; left : option DB }.

(** The clock readings of a run: opening, first transaction, the time
    recorded, second transaction. *)
Record session := Session { se_open : Z; se_read : Z; se_at : Z; se_write : Z }.

Definition newline : string := String "010" "".

Definition openTokenStore (now : Z) (dataDir : string) : result Store :=
  match New (open dataDir) now with
  | Err err =>
      Err ("open store at " +:+ dataDir +:+
           " (if sentinel-collector serve is running against this --data-dir, stop it first — BadgerDB requires exclusive access): "
           +:+ err)
  | Ok st => Ok st
  end.

Definition tokenIssueCmd (se : session) (rnd : result (list Z)) (arg dataDir : string) : outcome :=
  let nodeID := TrimSpace arg in
  if nodeID =s "" then Outcome "" (Some "node_id must not be empty") None
  else
    match openTokenStore (se_open se) dataDir with
    | Err err => Outcome "" (Some err) None
    | Ok st =>
        match IssueToken Completes Completes (se_read se) rnd (se_at se) (se_write se) nodeID st with
        | (Err err, st) => Outcome "" (Some err) (Some (db st))
        | (Ok token, st) => Outcome (token +:+ newline) None (Some (db st))
        end
    end.

(** [ReadString] with a newline: up to the first one, or all there is. *)
Fixpoint ReadString (s : string) : string :=
  match s with
  | EmptyString => ""
  | String c s => if bool_decide (c = "010"%char) then newline else String c (ReadString s)
  end.

Definition confirmed (yes : bool) (stdin : string) : bool :=
  yes || (ToLower (TrimSpace (ReadString stdin)) =s "y").

Definition tokenRevokeCmd (se : session) (yes : bool) (stdin arg dataDir : string) : outcome :=
  let nodeID := TrimSpace arg in
  if nodeID =s "" then Outcome "" (Some "node_id must not be empty") None
  else
    let prompt := if yes then "" else "Revoke token for node_id " +:+ quote_go nodeID +:+ "? [y/N] " in
    if negb (confirmed yes stdin) then Outcome (prompt +:+ "aborted" +:+ newline) None None
    else
      match openTokenStore (se_open se) dataDir with
      | Err err => Outcome prompt (Some err) None
      | Ok st =>
          match RevokeToken Completes Completes (se_read se) (se_at se) (se_write se) nodeID st with
          | (Err err, st) => Outcome prompt (Some err) (Some (db st))
          | (Ok _, st) => Outcome prompt None (Some (db st))
          end
      end.

Definition token_row (tok : AgentToken) : string :=
  at_NodeID tok +:+ String "009" (RFC3339 (at_IssuedAt tok) +:+
    String "009" ((if active tok then "active" else "revoked") +:+ newline)).

Definition token_header : string := "NODE_ID" +:+ String "009" ("ISSUED_AT" +:+ String "009" ("STATUS" +:+ newline)).

Definition tokenListCmd (se : session) (dataDir : string) : outcome :=
  match openTokenStore (se_open se) dataDir with
  | Err err => Outcome "" (Some err) None
  | Ok st =>
      match ListTokens Completes (se_read se) st with
      | Err err => Outcome "" (Some err) (Some (db st))
      | Ok tokens => Outcome (foldl (λ out tok, out +:+ token_row tok) token_header tokens) None (Some (db st))
      end
  end.

End Commands.

(** ** What the commands promise *)

Section Promises.
Context `{Badger}.
Context (quote_go : string → string).

Lemma New_db opened now st : New opened now = Ok st → opened = Ok (db st) ∧ pending st = [].
Proof.
  unfold New, loadCounters. destruct opened as [d|]; [|done]. cbn [mbind result_bind db].
  destruct (load_loop _ _); [|done]. by intros [= <-].
Qed.

Lemma holds_ids st m t : holds st m t → ∀ node rec, m !! node = Some rec → at_NodeID rec = node.
Proof. intros Hh node rec Hm. by destruct (holds_node _ _ _ Hh _ _ Hm). Qed.

(** A context whose first authorization value is the bearer token. *)
Definition presents (token : string) (ctx : context) : Prop :=
  ∃ rest, cx_authorization ctx = Some (("Bearer " +:+ token) :: rest).

Lemma checkAuth_holds st m t now ctx node :
  holds st m t → t <= now →
  checkAuth Completes now ctx st true = inr node ↔ ∃ token, presents token ctx ∧ table_lookup m token = (node, true).
Proof.
  intros Hh Ht. unfold checkAuth, presents. cbn [negb].
  destruct (cx_authorization ctx) as [[|value rest]|]; [naive_solver| |naive_solver].
  destruct (CutPrefix value "Bearer ") as [got|] eqn:Hc.
  - apply CutPrefix_Some in Hc as ->. rewrite (holds_lookup _ _ _ _ _ Hh Ht).
    split.
    + destruct (table_lookup m got) as [n []] eqn:Hl; [|done]. intros [= ->]. eauto.
    + intros (token & (rest' & [= He _]) & Hl). apply string_app_inj in He as ->. by rewrite Hl.
  - split; [done|]. intros (token & (rest' & [= He _]) & _). subst value.
    assert (CutPrefix ("Bearer " +:+ token) "Bearer " = Some token) by (by apply CutPrefix_Some). congruence.
Qed.

(** *** Which record a lookup returns *)

Lemma StronglySorted_last {A} (R : A → A → Prop) l x :
  StronglySorted R l → last l = Some x → Forall (λ y, y = x ∨ R y x) l.
Proof.
  induction 1 as [|y l Hl IH Hy]; [done|]. rewrite last_cons. destruct (last l) as [z|] eqn:Hz.
  - intros [= ->]. constructor; [|by apply IH]. right. rewrite Forall_forall in Hy. apply Hy.
    rewrite last_lookup in Hz. by eapply list_elem_of_lookup_2.
  - apply last_None in Hz as ->. intros [= ->]. by repeat constructor.
Qed.

Lemma omap_sorted (m : gmap string AgentToken) nodes :
  (∀ node rec, m !! node = Some rec → at_NodeID rec = node) → StronglySorted String.le nodes →
  StronglySorted (λ a b, String.le (at_NodeID a) (at_NodeID b)) (omap (λ node, m !! node) nodes).
Proof.
  intros Hn. induction 1 as [|node nodes Hs IH Hall]; [constructor|]. simpl.
  destruct (m !! node) as [rec|] eqn:Hm; [|done]. constructor; [done|]. apply Forall_forall.
  intros rec' (node' & Hin & Hm')%list_elem_of_omap. rewrite (Hn _ _ Hm), (Hn _ _ Hm').
  rewrite Forall_forall in Hall. by apply Hall.
Qed.

(** Of the active records with the token's hash, the one of the greatest node. *)
Lemma table_lookup_greatest m token node :
  (∀ node rec, m !! node = Some rec → at_NodeID rec = node) →
  table_lookup m token = (node, true) ↔
  ∃ rec, m !! node = Some rec ∧ matches (hashToken token) rec ∧
         ∀ node' rec', m !! node' = Some rec' → matches (hashToken token) rec' → String.le node' node.
Proof.
  intros Hn. unfold table_lookup. rewrite lookup_fold.
  set (l := filter (matches (hashToken token)) (table_list m)).
  assert (∀ node rec, m !! node = Some rec → matches (hashToken token) rec → rec ∈ l) as Hin.
  { intros node' rec Hm Hx. apply list_elem_of_filter. split; [done|].
    apply elem_of_table_list; [done|]. by rewrite (Hn _ _ Hm). }
  assert (∀ rec, last l = Some rec → m !! at_NodeID rec = Some rec ∧ matches (hashToken token) rec ∧
     ∀ node' rec', m !! node' = Some rec' → matches (hashToken token) rec' → String.le node' (at_NodeID rec)) as Hlast.
  { intros rec Hl. destruct (last_filter_elem _ _ _ Hl) as [Hx Hm%elem_of_table_list]; [|done]. split; [done|].
    split; [done|]. intros node' rec' Hm' Hx'.
    assert (StronglySorted (λ a b, String.le (at_NodeID a) (at_NodeID b)) l) as Hs.
    { apply StronglySorted_filter, omap_sorted; [done|]. apply sort_Strings_Sorted. }
    pose proof (StronglySorted_last _ _ _ Hs Hl) as Hall. rewrite Forall_forall in Hall.
    destruct (Hall rec' (Hin _ _ Hm' Hx')) as [-> | Hle]; rewrite <-(Hn _ _ Hm'); done. }
  destruct (last l) as [rec|] eqn:Hl.
  - destruct (Hlast rec eq_refl) as (Hm & Hx & Hmax). split.
    + intros [= <-]. eauto.
    + intros (rec' & Hm' & Hx' & Hmax'). f_equal. apply (anti_symm String.le); eauto.
  - split; [done|]. intros (rec & Hm & Hx & _). apply last_None in Hl. specialize (Hin _ _ Hm Hx).
    rewrite Hl in Hin. by apply elem_of_nil in Hin.
Qed.

(** What a successful [token issue] leaves. *)
Lemma issue_holds open se rnd arg dataDir st m t out d :
  New (open dataDir) (se_open se) = Ok st → holds st m t → t <= se_read se <= se_write se →
  Valid_utf8 (TrimSpace arg) → year_ok (se_at se) →
  tokenIssueCmd open se rnd arg dataDir = Outcome out None (Some d) →
  ∃ token, out = token +:+ newline ∧ TrimSpace arg ≠ "" ∧
    (∀ rec, m !! TrimSpace arg = Some rec → active rec = false) ∧
    ∀ st1, db st1 = d → holds st1 (<[TrimSpace arg := issued_record (TrimSpace arg) token (se_at se)]> m) (se_write se).
Proof.
  intros Hnew Hh Ht Hu Hy. unfold tokenIssueCmd. case_bool_decide as Hne; [done|].
  unfold openTokenStore. rewrite Hnew.
  destruct (IssueToken _ _ _ _ _ _ _ _) as [[token|] st'] eqn:Hi; [|done]. intros [= <- <-].
  destruct (IssueToken_ok _ _ _ _ _ _ _ _ _ _ Hh Ht Hu Hy Hi) as [Hold Hh'].
  exists token. repeat (split; [done|]). intros st1 Hdb. by eapply Collector.holds_db.
Qed.

(** What a successful [token revoke] leaves, confirmed or not. *)
Lemma revoke_holds open se yes stdin arg dataDir st m t out d :
  New (open dataDir) (se_open se) = Ok st → holds st m t → t <= se_read se <= se_write se → year_ok (se_at se) →
  tokenRevokeCmd open quote_go se yes stdin arg dataDir = Outcome out None (Some d) →
  ∃ m', (∀ st1, db st1 = d → holds st1 m' (se_write se)) ∧
        (∀ rec, m' !! TrimSpace arg = Some rec → active rec = false) ∧
        ∀ node, node ≠ TrimSpace arg → m' !! node = m !! node.
Proof.
  intros Hnew Hh Ht Hy. unfold tokenRevokeCmd. case_bool_decide; [done|].
  destruct (confirmed yes stdin); [|done]. cbn [negb]. unfold openTokenStore. rewrite Hnew.
  destruct (RevokeToken _ _ _ _ _ _ _) as [[[]|] st'] eqn:Hr; [|done]. intros [= <- <-].
  destruct (RevokeToken_ok _ _ _ _ _ _ _ _ Hh Ht Hy Hr) as (m' & Hh' & Hoff & Hrest).
  exists m'. split; [|done]. intros st1 Hdb. by eapply Collector.holds_db.
Qed.

(** A node with an active record is refused another token. *)
Lemma issue_again open se rnd arg dataDir st m t rec d :
  holds st m t → db st = d → open dataDir = Ok d → New (Ok d) (se_open se) = Ok st → t <= se_read se →
  TrimSpace arg ≠ "" → m !! TrimSpace arg = Some rec → active rec = true →
  tokenIssueCmd open se rnd arg dataDir = Outcome "" (Some ErrTokenExists) (Some d).
Proof.
  intros Hh Hdb Hopen Hnew Ht Hne Hm Ha. unfold tokenIssueCmd. rewrite bool_decide_eq_false_2 by done.
  unfold openTokenStore. rewrite Hopen, Hnew. rewrite (active_token_kept _ _ _ _ _ _ _ _ _ _ Hh Ht Hm Ha).
  by rewrite Hdb.
Qed.

Lemma revoked_refused st m t now ctx node :
  holds st m t → t <= now → (∀ rec, m !! node = Some rec → active rec = false) →
  checkAuth Completes now ctx st true ≠ inr node.
Proof.
  intros Hh Ht Hoff (token & _ & Hl)%(checkAuth_holds _ _ _ _ _ _ Hh Ht).
  apply table_lookup_true in Hl as (rec & Hm & Ha & _); [|exact (holds_ids _ _ _ Hh)].
  by rewrite (Hoff _ Hm) in Ha.
Qed.

(** Taking one node's record out of use leaves the others' credentials. *)
Lemma others_kept st1 st2 m m' t t' now ctx off node :
  holds st1 m t → holds st2 m' t' → (∀ rec, m' !! off = Some rec → active rec = false) →
  (∀ node, node ≠ off → m' !! node = m !! node) → t <= now → t' <= now → node ≠ off →
  checkAuth Completes now ctx st1 true = inr node → checkAuth Completes now ctx st2 true = inr node.
Proof.
  intros Hh1 Hh2 Hoff Hrest Ht Ht' Hne (token & Hp & Hl)%(checkAuth_holds _ _ _ _ _ _ Hh1 Ht).
  apply (checkAuth_holds _ _ _ _ _ _ Hh2 Ht'). exists token. split; [done|].
  apply table_lookup_greatest in Hl as (rec & Hm & Hx & Hmax); [|exact (holds_ids _ _ _ Hh1)].
  apply table_lookup_greatest; [exact (holds_ids _ _ _ Hh2)|]. exists rec. rewrite Hrest by done.
  repeat (split; [done|]). intros node' rec' Hm' Hx'. destruct (decide (node' = off)) as [->|Hne'].
  - destruct Hx' as [Ha _]. by rewrite (Hoff _ Hm') in Ha.
  - rewrite Hrest in Hm' by done. eauto.
Qed.

(** C7: The life of a token, across processes.  A token printed by
    [token issue] for a node authenticates that node, at every later time, to a
    collector that serves the same data directory; a second [token issue] for
    it fails without touching the tokens; and once [token revoke] for it has
    succeeded, no credential whatever authenticates as that node, while every
    other node's credentials keep working. *)
Theorem token_lifecycle open se rnd arg dataDir st m t out d1 :
  New (open dataDir) (se_open se) = Ok st → holds st m t → t <= se_read se <= se_write se →
  Valid_utf8 (TrimSpace arg) → year_ok (se_at se) →
  tokenIssueCmd open se rnd arg dataDir = Outcome out None (Some d1) →
  ∃ token, out = token +:+ newline ∧
  ((∀ node rec, m !! node = Some rec → matches (hashToken token) rec → node = TrimSpace arg) →
   ∀ opened1 st1, New (Ok d1) opened1 = Ok st1 →
   (∀ now ctx, se_write se <= now → presents token ctx → checkAuth Completes now ctx st1 true = inr (TrimSpace arg)) ∧
   (∀ open' se' rnd', open' dataDir = Ok d1 → se_open se' = opened1 → se_write se <= se_read se' →
      tokenIssueCmd open' se' rnd' arg dataDir = Outcome "" (Some ErrTokenExists) (Some d1)) ∧
   (∀ open' se' yes stdin out' d2, open' dataDir = Ok d1 → se_open se' = opened1 →
      se_write se <= se_read se' <= se_write se' → year_ok (se_at se') →
      tokenRevokeCmd open' quote_go se' yes stdin arg dataDir = Outcome out' None (Some d2) →
      ∀ opened2 st2 now ctx, New (Ok d2) opened2 = Ok st2 → se_write se' <= now →
      checkAuth Completes now ctx st2 true ≠ inr (TrimSpace arg) ∧
      ∀ node, node ≠ TrimSpace arg → checkAuth Completes now ctx st1 true = inr node →
              checkAuth Completes now ctx st2 true = inr node)).
Proof.
  intros Hnew Hh Ht Hu Hy Hi.
  destruct (issue_holds _ _ _ _ _ _ _ _ _ _ Hnew Hh Ht Hu Hy Hi) as (token & -> & Hne & _ & Hh1).
  exists token. split; [done|]. intros Huniq opened1 st1 Hnew1.
  assert (db st1 = d1) as Hdb by (by apply New_db in Hnew1 as [[= ->] _]).
  specialize (Hh1 st1 Hdb). split; [|split].
  - intros now ctx Hnow Hp. apply (checkAuth_holds _ _ _ _ _ _ Hh1 Hnow). exists token. split; [done|].
    eapply table_lookup_unique; [exact (holds_ids _ _ _ Hh1)|apply lookup_insert_eq|done|].
    intros node rec. rewrite lookup_insert_Some. intros [[<- _]|[_ Hm]] Hx; eauto.
  - intros open' se' rnd' Hopen <- Hread. eapply issue_again; [done..|apply lookup_insert_eq|reflexivity].
  - intros open' se' yes stdin out' d2 Hopen <- Hread Hy' Hrev opened2 st2 now ctx Hnew2 Hnow. rewrite <-Hopen in Hnew1.
    destruct (revoke_holds _ _ _ _ _ _ _ _ _ _ _ Hnew1 Hh1 Hread Hy' Hrev) as (m' & Hh2 & Hoff & Hrest).
    apply New_db in Hnew2 as [[= Hd2] _]. specialize (Hh2 st2 (eq_sym Hd2)).
    split; [by eapply revoked_refused|]. intros node Hnode. apply (others_kept st1 st2 _ _ _ _ _ _ (TrimSpace arg) node Hh1 Hh2 Hoff Hrest); [lia|done..].
Qed.

End Promises.
(** ** Witness *)

Module Example.
#[local] Existing Instance Reference.badger.
Import AgentTokens.Example.

(** Issuing at [T], serving or revoking an hour later. *)
Definition se1 : session := Session T T T T.
Definition se2 : session := Session T (T + Hour) (T + Hour) (T + Hour).
Definition empty_disk (dir : string) : result DB := Ok (∅ : Reference.entries).
Definition disk1 (dir : string) : result DB := Ok (db s1).
Definition ctx1 : context := Ctx None (Some ["Bearer " +:+ token]) None.
Definition revoked : outcome := tokenRevokeCmd disk1 (λ s, s) se2 false ("Y" +:+ newline) "web-01" "d".
Definition d2 : DB := default (∅ : Reference.entries) (left revoked).
Definition st_of (d : DB) : Store := match New (Ok d) T with Ok s => s | Err _ => Store.Example.store0 end.

Lemma issued_ex : tokenIssueCmd empty_disk se1 rnd " web-01 " "d" = Outcome (token +:+ newline) None (Some (db s1)).
Proof.
  unfold tokenIssueCmd, openTokenStore. change (TrimSpace " web-01 ") with "web-01".
  assert (New (empty_disk "d") (se_open se1) = Ok Store.Example.store0) as -> by exact Store.Example.New_empty.
  change (IssueToken _ _ _ _ _ _ _ _) with (issue "web-01" Store.Example.store0).
  by rewrite issue_ex.
Qed.

Lemma New_ok d : is_Ok (New (Ok d) T) = true → New (Ok d) T = Ok (st_of d).
Proof. unfold st_of. by destruct (New (Ok d) T). Qed.

Lemma st1_ex : New (Ok (db s1)) T = Ok (st_of (db s1)).
Proof. apply New_ok. vm_compute. reflexivity. Qed.

Lemma revoked_ex : revoked = Outcome "Revoke token for node_id web-01? [y/N] " None (Some d2).
Proof.
  assert (∀ o : outcome, stdout o = "Revoke token for node_id web-01? [y/N] " → failure o = None →
    match left o with Some _ => true | None => false end = true →
    o = Outcome "Revoke token for node_id web-01? [y/N] " None (Some (default (∅ : Reference.entries) (left o)))) as Ho
    by (by intros [? ? []]; simpl; intros; subst).
  apply Ho; vm_compute; reflexivity.
Qed.

Lemma st2_ex : New (Ok d2) T = Ok (st_of d2).
Proof. apply New_ok. vm_compute. reflexivity. Qed.
End Example.

Import Example AgentTokens.Example.
#[local] Existing Instance Reference.badger.

Lemma token_lifecycle_witness :
  checkAuth Completes (T + 1000 * Hour) ctx1 (st_of (db s1)) true = inr "web-01" ∧
  checkAuth Completes (T + 1000 * Hour) ctx1 (st_of d2) true ≠ inr "web-01".
Proof.
  destruct (token_lifecycle (λ s, s) empty_disk se1 rnd " web-01 " "d" Store.Example.store0 ∅ T _ _
    Store.Example.New_empty holds_empty (conj (Z.le_refl _) (Z.le_refl _)) eq_refl T_ok issued_ex)
    as (token' & Heq & Hlife).
  assert (token' = token) as -> by (apply (f_equal bytes) in Heq; rewrite !bytes_app in Heq; by apply (inj bytes), (app_inv_tail (bytes newline))).
  destruct (Hlife ltac:(intros node rec Hl; by rewrite lookup_empty in Hl) T _ st1_ex) as (H1 & _ & H3).
  split.
  - apply H1; [by vm_compute|by exists []].
  - apply (H3 disk1 se2 false ("Y" +:+ newline) _ d2 eq_refl eq_refl ltac:(by vm_compute) ltac:(by vm_compute) revoked_ex T _ _ ctx1 st2_ex).
    by vm_compute.
Defined.

End TokenCli.
