(* ===== verification/Serve.v ===== *)
(** * Starting the collector ([cmd/collector/main.go], [receiver.Serve])

    [serve] is the command: it checks its flags, and either builds the
    collector (the store, the registry with its checker, the alerting engine,
    the providers, the detector, the dispatcher, the REST server) or, in
    aggregate mode, the aggregator.  It returns the warnings it logs and the
    process it starts or the error it ends with.  [Serve] is the gRPC server
    around it, from listening to its graceful stop.

    What the environment supplies is an argument: the opening of the database,
    the environment variables, the rules file, the regular expressions, the
    providers' constructors, the listener and the TLS files.  Flag parsing is
    cobra's; the values of the flags and which were set are given. *)

From S2P Require Import Prelude GoStrings GoTime GoJson GoValue StoreData Codec Badger Store StoreLog AgentToken.
From S2P Require Import Registry Anomaly Notify Alerting HttpApi Aggregator Metrics Receiver Collector TokenCli.
Import GoStrings GoTime Store StoreLog AgentTokens Receiver Collector.

Module Serve.

(** ** The HTTP server *)

Definition httpReadHeaderTimeout : Z := 5 * Second.
Definition httpReadTimeout : Z := 15 * Second.
Definition httpWriteTimeout : Z := 30 * Second.
Definition httpIdleTimeout : Z := 60 * Second.
Definition httpShutdownTimeout : Z := 10 * Second.

Record http_server := HttpServer {
  hs_Addr : string;
  hs_ReadHeaderTimeout : Z; hs_ReadTimeout : Z; hs_WriteTimeout : Z; hs_IdleTimeout : Z;
}.

Definition newHTTPServer (addr : string) : http_server :=
  HttpServer addr httpReadHeaderTimeout httpReadTimeout httpWriteTimeout httpIdleTimeout.

(** How a server ends: [ListenAndServe] returns first, or the context ends
    first and [Shutdown], under its timeout, returns an error or nil. *)
Inductive http_end :=
| Returned (err : option error)
| Interrupted (shutdown : option error).

Definition ErrServerClosed : error := "http: Server closed".

(** The lines logged. *)
Definition runHTTPServerUntilDone (name : string) (e : http_end) : list string :=
  match e with
  | Returned None => []
  | Returned (Some err) => if err =s ErrServerClosed then [] else [name +:+ " stopped: " +:+ err]
  | Interrupted None => [name +:+ " shutting down"]
  | Interrupted (Some err) => [name +:+ " shutting down"; name +:+ " graceful shutdown failed: " +:+ err]
  end.

(** ** The gRPC server *)

Definition maxConcurrentStreams : Z := 256.
Definition maxRecvMsgSize : Z := 4 * 1024 * 1024.
Definition grpcShutdownGracePeriod : Z := 10 * Second.

Record grpc_options := GrpcOptions {
  go_tls : option (string * string);
  go_auth : bool;
  go_maxStreams : Z; go_maxMsg : Z; go_minPing : Z; go_pingWithoutStream : bool;
}.

Definition ErrServerStopped : error := "grpc: the server has been stopped".

(** [listen], [load] and [served] are the errors of [net.Listen], of loading
    the TLS files and of [srv.Serve] with the options. *)
Definition Serve (listen : string → option error) (load : string → string → option error)
    (served : grpc_options → option error) (addr tlsCertFile tlsKeyFile : string) (authEnabled : bool)
    : result unit :=
  match listen addr with
  | Some err => Err ("listen " +:+ addr +:+ ": " +:+ err)
  | None =>
      creds ←
        (if (tlsCertFile <>s "") && (tlsKeyFile <>s "") then
           match load tlsCertFile tlsKeyFile with
           | Some err => Err ("load TLS cert/key: " +:+ err)
           | None => Ok (Some (tlsCertFile, tlsKeyFile))
           end
         else Ok None);
      match served (GrpcOptions creds authEnabled maxConcurrentStreams maxRecvMsgSize (10 * Second) true) with
      | Some err => if err =s ErrServerStopped then Ok tt else Err err
      | None => Ok tt
      end
  end.

(** [graceful] is how long [GracefulStop] takes, [None] if it never returns;
    the result is whether the stop was forced, and after how long. *)
Definition gracefulStopWithTimeout (graceful : option Z) (gracePeriod : Z) : bool * Z :=
  match graceful with
  | Some d => if d <? gracePeriod then (false, d) else (true, gracePeriod)
  | None => (true, gracePeriod)
  end.

Lemma stop_bounded graceful gracePeriod :
  (gracefulStopWithTimeout graceful gracePeriod).2 <= gracePeriod ∧
  ((gracefulStopWithTimeout graceful gracePeriod).1 = false ↔ ∃ d, graceful = Some d ∧ d < gracePeriod).
Proof.
  unfold gracefulStopWithTimeout. destruct graceful as [d|]; [|naive_solver lia].
  destruct (Z.ltb_spec d gracePeriod); naive_solver lia.
Qed.

(** TLS is on exactly when both files are given; one alone is ignored. *)
Lemma Serve_tls listen load served addr cert key auth :
  listen addr = None → (cert = "" ∨ key = "" ∨ load cert key = None) →
  Serve listen load served addr cert key auth =
  match served (GrpcOptions (if decide (cert ≠ "" ∧ key ≠ "") then Some (cert, key) else None) auth
                  maxConcurrentStreams maxRecvMsgSize (10 * Second) true) with
  | Some err => if err =s ErrServerStopped then Ok tt else Err err
  | None => Ok tt
  end.
Proof.
  intros Hl Hload. unfold Serve. rewrite Hl. case_decide as Hboth.
  - destruct Hboth as [Hc Hk]. rewrite !bool_decide_eq_false_2 by done. cbn [negb andb].
    destruct Hload as [|[|Hload]]; [done..|]. by rewrite Hload.
  - repeat case_bool_decide; try done. exfalso. tauto.
Qed.

(** ** Tracing ([internal/otel/traces.go]) *)

(** The endpoint spans are exported to, if any. *)
Record TracesProvider := MkTraces { tp_endpoint : option string }.

Definition NewTracesProvider (exporter : string → option error) (otelEndpoint : string) : result TracesProvider :=
  if otelEndpoint =s "" then Ok (MkTraces None)
  else match exporter otelEndpoint with Some err => Err err | None => Ok (MkTraces (Some otelEndpoint)) end.

(** The closer: nothing to shut down without an endpoint, the provider's
    [Shutdown], whose error is given, with one. *)
Definition Close (shutdown : option error) (tp : TracesProvider) : option error :=
  match tp_endpoint tp with None => None | Some _ => shutdown end.

(** ** Flags *)

Record flags := Flags {
  fl_grpcAddr : string; fl_tlsCert : string; fl_tlsKey : string; fl_httpAddr : string;
  fl_dataDir : string; fl_heartbeatTimeout : Z; fl_rules : string; fl_otelEndpoint : string;
  fl_region : string; fl_staticDir : string; fl_corsOrigins : list string;
  fl_aggregate : bool; fl_upstreams : list string; fl_pollInterval : Z;
  fl_changed : list string;
}.

(** The defaults [serveCmd] declares. *)
Definition default_flags : flags :=
  Flags ":50051" "" "" ":8081" "/tmp/sentinel-data" (60 * Second) "" "" "default" "./static" []
    false [] (10 * Second) [].

Definition Changed (fl : flags) (name : string) : bool := bool_decide (name ∈ fl_changed fl).

Definition warnIgnoredNormalModeFlags (fl : flags) : list string :=
  (if Changed fl "grpc-addr" && (fl_grpcAddr fl <>s ":50051") then ["--aggregate mode ignores --grpc-addr"] else []) ++
  ((λ name, "--aggregate mode ignores --" +:+ name) <$>
     filter (λ name, Changed fl name = true) ["data-dir"; "rules"; "grpc-tls-cert"; "grpc-tls-key"; "region"]).

(** ** The command *)

Section Command.
Context `{Badger}.
Context (open : string → result DB) (Getenv : string → string) (logger : option error).
Context (stat : string → option error) (read : string → result string) (yaml : string → result Alerting.RuleSet).
Context (regexp : string → result (string → bool)) (quote_go : string → string).
Context (exporter events alerts failures : option error) (trace_exporter : string → option error).
Context (url_parse : string → result (string * string)).

(** A collector about to serve: its shared state, and what its goroutines,
    its REST router and [receiver.Serve] are started with. *)
Record collector := MkCollector {
  c_system : system;
  c_engine : Alerting.Engine;
  c_region : string;
  c_checker : Z * Z * Z;
  c_gc : Z;
  c_traces : TracesProvider;
  c_http : http_server;
  c_staticDir : string;
  c_corsOrigins : list string;
  c_apiToken : string;
  c_grpcAddr : string;
  c_tlsCert : string;
  c_tlsKey : string;
  c_auth : bool;
}.

Inductive process :=
| Collecting (c : collector)
| Aggregating (a : Aggregator.Aggregator) (srv : http_server) (staticDir : string) (corsOrigins : list string)
    (apiToken : string).

Definition unauthenticated (what : string) (need : string) : string :=
  what +:+ " is UNAUTHENTICATED — set " +:+ HttpApi.EnvAPIToken +:+ " to require " +:+ need.

Definition no_tls : string :=
  "gRPC server is running WITHOUT TLS — set --grpc-tls-cert/--grpc-tls-key to require it".

Definition runAggregate (fl : flags) : list string * result process :=
  let apiToken := HttpApi.TokenFromEnv Getenv in
  let warns := if apiToken =s "" then [unauthenticated "aggregator REST API" "a bearer token"] else [] in
  (warns,
   upstreams ← Aggregator.ParseUpstreams url_parse quote_go (fl_upstreams fl);
   if (length upstreams =? 0)%nat then Err "--aggregate requires at least one --upstreams region=url"
   else Ok (Aggregating (Aggregator.New upstreams (fl_pollInterval fl) apiToken) (newHTTPServer (fl_httpAddr fl))
              (fl_staticDir fl) (fl_corsOrigins fl) apiToken)).

(** The normal mode, up to the last step that can fail. *)
Definition start_collector (now : Z) (fl : flags) : result collector :=
  let wrap {A} (what : string) (r : result A) : result A :=
    match r with Err err => Err (what +:+ ": " +:+ err) | Ok a => Ok a end in
  st ← wrap "badger open" (New (open (fl_dataDir fl)) now);
  let heartbeatTimeout := fl_heartbeatTimeout fl in
  if heartbeatTimeout <=? 0
  then Err ("--heartbeat-timeout must be positive, got " +:+ Duration_String heartbeatTimeout)
  else
    ruleset ← wrap "load rules" (Alerting.LoadRules quote_go stat read yaml (fl_rules fl));
    match Alerting.Validate regexp quote_go ruleset with
    | Some err => Err ("validate rules: " +:+ err)
    | None =>
        metrics ← wrap "otel metrics" (Metrics.NewMetricsProvider exporter events alerts failures);
        traces ← wrap "otel traces" (NewTracesProvider trace_exporter (fl_otelEndpoint fl));
        let apiToken := HttpApi.TokenFromEnv Getenv in
        Ok (MkCollector
              (started_on st (Some (Anomaly.New [])) (Some (Notify.DispatcherFromEnv Getenv)) (Some metrics))
              (Alerting.New (Some ruleset)) (fl_region fl)
              (Registry.StartHeartbeatChecker heartbeatTimeout (Z.quot heartbeatTimeout 2) Registry.DefaultEvictAfter)
              Minute traces (newHTTPServer (fl_httpAddr fl)) (fl_staticDir fl) (fl_corsOrigins fl) apiToken
              (fl_grpcAddr fl) (fl_tlsCert fl) (fl_tlsKey fl) (apiToken <>s ""))
    end.

Definition collector_warnings (c : collector) : list string :=
  (if c_apiToken c =s "" then [unauthenticated "REST API" "a bearer token"] else []) ++
  (if (c_tlsCert c =s "") || (c_tlsKey c =s "")
   then [no_tls] else []) ++
  (if negb (c_auth c) then [unauthenticated "gRPC server" "per-agent tokens"] else []).

Definition serveCmd (now : Z) (fl : flags) : list string * result process :=
  if negb (fl_aggregate fl) && (Changed fl "upstreams" || Changed fl "poll-interval")
  then ([], Err "--upstreams/--poll-interval require --aggregate")
  else
    match logger with
    | Some err => ([], Err err)
    | None =>
        if fl_aggregate fl then
          let '(warns, r) := runAggregate fl in (warnIgnoredNormalModeFlags fl ++ warns, r)
        else
          match start_collector now fl with
          | Err err => ([], Err err)
          | Ok c => (collector_warnings c, Ok (Collecting c))
          end
    end.

(** The command as it is executed: [MarkFlagsRequiredTogether] makes the flag
    parser refuse one TLS flag without the other, with an error of its own. *)
Definition tls_flags_together (fl : flags) : bool :=
  Bool.eqb (Changed fl "grpc-tls-cert") (Changed fl "grpc-tls-key").

Definition execute_serve (group_error : error) (now : Z) (fl : flags) : list string * result process :=
  if tls_flags_together fl then serveCmd now fl else ([], Err group_error).

(** A certificate without a key, or a key without a certificate, never starts
    a server, in either mode. *)
Lemma lone_tls_flag_refused group_error now fl :
  Changed fl "grpc-tls-cert" ≠ Changed fl "grpc-tls-key" →
  execute_serve group_error now fl = ([], Err group_error).
Proof. intros Hne. unfold execute_serve, tls_flags_together. by rewrite (proj2 (Bool.eqb_false_iff _ _) Hne). Qed.

(** ** What a started collector is *)

(** Everything the steps that can fail have checked. *)
Record started (now : Z) (fl : flags) (c : collector) : Prop := {
  started_store : New (open (fl_dataDir fl)) now = Ok (st (sy_server (c_system c)));
  started_state : ∃ metrics, c_system c =
    started_on (st (sy_server (c_system c))) (Some (Anomaly.New [])) (Some (Notify.DispatcherFromEnv Getenv)) (Some metrics);
  started_rules : Alerting.Validate regexp quote_go (Alerting.en_rules (c_engine c)) = None;
  started_checker : ∃ interval, c_checker c = (interval, fl_heartbeatTimeout fl, Registry.DefaultEvictAfter) ∧
    0 < interval ∧ 0 < fl_heartbeatTimeout fl;
  started_token : c_apiToken c = TrimSpace (Getenv HttpApi.EnvAPIToken);
  started_auth : c_auth c = true ↔ c_apiToken c ≠ "";
}.

Lemma checker_positive timeout :
  0 < timeout → ∃ interval, Registry.StartHeartbeatChecker timeout (Z.quot timeout 2) Registry.DefaultEvictAfter
    = (interval, timeout, Registry.DefaultEvictAfter) ∧ 0 < interval ∧ 0 < timeout.
Proof.
  intros Ht. unfold Registry.StartHeartbeatChecker. destruct (Z.leb_spec timeout 0); [lia|].
  eexists. split; [done|]. split; [|done].
  destruct (Z.leb_spec (Z.quot timeout 2) 0); [unfold Registry.DefaultHeartbeatInterval|]; lia.
Qed.

Lemma start_collector_started now fl c : start_collector now fl = Ok c → started now fl c.
Proof.
  unfold start_collector. destruct (New _ _) as [st|] eqn:Hst; [|done]. cbn [mbind result_bind].
  destruct (Z.leb_spec (fl_heartbeatTimeout fl) 0); [done|].
  destruct (Alerting.LoadRules _ _ _ _ _) as [ruleset|]; [|done]. cbn [mbind result_bind].
  destruct (Alerting.Validate _ _ _) as [|] eqn:Hv; [done|].
  destruct (Metrics.NewMetricsProvider _ _ _ _) as [metrics|]; [|done]. cbn [mbind result_bind].
  destruct (NewTracesProvider _ _) as [traces|]; [|done]. intros [= <-].
  split; cbn; try done; [by eexists|by apply checker_positive|]. by rewrite negb_true_iff, bool_decide_eq_false.
Qed.

Lemma serveCmd_collecting now fl warns c :
  serveCmd now fl = (warns, Ok (Collecting c)) →
  fl_aggregate fl = false ∧ start_collector now fl = Ok c ∧ warns = collector_warnings c.
Proof.
  unfold serveCmd. destruct (negb _ && _); [done|]. destruct logger; [done|].
  destruct (fl_aggregate fl) eqn:Ha.
  - unfold runAggregate. destruct (Aggregator.ParseUpstreams _ _ _) as [us|]; [|done]. cbn [mbind result_bind].
    by destruct (length us =? 0)%nat.
  - destruct (start_collector now fl) as [c'|]; [|done]. by intros [= <- <-].
Qed.

(** Aggregate mode touches neither the database nor the rules file, and polls
    at least one upstream. *)
Lemma serveCmd_aggregating now fl warns a srv dir cors tok :
  serveCmd now fl = (warns, Ok (Aggregating a srv dir cors tok)) →
  fl_aggregate fl = true ∧ Aggregator.upstreams a ≠ [] ∧ 0 < Aggregator.interval a ∧
  Aggregator.apiToken a = tok ∧ Aggregator.keyed a.
Proof.
  unfold serveCmd. destruct (negb _ && _); [done|]. destruct logger; [done|].
  destruct (fl_aggregate fl) eqn:Ha; [|by destruct (start_collector now fl)].
  unfold runAggregate. destruct (Aggregator.ParseUpstreams _ _ _) as [us|]; [|done]. cbn [mbind result_bind].
  destruct us as [|u us]; [done|]. cbn [length Nat.eqb]. intros [= _ <- _ _ _ <-].
  split; [done|]. split; [done|]. split; [|split; [done|apply Aggregator.New_keyed]].
  cbn. destruct (Z.leb_spec (fl_pollInterval fl) 0); [done|lia].
Qed.

Lemma no_auth_warning c :
  c_apiToken c ≠ "" → (c_auth c = true ↔ c_apiToken c ≠ "") → collector_warnings c ⊆ [no_tls].
Proof.
  intros Htok Hauth. unfold collector_warnings.
  rewrite bool_decide_eq_false_2 by done. rewrite (proj2 Hauth Htok). cbn [app negb]. rewrite app_nil_r.
  destruct (_ || _); set_solver.
Qed.

(** Without the variable both doors are open, and the log says so. *)
Lemma no_token_open now fl warns c :
  serveCmd now fl = (warns, Ok (Collecting c)) → TrimSpace (Getenv "SENTINEL_API_TOKEN") = "" →
  c_auth c = false ∧ unauthenticated "REST API" "a bearer token" ∈ warns ∧
  unauthenticated "gRPC server" "per-agent tokens" ∈ warns.
Proof.
  intros (_ & Hc & ->)%serveCmd_collecting Htok.
  destruct (start_collector_started _ _ _ Hc) as [_ _ _ _ Ht Hauth].
  change HttpApi.EnvAPIToken with "SENTINEL_API_TOKEN" in Ht. rewrite Htok in Ht.
  assert (c_auth c = false) as Hf by (destruct (c_auth c); [by destruct Hauth as [Hx _]; destruct Hx|done]).
  split; [done|]. unfold collector_warnings. rewrite Ht, Hf. cbn [negb]. set_solver.
Qed.

(** C3: One environment variable secures both doors.  When the collector starts
    with a SENTINEL_API_TOKEN that is not blank, on a database without a token
    for the empty node id, which [token issue] refuses to make, it warns of
    nothing but missing TLS, every gated REST route answers 401 to a request
    without exactly that bearer token, and in every state the running system
    reaches the tokens are those it started with, every registered node has an
    active per-agent token, and so has the node of every listed event that the
    database did not hold at the start. *)
Theorem token_secures_collector now fl warns c (lg0 : Log Event) t0 m :
  serveCmd now fl = (warns, Ok (Collecting c)) → TrimSpace (Getenv "SENTINEL_API_TOKEN") ≠ "" →
  refines (st (sy_server (c_system c))) lg0 t0 → lg_waiting lg0 = [] →
  holds (st (sy_server (c_system c))) m t0 → m !! "" = None →
  warns ⊆ [no_tls] ∧
  (∀ detector e rq h, HttpApi.gated detector (HttpApi.rq_path rq) = Some h →
     HttpApi.Router (c_staticDir c) (c_apiToken c) detector e rq =
     if decide (HttpApi.rq_authorization rq = "Bearer " +:+ TrimSpace (Getenv "SENTINEL_API_TOKEN")) then h e rq
     else HttpApi.Response 401 (HttpApi.BError "unauthorized")) ∧
  (∀ other_float timeout evictAfter lg t acts σ now node limit,
     reaches regexp other_float quote_go (Some (c_engine c)) (c_region c) (c_auth c) timeout evictAfter
       lg0 (c_system c) t0 lg t acts σ → t <= now →
     ListTokens Completes now (st (sy_server σ)) = Ok (table_list m) ∧
     (∀ id n, Registry.nodes (reg (sy_server σ)) !! id = Some n → ∃ rec, m !! id = Some rec ∧ active rec = true) ∧
     ∃ evs, ListEvents Completes now node limit (st (sy_server σ)) = Ok evs ∧
       Forall (λ e, kept lg0 e ∨ ∃ rec, m !! ev_NodeID e = Some rec ∧ active rec = true) evs).
Proof.
  intros (_ & Hc & ->)%serveCmd_collecting Htok Href Hw Hh Hempty.
  destruct (start_collector_started _ _ _ Hc) as [Hst [metrics Hsys] _ _ Ht Hauth].
  change HttpApi.EnvAPIToken with "SENTINEL_API_TOKEN" in Ht. rewrite <-Ht in Htok |- *.
  split; [by apply no_auth_warning|]. split.
  - intros detector e rq h Hg. unfold HttpApi.Router. rewrite Hg. by apply HttpApi.BearerAuth_exact.
  - intros other_float timeout evictAfter lg t acts σ now' node limit Hr Hnow.
    assert (starts lg0 t0 (c_system c)) as Hstart by (split; [done|done|by rewrite Hsys|by rewrite Hsys]).
    eapply (confined _ _ _ _ _ (c_auth c) _ _ _ _ _ _ _ _ _ _ _ node limit Hstart Hr Hnow); [by apply Hauth|done..].
Qed.

End Command.

(** ** Witness *)

Module Example.
#[local] Existing Instance Reference.badger.
Import Collector.Example.

Definition env0 (name : string) : string := if name =s "SENTINEL_API_TOKEN" then " s3cret " else "".
Definition disk0 (dir : string) : result DB := Ok (db s1).
Definition no_file (path : string) : option error := Some "no such file".
Definition no_text {A} (path : string) : result A := Err "no such file".

Definition c0 : collector :=
  MkCollector
    (started_on store1 (Some (Anomaly.New [])) (Some (Notify.DispatcherFromEnv env0)) (Some Metrics.no_metrics))
    (Alerting.New (Some (Alerting.MkRuleSet []))) "default" (30 * Second, 60 * Second, Registry.DefaultEvictAfter)
    Minute (MkTraces None) (newHTTPServer ":8081") "./static" [] "s3cret" ":50051" "" "" true.

Abbreviation serve0 :=
  (serveCmd disk0 env0 None no_file no_text no_text Receiver.Example.no_regexp GoJson.Quote None None None None
     no_file no_text T default_flags).

Lemma serve0_ex : serve0 = ([no_tls], Ok (Collecting c0)).
Proof.
  unfold serveCmd. change (negb _ && _) with false. cbv iota. change (fl_aggregate default_flags) with false. cbv iota.
  unfold start_collector. change (fl_dataDir default_flags) with "/tmp/sentinel-data". change (disk0 _) with (Ok (db s1)). rewrite store1_opened. reflexivity.
Qed.

Definition result2 : option (Log Event * Z * list (nat * action) * system) :=
  run_labels Receiver.Example.no_regexp Receiver.Example.no_float GoJson.Quote (Some (c_engine c0)) (c_region c0)
    (c_auth c0) (60 * Second) Hour (take 6 labels0) empty_log T [] (c_system c0).
Definition system2 : system := from_option (λ x, x.2) (c_system c0) result2.

Lemma reaches_system2 : ∃ (lg : Log Event) acts,
  reaches Receiver.Example.no_regexp Receiver.Example.no_float GoJson.Quote (Some (c_engine c0)) (c_region c0)
    (c_auth c0) (60 * Second) Hour empty_log (c_system c0) T lg T acts system2.
Proof.
  assert (match result2 with Some x => x.1.1.2 =? T | None => false end = true) as Hx by (vm_compute; reflexivity).
  unfold system2. destruct result2 as [[[[lg t] acts] σ]|] eqn:Hr; [|done]. cbn in Hx. apply Z.eqb_eq in Hx as ->.
  exists lg, acts. cbn [from_option]. eapply run_labels_reaches; [apply Forall_take, labels0_ok|apply reach_start|exact Hr].
Qed.

End Example.
Import Example Collector.Example.
#[local] Existing Instance Reference.badger.

Lemma token_secures_collector_witness :
  HttpApi.Router "./static" "s3cret" None HttpApi.Example.env0 (HttpApi.Request "/api/events" [] "Bearer guess")
    = HttpApi.Response 401 (HttpApi.BError "unauthorized") ∧
  ∃ evs, ListEvents Completes (T + Hour) "" 10 (st (sy_server system2)) = Ok evs ∧
    Forall (λ e, kept empty_log e ∨ ∃ rec, m1 !! ev_NodeID e = Some rec ∧ active rec = true) evs.
Proof.
  destruct (token_secures_collector disk0 env0 None no_file no_text no_text Receiver.Example.no_regexp GoJson.Quote
    None None None None no_file no_text T default_flags _ c0 empty_log T m1 serve0_ex ltac:(vm_compute; discriminate)
    (start_refines _ _ _ starts0) eq_refl holds_store1 eq_refl) as (_ & Hrest & Hgrpc).
  split.
  - apply (Hrest None HttpApi.Example.env0 (HttpApi.Request "/api/events" [] "Bearer guess") HttpApi.get_events eq_refl).
  - destruct reaches_system2 as (lg & acts & Hr).
    destruct (Hgrpc _ _ _ _ _ _ _ (T + Hour) "" 10 Hr ltac:(by vm_compute)) as (_ & _ & Hevs). exact Hevs.
Defined.

End Serve.
